(* ===== verification/_CoqProject ===== *)
-Q . S2P
Prelude.v
CString.v
Dictionary.v
Slist.v
Tailq.v
QueueClient.v
Stailq.v
Blist.v
Pipeline.v
PipelineInv.v
PipelineProps.v
PipelineTypes.v
PipelineQueues.v
PipelineLive.v
PipelineDrain.v
RbTree.v
RbRemove.v
Splay.v
RbMem.v
RbLogic.v
RbLinked.v
RbClient.v
Stage.v
StageMem.v
Mempool.v
MempoolClient.v
Utils.v
Supervisor.v
IniParser.v
ConfParser.v
Format.v
Address.v
SelfTest.v
NetIo.v
Monitor.v
MonitorProps.v
Log.v
LogProps.v
Module.v
ModuleLib.v
PipelineInit.v
TcpSend.v
Sendfile.v
Server.v
Worker.v
Startup.v
