(* ===== verification/Prelude.v ===== *)
(** * A verification of CSF, a pipelined server framework in C

    CSF (src/csf) accepts connections, lets a protocol module turn the data into
    requests, and sends each request through a pipeline of stages, each with a
    queue and a pool of threads that run a handler of a dynamically loaded module.
    The main thread collects the completed requests and calls their responders.
    Around this core are an INI parser, a memory pool, a loader of modules, a TCP
    and a UDP transport, a logger, a monitor that answers commands over a socket,
    BSD queues and trees, and a supervisor that starts the worker process and
    starts it again when it ends.

    ** Files and what they model

    - Prelude: 8-bit strings and C string functions, 32 and 64-bit integers with
      their wrap-around, the monad [Alloc] of computations that allocate (the
      outcomes of [malloc] are a list that stands for the system; [None] is
      undefined behaviour), [ensures] for what holds of a result if there is one,
      tactics and hints, list lemmas.
    - CString: utils/strlcpy.c and strlcat.c on arrays of bytes.
    - Dictionary: confparser/dictionary.c, a growing table of keys and values with
      three parallel arrays. [dict_map] is its abstract finite map.
    - Slist, Tailq, Stailq, Blist: the SLIST, TAILQ, STAILQ and LIST macros of
      include/queue.h on linked memory. [slist m h l], [tailq m q l], [stailq m q l]
      and [blist m h l] say that a head of the memory [m] links exactly the
      elements [l]; the other files use the lists.
    - QueueClient: programs of queue operations and their specification on finite
      maps of lists; the class [LinkedQueue] is what such a program relies on, with
      one instance per family of macros.
    - Pipeline: pipeline.c, submit_request.c and the reference counts of server.h:
      one record [world] of all globals and the heap of requests, connections,
      queues and threads, and one function per operation.
    - PipelineInv: the steps of the running pipeline ([op], [exec], [enabled],
      [step]) and the invariant [pinv]: [wf] (lengths, links), [heap_ok]
      (reference counts), [accounted] (each request in one place, the counter).
    - PipelineProps, PipelineLive: the theorems about submission, completion and
      worker exit, the operations that break the accounting, and progress.
    - PipelineDrain: a measure of the work left ([todo]) that no step raises and
      that bounds the steps of every schedule ([drain]).
    - PipelineTypes: the C types of all fields ([typed]), for steps in which any
      pthread call may fail.
    - PipelineQueues: the TAILQ calls of every operation of the pipeline ([exec_ops]),
      which connect its lists of requests to linked memory.
    - RbTree, RbRemove: the red-black trees of include/tree.h, with the chain of
      parent pointers as a context. The class [OrderedIndex] is what their users rely on.
    - RbMem: the same macros on linked memory, with every assignment to a pointer.
      RbLogic is the separation logic, on top of Iris, in which RbLinked proves that
      they do what the functions of RbTree and RbRemove do; RbClient states the
      result without the logic.
    - Splay: the splay trees of include/tree.h; the two trees that a splay builds
      are the lists of the links it has made.
    - Stage: pipeline_stage.c, the index of stages by name, over [OrderedIndex];
      StageMem: the same on linked memory, with the macros of RbMem.
    - Mempool: mempool.c, caches of blocks per size, over [OrderedIndex].
    - MempoolClient: what the users of the pool rely on.
    - Utils: utils.c: [daemonize] on the state of a process, [_smalloc], [_sfree].
    - Supervisor: main.c: the waits, the signal handler, which may wait itself, the
      loop that launches workers, and the path of the worker. The events that a
      wait meets are a list.
    - IniParser: confparser/iniparser.c: the line parser, which is a sequence of
      [sscanf] formats, loading from a file and from memory, queries, dumps.
    - ConfParser: confparser/confparser.c: arrays of variables filled from a file.
    - Format: the conversions of [printf] that the logger and the monitor use.
    - Address: [ip2str] of protocol.c and libprotocol.c.
    - SelfTest: the test programs of confparser/dictionary.c and testmem.c.
    - NetIo, Monitor, MonitorProps: monitor.c: [readn], [writen] and [readline] over
      scripts of system answers; the list of registered variables, the commands,
      the poll loop and the initialisation; their theorems.
    - Log, LogProps: log.c: statics of one copy of the logger, the shared handles,
      the files, time points and rotation; their theorems.
    - Module: module.c, loading of modules into the ordered queue of MOD_CONFIGs;
      the dynamic loader and the modules are parameters.
    - ModuleLib: libmod.c, libprotocol.c and the calls of protocol.c: what is linked
      into a module, with its own copies of logger, monitor, stage index and pool.
    - PipelineInit: [pipeline_init] and what it calls: from that queue to a state
      that satisfies [booted], from which [pinv] holds.
    - TcpSend: the sending functions of tcp.c over a script of system answers.
    - Sendfile: [tcp_sendfile] of tcp.c for each system it can be compiled for.
    - Server: the event handlers of tcp.c, udp.c and data.c and HUP_process of
      worker.c on the world of the pipeline; the class [Session] is what they rely
      on in a protocol module.
    - Worker: the configuration and [csf_init] of worker.c, which puts the parts
      together.
    - Startup: the rest of worker.c (working directory, options, pid file, signal
      thread, main) and server.c (user and group, event loop, [server_init]).

    The C structures are records with the fields' names (prefixed where two
    structures share one), pointers to objects of the heap are numbers, NULL is
    [None], a function that may touch NULL, freed or foreign memory returns
    [option] or [Alloc] and has no result then. Mutexes: a critical section is
    one step of the pipeline; the outcome of every [trylock] and the order of the
    steps are arbitrary. System calls are parameters or scripts of their results.

    ** What the theorems show

    - Pipeline: the invariant holds in every reachable state and every enabled
      step is free of memory errors; submissions are first in, first out, and
      admitted exactly as documented; a pass over the done queue answers and
      frees each completed request once; from every such state with a thread per
      stage all requests can be completed, and without new ones no schedule of
      threads takes more than 2 * n + 2 steps per request to do so in n stages;
      workers leave only when nothing is
      left; start-up reaches such a state from the configuration file, in any order
      of the threads; the event handlers and the signal thread keep the invariant.
      Every field keeps its C type even where the accounting is lost, and every run
      is a run of the TAILQ macros on linked memory.
    - Processes: the supervisor restarts, forwards, stops and ends as its comments
      say, and never waits without end; the worker serves with the configured ids
      and events, or exits with a status to which the supervisor reacts.
    - Modules: a module is connected to the worker and registered as it asked.
    - Monitor: the loop is memory-safe for all clients; registration refines an
      abstract list; a reply holds exactly the records asked for, and reading a
      record back gives the stored number.
    - Logger: every record is in the file of its period, once and in order.
    - Red-black trees: every program of RB_ operations on linked memory ends, follows
      no bad pointer, gives the answers of a sorted list and writes nothing outside
      its tree; searches take a logarithmic number of comparisons. The stage index
      on this memory is a finite map from names to stages.
    - Containers: the dictionary, the trees of both kinds, the four kinds of queues
      and the pool implement a finite map, sorted sets, lists and disjoint blocks;
      the dictionary's own test finds nothing wrong.
    - Configuration: parsing a printed file gives its meaning, and the variables
      get exactly the values the file names.
    - Sending: the bytes the peer receives are the bytes given, in order, under
      stated conditions on the socket; repeated [tcp_sendfile] sends the file
      without loss or repetition.
    - Defects of the code are stated as theorems too, next to the operation:
      requests queued twice, counters that wrap, uses of freed memory, bytes sent
      twice, errors that are forgotten, stages that modules cannot find.

    ** Bounds and fuel

    Loops over data recurse on the data; loops driven by the system recurse on
    the script of its answers, and theorems that the loop ends name the scripts
    for which it does. [stage_chain] and [free_chain] take the number of stages as
    fuel, which no chain without a cycle exceeds; [load_loop] takes one more than
    the length of the file, and each round reads at least one byte;
    [load_mem_loop] takes two more than the length of the image. [process_wait]
    takes one more than the number of events, of which every round uses one
    ([process_wait_fuel]); [dec_loop] takes the number of binary digits. The loops
    of a splay take the size of the tree, which every round makes smaller; the
    loops over a queue and over a tree take its length; the walks along the pointers
    of a red-black tree take the number of elements in memory ([rb_fuel]).

    ** Not modelled

    The output of messages and of help texts, the attributes of threads, the calls
    of the event library after the events are registered, the debug traces of
    queue.h; component/redis/redis.c holds no code. [atof] and the functions of the
    dynamically loaded modules are parameters. *)

From Stdlib Require Import String.
From Stdlib Require Export ZArith Lia Ascii.
From stdpp Require Export base tactics list gmap strings numbers option.
#[export] Set Warnings "-clear-no-such-hyp".

(** The development's own notation scope. *)
Declare Scope csf_scope.
Delimit Scope csf_scope with csf.
Open Scope Z_scope.
Open Scope csf_scope.

(** The hint database that closes the routine bounds and list goals. *)
Create HintDb csf.

(** The status codes of utils.h. *)
Definition CSF_OK : Z := 0.
Definition CSF_ERR : Z := -1.

(** * C strings *)

(** The content of a NUL-terminated C string: its characters without the
    terminator. *)
Abbreviation cstr := (list ascii).

(** A block of bytes, as an array of [char] is. *)
Abbreviation buffer := (list ascii).

Definition NUL : ascii := Ascii.zero.

(** A string literal as the list of its characters. *)
Definition lit (s : string) : cstr := String.list_ascii_of_string s.

Notation "'L' s" := (lit s%string) (at level 9, s at level 0) : csf_scope.

(** A character of known code, for the control characters. *)
Definition chr (n : nat) : ascii := ascii_of_nat n.

Definition LF : ascii := chr 10.
Definition CR : ascii := chr 13.
Definition QUOTE : ascii := chr 34.
Definition BACKSLASH : ascii := chr 92.

(** The value of a [char] converted to [unsigned char], and to [int] on a
    platform whose [char] is signed (x86). *)
Definition uchar (c : ascii) : Z := Z.of_N (N_of_ascii c).

Definition schar (c : ascii) : Z := if uchar c <? 128 then uchar c else uchar c - 256.

(** [isspace] and [tolower] of the C locale. *)
Definition isspace (c : ascii) : bool :=
  ((9 <=? uchar c) && (uchar c <=? 13)) || (uchar c =? 32).

Definition tolower (c : ascii) : ascii :=
  if (65 <=? uchar c) && (uchar c <=? 90) then ascii_of_nat (Z.to_nat (uchar c + 32)) else c.

(** [strncmp] on string contents: the sign of the first difference among the
    first [n] characters, the end of a string counting as the character 0. *)
Fixpoint strncmp (n : nat) (a b : cstr) : Z :=
  match n with
  | O => 0
  | S n' =>
      match a, b with
      | [], [] => 0
      | [], c :: _ => - uchar c
      | c :: _, [] => uchar c
      | c :: a', c' :: b' =>
          if uchar c =? uchar c' then if uchar c =? 0 then 0 else strncmp n' a' b' else uchar c - uchar c'
      end
  end.

(** * Machine integers *)

Definition u32 (z : Z) : Z := z mod 2 ^ 32.

Definition u64 (z : Z) : Z := z mod 2 ^ 64.

(** The conversion of a [long] to a 32-bit [int]. *)
Definition i32 (z : Z) : Z := (z + 2 ^ 31) mod 2 ^ 32 - 2 ^ 31.

Definition INT_MAX : Z := 2 ^ 31 - 1.

Lemma u32_small z : 0 <= z < 2 ^ 32 -> u32 z = z.
Proof. intros; unfold u32; apply Z.mod_small; lia. Qed.

Lemma u64_small z : 0 <= z < 2 ^ 64 -> u64 z = z.
Proof. intros; unfold u64; apply Z.mod_small; lia. Qed.

Lemma u32_range z : 0 <= u32 z < 2 ^ 32.
Proof. unfold u32; apply Z.mod_pos_bound; lia. Qed.

Lemma u64_range z : 0 <= u64 z < 2 ^ 64.
Proof. unfold u64; apply Z.mod_pos_bound; lia. Qed.

Lemma i32_small z : - 2 ^ 31 <= z < 2 ^ 31 -> i32 z = z.
Proof. intros; unfold i32; rewrite Z.mod_small; lia. Qed.

(** Incrementing or decrementing a wrapped counter follows the count itself. *)
Lemma u64_succ z : u64 (u64 z + 1) = u64 (z + 1).
Proof. unfold u64; rewrite Zplus_mod_idemp_l; reflexivity. Qed.

Lemma u64_pred z : u64 (u64 z - 1) = u64 (z - 1).
Proof. unfold u64; rewrite Zminus_mod_idemp_l; reflexivity. Qed.

Lemma u32_add_l z y : u32 (u32 z + y) = u32 (z + y).
Proof. unfold u32; rewrite Zplus_mod_idemp_l; reflexivity. Qed.

Lemma u32_sub_l z y : u32 (u32 z - y) = u32 (z - y).
Proof. unfold u32; rewrite Zminus_mod_idemp_l; reflexivity. Qed.

#[export] Hint Resolve u32_small u64_small u32_range u64_range : csf.

(** * Computations that allocate and may fault

    An allocating computation reads the outcomes of its coming calls to
    [malloc] and [calloc] from a list ([true]: the call returns memory, [false]:
    it returns NULL; past the end of the list every call succeeds). The result
    [None] stands for undefined behaviour: a dereference of NULL, an access out
    of the bounds of an array, or a signed overflow. *)
Definition Alloc (A : Type) : Type := list bool -> option (A * list bool).

#[export] Instance alloc_ret : MRet Alloc := fun A x o => Some (x, o).

#[export] Instance alloc_bind : MBind Alloc :=
  fun A B f m o =>
    match m o with
    | Some (x, o') => f x o'
    | None => None
    end.

Definition fault {A} : Alloc A := fun _ => None.

(** One call of [malloc] or [calloc]: whether it returned memory. *)
Definition allocate : Alloc bool :=
  fun o => match o with
           | [] => Some (true, [])
           | b :: o' => Some (b, o')
           end.

(** Lift a partial access into an allocating computation. *)
Definition access {A} (x : option A) : Alloc A := fun o => (fun a => (a, o)) <$> x.

(** Running a bind whose first computation is known. *)
Lemma alloc_bind_eq {A B} (m : Alloc A) (f : A -> Alloc B) o x o' :
  m o = Some (x, o') -> (m ≫= f) o = f x o'.
Proof. intros E. unfold mbind, alloc_bind. by rewrite E. Qed.

Lemma alloc_bind_None {A B} (m : Alloc A) (f : A -> Alloc B) o : m o = None -> (m ≫= f) o = None.
Proof. intros E. unfold mbind, alloc_bind. by rewrite E. Qed.

Lemma access_Some {A} (x : option A) a o : x = Some a -> access x o = Some (a, o).
Proof. by intros ->. Qed.

(** Every result of an allocating computation satisfies [P], whatever the
    outcomes of its allocations. *)
Definition yields {A} (m : Alloc A) (P : A -> Prop) : Prop := forall o x o', m o = Some (x, o') -> P x.

Lemma yields_ret {A} (x : A) (P : A -> Prop) : P x -> yields (mret x) P.
Proof. by intros H ? ? ? [= <- _]. Qed.

Lemma yields_bind {A B} (m : Alloc A) (f : A -> Alloc B) (P : A -> Prop) (Q : B -> Prop) :
  yields m P -> (forall x, P x -> yields (f x) Q) -> yields (m ≫= f) Q.
Proof.
  intros Hm Hf o y o' E. unfold mbind, alloc_bind in E. destruct (m o) as [[x o1]|] eqn:E1; [|done].
  exact (Hf x (Hm _ _ _ E1) _ _ _ E).
Qed.

Lemma yields_any {A B} (m : Alloc A) (f : A -> Alloc B) (Q : B -> Prop) :
  (forall x, yields (f x) Q) -> yields (m ≫= f) Q.
Proof. intros Hf. apply (yields_bind m f (fun _ => True)); [done|auto]. Qed.

Lemma yields_fault {A} (P : A -> Prop) : yields fault P.
Proof. done. Qed.

#[export] Hint Resolve yields_ret yields_fault : csf.

(** * Partial results that satisfy a predicate *)

Definition ensures {A} (P : A -> Prop) (m : option A) : Prop := forall x, m = Some x -> P x.

Lemma ensures_bind {A B} (P : A -> Prop) (Q : B -> Prop) (f : A -> option B) m :
  ensures P m -> (forall x, P x -> ensures Q (f x)) -> ensures Q (m ≫= f).
Proof. intros Hm Hf y. destruct m as [x|]; [|done]. cbn. apply Hf. by apply Hm. Qed.

Lemma ensures_Some {A} (P : A -> Prop) x : P x -> ensures P (Some x).
Proof. by intros H ? [= <-]. Qed.

(** A value read from the heap: only where it came from matters. *)
Lemma ensures_read {A B} (Q : B -> Prop) (f : A -> option B) m :
  (forall x, m = Some x -> ensures Q (f x)) -> ensures Q (m ≫= f).
Proof. intros Hf y. destruct m as [x|] eqn:E; [|done]. by apply Hf. Qed.

Lemma ensures_fmap {A B} (P : A -> Prop) (Q : B -> Prop) (f : A -> B) m :
  ensures P m -> (forall x, P x -> Q (f x)) -> ensures Q (f <$> m).
Proof. intros Hm Hf y. destruct m as [x|]; [|done]. intros [= <-]. apply Hf. by apply Hm. Qed.

(** * Tactics *)

(** Execute the next step of an allocating computation with a known outcome. *)
Ltac alloc_step H := erewrite alloc_bind_eq by (first [exact H | apply access_Some; exact H]); cbv beta iota.

(** Split every [match] and [if] of the goal, and close the impossible cases. *)
Ltac case_all := repeat (case_match; simplify_eq/=; try done).

(** Turn boolean comparisons of hypotheses and goal into propositions. *)
Ltac bool_props :=
  repeat match goal with
         | H : (_ && _)%bool = true |- _ => apply andb_prop in H as [? ?]
         | H : (_ && _)%bool = false |- _ => apply andb_false_iff in H
         | H : (_ || _)%bool = false |- _ => apply orb_false_iff in H as [? ?]
         | H : (_ <=? _) = true |- _ => apply Z.leb_le in H
         | H : (_ <=? _) = false |- _ => apply Z.leb_gt in H
         | H : (_ <? _) = true |- _ => apply Z.ltb_lt in H
         | H : (_ <? _) = false |- _ => apply Z.ltb_ge in H
         | H : (_ =? _) = true |- _ => apply Z.eqb_eq in H
         | H : (_ =? _) = false |- _ => apply Z.eqb_neq in H
         end.

(** * Lists *)

Section lists.
Context {A : Type}.
Implicit Types (l : list A) (i : nat).

(** Updating one element of a list changes a sum over it by the difference. *)
Lemma sum_list_with_insert (f : A -> nat) l i x y :
  l !! i = Some x ->
  (sum_list_with f (<[i:=y]> l) + f x = sum_list_with f l + f y)%nat.
Proof.
  revert i; induction l as [|a l IH]; intros [|i] H; simplify_eq/=; [lia|].
  specialize (IH i H); lia.
Qed.

Lemma sum_list_with_lookup (f : A -> nat) l i x :
  l !! i = Some x -> (f x <= sum_list_with f l)%nat.
Proof. intros H; apply sum_list_with_in, list_elem_of_lookup_2 with i, H. Qed.

Lemma sum_list_with_zero (f : A -> nat) l :
  (forall x, x ∈ l -> f x = 0%nat) -> sum_list_with f l = 0%nat.
Proof.
  induction l as [|a l IH]; intros H; [done|].
  cbn; rewrite (H a), IH; [lia| |by left].
  intros x Hx; apply H; by right.
Qed.

End lists.

(** How often [x] occurs in [l]. *)
Fixpoint occurs (x : nat) (l : list nat) : nat :=
  match l with
  | [] => 0
  | y :: l' => (if Nat.eqb x y then 1 else 0) + occurs x l'
  end%nat.

Lemma occurs_app x l k : occurs x (l ++ k) = (occurs x l + occurs x k)%nat.
Proof. induction l as [|y l IH]; cbn; [done|]. rewrite IH; lia. Qed.

Lemma occurs_zero x l : occurs x l = 0%nat <-> x ∉ l.
Proof.
  induction l as [|y l IH]; cbn.
  - split; [intros _; apply not_elem_of_nil|done].
  - rewrite not_elem_of_cons.
    destruct (Nat.eqb_spec x y) as [->|Hne]; [split; [lia|tauto]|].
    rewrite <-IH. split; [tauto|lia].
Qed.

Lemma occurs_pos x l : (0 < occurs x l)%nat <-> x ∈ l.
Proof.
  destruct (decide (x ∈ l)) as [Hi|Hi].
  - split; [done|intros _]. destruct (occurs x l) eqn:E; [|lia].
    by apply occurs_zero in E.
  - pose proof (proj2 (occurs_zero x l) Hi). split; [lia|done].
Qed.

Lemma occurs_singleton x y : occurs x [y] = if Nat.eqb x y then 1%nat else 0%nat.
Proof. cbn; destruct (Nat.eqb x y); reflexivity. Qed.

(** Without duplicates exactly when nothing occurs twice. *)
Lemma occurs_NoDup l : NoDup l <-> forall x, (occurs x l <= 1)%nat.
Proof.
  induction l as [|y l IH]; [split; [cbn; lia|constructor]|].
  rewrite list.NoDup_cons, IH. split.
  - intros [Hy Hl] x. cbn. specialize (Hl x).
    destruct (Nat.eqb_spec x y) as [->|]; [|lia].
    apply occurs_zero in Hy. lia.
  - intros H. split.
    + specialize (H y). cbn in H. rewrite Nat.eqb_refl in H. apply occurs_zero. lia.
    + intros x. specialize (H x). cbn in H. lia.
Qed.

(** Compute the occurrences in appended and literal lists. *)
Ltac occ_simpl := rewrite ?occurs_app, ?occurs_singleton in *; cbn [occurs] in *.

(** * Strings *)

Lemma NUL_dec (c : ascii) : {c = NUL} + {c <> NUL}.
Proof. apply ascii_dec. Defined.

(** A proper string content contains no terminator. *)
Definition no_nul (s : cstr) : Prop := NUL ∉ s.

#[export] Instance no_nul_dec s : Decision (no_nul s).
Proof. unfold no_nul; apply _. Defined.

Lemma strncmp_refl n a : strncmp n a a = 0.
Proof.
  revert a; induction n as [|n IH]; intros [|c a]; cbn; try done.
  rewrite Z.eqb_refl. by destruct (_ =? 0).
Qed.

Lemma uchar_inj c c' : uchar c = uchar c' -> c = c'.
Proof.
  unfold uchar; intros H. apply N2Z.inj in H.
  rewrite <-(ascii_N_embedding c), <-(ascii_N_embedding c'). by rewrite H.
Qed.

Lemma uchar_range c : 0 <= uchar c < 256.
Proof.
  unfold uchar. pose proof (N_ascii_bounded c). lia.
Qed.

Lemma uchar_pos c : c <> NUL -> 0 < uchar c.
Proof.
  intros H. pose proof (uchar_range c). destruct (Z.eq_dec (uchar c) 0) as [E|]; [|lia].
  destruct H. apply uchar_inj. by rewrite E.
Qed.

(** [strncmp] finds two strings equal exactly when their first [n] characters are. *)
Lemma strncmp_zero n a b :
  no_nul a -> no_nul b -> strncmp n a b = 0 <-> take n a = take n b.
Proof.
  unfold no_nul. revert a b; induction n as [|n IH]; intros a b Ha Hb; [done|].
  destruct a as [|c a], b as [|c' b]; cbn; try done.
  - apply not_elem_of_cons in Hb as [Hc _]. pose proof (uchar_pos c' ltac:(done)).
    split; [lia|done].
  - apply not_elem_of_cons in Ha as [Hc _]. pose proof (uchar_pos c ltac:(done)).
    split; [lia|done].
  - apply not_elem_of_cons in Ha as [_ Ha]; apply not_elem_of_cons in Hb as [Hc' Hb].
    destruct (Z.eqb_spec (uchar c) (uchar c')) as [E|E].
    + apply uchar_inj in E as ->. pose proof (uchar_pos c' ltac:(done)).
      rewrite (proj2 (Z.eqb_neq _ _)), IH by (done || lia). split; congruence.
    + split; [lia|]. intros [=-> _]. done.
Qed.

(** [strncmp] is an order. *)
Lemma strncmp_opp n a b : strncmp n a b = - strncmp n b a.
Proof.
  revert a b; induction n as [|n IH]; intros [|c a] [|c' b]; cbn; try lia.
  rewrite (Z.eqb_sym (uchar c')). destruct (Z.eqb_spec (uchar c) (uchar c')) as [E|]; [|lia].
  rewrite E. destruct (uchar c' =? 0); [done|apply IH].
Qed.

Lemma strncmp_trans n a b c : strncmp n a b <= 0 -> strncmp n b c <= 0 -> strncmp n a c <= 0.
Proof.
  revert a b c; induction n as [|n IH]; intros [|x a] [|y b] [|z c]; cbn; try lia;
    try pose proof (uchar_range x); try pose proof (uchar_range y); try pose proof (uchar_range z);
    repeat match goal with |- context [?u =? ?v] => destruct (Z.eqb_spec u v) end; try lia.
  apply IH.
Qed.

Lemma elem_of_drop_incl {A} (x : A) n l : x ∈ drop n l -> x ∈ l.
Proof. intros H. rewrite <-(take_drop n l). apply elem_of_app. by right. Qed.

Lemma elem_of_take_incl {A} (x : A) n l : x ∈ take n l -> x ∈ l.
Proof. intros H. rewrite <-(take_drop n l). apply elem_of_app. by left. Qed.

Lemma no_nul_drop n s : no_nul s -> no_nul (drop n s).
Proof. unfold no_nul; eauto using elem_of_drop_incl. Qed.

Lemma no_nul_take n s : no_nul s -> no_nul (take n s).
Proof. unfold no_nul; eauto using elem_of_take_incl. Qed.

Lemma no_nul_app s t : no_nul (s ++ t) <-> no_nul s /\ no_nul t.
Proof. unfold no_nul. rewrite not_elem_of_app. done. Qed.

Lemma no_nul_cons c s : no_nul (c :: s) <-> c <> NUL /\ no_nul s.
Proof. unfold no_nul. rewrite not_elem_of_cons. split; intros []; by split; auto. Qed.

Lemma no_nul_nil : no_nul [].
Proof. apply not_elem_of_nil. Qed.

#[export] Hint Resolve no_nul_drop no_nul_take no_nul_nil : csf.
