(* ===== verification/CString.v ===== *)
(** Bounded string copying: [strlcpy] and [strlcat] of src/utils, on arrays of
    bytes. Every other component uses their value-level meaning, [strlcpy_str],
    which [strlcpy_fits] and [strlcpy_truncates] justify. *)

From S2P Require Import Prelude.

(** The length of the string that starts a block; [None] when no terminator is
    found inside the block (the read leaves it). *)
Fixpoint strlen (mem : buffer) : option nat :=
  match mem with
  | [] => None
  | c :: mem' => if ascii_dec c NUL then Some O else S <$> strlen mem'
  end.

(** A store into an array; [None] when it is out of bounds. *)
Definition poke (dst : buffer) (d : nat) (c : ascii) : option buffer :=
  if decide (d < length dst)%nat then Some (<[d:=c]> dst) else None.

(** The loop of [strlcpy] that copies while [--n != 0], up to a terminator, entered with [n] not zero: the final [n], the destination, and both
    positions. *)
Fixpoint strlcpy_loop (n : nat) (dst : buffer) (d : nat) (src : buffer) (s : nat)
  : option (nat * buffer * nat * nat) :=
  match n with
  | O => None
  | S O => Some (O, dst, d, s)
  | S n' =>
      c ← src !! s;
      dst' ← poke dst d c;
      if ascii_dec c NUL then Some (n', dst', S d, S s)
      else strlcpy_loop n' dst' (S d) src (S s)
  end.

(** [strlcpy]: the destination after the call and the returned count. *)
Definition strlcpy (dst src : buffer) (siz : nat) : option (buffer * nat) :=
  '(n, dst1, d, s) ← (match siz with
                      | O => Some (O, dst, O, O)
                      | _ => strlcpy_loop siz dst O src O
                      end);
  match n with
  | O =>
      dst2 ← (match siz with O => Some dst1 | _ => poke dst1 d NUL end);
      rest ← strlen (drop s src);
      Some (dst2, s + rest)%nat
  | _ => Some (dst1, s - 1)%nat
  end.

(** The loop of [strlcat] that looks for the end of the destination, going
    forward while [n-- != 0] and no terminator is met: the position it stops at. *)
Fixpoint strlcat_end (n : nat) (dst : buffer) (d : nat) : option nat :=
  match n with
  | O => Some d
  | S n' =>
      c ← dst !! d;
      if ascii_dec c NUL then Some d else strlcat_end n' dst (S d)
  end.

(** The loop of [strlcat] that walks the source up to its terminator and copies
    a character while [n != 1]. *)
Fixpoint strlcat_loop (n : nat) (dst : buffer) (d : nat) (src : buffer) (s : nat)
  : option (buffer * nat * nat) :=
  match src with
  | [] => None
  | c :: src' =>
      if ascii_dec c NUL then Some (dst, d, s)
      else if decide (n = 1%nat) then strlcat_loop n dst d src' (S s)
      else dst' ← poke dst d c; strlcat_loop (n - 1) dst' (S d) src' (S s)
  end.

(** [strlcat]: the destination after the call and the returned count. *)
Definition strlcat (dst src : buffer) (siz : nat) : option (buffer * nat) :=
  dlen ← strlcat_end siz dst O;
  match (siz - dlen)%nat with
  | O => len ← strlen src; Some (dst, dlen + len)%nat
  | n =>
      '(dst1, d, s) ← strlcat_loop n dst dlen src O;
      dst2 ← poke dst1 d NUL;
      Some (dst2, dlen + s)%nat
  end.

(** The value-level meaning of [strlcpy]: the string the destination holds. *)
Definition strlcpy_str (siz : nat) (s : cstr) : cstr := take (siz - 1) s.

(** * Lemmas *)

Lemma strlen_cstr (str : cstr) rest : no_nul str -> strlen (str ++ NUL :: rest) = Some (length str).
Proof.
  unfold no_nul. induction str as [|c str IH]; intros H; cbn; [done|].
  apply not_elem_of_cons in H as [Hc H]. destruct (ascii_dec c NUL); [congruence|].
  by rewrite IH.
Qed.

Lemma poke_app l c' r c : poke (l ++ c' :: r) (length l) c = Some (l ++ c :: r).
Proof.
  unfold poke. rewrite decide_True by (rewrite length_app; cbn; lia).
  by rewrite insert_app_r_alt, Nat.sub_diag by lia.
Qed.

Lemma poke_at dst d c :
  (d < length dst)%nat -> poke dst d c = Some (take d dst ++ c :: drop (S d) dst).
Proof.
  intros H. unfold poke. rewrite decide_True by done.
  by rewrite insert_take_drop.
Qed.

(** The copying loop in closed form: it copies until the terminator or until
    one byte is left. *)
Lemma strlcpy_loop_spec n done_ dst str rest pre :
  no_nul str -> (0 < n)%nat -> (n <= length dst)%nat ->
  strlcpy_loop n (done_ ++ dst) (length done_) (pre ++ str ++ NUL :: rest) (length pre) =
  if decide (length str < n - 1)%nat
  then Some (n - 1 - length str, done_ ++ str ++ NUL :: drop (S (length str)) dst,
             length done_ + length str + 1, length pre + length str + 1)%nat
  else Some (0, done_ ++ take (n - 1) str ++ drop (n - 1) dst,
             length done_ + (n - 1), length pre + (n - 1))%nat.
Proof.
  unfold no_nul.
  revert done_ dst str pre; induction n as [|n IH]; intros dn dst str pre Hs Hn Hd; [lia|].
  destruct n as [|n].
  { cbn. rewrite decide_False by lia. by rewrite !Nat.add_0_r. }
  destruct dst as [|x dst]; [cbn in Hd; lia|].
  change (strlcpy_loop (S (S n))) with
    (fun dst d src s => c ← src !! s; dst' ← poke dst d c;
       if ascii_dec c NUL then Some (S n, dst', S d, S s)
       else strlcpy_loop (S n) dst' (S d) src (S s)).
  cbv beta. rewrite lookup_app_r, Nat.sub_diag by lia.
  destruct str as [|c str].
  { cbn. rewrite poke_app. cbn. repeat f_equal; lia. }
  apply not_elem_of_cons in Hs as [Hc Hs].
  change (((c :: str) ++ NUL :: rest) !! 0%nat) with (Some c). cbn [mbind option_bind].
  rewrite poke_app. cbn [mbind option_bind].
  destruct (ascii_dec c NUL); [congruence|].
  pose proof (IH (dn ++ [c]) dst str (pre ++ [c])) as E.
  rewrite !length_app, <-!app_assoc in E. cbn -[strlcpy_loop] in E.
  rewrite !(Nat.add_comm _ 1) in E. cbn -[strlcpy_loop] in E.
  change ((c :: str) ++ NUL :: rest) with (c :: str ++ NUL :: rest).
  rewrite E by (try done; cbn in Hd; lia). clear E IH.
  cbn [length]. replace (S (S n) - 1)%nat with (S n) by lia. rewrite !Nat.sub_0_r.
  destruct (decide (length str < n)%nat).
  - rewrite decide_True by lia. cbn. repeat f_equal; lia.
  - rewrite decide_False by lia. cbn. repeat f_equal; lia.
Qed.

Section strlcpy_facts.
Context (dst : buffer) (str : cstr) (rest : buffer) (siz : nat).
Context (Hstr : no_nul str) (Hpos : (0 < siz)%nat) (Hdst : (siz <= length dst)%nat).

Lemma strlcpy_fits :
  (length str < siz)%nat ->
  strlcpy dst (str ++ NUL :: rest) siz =
  Some (str ++ NUL :: drop (S (length str)) dst, length str).
Proof.
  intros Hl. pose proof (strlcpy_loop_spec siz [] dst str rest [] Hstr Hpos Hdst) as E.
  cbn in E. unfold strlcpy. destruct siz as [|m] eqn:Em; [lia|]. rewrite E; clear E.
  case_decide as Hd; cbn [mbind option_bind].
  - destruct (S m - 1 - length str)%nat eqn:Ed; [lia|].
    repeat f_equal; lia.
  - replace (S m - 1)%nat with (length str) by lia.
    rewrite firstn_all, poke_at by (rewrite length_app, length_drop; lia).
    cbn [mbind option_bind]. rewrite drop_app_length. cbn.
    rewrite take_app_length, drop_app_ge, drop_drop by lia.
    repeat f_equal; try lia.
Qed.

Lemma strlcpy_truncates :
  (siz <= length str)%nat ->
  strlcpy dst (str ++ NUL :: rest) siz =
  Some (take (siz - 1) str ++ NUL :: drop siz dst, length str).
Proof.
  intros Hl. pose proof (strlcpy_loop_spec siz [] dst str rest [] Hstr Hpos Hdst) as E.
  cbn in E. unfold strlcpy. destruct siz as [|m] eqn:Em; [lia|]. rewrite E; clear E.
  rewrite decide_False by lia. cbn [mbind option_bind].
  assert (Ht : length (take (S m - 1) str) = (S m - 1)%nat) by (rewrite length_take; lia).
  rewrite poke_at by (rewrite length_app, length_drop; lia). cbn [mbind option_bind].
  rewrite (drop_app_le str) by lia.
  rewrite strlen_cstr by auto with csf.
  rewrite length_drop. cbn. f_equal. f_equal; [|lia].
  rewrite Nat.sub_0_r in *. replace (S m - 1)%nat with m in Ht by lia.
  rewrite take_app_length', drop_app_ge, drop_drop by lia.
  do 3 f_equal. lia.
Qed.

End strlcpy_facts.

(** The end of the destination is found before its capacity is exhausted. *)
Lemma strlcat_end_spec n pre str rest :
  no_nul str -> (length str < n)%nat ->
  strlcat_end n (pre ++ str ++ NUL :: rest) (length pre) = Some (length pre + length str)%nat.
Proof.
  revert pre str; induction n as [|n IH]; intros pre str Hs Hn; [lia|].
  cbn. rewrite lookup_app_r, Nat.sub_diag by lia.
  destruct str as [|c str]; cbn; [by rewrite Nat.add_0_r|].
  apply no_nul_cons in Hs as [Hc Hs]. destruct (ascii_dec c NUL); [congruence|].
  pose proof (IH (pre ++ [c]) str Hs) as E. rewrite length_app, <-app_assoc in E.
  cbn in E. rewrite Nat.add_comm in E. cbn in E, Hn. rewrite E by lia. f_equal; lia.
Qed.

(** The appending loop in closed form. *)
Lemma strlcat_loop_spec n pre dst str rest s :
  no_nul str -> (0 < n)%nat -> (n <= length dst)%nat ->
  strlcat_loop n (pre ++ dst) (length pre) (str ++ NUL :: rest) s =
  Some (pre ++ take (n - 1) str ++ drop (length (take (n - 1) str)) dst,
        length pre + length (take (n - 1) str), s + length str)%nat.
Proof.
  revert n pre dst s; induction str as [|c str IH]; intros n pre dst s Hs Hn Hd; cbn.
  { rewrite take_nil. cbn. by rewrite !Nat.add_0_r. }
  apply no_nul_cons in Hs as [Hc Hs]. destruct (ascii_dec c NUL); [congruence|].
  case_decide as H1.
  - subst n. rewrite IH by done. cbn. do 2 f_equal. lia.
  - destruct dst as [|x dst]; [cbn in Hd; lia|]. rewrite poke_app. cbn [mbind option_bind].
    replace (pre ++ c :: dst) with ((pre ++ [c]) ++ dst) by (by rewrite <-app_assoc).
    replace (S (length pre)) with (length (pre ++ [c])) by (rewrite length_app; cbn; lia).
    cbn in Hd. rewrite IH by (try done; lia).
    destruct n as [|[|n]]; [lia|done|]. cbn [Nat.sub].
    rewrite !Nat.sub_0_r, length_app, <-app_assoc. cbn. do 3 f_equal; lia.
Qed.

(** The result of [strlcat] on a destination that holds a string. *)
Lemma strlcat_appends dst_str dst str rest siz :
  no_nul dst_str -> no_nul str ->
  (length dst_str < siz)%nat -> (siz <= length dst_str + S (length dst))%nat ->
  strlcat (dst_str ++ NUL :: dst) (str ++ NUL :: rest) siz =
  Some (let t := take (siz - 1 - length dst_str) str in
        dst_str ++ t ++ NUL :: drop (length t) dst, length dst_str + length str)%nat.
Proof.
  intros Hds Hs H1 H2. unfold strlcat.
  pose proof (strlcat_end_spec siz [] dst_str dst Hds H1) as E. cbn in E. rewrite E; clear E.
  cbn [mbind option_bind]. destruct (siz - length dst_str)%nat as [|m] eqn:Em; [lia|].
  rewrite strlcat_loop_spec by (try done; cbn; lia).
  replace (siz - 1 - length dst_str)%nat with (S m - 1)%nat by lia.
  cbn [mbind option_bind]. set (t := take (S m - 1) str).
  assert (Ht : (length t <= S m - 1)%nat) by (subst t; rewrite length_take; lia).
  rewrite app_assoc, <-length_app.
  destruct (drop (length t) (NUL :: dst)) as [|x r] eqn:Er.
  { apply (f_equal length) in Er. rewrite length_drop in Er. cbn [length] in Er. lia. }
  apply (f_equal (drop 1)) in Er. rewrite drop_drop, Nat.add_1_r in Er. change (drop (length t) dst = r) in Er.
  rewrite poke_app, Er, <-app_assoc. done.
Qed.

(** * Properties *)

(** [strlcpy] with a destination of at least [siz > 0] bytes stays in
    bounds, leaves in the destination the first [siz - 1] characters of the
    source followed by a terminator, touches nothing after the terminator,
    returns the length of the source, and that count reaches [siz] exactly when
    the copy was truncated. *)
Theorem strlcpy_correct (dst : buffer) (str : cstr) (rest : buffer) (siz : nat) :
  no_nul str -> (0 < siz)%nat -> (siz <= length dst)%nat ->
  strlcpy dst (str ++ NUL :: rest) siz =
    Some (strlcpy_str siz str ++ NUL :: drop (S (length (strlcpy_str siz str))) dst, length str)
  /\ ((siz <= length str)%nat <-> strlcpy_str siz str <> str).
Proof.
  intros Hs Hp Hd. unfold strlcpy_str. split.
  - destruct (decide (length str < siz)%nat).
    + rewrite strlcpy_fits by done. by rewrite take_ge by lia.
    + rewrite strlcpy_truncates by (try done; lia). rewrite length_take.
      by replace (S ((siz - 1) `min` length str)) with siz by lia.
  - split.
    + intros Hl E. apply (f_equal length) in E. rewrite length_take in E. lia.
    + intros Hne. destruct (decide (siz <= length str)%nat); [done|].
      destruct Hne. apply take_ge. lia.
Qed.

Lemma strlcpy_correct_witness :
  strlcpy (L"xxxxxx") (L"hello" ++ [NUL]) 4 = Some (L"hel" ++ NUL :: L"xx", 5%nat).
Proof.
  destruct (strlcpy_correct (L"xxxxxx") (L"hello") [] 4) as [E _];
    [by apply (bool_decide_unpack _)|lia|cbn; lia|].
  exact E.
Defined.

(** [strlcat] on a destination block that holds a string shorter than
    [siz] appends as much of the source as fits, always terminates the result,
    and returns the length of the concatenation it tried to make. *)
Theorem strlcat_correct (d : cstr) (tail : buffer) (str : cstr) (rest : buffer) (siz : nat) :
  no_nul d -> no_nul str ->
  (length d < siz)%nat -> (siz <= length d + S (length tail))%nat ->
  strlcat (d ++ NUL :: tail) (str ++ NUL :: rest) siz =
    Some (strlcpy_str siz (d ++ str) ++
          NUL :: drop (length (strlcpy_str siz (d ++ str)) - length d) tail,
          length (d ++ str)).
Proof.
  intros Hd Hs H1 H2. rewrite strlcat_appends by done. unfold strlcpy_str.
  rewrite take_app_ge, !length_app by lia. cbv zeta. rewrite <-app_assoc.
  by rewrite Nat.add_sub_swap, Nat.sub_diag by lia.
Qed.

Lemma strlcat_correct_witness :
  strlcat (L"ab" ++ NUL :: L"yyyy") (L"cdefgh" ++ [NUL]) 6 = Some (L"abcde" ++ NUL :: L"y", 8%nat).
Proof.
  refine (strlcat_correct (L"ab") (L"yyyy") (L"cdefgh") [] 6 _ _ _ _);
    [by apply (bool_decide_unpack _)|by apply (bool_decide_unpack _)|cbn; lia|cbn; lia].
Defined.
