(* ===== verification/Dictionary.v ===== *)
(** The string dictionary of src/csf/confparser/dictionary.c: three parallel
    arrays (keys, values, hashes), searched linearly. The abstract
    specification is a finite map from keys to possibly-NULL values
    ([dict_map]); the refinement theorems show that get, set and unset are
    lookup, insert and delete of that map. Allocation outcomes are explicit
    (see [Alloc] in the prelude), so the error paths are modelled too. *)

From S2P Require Import Prelude.

(** * Data *)

(** [dictionary]: [d_n] entries in arrays of [d_size] slots; an array pointer
    that is NULL (an allocation that failed) is [None]. *)
Record dictionary : Type := mk_dictionary {
  d_n : Z;
  d_size : nat;
  d_val : option (list (option cstr));
  d_key : option (list (option cstr));
  d_hash : option (list Z)
}.

Definition DICTMINSZ : nat := 128.

(** * Operations *)

(** [mem_double]: a zeroed block twice as large whose first half is the old
    block. The sizes are [int]s: doubling past INT_MAX is undefined. *)
Definition mem_double {A} (zero : A) (ptr : list A) (size : nat) (elt : Z) : Alloc (option (list A)) :=
  if 2 * (Z.of_nat size * elt) <=? INT_MAX
  then ok ← allocate; mret (if (ok : bool) then Some (ptr ++ replicate size zero) else None)
  else fault.

(** [xstrdup]: a copy of the string, NULL for NULL or when [malloc] fails. *)
Definition xstrdup (s : option cstr) : Alloc (option cstr) :=
  match s with
  | None => mret None
  | Some t => ok ← allocate; mret (if (ok : bool) then Some t else None)
  end.

(** One character of the hash: [hash += key[i]], [hash += hash << 10],
    [hash ^= hash >> 6] on 32-bit unsigned integers, [char] being signed. *)
Definition hash_step (hash : Z) (c : ascii) : Z :=
  let h1 := u32 (hash + schar c) in
  let h2 := u32 (h1 + Z.shiftl h1 10) in
  Z.lxor h2 (Z.shiftr h2 6).

Definition dictionary_hash (key : cstr) : Z :=
  let h := fold_left hash_step key 0 in
  let h1 := u32 (h + Z.shiftl h 3) in
  let h2 := Z.lxor h1 (Z.shiftr h1 11) in
  u32 (h2 + Z.shiftl h2 15).

(** [dictionary_new]: at least DICTMINSZ slots; the three array allocations are
    not checked. *)
Definition dictionary_new (size : Z) : Alloc (option dictionary) :=
  let size := if size <? Z.of_nat DICTMINSZ then DICTMINSZ else Z.to_nat size in
  ok ← allocate;
  if (ok : bool) then
    okv ← allocate; okk ← allocate; okh ← allocate;
    mret (Some (mk_dictionary 0 size
      (if (okv : bool) then Some (replicate size None) else None)
      (if (okk : bool) then Some (replicate size None) else None)
      (if (okh : bool) then Some (replicate size 0) else None)))
  else mret None.

(** The search loop of get, set and unset: the first of the [cnt] slots from
    [i] on whose hash and key match; [None] for an access out of bounds. *)
Fixpoint find_key (cnt i : nat) (keys : list (option cstr)) (hashes : list Z) (hash : Z) (key : cstr)
  : option (option nat) :=
  match cnt with
  | O => Some None
  | S cnt' =>
      slot ← keys !! i;
      match slot with
      | None => find_key cnt' (S i) keys hashes hash key
      | Some k =>
          h ← hashes !! i;
          if (hash =? h) && bool_decide (key = k) then Some (Some i)
          else find_key cnt' (S i) keys hashes hash key
      end
  end.

(** [dictionary_get]. The value found may be NULL; [def] is returned when the
    key is absent. *)
Definition dictionary_get {D} (d : dictionary) (key : cstr) (def : D) (found : option cstr -> D) : option D :=
  keys ← d_key d; hashes ← d_hash d;
  r ← find_key (d_size d) 0 keys hashes (dictionary_hash key) key;
  match r with
  | Some i => vals ← d_val d; v ← vals !! i; Some (found v)
  | None => Some def
  end.

(** The loop that looks for the first empty slot; it ends at [size] when there
    is none. *)
Fixpoint first_empty (cnt i : nat) (keys : list (option cstr)) : option nat :=
  match cnt with
  | O => Some i
  | S cnt' =>
      slot ← keys !! i;
      match slot with
      | None => Some i
      | Some _ => first_empty cnt' (S i) keys
      end
  end.

(** A store into an array of the dictionary; a fault when out of bounds. *)
Definition store {A} (a : option (list A)) (i : nat) (x : A) : Alloc (option (list A)) :=
  match a with
  | None => fault
  | Some l => if decide (i < length l)%nat then mret (Some (<[i:=x]> l)) else fault
  end.

(** Growing to twice the size when the dictionary is full: the dictionary and
    whether all three arrays could be reallocated. *)
Definition grow (d : dictionary) : Alloc (dictionary * bool) :=
  if d_n d =? Z.of_nat (d_size d) then
    v0 ← access (d_val d); v ← mem_double None v0 (d_size d) 8;
    k0 ← access (d_key d); k ← mem_double None k0 (d_size d) 8;
    h0 ← access (d_hash d); h ← mem_double 0 h0 (d_size d) 4;
    match v, k, h with
    | Some _, Some _, Some _ => mret (mk_dictionary (d_n d) (2 * d_size d) v k h, true)
    | _, _, _ => mret (mk_dictionary (d_n d) (d_size d) v k h, false)
    end
  else mret (d, true).

(** The search of [dictionary_set], skipped on an empty dictionary. *)
Definition set_search (d : dictionary) (key : cstr) : Alloc (option nat) :=
  if 0 <? d_n d then
    keys ← access (d_key d); hashes ← access (d_hash d);
    access (find_key (d_size d) 0 keys hashes (dictionary_hash key) key)
  else mret None.

(** The last part of [dictionary_set]: put the key in the first empty slot. *)
Definition insert_new (d : dictionary) (key : cstr) (val : option cstr) : Alloc (Z * option dictionary) :=
  keys ← access (d_key d);
  i ← access (first_empty (d_size d) 0 keys);
  k ← xstrdup (Some key); keys' ← store (d_key d) i k;
  v ← xstrdup val; vals' ← store (d_val d) i v;
  hashes' ← store (d_hash d) i (dictionary_hash key);
  mret (0, Some (mk_dictionary (d_n d + 1) (d_size d) vals' keys' hashes')).

(** [dictionary_set]: the returned code and the dictionary after the call. *)
Definition dictionary_set (d : option dictionary) (key : option cstr) (val : option cstr)
  : Alloc (Z * option dictionary) :=
  match d, key with
  | Some d0, Some key0 =>
      found ← set_search d0 key0;
      match found with
      | Some i =>
          vals ← access (d_val d0); _ ← access (vals !! i);
          v ← xstrdup val; vals' ← store (d_val d0) i v;
          mret (0, Some (mk_dictionary (d_n d0) (d_size d0) vals' (d_key d0) (d_hash d0)))
      | None =>
          '(d1, ok) ← grow d0;
          if (ok : bool) then insert_new d1 key0 val else mret (-1, Some d1)
      end
  | _, _ => mret (-1, d)
  end.

(** [dictionary_unset]. *)
Definition dictionary_unset (d : dictionary) (key : option cstr) : option dictionary :=
  match key with
  | None => Some d
  | Some key0 =>
      keys ← d_key d; hashes ← d_hash d;
      r ← find_key (d_size d) 0 keys hashes (dictionary_hash key0) key0;
      match r with
      | None => Some d
      | Some i =>
          vals ← d_val d;
          Some (mk_dictionary (d_n d - 1) (d_size d)
                  (Some (<[i:=None]> vals)) (Some (<[i:=None]> keys)) (Some (<[i:=0]> hashes)))
      end
  end.

(** The slots [0 .. size - 1] as the loops of [dictionary_del] and
    [dictionary_dump] read them; [None] for a NULL array or an access out of
    bounds. *)
Definition slots (d : dictionary) : option (list (option cstr * option cstr)) :=
  match d_size d with
  | O => Some []
  | size =>
      keys ← d_key d; vals ← d_val d;
      if decide (size <= length keys /\ size <= length vals)%nat
      then Some (take size (zip keys vals)) else None
  end.

(** [dictionary_del]: the strings it frees, slot by slot. *)
Definition dictionary_del (d : option dictionary) : option (list cstr) :=
  match d with
  | None => Some []
  | Some d0 => flat_map (fun kv => option_list kv.1 ++ option_list kv.2) <$> slots d0
  end.

(** [printf]'s ["%20s"] field. *)
Definition pad_left (n : nat) (s : cstr) : cstr := replicate (n - length s) " "%char ++ s.

(** [dictionary_dump]: the text written to the stream. *)
Definition dictionary_dump (d : option dictionary) (out : bool) : option cstr :=
  match d, out with
  | Some d0, true =>
      if d_n d0 <? 1 then Some (L"empty dictionary" ++ [LF])
      else flat_map (fun '(k, v) =>
             match k with
             | None => []
             | Some key => pad_left 20 key ++ [chr 9] ++ L"[" ++ default (L"UNDEF") v ++ L"]" ++ [LF]
             end) <$> slots d0
  | _, _ => Some []
  end.

(** * Abstract specification *)

(** The association of one slot. *)
Definition slot_entry (kv : option cstr * option cstr) : option (cstr * option cstr) :=
  (fun k => (k, snd kv)) <$> fst kv.

Definition entries (keys vals : list (option cstr)) : list (cstr * option cstr) :=
  omap slot_entry (zip keys vals).

(** The finite map a dictionary stands for. *)
Definition dict_map (d : dictionary) : gmap cstr (option cstr) :=
  match d_key d, d_val d with
  | Some keys, Some vals => list_to_map (entries keys vals)
  | _, _ => ∅
  end.

Definition is_used (k : option cstr) : nat := match k with Some _ => 1 | None => 0 end.

(** The number of occupied slots. *)
Definition used (keys : list (option cstr)) : nat := sum_list_with is_used keys.

(** The representation invariant: the three arrays have [d_size] slots, a key
    is stored with its hash and in one slot only, and [d_n] bounds the occupied
    slots from above and the size from below. *)
Record dict_rep (d : dictionary) (keys vals : list (option cstr)) (hashes : list Z) : Prop := {
  rep_key : d_key d = Some keys;
  rep_val : d_val d = Some vals;
  rep_hash : d_hash d = Some hashes;
  rep_len_key : length keys = d_size d;
  rep_len_val : length vals = d_size d;
  rep_len_hash : length hashes = d_size d;
  rep_hashed : forall i k, keys !! i = Some (Some k) -> hashes !! i = Some (dictionary_hash k);
  rep_unique : forall i j k, keys !! i = Some (Some k) -> keys !! j = Some (Some k) -> i = j;
  rep_count : Z.of_nat (used keys) <= d_n d <= Z.of_nat (d_size d)
}.

Definition dict_wf (d : dictionary) : Prop := exists keys vals hashes, dict_rep d keys vals hashes.

(** The size from which doubling stays below INT_MAX bytes. *)
Definition DICT_MAXSZ : Z := 2 ^ 26.

(** * Lemmas *)

Lemma used_insert keys i x y :
  keys !! i = Some x -> (used (<[i:=y]> keys) + is_used x = used keys + is_used y)%nat.
Proof. apply sum_list_with_insert. Qed.

Lemma used_bound keys : (used keys <= length keys)%nat.
Proof. unfold used. induction keys as [|[k|] keys IH]; cbn; lia. Qed.

(** A full array has no empty slot, and an array with an empty slot is not full. *)
Lemma used_not_full keys : (used keys < length keys)%nat -> exists i, keys !! i = Some None.
Proof.
  unfold used. induction keys as [|[k|] keys IH]; cbn; intros H; [lia| |by exists 0%nat].
  destruct IH as [i Hi]; [lia|]. by exists (S i).
Qed.

Lemma used_replicate n : used (replicate n None) = 0%nat.
Proof. unfold used. induction n; cbn; lia. Qed.

Lemma used_app k1 k2 : used (k1 ++ k2) = (used k1 + used k2)%nat.
Proof. apply sum_list_with_app. Qed.

(** The search loop stays in bounds and decides whether the key is stored. *)
Lemma find_key_spec cnt i keys hashes key :
  length hashes = length keys ->
  (forall j k, keys !! j = Some (Some k) -> hashes !! j = Some (dictionary_hash k)) ->
  (i + cnt <= length keys)%nat ->
  exists r, find_key cnt i keys hashes (dictionary_hash key) key = Some r /\
    match r with
    | Some j => keys !! j = Some (Some key) /\ (i <= j < i + cnt)%nat
    | None => forall j, (i <= j < i + cnt)%nat -> keys !! j <> Some (Some key)
    end.
Proof.
  intros Hl Hh. revert i; induction cnt as [|cnt IH]; intros i Hi; cbn.
  { exists None. split; [done|]. intros; lia. }
  destruct (IH (S i) ltac:(lia)) as (r & Hr & Hspec).
  destruct (lookup_lt_is_Some_2 keys i ltac:(lia)) as [[k|] Hk]; rewrite Hk; cbn.
  - rewrite (Hh _ _ Hk). cbn. destruct (decide (key = k)) as [->|Hne].
    + rewrite Z.eqb_refl, bool_decide_true by done. cbn.
      exists (Some i). split; [done|]. split; [done|lia].
    + rewrite (bool_decide_false (key = k)), andb_false_r by done.
      exists r. split; [done|]. destruct r as [j|].
      * destruct Hspec. split; [done|lia].
      * intros j Hj. destruct (decide (j = i)) as [->|]; [congruence|]. apply Hspec. lia.
  - exists r. split; [done|]. destruct r as [j|].
    + destruct Hspec. split; [done|lia].
    + intros j Hj. destruct (decide (j = i)) as [->|]; [congruence|]. apply Hspec. lia.
Qed.

Lemma first_empty_spec cnt i keys :
  (i + cnt <= length keys)%nat ->
  (exists j, (i <= j < i + cnt)%nat /\ keys !! j = Some None) ->
  exists j, first_empty cnt i keys = Some j /\ keys !! j = Some None /\ (j < i + cnt)%nat.
Proof.
  revert i; induction cnt as [|cnt IH]; intros i Hi (j & Hj & Hk); [lia|]. cbn.
  destruct (lookup_lt_is_Some_2 keys i ltac:(lia)) as [[k|] Hik]; rewrite Hik; cbn.
  - destruct (IH (S i)) as (j' & ? & ? & ?); [lia| |exists j'; split_and!; auto; lia].
    exists j. split; [|done]. destruct (decide (j = i)); [congruence|lia].
  - exists i. split_and!; auto; lia.
Qed.

Lemma slot_entry_zip keys vals k v :
  (k, v) ∈ entries keys vals <-> exists i, keys !! i = Some (Some k) /\ vals !! i = Some v.
Proof.
  unfold entries. rewrite list_elem_of_omap. split.
  - intros ([ok ov] & Hin & He). apply list_elem_of_lookup in Hin as [i Hi].
    apply lookup_zip_Some in Hi as [Hi1 Hi2].
    unfold slot_entry in He. destruct ok as [k'|]; simplify_eq/=. by exists i.
  - intros (i & Hk & Hv). exists (Some k, v). split; [|done].
    apply list_elem_of_lookup. exists i. by apply lookup_zip_Some.
Qed.

Lemma entries_nodup keys vals :
  (forall i j k, keys !! i = Some (Some k) -> keys !! j = Some (Some k) -> i = j) ->
  NoDup (entries keys vals).*1.
Proof.
  revert vals; induction keys as [|ok keys IH]; intros vals Hu; [constructor|].
  destruct vals as [|v vals]; [constructor|].
  assert (Ht : NoDup (entries keys vals).*1).
  { apply IH. intros i j k Hi Hj. specialize (Hu (S i) (S j) k Hi Hj). lia. }
  destruct ok as [k|]; [|exact Ht].
  change (NoDup (k :: (entries keys vals).*1)). apply list.NoDup_cons. split; [|done].
  intros Hin. apply list_elem_of_fmap in Hin as ([k' w] & E & Hin). simplify_eq/=.
  apply slot_entry_zip in Hin as (i & Hi & _).
  specialize (Hu 0%nat (S i) k' eq_refl Hi). lia.
Qed.

(** The map of a well-formed dictionary, slot by slot. *)
Lemma dict_map_lookup d keys vals hashes k v :
  dict_rep d keys vals hashes ->
  dict_map d !! k = Some v <-> exists i, keys !! i = Some (Some k) /\ vals !! i = Some v.
Proof.
  intros R. unfold dict_map. rewrite (rep_key _ _ _ _ R), (rep_val _ _ _ _ R).
  rewrite <-elem_of_list_to_map by apply entries_nodup, R.
  apply slot_entry_zip.
Qed.

Lemma dict_map_none d keys vals hashes k :
  dict_rep d keys vals hashes ->
  dict_map d !! k = None <-> forall i, keys !! i <> Some (Some k).
Proof.
  intros R. rewrite eq_None_not_Some. split.
  - intros Hn i Hi. apply Hn.
    destruct (lookup_lt_is_Some_2 vals i) as [v Hv].
    { rewrite (rep_len_val _ _ _ _ R), <-(rep_len_key _ _ _ _ R). by eapply lookup_lt_Some. }
    exists v. apply (dict_map_lookup d keys vals hashes); eauto.
  - intros Hn [v Hv]. apply (dict_map_lookup d keys vals hashes) in Hv as (i & Hi & _); [|done].
    by destruct (Hn i).
Qed.

(** The slots [0 .. size - 1] are searched completely. *)
Lemma find_key_rep d keys vals hashes key :
  dict_rep d keys vals hashes ->
  (exists i v, find_key (d_size d) 0 keys hashes (dictionary_hash key) key = Some (Some i) /\
     keys !! i = Some (Some key) /\ vals !! i = Some v /\ dict_map d !! key = Some v)
  \/ (find_key (d_size d) 0 keys hashes (dictionary_hash key) key = Some None /\
      dict_map d !! key = None).
Proof.
  intros R. destruct R eqn:ER; clear ER.
  destruct (find_key_spec (d_size d) 0 keys hashes key) as (r & -> & Hr); [lia|done|lia|].
  destruct r as [i|].
  - left. destruct Hr as [Hk Hi].
    destruct (lookup_lt_is_Some_2 vals i ltac:(lia)) as [v Hv].
    exists i, v. split_and!; try done. eapply dict_map_lookup; eauto.
  - right. split; [done|]. eapply dict_map_none; [done|]. intros i Hi.
    apply (Hr i); [|done]. apply lookup_lt_Some in Hi. lia.
Qed.

(** Replacing the value of a stored key. *)
Lemma set_val_rep d keys vals hashes i key v :
  dict_rep d keys vals hashes -> keys !! i = Some (Some key) ->
  let d' := mk_dictionary (d_n d) (d_size d) (Some (<[i:=v]> vals)) (Some keys) (Some hashes) in
  dict_rep d' keys (<[i:=v]> vals) hashes /\ dict_map d' = <[key:=v]> (dict_map d).
Proof.
  intros R Hi d'. assert (R' : dict_rep d' keys (<[i:=v]> vals) hashes).
  { destruct R. split; cbn; try done. by rewrite length_insert. }
  split; [done|]. assert (Hlt : (i < length vals)%nat).
  { destruct R. apply lookup_lt_Some in Hi. lia. }
  apply map_eq. intros k. apply option_eq. intros w.
  rewrite (dict_map_lookup _ _ _ _ _ _ R'), lookup_insert_Some, (dict_map_lookup _ _ _ _ _ _ R).
  split.
  - intros (j & Hj & Hw). destruct (decide (i = j)) as [<-|Hne].
    + rewrite list_lookup_insert_eq in Hw by done. simplify_eq. by left.
    + rewrite list_lookup_insert_ne in Hw by done. right. split; [|by exists j].
      intros ->. apply Hne. by eapply (rep_unique _ _ _ _ R).
  - intros [[-> ->]|(Hne & j & Hj & Hw)].
    + exists i. by rewrite list_lookup_insert_eq.
    + exists j. split; [done|]. rewrite list_lookup_insert_ne; [done|congruence].
Qed.

(** Filling an empty slot, with the outcome [k] of copying the key. *)
Lemma fill_slot_rep d keys vals hashes i key k v :
  dict_rep d keys vals hashes -> keys !! i = Some None ->
  dict_map d !! key = None -> d_n d < Z.of_nat (d_size d) -> k = Some key \/ k = None ->
  let d' := mk_dictionary (d_n d + 1) (d_size d) (Some (<[i:=v]> vals)) (Some (<[i:=k]> keys))
              (Some (<[i:=dictionary_hash key]> hashes)) in
  dict_rep d' (<[i:=k]> keys) (<[i:=v]> vals) (<[i:=dictionary_hash key]> hashes).
Proof.
  intros R Hi Hnew Hn Hk d'.
  pose proof (proj1 (dict_map_none _ _ _ _ _ R) Hnew) as Hfresh.
  assert (Hlt : (i < d_size d)%nat) by (destruct R; apply lookup_lt_Some in Hi; lia).
  pose proof (used_insert keys i None k Hi) as Hu.
  destruct R. split; cbn; try done; rewrite ?length_insert; try done.
  - intros j k' Hj. destruct (decide (i = j)) as [<-|Hne].
    + rewrite list_lookup_insert_eq in Hj by lia. rewrite list_lookup_insert_eq by lia.
      destruct Hk; simplify_eq; done.
    + rewrite list_lookup_insert_ne in Hj by done. rewrite list_lookup_insert_ne by done. auto.
  - intros j j' k' Hj Hj'. rewrite list_lookup_insert_Some in Hj, Hj'.
    destruct Hj as [(<- & E & _)|[Hj1 Hj2]], Hj' as [(<- & E' & _)|[Hj1' Hj2']]; eauto.
    + destruct Hk; simplify_eq. by destruct (Hfresh j').
    + destruct Hk; simplify_eq. by destruct (Hfresh j).
  - assert (is_used k <= 1)%nat by (destruct k; cbn; lia). cbn in Hu. lia.
Qed.

(** The map after filling an empty slot. *)
Lemma fill_slot_map d keys vals hashes i key k v :
  dict_rep d keys vals hashes -> keys !! i = Some None ->
  dict_map d !! key = None -> d_n d < Z.of_nat (d_size d) -> k = Some key \/ k = None ->
  let d' := mk_dictionary (d_n d + 1) (d_size d) (Some (<[i:=v]> vals)) (Some (<[i:=k]> keys))
              (Some (<[i:=dictionary_hash key]> hashes)) in
  dict_map d' = match k with Some _ => <[key:=v]> (dict_map d) | None => dict_map d end.
Proof.
  intros R Hi Hnew Hn Hk d'.
  pose proof (proj1 (dict_map_none _ _ _ _ _ R) Hnew) as Hfresh.
  pose proof (fill_slot_rep d keys vals hashes i key k v R Hi Hnew Hn Hk) as R'. fold d' in R'.
  assert (Hlt : (i < d_size d)%nat) by (destruct R; apply lookup_lt_Some in Hi; lia).
  destruct R as [? ? ? Hlk Hlv ? ? Hu ?] eqn:ER; clear ER.
  apply map_eq. intros k'. apply option_eq. intros w.
  rewrite (dict_map_lookup _ _ _ _ _ _ R').
  assert (Hold : forall j, i <> j -> (<[i:=k]> keys !! j = keys !! j) /\ (<[i:=v]> vals !! j = vals !! j))
    by (intros; by rewrite !list_lookup_insert_ne).
  assert (Hat : <[i:=k]> keys !! i = Some k /\ <[i:=v]> vals !! i = Some v)
    by (rewrite !list_lookup_insert_eq by lia; done).
  destruct Hk as [-> | ->]; rewrite ?lookup_insert_Some, (dict_map_lookup _ _ _ _ _ _ R); split.
  - intros (j & Hj & Hw). destruct (decide (i = j)) as [<-|Hne].
    + destruct Hat as [E1 E2]. rewrite E1 in Hj. rewrite E2 in Hw. simplify_eq. by left.
    + destruct (Hold j Hne) as [E1 E2]. rewrite E1 in Hj. rewrite E2 in Hw. right.
      split; [|by exists j]. intros ->. by destruct (Hfresh j).
  - intros [[-> ->]|(Hne & j & Hj & Hw)]; [by exists i|].
    exists j. destruct (decide (i = j)) as [<-|Hij]; [congruence|].
    by destruct (Hold j Hij) as [-> ->].
  - intros (j & Hj & Hw). destruct (decide (i = j)) as [<-|Hne].
    + destruct Hat as [E1 _]. congruence.
    + destruct (Hold j Hne) as [E1 E2]. exists j. by rewrite <-E1, <-E2.
  - intros (j & Hj & Hw). exists j.
    destruct (decide (i = j)) as [<-|Hij]; [congruence|].
    by destruct (Hold j Hij) as [-> ->].
Qed.

(** Doubling the arrays keeps the contents. *)
Lemma grow_ok d keys vals hashes :
  dict_rep d keys vals hashes -> 0 < Z.of_nat (d_size d) <= DICT_MAXSZ ->
  exists d' keys' vals' hashes', grow d [] = Some ((d', true), []) /\
    dict_rep d' keys' vals' hashes' /\ dict_map d' = dict_map d /\ d_n d' = d_n d /\
    d_n d < Z.of_nat (d_size d') /\ (d_size d' = d_size d \/ (d_size d' = 2 * d_size d)%nat /\ d_n d = Z.of_nat (d_size d)).
Proof.
  intros R Hsz. unfold grow. destruct (Z.eqb_spec (d_n d) (Z.of_nat (d_size d))) as [E|E].
  2:{ exists d, keys, vals, hashes. destruct R eqn:ER; clear ER. split_and!; try done; [lia|by left]. }
  rewrite (rep_key _ _ _ _ R), (rep_val _ _ _ _ R), (rep_hash _ _ _ _ R).
  unfold mem_double. rewrite !(proj2 (Z.leb_le _ _)) by (unfold DICT_MAXSZ, INT_MAX in *; lia).
  cbn -[Nat.mul]. do 4 eexists. split; [reflexivity|].
  set (d' := mk_dictionary _ _ _ _ _).
  assert (R' : dict_rep d' (keys ++ replicate (d_size d) None) (vals ++ replicate (d_size d) None)
                 (hashes ++ replicate (d_size d) 0)).
  { destruct R. split; cbn -[Nat.mul]; try done;
      rewrite ?length_app, ?length_replicate; try lia.
    - intros i k Hi. apply lookup_app_Some in Hi as [Hi|[? Hi]].
      + apply lookup_app_l_Some. auto.
      + apply lookup_replicate in Hi as [? _]. done.
    - intros i j k Hi Hj.
      apply lookup_app_Some in Hi as [Hi|[? Hi]]; [|by apply lookup_replicate in Hi as [? _]].
      apply lookup_app_Some in Hj as [Hj|[? Hj]]; [|by apply lookup_replicate in Hj as [? _]].
      eauto.
    - rewrite used_app, used_replicate. destruct rep_count0. lia. }
  split_and!; [exact R'| |done|cbn -[Nat.mul]; lia|by right].
  apply map_eq. intros k. apply option_eq. intros v.
  rewrite (dict_map_lookup _ _ _ _ _ _ R'), (dict_map_lookup _ _ _ _ _ _ R).
  split; intros (i & Hi & Hv); exists i.
  - apply lookup_app_Some in Hi as [Hi|[? Hi]]; [|by apply lookup_replicate in Hi as [? _]].
    split; [done|]. apply lookup_app_Some in Hv as [Hv|[? Hv]]; [done|].
    apply lookup_lt_Some in Hi. destruct R. lia.
  - split; by apply lookup_app_l_Some.
Qed.

Lemma store_ok {A} (l : list A) i x o :
  (i < length l)%nat -> store (Some l) i x o = Some (Some (<[i:=x]> l), o).
Proof. intros H. cbn. by rewrite decide_True. Qed.

(** A copy is the string itself, or NULL when the allocation fails. *)
Lemma xstrdup_any s o :
  exists t o', xstrdup s o = Some (t, o') /\ (t = s \/ t = None) /\ (o = [] -> t = s /\ o' = []).
Proof.
  destruct s as [t|], o as [|[] o]; do 2 eexists; (split; [reflexivity|]); split; auto; done.
Qed.

(** Storing a new key, for any outcome of the two copies. *)
Lemma insert_new_any d keys vals hashes key val o :
  dict_rep d keys vals hashes -> dict_map d !! key = None -> d_n d < Z.of_nat (d_size d) ->
  exists d' keys' vals' hashes' k v o', insert_new d key val o = Some ((0, Some d'), o') /\
    dict_rep d' keys' vals' hashes' /\ (k = Some key \/ k = None) /\
    (o = [] -> k = Some key /\ v = val /\ o' = []) /\
    d_n d' = d_n d + 1 /\ d_size d' = d_size d /\
    dict_map d' = match k with Some _ => <[key:=v]> (dict_map d) | None => dict_map d end.
Proof.
  intros R Hnew Hn. destruct R as [Hk Hv Hh Hlk Hlv Hlh ? ? Hc] eqn:ER; clear ER.
  destruct (used_not_full keys) as [j Hj]; [lia|].
  destruct (first_empty_spec (d_size d) 0 keys) as (i & Hi & Hki & Hlt); [lia| |].
  { exists j. split; [|done]. apply lookup_lt_Some in Hj. lia. }
  destruct (xstrdup_any (Some key) o) as (k & o1 & Ek & Hk' & Hok).
  destruct (xstrdup_any val o1) as (v & o2 & Ev & Hv' & Hov).
  pose proof (fill_slot_rep d keys vals hashes i key k v R Hki Hnew Hn Hk') as R'.
  pose proof (fill_slot_map d keys vals hashes i key k v R Hki Hnew Hn Hk') as M'.
  cbv zeta in R', M'.
  do 3 eexists. exists (<[i:=dictionary_hash key]> hashes), k, v, o2.
  split_and!; [|exact R'|done| |done|done|exact M'].
  - unfold insert_new. alloc_step Hk. alloc_step Hi. alloc_step Ek.
    rewrite Hk, Hv, Hh. alloc_step (store_ok keys i k o1 ltac:(lia)). alloc_step Ev.
    alloc_step (store_ok vals i v o2 ltac:(lia)).
    alloc_step (store_ok hashes i (dictionary_hash key) o2 ltac:(lia)). reflexivity.
  - intros ->. destruct (Hok eq_refl) as [-> ->]. destruct (Hov eq_refl) as [-> ->]. done.
Qed.

(** The search of [dictionary_set] finds the slot of the key, for any outcome of
    the allocations. *)
Lemma set_search_rep d keys vals hashes key o :
  dict_rep d keys vals hashes ->
  (exists i v, set_search d key o = Some (Some i, o) /\ keys !! i = Some (Some key) /\
     vals !! i = Some v /\ dict_map d !! key = Some v)
  \/ (set_search d key o = Some (None, o) /\ dict_map d !! key = None).
Proof.
  intros R. unfold set_search. destruct (Z.ltb_spec 0 (d_n d)) as [Hn|Hn].
  - alloc_step (rep_key _ _ _ _ R). alloc_step (rep_hash _ _ _ _ R).
    destruct (find_key_rep d keys vals hashes key R) as [(i & v & -> & ? & ? & ?)|[-> ?]]; eauto 10.
  - right. split; [done|]. eapply dict_map_none; [done|]. intros i Hi.
    destruct R as [? ? ? ? ? ? ? ? Hc].
    pose proof (sum_list_with_lookup is_used keys i _ Hi) as Hu. cbn in Hu. unfold used in Hc. lia.
Qed.

(** An allocation that fails while growing leaves one of the arrays NULL. *)
Lemma grow_any d keys vals hashes o :
  dict_rep d keys vals hashes -> 0 < Z.of_nat (d_size d) <= DICT_MAXSZ ->
  exists d' ok o', grow d o = Some ((d', ok), o') /\
    (ok = true -> exists keys' vals' hashes', dict_rep d' keys' vals' hashes' /\
       dict_map d' = dict_map d /\ d_n d < Z.of_nat (d_size d') /\ d_n d' = d_n d).
Proof.
  intros R Hsz. destruct (grow_ok d keys vals hashes R Hsz) as (dg & k & v & h & Eg & Rg & Mg & Ng & Lg & _).
  unfold grow in *. destruct (Z.eqb_spec (d_n d) (Z.of_nat (d_size d))) as [E|E].
  2:{ eexists _, _, _. split; [reflexivity|]. intros _. exists keys, vals, hashes.
      destruct R eqn:ER; clear ER. split_and!; auto; lia. }
  rewrite (rep_key _ _ _ _ R), (rep_val _ _ _ _ R), (rep_hash _ _ _ _ R) in *.
  unfold mem_double in *.
  rewrite !(proj2 (Z.leb_le _ _)) in * by (unfold DICT_MAXSZ, INT_MAX in *; lia).
  cbv [mbind alloc_bind access allocate mret alloc_ret fmap option_fmap option_map] in Eg.
  simplify_eq.
  destruct o as [|[] [|[] [|[] o]]]; cbn -[Nat.mul];
    (eexists _, _, _; split; [reflexivity|]); intros H; try done;
    exists k, v, h; by split_and!.
Qed.

(** The lookup of the abstract map. *)
Lemma dictionary_get_ok D (d : dictionary) (key : cstr) (def : D) found :
  dict_wf d ->
  dictionary_get d key def found =
  Some (match dict_map d !! key with Some v => found v | None => def end).
Proof.
  intros (keys & vals & hashes & R). unfold dictionary_get.
  rewrite (rep_key _ _ _ _ R), (rep_hash _ _ _ _ R), (rep_val _ _ _ _ R). cbn.
  destruct (find_key_rep d keys vals hashes key R) as [(i & v & -> & _ & Hv & ->)|[-> ->]]; cbn.
  - by rewrite Hv.
  - done.
Qed.

Lemma slots_ok d keys vals hashes : dict_rep d keys vals hashes -> slots d = Some (zip keys vals).
Proof.
  intros R. unfold slots. rewrite (rep_key _ _ _ _ R), (rep_val _ _ _ _ R).
  pose proof (rep_len_key _ _ _ _ R) as Hk. pose proof (rep_len_val _ _ _ _ R) as Hv.
  destruct (d_size d) as [|n]; [by destruct keys|]. cbn [mbind option_bind].
  rewrite decide_True by lia. f_equal. apply firstn_all2. rewrite length_zip_with. lia.
Qed.

Lemma dictionary_del_ok d : dict_wf d -> exists freed, dictionary_del (Some d) = Some freed.
Proof. intros (keys & vals & hashes & R). cbn [dictionary_del]. rewrite (slots_ok _ _ _ _ R). eauto. Qed.

(** The insertion into the abstract map, with the growth of the arrays. *)
Lemma dictionary_set_ok (d : dictionary) (key : cstr) (val : option cstr) :
  dict_wf d -> 0 < Z.of_nat (d_size d) <= DICT_MAXSZ ->
  exists d', dictionary_set (Some d) (Some key) val [] = Some ((0, Some d'), []) /\
    dict_wf d' /\ dict_map d' = <[key:=val]> (dict_map d) /\
    d_n d' = d_n d + (if decide (is_Some (dict_map d !! key)) then 0 else 1) /\
    Z.of_nat (d_size d) <= Z.of_nat (d_size d') <= Z.max (Z.of_nat (d_size d)) (2 * d_n d).
Proof.
  intros (keys & vals & hashes & R) Hsz. unfold dictionary_set.
  destruct (set_search_rep d keys vals hashes key [] R) as [(i & v & E & Hi & Hv & M)|[E M]]; alloc_step E.
  - alloc_step (rep_val _ _ _ _ R). alloc_step Hv.
    destruct (xstrdup_any val []) as (t & o & Et & _ & Ho). destruct (Ho eq_refl) as [-> ->].
    alloc_step Et. rewrite (rep_val _ _ _ _ R), (rep_key _ _ _ _ R), (rep_hash _ _ _ _ R).
    alloc_step (store_ok vals i val [] ltac:(eapply lookup_lt_Some; eauto)).
    destruct (set_val_rep d keys vals hashes i key val R Hi) as [R' M'].
    eexists. split; [reflexivity|]. split; [by do 3 eexists|]. split; [done|].
    rewrite decide_True by eauto. cbn. lia.
  - destruct (grow_ok d keys vals hashes R Hsz) as (dg & k & v & h & Eg & Rg & Mg & Ng & Lg & Sg).
    alloc_step Eg. rewrite <-Mg in M. rewrite <-Ng in Lg.
    destruct (insert_new_any dg k v h key val [] Rg M Lg)
      as (d' & k' & v' & h' & kk & vv & o & Ei & R' & _ & Ho & Hn & Hs & M').
    destruct (Ho eq_refl) as (-> & -> & ->). exists d'. split; [exact Ei|].
    split; [by do 3 eexists|]. rewrite Mg in *. split; [done|].
    rewrite decide_False by (rewrite M; by intros [? ?]). lia.
Qed.

(** The deletion from the abstract map. *)
Lemma dictionary_unset_ok (d : dictionary) (key : option cstr) :
  dict_wf d ->
  exists d', dictionary_unset d key = Some d' /\ dict_wf d' /\
    dict_map d' = match key with Some k => delete k (dict_map d) | None => dict_map d end /\
    d_size d' = d_size d /\
    d_n d' = d_n d - match key with Some k => if decide (is_Some (dict_map d !! k)) then 1 else 0 | None => 0 end.
Proof.
  intros (keys & vals & hashes & R). destruct key as [key|]; cbn; [|exists d; split_and!; try done; [by do 3 eexists|lia]].
  rewrite (rep_key _ _ _ _ R), (rep_hash _ _ _ _ R), (rep_val _ _ _ _ R). cbn.
  destruct (find_key_rep d keys vals hashes key R) as [(i & v & -> & Hi & Hv & M)|[-> M]]; cbn.
  2:{ exists d. rewrite decide_False by (rewrite M; by intros [? ?]). split_and!; [done|by do 3 eexists|by rewrite delete_id|done|lia]. }
  rewrite decide_True by (rewrite M; eauto).
  eexists. split; [reflexivity|].
  match goal with |- dict_wf ?x /\ _ => set (d' := x) end.
  pose proof (used_insert keys i _ None Hi) as Hu. cbn in Hu.
  assert (R' : dict_rep d' (<[i:=None]> keys) (<[i:=None]> vals) (<[i:=0]> hashes)).
  { destruct R. split; cbn; try done; rewrite ?length_insert; try done; try lia.
    - intros j k Hj. apply list_lookup_insert_Some in Hj as [(? & ? & ?)|[Hne Hj]]; [done|].
      rewrite list_lookup_insert_ne by done. auto.
    - intros j j' k Hj Hj'. apply list_lookup_insert_Some in Hj as [(? & ? & ?)|[? ?]]; [done|].
      apply list_lookup_insert_Some in Hj' as [(? & ? & ?)|[? ?]]; [done|]. eauto. }
  split; [by do 3 eexists|]. split; [|done]. apply map_eq. intros k. apply option_eq. intros w.
  rewrite (dict_map_lookup _ _ _ _ _ _ R'), lookup_delete_Some, (dict_map_lookup _ _ _ _ _ _ R).
  split.
  - intros (j & Hj & Hw). apply list_lookup_insert_Some in Hj as [(? & ? & ?)|[Hne Hj]]; [done|].
    rewrite list_lookup_insert_ne in Hw by done. split; [|by exists j].
    intros ->. apply Hne. by eapply (rep_unique _ _ _ _ R).
  - intros (Hne & j & Hj & Hw). assert (i <> j) by congruence.
    exists j. by rewrite !list_lookup_insert_ne.
Qed.

(** A new dictionary is empty. *)
Lemma dictionary_new_ok :
  exists d, dictionary_new 0 [] = Some (Some d, []) /\ dict_wf d /\ dict_map d = ∅ /\ d_n d = 0 /\ d_size d = DICTMINSZ.
Proof.
  eexists. split; [reflexivity|]. split; [|split; [reflexivity|done]].
  exists (replicate DICTMINSZ None), (replicate DICTMINSZ None), (replicate DICTMINSZ 0).
  split; try done.
  - intros i k H. by apply lookup_replicate in H as [? _].
  - intros i j k H. by apply lookup_replicate in H as [? _].
Qed.

(** * Properties *)

(** C16: Looking up a key of a well-formed dictionary is the lookup of the
    abstract map: the stored value, NULL included, or the default; the hash
    comparison never hides a stored key and no access is out of bounds. *)
Theorem dictionary_get_refines D (d : dictionary) (key : cstr) (def : D) found :
  dict_wf d ->
  dictionary_get d key def found =
  Some (match dict_map d !! key with Some v => found v | None => def end).
Proof. apply dictionary_get_ok. Qed.


Definition dict_example : dictionary :=
  mk_dictionary 1 2 (Some [None; Some (L"81")]) (Some [None; Some (L"server:port")])
    (Some [0; dictionary_hash (L"server:port")]).

Lemma dict_example_wf : dict_wf dict_example.
Proof.
  exists [None; Some (L"server:port")], [None; Some (L"81")], [0; dictionary_hash (L"server:port")].
  split; [reflexivity..| | |cbn; lia].
  - intros [|[|i]] k Hi; cbn in Hi; simplify_eq; done.
  - intros [|[|i]] [|[|j]] k Hi Hj; cbn in *; simplify_eq; done.
Defined.

Lemma dictionary_get_refines_witness :
  dictionary_get dict_example (L"server:port") (L"default") (default (L"")) = Some (L"81").
Proof.
  rewrite (dictionary_get_refines cstr dict_example (L"server:port") (L"default") (default (L"")) dict_example_wf).
  reflexivity.
Defined.


(** Removing a key of a well-formed dictionary stays in bounds, keeps the
    dictionary well formed and deletes exactly that key from the map; a NULL
    key changes nothing. *)
Theorem dictionary_unset_refines (d : dictionary) (key : option cstr) :
  dict_wf d ->
  exists d', dictionary_unset d key = Some d' /\ dict_wf d' /\
    dict_map d' = match key with Some k => delete k (dict_map d) | None => dict_map d end.
Proof.
  intros Hd. destruct (dictionary_unset_ok d key Hd) as (d' & E & Hwf & Hm & _). by exists d'.
Qed.

Lemma dictionary_unset_refines_witness :
  exists d', dictionary_unset dict_example (Some (L"server:port")) = Some d' /\
    dict_map d' !! L"server:port" = None.
Proof.
  destruct (dictionary_unset_refines dict_example (Some (L"server:port")) dict_example_wf) as (d' & E & _ & M).
  exists d'. split; [exact E|]. rewrite M. apply lookup_delete_eq.
Defined.

(** Whatever the allocator answers, setting a key of a well-formed
    dictionary is free of undefined behaviour; it returns 0 or -1, and when it
    returns 0 the dictionary is well formed again and every other key keeps its
    value. *)
Theorem dictionary_set_safe (d : dictionary) (key : cstr) (val : option cstr) (o : list bool) :
  dict_wf d -> 0 < Z.of_nat (d_size d) <= DICT_MAXSZ ->
  exists code d' o', dictionary_set (Some d) (Some key) val o = Some ((code, Some d'), o') /\
    (code = -1 \/
     (code = 0 /\ dict_wf d' /\ forall k, k <> key -> dict_map d' !! k = dict_map d !! k)).
Proof.
  intros (keys & vals & hashes & R) Hsz. unfold dictionary_set.
  destruct (set_search_rep d keys vals hashes key o R) as [(i & v & E & Hi & Hv & M)|[E M]]; alloc_step E.
  - alloc_step (rep_val _ _ _ _ R). alloc_step Hv.
    destruct (xstrdup_any val o) as (t & o' & Et & _). alloc_step Et.
    rewrite (rep_val _ _ _ _ R), (rep_key _ _ _ _ R), (rep_hash _ _ _ _ R).
    alloc_step (store_ok vals i t o' ltac:(eapply lookup_lt_Some; eauto)).
    destruct (set_val_rep d keys vals hashes i key t R Hi) as [R' M'].
    do 3 eexists. split; [reflexivity|]. right. split_and!; [done|by do 3 eexists|].
    intros k Hk. rewrite M'. by apply lookup_insert_ne.
  - destruct (grow_any d keys vals hashes o R Hsz) as (dg & ok & o1 & Eg & Hok). alloc_step Eg.
    destruct ok; [|by do 3 eexists; split; [reflexivity|left]].
    destruct (Hok eq_refl) as (k & v & h & Rg & Mg & Lg & Ng). rewrite <-Mg in M. rewrite <-Ng in Lg.
    destruct (insert_new_any dg k v h key val o1 Rg M Lg)
      as (d' & k' & v' & h' & kk & vv & o2 & Ei & R' & Hkk & _ & _ & _ & M').
    do 3 eexists. split; [exact Ei|]. right. split_and!; [done|by do 3 eexists|].
    intros k0 Hk0. rewrite M', <-Mg. destruct kk; [by apply lookup_insert_ne|done].
Qed.

Lemma dictionary_set_safe_witness :
  exists code d' o', dictionary_set (Some dict_example) (Some (L"a:b")) None [false] =
    Some ((code, Some d'), o') /\ (code = -1 \/ code = 0).
Proof.
  destruct (dictionary_set_safe dict_example (L"a:b") None [false]) as (c & d' & o' & E & H).
  - apply dict_example_wf.
  - vm_compute; split; [reflexivity|discriminate].
  - exists c, d', o'. split; [exact E|]. destruct H as [H|[H _]]; [left|right]; exact H.
Defined.

(** When a full dictionary must grow for a new key and the first [calloc]
    fails, [dictionary_set] reports -1 but has already overwritten the value
    array with NULL, so that [dictionary_del], which the INI loader calls on
    exactly this error, dereferences NULL. *)
Theorem dictionary_grow_failure_fatal (d : dictionary) (key : cstr) (val : option cstr) :
  dict_wf d -> 0 < Z.of_nat (d_size d) <= DICT_MAXSZ ->
  d_n d = Z.of_nat (d_size d) -> dict_map d !! key = None ->
  exists d', dictionary_set (Some d) (Some key) val [false] = Some ((-1, Some d'), []) /\
    d_val d' = None /\ dictionary_del (Some d') = None.
Proof.
  intros (keys & vals & hashes & R) Hsz Hfull Hnew. unfold dictionary_set.
  destruct (set_search_rep d keys vals hashes key [false] R) as [(i & v & E & Hi & Hv & M)|[E M]];
    [congruence|]. alloc_step E.
  unfold grow. rewrite (proj2 (Z.eqb_eq _ _) Hfull).
  rewrite (rep_key _ _ _ _ R), (rep_val _ _ _ _ R), (rep_hash _ _ _ _ R).
  unfold mem_double. rewrite !(proj2 (Z.leb_le _ _)) by (unfold DICT_MAXSZ, INT_MAX in *; lia).
  cbn -[Nat.mul]. eexists. split; [reflexivity|]. split; [done|].
  unfold slots. cbn. destruct (d_size d) eqn:Es; [lia|]. done.
Qed.

Definition dict_full : dictionary :=
  mk_dictionary 1 1 (Some [None]) (Some [Some (L"server")]) (Some [dictionary_hash (L"server")]).

Lemma dictionary_grow_failure_fatal_witness :
  exists d', dictionary_set (Some dict_full) (Some (L"a:b")) (Some (L"1")) [false] =
      Some ((-1, Some d'), []) /\ dictionary_del (Some d') = None.
Proof.
  destruct (dictionary_grow_failure_fatal dict_full (L"a:b") (Some (L"1"))) as (d' & E & _ & H).
  - exists [Some (L"server")], [None], [dictionary_hash (L"server")].
    split; [reflexivity..| | |cbn; lia].
    + intros [|i] k Hi; cbn in Hi; simplify_eq; done.
    + intros [|i] [|j] k Hi Hj; cbn in *; simplify_eq; done.
  - vm_compute; split; [reflexivity|discriminate].
  - reflexivity.
  - vm_compute; reflexivity.
  - exists d'. split; [exact E|exact H].
Defined.
