(* ===== verification/Slist.v ===== *)
(** The singly-linked lists of src/csf/include/queue.h as the pointer
    manipulations the macros are: a head holds a first pointer, an element a
    next pointer. An element that is not (or no longer) allocated has no next
    field, so a macro that follows a stale pointer has no result. The abstract
    specification is a list without duplicates ([slist]). The memory pool and
    the monitor keep their elements in such lists. *)

From S2P Require Import Prelude.

(** * Data *)

(** The memory of heads and entries; a pointer is [None] when it is NULL. *)
Record sl_mem : Type := mk_sl {
  slh_first : gmap nat (option nat);
  sle_next : gmap nat (option nat)
}.

Definition put_first (h : nat) (p : option nat) (m : sl_mem) : sl_mem :=
  mk_sl (<[h:=p]> (slh_first m)) (sle_next m).

Definition put_next (e : nat) (p : option nat) (m : sl_mem) : sl_mem :=
  mk_sl (slh_first m) (<[e:=p]> (sle_next m)).

(** The memory after [free] of an element. *)
Definition free_elem (e : nat) (m : sl_mem) : sl_mem := mk_sl (slh_first m) (delete e (sle_next m)).

(** * The macros *)

Definition SLIST_INIT (h : nat) (m : sl_mem) : sl_mem := put_first h None m.

Definition SLIST_FIRST (h : nat) (m : sl_mem) : option (option nat) := slh_first m !! h.

Definition SLIST_EMPTY (h : nat) (m : sl_mem) : option bool :=
  (fun p => bool_decide (p = None)) <$> SLIST_FIRST h m.

Definition SLIST_NEXT (e : nat) (m : sl_mem) : option (option nat) := sle_next m !! e.

Definition SLIST_INSERT_HEAD (h e : nat) (m : sl_mem) : option sl_mem :=
  f ← SLIST_FIRST h m;
  Some (put_first h (Some e) (put_next e f m)).

Definition SLIST_INSERT_AFTER (x e : nat) (m : sl_mem) : option sl_mem :=
  n ← SLIST_NEXT x m;
  Some (put_next x (Some e) (put_next e n m)).

Definition SLIST_REMOVE_HEAD (h : nat) (m : sl_mem) : option sl_mem :=
  f ← SLIST_FIRST h m;
  x ← f;
  n ← SLIST_NEXT x m;
  Some (put_first h n m).

(** The loop of SLIST_REMOVE: the element whose next pointer is [e]. *)
Fixpoint seek_prev (fuel : nat) (curelm e : nat) (m : sl_mem) : option nat :=
  match fuel with
  | O => None
  | S fuel' =>
      n ← SLIST_NEXT curelm m;
      if decide (n = Some e) then Some curelm
      else c ← n; seek_prev fuel' c e m
  end.

Definition SLIST_REMOVE (h e : nat) (m : sl_mem) : option sl_mem :=
  f ← SLIST_FIRST h m;
  if decide (f = Some e) then SLIST_REMOVE_HEAD h m
  else
    c0 ← f;
    c ← seek_prev (size (sle_next m)) c0 e m;
    n ← SLIST_NEXT c m;
    e' ← n;
    n' ← SLIST_NEXT e' m;
    Some (put_next c n' m).

Section foreach.
Context {S : Type} (mem : S -> sl_mem) (body : nat -> S -> option S).

(** SLIST_FOREACH: the successor is read after the body has run. *)
Fixpoint foreach_from (fuel : nat) (var : option nat) (s : S) : option S :=
  match var, fuel with
  | None, _ => Some s
  | Some e, Datatypes.S fuel' =>
      s' ← body e s;
      n ← SLIST_NEXT e (mem s');
      foreach_from fuel' n s'
  | Some _, O => None
  end.

Definition SLIST_FOREACH (h : nat) (s : S) : option S :=
  f ← SLIST_FIRST h (mem s);
  foreach_from (size (sle_next (mem s))) f s.

(** SLIST_FOREACH_SAFE: the successor is read before. *)
Fixpoint foreach_safe_from (fuel : nat) (var : option nat) (s : S) : option S :=
  match var, fuel with
  | None, _ => Some s
  | Some e, Datatypes.S fuel' =>
      tvar ← SLIST_NEXT e (mem s);
      s' ← body e s;
      foreach_safe_from fuel' tvar s'
  | Some _, O => None
  end.

Definition SLIST_FOREACH_SAFE (h : nat) (s : S) : option S :=
  f ← SLIST_FIRST h (mem s);
  foreach_safe_from (size (sle_next (mem s))) f s.

End foreach.

(** * Abstract specification *)

(** The elements linked from the pointer [p] on are [l]. *)
Fixpoint linked (m : sl_mem) (p : option nat) (l : list nat) : Prop :=
  match l with
  | [] => p = None
  | x :: l' => p = Some x /\ exists n, sle_next m !! x = Some n /\ linked m n l'
  end.

(** The head [h] holds the list [l]. *)
Definition slist (m : sl_mem) (h : nat) (l : list nat) : Prop :=
  NoDup l /\ exists p, slh_first m !! h = Some p /\ linked m p l.

(** * Lemmas *)

Lemma linked_frame m m' p l :
  (forall x, x ∈ l -> sle_next m' !! x = sle_next m !! x) -> linked m p l -> linked m' p l.
Proof.
  revert p; induction l as [|x l IH]; intros p H; [done|].
  intros (-> & n & Hn & Hl). split; [done|]. exists n. rewrite H by set_solver.
  split; [done|]. apply IH; [|done]. intros; apply H; set_solver.
Qed.

Lemma linked_alloc m p l x : linked m p l -> x ∈ l -> is_Some (sle_next m !! x).
Proof.
  revert p; induction l as [|y l IH]; intros p; [by intros _ ?%not_elem_of_nil|].
  intros (_ & n & Hn & Hl) [->|Hx]%elem_of_cons; eauto.
Qed.

(** The list a pointer starts is determined by the memory. *)
Lemma linked_det m p l l' : linked m p l -> linked m p l' -> l = l'.
Proof.
  revert p l'; induction l as [|x l IH]; intros p [|y l']; cbn; [done|naive_solver..|].
  intros (-> & n & Hn & Hl) ([= <-] & n' & Hn' & Hl'). simplify_eq. f_equal; eauto.
Qed.

Lemma slist_det m h l l' : slist m h l -> slist m h l' -> l = l'.
Proof. intros (_ & p & Hp & Hl) (_ & p' & Hp' & Hl'). simplify_eq. eauto using linked_det. Qed.

(** The elements of a list are allocated, so they are at most as many as the
    allocated entries: the fuel of the loops. *)
Lemma linked_size m p l : NoDup l -> linked m p l -> (length l <= size (sle_next m))%nat.
Proof.
  intros Hn Hl. rewrite <-size_dom, <-(size_list_to_set (C:=gset nat) l) by done.
  apply subseteq_size. intros x Hx. apply elem_of_list_to_set in Hx. apply elem_of_dom. eauto using linked_alloc.
Qed.

(** A list whose fields are not written is unchanged. *)
Lemma slist_frame m m' h l :
  slh_first m' !! h = slh_first m !! h -> (forall x, x ∈ l -> sle_next m' !! x = sle_next m !! x) ->
  slist m h l -> slist m' h l.
Proof. intros Hf Hx (Hn & p & Hp & Hl). split; [done|]. exists p. rewrite Hf. eauto using linked_frame. Qed.

Lemma SLIST_INIT_ok h m : slist (SLIST_INIT h m) h [].
Proof. split; [constructor|]. exists None. cbn. by rewrite lookup_insert_eq. Qed.

Lemma SLIST_FIRST_ok m h l : slist m h l -> SLIST_FIRST h m = Some (head l).
Proof. intros (_ & p & Hp & Hl). unfold SLIST_FIRST. rewrite Hp. destruct l; cbn in Hl; naive_solver. Qed.

Lemma SLIST_INSERT_HEAD_ok m h l e :
  slist m h l -> e ∉ l ->
  exists m', SLIST_INSERT_HEAD h e m = Some m' /\ slist m' h (e :: l) /\
    sle_next m' = <[e:=head l]> (sle_next m) /\ slh_first m' = <[h:=Some e]> (slh_first m).
Proof.
  intros Hs He. unfold SLIST_INSERT_HEAD. rewrite (SLIST_FIRST_ok m h l Hs). eexists. split; [done|].
  destruct Hs as (Hn & p & Hp & Hl). split; [|done]. split; [by constructor|].
  exists (Some e). cbn. rewrite !lookup_insert_eq. split; [done|]. split; [done|]. eexists. split; [done|].
  apply linked_frame with m; [intros x Hx; cbn; rewrite lookup_insert_ne by set_solver; done|].
  destruct l; cbn in Hl |- *; naive_solver.
Qed.

Lemma SLIST_REMOVE_HEAD_ok m h x l :
  slist m h (x :: l) ->
  exists m', SLIST_REMOVE_HEAD h m = Some m' /\ slist m' h l /\ sle_next m' = sle_next m /\
    slh_first m' = <[h:=head l]> (slh_first m).
Proof.
  intros (Hn & p & Hp & -> & n & Hx & Hl). apply list.NoDup_cons in Hn as [? Hn].
  unfold SLIST_REMOVE_HEAD, SLIST_FIRST, SLIST_NEXT. rewrite Hp. cbn. rewrite Hx. cbn.
  eexists. split; [done|]. split; [|split; [done|]].
  - split; [done|]. exists n. cbn. rewrite lookup_insert_eq. split; [done|].
    eapply linked_frame; [|exact Hl]. done.
  - cbn. destruct l; cbn in Hl; naive_solver.
Qed.

(** A segment from [p] to the field of the element before [e]. *)
Lemma seek_prev_ok m x l1 e l2 fuel :
  NoDup (x :: l1 ++ e :: l2) -> linked m (Some x) (x :: l1 ++ e :: l2) -> (length l1 < fuel)%nat ->
  seek_prev fuel x e m = Some (default x (list.last l1)).
Proof.
  revert x l1; induction fuel as [|fuel IH]; intros x l1 Hn Hl Hf; [lia|].
  destruct Hl as (_ & n & Hx & Hl). cbn [seek_prev]. unfold SLIST_NEXT. rewrite Hx. cbn [mbind option_bind].
  destruct l1 as [|y l1].
  - destruct Hl as (-> & _). by rewrite decide_True.
  - cbn [app] in Hn. pose proof Hl as (-> & _).
    rewrite decide_False by (intros [= ->]; apply list.NoDup_cons in Hn as [_ [? _]%list.NoDup_cons]; set_solver).
    cbn [mbind option_bind]. rewrite (IH y l1); [by destruct l1 using rev_ind; rewrite ?last_cons, ?last_snoc|..].
    + by apply list.NoDup_cons in Hn as [_ ?].
    + done.
    + cbn in Hf. lia.
Qed.

(** Unlinking the element after [c]. *)
Lemma linked_unlink m p l1 c e l2 n :
  NoDup (l1 ++ c :: e :: l2) -> linked m p (l1 ++ c :: e :: l2) -> sle_next m !! e = Some n ->
  linked (put_next c n m) p (l1 ++ c :: l2).
Proof.
  revert p; induction l1 as [|x l1 IH]; intros p Hn Hl He.
  - cbn in Hl |- *. destruct Hl as (-> & q & Hc & -> & q' & He' & Hl). simplify_eq.
    split; [done|]. exists q'. rewrite lookup_insert_eq. split; [done|].
    apply linked_frame with m; [|done]. intros y Hy. cbn. rewrite lookup_insert_ne; [done|].
    intros ->. apply list.NoDup_cons in Hn as [Hn _]. set_solver.
  - cbn [app linked] in Hl |- *. destruct Hl as (-> & q & Hx & Hl). split; [done|]. exists q.
    cbn [app] in Hn. apply list.NoDup_cons in Hn as [Hx' Hn].
    cbn. rewrite lookup_insert_ne by set_solver. split; [done|]. by apply IH.
Qed.

Lemma SLIST_REMOVE_ok m h l1 e l2 :
  slist m h (l1 ++ e :: l2) ->
  exists m', SLIST_REMOVE h e m = Some m' /\ slist m' h (l1 ++ l2) /\
    dom (sle_next m') = dom (sle_next m) /\
    (forall h', h' <> h -> slh_first m' !! h' = slh_first m !! h') /\
    (forall x, x ∉ l1 -> sle_next m' !! x = sle_next m !! x).
Proof.
  intros Hs. unfold SLIST_REMOVE. rewrite (SLIST_FIRST_ok _ _ _ Hs).
  destruct l1 as [|x l1]; cbn [app head mbind option_bind] in *.
  { rewrite decide_True by done. destruct (SLIST_REMOVE_HEAD_ok _ _ _ _ Hs) as (m' & E & Hs' & En & Ef).
    exists m'. rewrite En, Ef. split_and!; try done. intros. by rewrite lookup_insert_ne. }
  destruct Hs as (Hn & p & Hp & Hl). pose proof Hl as (-> & _).
  rewrite decide_False by (intros [= ->]; apply list.NoDup_cons in Hn as [? _]; set_solver).
  cbn [mbind option_bind].
  assert (Hsz := linked_size _ _ _ Hn Hl). cbn in Hsz. rewrite length_app in Hsz. cbn in Hsz.
  rewrite (seek_prev_ok m x l1 e l2) by (done || lia). cbn [mbind option_bind].
  destruct (linked_alloc _ _ _ e Hl) as [n He]; [set_solver|].
  assert (exists k c, x :: l1 = k ++ [c] /\ default x (list.last l1) = c) as (k & c & Ek & ->).
  { destruct l1 as [|c k] using rev_ind; [by exists [], x|]. exists (x :: k), c. by rewrite last_snoc. }
  assert (El : x :: l1 ++ e :: l2 = k ++ c :: e :: l2) by (rewrite app_comm_cons, Ek, <-app_assoc; done).
  rewrite El in Hn, Hl.
  assert (Hc : sle_next m !! c = Some (Some e)).
  { clear -Hl. revert Hl. generalize (Some x). induction k as [|y k IH]; intros p; cbn; [naive_solver|].
    intros (_ & n & _ & Hl). by apply (IH n). }
  unfold SLIST_NEXT. rewrite Hc. cbn [mbind option_bind]. rewrite He. cbn [mbind option_bind].
  eexists. split; [done|]. split_and!.
  - rewrite app_comm_cons, Ek, <-app_assoc. split.
    + clear -Hn. apply list.NoDup_app in Hn as (? & Hd & Hn). apply list.NoDup_cons in Hn as [Hc Hn].
      apply list.NoDup_cons in Hn as [He Hn]. apply list.NoDup_app. split; [done|]. split; [set_solver|].
      apply list.NoDup_cons. split; [set_solver|done].
    + exists (Some x). split; [done|]. by apply (linked_unlink m (Some x) k c e l2).
  - cbn. rewrite dom_insert_L. assert (c ∈ dom (sle_next m)) by (apply elem_of_dom; eauto). set_solver.
  - done.
  - intros y Hy. cbn. rewrite lookup_insert_ne; [done|]. rewrite Ek in Hy. set_solver.
Qed.

(** Freeing an element that is in no list leaves the lists. *)
Lemma slist_free m h l e : slist m h l -> e ∉ l -> slist (free_elem e m) h l.
Proof.
  intros Hs He. apply slist_frame with m; [done| |done].
  intros x Hx. cbn. by rewrite lookup_delete_ne by set_solver.
Qed.

Lemma SLIST_INSERT_AFTER_ok m h l1 x e l2 :
  slist m h (l1 ++ x :: l2) -> e ∉ l1 ++ x :: l2 ->
  exists m', SLIST_INSERT_AFTER x e m = Some m' /\ slist m' h (l1 ++ x :: e :: l2) /\
    slh_first m' = slh_first m /\ (forall y, y <> e -> y <> x -> sle_next m' !! y = sle_next m !! y).
Proof.
  intros (Hn & p & Hp & Hl) He. unfold SLIST_INSERT_AFTER, SLIST_NEXT.
  destruct (linked_alloc _ _ _ x Hl) as [n Hx]; [set_solver|]. rewrite Hx. cbn [mbind option_bind].
  eexists. split; [done|]. split_and!; [|done|].
  - split.
    + apply list.NoDup_app in Hn as (H1 & Hd & H2). apply list.NoDup_cons in H2 as [? H2].
      apply list.NoDup_app. split; [done|]. split; [set_solver|].
      rewrite !list.NoDup_cons. set_solver.
    + exists p. split; [done|]. clear Hp. revert p Hl. induction l1 as [|y l1 IH]; intros p Hl.
      * destruct Hl as (-> & n' & Hx' & Hl). simplify_eq. cbn [app linked]. split; [done|]. exists (Some e). cbn.
        rewrite lookup_insert_eq. split; [done|]. split; [done|]. exists n.
        rewrite lookup_insert_ne, lookup_insert_eq by set_solver. split; [done|].
        apply linked_frame with m; [|done]. intros y Hy. cbn.
        apply list.NoDup_app in Hn as (_ & _ & [? _]%list.NoDup_cons). rewrite !lookup_insert_ne by set_solver. done.
      * cbn [app linked] in Hl |- *. destruct Hl as (-> & n' & Hy & Hl). split; [done|]. exists n'.
        cbn [app] in Hn. apply list.NoDup_cons in Hn as [Hy' Hn]. cbn. rewrite !lookup_insert_ne by set_solver.
        split; [done|]. apply IH; [done| |done]. set_solver.
  - intros y H1 H2. cbn. by rewrite !lookup_insert_ne by done.
Qed.

Section loops.
Context {S : Type} (mem : S -> sl_mem) (body : nat -> S -> option S).

(** Loop rules: [I l s] holds when [l] is still to be visited. *)
Lemma foreach_rule (I : list nat -> S -> Prop) fuel l s :
  (forall e k s, I (e :: k) s -> exists s', body e s = Some s' /\ SLIST_NEXT e (mem s') = Some (head k) /\ I k s') ->
  I l s -> (length l <= fuel)%nat -> exists s', foreach_from mem body fuel (head l) s = Some s' /\ I [] s'.
Proof.
  intros Hb. revert l s; induction fuel as [|fuel IH]; intros [|e k] s HI Hf; cbn in Hf; [eauto|lia|eauto|].
  destruct (Hb e k s HI) as (s' & E & En & HI'). cbn. rewrite E. cbn. rewrite En. cbn. apply IH; [done|lia].
Qed.

Lemma foreach_safe_rule (I : list nat -> S -> Prop) fuel l s :
  (forall e k s, I (e :: k) s -> SLIST_NEXT e (mem s) = Some (head k) /\ exists s', body e s = Some s' /\ I k s') ->
  I l s -> (length l <= fuel)%nat -> exists s', foreach_safe_from mem body fuel (head l) s = Some s' /\ I [] s'.
Proof.
  intros Hb. revert l s; induction fuel as [|fuel IH]; intros [|e k] s HI Hf; cbn in Hf; [eauto|lia|eauto|].
  destruct (Hb e k s HI) as (En & s' & E & HI'). cbn. rewrite En. cbn. rewrite E. cbn. apply IH; [done|lia].
Qed.

End loops.

Lemma slist_NEXT m h l1 e l2 : slist m h (l1 ++ e :: l2) -> SLIST_NEXT e m = Some (head l2).
Proof.
  intros (_ & p & _ & Hl). revert p Hl. induction l1 as [|x l1 IH]; intros p; cbn.
  - intros (_ & n & Hn & Hl). unfold SLIST_NEXT. rewrite Hn. destruct l2; cbn in Hl; naive_solver.
  - intros (_ & n & _ & Hl). eauto.
Qed.

(** * Refinement *)

(** A client of the macros with several lists. *)
Inductive slop : Type :=
| OInit (h : nat)
| OInsertHead (h e : nat)
| OInsertAfter (x e : nat)
| ORemoveHead (h : nat)
| ORemove (h e : nat).

Definition slexec (o : slop) (m : sl_mem) : option sl_mem :=
  match o with
  | OInit h => Some (SLIST_INIT h m)
  | OInsertHead h e => SLIST_INSERT_HEAD h e m
  | OInsertAfter x e => SLIST_INSERT_AFTER x e m
  | ORemoveHead h => SLIST_REMOVE_HEAD h m
  | ORemove h e => SLIST_REMOVE h e m
  end.

(** The same operations on finite lists: what they mean, and when a client may
    use them. *)
Definition insert_after (x e : nat) (l : list nat) : list nat := l ≫= fun y => if decide (y = x) then [y; e] else [y].

Definition unused (e : nat) (a : gmap nat (list nat)) : bool := bool_decide (map_Forall (fun _ l => e ∉ l) a).

Definition sl_spec (o : slop) (a : gmap nat (list nat)) : option (gmap nat (list nat)) :=
  match o with
  | OInit h => Some (<[h:=[]]> a)
  | OInsertHead h e => l ← a !! h; if unused e a then Some (<[h:=e :: l]> a) else None
  | OInsertAfter x e => if negb (unused x a) && unused e a then Some (insert_after x e <$> a) else None
  | ORemoveHead h => l ← a !! h; match l with [] => None | _ :: l' => Some (<[h:=l']> a) end
  | ORemove h e => (a !! h) ≫= fun l : list nat => if decide (e ∈ l) then Some (<[h:=filter (.≠ e) l]> a) else None
  end.

Fixpoint run {S} (f : slop -> S -> option S) (ops : list slop) (s : S) : option S :=
  match ops with [] => Some s | o :: ops' => s' ← f o s; run f ops' s' end.

(** The memory holds the lists, and no element is in two of them. *)
Definition sl_holds (m : sl_mem) (a : gmap nat (list nat)) : Prop :=
  (forall h l, a !! h = Some l -> slist m h l) /\
  (forall h h' l l', h <> h' -> a !! h = Some l -> a !! h' = Some l' -> l ## l').

Lemma unused_spec e a : unused e a = true <-> forall h l, a !! h = Some l -> e ∉ l.
Proof. unfold unused. rewrite bool_decide_eq_true. done. Qed.

Lemma filter_ne_absent (e : nat) (l : list nat) : e ∉ l -> filter (.≠ e) l = l.
Proof.
  induction l as [|x l IH]; intros H; [done|]. rewrite filter_cons, decide_True by set_solver.
  f_equal. apply IH. set_solver.
Qed.

Lemma filter_ne_middle (e : nat) l1 l2 : NoDup (l1 ++ e :: l2) -> filter (.≠ e) (l1 ++ e :: l2) = l1 ++ l2.
Proof.
  intros Hn. apply list.NoDup_app in Hn as (_ & Hd & [He _]%list.NoDup_cons).
  rewrite list.filter_app, filter_cons, decide_False by tauto.
  rewrite !filter_ne_absent by set_solver. done.
Qed.

Lemma insert_after_absent x e l : x ∉ l -> insert_after x e l = l.
Proof.
  induction l as [|y l IH]; intros H; [done|]. unfold insert_after in *. cbn.
  rewrite decide_False by set_solver. cbn. f_equal. apply IH. set_solver.
Qed.

Lemma insert_after_middle x e l1 l2 : NoDup (l1 ++ x :: l2) -> insert_after x e (l1 ++ x :: l2) = l1 ++ x :: e :: l2.
Proof.
  intros Hn. apply list.NoDup_app in Hn as (_ & Hd & [He _]%list.NoDup_cons).
  unfold insert_after. rewrite bind_app. cbn. rewrite decide_True by done.
  f_equal; [apply insert_after_absent; set_solver|]. cbn. do 2 f_equal. by apply insert_after_absent.
Qed.

(** Replacing the list of one head, the other lists keeping their fields. *)
Lemma sl_holds_update m m' a h l l' :
  sl_holds m a -> a !! h = Some l -> slist m' h l' ->
  (forall h2, h2 <> h -> slh_first m' !! h2 = slh_first m !! h2) ->
  (forall h2 k x, h2 <> h -> a !! h2 = Some k -> x ∈ k -> (x ∉ l') /\ sle_next m' !! x = sle_next m !! x) ->
  sl_holds m' (<[h:=l']> a).
Proof.
  intros [Ha Hd] Hh Hs Hf Hx. split.
  - intros h2 k. destruct (decide (h2 = h)) as [->|Hne]; [rewrite lookup_insert_eq; naive_solver|].
    rewrite lookup_insert_ne by done. intros Hk. apply slist_frame with m; [by apply Hf| |by apply Ha].
    intros x Hi. by apply (Hx h2 k).
  - intros h2 h3 k2 k3 Hne E2 E3. rewrite lookup_insert in E2, E3. repeat case_decide; simplify_eq.
    + intros x Hx1 Hx2. by destruct (Hx h2 k2 x ltac:(congruence) E2 Hx1).
    + intros x Hx1 Hx2. by destruct (Hx h3 k3 x ltac:(congruence) E3 Hx2).
    + exact (Hd h2 h3 k2 k3 Hne E2 E3).
Qed.

Lemma slexec_after m a x e a' : sl_holds m a -> sl_spec (OInsertAfter x e) a = Some a' ->
  exists m', SLIST_INSERT_AFTER x e m = Some m' /\ sl_holds m' a'.
Proof.
  intros [Ha Hd]. cbn. destruct (unused x a) eqn:Ex; [done|]. destruct (unused e a) eqn:Ee; [|done].
  cbn. intros [= <-]. rewrite unused_spec in Ee.
  unfold unused in Ex. apply bool_decide_eq_false, map_not_Forall in Ex as (h & l & Hh & Hx); [|apply _].
  apply dec_stable, list_elem_of_split in Hx as (l1 & l2 & ->).
  destruct (SLIST_INSERT_AFTER_ok m h l1 x e l2 (Ha _ _ Hh) (Ee _ _ Hh)) as (m' & E & Hs & Ef & En).
  exists m'. split; [done|].
  replace (insert_after x e <$> a) with (<[h:=l1 ++ x :: e :: l2]> a); [apply sl_holds_update with m (l1 ++ x :: l2)|].
  - done.
  - done.
  - done.
  - intros. by rewrite Ef.
  - intros h2 k y Hne Hk Hy. assert (y ∉ l1 ++ x :: l2) by (intros ?; by eapply (Hd h2 h)).
    assert (y <> e) by (intros ->; by eapply Ee). split; [set_solver|]. apply En; set_solver.
  - apply map_eq. intros h2. rewrite lookup_fmap. destruct (decide (h2 = h)) as [->|Hne].
    + rewrite lookup_insert_eq, Hh. cbn. f_equal. symmetry. apply insert_after_middle. by destruct (Ha _ _ Hh).
    + rewrite lookup_insert_ne by done. destruct (a !! h2) as [k|] eqn:Hk; [|done]. cbn. f_equal. symmetry.
      apply insert_after_absent. intros Hx. eapply (Hd h2 h k _ Hne Hk Hh); [done|set_solver].
Qed.

Lemma slexec_refines o m a a' :
  sl_holds m a -> sl_spec o a = Some a' -> exists m', slexec o m = Some m' /\ sl_holds m' a'.
Proof.
  intros HR. pose proof HR as [Ha Hd]. destruct o as [h|h e|x e|h|h e]; cbn [slexec].
  - intros [= <-]. eexists. split; [done|]. split.
    + intros h2 k. destruct (decide (h2 = h)) as [->|Hne].
      * rewrite lookup_insert_eq. intros [= <-]. apply SLIST_INIT_ok.
      * rewrite lookup_insert_ne by done. intros Hk.
        apply slist_frame with m; [cbn; by rewrite lookup_insert_ne|done|by apply Ha].
    + intros h2 h3 k2 k3 Hne E2 E3. rewrite !lookup_insert in E2, E3. repeat case_decide; simplify_eq; first [exact (Hd h2 h3 k2 k3 Hne E2 E3)|set_solver].
  - cbn. destruct (a !! h) as [l|] eqn:Hh; [|done]. cbn. destruct (unused e a) eqn:Ee; [|done]. intros [= <-].
    rewrite unused_spec in Ee.
    destruct (SLIST_INSERT_HEAD_ok m h l e (Ha _ _ Hh) (Ee _ _ Hh)) as (m' & E & Hs & En & Ef). exists m'. split; [done|].
    apply sl_holds_update with m l; [done..| |].
    + intros. by rewrite Ef, lookup_insert_ne.
    + intros h2 k x Hne Hk Hx. assert (x ∉ l) by (intros ?; by eapply (Hd h2 h)).
      assert (x <> e) by (intros ->; by eapply Ee). split; [set_solver|]. by rewrite En, lookup_insert_ne.
  - by apply slexec_after.
  - cbn. destruct (a !! h) as [[|e l]|] eqn:Hh; [done| |done]. cbn. intros [= <-].
    destruct (SLIST_REMOVE_HEAD_ok m h e l (Ha _ _ Hh)) as (m' & E & Hs & En & Ef). exists m'. split; [done|].
    apply sl_holds_update with m (e :: l); [done..| |].
    + intros. by rewrite Ef, lookup_insert_ne.
    + intros h2 k x Hne Hk Hx. rewrite En. split; [|done]. intros ?. eapply (Hd h2 h k _ Hne Hk Hh); [done|set_solver].
  - cbn. destruct (a !! h) as [l|] eqn:Hh; [|done]. cbn. destruct (decide (e ∈ l)) as [He|]; [|done]. intros [= <-].
    apply list_elem_of_split in He as (l1 & l2 & ->). pose proof (Ha _ _ Hh) as Hs0.
    destruct (SLIST_REMOVE_ok m h l1 e l2 Hs0) as (m' & E & Hs & _ & Ef & En). exists m'. split; [done|].
    rewrite filter_ne_middle by (by destruct Hs0).
    apply sl_holds_update with m (l1 ++ e :: l2); [done..|].
    intros h2 k x Hne Hk Hx. assert (x ∉ l1 ++ e :: l2) by (intros ?; by eapply (Hd h2 h)).
    split; [set_solver|]. apply En. set_solver.
Qed.

(** The macros for singly-linked lists implement finite lists: every
    sequence of initialisations, insertions and removals on any number of lists
    that the list specification allows runs on the linked memory without touching
    an entry that is not there, ends (the search of SLIST_REMOVE included), and
    leaves each head holding exactly the list the specification computes. *)
Theorem slist_refines ops m a a' :
  sl_holds m a -> run sl_spec ops a = Some a' -> exists m', run slexec ops m = Some m' /\ sl_holds m' a'.
Proof.
  revert m a; induction ops as [|o ops IH]; intros m a HR E; cbn in *; [naive_solver|].
  destruct (sl_spec o a) as [a1|] eqn:Eo; [|done]. cbn in E.
  destruct (slexec_refines o m a a1 HR Eo) as (m1 & -> & HR1). cbn. eauto.
Qed.

Lemma slist_refines_witness :
  exists m', run slexec [OInit 0; OInit 1; OInsertHead 0 10; OInsertHead 0 11; OInsertAfter 10 12; OInsertHead 1 13;
                         ORemove 0 10; ORemoveHead 1]%nat (mk_sl ∅ ∅) = Some m' /\
    sl_holds m' (<[1:=[]]> {[0 := [11; 12]]})%nat.
Proof.
  apply (slist_refines _ _ ∅); [split; intros ?; naive_solver|]. vm_compute. reflexivity.
Defined.
