(* ===== verification/Tailq.v ===== *)
(** The tail queues of src/csf/include/queue.h, as the pointer manipulations the
    macros are: a head holds a first pointer and the address of the last [next]
    field, an element holds a next pointer and the address of the previous
    [next] field. The abstract specification is a list without duplicates
    ([tailq]); the theorems show that the macros implement the list operations
    the pipeline components are written with, and leave every other queue
    alone. *)

From S2P Require Import Prelude.

(** * Data *)

(** A pointer to an element: NULL, an element, or the mark [(void * )-1] that
    TAILQ_ENTRY_INIT writes. *)
Inductive ptr : Type :=
| PNull
| PElem (e : nat)
| PBad.

(** The address of a pointer field: the first pointer of a head or the next
    pointer of an element. *)
Inductive slot : Type :=
| SHead (q : nat)
| SNext (e : nat)
| SBad.

#[export] Instance ptr_eq_dec : EqDecision ptr.
Proof. solve_decision. Defined.

#[export] Instance slot_eq_dec : EqDecision slot.
Proof. solve_decision. Defined.

(** The memory of heads and entries. *)
Record tq_mem : Type := mk_tq {
  tqh_first : gmap nat ptr;
  tqh_last : gmap nat slot;
  tqe_next : gmap nat ptr;
  tqe_prev : gmap nat slot
}.

(** Reading and writing through the address of a pointer field. *)
Definition load (m : tq_mem) (s : slot) : option ptr :=
  match s with
  | SHead q => tqh_first m !! q
  | SNext e => tqe_next m !! e
  | SBad => None
  end.

Definition set_first (q : nat) (p : ptr) (m : tq_mem) : tq_mem :=
  mk_tq (<[q:=p]> (tqh_first m)) (tqh_last m) (tqe_next m) (tqe_prev m).

Definition set_last (q : nat) (s : slot) (m : tq_mem) : tq_mem :=
  mk_tq (tqh_first m) (<[q:=s]> (tqh_last m)) (tqe_next m) (tqe_prev m).

Definition set_next (e : nat) (p : ptr) (m : tq_mem) : tq_mem :=
  mk_tq (tqh_first m) (tqh_last m) (<[e:=p]> (tqe_next m)) (tqe_prev m).

Definition set_prev (e : nat) (s : slot) (m : tq_mem) : tq_mem :=
  mk_tq (tqh_first m) (tqh_last m) (tqe_next m) (<[e:=s]> (tqe_prev m)).

Definition put (s : slot) (p : ptr) (m : tq_mem) : option tq_mem :=
  match s with
  | SHead q => Some (set_first q p m)
  | SNext e => Some (set_next e p m)
  | SBad => None
  end.

(** * The macros *)

Definition TAILQ_INIT (q : nat) (m : tq_mem) : tq_mem :=
  set_last q (SHead q) (set_first q PNull m).

Definition TAILQ_FIRST (q : nat) (m : tq_mem) : option ptr := tqh_first m !! q.

Definition TAILQ_EMPTY (q : nat) (m : tq_mem) : option bool :=
  (fun p => bool_decide (p = PNull)) <$> TAILQ_FIRST q m.

Definition TAILQ_NEXT (e : nat) (m : tq_mem) : option ptr := tqe_next m !! e.

Definition TAILQ_INSERT_TAIL (q e : nat) (m : tq_mem) : option tq_mem :=
  let m1 := set_next e PNull m in
  l ← tqh_last m1 !! q;
  let m2 := set_prev e l m1 in
  m3 ← put l (PElem e) m2;
  Some (set_last q (SNext e) m3).

Definition TAILQ_INSERT_HEAD (q e : nat) (m : tq_mem) : option tq_mem :=
  f ← TAILQ_FIRST q m;
  let m1 := set_next e f m in
  let m2 := match f with
            | PElem x => set_prev x (SNext e) m1
            | _ => set_last q (SNext e) m1
            end in
  let m3 := set_first q (PElem e) m2 in
  Some (set_prev e (SHead q) m3).

Definition TAILQ_INSERT_BEFORE (x e : nat) (m : tq_mem) : option tq_mem :=
  s ← tqe_prev m !! x;
  let m1 := set_prev e s m in
  let m2 := set_next e (PElem x) m1 in
  m3 ← put s (PElem e) m2;
  Some (set_prev x (SNext e) m3).

Definition TAILQ_REMOVE (q e : nat) (m : tq_mem) : option tq_mem :=
  n ← TAILQ_NEXT e m;
  s ← tqe_prev m !! e;
  let m1 := match n with
            | PElem x => set_prev x s m
            | _ => set_last q s m
            end in
  put s n m1.

Definition TAILQ_CONCAT (q1 q2 : nat) (m : tq_mem) : option tq_mem :=
  f ← TAILQ_FIRST q2 m;
  match f with
  | PElem x =>
      l1 ← tqh_last m !! q1; l2 ← tqh_last m !! q2;
      m1 ← put l1 (PElem x) m;
      Some (TAILQ_INIT q2 (set_last q1 l2 (set_prev x l1 m1)))
  | PNull => Some m
  | PBad => None
  end.

Definition TAILQ_INSERT_AFTER (q x e : nat) (m : tq_mem) : option tq_mem :=
  n ← TAILQ_NEXT x m;
  let m1 := set_next e n m in
  let m2 := match n with
            | PElem y => set_prev y (SNext e) m1
            | _ => set_last q (SNext e) m1
            end in
  Some (set_prev e (SNext x) (set_next x (PElem e) m2)).

(** The second field of the structure that starts with the field [s]: a head
    and an entry have the same layout, so it is the last pointer of a head or
    the prev pointer of an element. *)
Definition second_field (s : slot) (m : tq_mem) : option slot :=
  match s with
  | SHead q => tqh_last m !! q
  | SNext e => tqe_prev m !! e
  | SBad => None
  end.

(** The last element and the element before: both read an address of a [next]
    field as a head and follow its last field. *)
Definition TAILQ_LAST (q : nat) (m : tq_mem) : option ptr :=
  l ← tqh_last m !! q;
  s ← second_field l m;
  load m s.

Definition TAILQ_PREV (e : nat) (m : tq_mem) : option ptr :=
  p ← tqe_prev m !! e;
  s ← second_field p m;
  load m s.

(** The mark of an entry that is in no queue, and its test. *)
Definition TAILQ_ENTRY_INIT (e : nat) (m : tq_mem) : tq_mem := set_prev e SBad (set_next e PBad m).

Definition TAILQ_ENTRY_EMPTY (e : nat) (m : tq_mem) : bool :=
  bool_decide (tqe_next m !! e = Some PBad) && bool_decide (tqe_prev m !! e = Some SBad).

(** The elements a TAILQ_FOREACH visits from a pointer on, with fuel. *)
Fixpoint foreach (fuel : nat) (p : ptr) (m : tq_mem) : option (list nat) :=
  match p, fuel with
  | PNull, _ => Some []
  | PElem e, S fuel' => n ← TAILQ_NEXT e m; cons e <$> foreach fuel' n m
  | _, _ => None
  end.

Definition TAILQ_FOREACH (fuel q : nat) (m : tq_mem) : option (list nat) :=
  f ← TAILQ_FIRST q m; foreach fuel f m.

(** The elements a TAILQ_FOREACH_REVERSE visits. *)
Fixpoint foreach_reverse (fuel : nat) (p : ptr) (m : tq_mem) : option (list nat) :=
  match p, fuel with
  | PNull, _ => Some []
  | PElem e, S fuel' => n ← TAILQ_PREV e m; cons e <$> foreach_reverse fuel' n m
  | _, _ => None
  end.

Definition TAILQ_FOREACH_REVERSE (fuel q : nat) (m : tq_mem) : option (list nat) :=
  l ← TAILQ_LAST q m; foreach_reverse fuel l m.

Section safe_loops.
Context {S : Type} (mem : S -> tq_mem) (body : nat -> S -> option S).

(** The loops that read the following element before they run their body. *)
Fixpoint foreach_safe (next : nat -> tq_mem -> option ptr) (fuel : nat) (var : ptr) (s : S) : option S :=
  match var, fuel with
  | PNull, _ => Some s
  | PElem e, Datatypes.S fuel' =>
      tvar ← next e (mem s);
      s' ← body e s;
      foreach_safe next fuel' tvar s'
  | _, _ => None
  end.

Definition TAILQ_FOREACH_SAFE (fuel q : nat) (s : S) : option S :=
  f ← TAILQ_FIRST q (mem s); foreach_safe TAILQ_NEXT fuel f s.

Definition TAILQ_FOREACH_REVERSE_SAFE (fuel q : nat) (s : S) : option S :=
  l ← TAILQ_LAST q (mem s); foreach_safe TAILQ_PREV fuel l s.

End safe_loops.

(** The consistency checks of a kernel with INVARIANTS; the result tells whether
    the message is printed. *)
Definition QMD_TAILQ_CHECK_HEAD (q : nat) (m : tq_mem) : option bool :=
  f ← TAILQ_FIRST q m;
  match f with
  | PNull => Some false
  | PElem x => s ← tqe_prev m !! x; Some (bool_decide (s <> SHead q))
  | PBad => None
  end.

Definition QMD_TAILQ_CHECK_TAIL (q : nat) (m : tq_mem) : option bool :=
  l ← tqh_last m !! q; p ← load m l; Some (bool_decide (p <> PNull)).

Definition QMD_TAILQ_CHECK_NEXT (e : nat) (m : tq_mem) : option bool :=
  n ← TAILQ_NEXT e m;
  match n with
  | PNull => Some false
  | PElem x => s ← tqe_prev m !! x; Some (bool_decide (s <> SNext e))
  | PBad => None
  end.

Definition QMD_TAILQ_CHECK_PREV (e : nat) (m : tq_mem) : option bool :=
  s ← tqe_prev m !! e; p ← load m s; Some (bool_decide (p <> PElem e)).

(** * Abstract specification *)

(** The elements [l] linked from the field [s] up to the field [t]. *)
Fixpoint lseg (m : tq_mem) (s : slot) (l : list nat) (t : slot) : Prop :=
  match l with
  | [] => s = t
  | x :: l' => load m s = Some (PElem x) /\ tqe_prev m !! x = Some s /\ lseg m (SNext x) l' t
  end.

(** Head [q] holds the list [l]. *)
Definition tailq (m : tq_mem) (q : nat) (l : list nat) : Prop :=
  NoDup l /\
  exists t, tqh_last m !! q = Some t /\ lseg m (SHead q) l t /\ load m t = Some PNull.

(** * Lemmas *)

Lemma lseg_app m s l1 l2 t :
  lseg m s (l1 ++ l2) t <-> exists u, lseg m s l1 u /\ lseg m u l2 t.
Proof.
  revert s; induction l1 as [|x l1 IH]; intros s; cbn.
  - split; [by exists s|by intros (? & -> & ?)].
  - rewrite IH. naive_solver.
Qed.

Lemma lseg_end m s l t : lseg m s l t -> t = s \/ exists x, x ∈ l /\ t = SNext x.
Proof.
  revert s; induction l as [|x l IH]; intros s; cbn; [by left|].
  intros (_ & _ & H). destruct (IH _ H) as [->|(y & Hy & ->)]; right.
  - exists x. split; [by left|done].
  - exists y. split; [by right|done].
Qed.

(** The fields a segment reads. *)
Fixpoint fields (s : slot) (l : list nat) : list slot :=
  match l with [] => [] | x :: l' => s :: fields (SNext x) l' end.

Lemma fields_in s l u : u ∈ fields s l -> u = s \/ exists x, x ∈ l /\ u = SNext x.
Proof.
  revert s; induction l as [|x l IH]; intros s; cbn; [by intros ?%not_elem_of_nil|].
  intros [->|H]%elem_of_cons; [by left|]. right.
  destruct (IH _ H) as [->|(y & Hy & ->)]; eexists; (split; [|reflexivity]); set_solver.
Qed.

Lemma lseg_frame m m' s l t :
  (forall x, x ∈ l -> tqe_prev m' !! x = tqe_prev m !! x) ->
  (forall u, u ∈ fields s l -> load m' u = load m u) ->
  lseg m s l t -> lseg m' s l t.
Proof.
  revert s; induction l as [|x l IH]; intros s Hp Hl; cbn; [done|].
  intros (H1 & H2 & H3). rewrite Hl by set_solver. rewrite Hp by set_solver.
  split_and!; [done|done|]. apply IH; auto; intros; [apply Hp|apply Hl]; set_solver.
Qed.

(** The final field of a segment without duplicates is not read by it. *)
Lemma lseg_end_fresh m s l t :
  lseg m s l t -> NoDup l -> (forall x, x ∈ l -> s <> SNext x) -> t ∉ fields s l.
Proof.
  revert s; induction l as [|x l IH]; intros s; cbn; [intros; set_solver|].
  intros (_ & _ & H) [Hx Hn]%list.NoDup_cons Hs.
  assert (Ht : t ∉ fields (SNext x) l) by (apply IH; auto; congruence).
  intros [->|?]%elem_of_cons; [|done].
  apply lseg_end in H as [->|(y & Hy & E)]; [apply (Hs x); set_solver|apply (Hs y); set_solver].
Qed.

(** A queue whose fields are not written is unchanged. *)
Lemma tailq_frame m m' q l :
  tqh_last m' !! q = tqh_last m !! q -> load m' (SHead q) = load m (SHead q) ->
  (forall x, x ∈ l -> tqe_prev m' !! x = tqe_prev m !! x /\ load m' (SNext x) = load m (SNext x)) ->
  tailq m q l -> tailq m' q l.
Proof.
  intros Hl Hh Hx (Hn & t & Ht & Hs & Ht0). split; [done|]. exists t. rewrite Hl.
  split_and!; [done| |].
  - apply lseg_frame with m; [by intros x ?; apply Hx| |done].
    intros u Hu. apply fields_in in Hu as [->|(x & ? & ->)]; [done|by apply Hx].
  - rewrite <-Ht0. apply lseg_end in Hs as [->|(x & ? & ->)]; [done|by apply Hx].
Qed.

Lemma load_put m m' s p u :
  put s p m = Some m' -> load m' u = if decide (u = s) then Some p else load m u.
Proof.
  destruct s as [q|e|]; cbn; intros H; simplify_eq; destruct u as [q'|e'|]; cbn;
    rewrite ?lookup_insert; repeat case_decide; simplify_eq; done.
Qed.

Lemma put_prev m m' s p : put s p m = Some m' -> tqe_prev m' = tqe_prev m /\ tqh_last m' = tqh_last m.
Proof. destruct s; cbn; intros; by simplify_eq. Qed.

Lemma put_total m s p : s <> SBad -> exists m', put s p m = Some m'.
Proof. destruct s; cbn; eauto; done. Qed.

Lemma load_not_bad m s p : load m s = Some p -> s <> SBad.
Proof. by destruct s. Qed.

(** What an operation leaves alone: the queues other than [q] that share no
    element with [l] and [es]. *)
Definition others_kept (m m' : tq_mem) (qs : list nat) (l : list nat) : Prop :=
  forall q' l', q' ∉ qs -> (forall x, x ∈ l' -> x ∉ l) -> tailq m q' l' -> tailq m' q' l'.

(** Field by field description of a memory change: it writes the listed fields,
    prev links and last links only. *)
Lemma others_kept_intro m m' qs l :
  (forall q, q ∉ qs -> tqh_last m' !! q = tqh_last m !! q /\ load m' (SHead q) = load m (SHead q)) ->
  (forall x, x ∉ l -> tqe_prev m' !! x = tqe_prev m !! x /\ load m' (SNext x) = load m (SNext x)) ->
  others_kept m m' qs l.
Proof.
  intros Hq Hx q l' Hnq Hd H. eapply tailq_frame; [by apply Hq..| |done].
  intros x ?; apply Hx; auto.
Qed.

Lemma TAILQ_INIT_spec q m : tailq (TAILQ_INIT q m) q [] /\ others_kept m (TAILQ_INIT q m) [q] [].
Proof.
  split.
  - split; [constructor|]. exists (SHead q). cbn. rewrite !lookup_insert_eq. done.
  - apply others_kept_intro; cbn; [|done]. intros q' Hq'.
    rewrite !lookup_insert_ne by set_solver. done.
Qed.

Lemma TAILQ_EMPTY_spec m q l : tailq m q l -> TAILQ_EMPTY q m = Some (bool_decide (l = [])).
Proof.
  intros (_ & t & _ & Hs & Ht). unfold TAILQ_EMPTY, TAILQ_FIRST.
  change (tqh_first m !! q) with (load m (SHead q)).
  destruct l as [|x l]; cbn -[load] in Hs.
  - subst t. by rewrite Ht.
  - destruct Hs as [-> _]. done.
Qed.

Lemma TAILQ_FIRST_spec m q l :
  tailq m q l -> TAILQ_FIRST q m = Some (match l with [] => PNull | x :: _ => PElem x end).
Proof.
  intros (_ & t & _ & Hs & Ht). unfold TAILQ_FIRST.
  change (tqh_first m !! q) with (load m (SHead q)).
  destruct l as [|x l]; cbn -[load] in Hs; [by subst t|by destruct Hs].
Qed.

Lemma TAILQ_INSERT_TAIL_spec m q l e :
  tailq m q l -> e ∉ l ->
  exists m', TAILQ_INSERT_TAIL q e m = Some m' /\ tailq m' q (l ++ [e]) /\
             others_kept m m' [q] (e :: l).
Proof.
  intros (Hn & t & Ht & Hs & Ht0) He. unfold TAILQ_INSERT_TAIL. cbn -[put]. rewrite Ht. cbn -[put].
  set (m2 := set_prev e t (set_next e PNull m)).
  destruct (put_total m2 t (PElem e)) as [m3 Hm3]; [by eapply load_not_bad|]. rewrite Hm3.
  eexists. split; [reflexivity|]. set (m' := set_last q (SNext e) m3).
  destruct (put_prev _ _ _ _ Hm3) as [Hp3 Hl3].
  assert (Hte : t <> SNext e) by (intros ->; apply lseg_end in Hs as [?|(x & ? & ?)]; naive_solver).
  assert (Hload : forall u, load m' u =
      if decide (u = t) then Some (PElem e) else if decide (u = SNext e) then Some PNull else load m u).
  { intros u. change (load m' u) with (load m3 u). rewrite (load_put _ _ _ _ u Hm3).
    case_decide; [done|]. destruct u as [|x|]; cbn; rewrite ?lookup_insert;
      repeat case_decide; naive_solver. }
  assert (Hprev : forall x, tqe_prev m' !! x = if decide (e = x) then Some t else tqe_prev m !! x)
    by (intros x; cbn; rewrite Hp3; cbn; by rewrite lookup_insert).
  split.
  - split; [apply list.NoDup_app; split_and!; [done|set_solver|apply list.NoDup_singleton]|].
    exists (SNext e). split_and!; [by cbn; rewrite lookup_insert_eq| |].
    + apply lseg_app. exists t. split.
      * apply lseg_frame with m; [| |done].
        -- intros x Hx. rewrite Hprev, decide_False by naive_solver. done.
        -- intros u Hu. rewrite Hload.
           rewrite decide_False by (intros ->; by eapply (lseg_end_fresh _ _ _ _ Hs)).
           rewrite decide_False; [done|].
           intros ->; apply fields_in in Hu as [?|(? & ? & ?)]; naive_solver.
      * cbn -[load]. rewrite Hload, Hprev, !decide_True by done. done.
    + by rewrite Hload, decide_False, decide_True.
  - apply others_kept_intro.
    + intros q' Hq'. split; [cbn; rewrite lookup_insert_ne by set_solver; by rewrite Hl3|].
      rewrite Hload, decide_False, decide_False; [done|done|].
      intros <-. apply lseg_end in Hs as [?|(? & ? & ?)]; [set_solver|done].
    + intros x Hx. rewrite Hprev, Hload, !decide_False; try naive_solver; [set_solver| |set_solver].
      intros <-. apply lseg_end in Hs as [?|(? & ? & ?)]; [done|set_solver].
Qed.

(** The effect of TAILQ_REMOVE, field by field: [u] is the field that pointed to
    the removed element. *)
Lemma TAILQ_REMOVE_effect m q l1 e l2 t u :
  lseg m (SHead q) l1 u -> load m u = Some (PElem e) -> tqe_prev m !! e = Some u ->
  lseg m (SNext e) l2 t -> load m t = Some PNull ->
  exists m', TAILQ_REMOVE q e m = Some m' /\
    (forall v, load m' v = if decide (v = u) then Some (match l2 with [] => PNull | x :: _ => PElem x end)
                           else load m v) /\
    (forall x, tqe_prev m' !! x =
       match l2 with [] => tqe_prev m !! x
                | y :: _ => if decide (y = x) then Some u else tqe_prev m !! x end) /\
    (forall q', tqh_last m' !! q' =
       match l2 with [] => if decide (q = q') then Some u else tqh_last m !! q'
                | _ => tqh_last m !! q' end).
Proof.
  intros Hs1 Hu Hpe Hs2 Ht0. unfold TAILQ_REMOVE, TAILQ_NEXT.
  assert (Hnext : tqe_next m !! e = Some (match l2 with [] => PNull | x :: _ => PElem x end)).
  { change (load m (SNext e) = Some (match l2 with [] => PNull | x :: _ => PElem x end)).
    destruct l2; cbn -[load] in Hs2; [by subst t|by destruct Hs2]. }
  rewrite Hnext, Hpe. cbn -[put].
  set (n := match l2 with [] => PNull | x :: _ => PElem x end).
  set (m1 := match n with PElem x => set_prev x u m | _ => set_last q u m end).
  destruct (put_total m1 u n) as [m' Hm']; [by eapply load_not_bad|]. rewrite Hm'.
  exists m'. split; [done|]. destruct (put_prev _ _ _ _ Hm') as [Hp' Hl']. split_and!.
  - intros v. rewrite (load_put _ _ _ _ v Hm'). case_decide; [done|]. subst m1 n. by destruct l2.
  - intros x. rewrite Hp'. subst m1 n. destruct l2; cbn; [done|]. by rewrite lookup_insert.
  - intros q'. rewrite Hl'. subst m1 n. destruct l2; cbn; [|done]. by rewrite lookup_insert.
Qed.

Lemma TAILQ_REMOVE_spec m q l1 e l2 :
  tailq m q (l1 ++ e :: l2) ->
  exists m', TAILQ_REMOVE q e m = Some m' /\ tailq m' q (l1 ++ l2) /\
             others_kept m m' [q] (l1 ++ e :: l2).
Proof.
  intros (Hn & t & Ht & Hs & Ht0). apply lseg_app in Hs as (u & Hs1 & Hu & Hpe & Hs2).
  apply list.NoDup_app in Hn as (Hn1 & Hd & [Hne Hn2]%list.NoDup_cons).
  destruct (TAILQ_REMOVE_effect m q l1 e l2 t u Hs1 Hu Hpe Hs2 Ht0) as (m' & Hm' & Hload & Hprev & Hlast).
  exists m'. split; [done|].
  assert (Huf : u ∉ fields (SHead q) l1) by (eapply lseg_end_fresh; eauto; done).
  assert (Hue : u = SHead q \/ exists x, x ∈ l1 /\ u = SNext x) by by eapply lseg_end.
  assert (Hseg1 : lseg m' (SHead q) l1 u).
  { apply lseg_frame with m; [| |done].
    - intros x Hx. rewrite Hprev. destruct l2; [done|]. rewrite decide_False; [done|]. set_solver.
    - intros v Hv. rewrite Hload, decide_False; [done|]. by intros ->. }
  assert (Hl2u : forall x, x ∈ e :: l2 -> u <> SNext x) by (intros x Hx ->; naive_solver set_solver).
  split; [split; [apply list.NoDup_app; split_and!; [done|set_solver|done]|]|].
  - destruct l2 as [|y l2].
    + exists u. rewrite app_nil_r, Hlast, Hload, !decide_True by done. done.
    + exists t. rewrite Hlast. cbn -[load] in Hs2. destruct Hs2 as (Hey & _ & Hs2).
      split_and!; [done| |].
      * apply lseg_app. exists u. split; [done|]. cbn -[load].
        rewrite Hload, Hprev, !decide_True by done.
        split_and!; [done..|]. apply list.NoDup_cons in Hn2 as [Hy Hn2].
        apply lseg_frame with m; [| |done].
        -- intros x Hx. rewrite Hprev, decide_False; [done|]. by intros ->.
        -- intros v Hv. rewrite Hload, decide_False; [done|]. intros ->.
           apply fields_in in Hv as [E|(x & ? & E)]; eapply Hl2u; try exact E; set_solver.
      * rewrite Hload, decide_False; [done|]. intros ->.
        apply lseg_end in Hs2 as [E|(x & ? & E)]; eapply Hl2u; try exact E; set_solver.
  - apply others_kept_intro.
    + intros q' Hq'. rewrite Hlast, Hload. split.
      * destruct l2; [|done]. by rewrite decide_False by set_solver.
      * rewrite decide_False; [done|]. destruct Hue as [->|(? & ? & ->)]; set_solver.
    + intros x Hx. rewrite Hprev, Hload. split.
      * destruct l2; [done|]. rewrite decide_False; [done|set_solver].
      * rewrite decide_False; [done|]. destruct Hue as [->|(? & ? & ->)]; set_solver.
Qed.

Lemma TAILQ_INSERT_BEFORE_spec m q l1 x l2 e :
  tailq m q (l1 ++ x :: l2) -> e ∉ l1 ++ x :: l2 ->
  exists m', TAILQ_INSERT_BEFORE x e m = Some m' /\ tailq m' q (l1 ++ e :: x :: l2).
Proof.
  intros (Hn & t & Ht & Hs & Ht0) He. apply lseg_app in Hs as (u & Hs1 & Hu & Hpx & Hs2).
  unfold TAILQ_INSERT_BEFORE. rewrite Hpx. cbn -[put].
  set (m2 := set_next e (PElem x) (set_prev e u m)).
  destruct (put_total m2 u (PElem e)) as [m3 Hm3]; [by eapply load_not_bad|]. rewrite Hm3. cbn -[put].
  eexists. split; [reflexivity|]. set (m' := set_prev x (SNext e) m3).
  destruct (put_prev _ _ _ _ Hm3) as [Hp3 Hl3].
  assert (Hue : u = SHead q \/ exists y, y ∈ l1 /\ u = SNext y) by by eapply lseg_end.
  pose proof Hn as Hn'. apply list.NoDup_app in Hn' as (Hn1 & Hd & [Hx Hn2]%list.NoDup_cons).
  assert (Hune : u <> SNext e) by (destruct Hue as [->|(?&?&->)]; set_solver).
  assert (Hload : forall v, load m' v =
      if decide (v = u) then Some (PElem e) else if decide (v = SNext e) then Some (PElem x) else load m v).
  { intros v. change (load m' v) with (load m3 v). rewrite (load_put _ _ _ _ v Hm3).
    case_decide; [done|]. destruct v as [|y|]; cbn; rewrite ?lookup_insert;
      repeat case_decide; naive_solver. }
  assert (Hprev : forall y, tqe_prev m' !! y =
      if decide (x = y) then Some (SNext e) else if decide (e = y) then Some u else tqe_prev m !! y)
    by (intros y; cbn; rewrite lookup_insert, Hp3; cbn; by rewrite lookup_insert).
  assert (Hold : forall v, (v = SNext x \/ exists y, y ∈ l2 /\ v = SNext y) -> load m' v = load m v).
  { intros v Hv. rewrite Hload, !decide_False; [done| |].
    - destruct Hv as [->|(?&?&->)]; set_solver.
    - destruct Hv as [->|(?&?&->)], Hue as [->|(?&?&->)]; set_solver. }
  split; [rewrite list.NoDup_app in *; rewrite !list.NoDup_cons; set_solver|].
  exists t. split_and!; [cbn; by rewrite Hl3| |rewrite Hold; [done|]; by eapply lseg_end].
  apply lseg_app. exists u. split.
  - apply lseg_frame with m; [| |done].
    + intros y Hy. rewrite Hprev, !decide_False by set_solver. done.
    + intros v Hv. rewrite Hload, !decide_False; [done| |].
      * apply fields_in in Hv as [->|(?&?&->)]; set_solver.
      * intros ->. by eapply (lseg_end_fresh _ _ _ _ Hs1).
  - cbn -[load]. rewrite !Hload, !Hprev. rewrite (decide_True (P := u = u)) by done.
    rewrite (decide_False (P := SNext e = u)), (decide_True (P := SNext e = SNext e)) by congruence.
    rewrite (decide_True (P := e = e)), (decide_True (P := x = x)) by done.
    rewrite (decide_False (P := x = e)) by set_solver. split_and!; [done..|].
    apply lseg_frame with m; [| |done].
    + intros y Hy. rewrite Hprev, !decide_False by set_solver. done.
    + intros v Hv. apply Hold. by apply fields_in.
Qed.

Lemma TAILQ_CONCAT_spec m q1 l1 q2 l2 :
  q1 <> q2 -> (forall x, x ∈ l1 -> x ∉ l2) -> tailq m q1 l1 -> tailq m q2 l2 ->
  exists m', TAILQ_CONCAT q1 q2 m = Some m' /\ tailq m' q1 (l1 ++ l2) /\ tailq m' q2 [].
Proof.
  intros Hq Hd T1 T2. unfold TAILQ_CONCAT. rewrite (TAILQ_FIRST_spec _ _ _ T2). cbn -[put].
  destruct T1 as (Hn1 & t1 & Ht1 & Hs1 & Hz1), T2 as (Hn2 & t2 & Ht2 & Hs2 & Hz2).
  destruct l2 as [|x l2].
  { exists m. rewrite app_nil_r. split_and!; [done|by split; eauto|split; [constructor|by exists t2]]. }
  rewrite Ht1, Ht2. cbn -[put load].
  destruct (put_total m t1 (PElem x)) as [m1 Hm1]; [by eapply load_not_bad|]. rewrite Hm1. cbn -[put load].
  eexists. split; [reflexivity|]. destruct (put_prev _ _ _ _ Hm1) as [Hp1 Hl1].
  match goal with |- tailq ?n _ _ /\ _ => set (m' := n) end.
  split; [|apply (proj1 (TAILQ_INIT_spec _ _))].
  destruct Hs2 as (Hx & Hpx & Hs2). apply list.NoDup_cons in Hn2 as [Hxl Hn2].
  assert (Ht1' : t1 = SHead q1 \/ exists y, y ∈ l1 /\ t1 = SNext y) by by eapply lseg_end.
  assert (Hload : forall v, v <> SHead q2 -> load m' v = if decide (v = t1) then Some (PElem x) else load m v).
  { intros v Hv. transitivity (load m1 v); [|by apply load_put].
    destruct v as [q|y|]; try done. cbn. rewrite lookup_insert_ne by congruence. done. }
  assert (Hprev : forall y, tqe_prev m' !! y = if decide (x = y) then Some t1 else tqe_prev m !! y)
    by (intros y; cbn; rewrite Hp1; by rewrite lookup_insert).
  assert (Ht1q : t1 <> SHead q2) by (destruct Ht1' as [->|(?&?&->)]; congruence).
  assert (Hl2 : forall v, (v = SNext x \/ exists y, y ∈ l2 /\ v = SNext y) -> load m' v = load m v).
  { intros v Hv. rewrite Hload by (destruct Hv as [->|(?&?&->)]; done).
    rewrite decide_False; [done|].
    destruct Hv as [->|(?&?&->)], Ht1' as [->|(?&?&->)]; set_solver. }
  split; [apply list.NoDup_app; rewrite list.NoDup_cons; done|].
  exists t2. split_and!; [| |rewrite Hl2; [done|]; by eapply lseg_end].
  - cbn. rewrite lookup_insert_ne by congruence. by rewrite lookup_insert_eq.
  - apply lseg_app. exists t1. split.
    + apply lseg_frame with m; [| |done].
      * intros y Hy. rewrite Hprev, decide_False by set_solver. done.
      * intros v Hv. rewrite Hload, decide_False; [done| |].
        -- intros ->. by eapply (lseg_end_fresh _ _ _ _ Hs1).
        -- apply fields_in in Hv as [->|(?&?&->)]; congruence.
    + cbn -[load]. rewrite Hload, Hprev, !decide_True by done. split_and!; [done..|].
      apply lseg_frame with m; [| |done].
      * intros y Hy. rewrite Hprev, decide_False; [done|]. by intros ->.
      * intros v Hv. apply Hl2. by apply fields_in.
Qed.

(** A traversal with enough fuel visits exactly the elements, in order. *)
Lemma foreach_spec m l fuel s t p :
  lseg m s l t -> load m t = Some PNull -> load m s = Some p -> (length l <= fuel)%nat ->
  foreach fuel p m = Some l.
Proof.
  revert fuel s p; induction l as [|x l IH]; intros fuel s p Hs Ht Hp Hf; cbn -[load] in Hs.
  - subst s. rewrite Hp in Ht. simplify_eq. by destruct fuel.
  - destruct Hs as (Hx & _ & Hs). rewrite Hp in Hx. simplify_eq.
    destruct fuel as [|fuel]; cbn in Hf; [lia|]. cbn.
    destruct (load m (SNext x)) as [p|] eqn:Hn.
    + change (TAILQ_NEXT x m) with (load m (SNext x)). rewrite Hn. cbn.
      by rewrite (IH fuel (SNext x) p Hs Ht Hn) by lia.
    + destruct l; cbn -[load] in Hs; [by subst t; congruence|by destruct Hs; congruence].
Qed.

Lemma TAILQ_FOREACH_spec m q l fuel :
  tailq m q l -> (length l <= fuel)%nat -> TAILQ_FOREACH fuel q m = Some l.
Proof.
  intros T Hf. unfold TAILQ_FOREACH. rewrite (TAILQ_FIRST_spec _ _ _ T). cbn.
  pose proof (TAILQ_FIRST_spec _ _ _ T) as Hp.
  destruct T as (_ & t & _ & Hs & Ht). by eapply (foreach_spec m l fuel (SHead q) t).
Qed.

Lemma TAILQ_LAST_spec m q l :
  tailq m q l -> TAILQ_LAST q m = Some (match list.last l with Some x => PElem x | None => PNull end).
Proof.
  intros (_ & t & Ht & Hs & Ht0). unfold TAILQ_LAST. rewrite Ht. cbn -[load].
  destruct l as [|y l] using rev_ind; cbn -[load] in Hs.
  - subst t. cbn -[load]. rewrite Ht. done.
  - apply lseg_app in Hs as (u & _ & Hu & Hp & Hs). cbn in Hs. subst t. cbn -[load]. rewrite Hp.
    rewrite list.last_snoc. done.
Qed.

(** The neighbours of an element. *)
Lemma tailq_split m q l1 e l2 :
  tailq m q (l1 ++ e :: l2) ->
  exists u, load m u = Some (PElem e) /\ tqe_prev m !! e = Some u /\
    u = match list.last l1 with Some y => SNext y | None => SHead q end /\
    TAILQ_NEXT e m = Some (match l2 with [] => PNull | x :: _ => PElem x end).
Proof.
  intros (_ & t & _ & Hs & Ht). apply lseg_app in Hs as (u & H1 & Hu & Hp & H2). exists u.
  split_and!; [done..| |].
  - destruct l1 as [|y l1 _] using rev_ind; [by cbn in H1|]. rewrite list.last_snoc.
    apply lseg_app in H1 as (v & _ & _ & _ & Hv). done.
  - change (TAILQ_NEXT e m) with (load m (SNext e)). destruct l2; cbn -[load] in H2; [by subst t|by destruct H2].
Qed.

Lemma TAILQ_PREV_spec m q l1 e l2 :
  tailq m q (l1 ++ e :: l2) ->
  TAILQ_PREV e m = Some (match list.last l1 with Some y => PElem y | None => PNull end).
Proof.
  intros T. destruct (tailq_split _ _ _ _ _ T) as (u & _ & Hp & -> & _).
  unfold TAILQ_PREV. rewrite Hp. cbn -[load]. destruct l1 as [|y l1 _] using rev_ind.
  - destruct T as (_ & t & Ht & _ & Hz). cbn -[load]. rewrite Ht. exact Hz.
  - rewrite list.last_snoc. rewrite <-app_assoc in T. destruct (tailq_split _ _ _ _ _ T) as (v & Hv & Hp' & _ & _).
    cbn -[load]. rewrite Hp'. exact Hv.
Qed.

(** A reverse traversal visits the elements from the last to the first. *)
Lemma foreach_reverse_spec m q l k fuel :
  tailq m q (l ++ k) -> (length l <= fuel)%nat ->
  foreach_reverse fuel (match list.last l with Some y => PElem y | None => PNull end) m = Some (rev l).
Proof.
  revert k fuel; induction l as [|e l IH] using rev_ind; intros k fuel T Hf; [by destruct fuel|].
  rewrite list.last_snoc, rev_unit. rewrite length_app in Hf. cbn in Hf. destruct fuel as [|fuel]; [lia|].
  rewrite <-app_assoc in T. cbn -[TAILQ_PREV]. rewrite (TAILQ_PREV_spec _ _ _ _ _ T). cbn -[TAILQ_PREV].
  by rewrite (IH (e :: k)) by (done || lia).
Qed.

Lemma TAILQ_FOREACH_REVERSE_spec m q l fuel :
  tailq m q l -> (length l <= fuel)%nat -> TAILQ_FOREACH_REVERSE fuel q m = Some (rev l).
Proof.
  intros T Hf. unfold TAILQ_FOREACH_REVERSE. rewrite (TAILQ_LAST_spec _ _ _ T). cbn.
  apply (foreach_reverse_spec m q l []); [by rewrite app_nil_r|done].
Qed.

Lemma load_agree m m' s :
  tqh_first m = tqh_first m' -> tqe_next m = tqe_next m' -> load m s = load m' s.
Proof. intros H1 H2. by destruct s; cbn; rewrite ?H1, ?H2. Qed.

(** INSERT_HEAD and INSERT_AFTER write what INSERT_BEFORE writes for the element
    that follows, and what INSERT_TAIL writes when none follows. *)
Lemma TAILQ_INSERT_HEAD_before m q x l e :
  tailq m q (x :: l) -> e ∉ x :: l -> TAILQ_INSERT_HEAD q e m = TAILQ_INSERT_BEFORE x e m.
Proof.
  intros T He. unfold TAILQ_INSERT_HEAD. rewrite (TAILQ_FIRST_spec _ _ _ T). cbn.
  destruct (tailq_split m q [] x l T) as (u & _ & Hp & -> & _). unfold TAILQ_INSERT_BEFORE. rewrite Hp. cbn.
  unfold set_prev, set_next, set_first; cbn. do 2 f_equal. rewrite insert_insert_ne by set_solver. done.
Qed.

Lemma TAILQ_INSERT_HEAD_tail m q e : tailq m q [] -> TAILQ_INSERT_HEAD q e m = TAILQ_INSERT_TAIL q e m.
Proof.
  intros T. unfold TAILQ_INSERT_HEAD. rewrite (TAILQ_FIRST_spec _ _ _ T).
  destruct T as (_ & t & Ht & Hs & _). cbn in Hs. subst t. unfold TAILQ_INSERT_TAIL. cbn. rewrite Ht. done.
Qed.

Lemma TAILQ_INSERT_AFTER_before m q l1 x y l2 e :
  tailq m q (l1 ++ x :: y :: l2) -> e ∉ l1 ++ x :: y :: l2 -> TAILQ_INSERT_AFTER q x e m = TAILQ_INSERT_BEFORE y e m.
Proof.
  intros T He. destruct (tailq_split _ _ _ _ _ T) as (u & _ & _ & _ & Hn).
  rewrite (cons_middle x l1 (y :: l2)), app_assoc in T. destruct (tailq_split _ _ _ _ _ T) as (v & _ & Hp & -> & _).
  rewrite list.last_snoc in Hp. unfold TAILQ_INSERT_AFTER, TAILQ_INSERT_BEFORE. rewrite Hn, Hp. cbn.
  unfold set_prev, set_next, set_first; cbn. do 2 f_equal. rewrite insert_insert_ne by set_solver. done.
Qed.

Lemma TAILQ_INSERT_AFTER_tail m q l x e : tailq m q (l ++ [x]) -> TAILQ_INSERT_AFTER q x e m = TAILQ_INSERT_TAIL q e m.
Proof.
  intros T. destruct (tailq_split _ _ _ _ _ T) as (u & _ & _ & _ & Hn). unfold TAILQ_INSERT_AFTER. rewrite Hn.
  destruct T as (_ & t & Ht & Hs & _). apply lseg_app in Hs as (v & _ & _ & _ & Hs). cbn in Hs. subst t.
  unfold TAILQ_INSERT_TAIL. cbn. rewrite Ht. done.
Qed.

(** What INSERT_BEFORE and CONCAT leave alone. *)
Lemma TAILQ_INSERT_BEFORE_others m q l1 x l2 e m' :
  tailq m q (l1 ++ x :: l2) -> TAILQ_INSERT_BEFORE x e m = Some m' -> others_kept m m' [q] (e :: l1 ++ x :: l2).
Proof.
  intros T. destruct (tailq_split _ _ _ _ _ T) as (u & _ & Hp & -> & _). unfold TAILQ_INSERT_BEFORE. rewrite Hp.
  destruct (list.last l1) as [y|] eqn:Ey; cbn; intros [= <-]; apply others_kept_intro; cbn;
    [done|intros z Hz; assert (z <> y) by (apply list.last_Some_elem_of in Ey; set_solver)| |intros z Hz];
    intros; rewrite ?lookup_insert_ne by set_solver; done.
Qed.

Lemma TAILQ_CONCAT_others m q1 l1 q2 l2 m' :
  tailq m q1 l1 -> tailq m q2 l2 -> TAILQ_CONCAT q1 q2 m = Some m' -> others_kept m m' [q1; q2] (l1 ++ l2).
Proof.
  intros T1 T2. unfold TAILQ_CONCAT. rewrite (TAILQ_FIRST_spec _ _ _ T2).
  destruct T1 as (_ & t1 & Ht1 & Hs1 & _), T2 as (_ & t2 & Ht2 & _ & _).
  destruct l2 as [|x l2]; cbn; [by intros [= <-] ? ? ? ? ?|]. rewrite Ht1, Ht2. cbn.
  destruct (lseg_end _ _ _ _ Hs1) as [->|(y & Hy & ->)]; cbn; intros [= <-]; apply others_kept_intro; cbn;
    intros z Hz; try (assert (z <> y) by set_solver); rewrite ?lookup_insert_ne by set_solver; done.
Qed.

Lemma TAILQ_INSERT_HEAD_spec m q l e :
  tailq m q l -> e ∉ l ->
  exists m', TAILQ_INSERT_HEAD q e m = Some m' /\ tailq m' q (e :: l) /\ others_kept m m' [q] (e :: l).
Proof.
  intros T He. destruct l as [|x l].
  - rewrite TAILQ_INSERT_HEAD_tail by done. by apply (TAILQ_INSERT_TAIL_spec m q []).
  - rewrite (TAILQ_INSERT_HEAD_before m q x l e) by done.
    destruct (TAILQ_INSERT_BEFORE_spec m q [] x l e T He) as (m' & E & T'). exists m'.
    split_and!; [done..|]. by apply (TAILQ_INSERT_BEFORE_others m q [] x l).
Qed.

Lemma TAILQ_INSERT_AFTER_spec m q l1 x l2 e :
  tailq m q (l1 ++ x :: l2) -> e ∉ l1 ++ x :: l2 ->
  exists m', TAILQ_INSERT_AFTER q x e m = Some m' /\ tailq m' q (l1 ++ x :: e :: l2) /\
    others_kept m m' [q] (e :: l1 ++ x :: l2).
Proof.
  intros T He. destruct l2 as [|y l2].
  - rewrite (TAILQ_INSERT_AFTER_tail m q l1) by done.
    destruct (TAILQ_INSERT_TAIL_spec m q _ e T He) as (m' & E & T' & Ho). exists m'.
    rewrite <-app_assoc in T'. done.
  - rewrite (TAILQ_INSERT_AFTER_before m q l1 x y l2 e) by done.
    assert (El : forall k, l1 ++ x :: k = (l1 ++ [x]) ++ k) by (intros; by rewrite <-app_assoc).
    rewrite El in T, He. rewrite (El (e :: y :: l2)), (El (y :: l2)).
    destruct (TAILQ_INSERT_BEFORE_spec m q (l1 ++ [x]) y l2 e T He) as (m' & E & T'). exists m'.
    split_and!; [done..|]. by apply TAILQ_INSERT_BEFORE_others.
Qed.

(** The consistency checks print nothing on a well-formed queue. *)
Lemma QMD_TAILQ_CHECK_silent m q l :
  tailq m q l ->
  QMD_TAILQ_CHECK_HEAD q m = Some false /\ QMD_TAILQ_CHECK_TAIL q m = Some false /\
  forall e, e ∈ l -> QMD_TAILQ_CHECK_NEXT e m = Some false /\ QMD_TAILQ_CHECK_PREV e m = Some false.
Proof.
  intros T. split_and!.
  - unfold QMD_TAILQ_CHECK_HEAD. rewrite (TAILQ_FIRST_spec _ _ _ T). destruct l as [|x l]; [done|]. cbn.
    destruct (tailq_split m q [] x l T) as (u & _ & -> & -> & _). cbn. by rewrite bool_decide_eq_false_2 by naive_solver.
  - destruct T as (_ & t & Ht & _ & Hz). unfold QMD_TAILQ_CHECK_TAIL. rewrite Ht. cbn -[load]. rewrite Hz. done.
  - intros e (l1 & l2 & ->)%list_elem_of_split. destruct (tailq_split _ _ _ _ _ T) as (u & Hu & Hp & _ & Hn).
    unfold QMD_TAILQ_CHECK_NEXT, QMD_TAILQ_CHECK_PREV. rewrite Hn, Hp. cbn -[load]. rewrite Hu. cbn -[load].
    rewrite (bool_decide_eq_false_2 (PElem e <> PElem e)) by naive_solver. split; [|done].
    destruct l2 as [|y l2]; [done|]. rewrite (cons_middle e l1 (y :: l2)), app_assoc in T.
    destruct (tailq_split _ _ _ _ _ T) as (v & _ & -> & -> & _). rewrite list.last_snoc. cbn.
    by rewrite bool_decide_eq_false_2 by naive_solver.
Qed.

Section safe_rules.
Context {S : Type} (mem : S -> tq_mem) (body : nat -> S -> option S).

(** Loop rule: [I l s] holds when [l] is still to be visited. *)
Lemma foreach_safe_inv next (I : list nat -> S -> Prop) fuel l s :
  (forall e k s, I (e :: k) s ->
     next e (mem s) = Some (match k with [] => PNull | y :: _ => PElem y end) /\
     exists s', body e s = Some s' /\ I k s') ->
  I l s -> (length l <= fuel)%nat ->
  exists s', foreach_safe mem body next fuel (match l with [] => PNull | y :: _ => PElem y end) s = Some s' /\ I [] s'.
Proof.
  intros Hb. revert l s; induction fuel as [|fuel IH]; intros [|e k] s HI Hf; cbn in Hf; [eauto|lia|eauto|].
  destruct (Hb e k s HI) as (En & s' & E & HI'). cbn. rewrite En. cbn. rewrite E. cbn. apply IH; [done|lia].
Qed.

End safe_rules.

(** TAILQ_FOREACH_SAFE may remove and dispose of each element it visits: it
    visits all of them in order and leaves the queue empty. *)
Lemma TAILQ_FOREACH_SAFE_drain m q l fuel :
  tailq m q l -> (length l <= fuel)%nat ->
  exists s, TAILQ_FOREACH_SAFE fst (fun e s => m' ← TAILQ_REMOVE q e s.1; Some (TAILQ_ENTRY_INIT e m', s.2 ++ [e]))
              fuel q (m, []) = Some s /\ tailq s.1 q [] /\ s.2 = l.
Proof.
  intros T Hf. unfold TAILQ_FOREACH_SAFE. cbn [fst]. rewrite (TAILQ_FIRST_spec _ _ _ T). cbn [mbind option_bind].
  match goal with |- context [foreach_safe fst ?b] =>
    destruct (foreach_safe_inv fst b TAILQ_NEXT (fun k s => tailq s.1 q k /\ s.2 ++ k = l) fuel l (m, []))
      as (s & E & T' & El) end; [|done|done|].
  - intros e k [n d] [Tn Ed]. cbn [fst snd] in *. destruct (tailq_split n q [] e k Tn) as (u & _ & _ & _ & Hn).
    split; [done|]. destruct (TAILQ_REMOVE_spec n q [] e k Tn) as (m' & -> & T' & _). eexists. split; [done|].
    cbn [fst snd]. rewrite <-app_assoc. split; [|done]. cbn [app] in T'.
    assert (e ∉ k) by (destruct Tn as [[? _]%list.NoDup_cons _]; done).
    apply tailq_frame with m'; [done..| |done]. intros x Hx. cbn. by rewrite !lookup_insert_ne by set_solver.
  - rewrite app_nil_r in El. eauto.
Qed.

(** * Properties *)

(** TAILQ_INSERT_TAIL on a queue that holds [l] links a new element at its
    end: a traversal then visits [l] followed by it, TAILQ_LAST returns it, and
    every queue that shares no element keeps its contents. *)
Theorem tailq_insert_tail_refines (m : tq_mem) (q : nat) (l : list nat) (e : nat) :
  tailq m q l -> e ∉ l ->
  exists m', TAILQ_INSERT_TAIL q e m = Some m' /\ tailq m' q (l ++ [e]) /\
    TAILQ_FOREACH (S (length l)) q m' = Some (l ++ [e]) /\ TAILQ_LAST q m' = Some (PElem e) /\
    others_kept m m' [q] (e :: l).
Proof.
  intros T He. destruct (TAILQ_INSERT_TAIL_spec m q l e T He) as (m' & E & T' & Ho).
  exists m'. split_and!; try done.
  - apply TAILQ_FOREACH_spec; [done|]. rewrite length_app. cbn. lia.
  - rewrite (TAILQ_LAST_spec _ _ _ T'), list.last_snoc. done.
Qed.

(** TAILQ_REMOVE unlinks an element from any position of its queue and
    leaves the order of the others and every other queue unchanged. *)
Theorem tailq_remove_refines (m : tq_mem) (q : nat) (l1 l2 : list nat) (e : nat) :
  tailq m q (l1 ++ e :: l2) ->
  exists m', TAILQ_REMOVE q e m = Some m' /\ tailq m' q (l1 ++ l2) /\
    TAILQ_FOREACH (length (l1 ++ l2)) q m' = Some (l1 ++ l2) /\
    others_kept m m' [q] (l1 ++ e :: l2).
Proof.
  intros T. destruct (TAILQ_REMOVE_spec m q l1 e l2 T) as (m' & E & T' & Ho).
  exists m'. split_and!; try done. by apply TAILQ_FOREACH_spec.
Qed.

(** TAILQ_CONCAT moves all elements of the second queue, in order, behind
    those of the first, and leaves the second empty. *)
Theorem tailq_concat_refines (m : tq_mem) (q1 q2 : nat) (l1 l2 : list nat) :
  q1 <> q2 -> (forall x, x ∈ l1 -> x ∉ l2) -> tailq m q1 l1 -> tailq m q2 l2 ->
  exists m', TAILQ_CONCAT q1 q2 m = Some m' /\ tailq m' q1 (l1 ++ l2) /\ tailq m' q2 [] /\
    TAILQ_FOREACH (length (l1 ++ l2)) q1 m' = Some (l1 ++ l2) /\ TAILQ_EMPTY q2 m' = Some true.
Proof.
  intros Hq Hd T1 T2. destruct (TAILQ_CONCAT_spec m q1 l1 q2 l2 Hq Hd T1 T2) as (m' & E & T1' & T2').
  exists m'. split_and!; try done; [by apply TAILQ_FOREACH_spec|by rewrite (TAILQ_EMPTY_spec _ _ _ T2')].
Qed.

Definition tq_empty : tq_mem := mk_tq ∅ ∅ ∅ ∅.

(** Queue 0 holding 10 and 11, queue 1 holding 20. *)
Definition tq_example : option tq_mem :=
  m1 ← TAILQ_INSERT_TAIL 0 10 (TAILQ_INIT 1 (TAILQ_INIT 0 tq_empty));
  m2 ← TAILQ_INSERT_TAIL 0 11 m1;
  TAILQ_INSERT_TAIL 1 20 m2.

Definition tq_ex : tq_mem := default tq_empty tq_example.

Lemma tq_ex_0 : tailq tq_ex 0 [10; 11]%nat.
Proof.
  split; [apply (bool_decide_unpack _); vm_compute; exact I|].
  exists (SNext 11). split; [vm_compute; reflexivity|].
  split; [repeat split; vm_compute; reflexivity|vm_compute; reflexivity].
Defined.

Lemma tq_ex_1 : tailq tq_ex 1 [20]%nat.
Proof.
  split; [apply (bool_decide_unpack _); vm_compute; exact I|].
  exists (SNext 20). split; [vm_compute; reflexivity|].
  split; [repeat split; vm_compute; reflexivity|vm_compute; reflexivity].
Defined.

Lemma tailq_insert_tail_refines_witness :
  exists m', TAILQ_INSERT_TAIL 0 12 tq_ex = Some m' /\ tailq m' 0 [10; 11; 12]%nat.
Proof.
  destruct (tailq_insert_tail_refines tq_ex 0 [10; 11]%nat 12 tq_ex_0) as (m' & E & T & _).
  - apply (bool_decide_unpack _); vm_compute; exact I.
  - exists m'. split; [exact E|exact T].
Defined.

Lemma tailq_remove_refines_witness :
  exists m', TAILQ_REMOVE 0 10 tq_ex = Some m' /\ tailq m' 0 [11]%nat.
Proof.
  destruct (tailq_remove_refines tq_ex 0 [] [11]%nat 10 tq_ex_0) as (m' & E & T & _).
  exists m'. split; [exact E|exact T].
Defined.

Lemma tailq_concat_refines_witness :
  exists m', TAILQ_CONCAT 0 1 tq_ex = Some m' /\ tailq m' 0 [10; 11; 20]%nat.
Proof.
  destruct (tailq_concat_refines tq_ex 0 1 [10; 11]%nat [20]%nat) as (m' & E & T & _).
  - lia.
  - intros x Hx. destruct (decide (x = 20%nat)) as [->|Hne].
    + revert Hx. apply (bool_decide_unpack _); vm_compute; exact I.
    + intros H. apply list_elem_of_singleton in H. exact (Hne H).
  - apply tq_ex_0.
  - apply tq_ex_1.
  - exists m'. split; [exact E|exact T].
Defined.
