(* ===== verification/QueueClient.v ===== *)
(** What a program with several queues of src/csf/include/queue.h may rely on:
    sequences of the macros on linked memory implement the same sequences on
    finite lists, as long as an element is in one queue at a time. The class
    [LinkedQueue] is what one family of macros promises about one queue; the
    client theorem is proved from it for all of them, and for heads named by any
    countable type. The tail queues are an instance here; Stailq.v and Blist.v
    hold two more. PipelineQueues.v is a client. *)

From stdpp Require Import countable.
From S2P Require Import Prelude Slist Tailq.

(** * Operations *)

Inductive tqop (K : Type) : Type :=
| TInit (q : K)
| TInsertHead (q : K) (e : nat)
| TInsertTail (q : K) (e : nat)
| TInsertBefore (q : K) (x e : nat)
| TInsertAfter (q : K) (x e : nat)
| TRemove (q : K) (e : nat)
| TConcat (q1 q2 : K).
Arguments TInit {K}.
Arguments TInsertHead {K}.
Arguments TInsertTail {K}.
Arguments TInsertBefore {K}.
Arguments TInsertAfter {K}.
Arguments TRemove {K}.
Arguments TConcat {K}.

#[export] Instance tqop_fmap : FMap tqop := fun A B f o =>
  match o with
  | TInit q => TInit (f q)
  | TInsertHead q e => TInsertHead (f q) e
  | TInsertTail q e => TInsertTail (f q) e
  | TInsertBefore q x e => TInsertBefore (f q) x e
  | TInsertAfter q x e => TInsertAfter (f q) x e
  | TRemove q e => TRemove (f q) e
  | TConcat q1 q2 => TConcat (f q1) (f q2)
  end.

(** The queue an operation is about, and the element it inserts. *)
Definition op_queue {K} (o : tqop K) : K :=
  match o with
  | TInit q | TInsertHead q _ | TInsertTail q _ | TInsertBefore q _ _ | TInsertAfter q _ _ | TRemove q _ | TConcat q _ => q
  end.

Definition op_new {K} (o : tqop K) : list nat :=
  match o with
  | TInsertHead _ e | TInsertTail _ e | TInsertBefore _ _ e | TInsertAfter _ _ e => [e]
  | _ => []
  end.

(** What an operation on one queue does to its list; a neighbour and an element
    to remove must be in it. *)
Definition insert_before (x e : nat) (l : list nat) : list nat := l ≫= fun y => if decide (y = x) then [e; y] else [y].

Definition edit {K} (o : tqop K) (l : list nat) : option (list nat) :=
  match o with
  | TInit _ => Some []
  | TInsertHead _ e => Some (e :: l)
  | TInsertTail _ e => Some (l ++ [e])
  | TInsertBefore _ x e => if decide (x ∈ l) then Some (insert_before x e l) else None
  | TInsertAfter _ x e => if decide (x ∈ l) then Some (insert_after x e l) else None
  | TRemove _ e => if decide (e ∈ l) then Some (filter (.≠ e) l) else None
  | TConcat _ _ => None
  end.

(** * The interface of one family of macros *)

Section interface.
Context {M : Type} (rep : M -> nat -> list nat -> Prop).

(** The queues other than [qs] without an element of [es] are kept. *)
Definition kept (m m' : M) (qs es : list nat) : Prop :=
  forall q l, q ∉ qs -> (forall x, x ∈ l -> x ∉ es) -> rep m q l -> rep m' q l.

End interface.

Class LinkedQueue (M : Type) := {
  lq_rep : M -> nat -> list nat -> Prop;
  lq_exec : tqop nat -> M -> option M;
  lq_supports : forall {K : Type}, tqop K -> bool;
  lq_init m q : exists m', lq_exec (TInit q) m = Some m' /\ lq_rep m' q [] /\ kept lq_rep m m' [q] [];
  lq_edit o m l l' :
    lq_supports o = true -> lq_rep m (op_queue o) l -> (forall e, e ∈ op_new o -> e ∉ l) -> edit o l = Some l' ->
    (forall q, o <> TInit q) ->
    exists m', lq_exec o m = Some m' /\ lq_rep m' (op_queue o) l' /\ kept lq_rep m m' [op_queue o] (op_new o ++ l);
  lq_concat m q1 q2 l1 l2 :
    lq_supports (TConcat q1 q2) = true -> q1 <> q2 -> l1 ## l2 -> lq_rep m q1 l1 -> lq_rep m q2 l2 ->
    exists m', lq_exec (TConcat q1 q2) m = Some m' /\ lq_rep m' q1 (l1 ++ l2) /\ lq_rep m' q2 [] /\
      kept lq_rep m m' [q1; q2] (l1 ++ l2);
  lq_supports_fmap {A B} (f : A -> B) o : lq_supports (f <$> o) = lq_supports o
}.

(** * Clients *)

Section client.
Context {K : Type} {Keq : EqDecision K} {Kct : Countable K} {M : Type} {Q : LinkedQueue M}.
Implicit Types (q : K) (a : gmap K (list nat)) (m : M).

Definition in_no_queue (e : nat) a : bool := bool_decide (map_Forall (fun _ l => e ∉ l) a).

(** What an operation means for all queues, and when a client may use it. *)
Definition tq_spec (o : tqop K) a : option (gmap K (list nat)) :=
  match o with
  | TInit q => Some (<[q:=[]]> a)
  | TConcat q1 q2 =>
      l1 ← a !! q1; l2 ← a !! q2; if decide (q1 = q2) then None else Some (<[q2:=[]]> (<[q1:=l1 ++ l2]> a))
  | _ =>
      l ← a !! op_queue o;
      l' ← edit o l;
      if forallb (fun e => in_no_queue e a) (op_new o) then Some (<[op_queue o:=l']> a) else None
  end.

Fixpoint tqrun {S} (f : tqop K -> S -> option S) (ops : list (tqop K)) (s : S) : option S :=
  match ops with [] => Some s | o :: ops' => s' ← f o s; tqrun f ops' s' end.

(** The macros, with the address of a head. *)
Definition tqexec (o : tqop K) m : option M := lq_exec (encode_nat <$> o) m.

Lemma tqrun_app {S} (f : tqop K -> S -> option S) ops1 ops2 s :
  tqrun f (ops1 ++ ops2) s = tqrun f ops1 s ≫= tqrun f ops2.
Proof. revert s; induction ops1 as [|o ops1 IH]; intros s; cbn; [done|]. destruct (f o s); cbn; [apply IH|done]. Qed.

(** The memory holds the lists, and no element is in two of them. *)
Definition tq_holds m a : Prop :=
  (forall q l, a !! q = Some l -> lq_rep m (encode_nat q) l) /\
  (forall q q' l l', q <> q' -> a !! q = Some l -> a !! q' = Some l' -> l ## l').

Lemma in_no_queue_spec e a : in_no_queue e a = true <-> forall q l, a !! q = Some l -> e ∉ l.
Proof. unfold in_no_queue. rewrite bool_decide_eq_true. done. Qed.

Lemma encode_ne q q' : q <> q' -> encode_nat q <> encode_nat q'.
Proof. intros Hq E. apply Hq. by apply (inj encode_nat). Qed.

Lemma edit_fmap {B} (f : K -> B) o l : edit (f <$> o) l = edit o l.
Proof. by destruct o. Qed.

Lemma op_new_fmap {B} (f : K -> B) o : op_new (f <$> o) = op_new o.
Proof. by destruct o. Qed.

Lemma op_queue_fmap {B} (f : K -> B) o : op_queue (f <$> o) = f (op_queue o).
Proof. by destruct o. Qed.

(** An edited list has elements of the old one and the inserted one only. *)
Lemma edit_elem o l l' x : edit (K:=K) o l = Some l' -> x ∈ l' -> x ∈ op_new o ++ l.
Proof.
  intros E Hx. destruct o; cbn in *; try case_decide; simplify_eq; try set_solver.
  - apply list_elem_of_bind in Hx as (y & Hx & Hy). case_decide; set_solver.
  - apply list_elem_of_bind in Hx as (y & Hx & Hy). case_decide; set_solver.
  - apply list_elem_of_filter in Hx. set_solver.
Qed.

(** Replacing the list of one head by one of its elements and elements of no
    queue, the other queues being kept. *)
Lemma tq_holds_update m m' a q l l' es :
  tq_holds m a -> a !! q = Some l -> lq_rep m' (encode_nat q) l' ->
  kept lq_rep m m' [encode_nat q] es ->
  (forall x, x ∈ es ++ l' -> x ∈ l \/ forall q2 k, a !! q2 = Some k -> x ∉ k) ->
  tq_holds m' (<[q:=l']> a).
Proof.
  intros [Ha Hd] Hq Ht Ho Hx.
  assert (Hfar : forall q2 k x, q2 <> q -> a !! q2 = Some k -> x ∈ k -> x ∉ es ++ l').
  { intros q2 k x Hne Hk Hi Hin. destruct (Hx x Hin) as [Hl|Hno]; [by eapply (Hd q2 q)|by eapply Hno]. }
  split.
  - intros q2 k. destruct (decide (q2 = q)) as [->|Hne]; [rewrite lookup_insert_eq; naive_solver|].
    rewrite lookup_insert_ne by done. intros Hk. apply (Ho _ k); [|intros x Hi; specialize (Hfar q2 k x Hne Hk Hi); set_solver|by apply Ha].
    apply encode_ne in Hne. set_solver.
  - intros q2 q3 k2 k3 Hne E2 E3. rewrite lookup_insert in E2, E3. repeat case_decide; simplify_eq.
    + intros x H1 H2. eapply (Hfar q2 k2 x); [congruence|done..|]. set_solver.
    + intros x H1 H2. eapply (Hfar q3 k3 x); [congruence|done..|]. set_solver.
    + exact (Hd q2 q3 k2 k3 Hne E2 E3).
Qed.

Lemma tqexec_init m a q : tq_holds m a -> exists m', tqexec (TInit q) m = Some m' /\ tq_holds m' (<[q:=[]]> a).
Proof.
  intros [Ha Hd]. destruct (lq_init m (encode_nat q)) as (m' & E & Ti & Ho). exists m'. split; [done|]. split.
  - intros q2 k. destruct (decide (q2 = q)) as [->|Hne]; [rewrite lookup_insert_eq; naive_solver|].
    rewrite lookup_insert_ne by done. intros Hk. apply (Ho _ k); [apply encode_ne in Hne; set_solver|set_solver|by apply Ha].
  - intros q2 q3 k2 k3 Hne E2 E3. rewrite !lookup_insert in E2, E3.
    repeat case_decide; simplify_eq; first [exact (Hd q2 q3 k2 k3 Hne E2 E3)|set_solver].
Qed.

Lemma tqexec_concat m a q1 q2 a' :
  lq_supports (TConcat q1 q2) = true -> tq_holds m a -> tq_spec (TConcat q1 q2) a = Some a' ->
  exists m', tqexec (TConcat q1 q2) m = Some m' /\ tq_holds m' a'.
Proof.
  intros Hsup [Ha Hd]. cbn. destruct (a !! q1) as [l1|] eqn:E1; [|done]. destruct (a !! q2) as [l2|] eqn:E2; [|done]. cbn.
  destruct (decide (q1 = q2)) as [|Hne]; [done|]. intros [= <-].
  pose proof (Ha _ _ E1) as T1. pose proof (Ha _ _ E2) as T2. pose proof (Hd _ _ _ _ Hne E1 E2) as H12.
  destruct (lq_concat m (encode_nat q1) (encode_nat q2) l1 l2) as (m' & E & T1' & T2' & Ho); [|by apply encode_ne|done..|].
  { by rewrite <-(lq_supports_fmap encode_nat) in Hsup. }
  exists m'. split; [done|]. split.
  - intros q k. destruct (decide (q = q2)) as [->|Hq2]; [rewrite lookup_insert_eq; naive_solver|].
    rewrite lookup_insert_ne by done. destruct (decide (q = q1)) as [->|Hq1]; [rewrite lookup_insert_eq; naive_solver|].
    rewrite lookup_insert_ne by done. intros Hk. apply (Ho _ k); [| |by apply Ha].
    + pose proof (encode_ne _ _ Hq1). pose proof (encode_ne _ _ Hq2). set_solver.
    + pose proof (Hd _ _ _ _ Hq1 Hk E1). pose proof (Hd _ _ _ _ Hq2 Hk E2). set_solver.
  - intros q q' k k' Hqq Ek Ek'. rewrite !lookup_insert in Ek, Ek'.
    assert (forall q k, q <> q1 -> q <> q2 -> a !! q = Some k -> k ## l1 ++ l2) as Hfar.
    { intros q0 k0 Hn1 Hn2 Hk0. pose proof (Hd _ _ _ _ Hn1 Hk0 E1). pose proof (Hd _ _ _ _ Hn2 Hk0 E2). set_solver. }
    repeat case_decide; simplify_eq; first [exact (Hd _ _ _ _ Hqq Ek Ek')|set_solver|by apply (Hfar q)|symmetry; by apply (Hfar q')].
Qed.

(** One operation. *)
Lemma tqexec_refines o m a a' :
  lq_supports o = true -> tq_holds m a -> tq_spec o a = Some a' -> exists m', tqexec o m = Some m' /\ tq_holds m' a'.
Proof.
  intros Hsup HR E. pose proof HR as [Ha Hd].
  assert (Hedit : (forall q, o <> TInit q) -> (forall q1 q2, o <> TConcat q1 q2) ->
    tq_spec o a = (l ← a !! op_queue o; l' ← edit o l;
                   if forallb (fun e => in_no_queue e a) (op_new o) then Some (<[op_queue o:=l']> a) else None)).
  { intros H1 H2. destruct o; [by destruct (H1 q)|done..|by destruct (H2 q1 q2)]. }
  assert ((exists q, o = TInit q) \/ (exists q1 q2, o = TConcat q1 q2) \/
          ((forall q, o <> TInit q) /\ forall q1 q2, o <> TConcat q1 q2)) as [(q & ->)|[(q1 & q2 & ->)|[H1 H2]]]
    by (destruct o; eauto; right; right; done).
  { cbn in E. simplify_eq. by apply tqexec_init. }
  { by eapply tqexec_concat. }
  rewrite Hedit in E by done. destruct (a !! op_queue o) as [l|] eqn:Hq; [|done]. cbn in E.
  destruct (edit o l) as [l'|] eqn:El; [|done]. cbn in E.
  destruct (forallb _ (op_new o)) eqn:En; [|done]. apply (inj Some) in E as <-.
  assert (forall e, e ∈ op_new o -> forall q k, a !! q = Some k -> e ∉ k) as Hnew.
  { intros e He. apply in_no_queue_spec. rewrite forallb_forall in En. apply En. by apply list_elem_of_In. }
  destruct (lq_edit (encode_nat <$> o) m l l') as (m' & Em & Hr & Hk).
  - by rewrite lq_supports_fmap.
  - rewrite op_queue_fmap. by apply Ha.
  - rewrite op_new_fmap. intros e He. by eapply Hnew.
  - by rewrite edit_fmap.
  - intros q. destruct o; try done. by destruct (H1 q0).
  - exists m'. split; [done|]. rewrite op_queue_fmap, op_new_fmap in *. eapply tq_holds_update; [done..|].
    intros x [Hx|Hx]%elem_of_app; [|apply (edit_elem o l l' x El) in Hx];
      (apply elem_of_app in Hx as [Hx|Hx]; [right; by apply Hnew|by left]).
Qed.

(** Sequences of operations. *)
Lemma tqrun_refines ops m a a' :
  forallb lq_supports ops = true -> tq_holds m a -> tqrun tq_spec ops a = Some a' ->
  exists m', tqrun tqexec ops m = Some m' /\ tq_holds m' a'.
Proof.
  revert m a; induction ops as [|o ops IH]; intros m a Hsup HR E; cbn in *; [naive_solver|].
  apply andb_prop in Hsup as [Ho Hsup]. destruct (tq_spec o a) as [a1|] eqn:Eo; [|done]. cbn in E.
  destruct (tqexec_refines o m a a1 Ho HR Eo) as (m1 & -> & HR1). cbn. eauto.
Qed.

Lemma tq_holds_empty m : tq_holds m ∅.
Proof. split; intros ?; naive_solver. Qed.

End client.

(** * Tail queues *)

Lemma insert_before_absent x e l : x ∉ l -> insert_before x e l = l.
Proof.
  induction l as [|y l IH]; intros Hx; [done|]. unfold insert_before in *. cbn.
  rewrite decide_False by set_solver. cbn. f_equal. apply IH. set_solver.
Qed.

Lemma insert_before_middle x e l1 l2 : NoDup (l1 ++ x :: l2) -> insert_before x e (l1 ++ x :: l2) = l1 ++ e :: x :: l2.
Proof.
  intros Hn. apply list.NoDup_app in Hn as (_ & Hd & [He _]%list.NoDup_cons).
  unfold insert_before. rewrite bind_app. cbn. rewrite decide_True by done.
  f_equal; [apply insert_before_absent; set_solver|]. cbn. do 2 f_equal. by apply insert_before_absent.
Qed.

#[export] Program Instance tailq_queue : LinkedQueue tq_mem := {
  lq_rep := tailq;
  lq_exec o m :=
    match o with
    | TInit q => Some (TAILQ_INIT q m)
    | TInsertHead q e => TAILQ_INSERT_HEAD q e m
    | TInsertTail q e => TAILQ_INSERT_TAIL q e m
    | TInsertBefore q x e => TAILQ_INSERT_BEFORE x e m
    | TInsertAfter q x e => TAILQ_INSERT_AFTER q x e m
    | TRemove q e => TAILQ_REMOVE q e m
    | TConcat q1 q2 => TAILQ_CONCAT q1 q2 m
    end;
  lq_supports _ _ := true
}.
Next Obligation. intros m q. eexists. split; [done|]. apply TAILQ_INIT_spec. Qed.
Next Obligation.
  intros o m l l' _ T Hnew E Hi. destruct o as [q|q e|q e|q x e|q x e|q e|q1 q2]; cbn in *; [by destruct (Hi q)|..|done].
  - simplify_eq. apply TAILQ_INSERT_HEAD_spec; [done|]. apply Hnew. left.
  - simplify_eq. apply TAILQ_INSERT_TAIL_spec; [done|]. apply Hnew. left.
  - case_decide as Hx; simplify_eq. apply list_elem_of_split in Hx as (l1 & l2 & ->).
    rewrite insert_before_middle by apply T.
    destruct (TAILQ_INSERT_BEFORE_spec m q l1 x l2 e T) as (m' & Em & T'); [apply Hnew; left|]. exists m'.
    split_and!; [done..|]. by apply TAILQ_INSERT_BEFORE_others.
  - case_decide as Hx; simplify_eq. apply list_elem_of_split in Hx as (l1 & l2 & ->).
    rewrite insert_after_middle by apply T. apply TAILQ_INSERT_AFTER_spec; [done|]. apply Hnew. left.
  - case_decide as Hx; simplify_eq. apply list_elem_of_split in Hx as (l1 & l2 & ->).
    rewrite filter_ne_middle by apply T. by apply TAILQ_REMOVE_spec.
Qed.
Next Obligation.
  intros m q1 q2 l1 l2 _ Hq Hd T1 T2. destruct (TAILQ_CONCAT_spec m q1 l1 q2 l2) as (m' & E & T1' & T2'); [done|set_solver|done..|].
  exists m'. split_and!; [done..|]. by apply TAILQ_CONCAT_others.
Qed.
Next Obligation. done. Qed.

Lemma tailq_supports {K} (ops : list (tqop K)) : forallb lq_supports ops = true.
Proof. by induction ops. Qed.

(** C37: The macros for tail queues implement finite lists: every sequence of
    initialisations, insertions at either end or next to an element, removals and
    concatenations that the list specification allows runs on the linked memory
    without following a stale pointer, and leaves each head holding exactly the
    list the specification computes: a traversal visits it in order, a reverse
    traversal in the opposite order, and the consistency checks of queue.h find
    nothing. *)
Theorem tailq_refines {K : Type} `{Countable K} (ops : list (tqop K)) (m : tq_mem) (a a' : gmap K (list nat)) :
  tq_holds m a -> tqrun tq_spec ops a = Some a' ->
  exists m', tqrun tqexec ops m = Some m' /\ tq_holds m' a' /\
    forall q l, a' !! q = Some l ->
      TAILQ_FOREACH (length l) (encode_nat q) m' = Some l /\
      TAILQ_FOREACH_REVERSE (length l) (encode_nat q) m' = Some (rev l) /\
      TAILQ_EMPTY (encode_nat q) m' = Some (bool_decide (l = [])) /\
      QMD_TAILQ_CHECK_HEAD (encode_nat q) m' = Some false /\ QMD_TAILQ_CHECK_TAIL (encode_nat q) m' = Some false /\
      forall e, e ∈ l -> QMD_TAILQ_CHECK_NEXT e m' = Some false /\ QMD_TAILQ_CHECK_PREV e m' = Some false.
Proof.
  intros HR E. destruct (tqrun_refines ops m a a' (tailq_supports ops) HR E) as (m' & Em & HR'). exists m'. split; [done|]. split; [done|].
  intros q l Hl. pose proof (proj1 HR' q l Hl) as T. destruct (QMD_TAILQ_CHECK_silent _ _ _ T) as (? & ? & ?).
  split_and!; [by apply TAILQ_FOREACH_spec|by apply TAILQ_FOREACH_REVERSE_spec|by apply TAILQ_EMPTY_spec|done..].
Qed.

Lemma tailq_refines_witness :
  exists m', tqrun tqexec [TInit 0; TInit 1; TInsertTail 0 10; TInsertHead 0 11; TInsertAfter 0 10 12; TInsertBefore 0 10 13;
                           TInsertTail 1 20; TRemove 0 11; TConcat 1 0]%nat tq_empty = Some m' /\
    TAILQ_FOREACH 4 (encode_nat 1%nat) m' = Some [20; 13; 10; 12]%nat.
Proof.
  destruct (tailq_refines [TInit 0; TInit 1; TInsertTail 0 10; TInsertHead 0 11; TInsertAfter 0 10 12; TInsertBefore 0 10 13;
    TInsertTail 1 20; TRemove 0 11; TConcat 1 0]%nat tq_empty ∅ (<[0:=[]]> {[1 := [20; 13; 10; 12]]})%nat) as (m' & E & _ & Hq).
  - apply tq_holds_empty.
  - vm_compute. reflexivity.
  - exists m'. split; [exact E|]. refine (proj1 (Hq 1%nat [20; 13; 10; 12]%nat _)). vm_compute. reflexivity.
Defined.
