(* ===== verification/Stailq.v ===== *)
(** The singly-linked tail queues of src/csf/include/queue.h: the list of
    Slist.v with the address of the last next field in the head. They are an
    instance of [LinkedQueue], without an insertion before an element, which
    queue.h does not offer for them. *)

From stdpp Require Import countable.
From S2P Require Import Prelude Slist Tailq QueueClient.

(** * Data *)

Record stq_mem : Type := mk_stq {
  stq_links : sl_mem;
  stqh_last : gmap nat slot
}.

Definition stq_first (h : nat) (p : option nat) (m : stq_mem) : stq_mem := mk_stq (put_first h p (stq_links m)) (stqh_last m).

Definition stq_next (e : nat) (p : option nat) (m : stq_mem) : stq_mem := mk_stq (put_next e p (stq_links m)) (stqh_last m).

Definition stq_last (h : nat) (s : slot) (m : stq_mem) : stq_mem := mk_stq (stq_links m) (<[h:=s]> (stqh_last m)).

(** A write through the address of a next field. *)
Definition stq_put (s : slot) (p : option nat) (m : stq_mem) : option stq_mem :=
  match s with
  | SHead h => Some (stq_first h p m)
  | SNext e => Some (stq_next e p m)
  | SBad => None
  end.

(** * The macros *)

Definition STAILQ_FIRST (h : nat) (m : stq_mem) : option (option nat) := slh_first (stq_links m) !! h.

Definition STAILQ_NEXT (e : nat) (m : stq_mem) : option (option nat) := sle_next (stq_links m) !! e.

Definition STAILQ_EMPTY (h : nat) (m : stq_mem) : option bool :=
  (fun p => bool_decide (p = None)) <$> STAILQ_FIRST h m.

Definition STAILQ_INIT (h : nat) (m : stq_mem) : stq_mem := stq_last h (SHead h) (stq_first h None m).

Definition STAILQ_INSERT_HEAD (h e : nat) (m : stq_mem) : option stq_mem :=
  f ← STAILQ_FIRST h m;
  let m1 := stq_next e f m in
  let m2 := match f with None => stq_last h (SNext e) m1 | Some _ => m1 end in
  Some (stq_first h (Some e) m2).

Definition STAILQ_INSERT_AFTER (h x e : nat) (m : stq_mem) : option stq_mem :=
  n ← STAILQ_NEXT x m;
  let m1 := stq_next e n m in
  let m2 := match n with None => stq_last h (SNext e) m1 | Some _ => m1 end in
  Some (stq_next x (Some e) m2).

Definition STAILQ_INSERT_TAIL (h e : nat) (m : stq_mem) : option stq_mem :=
  let m1 := stq_next e None m in
  l ← stqh_last m1 !! h;
  m2 ← stq_put l (Some e) m1;
  Some (stq_last h (SNext e) m2).

Definition STAILQ_REMOVE_HEAD (h : nat) (m : stq_mem) : option stq_mem :=
  f ← STAILQ_FIRST h m;
  x ← f;
  n ← STAILQ_NEXT x m;
  let m1 := stq_first h n m in
  Some (match n with None => stq_last h (SHead h) m1 | Some _ => m1 end).

Definition STAILQ_REMOVE (h e : nat) (m : stq_mem) : option stq_mem :=
  f ← STAILQ_FIRST h m;
  if decide (f = Some e) then STAILQ_REMOVE_HEAD h m
  else
    c0 ← f;
    c ← seek_prev (size (sle_next (stq_links m))) c0 e (stq_links m);
    n ← STAILQ_NEXT c m;
    e' ← n;
    n' ← STAILQ_NEXT e' m;
    let m1 := stq_next c n' m in
    Some (match n' with None => stq_last h (SNext c) m1 | Some _ => m1 end).

Definition STAILQ_CONCAT (h1 h2 : nat) (m : stq_mem) : option stq_mem :=
  f ← STAILQ_FIRST h2 m;
  match f with
  | None => Some m
  | Some _ =>
      l1 ← stqh_last m !! h1;
      m1 ← stq_put l1 f m;
      l2 ← stqh_last m1 !! h2;
      Some (STAILQ_INIT h2 (stq_last h1 l2 m1))
  end.

(** The last element: the structure that holds the last next field. The result
    [None] is an address computed from the head. *)
Definition STAILQ_LAST (h : nat) (m : stq_mem) : option (option nat) :=
  b ← STAILQ_EMPTY h m;
  if (b : bool) then Some None
  else match stqh_last m !! h with Some (SNext e) => Some (Some e) | _ => None end.

(** STAILQ_FOREACH and STAILQ_FOREACH_SAFE walk as the loops of Slist.v do. *)
Definition STAILQ_FOREACH {S} (mem : S -> stq_mem) (body : nat -> S -> option S) (h : nat) (s : S) : option S :=
  SLIST_FOREACH (fun s => stq_links (mem s)) body h s.

Definition STAILQ_FOREACH_SAFE {S} (mem : S -> stq_mem) (body : nat -> S -> option S) (h : nat) (s : S) : option S :=
  SLIST_FOREACH_SAFE (fun s => stq_links (mem s)) body h s.

(** * Specification *)

(** The address of the field behind the last element. *)
Definition end_slot (h : nat) (l : list nat) : slot :=
  match list.last l with Some x => SNext x | None => SHead h end.

Definition stailq (m : stq_mem) (h : nat) (l : list nat) : Prop :=
  slist (stq_links m) h l /\ stqh_last m !! h = Some (end_slot h l).

(** * Lemmas *)

(** A list whose fields are not written is unchanged. *)
Lemma stailq_kept m m' hs es :
  (forall h, h ∉ hs -> slh_first (stq_links m') !! h = slh_first (stq_links m) !! h /\ stqh_last m' !! h = stqh_last m !! h) ->
  (forall x, x ∉ es -> sle_next (stq_links m') !! x = sle_next (stq_links m) !! x) ->
  kept stailq m m' hs es.
Proof.
  intros Hh Hx h l Hn Hd [Hs Hl]. destruct (Hh h Hn) as [Hf Hlast]. split; [|by rewrite Hlast].
  apply slist_frame with (stq_links m); [done| |done]. intros x Hi. apply Hx. by apply Hd.
Qed.

Lemma end_slot_snoc h l x : end_slot h (l ++ [x]) = SNext x.
Proof. unfold end_slot. by rewrite list.last_snoc. Qed.

Lemma end_slot_cons h x y l : end_slot h (x :: y :: l) = end_slot h (y :: l).
Proof. done. Qed.

(** Pointing the last element of a list at a second list. *)
Lemma linked_join m p l1 x l2 n :
  NoDup (l1 ++ x :: l2) -> linked m p (l1 ++ [x]) -> linked m n l2 -> linked (put_next x n m) p (l1 ++ x :: l2).
Proof.
  revert p; induction l1 as [|y l1 IH]; intros p Hn Hl H2.
  - cbn in Hl |- *. destruct Hl as (-> & q & Hx & _). split; [done|]. exists n. rewrite lookup_insert_eq. split; [done|].
    apply linked_frame with m; [|done]. intros y Hy. cbn. rewrite lookup_insert_ne; [done|].
    intros ->. by apply list.NoDup_cons in Hn as [Hn _].
  - cbn [app linked] in Hl |- *. destruct Hl as (-> & q & Hy & Hl). split; [done|]. exists q.
    cbn [app] in Hn. apply list.NoDup_cons in Hn as [Hy' Hn]. cbn. rewrite lookup_insert_ne by set_solver.
    split; [done|]. by apply IH.
Qed.

(** Joining behind the last field of a head. *)
Lemma slist_join m h l1 l2 n m' :
  slist (stq_links m) h l1 -> NoDup (l1 ++ l2) -> linked (stq_links m) n l2 ->
  stq_put (end_slot h l1) n m = Some m' ->
  slist (stq_links m') h (l1 ++ l2) /\ stqh_last m' = stqh_last m /\
  (forall h', h' <> h -> slh_first (stq_links m') !! h' = slh_first (stq_links m) !! h') /\
  (forall x, x ∉ l1 -> sle_next (stq_links m') !! x = sle_next (stq_links m) !! x).
Proof.
  intros (_ & p & Hp & Hl) Hn H2. destruct l1 as [|x l1 _] using rev_ind.
  - cbn. intros [= <-]. cbn in Hn. split_and!; [|done| |done].
    + split; [done|]. exists n. cbn. rewrite lookup_insert_eq. split; [done|]. by apply linked_frame with (stq_links m).
    + intros h' Hne. cbn. by rewrite lookup_insert_ne.
  - rewrite end_slot_snoc. cbn. intros [= <-]. rewrite <-app_assoc in *. cbn in *. split_and!; [|done..|].
    + split; [done|]. exists p. split; [done|]. by apply linked_join.
    + intros y Hy. cbn. rewrite lookup_insert_ne; [done|]. set_solver.
Qed.

Lemma STAILQ_INIT_ok h m : stailq (STAILQ_INIT h m) h [] /\ kept stailq m (STAILQ_INIT h m) [h] [].
Proof.
  split.
  - split; [apply (SLIST_INIT_ok h)|]. cbn. by rewrite lookup_insert_eq.
  - apply stailq_kept; [|done]. intros h' Hh. cbn. by rewrite !lookup_insert_ne by set_solver.
Qed.

Lemma STAILQ_INSERT_HEAD_ok m h l e :
  stailq m h l -> e ∉ l ->
  exists m', STAILQ_INSERT_HEAD h e m = Some m' /\ stailq m' h (e :: l) /\ kept stailq m m' [h] (e :: l).
Proof.
  intros [Hs Hlast] He. destruct (SLIST_INSERT_HEAD_ok _ _ _ _ Hs He) as (sl & E & Hs' & En & Ef).
  unfold STAILQ_INSERT_HEAD, SLIST_INSERT_HEAD in *. change (STAILQ_FIRST h m) with (SLIST_FIRST h (stq_links m)).
  rewrite (SLIST_FIRST_ok _ _ _ Hs) in *. cbn in E |- *. apply (inj Some) in E as <-. eexists. split; [done|].
  destruct l as [|x l]; cbn.
  - split; [split; [exact Hs'|cbn; by rewrite lookup_insert_eq]|]. apply stailq_kept.
    + intros h' Hh. cbn. by rewrite !lookup_insert_ne by set_solver.
    + intros y Hy. cbn. by rewrite !lookup_insert_ne by set_solver.
  - split; [split; [exact Hs'|exact Hlast]|]. apply stailq_kept.
    + intros h' Hh. cbn. by rewrite !lookup_insert_ne by set_solver.
    + intros y Hy. cbn. by rewrite !lookup_insert_ne by set_solver.
Qed.

Lemma STAILQ_INSERT_TAIL_ok m h l e :
  stailq m h l -> e ∉ l ->
  exists m', STAILQ_INSERT_TAIL h e m = Some m' /\ stailq m' h (l ++ [e]) /\ kept stailq m m' [h] (e :: l).
Proof.
  intros [Hs Hlast] He. unfold STAILQ_INSERT_TAIL. cbn [stq_next stqh_last]. rewrite Hlast. cbn [mbind option_bind].
  set (m1 := stq_next e None m).
  assert (exists m2, stq_put (end_slot h l) (Some e) m1 = Some m2) as [m2 E2]
    by (unfold end_slot; destruct (list.last l); by eexists).
  rewrite E2. eexists. split; [done|].
  destruct (slist_join m1 h l [e] (Some e) m2) as (Hs2 & Hl2 & Hf2 & Hn2); [| | |done|].
  - apply slist_frame with (stq_links m); [done| |done]. intros x Hx. cbn. by rewrite lookup_insert_ne by set_solver.
  - apply list.NoDup_app. split_and!; [apply Hs|set_solver|apply NoDup_singleton].
  - cbn. split; [done|]. exists None. by rewrite lookup_insert_eq.
  - split; [split; [exact Hs2|cbn; by rewrite end_slot_snoc, lookup_insert_eq]|]. apply stailq_kept.
    + intros h' Hh. cbn [stq_links stq_last stqh_last]. rewrite lookup_insert_ne, Hf2, Hl2 by set_solver. done.
    + intros y Hy. cbn [stq_links stq_last]. rewrite Hn2 by set_solver. cbn. by rewrite lookup_insert_ne by set_solver.
Qed.

Lemma STAILQ_INSERT_AFTER_ok m h l1 x l2 e :
  stailq m h (l1 ++ x :: l2) -> e ∉ l1 ++ x :: l2 ->
  exists m', STAILQ_INSERT_AFTER h x e m = Some m' /\ stailq m' h (l1 ++ x :: e :: l2) /\
    kept stailq m m' [h] (e :: l1 ++ x :: l2).
Proof.
  intros [Hs Hlast] He. destruct (SLIST_INSERT_AFTER_ok _ _ _ _ _ _ Hs He) as (sl & E & Hs' & Ef & En).
  unfold STAILQ_INSERT_AFTER, SLIST_INSERT_AFTER in *. change (STAILQ_NEXT x m) with (SLIST_NEXT x (stq_links m)).
  rewrite (slist_NEXT _ _ _ _ _ Hs) in *. cbn in E |- *. apply (inj Some) in E as <-. eexists. split; [done|].
  destruct l2 as [|y l2]; cbn.
  - split; [split; [exact Hs'|]|].
    + cbn. rewrite lookup_insert_eq. replace (l1 ++ [x; e]) with ((l1 ++ [x]) ++ [e]) by (by rewrite <-app_assoc).
      by rewrite end_slot_snoc.
    + apply stailq_kept; [intros h' Hh; cbn; by rewrite lookup_insert_ne by set_solver|].
      intros z Hz. cbn. by rewrite !lookup_insert_ne by set_solver.
  - split; [split; [exact Hs'|]|].
    + cbn. rewrite Hlast. unfold end_slot. by rewrite !last_app_cons, !last_cons_cons.
    + apply stailq_kept; [done|]. intros z Hz. cbn. by rewrite !lookup_insert_ne by set_solver.
Qed.

Lemma STAILQ_REMOVE_HEAD_ok m h x l :
  stailq m h (x :: l) ->
  exists m', STAILQ_REMOVE_HEAD h m = Some m' /\ stailq m' h l /\ kept stailq m m' [h] (x :: l).
Proof.
  intros [Hs Hlast]. destruct (SLIST_REMOVE_HEAD_ok _ _ _ _ Hs) as (sl & E & Hs' & En & Ef).
  unfold STAILQ_REMOVE_HEAD, SLIST_REMOVE_HEAD in *. change (STAILQ_FIRST h m) with (SLIST_FIRST h (stq_links m)).
  rewrite (SLIST_FIRST_ok _ _ _ Hs) in *. cbn in E |- *. change (STAILQ_NEXT x m) with (SLIST_NEXT x (stq_links m)).
  rewrite (slist_NEXT _ _ [] _ _ Hs) in *. cbn in E |- *. apply (inj Some) in E as <-. eexists. split; [done|].
  destruct l as [|y l]; cbn.
  - split; [split; [exact Hs'|cbn; by rewrite lookup_insert_eq]|]. apply stailq_kept; [|done].
    intros h' Hh. cbn. by rewrite !lookup_insert_ne by set_solver.
  - split; [split; [exact Hs'|exact Hlast]|]. apply stailq_kept; [|done].
    intros h' Hh. cbn. by rewrite !lookup_insert_ne by set_solver.
Qed.

(** The element before [e], found from the first one. *)
Lemma seek_prev_last m h k c e l2 x l' :
  slist m h (k ++ c :: e :: l2) -> k ++ [c] = x :: l' -> seek_prev (size (sle_next m)) x e m = Some c.
Proof.
  intros (Hn & p & Hp & Hl) Ek. replace (k ++ c :: e :: l2) with (x :: l' ++ e :: l2) in * by
    (rewrite app_comm_cons, <-Ek, <-app_assoc; done).
  assert (Hsz := linked_size _ _ _ Hn Hl). cbn in Hsz. rewrite length_app in Hsz. cbn in Hsz.
  pose proof Hl as (-> & _). rewrite (seek_prev_ok m x l' e l2) by (done || lia). f_equal.
  destruct k as [|y k]; cbn in Ek; simplify_eq; [done|]. by rewrite list.last_snoc.
Qed.

(** Unlinking the element behind [c]. *)
Lemma slist_unlink m h k c e l2 :
  slist m h (k ++ c :: e :: l2) -> slist (put_next c (head l2) m) h (k ++ c :: l2).
Proof.
  intros Hs. assert (SLIST_NEXT e m = Some (head l2)) as He.
  { apply (slist_NEXT m h (k ++ [c]) e l2). by rewrite <-app_assoc. }
  destruct Hs as (Hn & p & Hp & Hl). split.
  - rewrite list.NoDup_app, !list.NoDup_cons in *. set_solver.
  - exists p. split; [done|]. by apply linked_unlink with e.
Qed.

Lemma STAILQ_REMOVE_ok m h l1 e l2 :
  stailq m h (l1 ++ e :: l2) ->
  exists m', STAILQ_REMOVE h e m = Some m' /\ stailq m' h (l1 ++ l2) /\ kept stailq m m' [h] (l1 ++ e :: l2).
Proof.
  intros [Hs Hlast]. unfold STAILQ_REMOVE. change (STAILQ_FIRST h m) with (SLIST_FIRST h (stq_links m)).
  rewrite (SLIST_FIRST_ok _ _ _ Hs). destruct l1 as [|c k _] using rev_ind.
  { cbn. rewrite decide_True by done. by apply STAILQ_REMOVE_HEAD_ok. }
  rewrite <-app_assoc in Hs. cbn in Hs. destruct (k ++ [c]) as [|x l'] eqn:Ek; [by destruct k|].
  cbn [app head mbind option_bind].
  assert (x <> e) as Hxe.
  { intros ->. assert (e ∈ k ++ [c]) by (rewrite Ek; left).
    destruct Hs as [Hn _]. rewrite list.NoDup_app, !list.NoDup_cons in Hn. set_solver. }
  rewrite decide_False by congruence. cbn [mbind option_bind].
  rewrite (seek_prev_last _ _ _ _ _ _ _ _ Hs Ek). cbn [mbind option_bind].
  change (STAILQ_NEXT ?y m) with (SLIST_NEXT y (stq_links m)). rewrite (slist_NEXT _ _ _ _ _ Hs). cbn [head mbind option_bind].
  rewrite (slist_NEXT _ _ (k ++ [c]) e l2) by (by rewrite <-app_assoc). cbn [mbind option_bind].
  eexists. split; [done|]. rewrite !app_comm_cons, <-Ek, <-!app_assoc. cbn [app]. pose proof (slist_unlink _ _ _ _ _ _ Hs) as Hs'.
  destruct l2 as [|y l2]; cbn [head] in *.
  - split; [split; [exact Hs'|cbn; by rewrite lookup_insert_eq, end_slot_snoc]|]. apply stailq_kept.
    + intros h' Hh. cbn. by rewrite lookup_insert_ne by set_solver.
    + intros z Hz. cbn. by rewrite lookup_insert_ne by set_solver.
  - split; [split; [exact Hs'|]|].
    + cbn. rewrite Hlast, <-Ek, <-app_assoc. unfold end_slot. cbn [app]. by rewrite !last_app_cons, !last_cons_cons.
    + apply stailq_kept; [done|]. intros z Hz. cbn. by rewrite lookup_insert_ne by set_solver.
Qed.

Lemma STAILQ_CONCAT_ok m h1 h2 l1 l2 :
  h1 <> h2 -> l1 ## l2 -> stailq m h1 l1 -> stailq m h2 l2 ->
  exists m', STAILQ_CONCAT h1 h2 m = Some m' /\ stailq m' h1 (l1 ++ l2) /\ stailq m' h2 [] /\
    kept stailq m m' [h1; h2] (l1 ++ l2).
Proof.
  intros Hne Hd [Hs1 Hl1] T2. pose proof T2 as [Hs2 Hl2]. unfold STAILQ_CONCAT.
  change (STAILQ_FIRST h2 m) with (SLIST_FIRST h2 (stq_links m)). rewrite (SLIST_FIRST_ok _ _ _ Hs2). cbn [mbind option_bind].
  destruct l2 as [|y l2]; cbn [head].
  { exists m. rewrite app_nil_r. split_and!; [done..|]. by intros ? ?. }
  rewrite Hl1. cbn [mbind option_bind].
  assert (exists m1, stq_put (end_slot h1 l1) (Some y) m = Some m1) as [m1 E1]
    by (unfold end_slot; destruct (list.last l1); by eexists).
  rewrite E1. cbn [mbind option_bind].
  destruct (slist_join m h1 l1 (y :: l2) (Some y) m1) as (Hs & Hlast & Hf & Hn); [done| | |done|].
  { apply list.NoDup_app. split_and!; [apply Hs1|set_solver|apply Hs2]. }
  { destruct Hs2 as (_ & p & _ & Hlk). by pose proof Hlk as (-> & _). }
  rewrite Hlast, Hl2. cbn [mbind option_bind]. eexists. split; [done|]. split_and!.
  - split; [|cbn; rewrite lookup_insert_ne, lookup_insert_eq by done; unfold end_slot; rewrite last_app_cons;
             destruct (list.last (y :: l2)) eqn:Ey; [done|by apply last_None in Ey]].
    apply slist_frame with (stq_links m1); [|done|done]. cbn. by rewrite lookup_insert_ne.
  - exact (proj1 (STAILQ_INIT_ok _ _)).
  - apply stailq_kept.
    + intros h' Hh. cbn. rewrite !lookup_insert_ne, Hf, Hlast by set_solver. done.
    + intros z Hz. cbn. apply Hn. set_solver.
Qed.

(** queue.h has no insertion before an element of these queues. *)
Definition stailq_supports {K} (o : tqop K) : bool :=
  match o with TInsertBefore _ _ _ => false | _ => true end.

#[export] Program Instance stailq_queue : LinkedQueue stq_mem := {
  lq_rep := stailq;
  lq_exec o m :=
    match o with
    | TInit q => Some (STAILQ_INIT q m)
    | TInsertHead q e => STAILQ_INSERT_HEAD q e m
    | TInsertTail q e => STAILQ_INSERT_TAIL q e m
    | TInsertBefore q x e => None
    | TInsertAfter q x e => STAILQ_INSERT_AFTER q x e m
    | TRemove q e => STAILQ_REMOVE q e m
    | TConcat q1 q2 => STAILQ_CONCAT q1 q2 m
    end;
  lq_supports := @stailq_supports
}.
Next Obligation. intros m q. eexists. split; [done|]. apply STAILQ_INIT_ok. Qed.
Next Obligation.
  intros o m l l' Hsup T Hnew E Hi. destruct o as [q|q e|q e|q x e|q x e|q e|q1 q2]; cbn in *; [by destruct (Hi q)|..|done]; [| |done|..].
  - simplify_eq. apply STAILQ_INSERT_HEAD_ok; [done|]. apply Hnew. left.
  - simplify_eq. apply STAILQ_INSERT_TAIL_ok; [done|]. apply Hnew. left.
  - case_decide as Hx; simplify_eq. apply list_elem_of_split in Hx as (l1 & l2 & ->).
    rewrite insert_after_middle by apply T. apply STAILQ_INSERT_AFTER_ok; [done|]. apply Hnew. left.
  - case_decide as Hx; simplify_eq. apply list_elem_of_split in Hx as (l1 & l2 & ->).
    rewrite filter_ne_middle by apply T. by apply STAILQ_REMOVE_ok.
Qed.
Next Obligation. intros m q1 q2 l1 l2 _. apply STAILQ_CONCAT_ok. Qed.
Next Obligation. intros A B f o. by destruct o. Qed.

Lemma STAILQ_LAST_ok m h l : stailq m h l -> STAILQ_LAST h m = Some (list.last l).
Proof.
  intros [Hs Hl]. unfold STAILQ_LAST, STAILQ_EMPTY. change (STAILQ_FIRST h m) with (SLIST_FIRST h (stq_links m)).
  rewrite (SLIST_FIRST_ok _ _ _ Hs), Hl. destruct l as [|x l _] using rev_ind; [done|].
  rewrite end_slot_snoc, list.last_snoc. by destruct l.
Qed.

Lemma STAILQ_FOREACH_ok m h l :
  stailq m h l -> STAILQ_FOREACH fst (fun e s => Some (s.1, s.2 ++ [e])) h (m, []) = Some (m, l).
Proof.
  intros [Hs _]. unfold STAILQ_FOREACH, SLIST_FOREACH. cbn [fst]. rewrite (SLIST_FIRST_ok _ _ _ Hs). cbn [mbind option_bind].
  destruct (foreach_rule (fun s : stq_mem * list nat => stq_links s.1) (fun e s => Some (s.1, s.2 ++ [e]))
    (fun k s => s.1 = m /\ s.2 ++ k = l) (size (sle_next (stq_links m))) l (m, [])) as ([m' d] & E & Em & Ed).
  - intros e k [m' d] [Em Ed]. cbn in *. subst m'. eexists. split; [done|]. cbn. rewrite <-app_assoc. split; [|done].
    eapply slist_NEXT. by rewrite Ed.
  - done.
  - destruct Hs as (Hn & p & _ & Hl). by eapply linked_size.
  - cbn in Em, Ed. rewrite app_nil_r in Ed. by subst.
Qed.

(** The macros for singly-linked tail queues implement finite lists: every
    sequence of initialisations, insertions at either end or after an element,
    removals and concatenations that the list specification allows runs on the
    linked memory and leaves each head holding exactly the list the specification
    computes, with STAILQ_LAST its last element and STAILQ_FOREACH visiting it in
    order. *)
Theorem stailq_refines {K : Type} `{Countable K} (ops : list (tqop K)) (m : stq_mem) (a a' : gmap K (list nat)) :
  forallb lq_supports ops = true -> tq_holds m a -> tqrun tq_spec ops a = Some a' ->
  exists m', tqrun tqexec ops m = Some m' /\ tq_holds m' a' /\
    forall q l, a' !! q = Some l ->
      STAILQ_LAST (encode_nat q) m' = Some (list.last l) /\
      STAILQ_FOREACH fst (fun e s => Some (s.1, s.2 ++ [e])) (encode_nat q) (m', []) = Some (m', l).
Proof.
  intros Hsup HR E. destruct (tqrun_refines ops m a a' Hsup HR E) as (m' & Em & HR'). exists m'. split; [done|]. split; [done|].
  intros q l Hl. pose proof (proj1 HR' q l Hl) as T. split; [by apply STAILQ_LAST_ok|by apply STAILQ_FOREACH_ok].
Qed.

Lemma stailq_refines_witness :
  exists m', tqrun tqexec [TInit 0; TInit 1; TInsertTail 0 10; TInsertHead 0 11; TInsertAfter 0 10 12; TInsertTail 0 13;
                           TInsertTail 1 20; TRemove 0 13; TRemove 0 11; TConcat 1 0]%nat (mk_stq (mk_sl ∅ ∅) ∅) = Some m' /\
    STAILQ_LAST (encode_nat 1%nat) m' = Some (Some 12%nat).
Proof.
  destruct (stailq_refines [TInit 0; TInit 1; TInsertTail 0 10; TInsertHead 0 11; TInsertAfter 0 10 12; TInsertTail 0 13;
    TInsertTail 1 20; TRemove 0 13; TRemove 0 11; TConcat 1 0]%nat (mk_stq (mk_sl ∅ ∅) ∅) ∅
    (<[0:=[]]> {[1 := [20; 10; 12]]})%nat) as (m' & E & _ & Hq).
  - reflexivity.
  - apply tq_holds_empty.
  - vm_compute. reflexivity.
  - exists m'. split; [exact E|]. refine (proj1 (Hq 1%nat [20; 10; 12]%nat _)). vm_compute. reflexivity.
Defined.
