(* ===== verification/Blist.v ===== *)
(** The doubly-linked lists (LIST) of src/csf/include/queue.h: the list of
    Slist.v in which each element also holds the address of the field that points
    to it, so that an element is removed without its head. They are an instance
    of [LinkedQueue] without the operations at the tail. *)

From stdpp Require Import countable.
From S2P Require Import Prelude Slist Tailq QueueClient Stailq.

(** * Data *)

Record bl_mem : Type := mk_bl {
  bl_links : sl_mem;
  le_prev : gmap nat slot
}.

Definition bl_first (h : nat) (p : option nat) (m : bl_mem) : bl_mem := mk_bl (put_first h p (bl_links m)) (le_prev m).

Definition bl_next (e : nat) (p : option nat) (m : bl_mem) : bl_mem := mk_bl (put_next e p (bl_links m)) (le_prev m).

Definition bl_prev (e : nat) (s : slot) (m : bl_mem) : bl_mem := mk_bl (bl_links m) (<[e:=s]> (le_prev m)).

(** A write through the address of a field. *)
Definition bl_put (s : slot) (p : option nat) (m : bl_mem) : option bl_mem :=
  match s with
  | SHead h => Some (bl_first h p m)
  | SNext e => Some (bl_next e p m)
  | SBad => None
  end.

(** * The macros *)

Definition LIST_FIRST (h : nat) (m : bl_mem) : option (option nat) := slh_first (bl_links m) !! h.

Definition LIST_NEXT (e : nat) (m : bl_mem) : option (option nat) := sle_next (bl_links m) !! e.

Definition LIST_EMPTY (h : nat) (m : bl_mem) : option bool := (fun p => bool_decide (p = None)) <$> LIST_FIRST h m.

Definition LIST_INIT (h : nat) (m : bl_mem) : bl_mem := bl_first h None m.

Definition LIST_INSERT_HEAD (h e : nat) (m : bl_mem) : option bl_mem :=
  f ← LIST_FIRST h m;
  let m1 := bl_next e f m in
  let m2 := match f with Some x => bl_prev x (SNext e) m1 | None => m1 end in
  Some (bl_prev e (SHead h) (bl_first h (Some e) m2)).

Definition LIST_INSERT_AFTER (x e : nat) (m : bl_mem) : option bl_mem :=
  n ← LIST_NEXT x m;
  let m1 := bl_next e n m in
  let m2 := match n with Some y => bl_prev y (SNext e) m1 | None => m1 end in
  Some (bl_prev e (SNext x) (bl_next x (Some e) m2)).

Definition LIST_INSERT_BEFORE (x e : nat) (m : bl_mem) : option bl_mem :=
  s ← le_prev m !! x;
  let m1 := bl_next e (Some x) (bl_prev e s m) in
  m2 ← bl_put s (Some e) m1;
  Some (bl_prev x (SNext e) m2).

Definition LIST_REMOVE (e : nat) (m : bl_mem) : option bl_mem :=
  n ← LIST_NEXT e m;
  s ← le_prev m !! e;
  let m1 := match n with Some x => bl_prev x s m | None => m end in
  bl_put s n m1.

(** The loops walk as those of Slist.v do. *)
Definition LIST_FOREACH {S} (mem : S -> bl_mem) (body : nat -> S -> option S) (h : nat) (s : S) : option S :=
  SLIST_FOREACH (fun s => bl_links (mem s)) body h s.

Definition LIST_FOREACH_SAFE {S} (mem : S -> bl_mem) (body : nat -> S -> option S) (h : nat) (s : S) : option S :=
  SLIST_FOREACH_SAFE (fun s => bl_links (mem s)) body h s.

(** What a field holds. *)
Definition bl_load (s : slot) (m : bl_mem) : option (option nat) :=
  match s with SHead h => LIST_FIRST h m | SNext e => LIST_NEXT e m | SBad => None end.

(** The consistency checks of a kernel with INVARIANTS; the result tells whether
    the message is printed. *)
Definition QMD_LIST_CHECK_HEAD (h : nat) (m : bl_mem) : option bool :=
  f ← LIST_FIRST h m;
  match f with None => Some false | Some x => s ← le_prev m !! x; Some (bool_decide (s <> SHead h)) end.

Definition QMD_LIST_CHECK_NEXT (e : nat) (m : bl_mem) : option bool :=
  n ← LIST_NEXT e m;
  match n with None => Some false | Some x => s ← le_prev m !! x; Some (bool_decide (s <> SNext e)) end.

Definition QMD_LIST_CHECK_PREV (e : nat) (m : bl_mem) : option bool :=
  s ← le_prev m !! e; p ← bl_load s m; Some (bool_decide (p <> Some e)).

(** * Specification *)

(** The back pointers of the elements [l] from the field [s] on. *)
Fixpoint backed (pv : gmap nat slot) (s : slot) (l : list nat) : Prop :=
  match l with
  | [] => True
  | x :: l' => pv !! x = Some s /\ backed pv (SNext x) l'
  end.

Definition blist (m : bl_mem) (h : nat) (l : list nat) : Prop :=
  slist (bl_links m) h l /\ backed (le_prev m) (SHead h) l.

(** * Lemmas *)

Lemma backed_frame pv pv' s l : (forall x, x ∈ l -> pv' !! x = pv !! x) -> backed pv s l -> backed pv' s l.
Proof.
  revert s; induction l as [|x l IH]; intros s Hx; cbn; [done|]. intros [H1 H2]. rewrite Hx by left. split; [done|].
  apply IH; [|done]. intros y Hy. apply Hx. by right.
Qed.

(** The field that points behind a prefix. *)
Definition after (s : slot) (l : list nat) : slot := match list.last l with Some x => SNext x | None => s end.

Lemma after_cons s x l : after (SNext x) l = after s (x :: l).
Proof. unfold after. destruct l as [|y l]; [done|]. by rewrite last_cons_cons; destruct (list.last (y :: l)) eqn:E; [|apply last_None in E]. Qed.

Lemma backed_app pv s l1 l2 : backed pv s (l1 ++ l2) <-> backed pv s l1 /\ backed pv (after s l1) l2.
Proof.
  revert s; induction l1 as [|x l1 IH]; intros s; cbn [app backed]; [by cbn; tauto|].
  rewrite IH, (after_cons s). tauto.
Qed.

(** Only the first element knows the field before the list. *)
Lemma backed_start pv s s' l :
  NoDup l -> backed pv s l -> backed (match l with x :: _ => <[x:=s']> pv | [] => pv end) s' l.
Proof.
  destruct l as [|x l]; [done|]. cbn. intros [Hx _]%list.NoDup_cons [_ Hb]. rewrite lookup_insert_eq. split; [done|].
  apply backed_frame with pv; [|done]. intros y Hy. rewrite lookup_insert_ne; [done|]. by intros ->.
Qed.

Lemma blist_kept m m' hs es :
  (forall h, h ∉ hs -> slh_first (bl_links m') !! h = slh_first (bl_links m) !! h) ->
  (forall x, x ∉ es -> sle_next (bl_links m') !! x = sle_next (bl_links m) !! x /\ le_prev m' !! x = le_prev m !! x) ->
  kept blist m m' hs es.
Proof.
  intros Hh Hx h l Hn Hd [Hs Hb]. split.
  - apply slist_frame with (bl_links m); [by apply Hh| |done]. intros x Hi. apply Hx. by apply Hd.
  - apply backed_frame with (le_prev m); [|done]. intros x Hi. apply Hx. by apply Hd.
Qed.

Lemma LIST_INIT_ok h m : blist (LIST_INIT h m) h [] /\ kept blist m (LIST_INIT h m) [h] [].
Proof.
  split; [split; [apply (SLIST_INIT_ok h)|done]|]. apply blist_kept; [|done].
  intros h' Hh. cbn. by rewrite lookup_insert_ne by set_solver.
Qed.

Lemma LIST_INSERT_HEAD_ok m h l e :
  blist m h l -> e ∉ l ->
  exists m', LIST_INSERT_HEAD h e m = Some m' /\ blist m' h (e :: l) /\ kept blist m m' [h] (e :: l).
Proof.
  intros [Hs Hb] He. destruct (SLIST_INSERT_HEAD_ok _ _ _ _ Hs He) as (sl & E & Hs' & _ & _).
  unfold LIST_INSERT_HEAD, SLIST_INSERT_HEAD in *. change (LIST_FIRST h m) with (SLIST_FIRST h (bl_links m)).
  rewrite (SLIST_FIRST_ok _ _ _ Hs) in *. cbn in E |- *. apply (inj Some) in E as <-. eexists. split; [done|]. split.
  - split; [by destruct l|]. split; [cbn; by rewrite lookup_insert_eq|].
    apply (backed_start _ _ (SNext e)) in Hb; [|apply Hs].
    apply backed_frame with (match l with x :: _ => <[x:=SNext e]> (le_prev m) | [] => le_prev m end); [|done].
    intros x Hx. cbn. rewrite lookup_insert_ne by set_solver. by destruct l.
  - apply blist_kept.
    + intros h' Hh. destruct l; cbn; by rewrite lookup_insert_ne by set_solver.
    + intros x Hx. destruct l; cbn; by rewrite !lookup_insert_ne by set_solver.
Qed.

Lemma LIST_INSERT_AFTER_ok m h l1 x l2 e :
  blist m h (l1 ++ x :: l2) -> e ∉ l1 ++ x :: l2 ->
  exists m', LIST_INSERT_AFTER x e m = Some m' /\ blist m' h (l1 ++ x :: e :: l2) /\ kept blist m m' [h] (e :: l1 ++ x :: l2).
Proof.
  intros [Hs Hb] He. destruct (SLIST_INSERT_AFTER_ok _ _ _ _ _ _ Hs He) as (sl & E & Hs' & _ & _).
  unfold LIST_INSERT_AFTER, SLIST_INSERT_AFTER in *. change (LIST_NEXT x m) with (SLIST_NEXT x (bl_links m)).
  rewrite (slist_NEXT _ _ _ _ _ Hs) in *. cbn in E |- *. apply (inj Some) in E as <-. eexists. split; [done|].
  assert (NoDup (l1 ++ x :: l2)) as Hn by apply Hs. split.
  - split; [by destruct l2|]. apply backed_app in Hb as [Hb1 [Hx Hb2]]. cbn. apply backed_app. cbn [backed].
    rewrite list.NoDup_app, list.NoDup_cons in Hn. destruct Hn as (Hn1 & Hd & Hxl & Hn2).
    set (pv := match l2 with y :: _ => <[y:=SNext e]> (le_prev m) | [] => le_prev m end).
    assert (forall y, y ∉ e :: l2 -> pv !! y = le_prev m !! y) as Hpv.
    { intros y Hy. subst pv. destruct l2; [done|]. by rewrite lookup_insert_ne by set_solver. }
    match goal with |- context [backed ?p (SHead h) l1] => assert (p = <[e:=SNext x]> pv) as -> by (subst pv; by destruct l2) end.
    split_and!.
    + apply backed_frame with (le_prev m); [|done]. intros y Hy. rewrite lookup_insert_ne, Hpv by set_solver. done.
    + rewrite lookup_insert_ne, Hpv by set_solver. done.
    + by rewrite lookup_insert_eq.
    + apply (backed_start _ _ (SNext e)) in Hb2; [|done]. apply backed_frame with pv; [|done].
      intros y Hy. by rewrite lookup_insert_ne by set_solver.
  - apply blist_kept; [by destruct l2|]. intros y Hy. destruct l2; cbn; by rewrite !lookup_insert_ne by set_solver.
Qed.

(** LIST_INSERT_BEFORE writes what LIST_INSERT_HEAD or LIST_INSERT_AFTER of the
    element before writes. *)
Lemma LIST_INSERT_BEFORE_head m h x l e :
  blist m h (x :: l) -> e <> x -> LIST_INSERT_BEFORE x e m = LIST_INSERT_HEAD h e m.
Proof.
  intros [Hs [Hx _]] Hne. unfold LIST_INSERT_BEFORE, LIST_INSERT_HEAD.
  change (LIST_FIRST h m) with (SLIST_FIRST h (bl_links m)). rewrite (SLIST_FIRST_ok _ _ _ Hs), Hx. cbn.
  unfold bl_prev, bl_first, bl_next. cbn. by rewrite insert_insert_ne.
Qed.

Lemma LIST_INSERT_BEFORE_after m h k c x l e :
  blist m h (k ++ c :: x :: l) -> e <> x -> LIST_INSERT_BEFORE x e m = LIST_INSERT_AFTER c e m.
Proof.
  intros [Hs Hb] Hne. apply backed_app in Hb as [_ (_ & Hx & _)]. unfold LIST_INSERT_BEFORE, LIST_INSERT_AFTER.
  change (LIST_NEXT c m) with (SLIST_NEXT c (bl_links m)). rewrite (slist_NEXT _ _ _ _ _ Hs), Hx. cbn.
  unfold bl_prev, bl_next. cbn. by rewrite insert_insert_ne.
Qed.

Lemma LIST_INSERT_BEFORE_ok m h l1 x l2 e :
  blist m h (l1 ++ x :: l2) -> e ∉ l1 ++ x :: l2 ->
  exists m', LIST_INSERT_BEFORE x e m = Some m' /\ blist m' h (l1 ++ e :: x :: l2) /\ kept blist m m' [h] (e :: l1 ++ x :: l2).
Proof.
  intros T He. assert (e <> x) by set_solver. destruct l1 as [|c k _] using rev_ind.
  - rewrite (LIST_INSERT_BEFORE_head m h x l2) by done. by apply LIST_INSERT_HEAD_ok.
  - rewrite <-!app_assoc in *. cbn [app] in *. rewrite (LIST_INSERT_BEFORE_after m h k c x l2) by done.
    by apply LIST_INSERT_AFTER_ok.
Qed.

Lemma LIST_REMOVE_ok m h l1 e l2 :
  blist m h (l1 ++ e :: l2) ->
  exists m', LIST_REMOVE e m = Some m' /\ blist m' h (l1 ++ l2) /\ kept blist m m' [h] (l1 ++ e :: l2).
Proof.
  intros [Hs Hb]. apply backed_app in Hb as [Hb1 [He Hb2]]. unfold LIST_REMOVE.
  change (LIST_NEXT e m) with (SLIST_NEXT e (bl_links m)). rewrite (slist_NEXT _ _ _ _ _ Hs), He. cbn [mbind option_bind].
  assert (NoDup (l1 ++ e :: l2)) as Hn by apply Hs. rewrite list.NoDup_app, list.NoDup_cons in Hn. destruct Hn as (Hn1 & Hd & Hel & Hn2).
  set (s := after (SHead h) l1). set (m1 := match head l2 with Some x => bl_prev x s m | None => m end).
  assert (le_prev m1 = match l2 with y :: _ => <[y:=s]> (le_prev m) | [] => le_prev m end) as Hpv by (subst m1; by destruct l2).
  assert (bl_links m1 = bl_links m) as Hlk by (subst m1; by destruct l2).
  assert (backed (le_prev m1) (SHead h) (l1 ++ l2)) as Hb.
  { apply backed_app. rewrite Hpv. split; [|by apply (backed_start _ _ s) in Hb2].
    apply backed_frame with (le_prev m); [|done]. intros y Hy. destruct l2; [done|]. by rewrite lookup_insert_ne by set_solver. }
  assert (forall y, y ∉ l1 ++ e :: l2 -> le_prev m1 !! y = le_prev m !! y) as Hother.
  { intros y Hy. rewrite Hpv. destruct l2; [done|]. by rewrite lookup_insert_ne by set_solver. }
  destruct l1 as [|c k _] using rev_ind.
  - eexists. split; [done|]. split.
    + split; [|exact Hb]. destruct (SLIST_REMOVE_HEAD_ok _ _ _ _ Hs) as (sl & E & Hs' & _ & _).
      unfold SLIST_REMOVE_HEAD in E. rewrite (SLIST_FIRST_ok _ _ _ Hs) in E. cbn in E.
      rewrite (slist_NEXT _ _ [] _ _ Hs) in E. apply (inj Some) in E as <-. cbn. by rewrite Hlk.
    + apply blist_kept; cbn; rewrite Hlk; [|by auto]. intros h' Hh. by rewrite lookup_insert_ne by set_solver.
  - subst s. unfold after in *. rewrite list.last_snoc in *. eexists. split; [done|]. split.
    + split; [|exact Hb]. cbn. rewrite Hlk. rewrite <-app_assoc in *. by apply (slist_unlink _ _ k c e l2).
    + apply blist_kept; cbn; rewrite Hlk; [done|]. intros y Hy. rewrite lookup_insert_ne by set_solver. auto.
Qed.

(** queue.h has neither an insertion at the tail nor a concatenation of lists. *)
Definition blist_supports {K} (o : tqop K) : bool :=
  match o with TInsertTail _ _ | TConcat _ _ => false | _ => true end.

#[export] Program Instance blist_queue : LinkedQueue bl_mem := {
  lq_rep := blist;
  lq_exec o m :=
    match o with
    | TInit q => Some (LIST_INIT q m)
    | TInsertHead q e => LIST_INSERT_HEAD q e m
    | TInsertTail q e => None
    | TInsertBefore q x e => LIST_INSERT_BEFORE x e m
    | TInsertAfter q x e => LIST_INSERT_AFTER x e m
    | TRemove q e => LIST_REMOVE e m
    | TConcat q1 q2 => None
    end;
  lq_supports := @blist_supports
}.
Next Obligation. intros m q. eexists. split; [done|]. apply LIST_INIT_ok. Qed.
Next Obligation.
  intros o m l l' Hsup T Hnew E Hi. destruct o as [q|q e|q e|q x e|q x e|q e|q1 q2]; cbn in *; [by destruct (Hi q)|..|done]; [|done|..].
  - simplify_eq. apply LIST_INSERT_HEAD_ok; [done|]. apply Hnew. left.
  - case_decide as Hx; simplify_eq. apply list_elem_of_split in Hx as (l1 & l2 & ->).
    rewrite insert_before_middle by apply T. apply LIST_INSERT_BEFORE_ok; [done|]. apply Hnew. left.
  - case_decide as Hx; simplify_eq. apply list_elem_of_split in Hx as (l1 & l2 & ->).
    rewrite insert_after_middle by apply T. apply LIST_INSERT_AFTER_ok; [done|]. apply Hnew. left.
  - case_decide as Hx; simplify_eq. apply list_elem_of_split in Hx as (l1 & l2 & ->).
    rewrite filter_ne_middle by apply T. by apply LIST_REMOVE_ok.
Qed.
Next Obligation. done. Qed.
Next Obligation. intros A B f o. by destruct o. Qed.

Lemma QMD_LIST_CHECK_silent m h l :
  blist m h l -> QMD_LIST_CHECK_HEAD h m = Some false /\
    forall e, e ∈ l -> QMD_LIST_CHECK_NEXT e m = Some false /\ QMD_LIST_CHECK_PREV e m = Some false.
Proof.
  intros [Hs Hb]. split.
  - unfold QMD_LIST_CHECK_HEAD. change (LIST_FIRST h m) with (SLIST_FIRST h (bl_links m)). rewrite (SLIST_FIRST_ok _ _ _ Hs).
    destruct l as [|x l]; [done|]. destruct Hb as [Hx _]. cbn. rewrite Hx. cbn. by rewrite bool_decide_eq_false_2 by naive_solver.
  - intros e (l1 & l2 & ->)%list_elem_of_split. apply backed_app in Hb as [_ [He Hb2]]. split.
    + unfold QMD_LIST_CHECK_NEXT. change (LIST_NEXT e m) with (SLIST_NEXT e (bl_links m)). rewrite (slist_NEXT _ _ _ _ _ Hs).
      destruct l2 as [|y l2]; [done|]. destruct Hb2 as [Hy _]. cbn. rewrite Hy. cbn. by rewrite bool_decide_eq_false_2 by naive_solver.
    + unfold QMD_LIST_CHECK_PREV. rewrite He. cbn. unfold after. destruct l1 as [|c k _] using rev_ind.
      * cbn. change (LIST_FIRST h m) with (SLIST_FIRST h (bl_links m)). rewrite (SLIST_FIRST_ok _ _ _ Hs). cbn.
        by rewrite bool_decide_eq_false_2 by naive_solver.
      * rewrite list.last_snoc. cbn. change (LIST_NEXT c m) with (SLIST_NEXT c (bl_links m)). rewrite <-app_assoc in Hs.
        rewrite (slist_NEXT _ _ _ _ _ Hs). cbn. by rewrite bool_decide_eq_false_2 by naive_solver.
Qed.

(** LIST_FOREACH_SAFE may remove each element it visits. *)
Lemma LIST_FOREACH_SAFE_drain m h l :
  blist m h l ->
  exists s, LIST_FOREACH_SAFE fst (fun e s => m' ← LIST_REMOVE e s.1; Some (m', s.2 ++ [e])) h (m, []) = Some s /\
    blist s.1 h [] /\ s.2 = l.
Proof.
  intros T. unfold LIST_FOREACH_SAFE, SLIST_FOREACH_SAFE. cbn [fst]. rewrite (SLIST_FIRST_ok _ _ _ (proj1 T)). cbn [mbind option_bind].
  match goal with |- context [foreach_safe_from ?f ?b] =>
    destruct (foreach_safe_rule f b (fun k s => blist s.1 h k /\ s.2 ++ k = l) (size (sle_next (bl_links m))) l (m, []))
      as (s & E & T' & El) end.
  - intros e k [n d] [Tn Ed]. cbn [fst snd] in *. split; [exact (slist_NEXT _ _ [] _ _ (proj1 Tn))|].
    destruct (LIST_REMOVE_ok n h [] e k Tn) as (m' & -> & T' & _). eexists. split; [done|]. cbn [fst snd]. by rewrite <-app_assoc.
  - done.
  - destruct T as [(Hn & p & _ & Hl) _]. by eapply linked_size.
  - rewrite app_nil_r in El. eauto.
Qed.

(** The LIST macros implement finite lists: every sequence of
    initialisations, insertions at the head, before and after an element, and
    removals of an element without its head that the list specification allows
    runs on the linked memory and leaves each head holding exactly the list the
    specification computes; the consistency checks then find nothing, and a loop
    that removes each element it visits visits all of them and empties the list. *)
Theorem blist_refines {K : Type} `{Countable K} (ops : list (tqop K)) (m : bl_mem) (a a' : gmap K (list nat)) :
  forallb lq_supports ops = true -> tq_holds m a -> tqrun tq_spec ops a = Some a' ->
  exists m', tqrun tqexec ops m = Some m' /\ tq_holds m' a' /\
    forall q l, a' !! q = Some l ->
      QMD_LIST_CHECK_HEAD (encode_nat q) m' = Some false /\
      (forall e, e ∈ l -> QMD_LIST_CHECK_NEXT e m' = Some false /\ QMD_LIST_CHECK_PREV e m' = Some false) /\
      exists s, LIST_FOREACH_SAFE fst (fun e s => m' ← LIST_REMOVE e s.1; Some (m', s.2 ++ [e])) (encode_nat q) (m', []) = Some s /\
        blist s.1 (encode_nat q) [] /\ s.2 = l.
Proof.
  intros Hsup HR E. destruct (tqrun_refines ops m a a' Hsup HR E) as (m' & Em & HR'). exists m'. split; [done|]. split; [done|].
  intros q l Hl. pose proof (proj1 HR' q l Hl) as T. destruct (QMD_LIST_CHECK_silent _ _ _ T) as [? ?].
  split_and!; [done..|]. by apply LIST_FOREACH_SAFE_drain.
Qed.

Lemma blist_refines_witness :
  exists m', tqrun tqexec [TInit 0; TInit 1; TInsertHead 0 10; TInsertHead 0 11; TInsertAfter 0 10 12; TInsertBefore 0 10 13;
                           TInsertHead 1 20; TRemove 0 11; TRemove 0 12]%nat (mk_bl (mk_sl ∅ ∅) ∅) = Some m' /\
    QMD_LIST_CHECK_HEAD (encode_nat 0%nat) m' = Some false.
Proof.
  destruct (blist_refines [TInit 0; TInit 1; TInsertHead 0 10; TInsertHead 0 11; TInsertAfter 0 10 12; TInsertBefore 0 10 13;
    TInsertHead 1 20; TRemove 0 11; TRemove 0 12]%nat (mk_bl (mk_sl ∅ ∅) ∅) ∅
    (<[0:=[13; 10]]> {[1 := [20]]})%nat) as (m' & E & _ & Hq).
  - reflexivity.
  - apply tq_holds_empty.
  - vm_compute. reflexivity.
  - exists m'. split; [exact E|]. refine (proj1 (Hq 0%nat [13; 10]%nat _)). vm_compute. reflexivity.
Defined.
