(* ===== verification/Pipeline.v ===== *)
(** The request pipeline: src/csf/pipeline.c, src/csf/submit_request.c and the
    reference counting of src/csf/include/server.h. This file holds the state
    and every operation; PipelineInv.v holds the invariants and their theorems.

    Requests, connections, request queues (RQCBs) and threads live in one
    [world], addressed by numbers, so that aliasing is explicit: a queue is the
    list of the addresses of its requests (Tailq.v shows that the TAILQ macros
    implement these lists). The critical sections of the stage mutexes are
    atomic steps; a [pthread_mutex_trylock] may fail at any time, so its outcome
    is an argument. [None] is a dereference of NULL or of freed memory. *)

From S2P Require Import Prelude.

(** * Constants of pipeline.h and pipeline_def.h *)

Definition PIPELINE_SUCCESS : Z := 0.
Definition PIPELINE_FAILED : Z := -1.
Definition PIPELINE_CONTINUE : Z := 0.
Definition PIPELINE_BREAK : Z := 1.
Definition PIPELINE_REQUEUE : Z := 2.
Definition PIPELINE_SIZE : Z := 16.
Definition MAX_STAGE_JUMP : Z := 256.
Definition SUBMIT_GENERIC_ERROR : Z := -1.
Definition SUBMIT_QUEUE_FULL : Z := -2.
Definition REQUEST_LOOP : Z := -3.
Definition RESPONDER_OK : Z := 0.
Definition RESPONDER_CLEAN : Z := 1.
Definition RESPONDER_DISCONNECT : Z := 4.
Definition RESPONDER_ERROR : Z := -1.
Definition REQUEST_NONE : Z := 0.
Definition REQUEST_FORCE : Z := 1.
Definition REQUEST_KICK_OUT : Z := 2.
Definition REQUEST_TIME_OUT : Z := 4.
Definition THREAD_STARTING : Z := 0.
Definition THREAD_WAITING : Z := 1.
Definition THREAD_BUSY : Z := 2.
Definition THREAD_DONE : Z := 4.
Definition CSF_TCP : Z := 1.
Definition CSF_UDP : Z := 2.
Definition EV_TIMEOUT : Z := 1.

(** The test of a flag bit. *)
Definition has_flag (fl bit : Z) : bool := negb (Z.land fl bit =? 0).

(** * State *)

(** [REQUEST]. Function pointers are numbers, NULL is [None]. *)
Record REQUEST : Type := mk_request {
  request_responder : option Z;
  proctocl_data : Z;
  data_cleaner : option Z;
  r_pipeline_id : Z;
  tid : Z;
  nstage : Z;
  clock : Z;
  csp : option nat;
  flags : Z;
  ret : Z;
  err : Z;
  cancelled : Z
}.

Definition set_data_cleaner (x : option Z) (r : REQUEST) : REQUEST :=
  mk_request (request_responder r) (proctocl_data r) x (r_pipeline_id r) (tid r) (nstage r)
    (clock r) (csp r) (flags r) (ret r) (err r) (cancelled r).

Definition set_nstage (x : Z) (r : REQUEST) : REQUEST :=
  mk_request (request_responder r) (proctocl_data r) (data_cleaner r) (r_pipeline_id r)
    (tid r) x (clock r) (csp r) (flags r) (ret r) (err r) (cancelled r).

Definition set_flags (x : Z) (r : REQUEST) : REQUEST :=
  mk_request (request_responder r) (proctocl_data r) (data_cleaner r) (r_pipeline_id r)
    (tid r) (nstage r) (clock r) (csp r) x (ret r) (err r) (cancelled r).

Definition set_ret (x : Z) (r : REQUEST) : REQUEST :=
  mk_request (request_responder r) (proctocl_data r) (data_cleaner r) (r_pipeline_id r)
    (tid r) (nstage r) (clock r) (csp r) (flags r) x (err r) (cancelled r).

Definition set_err (x : Z) (r : REQUEST) : REQUEST :=
  mk_request (request_responder r) (proctocl_data r) (data_cleaner r) (r_pipeline_id r)
    (tid r) (nstage r) (clock r) (csp r) (flags r) (ret r) x (cancelled r).

Definition set_cancelled (x : Z) (r : REQUEST) : REQUEST :=
  mk_request (request_responder r) (proctocl_data r) (data_cleaner r) (r_pipeline_id r)
    (tid r) (nstage r) (clock r) (csp r) (flags r) (ret r) (err r) x.

(** [CONN_STATE] with its [CONN_INFO]: the protocol type, the socket and the
    reference count. *)
Record CONN_STATE : Type := mk_conn {
  ci_type : Z;
  ci_fd : Z;
  ref_cnt : Z
}.

Definition set_ci_fd (x : Z) (c : CONN_STATE) : CONN_STATE :=
  mk_conn (ci_type c) x (ref_cnt c).

Definition set_ref_cnt (x : Z) (c : CONN_STATE) : CONN_STATE :=
  mk_conn (ci_type c) (ci_fd c) x.

(** [RQCB], the queue of one stage. *)
Record RQCB : Type := mk_rqcb {
  request_head : list nat;
  next_rqcb : option nat;
  mod_name : cstr;
  queue_id : Z;
  queue_len : Z;
  thread_num : Z;
  delay : Z;
  request_init : option Z;
  request_deinit : option Z;
  request_handler : option Z;
  rqst_num : Z;
  request_count : Z
}.

Definition set_request_head (x : list nat) (q : RQCB) : RQCB :=
  mk_rqcb x (next_rqcb q) (mod_name q) (queue_id q) (queue_len q) (thread_num q) (delay q)
    (request_init q) (request_deinit q) (request_handler q) (rqst_num q) (request_count q).

Definition set_queue_len (x : Z) (q : RQCB) : RQCB :=
  mk_rqcb (request_head q) (next_rqcb q) (mod_name q) (queue_id q) x (thread_num q) (delay q)
    (request_init q) (request_deinit q) (request_handler q) (rqst_num q) (request_count q).

Definition set_rqst_num (x : Z) (q : RQCB) : RQCB :=
  mk_rqcb (request_head q) (next_rqcb q) (mod_name q) (queue_id q) (queue_len q)
    (thread_num q) (delay q) (request_init q) (request_deinit q) (request_handler q) x
    (request_count q).

Definition set_request_count (x : Z) (q : RQCB) : RQCB :=
  mk_rqcb (request_head q) (next_rqcb q) (mod_name q) (queue_id q) (queue_len q)
    (thread_num q) (delay q) (request_init q) (request_deinit q) (request_handler q)
    (rqst_num q) x.

(** [PCB], one pipeline: its first stage and the temporary queue used while that
    stage is locked. Its [active_queue_entry] is linked exactly when the pipeline
    is a member of [apq]. *)
Record PCB : Type := mk_pcb {
  counter : Z;
  pipeline_id : Z;
  first_rqcbp : option nat;
  tmp_queue_len : Z;
  tmp_request_head : list nat
}.

Definition set_counter (x : Z) (p : PCB) : PCB :=
  mk_pcb x (pipeline_id p) (first_rqcbp p) (tmp_queue_len p) (tmp_request_head p).

Definition set_tmp_queue_len (x : Z) (p : PCB) : PCB :=
  mk_pcb (counter p) (pipeline_id p) (first_rqcbp p) x (tmp_request_head p).

Definition set_tmp_request_head (x : list nat) (p : PCB) : PCB :=
  mk_pcb (counter p) (pipeline_id p) (first_rqcbp p) (tmp_queue_len p) x.

(** Where a worker thread is: about to look at its queue, inside
    [pthread_cond_wait], running the handler on a request, or gone. *)
Inductive thread_pc : Type :=
| PcLoop
| PcWait
| PcBusy (r : nat)
| PcExited.

(** [PIPELINE_THREAD] with the locals of [worker_thread]: [init_flag] and the
    [next_rqcbp] of its [WTI]. *)
Record PIPELINE_THREAD : Type := mk_thread {
  t_rqcb : nat;
  t_pc : thread_pc;
  t_status : Z;
  t_cur_rqst : option nat;
  t_rqst_num : Z;
  t_init_flag : Z;
  t_next_rqcbp : option nat
}.

Definition set_t_pc (x : thread_pc) (t : PIPELINE_THREAD) : PIPELINE_THREAD :=
  mk_thread (t_rqcb t) x (t_status t) (t_cur_rqst t) (t_rqst_num t) (t_init_flag t)
    (t_next_rqcbp t).

(** Calls that leave the component, in order. *)
Inductive event : Type :=
| EvRespond (r : nat) (rc : Z)
| EvClean (data : Z)
| EvClose (c : nat)
| EvSessionEnd (c : nat)
| EvFreeConn (c : nat)
| EvFreeRequest (r : nat)
| EvBroadcast (q : nat)
| EvExit (code : Z).

(** The global variables of pipeline.c and submit_request.c, the heap of
    requests and connections, and the trace of external calls. *)
Record world : Type := mk_world {
  rqcbs : list RQCB;
  done_rqcb : RQCB;
  pcb : list (option PCB);
  apq : list nat;
  final_request_head : list nat;
  requests : gmap nat REQUEST;
  conns : gmap nat CONN_STATE;
  threads : list PIPELINE_THREAD;
  pipeline_queue_size : Z;
  pipeline_queue_len : Z;
  request_timeout : Z;
  done_signalled : bool;
  done_pipe : Z;
  graceful_restart : bool;
  clock_off : Z;
  inc : Z;
  pipeline_working_threads : Z;
  exited : bool;
  connection_counter : Z;
  trace : list event
}.

Definition set_rqcbs (x : list RQCB) (w : world) : world :=
  mk_world x (done_rqcb w) (pcb w) (apq w) (final_request_head w) (requests w) (conns w)
    (threads w) (pipeline_queue_size w) (pipeline_queue_len w) (request_timeout w)
    (done_signalled w) (done_pipe w) (graceful_restart w) (clock_off w) (inc w)
    (pipeline_working_threads w) (exited w) (connection_counter w) (trace w).

Definition set_done_rqcb (x : RQCB) (w : world) : world :=
  mk_world (rqcbs w) x (pcb w) (apq w) (final_request_head w) (requests w) (conns w)
    (threads w) (pipeline_queue_size w) (pipeline_queue_len w) (request_timeout w)
    (done_signalled w) (done_pipe w) (graceful_restart w) (clock_off w) (inc w)
    (pipeline_working_threads w) (exited w) (connection_counter w) (trace w).

Definition set_pcb (x : list (option PCB)) (w : world) : world :=
  mk_world (rqcbs w) (done_rqcb w) x (apq w) (final_request_head w) (requests w) (conns w)
    (threads w) (pipeline_queue_size w) (pipeline_queue_len w) (request_timeout w)
    (done_signalled w) (done_pipe w) (graceful_restart w) (clock_off w) (inc w)
    (pipeline_working_threads w) (exited w) (connection_counter w) (trace w).

Definition set_apq (x : list nat) (w : world) : world :=
  mk_world (rqcbs w) (done_rqcb w) (pcb w) x (final_request_head w) (requests w) (conns w)
    (threads w) (pipeline_queue_size w) (pipeline_queue_len w) (request_timeout w)
    (done_signalled w) (done_pipe w) (graceful_restart w) (clock_off w) (inc w)
    (pipeline_working_threads w) (exited w) (connection_counter w) (trace w).

Definition set_final_request_head (x : list nat) (w : world) : world :=
  mk_world (rqcbs w) (done_rqcb w) (pcb w) (apq w) x (requests w) (conns w) (threads w)
    (pipeline_queue_size w) (pipeline_queue_len w) (request_timeout w) (done_signalled w)
    (done_pipe w) (graceful_restart w) (clock_off w) (inc w) (pipeline_working_threads w)
    (exited w) (connection_counter w) (trace w).

Definition set_requests (x : gmap nat REQUEST) (w : world) : world :=
  mk_world (rqcbs w) (done_rqcb w) (pcb w) (apq w) (final_request_head w) x (conns w)
    (threads w) (pipeline_queue_size w) (pipeline_queue_len w) (request_timeout w)
    (done_signalled w) (done_pipe w) (graceful_restart w) (clock_off w) (inc w)
    (pipeline_working_threads w) (exited w) (connection_counter w) (trace w).

Definition set_conns (x : gmap nat CONN_STATE) (w : world) : world :=
  mk_world (rqcbs w) (done_rqcb w) (pcb w) (apq w) (final_request_head w) (requests w) x
    (threads w) (pipeline_queue_size w) (pipeline_queue_len w) (request_timeout w)
    (done_signalled w) (done_pipe w) (graceful_restart w) (clock_off w) (inc w)
    (pipeline_working_threads w) (exited w) (connection_counter w) (trace w).

Definition set_threads (x : list PIPELINE_THREAD) (w : world) : world :=
  mk_world (rqcbs w) (done_rqcb w) (pcb w) (apq w) (final_request_head w) (requests w)
    (conns w) x (pipeline_queue_size w) (pipeline_queue_len w) (request_timeout w)
    (done_signalled w) (done_pipe w) (graceful_restart w) (clock_off w) (inc w)
    (pipeline_working_threads w) (exited w) (connection_counter w) (trace w).

Definition set_pipeline_queue_size (x : Z) (w : world) : world :=
  mk_world (rqcbs w) (done_rqcb w) (pcb w) (apq w) (final_request_head w) (requests w)
    (conns w) (threads w) x (pipeline_queue_len w) (request_timeout w) (done_signalled w)
    (done_pipe w) (graceful_restart w) (clock_off w) (inc w) (pipeline_working_threads w)
    (exited w) (connection_counter w) (trace w).

Definition set_pipeline_queue_len (x : Z) (w : world) : world :=
  mk_world (rqcbs w) (done_rqcb w) (pcb w) (apq w) (final_request_head w) (requests w)
    (conns w) (threads w) (pipeline_queue_size w) x (request_timeout w) (done_signalled w)
    (done_pipe w) (graceful_restart w) (clock_off w) (inc w) (pipeline_working_threads w)
    (exited w) (connection_counter w) (trace w).

Definition set_request_timeout (x : Z) (w : world) : world :=
  mk_world (rqcbs w) (done_rqcb w) (pcb w) (apq w) (final_request_head w) (requests w)
    (conns w) (threads w) (pipeline_queue_size w) (pipeline_queue_len w) x (done_signalled w)
    (done_pipe w) (graceful_restart w) (clock_off w) (inc w) (pipeline_working_threads w)
    (exited w) (connection_counter w) (trace w).

Definition set_done_signalled (x : bool) (w : world) : world :=
  mk_world (rqcbs w) (done_rqcb w) (pcb w) (apq w) (final_request_head w) (requests w)
    (conns w) (threads w) (pipeline_queue_size w) (pipeline_queue_len w) (request_timeout w)
    x (done_pipe w) (graceful_restart w) (clock_off w) (inc w) (pipeline_working_threads w)
    (exited w) (connection_counter w) (trace w).

Definition set_done_pipe (x : Z) (w : world) : world :=
  mk_world (rqcbs w) (done_rqcb w) (pcb w) (apq w) (final_request_head w) (requests w)
    (conns w) (threads w) (pipeline_queue_size w) (pipeline_queue_len w) (request_timeout w)
    (done_signalled w) x (graceful_restart w) (clock_off w) (inc w)
    (pipeline_working_threads w) (exited w) (connection_counter w) (trace w).

Definition set_graceful_restart (x : bool) (w : world) : world :=
  mk_world (rqcbs w) (done_rqcb w) (pcb w) (apq w) (final_request_head w) (requests w)
    (conns w) (threads w) (pipeline_queue_size w) (pipeline_queue_len w) (request_timeout w)
    (done_signalled w) (done_pipe w) x (clock_off w) (inc w) (pipeline_working_threads w)
    (exited w) (connection_counter w) (trace w).

Definition set_clock_off (x : Z) (w : world) : world :=
  mk_world (rqcbs w) (done_rqcb w) (pcb w) (apq w) (final_request_head w) (requests w)
    (conns w) (threads w) (pipeline_queue_size w) (pipeline_queue_len w) (request_timeout w)
    (done_signalled w) (done_pipe w) (graceful_restart w) x (inc w)
    (pipeline_working_threads w) (exited w) (connection_counter w) (trace w).

Definition set_inc (x : Z) (w : world) : world :=
  mk_world (rqcbs w) (done_rqcb w) (pcb w) (apq w) (final_request_head w) (requests w)
    (conns w) (threads w) (pipeline_queue_size w) (pipeline_queue_len w) (request_timeout w)
    (done_signalled w) (done_pipe w) (graceful_restart w) (clock_off w) x
    (pipeline_working_threads w) (exited w) (connection_counter w) (trace w).

Definition set_pipeline_working_threads (x : Z) (w : world) : world :=
  mk_world (rqcbs w) (done_rqcb w) (pcb w) (apq w) (final_request_head w) (requests w)
    (conns w) (threads w) (pipeline_queue_size w) (pipeline_queue_len w) (request_timeout w)
    (done_signalled w) (done_pipe w) (graceful_restart w) (clock_off w) (inc w) x (exited w)
    (connection_counter w) (trace w).

Definition set_exited (x : bool) (w : world) : world :=
  mk_world (rqcbs w) (done_rqcb w) (pcb w) (apq w) (final_request_head w) (requests w)
    (conns w) (threads w) (pipeline_queue_size w) (pipeline_queue_len w) (request_timeout w)
    (done_signalled w) (done_pipe w) (graceful_restart w) (clock_off w) (inc w)
    (pipeline_working_threads w) x (connection_counter w) (trace w).

Definition set_connection_counter (x : Z) (w : world) : world :=
  mk_world (rqcbs w) (done_rqcb w) (pcb w) (apq w) (final_request_head w) (requests w)
    (conns w) (threads w) (pipeline_queue_size w) (pipeline_queue_len w) (request_timeout w)
    (done_signalled w) (done_pipe w) (graceful_restart w) (clock_off w) (inc w)
    (pipeline_working_threads w) (exited w) x (trace w).

Definition set_trace (x : list event) (w : world) : world :=
  mk_world (rqcbs w) (done_rqcb w) (pcb w) (apq w) (final_request_head w) (requests w)
    (conns w) (threads w) (pipeline_queue_size w) (pipeline_queue_len w) (request_timeout w)
    (done_signalled w) (done_pipe w) (graceful_restart w) (clock_off w) (inc w)
    (pipeline_working_threads w) (exited w) (connection_counter w) x.

(** The return codes of the pthread calls of one critical section. *)
Record pthread_rc : Type := mk_rc { lock_rc : Z; signal_rc : Z; unlock_rc : Z }.

Definition rc_ok : pthread_rc := mk_rc 0 0 0.

(** * Access to the heap *)

Definition emit (e : event) (w : world) : world := set_trace (trace w ++ [e]) w.

Definition upd_rqcb (i : nat) (f : RQCB -> RQCB) (w : world) : option world :=
  q ← rqcbs w !! i; Some (set_rqcbs (<[i:=f q]> (rqcbs w)) w).

Definition upd_pcb (i : nat) (f : PCB -> PCB) (w : world) : option world :=
  op ← pcb w !! i; p ← op; Some (set_pcb (<[i:=Some (f p)]> (pcb w)) w).

Definition upd_request (r : nat) (f : REQUEST -> REQUEST) (w : world) : option world :=
  rq ← requests w !! r; Some (set_requests (<[r:=f rq]> (requests w)) w).

Definition upd_thread (t : nat) (f : PIPELINE_THREAD -> PIPELINE_THREAD) (w : world) : option world :=
  th ← threads w !! t; Some (set_threads (<[t:=f th]> (threads w)) w).

Definition upd_conn (c : nat) (f : CONN_STATE -> CONN_STATE) (w : world) : option world :=
  cs ← conns w !! c; Some (set_conns (<[c:=f cs]> (conns w)) w).

Definition get_pcb (i : nat) (w : world) : option PCB := op ← pcb w !! i; op.

(** Removing one address from a queue, as TAILQ_REMOVE does. *)
Definition unlink (x : nat) (l : list nat) : list nat := List.filter (fun y => negb (Nat.eqb x y)) l.

(** [queue_len++] and the insertion at the tail, on one RQCB. *)
Definition rqcb_push (r : nat) (q : RQCB) : RQCB :=
  set_queue_len (u32 (queue_len q + 1)) (set_request_head (request_head q ++ [r]) q).

(** * Moving requests between stages *)

(** [to_next_stage]. *)
Definition to_next_stage (rc : pthread_rc) (i r : nat) (w : world) : option world :=
  if lock_rc rc =? 0 then
    w1 ← upd_rqcb i (fun q => set_request_count (u64 (request_count q + 1)) (rqcb_push r q)) w;
    upd_request r (fun rq => set_nstage (u32 (nstage rq + 1)) rq) w1
  else Some w.

(** The wake-up of the event loop: one byte into the pipe, once until it is read. *)
Definition signal_done (w : world) : world :=
  if done_signalled w then w else set_done_pipe (done_pipe w + 1) (set_done_signalled true w).

(** [to_done_stage]. *)
Definition to_done_stage (rc : pthread_rc) (r : nat) (w : world) : world :=
  signal_done
    (if lock_rc rc =? 0
     then set_done_rqcb (let q := rqcb_push r (done_rqcb w) in set_rqst_num (u32 (rqst_num q + 1)) q) w
     else w).

(** The concatenation of the temporary queue of [p] to its first stage [i], in
    [kick_request_queue] and at the start of [send_to_pipeline]. *)
Definition concat_tmp (p i : nat) (pc : PCB) (w : world) : option world :=
  w1 ← upd_rqcb i (fun q => set_queue_len (u32 (queue_len q + tmp_queue_len pc))
                              (set_request_head (request_head q ++ tmp_request_head pc) q)) w;
  w2 ← upd_pcb p (fun pc => set_tmp_queue_len 0 (set_tmp_request_head [] pc)) w1;
  Some (set_apq (unlink p (apq w2)) w2).

(** One iteration of [kick_request_queue], for the pipeline [p] of [apq]; [busy]
    tells which stages another thread has locked. *)
Definition kick_one (busy : nat -> bool) (w : world) (p : nat) : option world :=
  pc ← get_pcb p w;
  match tmp_request_head pc with
  | [] => Some (set_apq (unlink p (apq w)) w)
  | _ => i ← first_rqcbp pc; if busy i then Some w else concat_tmp p i pc w
  end.

(** A loop over the elements a queue had when the loop began. *)
Fixpoint for_each {S} (f : S -> nat -> option S) (s : S) (l : list nat) : option S :=
  match l with
  | [] => Some s
  | x :: l' => s' ← f s x; for_each f s' l'
  end.

(** [kick_request_queue]. *)
Definition kick_request_queue (busy : nat -> bool) (w : world) : option world :=
  for_each (kick_one busy) w (apq w).

(** The stages reached from [i] over [next_rqcb]; [fuel] bounds the walk. *)
Fixpoint stage_chain (fuel : nat) (w : world) (i : option nat) : list nat :=
  match fuel, i with
  | S fuel', Some j =>
      j :: match rqcbs w !! j with
           | Some q => stage_chain fuel' w (next_rqcb q)
           | None => []
           end
  | _, _ => []
  end.

(** [broadcast_signal_to_allqueue]: every stage of every pipeline. *)
Definition broadcast_signal_to_allqueue (w : world) : world :=
  let stages := flat_map (fun op => match op with
                                    | Some pc => stage_chain (length (rqcbs w)) w (first_rqcbp pc)
                                    | None => []
                                    end) (pcb w) in
  set_trace (trace w ++ (EvBroadcast <$> stages)) w.

(** * Connections *)

(** [CS_HOLD] and [CS_RELE]; the count is a [size_t]. *)
Definition CS_HOLD (c : nat) (w : world) : option world :=
  upd_conn c (fun cs => set_ref_cnt (u64 (ref_cnt cs + 1)) cs) w.

Definition CS_RELE (c : nat) (w : world) : option world :=
  cs ← conns w !! c;
  let n := u64 (ref_cnt cs - 1) in
  if n =? 0 then Some (emit (EvFreeConn c) (set_conns (delete c (conns w)) w))
  else Some (set_conns (<[c:=set_ref_cnt n cs]> (conns w)) w).

(** The connection made by [tcp_socket_event_handler] or
    [udp_socket_event_handler], with [connection_made] of data.c. *)
Definition conn_accept (c : nat) (ty fd : Z) (w : world) : world :=
  set_connection_counter (connection_counter w + 1) (set_conns (<[c:=mk_conn ty fd 1]> (conns w)) w).

(** [connection_lost] of data.c: the open-connection count goes down and the
    protocol's session end hook runs. *)
Definition connection_lost (c : nat) (w : world) : world :=
  emit (EvSessionEnd c) (set_connection_counter (connection_counter w - 1) w).

(** [conn_state_cleanup] of server.c. *)
Definition conn_state_cleanup (c : nat) (w : world) : option world :=
  CS_RELE c (connection_lost c w).

(** The [conn_close] operation of a connection: [tcp_conn_close] for TCP, none
    for UDP. *)
Definition conn_close (c : nat) (w : world) : option world :=
  cs ← conns w !! c;
  if ci_type cs =? CSF_TCP
  then Some (emit (EvClose c) (set_conns (<[c:=set_ci_fd (-1) cs]> (conns w)) w))
  else Some w.

(** * Completed requests *)

(** [cleanup_request] on the final queue. *)
Definition cleanup_request (r : nat) (w : world) : option world :=
  let w1 := set_final_request_head (unlink r (final_request_head w)) w in
  rq ← requests w1 !! r;
  let w2 := match data_cleaner rq with Some _ => emit (EvClean (proctocl_data rq)) w1 | None => w1 end in
  w3 ← (match csp rq with Some c => CS_RELE c w2 | None => Some w2 end);
  Some (emit (EvFreeRequest r) (set_requests (delete r (requests w3)) w3)).

(** [clean_protocol_data], which nothing calls: unlike [cleanup_request] it keeps
    the connection and the queue as they are. [mp_free] ignores NULL. *)
Definition clean_protocol_data (rqstp : option nat) (w : world) : option world :=
  match rqstp with
  | None => Some w
  | Some r =>
      rq ← requests w !! r;
      let w1 := match data_cleaner rq with
                | Some _ => if proctocl_data rq =? 0 then w else emit (EvClean (proctocl_data rq)) w
                | None => w
                end in
      Some (emit (EvFreeRequest r) (set_requests (delete r (requests w1)) w1))
  end.

(** [get_done_requests]; [busy] is the outcome of its trylock. *)
Definition get_done_requests (busy : bool) (w : world) : world :=
  match request_head (done_rqcb w) with
  | [] => w
  | l =>
      if busy then w
      else set_done_rqcb (set_queue_len 0 (set_request_head [] (done_rqcb w)))
             (set_final_request_head (final_request_head w ++ l) w)
  end.

(** One iteration of the loop of [done_requests_handler]. [respond] stands for
    the responders of the protocol module; the code [rc] is a variable of the
    whole loop. *)
Definition respond_one (respond : Z -> nat -> Z -> Z -> Z) (s : Z * world) (r : nat)
  : option (Z * world) :=
  let '(rc, w) := s in
  let w := set_pipeline_queue_len (u64 (pipeline_queue_len w - 1)) w in
  rq ← requests w !! r;
  match csp rq with
  | None => Some (rc, w)
  | Some c =>
      _ ← conns w !! c;
      let '(rc, w) :=
        match request_responder rq with
        | Some f => if cancelled rq =? 0
                    then let rc' := respond f c (proctocl_data rq) (flags rq) in
                         (rc', emit (EvRespond r rc') w)
                    else (rc, w)
        | None => (rc, w)
        end in
      w ← (if has_flag rc RESPONDER_DISCONNECT
           then w1 ← conn_close c w; conn_state_cleanup c w1
           else Some w);
      w ← (if has_flag rc RESPONDER_CLEAN then Some w
           else upd_request r (set_data_cleaner None) w);
      w ← cleanup_request r w;
      Some (rc, if graceful_restart w && (pipeline_queue_len w =? 0)
                then broadcast_signal_to_allqueue w else w)
  end.

(** [done_requests_handler]. *)
Definition done_requests_handler (respond : Z -> nat -> Z -> Z -> Z) (busy : nat -> bool) (done_busy : bool)
  (ev : Z) (w : world) : option world :=
  let w1 := if done_signalled w
            then set_done_signalled false (set_done_pipe (Z.max 0 (done_pipe w - 16)) w) else w in
  w2 ← kick_request_queue busy w1;
  match request_head (done_rqcb w2) with
  | [] => Some w2
  | _ =>
      if ev =? EV_TIMEOUT then Some w2
      else
        let w3 := get_done_requests done_busy w2 in
        snd <$> for_each (respond_one respond) (Z.lor RESPONDER_OK RESPONDER_CLEAN, w3)
                  (final_request_head w3)
  end.

(** * Submitting a request *)

(** Taking [r] off the queue of the stage [i]: TAILQ_REMOVE and [queue_len--]. *)
Definition rqcb_drop (r : nat) (q : RQCB) : RQCB :=
  set_queue_len (u32 (queue_len q - 1)) (set_request_head (unlink r (request_head q)) q).

(** From the waiting queue of the stage [i] to the final queue, both counters
    decremented. *)
Definition kick_to_final (i r : nat) (w : world) : option world :=
  w1 ← upd_rqcb i (rqcb_drop r) w;
  let w2 := set_pipeline_queue_len (u64 (pipeline_queue_len w1 - 1)) w1 in
  Some (set_final_request_head (final_request_head w2 ++ [r]) w2).

(** The REQUEST_KICK_OUT branch; the flag is the notice for the event loop. *)
Definition kick_oldest (i : nat) (w : world) : option world :=
  q ← rqcbs w !! i;
  out ← head (request_head q);
  w1 ← upd_request out (set_flags REQUEST_KICK_OUT) w;
  kick_to_final i out w1.

(** One iteration of the REQUEST_TIME_OUT sweep. *)
Definition expire_one (i : nat) (s : world * bool) (r : nat) : option (world * bool) :=
  let '(w, notice) := s in
  rq ← requests w !! r;
  if request_timeout w <? clock_off w - clock rq
  then w1 ← kick_to_final i r w; Some (w1, true)
  else Some (w, notice).

(** The branch of [send_to_pipeline] that found the stage locked. *)
Definition send_blocked (p r : nat) (w : world) : option world :=
  w1 ← upd_pcb p (fun pc => set_tmp_queue_len (u32 (tmp_queue_len pc + 1))
                              (set_tmp_request_head (tmp_request_head pc ++ [r]) pc)) w;
  let w2 := set_pipeline_queue_len (u64 (pipeline_queue_len w1 + 1)) w1 in
  Some (if bool_decide (p ∈ apq w2) then w2 else set_apq (apq w2 ++ [p]) w2).

(** [send_to_pipeline]; [busy] is the failure of its trylock. *)
Definition send_to_pipeline (rc : pthread_rc) (busy : bool) (p r : nat) (fl : Z) (concat : bool) (w : world)
  : option (Z * world) :=
  pc ← get_pcb p w;
  i ← first_rqcbp pc;
  if busy then w1 ← send_blocked p r w; Some (0, w1)
  else
    w1 ← (if concat then concat_tmp p i pc w else Some w);
    q1 ← rqcbs w1 !! i;
    if negb (has_flag fl REQUEST_FORCE) && (pipeline_queue_size w1 <=? queue_len q1)
    then Some (SUBMIT_QUEUE_FULL, w1)
    else
      s2 ← (if has_flag fl REQUEST_FORCE && has_flag fl REQUEST_KICK_OUT
                 && (pipeline_queue_size w1 <=? queue_len q1)
            then w2 ← kick_oldest i w1; Some (w2, true)
            else Some (w1, false));
      q2 ← rqcbs s2.1 !! i;
      s3 ← (if has_flag fl REQUEST_TIME_OUT && negb (request_timeout s2.1 =? 0)
            then for_each (expire_one i) s2 (request_head q2)
            else Some s2);
      let w3 := fst (A:=world) (B:=bool) s3 in
      let notice := snd (A:=world) (B:=bool) s3 in
      w4 ← upd_rqcb i (rqcb_push r) w3;
      let w5 := set_pipeline_queue_len (u64 (pipeline_queue_len w4 + 1)) w4 in
      if negb (signal_rc rc =? 0) then Some (SUBMIT_GENERIC_ERROR, w5)
      else if negb (unlock_rc rc =? 0) then Some (SUBMIT_GENERIC_ERROR, w5)
      else Some (0, if notice then signal_done w5 else w5).

(** The transaction id: seven bits of pipeline number over a 56-bit counter. *)
Definition make_tid (pid n : Z) : Z := u64 (Z.shiftl (Z.land pid 127) 56 + n).

(** A 64-bit word read as an [int64_t]. *)
Definition i64 (z : Z) : Z := (z + 2 ^ 63) mod 2 ^ 64 - 2 ^ 63.

(** The arguments of one call of [submit_request]; [p] is the connection. *)
Record submission : Type := mk_submission {
  s_conn : option nat;
  s_pid : Z;
  s_data : Z;
  s_cleaner : option Z;
  s_responder : option Z;
  s_flags : Z
}.

(** The request [submit_request] builds in the block [stale] it got from
    [smalloc], which is not cleared: [csp] and [pipeline_id] keep its bytes
    unless they are assigned. *)
Definition new_request (a : submission) (stale : REQUEST) (w : world) : REQUEST :=
  mk_request (s_responder a) (s_data a) (s_cleaner a) (r_pipeline_id stale)
    (make_tid (s_pid a) (u64 (inc w + 1))) 0 (clock_off w)
    (match s_conn a with Some c => Some c | None => csp stale end) REQUEST_NONE (-1) 0 0.

(** [submit_request]: [r] is the address of the block [smalloc] returned. *)
Definition submit_request (rc : pthread_rc) (busy : bool) (r : nat) (stale : REQUEST) (a : submission)
  (w : world) : option (Z * world) :=
  let pid := Z.to_nat (s_pid a) in
  if PIPELINE_SIZE <=? s_pid a then Some (SUBMIT_GENERIC_ERROR, w)
  else if graceful_restart w then Some (SUBMIT_GENERIC_ERROR, w)
  else
    op ← pcb w !! pid;
    match op with
    | None => Some (SUBMIT_GENERIC_ERROR, w)
    | Some pc =>
        match first_rqcbp pc with
        | None => Some (SUBMIT_GENERIC_ERROR, w)
        | Some i =>
            if negb (has_flag (s_flags a) REQUEST_FORCE) && (pipeline_queue_size w <=? pipeline_queue_len w)
            then Some (SUBMIT_QUEUE_FULL, w)
            else
              w1 ← (match s_conn a with Some c => CS_HOLD c w | None => Some w end);
              let rq := new_request a stale w1 in
              let w2 := set_inc (u64 (inc w1 + 1)) (set_requests (<[r:=rq]> (requests w1)) w1) in
              s3 ← send_to_pipeline rc busy pid r (s_flags a)
                     (match tmp_request_head pc with [] => false | _ => true end) w2;
              let '(code, w3) := s3 in
              if negb (code =? 0) then Some (SUBMIT_GENERIC_ERROR, w3)
              else
                w4 ← upd_pcb pid (fun pc => set_counter (u64 (counter pc + 1)) pc) w3;
                w5 ← upd_rqcb i (fun q => set_request_count (u64 (request_count q + 1)) q) w4;
                Some (i64 (tid rq), w5)
        end
    end.

(** [request_cancel]. *)
Definition request_cancel (req : option nat) (w : world) : option world :=
  match req with
  | None => Some w
  | Some r => upd_request r (set_cancelled 1) w
  end.

(** * Worker threads *)

Definition set_t_status (x : Z) (t : PIPELINE_THREAD) : PIPELINE_THREAD :=
  mk_thread (t_rqcb t) (t_pc t) x (t_cur_rqst t) (t_rqst_num t) (t_init_flag t) (t_next_rqcbp t).

Definition set_t_cur_rqst (x : option nat) (t : PIPELINE_THREAD) : PIPELINE_THREAD :=
  mk_thread (t_rqcb t) (t_pc t) (t_status t) x (t_rqst_num t) (t_init_flag t) (t_next_rqcbp t).

Definition set_t_rqst_num (x : Z) (t : PIPELINE_THREAD) : PIPELINE_THREAD :=
  mk_thread (t_rqcb t) (t_pc t) (t_status t) (t_cur_rqst t) x (t_init_flag t) (t_next_rqcbp t).

Definition set_t_next_rqcbp (x : option nat) (t : PIPELINE_THREAD) : PIPELINE_THREAD :=
  mk_thread (t_rqcb t) (t_pc t) (t_status t) (t_cur_rqst t) (t_rqst_num t) (t_init_flag t) x.

(** The test on the number of stages visited, in the PIPELINE_CONTINUE and the
    PIPELINE_REQUEUE cases of [submit_next]. *)
Definition check_loop (rc : pthread_rc) (r : nat) (w : world) : option world :=
  rq ← requests w !! r;
  if MAX_STAGE_JUMP <? nstage rq
  then w1 ← upd_request r (set_err REQUEST_LOOP) w; Some (to_done_stage rc r w1)
  else Some w.

(** [submit_next] for the thread [t] of the stage [i]. *)
Definition submit_next (rc : pthread_rc) (t i r : nat) (w : world) : option world :=
  rq ← requests w !! r;
  if ret rq =? PIPELINE_FAILED then Some (to_done_stage rc r w)
  else if ret rq =? PIPELINE_CONTINUE then
    w1 ← check_loop rc r w;
    th ← threads w1 !! t;
    q ← rqcbs w1 !! i;
    w2 ← upd_thread t (set_t_next_rqcbp None) w1;
    match (match t_next_rqcbp th with Some j => Some j | None => next_rqcb q end) with
    | Some j => to_next_stage rc j r w2
    | None => Some (to_done_stage rc r w2)
    end
  else if ret rq =? PIPELINE_BREAK then Some (to_done_stage rc r w)
  else if ret rq =? PIPELINE_REQUEUE then
    w1 ← check_loop rc r w;
    to_next_stage rc i r w1
  else Some (to_done_stage rc r w).

(** [thread_deinit]; [exit] stops the process. *)
Definition thread_deinit (t : nat) (w : world) : option world :=
  w1 ← upd_thread t (set_t_pc PcExited) w;
  let n := u64 (pipeline_working_threads w1 - 1) in
  let w2 := set_pipeline_working_threads n w1 in
  Some (if n =? 0 then emit (EvExit 0) (set_exited true w2) else w2).

(** The rest of an iteration of [worker_thread] once its queue is not empty:
    the delay, the removal and the time-out. *)
Definition worker_take (rc : pthread_rc) (t i r : nat) (w : world) : option world :=
  q ← rqcbs w !! i;
  rq ← requests w !! r;
  let cl := clock_off w - clock rq in
  if negb (delay q =? 0) && (cl <? delay q) then upd_thread t (set_t_pc PcLoop) w
  else
    w1 ← upd_rqcb i (rqcb_drop r) w;
    if negb (request_timeout w1 =? 0) && negb (clock rq =? 0) && (request_timeout w1 <? cl) then
      w2 ← upd_request r (set_flags REQUEST_TIME_OUT) w1;
      upd_thread t (set_t_pc PcLoop) (to_done_stage rc r w2)
    else
      upd_thread t (fun th => set_t_pc (PcBusy r) (set_t_cur_rqst (Some r) (set_t_status THREAD_BUSY th))) w1.

(** The top of the loop of [worker_thread], up to its wait. *)
Definition worker_loop (rc : pthread_rc) (t : nat) (w : world) : option world :=
  w1 ← upd_thread t (fun th => set_t_cur_rqst None (set_t_status THREAD_WAITING th)) w;
  th ← threads w1 !! t;
  q ← rqcbs w1 !! t_rqcb th;
  match request_head q with
  | [] => upd_thread t (set_t_pc PcWait) w1
  | r :: _ => worker_take rc t (t_rqcb th) r w1
  end.

(** The return of [pthread_cond_wait]: the graceful-restart exit, or another
    look at the queue. *)
Definition worker_wake (rc : pthread_rc) (t : nat) (w : world) : option world :=
  if graceful_restart w && (pipeline_queue_len w =? 0) then thread_deinit t w
  else
    th ← threads w !! t;
    q ← rqcbs w !! t_rqcb th;
    match request_head q with
    | [] => Some w
    | r :: _ => worker_take rc t (t_rqcb th) r w
    end.

(** What a request handler did: its result, errno, and the stage it chose with
    [set_next_stage], if any. *)
Record handler_outcome : Type := mk_outcome {
  h_ret : Z;
  h_errno : Z;
  h_next : option nat
}.

(** The processing of the request a thread holds. *)
Definition worker_run (rc : pthread_rc) (out : handler_outcome) (t r : nat) (w : world) : option world :=
  th ← threads w !! t;
  rq ← requests w !! r;
  let i := t_rqcb th in
  q ← rqcbs w !! i;
  w3 ← (if cancelled rq =? 0 then
          match request_handler q with
          | Some _ =>
              if t_init_flag th =? PIPELINE_SUCCESS then
                w1 ← upd_request r (fun rq => set_err (h_errno out) (set_ret (i32 (h_ret out)) rq)) w;
                w2 ← (match h_next out with
                      | Some j => upd_thread t (set_t_next_rqcbp (Some j)) w1
                      | None => Some w1
                      end);
                submit_next rc t i r w2
              else Some (to_done_stage rc r w)
          | None => Some (to_done_stage rc r w)
          end
        else
          w1 ← upd_request r (fun rq => set_err 0 (set_ret 0 rq)) w;
          Some (to_done_stage rc r w1));
  upd_thread t (fun th => set_t_pc PcLoop (set_t_status THREAD_DONE
                            (set_t_rqst_num (u64 (t_rqst_num th + 1)) th))) w3.
