(* ===== verification/PipelineInv.v ===== *)
(** Invariants of the request pipeline of Pipeline.v: its step relation, the
    accounting of requests (each one is in exactly one place), the counters, the
    temporary queues and the reference counts of connections. *)

From S2P Require Import Prelude Pipeline.

(** * The steps of the running pipeline *)

(** What one thread does between two points where another may run. *)
Inductive op : Type :=
| OSubmit (r : nat) (stale : REQUEST) (a : submission) (busy : bool)
| OKick (busy : nat -> bool)
| ODone (respond : Z -> nat -> Z -> Z -> Z) (busy : nat -> bool) (done_busy : bool) (ev : Z)
| OCancel (req : option nat)
| OAccept (c : nat) (ty fd : Z)
| OLost (c : nat)
| OLoop (t : nat)
| OWake (t : nat)
| ORun (out : handler_outcome) (t r : nat)
| OTick
| OHup.

Definition exec (o : op) (w : world) : option world :=
  match o with
  | OSubmit r stale a busy => snd <$> submit_request rc_ok busy r stale a w
  | OKick busy => kick_request_queue busy w
  | ODone respond busy db ev => done_requests_handler respond busy db ev w
  | OCancel req => request_cancel req w
  | OAccept c ty fd => Some (conn_accept c ty fd w)
  | OLost c => w1 ← conn_close c w; conn_state_cleanup c w1
  | OLoop t => worker_loop rc_ok t w
  | OWake t => worker_wake rc_ok t w
  | ORun out t r => worker_run rc_ok out t r w
  | OTick => Some (set_clock_off (clock_off w + 1) w)
  | OHup => Some (set_graceful_restart true w)
  end.

(** The connection of each live request. *)
Definition owners (w : world) : gmap nat (option nat) := csp <$> requests w.

(** How many live requests refer to the connection [c]. *)
Definition refs (c : nat) (os : gmap nat (option nat)) : nat :=
  size (filter (fun kv => kv.2 = Some c) os).

Definition thread_at (t : nat) (pc : thread_pc) (w : world) : Prop :=
  exists th, threads w !! t = Some th /\ t_pc th = pc.

(** When a step may happen. Submissions come with a connection and without the
    eviction flags, responders do not disconnect, a connection is closed while
    its own reference is held, and no request has passed 256 stages. *)
Definition enabled (o : op) (w : world) : Prop :=
  match o with
  | OSubmit r stale a busy =>
      requests w !! r = None /\ Z.of_nat (size (requests w)) < 2 ^ 64 /\ 0 <= s_pid a /\
      has_flag (s_flags a) REQUEST_KICK_OUT = false /\
      has_flag (s_flags a) REQUEST_TIME_OUT = false /\
      exists c cs, s_conn a = Some c /\ conns w !! c = Some cs /\ ref_cnt cs < 2 ^ 64 - 1
  | OKick busy => True
  | ODone respond busy db ev =>
      forall f c d fl, has_flag (respond f c d fl) RESPONDER_DISCONNECT = false
  | OCancel req => match req with Some r => is_Some (requests w !! r) | None => True end
  | OAccept c ty fd => conns w !! c = None
  | OLost c => exists cs, conns w !! c = Some cs /\ Z.of_nat (refs c (owners w)) < ref_cnt cs
  | OLoop t => thread_at t PcLoop w
  | OWake t => thread_at t PcWait w
  | ORun out t r =>
      thread_at t (PcBusy r) w /\
      (forall j, h_next out = Some j -> (j < length (rqcbs w))%nat) /\
      (forall rq, requests w !! r = Some rq -> nstage rq <= MAX_STAGE_JUMP)
  | OTick | OHup => True
  end.

Inductive step (w : world) : world -> Prop :=
| step_op (o : op) (w' : world) : enabled o w -> exec o w = Some w' -> step w w'.

(** * The invariant *)

Definition in_range (n : nat) (i : option nat) : Prop :=
  match i with Some j => (j < n)%nat | None => True end.

(** One stage: its length field, its successor. *)
Definition rqcb_ok (n : nat) (q : RQCB) : Prop :=
  queue_len q = u32 (Z.of_nat (length (request_head q))) /\ in_range n (next_rqcb q).

(** One pipeline. *)
Definition pcb_ok (n : nat) (pc : PCB) : Prop :=
  tmp_queue_len pc = u32 (Z.of_nat (length (tmp_request_head pc))) /\
  exists i, first_rqcbp pc = Some i /\ (i < n)%nat.

Definition opcb_ok (n : nat) (op : option PCB) : Prop :=
  match op with Some pc => pcb_ok n pc | None => True end.

(** The pipelines with requests in their temporary queue are in [apq]. *)
Definition apq_ok (ps : list (option PCB)) (l : list nat) : Prop :=
  NoDup l /\
  (forall p, p ∈ l -> exists pc, ps !! p = Some (Some pc)) /\
  (forall p pc, ps !! p = Some (Some pc) -> tmp_request_head pc <> [] -> p ∈ l).

Definition thread_ok (n : nat) (th : PIPELINE_THREAD) : Prop :=
  (t_rqcb th < n)%nat /\ in_range n (t_next_rqcbp th).

(** No two pipelines share their first stage. *)
Definition firsts_inj (ps : list (option PCB)) : Prop :=
  forall p p' pc pc', ps !! p = Some (Some pc) -> ps !! p' = Some (Some pc') ->
    first_rqcbp pc = first_rqcbp pc' -> p = p'.

(** The shape of queues, pipelines and threads. *)
Definition wf (w : world) : Prop :=
  Forall (rqcb_ok (length (rqcbs w))) (rqcbs w) /\
  queue_len (done_rqcb w) = u32 (Z.of_nat (length (request_head (done_rqcb w)))) /\
  (length (pcb w) = 16%nat /\ Forall (opcb_ok (length (rqcbs w))) (pcb w) /\ firsts_inj (pcb w)) /\
  apq_ok (pcb w) (apq w) /\
  Forall (thread_ok (length (rqcbs w))) (threads w).

(** Every request has a live connection, which holds a reference for it. *)
Definition heap_ok (os : gmap nat (option nat)) (cs : gmap nat CONN_STATE) : Prop :=
  (forall r oc, os !! r = Some oc -> exists c st, oc = Some c /\ cs !! c = Some st) /\
  (forall c st, cs !! c = Some st -> 0 < ref_cnt st < 2 ^ 64 /\ Z.of_nat (refs c os) <= ref_cnt st).

(** In how many places the request [r] is. *)
Definition occ_stages (r : nat) (qs : list RQCB) : nat :=
  sum_list_with (fun q => occurs r (request_head q)) qs.

Definition occ_tmp (r : nat) (ps : list (option PCB)) : nat :=
  sum_list_with (fun op => match op with Some pc => occurs r (tmp_request_head pc) | None => O end) ps.

Definition pc_list (pc : thread_pc) : list nat :=
  match pc with PcBusy r => [r] | _ => [] end.

Definition occ_threads (r : nat) (ts : list PIPELINE_THREAD) : nat :=
  sum_list_with (fun th => occurs r (pc_list (t_pc th))) ts.

Definition occ (r : nat) (w : world) : nat :=
  (occurs r (final_request_head w) + occurs r (request_head (done_rqcb w)) +
   occ_stages r (rqcbs w) + occ_tmp r (pcb w) + occ_threads r (threads w))%nat.

Definition live {A} (r : nat) (rs : gmap nat A) : nat :=
  match rs !! r with Some _ => 1%nat | None => 0%nat end.

(** Each live request is in exactly one queue or worker, nothing else is queued,
    and [pipeline_queue_len] counts the live requests. *)
Definition accounted (w : world) : Prop :=
  (forall r, occ r w = live r (requests w)) /\
  pipeline_queue_len w = u64 (Z.of_nat (size (requests w))).

Definition pinv (w : world) : Prop :=
  wf w /\ heap_ok (owners w) (conns w) /\ accounted w.

(** * Lemmas on the parts of the state *)

Arguments unlink : simpl never.

Lemma occurs_unlink x y l : occurs x (unlink y l) = if Nat.eqb x y then O else occurs x l.
Proof.
  unfold unlink. induction l as [|z l IH]; cbn; [by case_match|].
  destruct (Nat.eqb_spec y z) as [->|Hne]; cbn; rewrite IH; [by destruct (Nat.eqb x z)|].
  destruct (Nat.eqb_spec x y) as [->|]; [|done]. by rewrite (proj2 (Nat.eqb_neq _ _) Hne).
Qed.

Lemma length_unlink y l : (length (unlink y l) + occurs y l = length l)%nat.
Proof.
  unfold unlink. induction l as [|z l IH]; cbn; [done|].
  destruct (Nat.eqb y z); cbn; lia.
Qed.

Lemma elem_of_unlink x y l : x ∈ unlink y l <-> x <> y /\ x ∈ l.
Proof.
  rewrite <-!occurs_pos, occurs_unlink. destruct (Nat.eqb_spec x y); split; [lia|tauto|auto|tauto].
Qed.

Lemma NoDup_unlink y l : NoDup l -> NoDup (unlink y l).
Proof.
  rewrite !occurs_NoDup. intros H x. rewrite occurs_unlink. case_match; [lia|apply H].
Qed.

Lemma unlink_head r l : occurs r (r :: l) = 1%nat -> unlink r (r :: l) = l.
Proof.
  unfold unlink; cbn. rewrite Nat.eqb_refl; cbn. intros [= Hz%occurs_zero].
  induction l as [|y l IH]; cbn; [done|]. apply not_elem_of_cons in Hz as [Hy Hl].
  rewrite (proj2 (Nat.eqb_neq _ _) Hy). cbn. by rewrite IH.
Qed.

(** Removing a request that is once in a queue. *)
Lemma occurs_unlink_once x r l :
  occurs r l = 1%nat -> (occurs x (unlink r l) + occurs x [r] = occurs x l)%nat.
Proof.
  rewrite occurs_unlink, occurs_singleton. destruct (Nat.eqb_spec x r) as [->|]; lia.
Qed.

Lemma upd_rqcb_eq i f w q : rqcbs w !! i = Some q ->
  upd_rqcb i f w = Some (set_rqcbs (<[i:=f q]> (rqcbs w)) w).
Proof. intros H. unfold upd_rqcb. by rewrite H. Qed.

Lemma upd_pcb_eq p f w pc : pcb w !! p = Some (Some pc) ->
  upd_pcb p f w = Some (set_pcb (<[p:=Some (f pc)]> (pcb w)) w).
Proof. intros H. unfold upd_pcb. by rewrite H. Qed.

Lemma upd_thread_eq t f w th : threads w !! t = Some th ->
  upd_thread t f w = Some (set_threads (<[t:=f th]> (threads w)) w).
Proof. intros H. unfold upd_thread. by rewrite H. Qed.

Lemma upd_request_eq r f w rq : requests w !! r = Some rq ->
  upd_request r f w = Some (set_requests (<[r:=f rq]> (requests w)) w).
Proof. intros H. unfold upd_request. by rewrite H. Qed.

Lemma get_pcb_eq p w pc : pcb w !! p = Some (Some pc) -> get_pcb p w = Some pc.
Proof. intros H. unfold get_pcb. by rewrite H. Qed.

(** Shape of an updated state. *)

Lemma wf_rqcb w i q' : wf w -> (i < length (rqcbs w))%nat -> rqcb_ok (length (rqcbs w)) q' ->
  wf (set_rqcbs (<[i:=q']> (rqcbs w)) w).
Proof.
  unfold wf; cbn; intros (Hq & Hd & Hp & Ha & Ht) Hi Hq'. rewrite !length_insert. destruct Hp as (? & ? & ?).
  split_and!; try done; try apply Ha. by apply Forall_insert.
Qed.

Lemma wf_pcb w p pc pc' : wf w -> pcb w !! p = Some (Some pc) -> pcb_ok (length (rqcbs w)) pc' ->
  first_rqcbp pc' = first_rqcbp pc -> (tmp_request_head pc' <> [] -> p ∈ apq w) ->
  wf (set_pcb (<[p:=Some pc']> (pcb w)) w).
Proof.
  unfold wf; cbn; intros (Hq & Hd & (Hl & Hp & Hf) & (Hn & Hin & Htmp) & Ht) Hpc Hpc' Hfst Hmem.
  pose proof (lookup_lt_Some _ _ _ Hpc) as Hi.
  assert (forall p' pc1, <[p:=Some pc']> (pcb w) !! p' = Some (Some pc1) ->
    exists pc2, pcb w !! p' = Some (Some pc2) /\ first_rqcbp pc1 = first_rqcbp pc2) as Hlk.
  { intros p' pc1. destruct (decide (p = p')) as [<-|Hne].
    - rewrite list_lookup_insert_eq by done. intros [= <-]. eauto.
    - rewrite list_lookup_insert_ne by done. eauto. }
  rewrite length_insert. repeat split; auto.
  - by apply Forall_insert.
  - intros p1 p2 pc1 pc2 H1 H2 E. destruct (Hlk _ _ H1) as (? & ? & ?), (Hlk _ _ H2) as (? & ? & ?).
    eapply Hf; eauto. congruence.
  - intros p' Hp'. destruct (decide (p = p')) as [<-|Hne].
    + rewrite list_lookup_insert_eq by done. eauto.
    + rewrite list_lookup_insert_ne by done. auto.
  - intros p' pc1. destruct (decide (p = p')) as [<-|Hne].
    + rewrite list_lookup_insert_eq by done. intros [= <-]. done.
    + rewrite list_lookup_insert_ne by done. apply Htmp.
Qed.

Lemma wf_thread w t th' : wf w -> thread_ok (length (rqcbs w)) th' ->
  wf (set_threads (<[t:=th']> (threads w)) w).
Proof.
  unfold wf; cbn; intros (Hq & Hd & Hp & Ha & Ht) Hth.
  split_and!; try done; try apply Hp; try apply Ha. by apply Forall_insert.
Qed.

Lemma wf_done w q : wf w -> queue_len q = u32 (Z.of_nat (length (request_head q))) ->
  wf (set_done_rqcb q w).
Proof. unfold wf; cbn; tauto. Qed.

Lemma wf_apq w l : wf w -> apq_ok (pcb w) l -> wf (set_apq l w).
Proof. unfold wf; cbn; tauto. Qed.

Lemma wf_stage w i q : wf w -> rqcbs w !! i = Some q -> rqcb_ok (length (rqcbs w)) q.
Proof. intros (Hq & _) H. eapply Forall_lookup_1; eauto. Qed.

Lemma wf_get_pcb w p pc : wf w -> pcb w !! p = Some (Some pc) -> pcb_ok (length (rqcbs w)) pc.
Proof. intros (_ & _ & (_ & Hp & _) & _) H. eapply (Forall_lookup_1 _ _ _ _ Hp) in H. done. Qed.

Lemma wf_get_thread w t th : wf w -> threads w !! t = Some th -> thread_ok (length (rqcbs w)) th.
Proof. intros (_ & _ & _ & _ & Ht) H. eapply Forall_lookup_1; eauto. Qed.

(** Where a request is, after an update. *)

Arguments occ_stages : simpl never.
Arguments occ_tmp : simpl never.
Arguments occ_threads : simpl never.

(** Arithmetic on occurrence counts. *)
Ltac occ_lia :=
  unfold occ in *; cbn -[rqcb_push rqcb_drop] in *; unfold rqcb_push, rqcb_drop in *; cbn in *;
  rewrite ?occurs_app in *; cbn [occurs] in *; lia.

Lemma occ_rqcb x w i q q' : rqcbs w !! i = Some q ->
  (occ x (set_rqcbs (<[i:=q']> (rqcbs w)) w) + occurs x (request_head q) = occ x w + occurs x (request_head q'))%nat.
Proof.
  intros H. pose proof (sum_list_with_insert (fun q => occurs x (request_head q)) _ _ _ q' H).
  unfold occ, occ_stages; cbn in *. lia.
Qed.

Lemma occ_pcb x w p pc pc' : pcb w !! p = Some (Some pc) ->
  (occ x (set_pcb (<[p:=Some pc']> (pcb w)) w) + occurs x (tmp_request_head pc)
   = occ x w + occurs x (tmp_request_head pc'))%nat.
Proof.
  intros H. pose proof (sum_list_with_insert
    (fun op => match op with Some pc => occurs x (tmp_request_head pc) | None => O end) _ _ _ (Some pc') H).
  unfold occ, occ_tmp; cbn in *. lia.
Qed.

Lemma occ_thread x w t th th' : threads w !! t = Some th ->
  (occ x (set_threads (<[t:=th']> (threads w)) w) + occurs x (pc_list (t_pc th)) = occ x w + occurs x (pc_list (t_pc th')))%nat.
Proof.
  intros H. pose proof (sum_list_with_insert (fun th => occurs x (pc_list (t_pc th))) _ _ _ th' H).
  unfold occ, occ_threads; cbn in *. lia.
Qed.

Lemma occ_done x w q :
  (occ x (set_done_rqcb q w) + occurs x (request_head (done_rqcb w)) = occ x w + occurs x (request_head q))%nat.
Proof. unfold occ; cbn. lia. Qed.

Lemma occ_head_le x w i q : rqcbs w !! i = Some q -> (occurs x (request_head q) <= occ x w)%nat.
Proof.
  intros H. pose proof (sum_list_with_lookup (fun q => occurs x (request_head q)) _ _ _ H).
  unfold occ, occ_stages; cbn in *. lia.
Qed.

Lemma occ_busy_le x w t th : threads w !! t = Some th -> (occurs x (pc_list (t_pc th)) <= occ x w)%nat.
Proof.
  intros H. pose proof (sum_list_with_lookup (fun th => occurs x (pc_list (t_pc th))) _ _ _ H).
  unfold occ, occ_threads; cbn in *. lia.
Qed.

(** * Moves

    [moves out inn w w'] : between [w] and [w'] the requests [out] left the
    queues and the workers and the requests [inn] entered them; the shape is
    kept, and so are the set of requests, their connections and the counter. *)
Definition moves (out inn : list nat) (w w' : world) : Prop :=
  wf w' /\ (length (rqcbs w') = length (rqcbs w) /\ length (threads w') = length (threads w)) /\
  owners w' = owners w /\ conns w' = conns w /\ pipeline_queue_len w' = pipeline_queue_len w /\
  forall x, (occ x w' + occurs x out = occ x w + occurs x inn)%nat.

Lemma moves_trans o1 i1 o2 i2 w w1 w2 :
  moves o1 i1 w w1 -> moves o2 i2 w1 w2 -> moves (o1 ++ o2) (i1 ++ i2) w w2.
Proof.
  intros (_ & [Hl1 Ht1] & Ho1 & Hc1 & Hn1 & Hx1) (Hw & [Hl2 Ht2] & Ho2 & Hc2 & Hn2 & Hx2).
  split_and!; try congruence.
  intros x. specialize (Hx1 x). specialize (Hx2 x). rewrite !occurs_app. lia.
Qed.

Lemma size_owners w : size (owners w) = size (requests w).
Proof. apply map_size_fmap. Qed.

Lemma live_owners r w : live r (owners w) = live r (requests w).
Proof. unfold live, owners. rewrite lookup_fmap. by destruct (requests w !! r). Qed.

(** A step that moves requests around keeps the invariant. *)
Lemma moves_pinv out inn w w' :
  pinv w -> (forall x, occurs x out = occurs x inn) -> moves out inn w w' -> pinv w'.
Proof.
  intros (_ & Hh & Hocc & Hn) Hio (Hw & _ & Ho & Hc & Hn' & Hx).
  split_and!; [done|by rewrite Ho, Hc|split].
  - intros r. specialize (Hx r). specialize (Hocc r). specialize (Hio r).
    rewrite <-live_owners, Ho, live_owners. lia.
  - by rewrite Hn', Hn, <-!size_owners, Ho.
Qed.

Lemma owners_upd_request r f w rq :
  requests w !! r = Some rq -> csp (f rq) = csp rq ->
  owners (set_requests (<[r:=f rq]> (requests w)) w) = owners w.
Proof.
  intros H Hc. unfold owners; cbn. rewrite fmap_insert, Hc. apply insert_id. by rewrite lookup_fmap, H.
Qed.

Lemma moves_upd_request r f w rq :
  wf w -> requests w !! r = Some rq -> csp (f rq) = csp rq ->
  moves [] [] w (set_requests (<[r:=f rq]> (requests w)) w).
Proof. intros Hw H Hc. split_and!; try done. by apply owners_upd_request. Qed.

Lemma rqcb_push_ok n r q : rqcb_ok n q -> rqcb_ok n (rqcb_push r q).
Proof.
  intros [Hl Hn]. split; [|done]. cbn. rewrite Hl, u32_add_l, length_app; cbn. f_equal. lia.
Qed.

Lemma rqcb_drop_ok n r q : occurs r (request_head q) = 1%nat -> rqcb_ok n q -> rqcb_ok n (rqcb_drop r q).
Proof.
  intros H [Hl Hn]. split; [|done]. cbn. rewrite Hl, u32_sub_l. pose proof (length_unlink r (request_head q)).
  f_equal. lia.
Qed.

(** Entering the done queue. *)
Lemma moves_to_done rc r w : wf w -> lock_rc rc = 0 -> moves [] [r] w (to_done_stage rc r w).
Proof.
  intros Hw Hrc. unfold to_done_stage. rewrite Hrc. cbn.
  set (q := set_rqst_num _ _). set (w1 := set_done_rqcb q w).
  assert (moves [] [r] w w1) as Hm.
  { subst w1 q. split_and!; try done.
    - apply wf_done; [done|]. cbn. destruct Hw as (_ & -> & _).
      rewrite u32_add_l, length_app; cbn. f_equal. lia.
    - intros x. pose proof (occ_done x w (set_rqst_num (u32 (rqst_num (done_rqcb w) + 1)) (rqcb_push r (done_rqcb w)))) as H. occ_lia. }
  unfold signal_done. destruct (done_signalled w1); [done|exact Hm].
Qed.

(** Entering a stage. *)
Lemma moves_to_next rc i r w rq :
  wf w -> lock_rc rc = 0 -> (i < length (rqcbs w))%nat -> requests w !! r = Some rq ->
  exists w', to_next_stage rc i r w = Some w' /\ moves [] [r] w w'.
Proof.
  intros Hw Hrc Hi Hr. destruct (lookup_lt_is_Some_2 _ _ Hi) as [q Hq].
  unfold to_next_stage. rewrite Hrc. cbn. rewrite (upd_rqcb_eq _ _ _ _ Hq). cbn.
  erewrite upd_request_eq by exact Hr. eexists; split; [done|].
  split_and!; try done.
  - apply (wf_rqcb w); [done..|]. apply rqcb_push_ok. by eapply wf_stage.
  - cbn. by rewrite length_insert.
  - by apply (owners_upd_request r (fun rq => set_nstage (u32 (nstage rq + 1)) rq) w).
  - intros x. pose proof (occ_rqcb x w i q (set_request_count (u64 (request_count q + 1)) (rqcb_push r q)) Hq) as H. occ_lia.
Qed.

(** A thread that changes its state. *)
Lemma moves_thread w t f th :
  wf w -> threads w !! t = Some th -> t_rqcb (f th) = t_rqcb th ->
  in_range (length (rqcbs w)) (t_next_rqcbp (f th)) ->
  exists w', upd_thread t f w = Some w' /\ threads w' !! t = Some (f th) /\ rqcbs w' = rqcbs w /\
    requests w' = requests w /\ moves (pc_list (t_pc th)) (pc_list (t_pc (f th))) w w'.
Proof.
  intros Hw Ht Hq Hn. eexists; split; [by apply upd_thread_eq|].
  pose proof (lookup_lt_Some _ _ _ Ht). unfold moves. split_and!; try done.
  - cbn. by apply list_lookup_insert_eq.
  - apply (wf_thread w); [done|]. split; [|done]. rewrite Hq. by eapply wf_get_thread.
  - cbn. by rewrite length_insert.
  - intros x. pose proof (occ_thread x w t th (f th) Ht). lia.
Qed.

(** A change of a thread that keeps what it holds. *)
Lemma moves_thread_quiet w t f th :
  wf w -> threads w !! t = Some th -> t_rqcb (f th) = t_rqcb th ->
  in_range (length (rqcbs w)) (t_next_rqcbp (f th)) -> pc_list (t_pc (f th)) = pc_list (t_pc th) ->
  exists w', upd_thread t f w = Some w' /\ threads w' !! t = Some (f th) /\ rqcbs w' = rqcbs w /\
    requests w' = requests w /\ moves [] [] w w'.
Proof.
  intros Hw Ht Hq Hn Hpc. destruct (moves_thread w t f th Hw Ht Hq Hn) as (w' & E & H1 & H2 & H3 & Hm).
  exists w'. split_and!; try done. destruct Hm as (?&?&?&?&?&Hx). split_and!; try tauto.
  intros x. specialize (Hx x). rewrite Hpc in Hx. cbn. lia.
Qed.

(** A request leaving a stage. *)
Lemma moves_drop w i r q :
  wf w -> rqcbs w !! i = Some q -> occurs r (request_head q) = 1%nat ->
  exists w', upd_rqcb i (rqcb_drop r) w = Some w' /\ threads w' = threads w /\
    requests w' = requests w /\ moves [r] [] w w'.
Proof.
  intros Hw Hq Hr. eexists; split; [by apply upd_rqcb_eq|]. unfold moves. split_and!; try done.
  - apply (wf_rqcb w); [done|by eapply lookup_lt_Some|]. apply rqcb_drop_ok; [done|by eapply wf_stage].
  - cbn. by rewrite length_insert.
  - intros x. pose proof (occ_rqcb x w i q (rqcb_drop r q) Hq).
    pose proof (occurs_unlink_once x r _ Hr). occ_lia.
Qed.

Lemma threads_to_done rc r w : threads (to_done_stage rc r w) = threads w.
Proof. unfold to_done_stage, signal_done. by repeat case_match. Qed.

Lemma requests_to_done rc r w : requests (to_done_stage rc r w) = requests w.
Proof. unfold to_done_stage, signal_done. by repeat case_match. Qed.

Lemma rqcbs_to_done rc r w : rqcbs (to_done_stage rc r w) = rqcbs w.
Proof. unfold to_done_stage, signal_done. by repeat case_match. Qed.

Lemma moves_wf o i w w' : moves o i w w' -> wf w'.
Proof. by intros (? & _). Qed.

(** What a queued request of an accounted state is. *)
Lemma pinv_head w i q r l :
  pinv w -> rqcbs w !! i = Some q -> request_head q = r :: l ->
  occurs r (request_head q) = 1%nat /\ exists rq, requests w !! r = Some rq.
Proof.
  intros (_ & _ & Hocc & _) Hq Hr. pose proof (occ_head_le r w i q Hq) as Hle.
  specialize (Hocc r). unfold live in Hocc. rewrite Hr in *. cbn in *. rewrite Nat.eqb_refl in *.
  destruct (requests w !! r); [|lia]. split; [lia|eauto].
Qed.

Lemma pinv_busy w t th r :
  pinv w -> threads w !! t = Some th -> t_pc th = PcBusy r -> exists rq, requests w !! r = Some rq.
Proof.
  intros (_ & _ & Hocc & _) Ht Hpc. pose proof (occ_busy_le r w t th Ht) as Hle.
  specialize (Hocc r). unfold live in Hocc. rewrite Hpc in Hle. cbn in *. rewrite Nat.eqb_refl in *.
  destruct (requests w !! r); [eauto|lia].
Qed.

(** [worker_take] from a thread that holds nothing. *)
Lemma worker_take_pinv w t th i q r l :
  pinv w -> threads w !! t = Some th -> pc_list (t_pc th) = [] ->
  rqcbs w !! i = Some q -> request_head q = r :: l ->
  exists w', worker_take rc_ok t i r w = Some w' /\ pinv w'.
Proof.
  intros Hinv Ht Hpc Hq Hr. destruct (pinv_head w i q r l Hinv Hq Hr) as [H1 [rq Hrq]].
  assert (wf w) as Hw by apply Hinv. destruct (wf_get_thread _ _ _ Hw Ht) as [Hi Hn].
  unfold worker_take. rewrite Hq, Hrq. cbn. case_match.
  { destruct (moves_thread w t (set_t_pc PcLoop) th) as (w' & -> & _ & _ & _ & Hm); try done.
    rewrite Hpc in Hm. eauto using moves_pinv. }
  destruct (moves_drop w i r q Hw Hq H1) as (w1 & -> & Ht1 & Hr1 & Hm1). cbn.
  assert (wf w1) as Hw1 by (by eapply moves_wf).
  assert (length (rqcbs w1) = length (rqcbs w)) as Hl1 by apply Hm1.
  case_match.
  - rewrite (upd_request_eq r _ w1 rq) by congruence. cbn.
    pose proof (moves_upd_request r (set_flags REQUEST_TIME_OUT) w1 rq Hw1 ltac:(congruence) eq_refl) as Hm2.
    pose proof (moves_to_done rc_ok r _ (moves_wf _ _ _ _ Hm2) eq_refl) as Hm3.
    edestruct (moves_thread _ t (set_t_pc PcLoop) th (moves_wf _ _ _ _ Hm3)) as (w' & -> & _ & _ & _ & Hm4).
    { by rewrite threads_to_done; cbn; rewrite Ht1. }
    { done. }
    { rewrite rqcbs_to_done. cbn. by rewrite Hl1. }
    rewrite Hpc in Hm4. eexists; split; [done|].
    eapply (moves_pinv _ _ w); [done| |exact (moves_trans _ _ _ _ _ _ _ Hm1
      (moves_trans _ _ _ _ _ _ _ Hm2 (moves_trans _ _ _ _ _ _ _ Hm3 Hm4)))]. done.
  - edestruct (moves_thread w1 t (fun th => set_t_pc (PcBusy r) (set_t_cur_rqst (Some r) (set_t_status THREAD_BUSY th))) th)
      as (w' & -> & _ & _ & _ & Hm4); [done|congruence|done|cbn; by rewrite Hl1|].
    rewrite Hpc in Hm4. cbn in Hm4. eexists; split; [done|].
    eapply (moves_pinv _ _ w); [done| |exact (moves_trans _ _ _ _ _ _ _ Hm1 Hm4)]. done.
Qed.

(** No request passed 256 stages, so the loop test does nothing. *)
Lemma check_loop_skip rc r w rq :
  requests w !! r = Some rq -> nstage rq <= MAX_STAGE_JUMP -> check_loop rc r w = Some w.
Proof. intros H Hn. unfold check_loop. rewrite H. cbn. case_match; bool_props; [lia|done]. Qed.

Lemma threads_to_next rc i r w w' : to_next_stage rc i r w = Some w' -> threads w' = threads w.
Proof.
  unfold to_next_stage, upd_rqcb, upd_request. destruct (lock_rc rc =? 0); [|congruence].
  destruct (rqcbs w !! i); cbn; [|done]. destruct (requests w !! r); cbn; [|done]. by intros [= <-].
Qed.

(** [submit_next] puts the request in exactly one queue. *)
Lemma submit_next_moves w t th i r rq :
  wf w -> threads w !! t = Some th -> (i < length (rqcbs w))%nat ->
  requests w !! r = Some rq -> nstage rq <= MAX_STAGE_JUMP ->
  exists w' th', submit_next rc_ok t i r w = Some w' /\ threads w' !! t = Some th' /\
    t_pc th' = t_pc th /\ moves [] [r] w w'.
Proof.
  intros Hw Ht Hi Hrq Hn. pose proof (moves_to_done rc_ok r w Hw eq_refl) as Hd.
  assert (exists w' th', Some (to_done_stage rc_ok r w) = Some w' /\ threads w' !! t = Some th' /\
    t_pc th' = t_pc th /\ moves [] [r] w w') as Hdone.
  { eexists _, th. split_and!; try done. by rewrite threads_to_done. }
  unfold submit_next. rewrite Hrq. cbn -[to_done_stage check_loop].
  rewrite (check_loop_skip _ _ _ _ Hrq Hn). cbn -[to_done_stage check_loop].
  rewrite Ht. destruct (lookup_lt_is_Some_2 _ _ Hi) as [q Hq]. rewrite Hq.
  cbn -[to_done_stage check_loop].
  destruct (moves_thread_quiet w t (set_t_next_rqcbp None) th Hw Ht eq_refl I eq_refl)
    as (w2 & -> & Ht2 & Hr2 & Hrq2 & Hm2). cbn -[to_done_stage check_loop].
  case_match; [done|]. case_match; [|case_match; [done|]; case_match; [|done]].
  - destruct (match t_next_rqcbp th with Some j => Some j | None => next_rqcb q end) as [j|] eqn:Ej.
    + assert (j < length (rqcbs w))%nat.
      { destruct (wf_get_thread _ _ _ Hw Ht) as [_ Hnx]. destruct (wf_stage _ _ _ Hw Hq) as [_ Hnq].
        destruct (t_next_rqcbp th); simplify_eq/=; [done|]. by rewrite Ej in Hnq. }
      destruct (moves_to_next rc_ok j r w2 rq) as (w' & E & Hm3); [by eapply moves_wf|done|congruence..|].
      exists w', (set_t_next_rqcbp None th). split_and!; try done.
      * by rewrite (threads_to_next _ _ _ _ _ E).
      * exact (moves_trans _ _ _ _ _ _ _ Hm2 Hm3).
    + eexists _, (set_t_next_rqcbp None th). split_and!; try done.
      * by rewrite threads_to_done.
      * exact (moves_trans _ _ _ _ _ _ _ Hm2 (moves_to_done rc_ok r w2 (moves_wf _ _ _ _ Hm2) eq_refl)).
  - destruct (moves_to_next rc_ok i r w rq) as (w' & E & Hm3); [done..|].
    exists w', th. split_and!; try done. by rewrite (threads_to_next _ _ _ _ _ E).
Qed.

(** The handler branch of [worker_run]. *)
Lemma handler_moves w t th r rq out :
  wf w -> threads w !! t = Some th -> requests w !! r = Some rq -> nstage rq <= MAX_STAGE_JUMP ->
  (forall j, h_next out = Some j -> (j < length (rqcbs w))%nat) ->
  exists w' th', (w1 ← upd_request r (fun rq => set_err (h_errno out) (set_ret (i32 (h_ret out)) rq)) w;
      w2 ← (match h_next out with
            | Some j => upd_thread t (set_t_next_rqcbp (Some j)) w1
            | None => Some w1 end);
      submit_next rc_ok t (t_rqcb th) r w2) = Some w' /\ threads w' !! t = Some th' /\
    t_pc th' = t_pc th /\ moves [] [r] w w'.
Proof.
  intros Hw Ht Hrq Hn Hnx. destruct (wf_get_thread _ _ _ Hw Ht) as [Hi Htn].
  rewrite (upd_request_eq _ _ _ _ Hrq). cbn -[submit_next].
  set (rq1 := set_err _ _). set (w1 := set_requests _ _).
  assert (moves [] [] w w1) as Hm1 by (by apply (moves_upd_request r (fun _ => rq1) w rq)).
  assert (exists w2 th2, match h_next out with
            | Some j => upd_thread t (set_t_next_rqcbp (Some j)) w1
            | None => Some w1 end = Some w2 /\ threads w2 !! t = Some th2 /\ t_pc th2 = t_pc th /\
            rqcbs w2 = rqcbs w1 /\ requests w2 = requests w1 /\ moves [] [] w1 w2) as (w2 & th2 & -> & Ht2 & Hp2 & Hq2 & Hr2 & Hm2).
  { destruct (h_next out) as [j|]; [|by exists w1, th].
    destruct (moves_thread_quiet w1 t (set_t_next_rqcbp (Some j)) th) as (w2 & E & Ht2 & Hq2 & Hr2 & Hm2);
      [done..|by apply Hnx|done|]. eexists w2, _. split_and!; try done. }
  cbn -[submit_next].
  destruct (submit_next_moves w2 t th2 (t_rqcb th) r rq1) as (w' & th' & -> & Ht' & Hp' & Hm3).
  - by eapply moves_wf.
  - done.
  - by rewrite Hq2.
  - rewrite Hr2. apply lookup_insert_eq.
  - done.
  - exists w', th'. split_and!; try done; [congruence|].
    exact (moves_trans _ _ _ _ _ _ _ Hm1 (moves_trans _ _ _ _ _ _ _ Hm2 Hm3)).
Qed.

Lemma worker_run_pinv w t th r out :
  pinv w -> threads w !! t = Some th -> t_pc th = PcBusy r ->
  (forall j, h_next out = Some j -> (j < length (rqcbs w))%nat) ->
  (forall rq, requests w !! r = Some rq -> nstage rq <= MAX_STAGE_JUMP) ->
  exists w', worker_run rc_ok out t r w = Some w' /\ pinv w'.
Proof.
  intros Hinv Ht Hpc Hnx Hns. assert (wf w) as Hw by apply Hinv.
  destruct (pinv_busy w t th r Hinv Ht Hpc) as [rq Hrq]. destruct (wf_get_thread _ _ _ Hw Ht) as [Hi Htn].
  destruct (lookup_lt_is_Some_2 _ _ Hi) as [q Hq].
  unfold worker_run. rewrite Ht, Hrq. cbn -[submit_next to_done_stage]. rewrite Hq. cbn -[submit_next to_done_stage].
  match goal with |- exists w', (?m ≫= _) = _ /\ _ =>
    assert (exists w3 th3, m = Some w3 /\ threads w3 !! t = Some th3 /\ t_pc th3 = t_pc th /\ moves [] [r] w w3)
      as (w3 & th3 & -> & Ht3 & Hp3 & Hm3) end.
  { pose proof (moves_to_done rc_ok r w Hw eq_refl) as Hd. case_match; [case_match; [case_match|]|].
    - by apply (handler_moves w t th r rq out); auto.
    - eexists _, th. split_and!; [done| |done|done]. by rewrite threads_to_done.
    - eexists _, th. split_and!; [done| |done|done]. by rewrite threads_to_done.
    - rewrite (upd_request_eq _ _ _ _ Hrq). cbn -[to_done_stage]. eexists _, th. split_and!; [done| |done|].
      + by rewrite threads_to_done.
      + pose proof (moves_upd_request r (fun rq => set_err 0 (set_ret 0 rq)) w rq Hw Hrq eq_refl) as Hm1.
        exact (moves_trans _ _ _ _ _ _ _ Hm1 (moves_to_done rc_ok r _ (moves_wf _ _ _ _ Hm1) eq_refl)). }
  cbn. destruct (moves_thread w3 t (fun th => set_t_pc PcLoop (set_t_status THREAD_DONE
                   (set_t_rqst_num (u64 (t_rqst_num th + 1)) th))) th3) as (w' & -> & _ & _ & _ & Hm4).
  - by eapply moves_wf.
  - done.
  - done.
  - cbn. by eapply (wf_get_thread _ _ _ (moves_wf _ _ _ _ Hm3)).
  - exists w'; split; [done|]. rewrite Hp3, Hpc in Hm4. cbn in Hm4.
    eapply (moves_pinv _ _ w); [done| |exact (moves_trans _ _ _ _ _ _ _ Hm3 Hm4)]. done.
Qed.

Lemma worker_loop_pinv w t th :
  pinv w -> threads w !! t = Some th -> t_pc th = PcLoop ->
  exists w', worker_loop rc_ok t w = Some w' /\ pinv w'.
Proof.
  intros Hinv Ht Hpc. assert (wf w) as Hw by apply Hinv. destruct (wf_get_thread _ _ _ Hw Ht) as [Hi Htn].
  unfold worker_loop.
  destruct (moves_thread_quiet w t (fun th => set_t_cur_rqst None (set_t_status THREAD_WAITING th)) th)
    as (w1 & -> & Ht1 & Hq1 & Hr1 & Hm1); [done..|]. cbn.
  assert (pinv w1) as Hinv1 by (by eapply moves_pinv).
  rewrite Ht1. cbn. rewrite Hq1. destruct (lookup_lt_is_Some_2 _ _ Hi) as [q Hq]. rewrite Hq. cbn.
  destruct (request_head q) as [|r l] eqn:Er.
  - edestruct (moves_thread_quiet w1 t (set_t_pc PcWait)) as (w2 & -> & _ & _ & _ & Hm2);
      [apply Hinv1|exact Ht1|done|cbn; by rewrite Hq1|cbn; by rewrite Hpc|].
    eauto using moves_pinv.
  - eapply worker_take_pinv; try done; [cbn; by rewrite Hpc|by rewrite Hq1].
Qed.

(** The exit of a thread. *)
Lemma thread_deinit_pinv w t th :
  pinv w -> threads w !! t = Some th -> pc_list (t_pc th) = [] ->
  exists w', thread_deinit t w = Some w' /\ pinv w'.
Proof.
  intros Hinv Ht Hpc. assert (wf w) as Hw by apply Hinv. destruct (wf_get_thread _ _ _ Hw Ht) as [Hi Htn].
  unfold thread_deinit.
  destruct (moves_thread_quiet w t (set_t_pc PcExited) th) as (w1 & -> & _ & _ & _ & Hm1); [done..|].
  assert (pinv w1) as Hinv1 by (by eapply moves_pinv).
  cbn. eexists; split; [done|]. case_match; exact Hinv1.
Qed.

Lemma worker_wake_pinv w t th :
  pinv w -> threads w !! t = Some th -> t_pc th = PcWait ->
  exists w', worker_wake rc_ok t w = Some w' /\ pinv w'.
Proof.
  intros Hinv Ht Hpc. unfold worker_wake. case_match.
  { eapply thread_deinit_pinv; try done. by rewrite Hpc. }
  destruct (wf_get_thread _ _ _ (proj1 Hinv) Ht) as [Hi _].
  rewrite Ht. cbn. destruct (lookup_lt_is_Some_2 _ _ Hi) as [q Hq]. rewrite Hq. cbn.
  destruct (request_head q) as [|r l] eqn:Er; [by exists w|].
  eapply worker_take_pinv; try done. by rewrite Hpc.
Qed.

(** * The temporary queues *)

(** The requests of the pipeline [p] that wait for its first stage, in order. *)
Definition backlog (p : nat) (w : world) : option (list nat) :=
  pc ← get_pcb p w; i ← first_rqcbp pc; q ← rqcbs w !! i;
  Some (request_head q ++ tmp_request_head pc).

(** The state after [concat_tmp]. *)
Definition joined (pc : PCB) (q : RQCB) : RQCB :=
  set_queue_len (u32 (queue_len q + tmp_queue_len pc)) (set_request_head (request_head q ++ tmp_request_head pc) q).

Definition emptied (pc : PCB) : PCB := set_tmp_queue_len 0 (set_tmp_request_head [] pc).

Definition joined_world (p i : nat) (pc : PCB) (q : RQCB) (w : world) : world :=
  set_apq (unlink p (apq w))
    (set_pcb (<[p:=Some (emptied pc)]> (pcb w)) (set_rqcbs (<[i:=joined pc q]> (rqcbs w)) w)).

Lemma concat_tmp_eq w p i pc q :
  pcb w !! p = Some (Some pc) -> rqcbs w !! i = Some q ->
  concat_tmp p i pc w = Some (joined_world p i pc q w).
Proof.
  intros Hp Hq. unfold concat_tmp. rewrite (upd_rqcb_eq _ _ _ _ Hq). cbn.
  erewrite upd_pcb_eq by exact Hp. done.
Qed.

Lemma joined_moves w p i pc q :
  wf w -> pcb w !! p = Some (Some pc) -> first_rqcbp pc = Some i -> rqcbs w !! i = Some q ->
  moves [] [] w (joined_world p i pc q w).
Proof.
  intros Hw Hp Hi Hq. pose proof (wf_get_pcb _ _ _ Hw Hp) as (Htl & j & Hj & Hlt). simplify_eq.
  destruct (wf_stage _ _ _ Hw Hq) as [Hl Hn]. unfold joined_world. set (w1 := set_rqcbs _ w).
  assert (wf w1) as Hw1.
  { apply wf_rqcb; [done..|]. split; [|done]. cbn. rewrite Hl, Htl, u32_add_l, length_app, Nat2Z.inj_add.
    unfold u32. by rewrite Zplus_mod_idemp_r. }
  assert (wf (set_pcb (<[p:=Some (emptied pc)]> (pcb w1)) w1)) as Hw2.
  { apply wf_pcb with pc; try done. split; [done|]. cbn. rewrite length_insert. eauto. }
  unfold moves. split_and!; try done.
  - eapply (wf_apq _ _ Hw2). destruct Hw2 as (_ & _ & _ & (Hnd & Hin & Htmp) & _). repeat split.
    + by apply NoDup_unlink.
    + intros p' [_ Hp']%elem_of_unlink. by apply Hin.
    + intros p' pc' H1 H2. apply elem_of_unlink. split; [|by eapply Htmp].
      intros ->. cbn in H1. rewrite list_lookup_insert_eq in H1 by (by eapply lookup_lt_Some).
      by simplify_eq.
  - cbn. by rewrite length_insert.
  - intros x. pose proof (occ_rqcb x w i q (joined pc q) Hq). pose proof (occ_pcb x w1 p pc (emptied pc) Hp).
    subst w1. occ_lia.
Qed.

Lemma backlog_eq w p pc i q :
  pcb w !! p = Some (Some pc) -> first_rqcbp pc = Some i -> rqcbs w !! i = Some q ->
  backlog p w = Some (request_head q ++ tmp_request_head pc).
Proof. intros H1 H2 H3. unfold backlog. rewrite (get_pcb_eq _ _ _ H1). cbn. rewrite H2. cbn. by rewrite H3. Qed.

Lemma joined_backlog w p i pc q p' :
  wf w -> pcb w !! p = Some (Some pc) -> first_rqcbp pc = Some i -> rqcbs w !! i = Some q ->
  backlog p' (joined_world p i pc q w) = backlog p' w.
Proof.
  intros Hw Hp Hi Hq. destruct (decide (p' = p)) as [->|Hne].
  - rewrite (backlog_eq w p pc i q) by done.
    erewrite (backlog_eq _ p (emptied pc) i (joined pc q)); cbn; [by rewrite app_nil_r| |done|].
    + apply list_lookup_insert_eq. by eapply lookup_lt_Some.
    + apply list_lookup_insert_eq. by eapply lookup_lt_Some.
  - unfold backlog, get_pcb. cbn. rewrite list_lookup_insert_ne by done.
    destruct (pcb w !! p') as [[pc'|]|] eqn:Hp'; cbn; [|done..].
    destruct (first_rqcbp pc') as [i'|] eqn:Hi'; cbn; [|done].
    rewrite list_lookup_insert_ne; [done|]. intros <-. apply Hne.
    destruct Hw as (_ & _ & (_ & _ & Hinj) & _). eapply Hinj; eauto. congruence.
Qed.

(** What the kick does not touch. *)
Definition same_requests (w w' : world) : Prop :=
  requests w' = requests w /\ final_request_head w' = final_request_head w /\
  done_rqcb w' = done_rqcb w /\ trace w' = trace w.

(** One iteration of the kick. *)
Lemma kick_one_spec busy w p pc :
  wf w -> pcb w !! p = Some (Some pc) ->
  exists w', kick_one busy w p = Some w' /\ moves [] [] w w' /\
    (forall p', is_Some (get_pcb p' w) -> is_Some (get_pcb p' w')) /\
    (forall p', backlog p' w' = backlog p' w) /\ same_requests w w'.
Proof.
  intros Hw Hp. unfold kick_one. rewrite (get_pcb_eq _ _ _ Hp). cbn.
  destruct (wf_get_pcb _ _ _ Hw Hp) as (_ & i & Hi & Hlt). destruct (lookup_lt_is_Some_2 _ _ Hlt) as [q Hq].
  destruct (tmp_request_head pc) as [|r l] eqn:Et.
  - eexists; split; [done|]. split; [|done].
    unfold moves. split_and!; try done. apply wf_apq; [done|].
    destruct Hw as (_ & _ & _ & (Hnd & Hin & Htmp) & _). repeat split.
    + by apply NoDup_unlink.
    + intros p' [_ Hp']%elem_of_unlink. by apply Hin.
    + intros p' pc' H1 H2. apply elem_of_unlink. split; [|by eapply Htmp]. intros ->. congruence.
  - rewrite Hi. cbn. destruct (busy i).
    + exists w. split_and!; try done.
    + rewrite (concat_tmp_eq _ _ _ _ _ Hp Hq). eexists; split; [done|].
      split; [by apply joined_moves|]. split; [|split; [by intros; apply joined_backlog|done]].
      intros p'. unfold get_pcb. cbn. destruct (decide (p = p')) as [<-|Hne].
      * rewrite list_lookup_insert_eq by (by eapply lookup_lt_Some). cbn. by eexists.
      * by rewrite list_lookup_insert_ne.
Qed.

Lemma get_pcb_Some p w : is_Some (get_pcb p w) <-> exists pc, pcb w !! p = Some (Some pc).
Proof.
  unfold get_pcb. destruct (pcb w !! p) as [[pc|]|]; cbn; split; eauto; intros [? ?]; done.
Qed.

Lemma kick_loop_spec busy l w :
  wf w -> (forall p, p ∈ l -> is_Some (get_pcb p w)) ->
  exists w', for_each (kick_one busy) w l = Some w' /\ moves [] [] w w' /\
    (forall p, backlog p w' = backlog p w) /\ same_requests w w'.
Proof.
  revert w; induction l as [|p l IH]; intros w Hw Hl; cbn.
  { by exists w. }
  destruct (proj1 (get_pcb_Some p w) (Hl p ltac:(left))) as [pc Hp].
  destruct (kick_one_spec busy w p pc Hw Hp) as (w1 & -> & Hm1 & Hs1 & Hb1 & Hu1). cbn.
  destruct (IH w1) as (w2 & -> & Hm2 & Hb2 & Hu2).
  - by eapply moves_wf.
  - intros p' Hp'. apply Hs1, Hl. by right.
  - exists w2. split; [done|]. split; [exact (moves_trans _ _ _ _ _ _ _ Hm1 Hm2)|].
    destruct Hu1 as (? & ? & ? & ?), Hu2 as (? & ? & ? & ?). unfold same_requests. split_and!; congruence.
Qed.

Lemma kick_request_queue_spec busy w :
  wf w -> exists w', kick_request_queue busy w = Some w' /\ moves [] [] w w' /\
    (forall p, backlog p w' = backlog p w) /\ same_requests w w'.
Proof.
  intros Hw. apply kick_loop_spec; [done|]. intros p Hp. apply get_pcb_Some.
  destruct Hw as (_ & _ & _ & (_ & Hin & _) & _). auto.
Qed.

(** * Reference counts *)

Lemma refs_insert c r oc os : os !! r = None ->
  refs c (<[r:=oc]> os) = ((if decide (oc = Some c) then 1 else 0) + refs c os)%nat.
Proof.
  intros H. unfold refs. destruct (decide (oc = Some c)) as [E|E].
  - rewrite map_filter_insert_True by done. rewrite map_size_insert_None; [done|].
    apply map_lookup_filter_None. by left.
  - rewrite map_filter_insert_False by done. by rewrite delete_id.
Qed.

Lemma refs_delete c r oc os : os !! r = Some oc ->
  refs c os = ((if decide (oc = Some c) then 1 else 0) + refs c (delete r os))%nat.
Proof.
  intros H. rewrite <-(insert_delete_id os r oc H) at 1. apply refs_insert, lookup_delete_eq.
Qed.

(** A new request holds its connection. *)
Lemma heap_hold os cs r c st : heap_ok os cs -> os !! r = None -> cs !! c = Some st -> ref_cnt st < 2 ^ 64 - 1 ->
  heap_ok (<[r:=Some c]> os) (<[c:=set_ref_cnt (u64 (ref_cnt st + 1)) st]> cs).
Proof.
  intros [H1 H2] Hr Hc Hb. destruct (H2 _ _ Hc) as [? ?]. split.
  - intros r' oc. destruct (decide (r = r')) as [<-|Hne].
    + rewrite lookup_insert_eq. intros [= <-]. eexists c, _. by rewrite lookup_insert_eq.
    + rewrite lookup_insert_ne by done. intros (c' & st' & -> & Hst')%H1.
      exists c', (if decide (c = c') then set_ref_cnt (u64 (ref_cnt st + 1)) st else st'). split; [done|].
      destruct (decide (c = c')) as [<-|].
      * by apply lookup_insert_eq.
      * by rewrite lookup_insert_ne.
  - intros c' st'. rewrite refs_insert by done. destruct (decide (c = c')) as [<-|Hne].
    + rewrite lookup_insert_eq, decide_True by done. intros [= <-]. cbn -[Z.of_nat]. rewrite u64_small by lia. lia.
    + rewrite lookup_insert_ne, decide_False by congruence. apply H2.
Qed.

(** A finished request gives its reference back; the last one frees the
    connection. *)
Definition released (c : nat) (st : CONN_STATE) (cs : gmap nat CONN_STATE) : gmap nat CONN_STATE :=
  if u64 (ref_cnt st - 1) =? 0 then delete c cs else <[c:=set_ref_cnt (u64 (ref_cnt st - 1)) st]> cs.

Lemma heap_drop_ref os cs os' c st :
  heap_ok os cs -> cs !! c = Some st -> Z.of_nat (refs c os') < ref_cnt st ->
  (forall r oc, os' !! r = Some oc -> os !! r = Some oc) -> (forall c', (refs c' os' <= refs c' os)%nat) ->
  heap_ok os' (released c st cs).
Proof.
  intros [H1 H2] Hc Hlt Hsub Hle. destruct (H2 _ _ Hc) as [? ?]. unfold released.
  rewrite u64_small by lia. split.
  - intros r oc Hr. destruct (H1 _ _ (Hsub _ _ Hr)) as (c' & st' & -> & Hst').
    destruct (decide (c = c')) as [<-|Hne].
    + case_match; bool_props; [|eexists c, _; split; [done|]; apply lookup_insert_eq].
      rewrite (refs_delete _ _ _ _ Hr), decide_True in Hlt by done. lia.
    + exists c', st'. split; [done|].
      case_match; [rewrite lookup_delete_ne|rewrite lookup_insert_ne]; done.
  - intros c' st' Hst'. specialize (Hle c'). destruct (decide (c = c')) as [<-|Hne].
    + case_match; bool_props; [by rewrite lookup_delete_eq in Hst'|].
      rewrite lookup_insert_eq in Hst'. simplify_eq. cbn -[Z.of_nat]. lia.
    + assert (cs !! c' = Some st') as [? ?]%H2; [|lia].
      case_match; [rewrite lookup_delete_ne in Hst'|rewrite lookup_insert_ne in Hst']; done.
Qed.

Lemma CS_RELE_eq c st w : conns w !! c = Some st ->
  exists tr, CS_RELE c w = Some (set_trace (trace w ++ tr) (set_conns (released c st (conns w)) w)) /\
    tr = (if u64 (ref_cnt st - 1) =? 0 then [EvFreeConn c] else []).
Proof.
  intros H. unfold CS_RELE, released. rewrite H. cbn. case_match; eexists; split; try done.
  rewrite app_nil_r. by destruct w.
Qed.

(** * Submission *)

(** [enqueued p r w w'] : the new request [r] is at the end of the backlog of the
    pipeline [p], and counted. *)
Definition enqueued (p r : nat) (w w' : world) : Prop :=
  wf w' /\ requests w' = requests w /\ conns w' = conns w /\ length (rqcbs w') = length (rqcbs w) /\
  pipeline_queue_len w' = u64 (pipeline_queue_len w + 1) /\
  (forall x, occ x w' = occ x w + occurs x [r])%nat /\
  (exists l, backlog p w = Some l /\ backlog p w' = Some (l ++ [r])) /\
  (forall p', p' <> p -> backlog p' w' = backlog p' w).

Lemma apq_add ps p pc l : apq_ok ps l -> ps !! p = Some (Some pc) ->
  apq_ok ps (if bool_decide (p ∈ l) then l else l ++ [p]).
Proof.
  intros (Hn & Hin & Htmp) Hp. case_bool_decide as Hm; [done|]. repeat split.
  - apply list.NoDup_app. split_and!; [done| |apply NoDup_singleton].
    intros x Hx ->%list_elem_of_singleton. done.
  - intros p' [H| ->%list_elem_of_singleton]%elem_of_app; eauto.
  - intros p' pc' H1 H2. apply elem_of_app. left. eauto.
Qed.

(** The locked branch. *)
Lemma send_blocked_spec p i r w pc q :
  wf w -> pcb w !! p = Some (Some pc) -> first_rqcbp pc = Some i -> rqcbs w !! i = Some q ->
  exists w', send_blocked p r w = Some w' /\ enqueued p r w w'.
Proof.
  intros Hw Hp Hi Hq. destruct (wf_get_pcb _ _ _ Hw Hp) as [Hl Hf]. pose proof (lookup_lt_Some _ _ _ Hp) as Hlt.
  unfold send_blocked. rewrite (upd_pcb_eq _ _ _ _ Hp). cbn. set (pc' := set_tmp_queue_len _ _).
  set (l' := if bool_decide (p ∈ apq w) then apq w else apq w ++ [p]).
  assert (apq_ok (pcb w) l') as Hapq by (eapply apq_add; [apply Hw|done]).
  set (w2 := set_apq l' (set_pcb (<[p:=Some pc']> (pcb w)) w)).
  assert (wf w2) as Hw2.
  { apply (wf_pcb (set_apq l' w) p pc pc').
    - by apply wf_apq.
    - done.
    - split; [|done]. cbn. rewrite Hl, u32_add_l, length_app. cbn. f_equal. lia.
    - done.
    - intros _. subst l'. cbn. case_bool_decide; [done|]. apply elem_of_app. right. by left. }
  exists (set_pipeline_queue_len (u64 (pipeline_queue_len w + 1)) w2). split.
  { subst w2 l'. case_bool_decide; [|done]. by destruct w. }
  unfold enqueued. split_and!; try done.
  - intros x. pose proof (occ_pcb x w p pc pc' Hp). subst pc' w2. occ_lia.
  - exists (request_head q ++ tmp_request_head pc). split; [by eapply backlog_eq|].
    rewrite (backlog_eq _ p pc' i q); [cbn; by rewrite app_assoc| |done|done].
    by apply list_lookup_insert_eq.
  - intros p' Hne. unfold backlog, get_pcb. cbn. by rewrite list_lookup_insert_ne.
Qed.

(** The insertion at the tail of the first stage. *)
Lemma push_first_spec p i r w pc q :
  wf w -> pcb w !! p = Some (Some pc) -> first_rqcbp pc = Some i -> rqcbs w !! i = Some q ->
  tmp_request_head pc = [] ->
  enqueued p r w (set_pipeline_queue_len (u64 (pipeline_queue_len w + 1))
                    (set_rqcbs (<[i:=rqcb_push r q]> (rqcbs w)) w)).
Proof.
  intros Hw Hp Hi Hq Ht. pose proof (lookup_lt_Some _ _ _ Hq) as Hlt. unfold enqueued. split_and!; try done.
  - apply (wf_rqcb w); [done..|]. apply rqcb_push_ok. by eapply wf_stage.
  - cbn. by rewrite length_insert.
  - intros x. pose proof (occ_rqcb x w i q (rqcb_push r q) Hq). occ_lia.
  - exists (request_head q). rewrite (backlog_eq w p pc i q), Ht, app_nil_r by done. split; [done|].
    rewrite (backlog_eq _ p pc i (rqcb_push r q)); [by rewrite Ht, app_nil_r|done..|].
    cbn. by apply list_lookup_insert_eq.
  - intros p' Hne. unfold backlog, get_pcb. cbn.
    destruct (pcb w !! p') as [[pc'|]|] eqn:Hp'; cbn; [|done..].
    destruct (first_rqcbp pc') as [i'|] eqn:Hi'; cbn; [|done].
    rewrite list_lookup_insert_ne; [done|]. intros <-. apply Hne.
    destruct Hw as (_ & _ & (_ & _ & Hinj) & _). eapply Hinj; eauto. congruence.
Qed.

(** The state in which [send_to_pipeline] holds the lock. *)
Lemma concat_spec p i w pc q (c : bool) :
  wf w -> pcb w !! p = Some (Some pc) -> first_rqcbp pc = Some i -> rqcbs w !! i = Some q ->
  c = match tmp_request_head pc with [] => false | _ => true end ->
  exists w1 pc1 q1, (if c then concat_tmp p i pc w else Some w) = Some w1 /\ moves [] [] w w1 /\
    (forall p', backlog p' w1 = backlog p' w) /\ pcb w1 !! p = Some (Some pc1) /\
    first_rqcbp pc1 = Some i /\ tmp_request_head pc1 = [] /\ rqcbs w1 !! i = Some q1 /\
    pipeline_queue_size w1 = pipeline_queue_size w /\ requests w1 = requests w.
Proof.
  intros Hw Hp Hi Hq ->. destruct (tmp_request_head pc) as [|r' l] eqn:Et.
  - exists w, pc, q. by split_and!.
  - rewrite (concat_tmp_eq _ _ _ _ _ Hp Hq). exists (joined_world p i pc q w), (emptied pc), (joined pc q).
    split_and!; try done.
    + by apply joined_moves.
    + intros. by apply joined_backlog.
    + cbn. apply list_lookup_insert_eq. by eapply lookup_lt_Some.
    + cbn. apply list_lookup_insert_eq. by eapply lookup_lt_Some.
Qed.

Lemma enqueued_moves p r w w1 w' :
  moves [] [] w w1 -> (forall p', backlog p' w1 = backlog p' w) -> requests w1 = requests w ->
  enqueued p r w1 w' -> enqueued p r w w'.
Proof.
  intros (_ & [Hlen _] & _ & Hc & Hn & Hx) Hb Ho (Hw' & Ho' & Hc' & Hlen' & Hn' & Hx' & (l & Hl & Hl') & Hb').
  unfold enqueued. split_and!; try congruence.
  - intros x. specialize (Hx x). specialize (Hx' x). cbn in *. lia.
  - exists l. by rewrite <-Hb.
  - intros p' Hne. rewrite Hb' by done. apply Hb.
Qed.

(** [send_to_pipeline] without the eviction flags. *)
Lemma send_to_pipeline_spec busy p i r fl (c : bool) w pc q :
  wf w -> pcb w !! p = Some (Some pc) -> first_rqcbp pc = Some i -> rqcbs w !! i = Some q ->
  c = match tmp_request_head pc with [] => false | _ => true end ->
  has_flag fl REQUEST_KICK_OUT = false -> has_flag fl REQUEST_TIME_OUT = false ->
  (has_flag fl REQUEST_FORCE = false -> forall w1 q1, moves [] [] w w1 -> rqcbs w1 !! i = Some q1 ->
     queue_len q1 < pipeline_queue_size w) ->
  exists w', send_to_pipeline rc_ok busy p r fl c w = Some (0, w') /\ enqueued p r w w'.
Proof.
  intros Hw Hp Hi Hq Hc Hko Hto Hroom. unfold send_to_pipeline. rewrite (get_pcb_eq _ _ _ Hp). cbn -[concat_tmp rqcb_push].
  rewrite Hi. cbn -[concat_tmp rqcb_push]. destruct busy.
  { destruct (send_blocked_spec p i r w pc q) as (w' & -> & H); [done..|]. by exists w'. }
  destruct (concat_spec p i w pc q c) as (w1 & pc1 & q1 & -> & Hm & Hb & Hp1 & Hi1 & Ht1 & Hq1 & Hs1 & Hr1); [done..|].
  cbn -[rqcb_push]. rewrite Hq1. cbn -[rqcb_push]. rewrite Hko, Hto, andb_false_r, andb_false_l. cbn -[rqcb_push].
  destruct (negb (has_flag fl REQUEST_FORCE) && (pipeline_queue_size w1 <=? queue_len q1)) eqn:Efull.
  { apply andb_true_iff in Efull as [Hf Hle]. bool_props. rewrite Hs1 in Hle.
    apply negb_true_iff in Hf. specialize (Hroom Hf w1 q1 Hm Hq1). lia. }
  rewrite Hq1. cbn -[rqcb_push]. rewrite (upd_rqcb_eq _ _ _ _ Hq1). cbn -[rqcb_push].
  eexists; split; [done|]. eapply enqueued_moves; [done..|].
  eapply push_first_spec; try done. by eapply moves_wf.
Qed.

(** Below the limit on the total, no queue is at the limit: a queue without
    duplicates whose members are live is not longer than the number of requests. *)
Lemma pinv_room w w1 i q1 :
  pinv w -> Z.of_nat (size (requests w)) < 2 ^ 64 -> pipeline_queue_len w < pipeline_queue_size w ->
  wf w1 -> (forall x, occ x w1 = occ x w) -> rqcbs w1 !! i = Some q1 -> queue_len q1 < pipeline_queue_size w.
Proof.
  intros (_ & _ & Hocc & Hn) Hsz Hlt Hw1 Hx Hq1.
  assert (forall x, occurs x (request_head q1) <= live x (requests w))%nat as Hle.
  { intros x. rewrite <-Hocc, <-Hx. by eapply occ_head_le. }
  assert (NoDup (request_head q1)) as Hnd.
  { apply occurs_NoDup. intros x. specialize (Hle x). unfold live in Hle. case_match; lia. }
  assert (length (request_head q1) <= size (requests w))%nat as Hlen.
  { rewrite <-(size_list_to_set (C:=gset nat) _ Hnd), <-(size_dom (D:=gset nat)).
    apply subseteq_size. intros x Hm%elem_of_list_to_set%occurs_pos. apply elem_of_dom.
    specialize (Hle x). unfold live in Hle. destruct (requests w !! x); [done|lia]. }
  destruct (wf_stage _ _ _ Hw1 Hq1) as [-> _]. rewrite Hn, u64_small in Hlt by lia.
  unfold u32. pose proof (Z.mod_le (Z.of_nat (length (request_head q1))) (2 ^ 32)). lia.
Qed.

(** The bookkeeping after the insertion. *)
Lemma enqueued_quiet_pcb p r w w' pc f :
  enqueued p r w w' -> pcb w' !! p = Some (Some pc) ->
  first_rqcbp (f pc) = first_rqcbp pc -> tmp_queue_len (f pc) = tmp_queue_len pc ->
  tmp_request_head (f pc) = tmp_request_head pc ->
  enqueued p r w (set_pcb (<[p:=Some (f pc)]> (pcb w')) w').
Proof.
  intros (Hw & Ho & Hc & Hlen & Hn & Hx & (l & Hl & Hl') & Hb) Hp Hf Htl Hth. pose proof (lookup_lt_Some _ _ _ Hp) as Hlt.
  unfold enqueued. split_and!; try done.
  - eapply wf_pcb; try done.
    + destruct (wf_get_pcb _ _ _ Hw Hp) as [? ?]. split; [congruence|]. by rewrite Hf.
    + rewrite Hth. destruct Hw as (_ & _ & _ & (_ & _ & H) & _). eauto.
  - intros x. rewrite <-Hx. pose proof (occ_pcb x w' p pc (f pc) Hp) as H. rewrite Hth in H. lia.
  - exists l. split; [done|]. rewrite <-Hl'. unfold backlog, get_pcb. cbn.
    rewrite list_lookup_insert_eq, Hp by done. cbn. by rewrite Hf, Hth.
  - intros p' Hne. rewrite <-Hb by done. unfold backlog, get_pcb. cbn. by rewrite list_lookup_insert_ne.
Qed.

Lemma enqueued_quiet_rqcb p r w w' i q f :
  enqueued p r w w' -> rqcbs w' !! i = Some q ->
  request_head (f q) = request_head q -> queue_len (f q) = queue_len q -> next_rqcb (f q) = next_rqcb q ->
  enqueued p r w (set_rqcbs (<[i:=f q]> (rqcbs w')) w').
Proof.
  intros (Hw & Ho & Hc & Hlen & Hn & Hx & (l & Hl & Hl') & Hb) Hq Hh Hln Hnx. pose proof (lookup_lt_Some _ _ _ Hq) as Hlt.
  assert (forall p', backlog p' (set_rqcbs (<[i:=f q]> (rqcbs w')) w') = backlog p' w') as Hbl.
  { intros p'. unfold backlog. change (get_pcb p' (set_rqcbs _ w')) with (get_pcb p' w').
    destruct (get_pcb p' w') as [pc|]; cbn; [|done]. destruct (first_rqcbp pc) as [j|]; cbn; [|done].
    destruct (decide (i = j)) as [<-|]; [|by rewrite list_lookup_insert_ne].
    rewrite list_lookup_insert_eq, Hq by done. cbn. by rewrite Hh. }
  unfold enqueued. split_and!; try done.
  - apply wf_rqcb; [done..|]. destruct (wf_stage _ _ _ Hw Hq). split; [congruence|by rewrite Hnx].
  - cbn. by rewrite length_insert.
  - intros x. rewrite <-Hx. pose proof (occ_rqcb x w' i q (f q) Hq) as H. rewrite Hh in H. lia.
  - exists l. split; [done|]. by rewrite Hbl.
  - intros p' Hne. by rewrite Hbl, Hb.
Qed.

(** A request added to an accounted state with its reference held. *)
Lemma enqueued_pinv p r c st rq w w2 w' :
  pinv w -> requests w !! r = None -> conns w !! c = Some st -> ref_cnt st < 2 ^ 64 - 1 -> csp rq = Some c ->
  requests w2 = <[r:=rq]> (requests w) -> conns w2 = <[c:=set_ref_cnt (u64 (ref_cnt st + 1)) st]> (conns w) ->
  pipeline_queue_len w2 = pipeline_queue_len w -> (forall x, occ x w2 = occ x w) ->
  enqueued p r w2 w' -> pinv w'.
Proof.
  intros (_ & Hh & Hocc & Hn) Hr Hc Hb Hcsp Hr2 Hc2 Hn2 Hx2 (Hw' & Hr' & Hc' & _ & Hn' & Hx' & _).
  split_and!; [done| |split].
  - rewrite Hc', Hc2. unfold owners. rewrite Hr', Hr2, fmap_insert, Hcsp.
    apply heap_hold; try done. by rewrite lookup_fmap, Hr.
  - intros x. rewrite Hx', Hx2, Hocc, Hr', Hr2, occurs_singleton. unfold live.
    destruct (Nat.eqb_spec x r) as [->|Hne].
    + by rewrite Hr, lookup_insert_eq.
    + rewrite lookup_insert_ne by done. case_match; lia.
  - rewrite Hn', Hn2, Hn, u64_succ, Hr', Hr2, map_size_insert_None by done. f_equal. lia.
Qed.

(** What [submit_request] accepts. *)
Definition admits (a : submission) (w : world) : Prop :=
  s_pid a < PIPELINE_SIZE /\ graceful_restart w = false /\ is_Some (get_pcb (Z.to_nat (s_pid a)) w) /\
  (has_flag (s_flags a) REQUEST_FORCE = true \/ pipeline_queue_len w < pipeline_queue_size w).

Lemma submit_accepts w r stale a busy :
  pinv w -> enabled (OSubmit r stale a busy) w -> admits a w ->
  exists w', submit_request rc_ok busy r stale a w = Some (i64 (make_tid (s_pid a) (u64 (inc w + 1))), w') /\
    pinv w' /\ requests w' = <[r:=new_request a stale w]> (requests w) /\
    (exists l, backlog (Z.to_nat (s_pid a)) w = Some l /\ backlog (Z.to_nat (s_pid a)) w' = Some (l ++ [r])) /\
    (forall p, p <> Z.to_nat (s_pid a) -> backlog p w' = backlog p w).
Proof.
  intros Hinv (Hr & Hsz & Hpid & Hko & Hto & c & st & Hsc & Hc & Hb) (Hp16 & Hg & [pc Hp]%get_pcb_Some & Hadm).
  set (p := Z.to_nat (s_pid a)) in *. assert (wf w) as Hw by apply Hinv.
  destruct (wf_get_pcb _ _ _ Hw Hp) as (_ & i & Hi & Hlt). destruct (lookup_lt_is_Some_2 _ _ Hlt) as [q Hq].
  unfold submit_request. rewrite (proj2 (Z.leb_gt _ _)) by lia. rewrite Hg. fold p. rewrite Hp.
  cbn -[send_to_pipeline]. rewrite Hi.
  replace (negb (has_flag (s_flags a) REQUEST_FORCE) && (pipeline_queue_size w <=? pipeline_queue_len w)) with false.
  2:{ symmetry. apply andb_false_iff. rewrite negb_false_iff, Z.leb_gt. exact Hadm. }
  rewrite Hsc. unfold CS_HOLD, upd_conn. rewrite Hc. cbn -[send_to_pipeline].
  set (w1 := set_conns _ w). set (rq := new_request a stale w1). set (w2 := set_inc _ _).
  destruct (send_to_pipeline_spec busy p i r (s_flags a)
    (match tmp_request_head pc with [] => false | _ => true end) w2 pc q) as (w3 & -> & Henq); try done.
  { intros Hf w3 q3 (Hm1 & _ & _ & _ & _ & Hm6) Hq3. destruct Hadm as [|Hadm]; [congruence|].
    apply (pinv_room w w3 i q3); try done. intros x. specialize (Hm6 x). cbn [occurs] in Hm6.
    change (occ x w2) with (occ x w) in Hm6. lia. }
  cbn. pose proof Henq as (Hw3 & _ & _ & Hlen3 & _ & _ & (l & Hl & Hl3) & _).
  assert (exists pc3, pcb w3 !! p = Some (Some pc3)) as [pc3 Hp3].
  { apply get_pcb_Some. unfold backlog in Hl3. destruct (get_pcb p w3); [by eexists|done]. }
  assert (exists q3, rqcbs w3 !! i = Some q3) as [q3 Hq3].
  { apply lookup_lt_is_Some_2. by rewrite Hlen3. }
  rewrite (upd_pcb_eq _ _ _ _ Hp3). cbn. erewrite upd_rqcb_eq by exact Hq3.
  apply (enqueued_quiet_pcb _ _ _ _ pc3 (fun pc => set_counter (u64 (counter pc + 1)) pc)) in Henq; [|done..].
  eapply (enqueued_quiet_rqcb _ _ _ _ i q3 (fun q => set_request_count (u64 (request_count q + 1)) q)) in Henq; [|done..].
  eexists; split; [done|]. split_and!.
  - eapply (enqueued_pinv p r c st rq w w2); try done. cbn. by rewrite Hsc.
  - rewrite (proj1 (proj2 Henq)). done.
  - destruct Henq as (_ & _ & _ & _ & _ & _ & H & _). exact H.
  - destruct Henq as (_ & _ & _ & _ & _ & _ & _ & H). exact H.
Qed.

(** * Completion *)

(** The requests freed and the requests answered, in order. *)
Definition frees (tr : list event) : list nat :=
  omap (fun e => match e with EvFreeRequest r => Some r | _ => None end) tr.

Definition answers (tr : list event) : list nat :=
  omap (fun e => match e with EvRespond r _ => Some r | _ => None end) tr.

(** Whether the responder of a request is called. *)
Definition wants_answer (rq : REQUEST) : bool :=
  match request_responder rq with Some _ => cancelled rq =? 0 | None => false end.

Definition wanted (rs : gmap nat REQUEST) (r : nat) : bool :=
  match rs !! r with Some rq => wants_answer rq | None => false end.

Lemma frees_app a b : frees (a ++ b) = frees a ++ frees b.
Proof. apply omap_app. Qed.

Lemma answers_app a b : answers (a ++ b) = answers a ++ answers b.
Proof. apply omap_app. Qed.

(** What one iteration of the completion loop does to the request [r]. *)
Definition finished (r : nat) (w w' : world) : Prop :=
  pinv w' /\ requests w' = delete r (requests w) /\ r :: final_request_head w' = final_request_head w /\
  done_rqcb w' = done_rqcb w /\ rqcbs w' = rqcbs w /\ graceful_restart w' = graceful_restart w /\
  frees (trace w') = frees (trace w) ++ [r] /\
  answers (trace w') = answers (trace w) ++ (if wanted (requests w) r then [r] else []).

Lemma owners_delete r w : owners (set_requests (delete r (requests w)) w) = delete r (owners w).
Proof. apply fmap_delete. Qed.

Lemma cleanup_request_pinv r l c st rq w n :
  pinv w -> final_request_head w = r :: l -> requests w !! r = Some rq -> csp rq = Some c ->
  conns w !! c = Some st -> n = u64 (pipeline_queue_len w - 1) ->
  exists w', cleanup_request r (set_pipeline_queue_len n w) = Some w' /\
    pinv w' /\ requests w' = delete r (requests w) /\ r :: final_request_head w' = final_request_head w /\
    done_rqcb w' = done_rqcb w /\ rqcbs w' = rqcbs w /\ graceful_restart w' = graceful_restart w /\
    frees (trace w') = frees (trace w) ++ [r] /\ answers (trace w') = answers (trace w).
Proof.
  intros (Hw & Hh & Hocc & Hn) Hf Hr Hcsp Hc ->. unfold cleanup_request. cbn. rewrite Hr. cbn. rewrite Hcsp.
  assert (unlink r (final_request_head w) = l) as Hu.
  { specialize (Hocc r). unfold live, occ in Hocc. rewrite Hr, Hf in Hocc. rewrite Hf. apply unlink_head.
    pose proof (proj2 (occurs_pos r (r :: l)) ltac:(left)). lia. }
  rewrite Hu. set (w1 := set_final_request_head l _). set (w2 := match data_cleaner rq with Some _ => _ | None => _ end).
  assert (exists tr, w2 = set_trace (trace w ++ tr) w1 /\ frees tr = [] /\ answers tr = []) as (tr & E2 & Hft & Hat).
  { subst w2 w1. destruct (data_cleaner rq); [by eexists|]. exists []. rewrite app_nil_r. by destruct w. }
  rewrite E2. clear E2 w2.
  destruct (CS_RELE_eq c st (set_trace (trace w ++ tr) w1) Hc) as (tr2 & -> & ->). cbn.
  set (tr2 := if u64 _ =? 0 then _ else _).
  assert (frees tr2 = [] /\ answers tr2 = []) as [Hf2 Ha2] by (subst tr2; by case_match).
  assert (owners w !! r = Some (Some c)) as Hor.
  { unfold owners. rewrite lookup_fmap, Hr. cbn. by rewrite Hcsp. }
  eexists; split; [done|]. cbn. split; [|split_and!; try done].
  - split; [done|split; [|split]].
    + unfold owners. cbn. rewrite fmap_delete. apply heap_drop_ref with (os := owners w); [done|done|..].
      * destruct Hh as [_ H2]. destruct (H2 _ _ Hc) as [_ Hle].
        rewrite (refs_delete _ _ _ _ Hor), decide_True in Hle by done. change (csp <$> requests w) with (owners w). lia.
      * intros r' oc. change (csp <$> requests w) with (owners w). intros [_ H]%lookup_delete_Some. done.
      * intros c'. change (csp <$> requests w) with (owners w). rewrite (refs_delete c' _ _ _ Hor). lia.
    + intros x. specialize (Hocc x). unfold live, occ in *. cbn. rewrite Hf in Hocc. cbn in Hocc.
      destruct (Nat.eqb_spec x r) as [E|Hne].
      * rewrite E in *. rewrite lookup_delete_eq. rewrite Hr in Hocc. lia.
      * rewrite lookup_delete_ne by done. lia.
    + cbn. rewrite Hn, u64_pred, (map_size_delete_Some) by done. f_equal.
      assert (size (requests w) <> 0%nat); [|lia]. rewrite map_size_ne_0_lookup. eauto.
  - rewrite !frees_app, Hft, Hf2, !app_nil_r. done.
  - rewrite !answers_app, Hat, Ha2, !app_nil_r. done.
Qed.

Lemma broadcast_pinv w : pinv w -> pinv (broadcast_signal_to_allqueue w).
Proof. done. Qed.

Lemma frees_broadcast w : frees (trace (broadcast_signal_to_allqueue w)) = frees (trace w).
Proof.
  cbn. rewrite frees_app. match goal with |- _ ++ frees (EvBroadcast <$> ?l) = _ => generalize l as k end.
  induction k; [apply app_nil_r|done].
Qed.

Lemma answers_broadcast w : answers (trace (broadcast_signal_to_allqueue w)) = answers (trace w).
Proof.
  cbn. rewrite answers_app. match goal with |- _ ++ answers (EvBroadcast <$> ?l) = _ => generalize l as k end.
  induction k; [apply app_nil_r|done].
Qed.

(** The optional clearing of [data_cleaner] before the cleanup. *)
Lemma clear_cleaner_spec (b : bool) r rq w :
  pinv w -> requests w !! r = Some rq ->
  exists w1 rq1, (if b then Some w else upd_request r (set_data_cleaner None) w) = Some w1 /\ pinv w1 /\
    requests w1 !! r = Some rq1 /\ csp rq1 = csp rq /\ delete r (requests w1) = delete r (requests w) /\
    w1 = set_requests (requests w1) w.
Proof.
  intros Hinv Hr. destruct b.
  - exists w, rq. split_and!; try done. by destruct w.
  - rewrite (upd_request_eq _ _ _ _ Hr). eexists _, (set_data_cleaner None rq). split; [done|]. split_and!; try done.
    + eapply (moves_pinv [] [] w); [done..|]. by apply moves_upd_request; [apply Hinv|..].
    + by apply lookup_insert_eq.
    + cbn. apply delete_insert_eq.
Qed.

Lemma respond_one_spec respond rc r l w :
  (forall f c d fl, has_flag (respond f c d fl) RESPONDER_DISCONNECT = false) ->
  has_flag rc RESPONDER_DISCONNECT = false -> pinv w -> final_request_head w = r :: l ->
  exists rc' w', respond_one respond (rc, w) r = Some (rc', w') /\
    has_flag rc' RESPONDER_DISCONNECT = false /\ finished r w w'.
Proof.
  intros Hresp Hrc Hinv Hf. assert (exists rq, requests w !! r = Some rq) as [rq Hr].
  { destruct Hinv as (_ & _ & Hocc & _). specialize (Hocc r). unfold live, occ in Hocc. rewrite Hf in Hocc.
    pose proof (proj2 (occurs_pos r (r :: l)) ltac:(left)). destruct (requests w !! r); [eauto|lia]. }
  assert (exists c st, csp rq = Some c /\ conns w !! c = Some st) as (c & st & Hcsp & Hc).
  { destruct Hinv as (_ & [H1 _] & _). apply (H1 r). unfold owners. by rewrite lookup_fmap, Hr. }
  unfold respond_one. cbn -[cleanup_request broadcast_signal_to_allqueue]. rewrite Hr.
  cbn -[cleanup_request broadcast_signal_to_allqueue]. rewrite Hcsp, Hc.
  cbn -[cleanup_request broadcast_signal_to_allqueue].
  set (n := u64 _). match goal with |- context [match ?m with (_, _) => _ end] =>
    assert (exists rc1 tr, m = (rc1, set_pipeline_queue_len n (set_trace (trace w ++ tr) w)) /\
      has_flag rc1 RESPONDER_DISCONNECT = false /\ frees tr = [] /\
      answers tr = if wanted (requests w) r then [r] else []) as (rc1 & tr & -> & Hrc1 & Hft & Hat) end.
  { unfold wanted, wants_answer. rewrite Hr. destruct (request_responder rq); [case_match|].
    - by eexists _, [_].
    - exists rc, []. rewrite app_nil_r. by destruct w.
    - exists rc, []. rewrite app_nil_r. by destruct w. }
  rewrite Hrc1. cbn -[cleanup_request broadcast_signal_to_allqueue].
  set (w0 := set_pipeline_queue_len n _).
  destruct (clear_cleaner_spec (has_flag rc1 RESPONDER_CLEAN) r rq (set_trace (trace w ++ tr) w))
    as (w1 & rq1 & E1 & Hinv1 & Hr1 & Hcsp1 & Hd1 & Ew1); [exact Hinv|done|].
  assert ((if has_flag rc1 RESPONDER_CLEAN then Some w0 else upd_request r (set_data_cleaner None) w0)
          = Some (set_pipeline_queue_len n w1)) as ->.
  { subst w0. destruct (has_flag rc1 RESPONDER_CLEAN); [by simplify_eq|].
    unfold upd_request in *. cbn in *. rewrite Hr in *. cbn in *. by simplify_eq. }
  cbn -[cleanup_request broadcast_signal_to_allqueue].
  destruct (cleanup_request_pinv r l c st rq1 w1 n) as (w' & -> & H1 & H2 & H3 & H4 & H5 & H6 & H7 & H8).
  1-3: try done; by rewrite Ew1. 1-3: try congruence; by rewrite Ew1.
  cbn -[broadcast_signal_to_allqueue]. eexists rc1, _. split; [done|]. split; [done|].
  assert (finished r w w') as Hfin.
  { unfold finished. rewrite H2, H3, H4, H5, H6, H7, H8, Hd1, Ew1. cbn. rewrite frees_app, answers_app, Hft, Hat, app_nil_r.
    split; [done|]. by split_and!. }
  destruct (graceful_restart w' && _); [|exact Hfin]. destruct Hfin as (? & ? & ? & ? & ? & ? & Hff & Haa).
  unfold finished. rewrite frees_broadcast, answers_broadcast. split; [by apply broadcast_pinv|]. by split_and!.
Qed.

(** What the completion of the requests [l] leaves. *)
Definition completed (l : list nat) (w w' : world) : Prop :=
  pinv w' /\ final_request_head w' = [] /\ done_rqcb w' = done_rqcb w /\
  (forall x, requests w' !! x = if bool_decide (x ∈ l) then None else requests w !! x) /\
  frees (trace w') = frees (trace w) ++ l /\
  answers (trace w') = answers (trace w) ++ List.filter (wanted (requests w)) l.

Lemma filter_wanted_delete r rs l : r ∉ l ->
  List.filter (wanted (delete r rs)) l = List.filter (wanted rs) l.
Proof.
  intros Hr. apply List.filter_ext_in. intros x Hx%list_elem_of_In. unfold wanted.
  rewrite lookup_delete_ne; [done|]. intros ->. done.
Qed.

Lemma final_NoDup w r l : pinv w -> final_request_head w = r :: l -> r ∉ l.
Proof.
  intros (_ & _ & Hocc & _) Hf. apply occurs_zero. specialize (Hocc r). unfold live, occ in Hocc.
  rewrite Hf in Hocc. cbn in Hocc. rewrite Nat.eqb_refl in Hocc. destruct (requests w !! r); lia.
Qed.

Lemma respond_loop_spec respond l rc w :
  (forall f c d fl, has_flag (respond f c d fl) RESPONDER_DISCONNECT = false) ->
  has_flag rc RESPONDER_DISCONNECT = false -> pinv w -> final_request_head w = l ->
  exists rc' w', for_each (respond_one respond) (rc, w) l = Some (rc', w') /\ completed l w w'.
Proof.
  intros Hresp. revert rc w. induction l as [|r l IH]; intros rc w Hrc Hinv Hf; cbn [for_each].
  { exists rc, w. split; [done|]. unfold completed. rewrite !app_nil_r. split; [done|]. by split_and!. }
  destruct (respond_one_spec respond rc r l w) as (rc1 & w1 & -> & Hrc1 & Hfin); [done..|].
  pose proof (final_NoDup _ _ _ Hinv Hf) as Hnd.
  destruct Hfin as (Hinv1 & Hr1 & Hf1 & Hd1 & _ & _ & Hfr1 & Ha1).
  destruct (IH rc1 w1) as (rc' & w' & E & Hinv' & Hf' & Hd' & Hr' & Hfr' & Ha'); [done..|congruence|].
  cbn. exists rc', w'. split; [exact E|]. unfold completed. split; [done|]. split_and!; try congruence.
  - intros x. rewrite Hr', Hr1. destruct (decide (x = r)) as [->|Hne].
    + rewrite (bool_decide_eq_true_2 (r ∈ r :: l)) by left. case_bool_decide; [done|apply lookup_delete_eq].
    + rewrite lookup_delete_ne by done.
      rewrite (bool_decide_ext (x ∈ r :: l) (x ∈ l)); [done|]. rewrite elem_of_cons. naive_solver.
  - rewrite Hfr', Hfr1, <-app_assoc. done.
  - rewrite Ha', Ha1, Hr1, filter_wanted_delete, <-app_assoc by done. cbn. by destruct (wanted (requests w) r).
Qed.

Lemma get_done_moves busy w : wf w -> moves [] [] w (get_done_requests busy w).
Proof.
  intros Hw. unfold get_done_requests. destruct (request_head (done_rqcb w)) as [|r l] eqn:Ed; [done|].
  destruct busy; [done|]. unfold moves. split_and!; try done.
  { by apply (wf_done (set_final_request_head _ w)). }
  intros x. unfold occ. cbn -[occurs]. rewrite Ed, occurs_app. cbn [occurs]. lia.
Qed.

Definition clear_signal (w : world) : world :=
  if done_signalled w then set_done_signalled false (set_done_pipe (Z.max 0 (done_pipe w - 16)) w) else w.

Lemma clear_signal_moves w : wf w -> moves [] [] w (clear_signal w).
Proof. intros Hw. unfold clear_signal. by case_match. Qed.

(** A pass of the handler over a done queue that is not empty or locked. *)
Lemma done_requests_handler_spec respond busy ev w :
  (forall f c d fl, has_flag (respond f c d fl) RESPONDER_DISCONNECT = false) -> pinv w ->
  request_head (done_rqcb w) <> [] -> ev <> EV_TIMEOUT ->
  exists w', done_requests_handler respond busy false ev w = Some w' /\ request_head (done_rqcb w') = [] /\
    exists w1, same_requests w w1 /\ completed (final_request_head w ++ request_head (done_rqcb w))
                                     (get_done_requests false w1) w'.
Proof.
  intros Hresp Hinv Hne Hev. unfold done_requests_handler. fold (clear_signal w).
  pose proof (clear_signal_moves w (proj1 Hinv)) as Hm1.
  destruct (kick_request_queue_spec busy (clear_signal w) (moves_wf _ _ _ _ Hm1)) as (w2 & -> & Hm2 & _ & Hu2).
  pose proof (moves_pinv _ _ _ _ Hinv (fun _ => eq_refl) (moves_trans _ _ _ _ _ _ _ Hm1 Hm2)) as Hinv2.
  assert (same_requests w w2) as Hu.
  { unfold clear_signal in Hu2. by destruct (done_signalled w). }
  cbn. rewrite (proj2 (Z.eqb_neq _ _) Hev).
  assert (match request_head (done_rqcb w2) with [] => Some w2 | _ :: _ =>
      snd <$> for_each (respond_one respond) (Z.lor RESPONDER_OK RESPONDER_CLEAN, get_done_requests false w2)
                (final_request_head (get_done_requests false w2)) end
    = snd <$> for_each (respond_one respond) (Z.lor RESPONDER_OK RESPONDER_CLEAN, get_done_requests false w2)
                (final_request_head (get_done_requests false w2))) as ->.
  { destruct Hu as (_ & _ & -> & _). by destruct (request_head (done_rqcb w)). }
  pose proof (moves_pinv _ _ _ _ Hinv2 (fun _ => eq_refl) (get_done_moves false w2 (proj1 Hinv2))) as Hinv3.
  assert (final_request_head (get_done_requests false w2) = final_request_head w ++ request_head (done_rqcb w)
    /\ request_head (done_rqcb (get_done_requests false w2)) = []) as [Hf Hd].
  { destruct Hu as (_ & <- & <- & _). unfold get_done_requests. destruct (request_head (done_rqcb w2)) eqn:E.
    - by rewrite app_nil_r.
    - by split. }
  edestruct (respond_loop_spec respond (final_request_head (get_done_requests false w2))
    (Z.lor RESPONDER_OK RESPONDER_CLEAN) (get_done_requests false w2)) as (rc' & w' & -> & Hc); [done..|].
  rewrite Hf in Hc. exists w'. split; [done|]. split.
  - destruct Hc as (_ & _ & -> & _). done.
  - by exists w2.
Qed.

Lemma done_requests_handler_pinv respond busy db ev w :
  (forall f c d fl, has_flag (respond f c d fl) RESPONDER_DISCONNECT = false) -> pinv w ->
  exists w', done_requests_handler respond busy db ev w = Some w' /\ pinv w'.
Proof.
  intros Hresp Hinv. unfold done_requests_handler. fold (clear_signal w).
  pose proof (clear_signal_moves w (proj1 Hinv)) as Hm1.
  destruct (kick_request_queue_spec busy (clear_signal w) (moves_wf _ _ _ _ Hm1)) as (w2 & -> & Hm2 & _).
  pose proof (moves_pinv _ _ _ _ Hinv (fun _ => eq_refl) (moves_trans _ _ _ _ _ _ _ Hm1 Hm2)) as Hinv2.
  cbn. destruct (request_head (done_rqcb w2)) as [|r l] eqn:Ed; [by exists w2|].
  case_match; [by exists w2|].
  pose proof (moves_pinv _ _ _ _ Hinv2 (fun _ => eq_refl) (get_done_moves db w2 (proj1 Hinv2))) as Hinv3.
  edestruct (respond_loop_spec respond (final_request_head (get_done_requests db w2))
    (Z.lor RESPONDER_OK RESPONDER_CLEAN) (get_done_requests db w2)) as (rc' & w' & -> & Hc); [done..|].
  exists w'. split; [done|apply Hc].
Qed.

(** * Every step *)

(** A state in which the pipeline has just been set up. *)
Definition booted (w : world) : Prop :=
  wf w /\ requests w = ∅ /\ conns w = ∅ /\ (forall r, occ r w = 0%nat) /\ pipeline_queue_len w = 0.

Lemma booted_pinv w : booted w -> pinv w.
Proof.
  intros (Hw & Hr & Hc & Ho & Hn). split; [done|]. unfold owners, accounted. rewrite Hr, Hc, Hn, fmap_empty. split.
  - split; intros ? ? H; by rewrite lookup_empty in H.
  - by split; [|rewrite map_size_empty].
Qed.

Lemma accept_pinv c ty fd w : pinv w -> conns w !! c = None -> pinv (conn_accept c ty fd w).
Proof.
  intros (Hw & [H1 H2] & Ha) Hc. split; [done|]. split; [|done].
  change (owners (conn_accept c ty fd w)) with (owners w). cbn. split.
  - intros r oc Hr. destruct (H1 _ _ Hr) as (c' & st & -> & Hst). exists c', st. split; [done|].
    rewrite lookup_insert_ne; [done|congruence].
  - intros c' st. destruct (decide (c = c')) as [<-|Hne]; [|rewrite lookup_insert_ne by done; apply H2].
    rewrite lookup_insert_eq. intros [= <-]. cbn -[Z.of_nat]. split; [lia|].
    assert (refs c (owners w) = 0%nat) as ->; [|lia].
    unfold refs. apply map_size_empty_iff, map_empty_filter_2. intros r oc Hr E. cbn in E. subst oc.
    destruct (H1 _ _ Hr) as (? & ? & ? & ?). congruence.
Qed.

Lemma lost_pinv c st w :
  pinv w -> conns w !! c = Some st -> Z.of_nat (refs c (owners w)) < ref_cnt st ->
  exists w', (w1 ← conn_close c w; conn_state_cleanup c w1) = Some w' /\ pinv w'.
Proof.
  intros (Hw & Hh & Ha) Hc Hlt.
  assert (exists w1 st1, conn_close c w = Some w1 /\ conns w1 !! c = Some st1 /\ ref_cnt st1 = ref_cnt st /\
    heap_ok (owners w) (conns w1) /\ wf w1 /\ owners w1 = owners w /\ accounted w1)
    as (w1 & st1 & -> & Hc1 & Hr1 & Hh1 & Hw1 & Ho1 & Ha1).
  { unfold conn_close. rewrite Hc. cbn. case_match; [|by exists w, st].
    eexists _, (set_ci_fd (-1) st). split; [done|]. split; [apply lookup_insert_eq|]. split; [done|].
    split; [|done]. destruct Hh as [H1 H2]. split.
    - intros r oc Hr. destruct (H1 _ _ Hr) as (c' & st' & -> & Hst). cbn. destruct (decide (c = c')) as [<-|Hne].
      + eexists c, _. by rewrite lookup_insert_eq.
      + exists c', st'. by rewrite lookup_insert_ne.
    - intros c' st'. cbn. destruct (decide (c = c')) as [<-|Hne]; [|rewrite lookup_insert_ne by done; apply H2].
      rewrite lookup_insert_eq. intros [= <-]. cbn -[Z.of_nat]. by apply H2. }
  cbn -[CS_RELE]. unfold conn_state_cleanup, connection_lost.
  match goal with |- context [CS_RELE c ?x] => destruct (CS_RELE_eq c st1 x Hc1) as (tr & -> & _) end.
  eexists; split; [done|]. split; [done|]. split; [|done].
  change (heap_ok (owners w1) (released c st1 (conns w1))). rewrite Ho1.
  apply heap_drop_ref with (os := owners w); try done. by rewrite Hr1.
Qed.

Lemma cancel_pinv req w :
  pinv w -> match req with Some r => is_Some (requests w !! r) | None => True end ->
  exists w', request_cancel req w = Some w' /\ pinv w'.
Proof.
  intros Hinv. destruct req as [r|]; cbn; [intros [rq Hr]|by exists w].
  rewrite (upd_request_eq _ _ _ _ Hr). eexists; split; [done|].
  eapply (moves_pinv [] [] w); [done..|]. by apply moves_upd_request; [apply Hinv|..].
Qed.

(** What [submit_request] refuses leaves the state as it was. *)
Definition refusal (a : submission) (w : world) : option Z :=
  if (PIPELINE_SIZE <=? s_pid a) || graceful_restart w then Some SUBMIT_GENERIC_ERROR
  else match get_pcb (Z.to_nat (s_pid a)) w with
       | None => Some SUBMIT_GENERIC_ERROR
       | Some _ => if negb (has_flag (s_flags a) REQUEST_FORCE) && (pipeline_queue_size w <=? pipeline_queue_len w)
                   then Some SUBMIT_QUEUE_FULL else None
       end.

Lemma refusal_None a w : refusal a w = None <-> admits a w.
Proof.
  unfold refusal, admits. destruct (PIPELINE_SIZE <=? s_pid a) eqn:E1; bool_props; cbn.
  { split; [done|lia]. }
  destruct (graceful_restart w); [split; [done|intros (_ & ? & _); done]|].
  destruct (get_pcb _ w); [|split; [done|intros (_ & _ & [? ?] & _); done]].
  destruct (has_flag (s_flags a) REQUEST_FORCE); cbn.
  { split; [|done]. intros _. split_and!; eauto; lia. }
  destruct (pipeline_queue_size w <=? pipeline_queue_len w) eqn:E2; bool_props.
  - split; [done|]. intros (_ & _ & _ & [?|?]); [done|lia].
  - split; [|done]. intros _. split_and!; eauto; lia.
Qed.

Lemma submit_refuses rc busy r stale a w code :
  wf w -> 0 <= s_pid a -> refusal a w = Some code ->
  submit_request rc busy r stale a w = Some (code, w).
Proof.
  intros Hw Hp. unfold refusal, submit_request. destruct (PIPELINE_SIZE <=? s_pid a) eqn:E1; cbn.
  { by intros [= <-]. }
  destruct (graceful_restart w); cbn. { by intros [= <-]. }
  assert (exists op, pcb w !! Z.to_nat (s_pid a) = Some op) as [op Hop].
  { apply lookup_lt_is_Some_2. destruct Hw as (_ & _ & [-> _] & _). unfold PIPELINE_SIZE in *. bool_props. lia. }
  unfold get_pcb. rewrite Hop. cbn. destruct op as [pc|]; cbn; [|by intros [= <-]].
  destruct (wf_get_pcb _ _ _ Hw Hop) as (_ & i & -> & _). case_match; [|done]. by intros [= <-].
Qed.

Lemma exec_pinv o w : pinv w -> enabled o w -> exists w', exec o w = Some w' /\ pinv w'.
Proof.
  intros Hinv. destruct o; cbn [enabled exec].
  - intros Hen. destruct (refusal a w) as [code|] eqn:Er.
    + rewrite (submit_refuses _ _ _ _ _ _ code); [by exists w|apply Hinv|apply Hen|done].
    + apply refusal_None in Er. destruct (submit_accepts w r stale a busy Hinv Hen Er) as (w' & -> & H & _).
      by exists w'.
  - intros _. destruct (kick_request_queue_spec busy w) as (w' & -> & Hm & _); [apply Hinv|].
    exists w'. split; [done|]. by eapply moves_pinv.
  - intros Hresp. by apply done_requests_handler_pinv.
  - by apply cancel_pinv.
  - intros Hc. eexists; split; [done|]. by apply accept_pinv.
  - intros (st & Hc & Hlt). by eapply lost_pinv.
  - intros (th & Ht & Hpc). by eapply worker_loop_pinv.
  - intros (th & Ht & Hpc). by eapply worker_wake_pinv.
  - intros ((th & Ht & Hpc) & Hnx & Hns). by eapply worker_run_pinv.
  - intros _. by eexists.
  - intros _. by eexists.
Qed.
