(* ===== verification/PipelineProps.v ===== *)
(** The theorems about the request pipeline of Pipeline.v, from the lemmas of
    PipelineInv.v: the invariant of every reachable state, first-in first-out
    order through the temporary queues, admission, completion, shutdown, and the
    executions in which the code leaves its own invariant. *)

From S2P Require Import Prelude Pipeline PipelineInv.

(** * A small configuration *)

Definition demo_stage (next : option nat) (name : cstr) : RQCB :=
  mk_rqcb [] next name 0 0 1 0 None None (Some 7) 0 0.

(** Two stages, one pipeline, one thread per stage, room for two requests. *)
Definition demo : world :=
  mk_world [demo_stage (Some 1%nat) (L"parse"); demo_stage None (L"store")]
    (demo_stage None []) (Some (mk_pcb 0 0 (Some 0%nat) 0 []) :: replicate 15 None) [] [] ∅ ∅
    [mk_thread 0 PcLoop THREAD_STARTING None 0 0 None; mk_thread 1 PcLoop THREAD_STARTING None 0 0 None]
    2 0 0 false 0 false 100 0 2 false 0 [].

Definition demo_submission (fl : Z) : submission := mk_submission (Some 0%nat) 0 42 (Some 1) (Some 2) fl.

Definition demo_block : REQUEST := mk_request None 0 None 0 0 0 0 None 0 0 0 0.

Fixpoint run (os : list op) (w : world) : option world :=
  match os with
  | [] => Some w
  | o :: os' => w' ← exec o w; run os' w'
  end.

Lemma demo_pcb n pc : pcb demo !! n = Some (Some pc) -> n = 0%nat.
Proof.
  destruct n as [|n]; [done|]. change (replicate 15 (@None PCB) !! n = Some (Some pc) -> S n = 0%nat).
  by intros [? _]%lookup_replicate.
Qed.

Lemma demo_booted : booted demo.
Proof.
  split_and!; try done. unfold wf, apq_ok. split_and!; try done.
  - repeat constructor; cbn; lia.
  - cbn. constructor; [|repeat constructor]. split; [done|]. exists 0%nat. cbn. split; [done|lia].
  - intros p p' pc pc' H H' _. by rewrite (demo_pcb _ _ H), (demo_pcb _ _ H').
  - constructor.
  - intros p H. by apply not_elem_of_nil in H.
  - intros p pc H. pose proof (demo_pcb _ _ H) as ->. cbn in H. by simplify_eq.
  - repeat constructor; cbn; lia.
Qed.

(** The connection 0 of the examples. *)
Definition demo_conn : op := OAccept 0 CSF_TCP 5.
Definition demo_submit (r : nat) (busy : bool) : op := OSubmit r demo_block (demo_submission REQUEST_NONE) busy.

Definition demo1 : world := conn_accept 0 CSF_TCP 5 demo.

Lemma demo1_pinv : pinv demo1.
Proof. exact (accept_pinv 0 CSF_TCP 5 demo (booted_pinv demo demo_booted) eq_refl). Qed.

Lemma demo_submit_enabled r busy w st :
  requests w !! r = None -> Z.of_nat (size (requests w)) < 2 ^ 64 ->
  conns w !! 0%nat = Some st -> ref_cnt st < 2 ^ 64 - 1 -> enabled (demo_submit r busy) w.
Proof. intros Hr Hs Hc Hb. split_and!; try done. by exists 0%nat, st. Qed.

(** The state after a submission to the locked first stage. *)
Definition demo2 : world := default demo1 (exec (demo_submit 10 true) demo1).

Lemma demo2_step : enabled (demo_submit 10 true) demo1 /\ exec (demo_submit 10 true) demo1 = Some demo2.
Proof.
  split; [apply (demo_submit_enabled 10 true demo1 (mk_conn CSF_TCP 5 1)); vm_compute; done|].
  vm_compute. reflexivity.
Qed.

Lemma demo2_pinv : pinv demo2.
Proof.
  destruct demo2_step as [He E]. destruct (exec_pinv _ _ demo1_pinv He) as (w' & E' & H). congruence.
Qed.

(** * The invariant *)



(** * Order and admission *)

(** C2: A submission that is admitted enters its pipeline at the end of the
    backlog (first stage, then temporary queue) whether or not the stage is
    locked at that moment, leaves the other backlogs alone, stores exactly the
    request built from the arguments, and keeps the invariant. *)
Theorem submit_request_fifo w r stale a busy :
  pinv w -> enabled (OSubmit r stale a busy) w -> admits a w ->
  exists w', submit_request rc_ok busy r stale a w = Some (i64 (make_tid (s_pid a) (u64 (inc w + 1))), w') /\
    pinv w' /\ requests w' = <[r:=new_request a stale w]> (requests w) /\
    (exists l, backlog (Z.to_nat (s_pid a)) w = Some l /\ backlog (Z.to_nat (s_pid a)) w' = Some (l ++ [r])) /\
    (forall p, p <> Z.to_nat (s_pid a) -> backlog p w' = backlog p w).
Proof. apply submit_accepts. Qed.

Lemma submit_request_fifo_witness :
  exists w', submit_request rc_ok false 11 demo_block (demo_submission REQUEST_NONE) demo2 = Some (2, w') /\
    backlog 0 w' = Some [10%nat; 11%nat].
Proof.
  destruct (submit_request_fifo demo2 11 demo_block (demo_submission REQUEST_NONE) false)
    as (w' & E & _ & _ & (l & Hl & Hl') & _).
  - exact demo2_pinv.
  - apply (demo_submit_enabled 11 false demo2 (mk_conn CSF_TCP 5 2)); vm_compute; done.
  - split_and!; [done|done|eexists; vm_compute; reflexivity|right; vm_compute; done].
  - exists w'. split; [exact E|]. change (backlog 0 w' = Some (l ++ [11%nat])) in Hl'. rewrite Hl'.
    replace (backlog _ demo2) with (Some [10%nat]) in Hl by (vm_compute; reflexivity).
    by simplify_eq.
Defined.

(** C6: [submit_request] refuses with -1 when the pipeline does not exist or the
    server is restarting, with -2 exactly when the request is not forced and the
    total number of requests reached the configured size, and then changes
    nothing; it accepts in every other case, and an accepted request that is not
    forced leaves at most the configured number of requests in the server. *)
Theorem submit_request_admission w r stale a busy :
  pinv w -> enabled (OSubmit r stale a busy) w ->
  match refusal a w with
  | Some code => submit_request rc_ok busy r stale a w = Some (code, w)
  | None => exists w', submit_request rc_ok busy r stale a w
                         = Some (i64 (make_tid (s_pid a) (u64 (inc w + 1))), w') /\
              (has_flag (s_flags a) REQUEST_FORCE = false ->
               Z.of_nat (size (requests w')) <= pipeline_queue_size w)
  end.
Proof.
  intros Hinv Hen. destruct (refusal a w) as [code|] eqn:Er.
  { apply submit_refuses; [apply Hinv|apply Hen|done]. }
  pose proof (proj1 (refusal_None a w) Er) as Hadm.
  destruct (submit_accepts w r stale a busy Hinv Hen Hadm) as (w' & E & _ & Hr & _).
  exists w'. split; [done|]. intros Hf. rewrite Hr. destruct Hen as (Hnone & Hsz & _).
  rewrite map_size_insert_None by done. destruct Hadm as (_ & _ & _ & [?|Hlt]); [congruence|].
  destruct Hinv as (_ & _ & _ & Hn). rewrite Hn, u64_small in Hlt by lia. lia.
Qed.

Lemma submit_request_admission_witness :
  exists w', submit_request rc_ok false 11 demo_block (demo_submission REQUEST_NONE) demo2 = Some (2, w') /\
    Z.of_nat (size (requests w')) <= 2.
Proof.
  destruct (submit_request_admission demo2 11 demo_block (demo_submission REQUEST_NONE) false) as (w' & E & H).
  - exact demo2_pinv.
  - apply (demo_submit_enabled 11 false demo2 (mk_conn CSF_TCP 5 2)); vm_compute; done.
  - exists w'. split; [exact E|]. apply H. reflexivity.
Defined.

(** Moving buffered requests to their stages keeps the order of every
    backlog, whichever stages are locked, and always succeeds. *)
Theorem kick_request_queue_keeps_order busy w :
  pinv w -> exists w', kick_request_queue busy w = Some w' /\ pinv w' /\
    (forall p, backlog p w' = backlog p w).
Proof.
  intros Hinv. destruct (kick_request_queue_spec busy w (proj1 Hinv)) as (w' & E & Hm & Hb & _).
  exists w'. split_and!; [done|by eapply moves_pinv|done].
Qed.

Lemma kick_request_queue_keeps_order_witness :
  exists w', kick_request_queue (fun _ => false) demo2 = Some w' /\ backlog 0 w' = Some [10%nat].
Proof.
  destruct (kick_request_queue_keeps_order (fun _ => false) demo2 demo2_pinv) as (w' & E & _ & Hb).
  exists w'. split; [exact E|]. rewrite Hb. vm_compute. reflexivity.
Defined.

(** A transaction id is positive, so no caller can take it for an error code,
    and gives back the pipeline number and the submission counter as long as the
    counter stays below 2^56; different submissions have different ids. *)
Theorem make_tid_decodes pid n :
  0 <= pid < PIPELINE_SIZE -> 0 < n < 2 ^ 56 ->
  i64 (make_tid pid n) = make_tid pid n /\ 0 < make_tid pid n /\
  Z.shiftr (make_tid pid n) 56 = pid /\ Z.land (make_tid pid n) (Z.ones 56) = n /\
  forall pid' n', 0 <= pid' < PIPELINE_SIZE -> 0 < n' < 2 ^ 56 -> make_tid pid' n' = make_tid pid n ->
    pid' = pid /\ n' = n.
Proof.
  assert (forall p m, 0 <= p < PIPELINE_SIZE -> 0 < m < 2 ^ 56 -> make_tid p m = p * 2 ^ 56 + m) as Heq.
  { unfold PIPELINE_SIZE. intros p m Hp Hm. unfold make_tid. change 127 with (Z.ones 7).
    rewrite Z.land_ones, Z.mod_small, Z.shiftl_mul_pow2, u64_small by lia. done. }
  intros Hp Hn. rewrite !(Heq _ _ Hp Hn). unfold PIPELINE_SIZE in *. split_and!.
  - unfold i64. rewrite Z.mod_small; lia.
  - lia.
  - rewrite Z.shiftr_div_pow2, Z.div_add_l, Z.div_small by lia. lia.
  - rewrite Z.land_ones by lia. rewrite Z.add_comm, Z.mod_add, Z.mod_small by lia. done.
  - intros p' n' Hp' Hn'. rewrite (Heq _ _ Hp' Hn'). nia.
Qed.

Lemma make_tid_decodes_witness : Z.shiftr (make_tid 3 5) 56 = 3.
Proof. apply (make_tid_decodes 3 5); unfold PIPELINE_SIZE; lia. Defined.

(** * Completion and shutdown *)

(** C3: One pass of [done_requests_handler] over a done queue it can lock frees
    every completed request exactly once and in order, calls the responder of
    exactly those that are not cancelled, leaves both queues empty, touches no
    other request and keeps the invariant, provided no responder disconnects. *)
Theorem done_requests_handler_completes respond busy ev w :
  (forall f c d fl, has_flag (respond f c d fl) RESPONDER_DISCONNECT = false) -> pinv w ->
  request_head (done_rqcb w) <> [] -> ev <> EV_TIMEOUT ->
  let l := final_request_head w ++ request_head (done_rqcb w) in
  exists w', done_requests_handler respond busy false ev w = Some w' /\ pinv w' /\
    final_request_head w' = [] /\ request_head (done_rqcb w') = [] /\
    (forall x, requests w' !! x = if bool_decide (x ∈ l) then None else requests w !! x) /\
    frees (trace w') = frees (trace w) ++ l /\
    answers (trace w') = answers (trace w) ++ List.filter (wanted (requests w)) l.
Proof.
  intros Hresp Hinv Hne Hev l.
  destruct (done_requests_handler_spec respond busy ev w Hresp Hinv Hne Hev) as (w' & E & Hd & w1 & Hu & Hc).
  destruct Hu as (Hr & _ & _ & Ht). destruct Hc as (Hinv' & Hf' & _ & Hr' & Hfr & Ha).
  assert (requests (get_done_requests false w1) = requests w /\ trace (get_done_requests false w1) = trace w) as [Hr1 Ht1].
  { unfold get_done_requests. by case_match. }
  rewrite Hr1 in Hr'. rewrite Hr1 in Ha. rewrite Ht1 in Ha, Hfr. exists w'. split; [done|]. split; [done|]. by split_and!.
Qed.

(** The request 10 pushed through both stages. *)
Definition demo_path : list op :=
  [OKick (fun _ => false); OLoop 0; ORun (mk_outcome PIPELINE_CONTINUE 0 None) 0 10;
   OLoop 1; ORun (mk_outcome PIPELINE_CONTINUE 0 None) 1 10].

(** A run of enabled steps keeps the invariant. *)
Fixpoint runs (os : list op) (w w' : world) : Prop :=
  match os with
  | [] => w = w'
  | o :: os' => enabled o w /\ exists w1, exec o w = Some w1 /\ runs os' w1 w'
  end.

Lemma runs_pinv os w w' : pinv w -> runs os w w' -> pinv w'.
Proof.
  revert w. induction os as [|o os IH]; intros w Hw; cbn; [by intros <-|].
  intros (Hen & w1 & E & Hr). destruct (exec_pinv o w Hw Hen) as (w1' & E' & Hw1). apply (IH w1); congruence.
Qed.

Definition demo3 : world := default demo2 (run demo_path demo2).

(** Closing the side conditions of a step of a concrete run. *)
Ltac run_step :=
  split;
  [ cbn [enabled]; unfold thread_at;
    repeat match goal with
           | |- True => exact I
           | |- _ /\ _ => split
           | |- exists _, _ => eexists
           | |- forall _, _ => intros
           | H : h_next _ = Some _ |- _ => discriminate H
           | H : requests _ !! _ = Some _ |- _ => vm_compute in H; injection H as <-
           | |- _ = _ => vm_compute; reflexivity
           | |- _ <= _ => vm_compute; discriminate
           end
  | eexists; split; [vm_compute; reflexivity|] ].

Lemma demo3_pinv : pinv demo3.
Proof.
  apply (runs_pinv demo_path demo2 demo3 demo2_pinv). unfold demo_path. do 5 run_step. vm_compute. reflexivity.
Qed.

Lemma done_requests_handler_completes_witness :
  exists w', done_requests_handler (fun _ _ _ _ => RESPONDER_CLEAN) (fun _ => false) false 2 demo3 = Some w' /\
    requests w' !! 10%nat = None /\ answers (trace w') = [10%nat].
Proof.
  destruct (done_requests_handler_completes (fun _ _ _ _ => RESPONDER_CLEAN) (fun _ => false) 2 demo3)
    as (w' & E & _ & _ & _ & Hr & _ & Ha).
  - done.
  - exact demo3_pinv.
  - vm_compute. discriminate.
  - done.
  - exists w'. split; [exact E|]. split; [rewrite Hr|rewrite Ha]; vm_compute; reflexivity.
Defined.

(** A worker that is woken up leaves its loop only during a graceful restart
    and when no request is left anywhere in the server. *)
Theorem worker_exits_idle t w w' th' :
  pinv w -> Z.of_nat (size (requests w)) < 2 ^ 64 -> thread_at t PcWait w ->
  worker_wake rc_ok t w = Some w' -> threads w' !! t = Some th' -> t_pc th' = PcExited ->
  graceful_restart w = true /\ requests w = ∅.
Proof.
  intros Hinv Hsz (th & Ht & Hpc) E Ht' Hpc'. unfold worker_wake in E.
  destruct (graceful_restart w && (pipeline_queue_len w =? 0)) eqn:Eg.
  { apply andb_true_iff in Eg as [Hg Hn]. bool_props. split; [done|].
    destruct Hinv as (_ & _ & _ & Hq). rewrite Hn, u64_small in Hq by lia.
    apply map_size_empty_iff. lia. }
  exfalso. rewrite Ht in E. cbn in E. destruct (wf_get_thread _ _ _ (proj1 Hinv) Ht) as [Hi _].
  destruct (lookup_lt_is_Some_2 _ _ Hi) as [q Hq]. rewrite Hq in E. cbn in E.
  pose proof (lookup_lt_Some _ _ _ Ht) as Hlt.
  destruct (request_head q) as [|r l]; simplify_eq/=; [congruence|].
  unfold worker_take in E. rewrite Hq in E. cbn in E. destruct (requests w !! r) as [rq|] eqn:Hr; cbn in E; [|done].
  case_match; [by rewrite (upd_thread_eq _ _ _ _ Ht) in E; simplify_eq/=; rewrite list_lookup_insert_eq in Ht' by done; simplify_eq|].
  rewrite (upd_rqcb_eq _ _ _ _ Hq) in E. cbn -[to_done_stage] in E. case_match.
  - erewrite upd_request_eq in E by exact Hr. cbn -[to_done_stage] in E. erewrite upd_thread_eq in E by (rewrite threads_to_done; exact Ht).
    simplify_eq/=. rewrite threads_to_done in Ht'. cbn in Ht'. rewrite list_lookup_insert_eq in Ht' by done. by simplify_eq.
  - erewrite upd_thread_eq in E by exact Ht. simplify_eq/=. rewrite list_lookup_insert_eq in Ht' by done. by simplify_eq.
Qed.

(** The restart of an idle configuration whose first thread waits. *)
Definition demo_idle : world := default demo (run [OLoop 0; OHup] demo).

Lemma worker_exits_idle_witness : graceful_restart demo_idle = true /\ requests demo_idle = ∅.
Proof.
  eapply (worker_exits_idle 0 demo_idle).
  - apply (runs_pinv [OLoop 0; OHup] demo demo_idle (booted_pinv demo demo_booted)). do 2 run_step. vm_compute. reflexivity.
  - vm_compute. reflexivity.
  - eexists. split; vm_compute; reflexivity.
  - vm_compute. reflexivity.
  - vm_compute. reflexivity.
  - vm_compute. reflexivity.
Defined.

(** * Where the code leaves its invariant *)

(** C40: When a handler continues or re-queues a request that has passed more
    than 256 stages, [submit_next] reports the loop by putting the request in the
    done queue and then goes on and queues it a second time. *)
Theorem submit_next_loop_duplicates w t th i r rq :
  wf w -> threads w !! t = Some th -> (i < length (rqcbs w))%nat -> requests w !! r = Some rq ->
  MAX_STAGE_JUMP < nstage rq -> ret rq = PIPELINE_CONTINUE \/ ret rq = PIPELINE_REQUEUE ->
  exists w', submit_next rc_ok t i r w = Some w' /\ occ r w' = (occ r w + 2)%nat.
Proof.
  intros Hw Ht Hi Hr Hn Hret. set (rq1 := set_err REQUEST_LOOP rq).
  set (w1 := set_requests (<[r:=rq1]> (requests w)) w). set (w2 := to_done_stage rc_ok r w1).
  assert (check_loop rc_ok r w = Some w2) as Hcl.
  { unfold check_loop. rewrite Hr. cbn -[to_done_stage]. rewrite (proj2 (Z.ltb_lt _ _) Hn).
    by rewrite (upd_request_eq _ _ _ _ Hr). }
  assert (moves [] [r] w w2) as Hm2.
  { pose proof (moves_upd_request r (set_err REQUEST_LOOP) w rq Hw Hr eq_refl) as Hm.
    exact (moves_trans _ _ _ _ _ _ _ Hm (moves_to_done rc_ok r _ (moves_wf _ _ _ _ Hm) eq_refl)). }
  assert (wf w2) as Hw2 by (by eapply moves_wf). assert (length (rqcbs w2) = length (rqcbs w)) as Hl2 by apply Hm2.
  assert (requests w2 !! r = Some rq1) as Hr2.
  { unfold w2. rewrite requests_to_done. apply lookup_insert_eq. }
  assert (threads w2 !! t = Some th) as Ht2 by (unfold w2; by rewrite threads_to_done).
  assert (forall m, (exists w', m = Some w' /\ moves [] [r] w2 w') ->
    exists w', m = Some w' /\ occ r w' = (occ r w + 2)%nat) as Hfin.
  { intros m (w' & E & Hm). exists w'. split; [done|].
    destruct (moves_trans _ _ _ _ _ _ _ Hm2 Hm) as (_ & _ & _ & _ & _ & Hx). specialize (Hx r).
    cbn [app occurs] in Hx. rewrite Nat.eqb_refl in Hx. lia. }
  unfold submit_next. rewrite Hr. cbn -[to_done_stage check_loop to_next_stage]. rewrite Hcl.
  cbn -[to_done_stage check_loop to_next_stage]. destruct Hret as [-> | ->]; cbn -[to_done_stage to_next_stage].
  2:{ apply Hfin. eapply moves_to_next; try done. by rewrite Hl2. }
  rewrite Ht2. destruct (lookup_lt_is_Some_2 (rqcbs w2) i) as [q Hq]; [by rewrite Hl2|]. rewrite Hq.
  cbn -[to_done_stage to_next_stage]. apply Hfin.
  destruct (moves_thread_quiet w2 t (set_t_next_rqcbp None) th Hw2 Ht2 eq_refl I eq_refl)
    as (w3 & -> & Ht3 & Hq3 & Hr3 & Hm3). cbn -[to_done_stage to_next_stage].
  destruct (match t_next_rqcbp th with Some j => Some j | None => next_rqcb q end) as [j|] eqn:Ej.
  - assert (j < length (rqcbs w3))%nat.
    { rewrite Hq3. destruct (wf_get_thread _ _ _ Hw2 Ht2) as [_ Hnx]. destruct (wf_stage _ _ _ Hw2 Hq) as [_ Hnq].
      destruct (t_next_rqcbp th); simplify_eq/=; [done|]. by rewrite Ej in Hnq. }
    destruct (moves_to_next rc_ok j r w3 rq1) as (w' & E & Hm4); [by eapply moves_wf|done|done|congruence|].
    exists w'. split; [done|]. exact (moves_trans _ _ _ _ _ _ _ Hm3 Hm4).
  - eexists. split; [done|].
    exact (moves_trans _ _ _ _ _ _ _ Hm3 (moves_to_done rc_ok r w3 (moves_wf _ _ _ _ Hm3) eq_refl)).
Qed.

(** A request that went round 257 times. *)
Definition demo_looping : world :=
  set_requests {[10%nat := mk_request None 0 None 0 0 257 0 (Some 0%nat) 0 PIPELINE_REQUEUE 0 0]} demo.

Lemma submit_next_loop_duplicates_witness :
  exists w', submit_next rc_ok 0 0 10 demo_looping = Some w' /\ occ 10 w' = 2%nat.
Proof.
  eapply (submit_next_loop_duplicates demo_looping 0 _ 0 10).
  - exact (proj1 (booted_pinv demo demo_booted)).
  - vm_compute. reflexivity.
  - cbn. lia.
  - vm_compute. reflexivity.
  - vm_compute. reflexivity.
  - right. reflexivity.
Defined.

(** The requests 10 and 11 fill the first stage, 12 is forced in and kicks 10
    out; 11 and 12 are then processed and all three are answered. *)
Definition kick_out_path : list op :=
  [demo_conn; demo_submit 10 false; demo_submit 11 false;
   OSubmit 12 demo_block (demo_submission (Z.lor REQUEST_FORCE REQUEST_KICK_OUT)) false;
   OLoop 0; ORun (mk_outcome PIPELINE_BREAK 0 None) 0 11;
   OLoop 0; ORun (mk_outcome PIPELINE_BREAK 0 None) 0 12;
   ODone (fun _ _ _ _ => RESPONDER_CLEAN) (fun _ => false) false 2].

(** Evicting a request with REQUEST_KICK_OUT decrements
    [pipeline_queue_len] when it leaves the stage and again when it is answered:
    after a run that serves every request the counter has wrapped below zero, and
    from then on every submission that is not forced is refused as over the limit. *)
Theorem kick_out_counter_underflow :
  exists w, run kick_out_path demo = Some w /\ requests w = ∅ /\ pipeline_queue_len w = 2 ^ 64 - 1 /\
    forall rc busy r stale a, 0 <= s_pid a < PIPELINE_SIZE -> get_pcb (Z.to_nat (s_pid a)) w <> None ->
      has_flag (s_flags a) REQUEST_FORCE = false ->
      submit_request rc busy r stale a w = Some (SUBMIT_QUEUE_FULL, w).
Proof.
  destruct (run kick_out_path demo) as [w|] eqn:E; [|vm_compute in E; discriminate E].
  exists w. split; [done|]. assert (requests w = ∅ /\ pipeline_queue_len w = 2 ^ 64 - 1 /\ pipeline_queue_size w = 2 /\
    graceful_restart w = false /\ bool_decide (length (pcb w) = 16%nat) = true /\
    forallb (fun op => match op with Some pc => match first_rqcbp pc with Some _ => true | None => false end | None => true end)
      (pcb w) = true) as (H1 & H2 & H3 & H4 & H5 & H6).
  { vm_compute in E. injection E as <-. vm_compute. split_and!; reflexivity. }
  clear E. split; [done|]. split; [done|]. intros rc busy r stale a Hp Hpc Hf. unfold submit_request.
  rewrite (proj2 (Z.leb_gt _ _)), H4 by lia. unfold get_pcb in Hpc.
  destruct (pcb w !! Z.to_nat (s_pid a)) as [[pc|]|] eqn:Ep; [|done..]. cbn.
  rewrite forallb_forall in H6. specialize (H6 (Some pc) ltac:(apply list_elem_of_In; by eapply list_elem_of_lookup_2)).
  cbn in H6. destruct (first_rqcbp pc); [|done]. by rewrite Hf, H2, H3.
Qed.

(** Two requests of one connection whose responders both ask for a disconnect. *)
Definition disconnect_path : list op :=
  [demo_conn; demo_submit 10 false; demo_submit 11 false;
   OLoop 0; ORun (mk_outcome PIPELINE_BREAK 0 None) 0 10;
   OLoop 0; ORun (mk_outcome PIPELINE_BREAK 0 None) 0 11].

(** A responder that returns RESPONDER_DISCONNECT, or RESPONDER_ERROR whose
    bits include it, gives up the reference of the connection each time: when two
    requests of one connection do so in one pass, the second use of the
    connection is a use of freed memory. *)
Theorem disconnect_twice_use_after_free rc :
  rc = RESPONDER_DISCONNECT \/ rc = RESPONDER_ERROR ->
  exists w, run disconnect_path demo = Some w /\
    done_requests_handler (fun _ _ _ _ => rc) (fun _ => false) false 2 w = None.
Proof.
  intros Hrc. exists (default demo (run disconnect_path demo)). split; [vm_compute; reflexivity|].
  destruct Hrc as [-> | ->]; vm_compute; reflexivity.
Qed.

Lemma disconnect_twice_use_after_free_witness :
  exists w, run disconnect_path demo = Some w /\
    done_requests_handler (fun _ _ _ _ => RESPONDER_ERROR) (fun _ => false) false 2 w = None.
Proof. apply (disconnect_twice_use_after_free RESPONDER_ERROR). right. reflexivity. Defined.

(** Three stages in a row. *)
Definition demo_three : world :=
  set_rqcbs [demo_stage (Some 1%nat) (L"parse"); demo_stage (Some 2%nat) (L"check"); demo_stage None (L"store")] demo.

(** The handler of the first stage chooses the third stage for the request 10 and
    then breaks; for the request 11 it only continues. *)
Definition stale_path (first : option nat) : list op :=
  [demo_conn; demo_submit 10 false; demo_submit 11 false;
   OLoop 0; ORun (mk_outcome PIPELINE_BREAK 0 first) 0 10;
   OLoop 0; ORun (mk_outcome PIPELINE_CONTINUE 0 None) 0 11].

(** [submit_next] forgets the stage chosen with [set_next_stage] only when the
    handler returns PIPELINE_CONTINUE: after another result the choice stays with the
    thread and sends its next request, whose handler chose nothing, past the stage
    it should visit. *)
Theorem stale_stage_choice :
  (fun w => request_head <$> rqcbs w) <$> run (stale_path None) demo_three = Some [[]; [11%nat]; []] /\
  (fun w => request_head <$> rqcbs w) <$> run (stale_path (Some 2%nat)) demo_three = Some [[]; []; [11%nat]].
Proof. split; vm_compute; reflexivity. Qed.
