(* ===== verification/PipelineTypes.v ===== *)
(** The types of the request pipeline of Pipeline.v: each field of the structures
    of pipeline_def.h, server.h and pipeline.c holds a value of its C type, and
    the fields that go together agree. No operation can leave these types, also
    where the invariant of PipelineInv.v is left: with evictions, disconnects,
    requests that loop and pthread calls that fail. *)

From S2P Require Import Prelude Pipeline PipelineInv PipelineProps.

(** * The types *)

Definition is_u32 (z : Z) : Prop := 0 <= z < 2 ^ 32.
Definition is_u64 (z : Z) : Prop := 0 <= z < 2 ^ 64.
Definition is_int (z : Z) : Prop := - 2 ^ 31 <= z < 2 ^ 31.

Record request_typed (rq : REQUEST) : Prop := {
  rt_pipeline_id : is_u32 (r_pipeline_id rq);
  rt_tid : is_u64 (tid rq);
  rt_nstage : is_u32 (nstage rq);
  rt_flags : flags rq = REQUEST_NONE \/ flags rq = REQUEST_KICK_OUT \/ flags rq = REQUEST_TIME_OUT;
  rt_ret : is_int (ret rq);
  rt_err : is_int (err rq);
  rt_cancelled : cancelled rq = 0 \/ cancelled rq = 1
}.

Record rqcb_typed (q : RQCB) : Prop := {
  qt_queue_id : is_int (queue_id q);
  qt_queue_len : is_u32 (queue_len q);
  qt_thread_num : is_u32 (thread_num q);
  qt_delay : is_u32 (delay q);
  qt_rqst_num : is_u32 (rqst_num q);
  qt_request_count : is_u64 (request_count q)
}.

Record pcb_typed (p : PCB) : Prop := {
  pt_counter : is_u64 (counter p);
  pt_pipeline_id : is_u32 (pipeline_id p);
  pt_tmp_queue_len : is_u32 (tmp_queue_len p)
}.

Record conn_typed (c : CONN_STATE) : Prop := {
  ct_type : is_int (ci_type c);
  ct_fd : is_int (ci_fd c);
  ct_ref_cnt : is_u64 (ref_cnt c)
}.

(** A thread's [status] is one of the enumeration, and [status] and [cur_rqst]
    tell what the thread does: a thread in its wait shows no request, one that
    runs a handler shows the request of the handler. *)
Record thread_typed (th : PIPELINE_THREAD) : Prop := {
  tt_status : t_status th ∈ [THREAD_STARTING; THREAD_WAITING; THREAD_BUSY; THREAD_DONE];
  tt_rqst_num : is_u64 (t_rqst_num th);
  tt_shows : match t_pc th with
             | PcWait => t_status th = THREAD_WAITING /\ t_cur_rqst th = None
             | PcBusy r => t_status th = THREAD_BUSY /\ t_cur_rqst th = Some r
             | PcLoop | PcExited => True
             end
}.

(** The whole state; the pipe to the event loop holds one byte while
    [done_signalled] is set and none otherwise, so a write never blocks. *)
Record typed (w : world) : Prop := {
  ty_rqcbs : Forall rqcb_typed (rqcbs w);
  ty_done_rqcb : rqcb_typed (done_rqcb w);
  ty_pcb : Forall (fun op => forall p, op = Some p -> pcb_typed p) (pcb w);
  ty_pcbs : Z.of_nat (length (pcb w)) = PIPELINE_SIZE;
  ty_requests : map_Forall (fun _ => request_typed) (requests w);
  ty_conns : map_Forall (fun _ => conn_typed) (conns w);
  ty_threads : Forall thread_typed (threads w);
  ty_queue_size : is_u64 (pipeline_queue_size w);
  ty_queue_len : is_u64 (pipeline_queue_len w);
  ty_timeout : is_int (request_timeout w);
  ty_inc : is_u64 (inc w);
  ty_working : is_u64 (pipeline_working_threads w);
  ty_pipe : done_pipe w = Z.b2z (done_signalled w)
}.

(** * The steps, with pthread calls that may fail *)

Definition exec_rc (rc : pthread_rc) (o : op) (w : world) : option world :=
  match o with
  | OSubmit r stale a busy => snd <$> submit_request rc busy r stale a w
  | OLoop t => worker_loop rc t w
  | OWake t => worker_wake rc t w
  | ORun out t r => worker_run rc out t r w
  | _ => exec o w
  end.

(** What the caller hands over is of its type: the block of [smalloc] as far as
    it is read, the socket, errno. A thread looks at its queue from the top of its
    loop. *)
Definition op_typed (o : op) (w : world) : Prop :=
  match o with
  | OSubmit _ stale _ _ => is_u32 (r_pipeline_id stale)
  | OAccept _ ty fd => is_int ty /\ is_int fd
  | OLoop t => thread_at t PcLoop w
  | ORun out _ _ => is_int (h_errno out)
  | _ => True
  end.

Inductive typed_step (w : world) : world -> Prop :=
| typed_step_op rc o w' : op_typed o w -> exec_rc rc o w = Some w' -> typed_step w w'.

(** * Partial results *)

Lemma ensures_for_each {S} (P : S -> Prop) (f : S -> nat -> option S) l s :
  P s -> (forall s x, P s -> ensures P (f s x)) -> ensures P (for_each f s l).
Proof.
  intros Hs Hf. revert s Hs. induction l as [|x l IH]; intros s Hs; cbn; [by apply ensures_Some|].
  eapply ensures_bind; [by apply Hf|]. apply IH.
Qed.

(** * Updates keep the types *)

Create HintDb typed.

Lemma u32_is z : is_u32 (u32 z). Proof. apply u32_range. Qed.
Lemma u64_is z : is_u64 (u64 z). Proof. apply u64_range. Qed.
Lemma i32_is z : is_int (i32 z).
Proof. unfold is_int, i32. pose proof (Z.mod_pos_bound (z + 2 ^ 31) (2 ^ 32) ltac:(lia)). lia. Qed.

#[export] Hint Resolve u32_is u64_is i32_is : typed.

(** Opens the typing of one structure and rebuilds it field by field. *)
Ltac retype := intros; repeat match goal with H : request_typed _ |- _ => destruct H | H : rqcb_typed _ |- _ => destruct H
  | H : pcb_typed _ |- _ => destruct H | H : conn_typed _ |- _ => destruct H | H : thread_typed _ |- _ => destruct H end;
  constructor; cbn; auto with typed; unfold is_u32, is_u64, is_int, REQUEST_LOOP; try lia; try set_solver.

(** The same for the whole state, where every field but one is untouched. *)
Ltac retype_world := intros; repeat match goal with H : typed _ |- _ => destruct H end; constructor; cbn; auto with typed.

Lemma typed_upd_rqcb i f w :
  typed w -> (forall q, rqcb_typed q -> rqcb_typed (f q)) -> ensures typed (upd_rqcb i f w).
Proof.
  intros Hw Hf. apply ensures_read. intros q Hq. apply ensures_Some.
  assert (rqcb_typed q) by (eapply (Forall_lookup_1 _ _ _ _ (ty_rqcbs w Hw) Hq)).
  retype_world. apply Forall_insert; auto.
Qed.

Lemma typed_upd_pcb p f w :
  typed w -> (forall q, pcb_typed q -> pcb_typed (f q)) -> ensures typed (upd_pcb p f w).
Proof.
  intros Hw Hf. apply ensures_read. intros op Hp. apply ensures_read. intros pc ->. apply ensures_Some.
  pose proof (Forall_lookup_1 _ _ _ _ (ty_pcb w Hw) Hp pc eq_refl).
  retype_world; [|by rewrite length_insert]. apply Forall_insert; [done|]. intros ? [= <-]. auto.
Qed.

Lemma typed_set_requests x w :
  typed w -> map_Forall (fun _ => request_typed) x -> typed (set_requests x w).
Proof. retype_world. Qed.

Lemma typed_set_conns x w : typed w -> map_Forall (fun _ => conn_typed) x -> typed (set_conns x w).
Proof. retype_world. Qed.

Lemma typed_upd_request r f w :
  typed w -> (forall q, request_typed q -> request_typed (f q)) -> ensures typed (upd_request r f w).
Proof.
  intros Hw Hf. apply ensures_read. intros rq Hq. apply ensures_Some, typed_set_requests; [done|].
  apply map_Forall_insert_2; [apply Hf, (ty_requests w Hw r rq Hq)|apply Hw].
Qed.

Lemma typed_insert_conn c st w : typed w -> conn_typed st -> typed (set_conns (<[c:=st]> (conns w)) w).
Proof. intros Hw Hc. apply typed_set_conns; [done|]. apply map_Forall_insert_2; [done|apply Hw]. Qed.

Lemma typed_upd_thread_at t f w :
  typed w -> (forall q, threads w !! t = Some q -> thread_typed q -> thread_typed (f q)) -> ensures typed (upd_thread t f w).
Proof.
  intros Hw Hf. apply ensures_read. intros th Hq. apply ensures_Some.
  pose proof (Forall_lookup_1 _ _ _ _ (ty_threads w Hw) Hq). retype_world. apply Forall_insert; auto.
Qed.

Lemma typed_upd_thread t f w :
  typed w -> (forall q, thread_typed q -> thread_typed (f q)) -> ensures typed (upd_thread t f w).
Proof. intros Hw Hf. apply typed_upd_thread_at; auto. Qed.

Lemma typed_set_queue_len x w : typed w -> is_u64 x -> typed (set_pipeline_queue_len x w).
Proof. retype_world. Qed.

Lemma typed_set_done_rqcb x w : typed w -> rqcb_typed x -> typed (set_done_rqcb x w).
Proof. retype_world. Qed.

Lemma typed_set_final x w : typed w -> typed (set_final_request_head x w). Proof. retype_world. Qed.
Lemma typed_set_apq x w : typed w -> typed (set_apq x w). Proof. retype_world. Qed.
Lemma typed_set_trace x w : typed w -> typed (set_trace x w). Proof. retype_world. Qed.
Lemma typed_set_counter x w : typed w -> typed (set_connection_counter x w). Proof. retype_world. Qed.
Lemma typed_set_inc x w : typed w -> is_u64 x -> typed (set_inc x w). Proof. retype_world. Qed.
Lemma typed_emit e w : typed w -> typed (emit e w). Proof. apply typed_set_trace. Qed.

Lemma typed_push r q : rqcb_typed q -> rqcb_typed (rqcb_push r q). Proof. retype. Qed.
Lemma typed_drop r q : rqcb_typed q -> rqcb_typed (rqcb_drop r q). Proof. retype. Qed.

#[export] Hint Resolve typed_upd_rqcb typed_upd_pcb typed_upd_request typed_upd_thread typed_set_queue_len typed_set_done_rqcb
  typed_set_final typed_set_apq typed_set_trace typed_set_counter typed_set_inc typed_emit typed_push typed_drop
  typed_insert_conn : typed.

(** Walks over an operation: binds and reads, tests, updates. *)
Ltac walk := repeat first
  [ match goal with |- forall _, _ => intros end
  | solve [eauto 6 with typed]
  | match goal with
    | |- ensures _ (Some _) => apply ensures_Some
    | |- ensures _ None => done
    | |- ensures typed (match ?x with _ => _ end) => destruct x eqn:?
    | |- ensures typed (@mbind _ _ world _ _ _) => eapply (ensures_bind typed)
    | |- ensures typed (mbind _ _) => eapply ensures_read
    | |- typed (match ?x with _ => _ end) => destruct x eqn:?
    end ].

Lemma typed_signal_done w : typed w -> typed (signal_done w).
Proof. unfold signal_done. destruct (done_signalled w) eqn:E; [done|]. retype_world. rewrite ty_pipe0, E. done. Qed.

Lemma typed_to_done rc r w : typed w -> typed (to_done_stage rc r w).
Proof.
  intros Hw. apply typed_signal_done. case_match; [|done]. apply typed_set_done_rqcb; [done|].
  pose proof (typed_push r _ (ty_done_rqcb w Hw)). cbn zeta. retype.
Qed.

Lemma typed_to_next rc i r w : typed w -> ensures typed (to_next_stage rc i r w).
Proof.
  intros Hw. unfold to_next_stage. case_match; [|by apply ensures_Some]. eapply ensures_bind.
  - apply typed_upd_rqcb; [done|]. retype.
  - intros w1 Hw1. apply typed_upd_request; [done|]. retype.
Qed.

#[export] Hint Resolve typed_signal_done typed_to_done typed_to_next : typed.

Lemma typed_concat p i pc w : typed w -> ensures typed (concat_tmp p i pc w).
Proof.
  intros Hw. eapply ensures_bind; [apply typed_upd_rqcb; [done|]; retype|]. intros w1 Hw1.
  eapply ensures_bind; [apply typed_upd_pcb; [done|]; retype|]. intros w2 Hw2. by apply ensures_Some, typed_set_apq.
Qed.

#[export] Hint Resolve typed_concat : typed.

Lemma typed_kick_one busy w p : typed w -> ensures typed (kick_one busy w p).
Proof. unfold kick_one. walk. Qed.

Lemma typed_kick busy w : typed w -> ensures typed (kick_request_queue busy w).
Proof. intros Hw. apply ensures_for_each; [done|]. intros. by apply typed_kick_one. Qed.

(** * The operations keep the types *)

Lemma typed_conn_lookup c st w : typed w -> conns w !! c = Some st -> conn_typed st.
Proof. intros Hw. apply (ty_conns w Hw c st). Qed.

Lemma typed_hold c w : typed w -> ensures typed (CS_HOLD c w).
Proof.
  intros Hw. apply ensures_read. intros st Hc. apply ensures_Some, typed_insert_conn; [done|].
  pose proof (typed_conn_lookup _ _ _ Hw Hc). retype.
Qed.

Lemma typed_rele c w : typed w -> ensures typed (CS_RELE c w).
Proof.
  intros Hw. apply ensures_read. intros st Hc. cbn zeta. case_match; apply ensures_Some.
  - apply typed_emit, typed_set_conns; [done|]. apply map_Forall_delete, Hw.
  - apply typed_insert_conn; [done|]. pose proof (typed_conn_lookup _ _ _ Hw Hc). retype.
Qed.

Lemma typed_accept c ty fd w : typed w -> is_int ty -> is_int fd -> typed (conn_accept c ty fd w).
Proof. intros Hw Ht Hf. apply typed_set_counter, typed_insert_conn; [done|]. retype. Qed.

Lemma typed_close c w : typed w -> ensures typed (conn_close c w).
Proof.
  intros Hw. apply ensures_read. intros st Hc. case_match; apply ensures_Some; [|done].
  apply typed_emit, typed_insert_conn; [done|]. pose proof (typed_conn_lookup _ _ _ Hw Hc). retype.
Qed.

Lemma typed_lost c w : typed w -> ensures typed (conn_state_cleanup c w).
Proof. intros Hw. by apply typed_rele, typed_emit, typed_set_counter. Qed.

#[export] Hint Resolve typed_hold typed_rele typed_close typed_lost : typed.

Lemma typed_cleanup r w : typed w -> ensures typed (cleanup_request r w).
Proof.
  intros Hw. unfold cleanup_request. cbn zeta. apply ensures_read. intros rq _.
  set (w2 := match data_cleaner rq with Some _ => emit _ _ | None => _ end).
  assert (typed w2) by (unfold w2; walk). clearbody w2.
  eapply (ensures_bind typed); [walk|]. intros w1 Hw1. apply ensures_Some, typed_emit, typed_set_requests; [done|].
  apply map_Forall_delete, Hw1.
Qed.

Lemma typed_get_done busy w : typed w -> typed (get_done_requests busy w).
Proof.
  intros Hw. unfold get_done_requests. repeat case_match; try done.
  apply typed_set_done_rqcb; [by apply typed_set_final|]. pose proof (ty_done_rqcb w Hw). retype.
Qed.

#[export] Hint Resolve typed_cleanup : typed.

Lemma typed_clean_none r w : typed w -> ensures typed (upd_request r (set_data_cleaner None) w).
Proof. intros Hw. apply typed_upd_request; [done|]. retype. Qed.

Lemma typed_broadcast w : typed w -> typed (broadcast_signal_to_allqueue w).
Proof. apply typed_set_trace. Qed.

#[export] Hint Resolve typed_clean_none typed_broadcast : typed.

Lemma typed_respond respond s r : typed s.2 -> ensures (fun s => typed s.2) (respond_one respond s r).
Proof.
  destruct s as [rc w]. cbn [snd]. intros Hw. unfold respond_one. cbn zeta.
  set (w0 := set_pipeline_queue_len _ w). assert (typed w0) as H0 by (apply typed_set_queue_len; auto with typed).
  clearbody w0. apply ensures_read. intros rq _. destruct (csp rq) as [c|]; [|by apply ensures_Some].
  apply ensures_read. intros _ _.
  match goal with |- ensures _ (let '(_, _) := ?m in _) =>
    assert (typed m.2) as H1; [repeat case_match; cbn; auto with typed|destruct m as [rc1 w1]; cbn in H1] end.
  eapply (ensures_bind typed); [walk|]. intros w2 H2. eapply (ensures_bind typed); [walk|]. intros w3 H3.
  eapply (ensures_bind typed); [walk|]. intros w4 H4. apply ensures_Some. cbn. case_match; auto with typed.
Qed.

Lemma typed_done respond busy db ev w : typed w -> ensures typed (done_requests_handler respond busy db ev w).
Proof.
  intros Hw. unfold done_requests_handler. eapply (ensures_bind typed).
  - apply typed_kick. destruct (done_signalled w) eqn:E; [|done]. retype_world. rewrite ty_pipe0, E. done.
  - intros w1 H1. repeat case_match; try by apply ensures_Some.
    eapply ensures_fmap; [|by intros s Hs; exact Hs]. apply ensures_for_each; [by apply typed_get_done|].
    intros. by apply typed_respond.
Qed.

(** * Submission *)

Lemma typed_kick_to_final i r w : typed w -> ensures typed (kick_to_final i r w).
Proof. unfold kick_to_final. walk. Qed.

#[export] Hint Resolve typed_kick_to_final : typed.

Lemma typed_flagged r fl w :
  fl = REQUEST_KICK_OUT \/ fl = REQUEST_TIME_OUT -> typed w -> ensures typed (upd_request r (set_flags fl) w).
Proof. intros Hfl Hw. apply typed_upd_request; [done|]. retype. Qed.

Lemma typed_kick_oldest i w : typed w -> ensures typed (kick_oldest i w).
Proof.
  intros Hw. unfold kick_oldest. apply ensures_read. intros q _. apply ensures_read. intros out _.
  eapply ensures_bind; [apply typed_flagged; auto|]. intros. by apply typed_kick_to_final.
Qed.

Lemma typed_expire i s r : typed s.1 -> ensures (fun s => typed s.1) (expire_one i s r).
Proof.
  destruct s as [w n]. cbn [fst]. intros Hw. apply ensures_read. intros rq _. case_match; [|by apply ensures_Some].
  eapply ensures_bind; [by apply typed_kick_to_final|]. intros. by apply ensures_Some.
Qed.

Lemma typed_blocked p r w : typed w -> ensures typed (send_blocked p r w).
Proof.
  intros Hw. unfold send_blocked. eapply ensures_bind; [apply typed_upd_pcb; [done|]; retype|].
  intros w1 H1. apply ensures_Some. cbn zeta. case_match; auto with typed.
Qed.

Lemma typed_send rc busy p r fl cc w : typed w -> ensures (fun s => typed s.2) (send_to_pipeline rc busy p r fl cc w).
Proof.
  intros Hw. unfold send_to_pipeline. apply ensures_read. intros pc _. apply ensures_read. intros i _. case_match.
  { eapply ensures_bind; [by apply typed_blocked|]. intros. by apply ensures_Some. }
  eapply (ensures_bind typed); [walk|]. intros w1 H1. apply ensures_read. intros q1 _. case_match; [by apply ensures_Some|].
  eapply (ensures_bind (fun s => typed s.1)).
  { case_match; [|by apply ensures_Some]. eapply ensures_bind; [by apply typed_kick_oldest|]. intros. by apply ensures_Some. }
  intros s2 H2. apply ensures_read. intros q2 _. eapply (ensures_bind (fun s => typed s.1)).
  { case_match; [|by apply ensures_Some]. apply ensures_for_each; [done|]. intros. by apply typed_expire. }
  intros s3 H3. cbn zeta. eapply (ensures_bind typed); [walk|]. intros w4 H4.
  repeat case_match; apply ensures_Some; cbn; auto with typed.
Qed.

Lemma typed_new_request a stale w : is_u32 (r_pipeline_id stale) -> request_typed (new_request a stale w).
Proof. intros Hs. constructor; cbn; auto; [apply u64_is|..]; unfold is_u32, is_int; lia. Qed.

Lemma typed_submit rc busy r stale a w :
  is_u32 (r_pipeline_id stale) -> typed w -> ensures (fun s => typed s.2) (submit_request rc busy r stale a w).
Proof.
  intros Hs Hw. unfold submit_request. do 2 (case_match; [by apply ensures_Some|]). apply ensures_read. intros op _.
  do 3 (case_match; try by apply ensures_Some). eapply (ensures_bind typed); [walk|]. intros w1 Hw1. cbn zeta.
  eapply ensures_bind.
  { apply typed_send, typed_set_inc; [|auto with typed]. apply typed_set_requests; [done|].
    apply map_Forall_insert_2; [by apply typed_new_request|apply Hw1]. }
  intros [code w3] Hw3. cbn in Hw3. case_match; [by apply ensures_Some|].
  eapply ensures_bind; [apply typed_upd_pcb; [done|]; retype|]. intros w4 Hw4.
  eapply ensures_bind; [apply typed_upd_rqcb; [done|]; retype|]. intros w5 Hw5. by apply ensures_Some.
Qed.

(** * Worker threads *)

Lemma typed_check_loop rc r w : typed w -> ensures typed (check_loop rc r w).
Proof.
  intros Hw. apply ensures_read. intros rq _. case_match; [|by apply ensures_Some].
  eapply (ensures_bind typed); [apply typed_upd_request; [done|]; retype|]. walk.
Qed.

Lemma typed_next_rqcbp t j w : typed w -> ensures typed (upd_thread t (set_t_next_rqcbp j) w).
Proof. intros Hw. apply typed_upd_thread; [done|]. retype. Qed.

Lemma typed_at_loop t w : typed w -> ensures typed (upd_thread t (set_t_pc PcLoop) w).
Proof. intros Hw. apply typed_upd_thread; [done|]. retype. Qed.

#[export] Hint Resolve typed_check_loop typed_next_rqcbp typed_at_loop : typed.

Lemma typed_submit_next rc t i r w : typed w -> ensures typed (submit_next rc t i r w).
Proof. intros Hw. unfold submit_next. walk. Qed.

Lemma typed_take rc t i r w : typed w -> ensures typed (worker_take rc t i r w).
Proof.
  intros Hw. unfold worker_take. apply ensures_read. intros q _. apply ensures_read. intros rq _. cbn zeta.
  case_match; [by apply typed_at_loop|]. eapply (ensures_bind typed); [walk|]. intros w1 Hw1. case_match.
  - eapply ensures_bind; [apply typed_flagged; auto|]. intros w2 Hw2. by apply typed_at_loop, typed_to_done.
  - apply typed_upd_thread; [done|]. retype.
Qed.

#[export] Hint Resolve typed_submit_next typed_take : typed.

(** At the top of its loop a thread may show anything, in its wait it shows
    nothing. *)
Lemma typed_loop rc t w : typed w -> thread_at t PcLoop w -> ensures typed (worker_loop rc t w).
Proof.
  intros Hw (th & Ht & Hpc). unfold worker_loop. set (th1 := set_t_cur_rqst None (set_t_status THREAD_WAITING th)).
  rewrite (upd_thread_eq _ _ _ _ Ht). cbn -[worker_take]. set (w1 := set_threads _ w).
  assert (typed w1) as Hw1.
  { pose proof (Forall_lookup_1 _ _ _ _ (ty_threads w Hw) Ht) as Hth.
    assert (thread_typed th1) by (destruct Hth; constructor; cbn; [set_solver|done|by rewrite Hpc]).
    unfold w1. retype_world. by apply Forall_insert. }
  assert (threads w1 !! t = Some th1) as Ht1 by (apply list_lookup_insert_eq; by eapply lookup_lt_Some).
  change (<[t:=_]> (threads w) !! t) with (threads w1 !! t). rewrite Ht1. cbn -[worker_take].
  apply ensures_read. intros q _. destruct (request_head q); [|by apply typed_take].
  apply typed_upd_thread_at; [done|]. rewrite Ht1. intros ? [= <-] Hq. destruct Hq. by constructor.
Qed.

Lemma typed_deinit t w : typed w -> ensures typed (thread_deinit t w).
Proof.
  intros Hw. eapply ensures_bind; [apply typed_upd_thread; [done|]; retype|]. intros w1 Hw1. apply ensures_Some.
  assert (typed (set_pipeline_working_threads (u64 (pipeline_working_threads w1 - 1)) w1)) as H by retype_world.
  cbn zeta. case_match; [|done]. apply typed_emit. destruct H. by constructor.
Qed.

#[export] Hint Resolve typed_deinit : typed.

Lemma typed_wake rc t w : typed w -> ensures typed (worker_wake rc t w).
Proof. intros Hw. unfold worker_wake. walk. Qed.

Lemma typed_result r e x w :
  is_int e -> is_int x -> typed w -> ensures typed (upd_request r (fun rq => set_err e (set_ret x rq)) w).
Proof. intros He Hx Hw. apply typed_upd_request; [done|]. retype. Qed.

Lemma is_int_0 : is_int 0. Proof. unfold is_int. lia. Qed.

#[export] Hint Resolve typed_result is_int_0 : typed.

Lemma typed_run rc out t r w : is_int (h_errno out) -> typed w -> ensures typed (worker_run rc out t r w).
Proof.
  intros He Hw. unfold worker_run. apply ensures_read. intros th _. apply ensures_read. intros rq _. cbn zeta.
  apply ensures_read. intros q _. eapply (ensures_bind typed); [walk|].
  intros w3 Hw3. apply typed_upd_thread; [done|]. retype.
Qed.

(** * Every step keeps the types *)

Lemma typed_exec_rc rc o w : op_typed o w -> typed w -> ensures typed (exec_rc rc o w).
Proof.
  intros Ho Hw. destruct o; cbn [exec_rc exec op_typed] in *.
  - apply (ensures_fmap (fun s => typed s.2)); [by apply typed_submit|done].
  - by apply typed_kick.
  - by apply typed_done.
  - destruct req; [|by apply ensures_Some]. apply typed_upd_request; [done|]. retype.
  - destruct Ho. apply ensures_Some. by apply typed_accept.
  - walk.
  - by apply typed_loop.
  - by apply typed_wake.
  - by apply typed_run.
  - apply ensures_Some. retype_world.
  - apply ensures_Some. retype_world.
Qed.

(** The initial states: what the boot leaves in the machine's types. *)
Lemma demo_typed : typed demo.
Proof.
  constructor; cbn; try done; try (unfold is_u64, is_int; lia).
  - repeat constructor; cbn; lia.
  - apply list.Forall_forall. intros op Hop p ->. apply list_elem_of_In in Hop. cbn in Hop.
    repeat (destruct Hop as [[=]|Hop]; [subst; constructor; cbn; unfold is_u32, is_u64; lia|]). by repeat destruct Hop as [|Hop].
  - repeat constructor; cbn; try lia; set_solver.
Qed.

(** A run of typed steps without failing pthread calls, as a test. *)
Definition is_intb (z : Z) : bool := (- 2 ^ 31 <=? z) && (z <? 2 ^ 31).

Definition op_typedb (o : op) (w : world) : bool :=
  match o with
  | OSubmit _ stale _ _ => (0 <=? r_pipeline_id stale) && (r_pipeline_id stale <? 2 ^ 32)
  | OAccept _ ty fd => is_intb ty && is_intb fd
  | OLoop t => match threads w !! t with Some th => match t_pc th with PcLoop => true | _ => false end | None => false end
  | ORun out _ _ => is_intb (h_errno out)
  | _ => true
  end.

Lemma op_typedb_typed o w : op_typedb o w = true -> op_typed o w.
Proof.
  destruct o; cbn; unfold is_intb, is_int, is_u32, thread_at; intros H; bool_props; try done; try lia.
  destruct (threads w !! t) as [th|] eqn:E; [|done]. exists th. by destruct (t_pc th).
Qed.

Fixpoint typed_runs (os : list op) (w : world) : bool :=
  match os with
  | [] => true
  | o :: os' => op_typedb o w && match exec o w with Some w1 => typed_runs os' w1 | None => false end
  end.

Lemma exec_rc_ok o w : exec_rc rc_ok o w = exec o w.
Proof. by destruct o. Qed.

Lemma typed_runs_rtc os w w' : typed_runs os w = true -> run os w = Some w' -> rtc typed_step w w'.
Proof.
  revert w. induction os as [|o os IH]; intros w; cbn; [by intros _ [= <-]|]. intros [Ho Hr]%andb_true_iff.
  destruct (exec o w) as [w1|] eqn:E; [|done]. cbn. intros Hw. apply rtc_l with w1; [|by apply IH].
  apply (typed_step_op w rc_ok o w1 (op_typedb_typed _ _ Ho)). by rewrite exec_rc_ok.
Qed.


