(* ===== verification/PipelineQueues.v ===== *)
(** The queues of the pipeline in linked memory. Pipeline.v keeps the queues of
    requests as lists; here are the TAILQ macros that each function of pipeline.c
    and submit_request.c runs on them, in the order of the code ([exec_ops]), and
    the proof that running these macros on the linked memory of Tailq.v keeps
    every queue equal to its list, in every run of the pipeline. *)

From stdpp Require Import countable.
From S2P Require Import Prelude Slist Tailq QueueClient Pipeline PipelineInv PipelineProps.

(** * The heads *)

(** The queue of a stage, the done queue, the temporary queue of a pipeline and
    the final queue. *)
Inductive qid : Type :=
| QStage (i : nat)
| QDone
| QTmp (p : nat)
| QFinal.

#[export] Instance qid_eq_dec : EqDecision qid.
Proof. solve_decision. Defined.

#[export] Instance qid_countable : Countable qid.
Proof.
  refine (inj_countable'
    (fun k => match k with QStage i => inl (inl i) | QTmp p => inl (inr p) | QDone => inr true | QFinal => inr false end)
    (fun s => match s with inl (inl i) => QStage i | inl (inr p) => QTmp p | inr true => QDone | inr false => QFinal end) _).
  by intros [].
Defined.

#[export] Instance QStage_inj : Inj (=) (=) QStage.
Proof. by intros ? ? [=]. Qed.

#[export] Instance QTmp_inj : Inj (=) (=) QTmp.
Proof. by intros ? ? [=]. Qed.

(** The requests of a world by queue. *)
Definition queues (w : world) : gmap qid (list nat) :=
  <[QFinal:=final_request_head w]> (<[QDone:=request_head (done_rqcb w)]>
    (kmap QStage (map_seq 0 (request_head <$> rqcbs w)) ∪
     kmap QTmp (omap (fmap tmp_request_head) (map_seq 0 (pcb w) : gmap nat (option PCB))))).

(** * The macros the code runs *)

(** [to_next_stage] and [to_done_stage]: TAILQ_INSERT_TAIL under the lock. *)
Definition to_next_ops (rc : pthread_rc) (i r : nat) : list (tqop qid) :=
  if lock_rc rc =? 0 then [TInsertTail (QStage i) r] else [].

Definition to_done_ops (rc : pthread_rc) (r : nat) : list (tqop qid) :=
  if lock_rc rc =? 0 then [TInsertTail QDone r] else [].

(** A loop over a queue, with the macros of its iterations. *)
Fixpoint for_each_ops {S} (f : S -> nat -> option S) (ops : S -> nat -> list (tqop qid)) (s : S) (l : list nat)
  : list (tqop qid) :=
  match l with
  | [] => []
  | x :: l' => ops s x ++ match f s x with Some s' => for_each_ops f ops s' l' | None => [] end
  end.

(** [kick_request_queue]: TAILQ_CONCAT of the temporary queue to the first stage. *)
Definition kick_one_ops (busy : nat -> bool) (w : world) (p : nat) : list (tqop qid) :=
  match get_pcb p w with
  | Some pc =>
      match tmp_request_head pc, first_rqcbp pc with
      | _ :: _, Some i => if busy i then [] else [TConcat (QStage i) (QTmp p)]
      | _, _ => []
      end
  | None => []
  end.

Definition kick_ops (busy : nat -> bool) (w : world) : list (tqop qid) :=
  for_each_ops (kick_one busy) (kick_one_ops busy) w (apq w).

(** [get_done_requests]: TAILQ_CONCAT of the done queue to the final queue. *)
Definition get_done_ops (busy : bool) (w : world) : list (tqop qid) :=
  match request_head (done_rqcb w) with
  | [] => []
  | _ => if busy then [] else [TConcat QFinal QDone]
  end.

(** An iteration of [done_requests_handler]: TAILQ_REMOVE of [cleanup_request]. *)
Definition respond_one_ops (s : Z * world) (r : nat) : list (tqop qid) :=
  match requests s.2 !! r with
  | Some rq => match csp rq with Some _ => [TRemove QFinal r] | None => [] end
  | None => []
  end.

Definition done_ops (respond : Z -> nat -> Z -> Z -> Z) (busy : nat -> bool) (done_busy : bool) (ev : Z) (w : world)
  : list (tqop qid) :=
  let w1 := if done_signalled w
            then set_done_signalled false (set_done_pipe (Z.max 0 (done_pipe w - 16)) w) else w in
  kick_ops busy w1 ++
  match kick_request_queue busy w1 with
  | Some w2 =>
      match request_head (done_rqcb w2) with
      | [] => []
      | _ =>
          if ev =? EV_TIMEOUT then []
          else
            let w3 := get_done_requests done_busy w2 in
            get_done_ops done_busy w2 ++
            for_each_ops (respond_one respond) respond_one_ops (Z.lor RESPONDER_OK RESPONDER_CLEAN, w3)
              (final_request_head w3)
      end
  | None => []
  end.

(** The evictions of [send_to_pipeline]: TAILQ_REMOVE and TAILQ_INSERT_TAIL. *)
Definition kick_to_final_ops (i r : nat) : list (tqop qid) := [TRemove (QStage i) r; TInsertTail QFinal r].

Definition expire_one_ops (i : nat) (s : world * bool) (r : nat) : list (tqop qid) :=
  match requests s.1 !! r with
  | Some rq => if request_timeout s.1 <? clock_off s.1 - clock rq then kick_to_final_ops i r else []
  | None => []
  end.

Definition kick_oldest_ops (i : nat) (w : world) : list (tqop qid) :=
  match rqcbs w !! i with
  | Some q => match head (request_head q) with Some out => kick_to_final_ops i out | None => [] end
  | None => []
  end.

(** [send_to_pipeline] once the stage is locked and the temporary queue joined. *)
Definition send_locked_ops (i r : nat) (fl : Z) (w1 : world) : list (tqop qid) :=
  match rqcbs w1 !! i with
  | None => []
  | Some q1 =>
      if negb (has_flag fl REQUEST_FORCE) && (pipeline_queue_size w1 <=? queue_len q1) then []
      else
        let kick := has_flag fl REQUEST_FORCE && has_flag fl REQUEST_KICK_OUT && (pipeline_queue_size w1 <=? queue_len q1) in
        match (if kick then kick_oldest i w1 else Some w1) with
        | None => []
        | Some w2 =>
            (if kick then kick_oldest_ops i w1 else []) ++
            (if has_flag fl REQUEST_TIME_OUT && negb (request_timeout w2 =? 0)
             then match rqcbs w2 !! i with
                  | Some q2 => for_each_ops (expire_one i) (expire_one_ops i) (w2, kick) (request_head q2)
                  | None => []
                  end
             else []) ++
            [TInsertTail (QStage i) r]
        end
  end.

Definition send_ops (busy : bool) (p r : nat) (fl : Z) (concat : bool) (w : world) : list (tqop qid) :=
  match get_pcb p w with
  | Some pc =>
      match first_rqcbp pc with
      | Some i =>
          if busy then [TInsertTail (QTmp p) r]
          else (if concat then [TConcat (QStage i) (QTmp p)] else []) ++
               match (if concat then concat_tmp p i pc w else Some w) with
               | Some w1 => send_locked_ops i r fl w1
               | None => []
               end
      | None => []
      end
  | None => []
  end.

Definition submit_ops (busy : bool) (r : nat) (stale : REQUEST) (a : submission) (w : world) : list (tqop qid) :=
  if (PIPELINE_SIZE <=? s_pid a) || graceful_restart w then []
  else
    match get_pcb (Z.to_nat (s_pid a)) w with
    | Some pc =>
        if negb (has_flag (s_flags a) REQUEST_FORCE) && (pipeline_queue_size w <=? pipeline_queue_len w) then []
        else
          match (match s_conn a with Some c => CS_HOLD c w | None => Some w end) with
          | Some w1 =>
              let w2 := set_inc (u64 (inc w1 + 1)) (set_requests (<[r:=new_request a stale w1]> (requests w1)) w1) in
              send_ops busy (Z.to_nat (s_pid a)) r (s_flags a)
                (match tmp_request_head pc with [] => false | _ => true end) w2
          | None => []
          end
    | None => []
    end.

(** [worker_thread]: TAILQ_REMOVE, and the insertions of [submit_next]. *)
Definition check_loop_ops (rc : pthread_rc) (r : nat) (w : world) : list (tqop qid) :=
  match requests w !! r with
  | Some rq => if MAX_STAGE_JUMP <? nstage rq then to_done_ops rc r else []
  | None => []
  end.

Definition submit_next_ops (rc : pthread_rc) (t i r : nat) (w : world) : list (tqop qid) :=
  match requests w !! r with
  | None => []
  | Some rq =>
      if ret rq =? PIPELINE_FAILED then to_done_ops rc r
      else if ret rq =? PIPELINE_CONTINUE then
        check_loop_ops rc r w ++
        match threads w !! t, rqcbs w !! i with
        | Some th, Some q =>
            match (match t_next_rqcbp th with Some j => Some j | None => next_rqcb q end) with
            | Some j => to_next_ops rc j r
            | None => to_done_ops rc r
            end
        | _, _ => []
        end
      else if ret rq =? PIPELINE_BREAK then to_done_ops rc r
      else if ret rq =? PIPELINE_REQUEUE then check_loop_ops rc r w ++ to_next_ops rc i r
      else to_done_ops rc r
  end.

Definition worker_take_ops (rc : pthread_rc) (i r : nat) (w : world) : list (tqop qid) :=
  match rqcbs w !! i, requests w !! r with
  | Some q, Some rq =>
      let cl := clock_off w - clock rq in
      if negb (delay q =? 0) && (cl <? delay q) then []
      else TRemove (QStage i) r ::
        (if negb (request_timeout w =? 0) && negb (clock rq =? 0) && (request_timeout w <? cl)
         then to_done_ops rc r else [])
  | _, _ => []
  end.

Definition worker_look_ops (rc : pthread_rc) (t : nat) (w : world) : list (tqop qid) :=
  match threads w !! t with
  | Some th =>
      match rqcbs w !! t_rqcb th with
      | Some q => match request_head q with [] => [] | r :: _ => worker_take_ops rc (t_rqcb th) r w end
      | None => []
      end
  | None => []
  end.

Definition worker_run_ops (rc : pthread_rc) (out : handler_outcome) (t r : nat) (w : world) : list (tqop qid) :=
  match threads w !! t, requests w !! r with
  | Some th, Some rq =>
      match rqcbs w !! t_rqcb th with
      | None => []
      | Some q =>
          if cancelled rq =? 0 then
            match request_handler q with
            | Some _ =>
                if t_init_flag th =? PIPELINE_SUCCESS then
                  match (w1 ← upd_request r (fun rq => set_err (h_errno out) (set_ret (i32 (h_ret out)) rq)) w;
                         match h_next out with
                         | Some j => upd_thread t (set_t_next_rqcbp (Some j)) w1
                         | None => Some w1
                         end) with
                  | Some w2 => submit_next_ops rc t (t_rqcb th) r w2
                  | None => []
                  end
                else to_done_ops rc r
            | None => to_done_ops rc r
            end
          else to_done_ops rc r
      end
  | _, _ => []
  end.

(** The macros of one step of the pipeline. *)
Definition exec_ops (o : op) (w : world) : list (tqop qid) :=
  match o with
  | OSubmit r stale a busy => submit_ops busy r stale a w
  | OKick busy => kick_ops busy w
  | ODone respond busy db ev => done_ops respond busy db ev w
  | OLoop t => worker_look_ops rc_ok t w
  | OWake t => if graceful_restart w && (pipeline_queue_len w =? 0) then [] else worker_look_ops rc_ok t w
  | ORun out t r => worker_run_ops rc_ok out t r w
  | OCancel _ | OAccept _ _ _ | OLost _ | OTick | OHup => []
  end.

(** The heads that the set-up of the pipeline initialises: the final queue and
    the done queue, those of [request_queue_init], and the temporary queues of the
    pipelines. *)
Definition heads (w : world) : list qid :=
  QFinal :: QDone :: (QStage <$> seq 0 (length (rqcbs w))) ++
  omap (fun p => match get_pcb p w with Some _ => Some (QTmp p) | None => None end) (seq 0 (length (pcb w))).

Definition init_ops (w : world) : list (tqop qid) := TInit <$> heads w.

(** * Lemmas on the map of queues *)

(** What a head holds. *)
Definition qlist (w : world) (k : qid) : option (list nat) :=
  match k with
  | QFinal => Some (final_request_head w)
  | QDone => Some (request_head (done_rqcb w))
  | QStage i => request_head <$> rqcbs w !! i
  | QTmp p => tmp_request_head <$> get_pcb p w
  end.

Lemma queues_lookup w k : queues w !! k = qlist w k.
Proof.
  assert (forall (k : qid) m, (forall i, k <> QStage i) -> (kmap QStage m : gmap qid (list nat)) !! k = None) as Hs.
  { intros k' m Hk. apply lookup_kmap_None; [apply _|]. intros i ->. by destruct (Hk i). }
  assert (forall (k : qid) m, (forall i, k <> QTmp i) -> (kmap QTmp m : gmap qid (list nat)) !! k = None) as Ht.
  { intros k' m Hk. apply lookup_kmap_None; [apply _|]. intros i ->. by destruct (Hk i). }
  unfold queues. destruct k as [i| |p|]; cbn.
  - rewrite !lookup_insert_ne by done. rewrite lookup_union, lookup_kmap, lookup_map_seq_0, list_lookup_fmap by apply _.
    rewrite Ht by done. by destruct (rqcbs w !! i).
  - rewrite lookup_insert_ne, lookup_insert_eq by done. done.
  - rewrite !lookup_insert_ne by done. rewrite lookup_union, Hs by done.
    rewrite lookup_kmap, lookup_omap, lookup_map_seq_0 by apply _. unfold get_pcb. by destruct (pcb w !! p) as [[pc|]|].
  - by rewrite lookup_insert_eq.
Qed.

Lemma queues_ext w w' : (forall k, qlist w' k = qlist w k) -> queues w' = queues w.
Proof. intros Hk. apply map_eq. intros k. by rewrite !queues_lookup. Qed.

(** The map after an update of one part of the world. *)
Lemma queues_final w l : queues (set_final_request_head l w) = <[QFinal:=l]> (queues w).
Proof. apply map_eq. intros k. rewrite lookup_insert, !queues_lookup. by destruct k; case_decide. Qed.

Lemma queues_done w q : queues (set_done_rqcb q w) = <[QDone:=request_head q]> (queues w).
Proof. apply map_eq. intros k. rewrite lookup_insert, !queues_lookup. by destruct k; case_decide. Qed.

Lemma queues_stage w i q : (i < length (rqcbs w))%nat ->
  queues (set_rqcbs (<[i:=q]> (rqcbs w)) w) = <[QStage i:=request_head q]> (queues w).
Proof.
  intros Hi. apply map_eq. intros k. rewrite lookup_insert, !queues_lookup. destruct k as [j| |p|]; cbn; try by case_decide.
  rewrite list_lookup_insert. repeat case_decide; naive_solver.
Qed.

Lemma queues_tmp w p pc : (p < length (pcb w))%nat ->
  queues (set_pcb (<[p:=Some pc]> (pcb w)) w) = <[QTmp p:=tmp_request_head pc]> (queues w).
Proof.
  intros Hp. apply map_eq. intros k. rewrite lookup_insert, !queues_lookup. destruct k as [j| |p'|]; cbn; try by case_decide.
  unfold get_pcb. cbn. rewrite list_lookup_insert. repeat case_decide; naive_solver.
Qed.

(** A request that no queue holds. *)
Definition occ_queued (r : nat) (w : world) : nat :=
  (occurs r (final_request_head w) + occurs r (request_head (done_rqcb w)) +
   occ_stages r (rqcbs w) + occ_tmp r (pcb w))%nat.

Lemma not_queued r w : occ_queued r w = 0%nat -> in_no_queue r (queues w) = true.
Proof.
  unfold occ_queued. intros Hz. apply in_no_queue_spec. intros k l. rewrite queues_lookup.
  destruct k as [i| |p|]; cbn; [| |unfold get_pcb|].
  - destruct (rqcbs w !! i) as [q|] eqn:Hq; cbn; [|done]. intros [= <-].
    pose proof (sum_list_with_lookup (fun q => occurs r (request_head q)) _ _ _ Hq). apply occurs_zero.
    unfold occ_stages in Hz. cbn in *. lia.
  - intros [= <-]. apply occurs_zero. lia.
  - destruct (pcb w !! p) as [[pc|]|] eqn:Hp; cbn; [|done..]. intros [= <-].
    pose proof (sum_list_with_lookup (fun op => match op with Some pc => occurs r (tmp_request_head pc) | None => O end) _ _ _ Hp).
    apply occurs_zero. unfold occ_tmp in Hz. cbn in *. lia.
  - intros [= <-]. apply occurs_zero. lia.
Qed.

Lemma not_queued_occ r w : occ r w = 0%nat -> in_no_queue r (queues w) = true.
Proof. intros Hz. apply not_queued. unfold occ in Hz. unfold occ_queued. lia. Qed.

Lemma unlink_filter x l : filter (.≠ x) l = unlink x l.
Proof.
  unfold unlink. induction l as [|y l IH]; [done|]. rewrite filter_cons. cbn.
  destruct (Nat.eqb_spec x y) as [->|Hne]; cbn; [by rewrite decide_False by tauto|].
  rewrite decide_True by done. by rewrite IH.
Qed.

(** * The macros implement the list updates *)

(** Running [ops] on the queues of [w] gives those of [w']. *)
Definition tracks (ops : list (tqop qid)) (w w' : world) : Prop := tqrun tq_spec ops (queues w) = Some (queues w').

Lemma tracks_nil w w' : queues w' = queues w -> tracks [] w w'.
Proof. unfold tracks. by intros ->. Qed.

Lemma tracks_app ops1 ops2 w w1 w2 : tracks ops1 w w1 -> tracks ops2 w1 w2 -> tracks (ops1 ++ ops2) w w2.
Proof. unfold tracks. intros H1 H2. by rewrite tqrun_app, H1. Qed.

Lemma tracks_eq ops w w1 w' : tracks ops w w1 -> queues w' = queues w1 -> tracks ops w w'.
Proof. unfold tracks. by intros ? ->. Qed.

Lemma tracks_push_stage w i r q q' :
  rqcbs w !! i = Some q -> request_head q' = request_head q ++ [r] -> in_no_queue r (queues w) = true ->
  tracks [TInsertTail (QStage i) r] w (set_rqcbs (<[i:=q']> (rqcbs w)) w).
Proof.
  intros Hq Hq' Hr. unfold tracks. cbn. rewrite queues_lookup. cbn. rewrite Hq. cbn. rewrite Hr.
  by rewrite queues_stage, Hq' by (by eapply lookup_lt_Some).
Qed.

Lemma tracks_drop_stage w i r q q' :
  rqcbs w !! i = Some q -> request_head q' = unlink r (request_head q) -> r ∈ request_head q ->
  tracks [TRemove (QStage i) r] w (set_rqcbs (<[i:=q']> (rqcbs w)) w).
Proof.
  intros Hq Hq' Hr. unfold tracks. cbn. rewrite queues_lookup. cbn. rewrite Hq. cbn. rewrite decide_True by done. cbn.
  by rewrite queues_stage, Hq', unlink_filter by (by eapply lookup_lt_Some).
Qed.

Lemma tracks_push_tmp w p r pc pc' :
  pcb w !! p = Some (Some pc) -> tmp_request_head pc' = tmp_request_head pc ++ [r] -> in_no_queue r (queues w) = true ->
  tracks [TInsertTail (QTmp p) r] w (set_pcb (<[p:=Some pc']> (pcb w)) w).
Proof.
  intros Hp Hp' Hr. unfold tracks. cbn. rewrite queues_lookup. cbn. rewrite (get_pcb_eq _ _ _ Hp). cbn. rewrite Hr. cbn.
  by rewrite queues_tmp, Hp' by (by eapply lookup_lt_Some).
Qed.

Lemma tracks_done rc r w : lock_rc rc = 0 -> in_no_queue r (queues w) = true ->
  tracks (to_done_ops rc r) w (to_done_stage rc r w).
Proof.
  intros Hrc Hr. unfold to_done_ops, to_done_stage. rewrite Hrc. cbn [Z.eqb].
  eapply tracks_eq; [|unfold signal_done; by case_match].
  unfold tracks. cbn. rewrite queues_lookup. cbn. rewrite Hr. cbn. by rewrite queues_done.
Qed.

Lemma tracks_concat w p i pc q :
  pcb w !! p = Some (Some pc) -> rqcbs w !! i = Some q ->
  tracks [TConcat (QStage i) (QTmp p)] w (joined_world p i pc q w).
Proof.
  intros Hp Hq. unfold tracks. cbn. rewrite !queues_lookup. cbn. rewrite Hq, (get_pcb_eq _ _ _ Hp). cbn.
  change (Some (queues (joined_world p i pc q w)))
    with (Some (queues (set_pcb (<[p:=Some (emptied pc)]> (pcb w)) (set_rqcbs (<[i:=joined pc q]> (rqcbs w)) w)))).
  rewrite (queues_tmp (set_rqcbs _ w)), queues_stage by (by eapply lookup_lt_Some). done.
Qed.

(** ** Loops over temporary queues *)

Lemma kick_one_tracks busy w p pc :
  wf w -> pcb w !! p = Some (Some pc) ->
  exists w', kick_one busy w p = Some w' /\ tracks (kick_one_ops busy w p) w w'.
Proof.
  intros Hw Hp. unfold kick_one, kick_one_ops. rewrite (get_pcb_eq _ _ _ Hp). cbn.
  destruct (wf_get_pcb _ _ _ Hw Hp) as (_ & i & Hi & Hlt). destruct (lookup_lt_is_Some_2 _ _ Hlt) as [q Hq].
  destruct (tmp_request_head pc) as [|r l] eqn:Et; [by eexists|]. rewrite Hi. cbn.
  destruct (busy i); [by eexists|]. rewrite (concat_tmp_eq _ _ _ _ _ Hp Hq). eexists. split; [done|]. by apply tracks_concat.
Qed.

Lemma kick_loop_tracks busy l w :
  wf w -> (forall p, p ∈ l -> is_Some (get_pcb p w)) ->
  exists w', for_each (kick_one busy) w l = Some w' /\ tracks (for_each_ops (kick_one busy) (kick_one_ops busy) w l) w w'.
Proof.
  revert w; induction l as [|p l IH]; intros w Hw Hl; cbn [for_each for_each_ops]; [by eexists|].
  destruct (proj1 (get_pcb_Some p w) (Hl p ltac:(left))) as [pc Hp].
  destruct (kick_one_spec busy w p pc Hw Hp) as (w1 & E1 & Hm1 & Hs1 & _).
  destruct (kick_one_tracks busy w p pc Hw Hp) as (w1' & E1' & Ht1). rewrite E1 in E1'. apply (inj Some) in E1' as <-.
  rewrite E1. cbn. destruct (IH w1) as (w2 & -> & Ht2).
  - by eapply moves_wf.
  - intros p' Hp'. apply Hs1, Hl. by right.
  - eexists. split; [done|]. by eapply tracks_app.
Qed.

Lemma kick_tracks busy w w' : wf w -> kick_request_queue busy w = Some w' -> tracks (kick_ops busy w) w w'.
Proof.
  intros Hw E. destruct (kick_loop_tracks busy (apq w) w Hw) as (w2 & E2 & Ht).
  - intros p Hp. apply get_pcb_Some. destruct Hw as (_ & _ & _ & (_ & Hin & _) & _). auto.
  - unfold kick_request_queue in E. rewrite E in E2. apply (inj Some) in E2 as <-. done.
Qed.

(** ** Completion *)

Lemma get_done_tracks busy w : tracks (get_done_ops busy w) w (get_done_requests busy w).
Proof.
  unfold get_done_ops, get_done_requests. destruct (request_head (done_rqcb w)) as [|r l] eqn:Ed; [by apply tracks_nil|].
  destruct busy; [by apply tracks_nil|]. unfold tracks. cbn. rewrite !queues_lookup. cbn. rewrite Ed.
  rewrite queues_done, queues_final. done.
Qed.

Lemma CS_RELE_pcb c w w' : CS_RELE c w = Some w' -> pcb w' = pcb w.
Proof. unfold CS_RELE. destruct (conns w !! c); cbn; [|done]. case_match; by intros [= <-]. Qed.

Lemma conn_close_pcb c w w' : conn_close c w = Some w' -> pcb w' = pcb w.
Proof. unfold conn_close. destruct (conns w !! c); cbn; [|done]. case_match; by intros [= <-]. Qed.

Lemma upd_request_pcb r f w w' : upd_request r f w = Some w' -> pcb w' = pcb w.
Proof. unfold upd_request. destruct (requests w !! r); cbn; [|done]. by intros [= <-]. Qed.

Lemma cleanup_request_pcb r w w' : cleanup_request r w = Some w' -> pcb w' = pcb w.
Proof.
  unfold cleanup_request. cbn. destruct (requests w !! r) as [rq|]; cbn; [|done].
  set (w2 := match data_cleaner rq with Some _ => _ | None => _ end).
  assert (pcb w2 = pcb w) as <- by (subst w2; by case_match).
  destruct (csp rq) as [c|]; cbn -[CS_RELE].
  - destruct (CS_RELE c w2) as [w3|] eqn:E; cbn -[CS_RELE]; [|done]. intros [= <-]. by apply CS_RELE_pcb in E.
  - by intros [= <-].
Qed.

Lemma respond_one_pcb respond rc r w rc' w' : respond_one respond (rc, w) r = Some (rc', w') -> pcb w' = pcb w.
Proof.
  unfold respond_one. cbn -[cleanup_request conn_state_cleanup conn_close].
  destruct (requests w !! r) as [rq|]; [|done]. cbn -[cleanup_request conn_state_cleanup conn_close].
  destruct (csp rq) as [c|]; [|by intros [= <- <-]]. destruct (conns w !! c); [|done].
  cbn -[cleanup_request conn_state_cleanup conn_close].
  match goal with |- context [match ?m with (_, _) => _ end] =>
    assert (pcb m.2 = pcb w) as Hm by (by repeat case_match); destruct m as [rc1 w1] end. cbn [snd] in Hm. rewrite <-Hm.
  match goal with |- (?m ≫= _) = _ -> _ => destruct m as [w2|] eqn:E2; [|done] end.
  assert (pcb w2 = pcb w1) as <-.
  { destruct (has_flag rc1 RESPONDER_DISCONNECT); [|by simplify_eq]. destruct (conn_close c w1) as [w1'|] eqn:Ec; [|done]. cbn -[CS_RELE] in E2.
    apply conn_close_pcb in Ec as <-. by apply CS_RELE_pcb in E2. }
  cbn -[cleanup_request]. match goal with |- (?m ≫= _) = _ -> _ => destruct m as [w3|] eqn:E3; [|done] end.
  assert (pcb w3 = pcb w2) as <- by (destruct (has_flag rc1 RESPONDER_CLEAN); [by simplify_eq|by eapply upd_request_pcb]).
  cbn -[cleanup_request]. destruct (cleanup_request r w3) as [w4|] eqn:E4; [|done]. cbn.
  apply cleanup_request_pcb in E4 as <-. destruct (graceful_restart w4 && _); by intros [= _ <-].
Qed.

Lemma respond_one_tracks respond rc r l w rc' w' :
  pinv w -> final_request_head w = r :: l -> respond_one respond (rc, w) r = Some (rc', w') -> finished r w w' ->
  tracks (respond_one_ops (rc, w) r) w w'.
Proof.
  intros Hinv Hf E (_ & _ & Hf' & Hd & Hq & _). assert (exists rq c, requests w !! r = Some rq /\ csp rq = Some c) as (rq & c & Hr & Hc).
  { assert (Hocc := proj1 (proj2 (proj2 Hinv)) r). unfold live, occ in Hocc. rewrite Hf in Hocc.
    pose proof (proj2 (occurs_pos r (r :: l)) ltac:(left)). destruct (requests w !! r) as [rq|] eqn:Hr; [|lia].
    destruct Hinv as (_ & [H1 _] & _). destruct (H1 r (csp rq)) as (c & st & Hc & _); [|by exists rq, c].
    unfold owners. by rewrite lookup_fmap, Hr. }
  unfold respond_one_ops. cbn [snd]. rewrite Hr, Hc. unfold tracks. cbn. rewrite queues_lookup. cbn [qlist mbind option_bind].
  rewrite Hf, decide_True by left. cbn [mbind option_bind]. f_equal.
  pose proof (final_NoDup _ _ _ Hinv Hf) as Hnd. rewrite filter_cons, decide_False, filter_ne_absent by (done || tauto).
  rewrite <-queues_final. symmetry. apply queues_ext. intros k. pose proof (respond_one_pcb _ _ _ _ _ _ E) as Hp.
  assert (final_request_head w' = l) as Hl by congruence. destruct k; cbn; unfold get_pcb; cbn; by rewrite ?Hl, ?Hd, ?Hq, ?Hp.
Qed.

Lemma respond_loop_tracks respond l rc w :
  (forall f c d fl, has_flag (respond f c d fl) RESPONDER_DISCONNECT = false) ->
  has_flag rc RESPONDER_DISCONNECT = false -> pinv w -> final_request_head w = l ->
  exists rc' w', for_each (respond_one respond) (rc, w) l = Some (rc', w') /\
    tracks (for_each_ops (respond_one respond) respond_one_ops (rc, w) l) w w'.
Proof.
  intros Hresp. revert rc w. induction l as [|r l IH]; intros rc w Hrc Hinv Hf; cbn [for_each for_each_ops].
  { exists rc, w. split; [done|by apply tracks_nil]. }
  destruct (respond_one_spec respond rc r l w) as (rc1 & w1 & E1 & Hrc1 & Hfin); [done..|].
  pose proof (respond_one_tracks _ _ _ _ _ _ _ Hinv Hf E1 Hfin) as Ht1. rewrite E1.
  destruct Hfin as (Hinv1 & _ & Hf1 & _). destruct (IH rc1 w1) as (rc' & w' & E & Ht); [done..|congruence|].
  exists rc', w'. split; [exact E|]. by eapply tracks_app.
Qed.

Lemma done_tracks respond busy db ev w w' :
  (forall f c d fl, has_flag (respond f c d fl) RESPONDER_DISCONNECT = false) -> pinv w ->
  done_requests_handler respond busy db ev w = Some w' -> tracks (done_ops respond busy db ev w) w w'.
Proof.
  intros Hresp Hinv. unfold done_requests_handler, done_ops. fold (clear_signal w).
  pose proof (clear_signal_moves w (proj1 Hinv)) as Hm1.
  destruct (kick_request_queue_spec busy (clear_signal w) (moves_wf _ _ _ _ Hm1)) as (w2 & E2 & Hm2 & _).
  pose proof (moves_pinv _ _ _ _ Hinv (fun _ => eq_refl) (moves_trans _ _ _ _ _ _ _ Hm1 Hm2)) as Hinv2.
  assert (tracks (kick_ops busy (clear_signal w)) w w2) as Hk.
  { pose proof (kick_tracks busy _ _ (moves_wf _ _ _ _ Hm1) E2) as Ht. unfold tracks in *.
    assert (queues (clear_signal w) = queues w) as <- by (unfold clear_signal; by case_match). done. }
  rewrite E2. cbn. destruct (request_head (done_rqcb w2)) as [|r l] eqn:Ed; [intros [= <-]; by rewrite app_nil_r|].
  case_match; [intros [= <-]; by rewrite app_nil_r|].
  pose proof (moves_pinv _ _ _ _ Hinv2 (fun _ => eq_refl) (get_done_moves db w2 (proj1 Hinv2))) as Hinv3.
  edestruct (respond_loop_tracks respond (final_request_head (get_done_requests db w2))
    (Z.lor RESPONDER_OK RESPONDER_CLEAN) (get_done_requests db w2)) as (rc' & w3 & E3 & Ht3); [done..|].
  rewrite E3. intros [= <-]. eapply tracks_app; [exact Hk|]. eapply tracks_app; [apply get_done_tracks|done].
Qed.

(** ** Workers *)

Lemma upd_thread_queues t f w w' : upd_thread t f w = Some w' -> queues w' = queues w.
Proof. unfold upd_thread. destruct (threads w !! t); cbn; [|done]. by intros [= <-]. Qed.

Lemma upd_request_queues r f w w' : upd_request r f w = Some w' -> queues w' = queues w.
Proof. unfold upd_request. destruct (requests w !! r); cbn; [|done]. by intros [= <-]. Qed.

Lemma tracks_next rc i r w w' :
  lock_rc rc = 0 -> in_no_queue r (queues w) = true -> to_next_stage rc i r w = Some w' -> tracks (to_next_ops rc i r) w w'.
Proof.
  intros Hrc Hr. unfold to_next_stage, to_next_ops. rewrite Hrc. cbn [Z.eqb]. unfold upd_rqcb.
  destruct (rqcbs w !! i) as [q|] eqn:Hq; cbn -[rqcb_push]; [|done]. intros E%upd_request_queues.
  eapply tracks_eq; [|exact E]. by apply (tracks_push_stage w i r q).
Qed.

Lemma worker_take_tracks w t i q r l w' :
  pinv w -> rqcbs w !! i = Some q -> request_head q = r :: l -> worker_take rc_ok t i r w = Some w' ->
  tracks (worker_take_ops rc_ok i r w) w w'.
Proof.
  intros Hinv Hq Hr. destruct (pinv_head w i q r l Hinv Hq Hr) as [H1 [rq Hrq]]. assert (wf w) as Hw by apply Hinv.
  unfold worker_take, worker_take_ops. rewrite Hq, Hrq. cbn -[to_done_stage]. case_match.
  { intros E%upd_thread_queues. by apply tracks_nil. }
  destruct (moves_drop w i r q Hw Hq H1) as (w1 & E1 & Ht1 & Hr1 & Hm1).
  assert (tracks [TRemove (QStage i) r] w w1) as Hd.
  { rewrite (upd_rqcb_eq _ _ _ _ Hq) in E1. apply (inj Some) in E1 as <-.
    apply (tracks_drop_stage w i r q); [done..|]. rewrite Hr. left. }
  assert (request_timeout w1 = request_timeout w) as Ht.
  { rewrite (upd_rqcb_eq _ _ _ _ Hq) in E1. by apply (inj Some) in E1 as <-. }
  rewrite E1. cbn -[to_done_stage]. rewrite Ht. case_match.
  - rewrite (upd_request_eq r _ w1 rq) by congruence. cbn -[to_done_stage]. intros E%upd_thread_queues.
    apply (tracks_app [TRemove (QStage i) r] _ w w1 w' Hd). eapply tracks_eq; [|exact E].
    apply (tracks_done rc_ok r (set_requests _ w1) eq_refl). apply not_queued_occ.
    destruct Hm1 as (_ & _ & _ & _ & _ & Hx). specialize (Hx r).
    destruct Hinv as (_ & _ & Hocc & _). specialize (Hocc r). unfold live in Hocc. rewrite Hrq in Hocc. cbn [occurs] in Hx.
    rewrite Nat.eqb_refl in Hx. change (occ r (set_requests (<[r:=set_flags REQUEST_TIME_OUT rq]> (requests w1)) w1)) with (occ r w1). lia.
  - intros E%upd_thread_queues. by eapply tracks_eq.
Qed.

Lemma worker_look_tracks w t th q w' :
  pinv w -> threads w !! t = Some th -> rqcbs w !! t_rqcb th = Some q ->
  (forall r l, request_head q = r :: l -> worker_take rc_ok t (t_rqcb th) r w = Some w') ->
  (request_head q = [] -> queues w' = queues w) -> tracks (worker_look_ops rc_ok t w) w w'.
Proof.
  intros Hinv Ht Hq Htake Hempty. unfold worker_look_ops. rewrite Ht, Hq.
  destruct (request_head q) as [|r l] eqn:Er; [by apply tracks_nil; auto|]. by eapply worker_take_tracks; eauto.
Qed.

Lemma worker_take_ops_thread t f rc i r w w1 :
  upd_thread t f w = Some w1 -> worker_take_ops rc i r w1 = worker_take_ops rc i r w.
Proof. unfold upd_thread. destruct (threads w !! t); cbn; [|done]. by intros [= <-]. Qed.

Lemma worker_loop_tracks w t th w' :
  pinv w -> threads w !! t = Some th -> t_pc th = PcLoop -> worker_loop rc_ok t w = Some w' ->
  tracks (worker_look_ops rc_ok t w) w w'.
Proof.
  intros Hinv Ht Hpc. assert (wf w) as Hw by apply Hinv. destruct (wf_get_thread _ _ _ Hw Ht) as [Hi Htn].
  unfold worker_loop.
  destruct (moves_thread_quiet w t (fun th => set_t_cur_rqst None (set_t_status THREAD_WAITING th)) th)
    as (w1 & E1 & Ht1 & Hq1 & Hr1 & Hm1); [done..|]. rewrite E1. cbn [mbind option_bind].
  assert (pinv w1) as Hinv1 by (by eapply moves_pinv). pose proof (upd_thread_queues _ _ _ _ E1) as Hqs.
  destruct (lookup_lt_is_Some_2 _ _ Hi) as [q Hq]. rewrite Ht1. cbn [mbind option_bind t_rqcb set_t_cur_rqst set_t_status].
  rewrite Hq1, Hq. cbn [mbind option_bind].
  assert (worker_look_ops rc_ok t w = worker_look_ops rc_ok t w1) as ->.
  { unfold worker_look_ops. rewrite Ht, Ht1. cbn [t_rqcb set_t_cur_rqst set_t_status]. rewrite Hq1, Hq.
    destruct (request_head q); [done|]. symmetry. by eapply worker_take_ops_thread. }
  intros E. unfold tracks. rewrite <-Hqs. apply (worker_look_tracks w1 t _ q w' Hinv1 Ht1); cbn [t_rqcb set_t_cur_rqst set_t_status].
  - by rewrite Hq1.
  - intros r l Er. by rewrite Er in E.
  - intros Er. rewrite Er in E. by apply upd_thread_queues in E.
Qed.

Lemma worker_wake_tracks w t th w' :
  pinv w -> threads w !! t = Some th -> t_pc th = PcWait -> worker_wake rc_ok t w = Some w' ->
  tracks (exec_ops (OWake t) w) w w'.
Proof.
  intros Hinv Ht Hpc. unfold worker_wake. cbn [exec_ops]. destruct (_ && _).
  { unfold thread_deinit. destruct (upd_thread t (set_t_pc PcExited) w) as [w1|] eqn:E1; cbn; [|done].
    intros [= <-]. apply tracks_nil. rewrite <-(upd_thread_queues _ _ _ _ E1). by case_match. }
  destruct (wf_get_thread _ _ _ (proj1 Hinv) Ht) as [Hi _]. destruct (lookup_lt_is_Some_2 _ _ Hi) as [q Hq].
  rewrite Ht. cbn. rewrite Hq. cbn. intros E. apply (worker_look_tracks w t th q w' Hinv Ht Hq).
  - intros r l Er. by rewrite Er in E.
  - intros Er. rewrite Er in E. by simplify_eq.
Qed.

Lemma submit_next_tracks w t i r rq w' :
  requests w !! r = Some rq -> nstage rq <= MAX_STAGE_JUMP -> in_no_queue r (queues w) = true ->
  submit_next rc_ok t i r w = Some w' -> tracks (submit_next_ops rc_ok t i r w) w w'.
Proof.
  intros Hrq Hn Hr. unfold submit_next, submit_next_ops. rewrite Hrq. cbn -[to_done_stage check_loop].
  rewrite (check_loop_skip _ _ _ _ Hrq Hn). cbn -[to_done_stage].
  assert (check_loop_ops rc_ok r w = []) as -> by (unfold check_loop_ops; rewrite Hrq; case_match; bool_props; [lia|done]).
  pose proof (tracks_done rc_ok r w eq_refl Hr) as Hd. cbn [app].
  case_match; [by intros [= <-]|]. case_match; [|case_match; [by intros [= <-]|]; case_match; [|by intros [= <-]]].
  - destruct (threads w !! t) as [th|] eqn:Ht; [|done]. cbn -[to_done_stage]. destruct (rqcbs w !! i) as [q|]; [|done].
    cbn -[to_done_stage]. destruct (upd_thread t (set_t_next_rqcbp None) w) as [w2|] eqn:E2; [|done]. cbn -[to_done_stage].
    apply upd_thread_queues in E2. unfold tracks. rewrite <-E2 in Hr |- *.
    destruct (match t_next_rqcbp th with Some j => Some j | None => next_rqcb q end) as [j|].
    + intros E. exact (tracks_next rc_ok j r w2 w' eq_refl Hr E).
    + intros [= <-]. by apply (tracks_done rc_ok r w2).
  - intros E. exact (tracks_next rc_ok i r w w' eq_refl Hr E).
Qed.

Lemma worker_run_tracks w t th r out w' :
  pinv w -> threads w !! t = Some th -> t_pc th = PcBusy r ->
  (forall rq, requests w !! r = Some rq -> nstage rq <= MAX_STAGE_JUMP) ->
  worker_run rc_ok out t r w = Some w' -> tracks (worker_run_ops rc_ok out t r w) w w'.
Proof.
  intros Hinv Ht Hpc Hns. destruct (pinv_busy w t th r Hinv Ht Hpc) as [rq Hrq]. specialize (Hns rq Hrq).
  assert (in_no_queue r (queues w) = true) as Hr.
  { apply not_queued. destruct Hinv as (_ & _ & Hocc & _). specialize (Hocc r). unfold live, occ in Hocc. rewrite Hrq in Hocc.
    pose proof (sum_list_with_lookup (fun th => occurs r (pc_list (t_pc th))) _ _ _ Ht) as Hle. cbn in Hle. rewrite Hpc in Hle.
    cbn in Hle. rewrite Nat.eqb_refl in Hle. unfold occ_threads in Hocc. unfold occ_queued. lia. }
  unfold worker_run, worker_run_ops. rewrite Ht, Hrq. cbn -[submit_next to_done_stage].
  destruct (rqcbs w !! t_rqcb th) as [q|]; [|done]. cbn -[submit_next to_done_stage].
  match goal with |- (?m ≫= _) = _ -> _ => destruct m as [w3|] eqn:E3; [|done] end.
  cbn -[to_done_stage]. intros E%upd_thread_queues. eapply tracks_eq; [|exact E]. clear E w'.
  pose proof (tracks_done rc_ok r w eq_refl Hr) as Hd. destruct (cancelled rq =? 0).
  - destruct (request_handler q); [|by simplify_eq]. destruct (t_init_flag th =? PIPELINE_SUCCESS); [|by simplify_eq].
    rewrite (upd_request_eq _ _ _ _ Hrq) in *. cbn -[submit_next] in E3 |- *. set (w1 := set_requests _ w) in *.
    destruct (match h_next out with Some j => upd_thread t (set_t_next_rqcbp (Some j)) w1 | None => Some w1 end) as [w2|] eqn:E2; [|done].
    cbn -[submit_next] in E3.
    assert (queues w2 = queues w /\ requests w2 = requests w1) as [Hq2 Hr2].
    { destruct (h_next out); [|by simplify_eq]. split; [by apply upd_thread_queues in E2|].
      unfold upd_thread in E2. cbn in E2. rewrite Ht in E2. by apply (inj Some) in E2 as <-. }
    unfold tracks. rewrite <-Hq2 in Hr |- *.
    refine (submit_next_tracks w2 t (t_rqcb th) r _ w3 _ _ Hr E3); [rewrite Hr2; apply lookup_insert_eq|done].
  - rewrite (upd_request_eq _ _ _ _ Hrq) in E3. cbn -[to_done_stage] in E3. apply (inj Some) in E3 as <-.
    by apply (tracks_done rc_ok r (set_requests _ w)).
Qed.

(** ** Submission *)

Lemma upd_rqcb_queues i f w w' :
  (forall q, request_head (f q) = request_head q) -> upd_rqcb i f w = Some w' -> queues w' = queues w.
Proof.
  intros Hf. unfold upd_rqcb. destruct (rqcbs w !! i) as [q|] eqn:Hq; cbn; [|done]. intros [= <-].
  rewrite queues_stage, Hf by (by eapply lookup_lt_Some). apply insert_id. rewrite queues_lookup. cbn. by rewrite Hq.
Qed.

Lemma upd_pcb_queues p f w w' :
  (forall pc, tmp_request_head (f pc) = tmp_request_head pc) -> upd_pcb p f w = Some w' -> queues w' = queues w.
Proof.
  intros Hf. unfold upd_pcb. destruct (pcb w !! p) as [[pc|]|] eqn:Hp; cbn; [|done..]. intros [= <-].
  rewrite queues_tmp, Hf by (by eapply lookup_lt_Some). apply insert_id. rewrite queues_lookup. cbn.
  by rewrite (get_pcb_eq _ _ _ Hp).
Qed.

Lemma send_tracks busy p i r fl (c : bool) w pc q code w' :
  wf w -> pcb w !! p = Some (Some pc) -> first_rqcbp pc = Some i -> rqcbs w !! i = Some q ->
  has_flag fl REQUEST_KICK_OUT = false -> has_flag fl REQUEST_TIME_OUT = false -> occ r w = 0%nat ->
  send_to_pipeline rc_ok busy p r fl c w = Some (code, w') -> tracks (send_ops busy p r fl c w) w w'.
Proof.
  intros Hw Hp Hi Hq Hko Hto Ho. unfold send_to_pipeline, send_ops. rewrite (get_pcb_eq _ _ _ Hp).
  cbn -[concat_tmp rqcb_push]. rewrite Hi. cbn -[concat_tmp rqcb_push]. destruct busy.
  { unfold send_blocked. rewrite (upd_pcb_eq _ _ _ _ Hp). cbn. intros [= _ <-].
    eapply tracks_eq; [|by case_match]. eapply (tracks_push_tmp w p r pc); [done..|by apply not_queued_occ]. }
  assert (exists w1 q1, (if c then concat_tmp p i pc w else Some w) = Some w1 /\ rqcbs w1 !! i = Some q1 /\
    tracks (if c then [TConcat (QStage i) (QTmp p)] else []) w w1 /\ occ r w1 = 0%nat) as (w1 & q1 & -> & Hq1 & Ht1 & Ho1).
  { destruct c; [|exists w, q; split_and!; [done..|by apply tracks_nil|done]].
    rewrite (concat_tmp_eq _ _ _ _ _ Hp Hq). exists (joined_world p i pc q w), (joined pc q). split_and!; [done|..].
    - cbn. apply list_lookup_insert_eq. by eapply lookup_lt_Some.
    - by apply tracks_concat.
    - destruct (joined_moves w p i pc q Hw Hp Hi Hq) as (_ & _ & _ & _ & _ & Hx). specialize (Hx r). cbn [occurs] in Hx. lia. }
  cbn -[rqcb_push]. unfold send_locked_ops. rewrite Hq1. cbn -[rqcb_push]. rewrite Hko, Hto, andb_false_r, andb_false_l. cbn -[rqcb_push].
  destruct (negb (has_flag fl REQUEST_FORCE) && _).
  { intros [= _ <-]. by rewrite app_nil_r. }
  rewrite Hq1. cbn -[rqcb_push]. rewrite (upd_rqcb_eq _ _ _ _ Hq1). cbn -[rqcb_push].
  intros [= _ <-]. eapply tracks_app; [exact Ht1|]. eapply (tracks_push_stage w1 i r q1); [done..|by apply not_queued_occ].
Qed.

Lemma submit_tracks busy r stale a w w' :
  pinv w -> enabled (OSubmit r stale a busy) w -> exec (OSubmit r stale a busy) w = Some w' ->
  tracks (submit_ops busy r stale a w) w w'.
Proof.
  intros Hinv (Hr & _ & Hpid & Hko & Hto & c & st & Hsc & Hc & _). cbn [exec]. unfold submit_request, submit_ops.
  assert (wf w) as Hw by apply Hinv. set (p := Z.to_nat (s_pid a)).
  destruct (PIPELINE_SIZE <=? s_pid a) eqn:Es; cbn [orb]; [intros [= <-]; by apply tracks_nil|].
  destruct (graceful_restart w); [intros [= <-]; by apply tracks_nil|].
  unfold get_pcb. destruct (pcb w !! p) as [[pc|]|] eqn:Hp; cbn -[send_to_pipeline send_ops]; [|intros [= <-]; by apply tracks_nil|done].
  destruct (wf_get_pcb _ _ _ Hw Hp) as (_ & i & Hi & Hlt). destruct (lookup_lt_is_Some_2 _ _ Hlt) as [q Hq]. rewrite Hi.
  destruct (negb (has_flag (s_flags a) REQUEST_FORCE) && _); [intros [= <-]; by apply tracks_nil|].
  rewrite Hsc. unfold CS_HOLD, upd_conn. rewrite Hc. cbn -[send_to_pipeline send_ops].
  set (w2 := set_inc _ _). destruct (send_to_pipeline rc_ok busy p r (s_flags a) _ w2) as [[code w3]|] eqn:E3; [|done].
  assert (occ r w2 = 0%nat) as Ho.
  { destruct Hinv as (_ & _ & Hocc & _). specialize (Hocc r). unfold live in Hocc. by rewrite Hr in Hocc. }
  pose proof (send_tracks busy p i r (s_flags a) _ w2 pc q code w3 Hw Hp Hi Hq Hko Hto Ho E3) as Ht.
  change (queues w2) with (queues w) in Ht. cbn [mbind option_bind].
  destruct (negb (code =? 0)); [intros E; apply (inj Some) in E as <-; exact Ht|].
  destruct (upd_pcb p (fun pc => set_counter (u64 (counter pc + 1)) pc) w3) as [w4|] eqn:E4; [|done]. cbn [mbind option_bind].
  destruct (upd_rqcb i (fun q => set_request_count (u64 (request_count q + 1)) q) w4) as [w5|] eqn:E5; [|done].
  intros [= <-]. eapply tracks_eq; [exact Ht|]. apply upd_rqcb_queues in E5; [|done]. apply upd_pcb_queues in E4; [|done]. congruence.
Qed.

(** * Every step *)

Lemma exec_tracks o w w' : pinv w -> enabled o w -> exec o w = Some w' -> tracks (exec_ops o w) w w'.
Proof.
  intros Hinv Hen E. destruct o; cbn [exec_ops enabled exec] in *.
  - by apply (submit_tracks busy r stale a).
  - by apply (kick_tracks busy w w' (proj1 Hinv)).
  - by apply (done_tracks respond busy done_busy ev).
  - apply tracks_nil. destruct req as [r|]; [by apply upd_request_queues in E|]. cbn in E. by simplify_eq.
  - apply tracks_nil. by simplify_eq.
  - apply tracks_nil. unfold conn_close in E. destruct (conns w !! c) as [cs|]; [|done]. cbn -[CS_RELE] in E.
    unfold conn_state_cleanup, CS_RELE in E.
    destruct (ci_type cs =? CSF_TCP); cbn in E; (destruct (_ !! c); cbn in E; [|done]);
      match type of E with context [if ?b then _ else _] => destruct b end; by apply (inj Some) in E as <-.
  - destruct Hen as (th & Ht & Hpc). by eapply worker_loop_tracks.
  - destruct Hen as (th & Ht & Hpc). by eapply (worker_wake_tracks w t th).
  - destruct Hen as ((th & Ht & Hpc) & _ & Hns). by eapply worker_run_tracks.
  - apply tracks_nil. by simplify_eq.
  - apply tracks_nil. by simplify_eq.
Qed.

(** A run of the pipeline with the macros it executes. *)
Inductive queue_run (w : world) : list (tqop qid) -> world -> Prop :=
| qrun_nil : queue_run w [] w
| qrun_step ops o w1 w2 :
    queue_run w ops w1 -> enabled o w1 -> exec o w1 = Some w2 -> queue_run w (ops ++ exec_ops o w1) w2.

Lemma queue_run_tracks w ops w' : pinv w -> queue_run w ops w' -> pinv w' /\ tracks ops w w'.
Proof.
  intros Hinv. induction 1 as [|ops o w1 w2 _ [IHp IHt] Hen E]; [split; [done|by apply tracks_nil]|].
  destruct (exec_pinv o w1 IHp Hen) as (w2' & E' & Hp). rewrite E in E'. apply (inj Some) in E' as <-.
  split; [done|]. eapply tracks_app; [exact IHt|by apply exec_tracks].
Qed.

(** ** The initial queues *)

Lemma tqrun_init (ks : list qid) (a : gmap qid (list nat)) :
  exists a', tqrun tq_spec (TInit <$> ks) a = Some a' /\
    forall k, a' !! k = if decide (k ∈ ks) then Some [] else a !! k.
Proof.
  revert a; induction ks as [|k0 ks IH]; intros a; cbn; [exists a; by split|].
  destruct (IH (<[k0:=[]]> a)) as (a' & -> & Ha'). exists a'. split; [done|]. intros k. rewrite Ha', lookup_insert.
  repeat case_decide; set_solver.
Qed.

Lemma elem_of_heads w k : k ∈ heads w <-> is_Some (qlist w k).
Proof.
  unfold heads. rewrite !elem_of_cons, elem_of_app, list_elem_of_fmap, list_elem_of_omap. destruct k as [i| |p|]; cbn.
  - rewrite fmap_is_Some. split.
    + intros [?|[?|[(j & [= <-] & Hj)|(j & _ & Hj)]]]; try done; [|by case_match].
      apply lookup_lt_is_Some_2. rewrite elem_of_seq in Hj. lia.
    + intros Hi%lookup_lt_is_Some. right; right; left. exists i. rewrite elem_of_seq. split; [done|lia].
  - naive_solver.
  - rewrite fmap_is_Some. split.
    + intros [?|[?|[(j & ? & Hj)|(j & _ & Hj)]]]; try done. case_match eqn:E; simplify_eq. by eexists.
    + intros [pc Hp]. right; right; right. exists p. rewrite Hp. split; [|done]. apply elem_of_seq.
      unfold get_pcb in Hp. destruct (pcb w !! p) eqn:E; [|done]. apply lookup_lt_Some in E. lia.
  - naive_solver.
Qed.

Lemma booted_empty w k l : booted w -> qlist w k = Some l -> l = [].
Proof.
  intros (_ & _ & _ & Ho & _) Hk. destruct l as [|r l]; [done|]. exfalso.
  pose proof (not_queued_occ r w (Ho r)) as Hn. rewrite in_no_queue_spec in Hn.
  apply (Hn k (r :: l)); [by rewrite queues_lookup|left].
Qed.

Lemma init_tracks w : booted w -> tqrun tq_spec (init_ops w) ∅ = Some (queues w).
Proof.
  intros Hb. destruct (tqrun_init (heads w) ∅) as (a & E & Ha). unfold init_ops. rewrite E. f_equal.
  apply map_eq. intros k. rewrite Ha, queues_lookup, lookup_empty. case_decide as Hk; rewrite elem_of_heads in Hk.
  - destruct Hk as [l Hl]. by rewrite Hl, (booted_empty w k l Hb Hl).
  - destruct (qlist w k); [|done]. destruct Hk. by eexists.
Qed.


