(* ===== verification/PipelineLive.v ===== *)
(** Progress of the pipeline: from every state its operations can reach, with a
    thread left for every stage, the threads and the event loop can finish every
    request, whatever is queued where. *)

From stdpp Require Import relations.
From S2P Require Import Prelude Pipeline PipelineInv PipelineProps.

(** Nothing is in the temporary queues. *)
Definition tmp_empty (w : world) : Prop := forall p pc, pcb w !! p = Some (Some pc) -> tmp_request_head pc = [].

(** Every stage has a thread that has not left. *)
Definition staffed (w : world) : Prop :=
  forall i, (i < length (rqcbs w))%nat -> exists t th, threads w !! t = Some th /\ t_rqcb th = i /\ t_pc th <> PcExited.

(** The states from which all requests can be finished. *)
Definition serviceable (w : world) : Prop :=
  pinv w /\ final_request_head w = [] /\ staffed w /\
  (forall r rq, requests w !! r = Some rq -> nstage rq <= MAX_STAGE_JUMP) /\ Z.of_nat (size (requests w)) < 2 ^ 64.

(** What is left to do before the done queue: two steps for a queued request, one
    for a request a thread holds. *)
Definition work (w : world) : nat :=
  (sum_list_with (fun q => 2 * length (request_head q)) (rqcbs w) +
   sum_list_with (fun th => length (pc_list (t_pc th))) (threads w))%nat.

(** * One step *)

(** The effect of a step of the thread [t] on what is not queues. *)
Definition served (t : nat) (w w' : world) : Prop :=
  pcb w' = pcb w /\ final_request_head w' = final_request_head w /\ length (rqcbs w') = length (rqcbs w) /\
  (exists th th', threads w !! t = Some th /\ threads w' = <[t:=th']> (threads w) /\ t_rqcb th' = t_rqcb th /\ t_pc th' <> PcExited) /\
  (requests w' = requests w \/ exists r rq rq', requests w !! r = Some rq /\ requests w' = <[r:=rq']> (requests w) /\ nstage rq' = nstage rq).

Lemma served_serviceable t w w' : serviceable w -> tmp_empty w -> pinv w' -> served t w w' -> serviceable w' /\ tmp_empty w'.
Proof.
  intros (_ & Hf & Hs & Hn & Hz) Ht Hp (E1 & E2 & E3 & (th & th' & Et & E4 & E5 & E6) & E7).
  split; [split_and!|by unfold tmp_empty; rewrite E1].
  - done.
  - congruence.
  - intros i Hi. rewrite E3 in Hi. destruct (Hs i Hi) as (u & thu & Hu & Hr & Hx). rewrite E4.
    destruct (decide (u = t)) as [->|Hne]; [exists t, th'|exists u, thu].
    + rewrite list_lookup_insert_eq by by eapply lookup_lt_Some. split_and!; congruence.
    + by rewrite list_lookup_insert_ne.
  - intros r rq. destruct E7 as [->|(r0 & rq0 & rq' & H0 & -> & H1)]; [apply Hn|]. rewrite lookup_insert.
    case_decide; [intros [= <-]; rewrite H1; by eapply Hn|apply Hn].
  - destruct E7 as [->|(r0 & rq0 & rq' & H0 & -> & _)]; [done|]. by rewrite map_size_insert_Some by done.
Qed.

Lemma work_insert w w' t th th' i q q' :
  threads w !! t = Some th -> threads w' = <[t:=th']> (threads w) ->
  rqcbs w !! i = Some q -> rqcbs w' = <[i:=q']> (rqcbs w) ->
  (work w' + 2 * length (request_head q) + length (pc_list (t_pc th)) =
   work w + 2 * length (request_head q') + length (pc_list (t_pc th')))%nat.
Proof.
  intros Ht Et Hq Eq. unfold work. rewrite Et, Eq.
  pose proof (sum_list_with_insert (fun q => 2 * length (request_head q))%nat _ _ _ q' Hq).
  pose proof (sum_list_with_insert (fun th => length (pc_list (t_pc th))) _ _ _ th' Ht). cbn beta in *. lia.
Qed.

(** A busy thread finishes its request. *)
Lemma run_serves w t th r : serviceable w -> threads w !! t = Some th -> t_pc th = PcBusy r ->
  exists w', step w w' /\ served t w w' /\ (work w' < work w)%nat.
Proof.
  intros (Hp & _ & _ & Hn & _) Ht Hpc. destruct (pinv_busy w t th r Hp Ht Hpc) as [rq Hrq].
  destruct (wf_get_thread _ _ _ (proj1 Hp) Ht) as [Hi _]. destruct (lookup_lt_is_Some_2 _ _ Hi) as [q Hq].
  set (out := mk_outcome PIPELINE_BREAK 0 None). set (th' := set_t_pc PcLoop (set_t_status THREAD_DONE
    (set_t_rqst_num (u64 (t_rqst_num th + 1)) th))).
  assert (E : exists w', worker_run rc_ok out t r w = Some w' /\ pcb w' = pcb w /\ final_request_head w' = final_request_head w /\
    rqcbs w' = rqcbs w /\ threads w' = <[t:=th']> (threads w) /\
    (requests w' = requests w \/ exists rq', requests w' = <[r:=rq']> (requests w) /\ nstage rq' = nstage rq)).
  { unfold worker_run. rewrite Ht, Hrq. cbn [mbind option_bind]. rewrite Hq. cbn [mbind option_bind out h_errno h_ret h_next].
    change (i32 PIPELINE_BREAK) with 1. rewrite (upd_request_eq _ _ _ _ Hrq), (upd_request_eq _ _ _ _ Hrq). cbn [mbind option_bind].
    unfold submit_next, to_done_stage, signal_done. cbn [requests set_requests]. rewrite lookup_insert_eq.
    cbn [mbind option_bind ret set_err set_ret Z.eqb PIPELINE_FAILED PIPELINE_CONTINUE PIPELINE_BREAK rc_ok lock_rc].
    destruct (cancelled rq =? 0), (request_handler q), (t_init_flag th =? PIPELINE_SUCCESS), (done_signalled w) eqn:Ed;
      cbn -[upd_thread]; rewrite ?Ed; cbn -[upd_thread]; rewrite (upd_thread_eq t _ _ th) by exact Ht;
      eexists; (split; [reflexivity|]); split_and!; try reflexivity; first [left; reflexivity | right; eexists; split; reflexivity]. }
  destruct E as (w' & E & E1 & E2 & E3 & E4 & E5). exists w'. split; [|split].
  - apply (step_op w (ORun out t r)); [|exact E]. split; [by exists th|]. split; [done|]. intros rq1 H1. by eapply Hn.
  - split_and!; try done; [congruence|by exists th, th'|]. destruct E5 as [|(rq' & H1 & H2)]; [by left|right]. by exists r, rq, rq'.
  - pose proof (work_insert w w' t th th' (t_rqcb th) q q Ht E4 Hq ltac:(by rewrite E3, list_insert_id)) as Hw.
    rewrite Hpc in Hw. cbn in Hw. lia.
Qed.

(** An idle thread takes the oldest request of its stage, once its delay is over. *)
Lemma take_serves w t th q r rq : threads w !! t = Some th -> pc_list (t_pc th) = [] ->
  rqcbs w !! t_rqcb th = Some q -> occurs r (request_head q) = 1%nat -> requests w !! r = Some rq ->
  delay q <= clock_off w - clock rq ->
  exists w', worker_take rc_ok t (t_rqcb th) r w = Some w' /\ served t w w' /\ (work w' < work w)%nat.
Proof.
  intros Ht Hpc Hq Ho Hrq Hd. unfold worker_take. rewrite Hq, Hrq. cbn [mbind option_bind].
  rewrite (proj2 (Z.ltb_ge _ _) Hd), andb_false_r. rewrite (upd_rqcb_eq _ _ _ _ Hq). cbn [mbind option_bind].
  set (w1 := set_rqcbs _ w).
  assert (E : exists w' th', (if negb (request_timeout w1 =? 0) && negb (clock rq =? 0) &&
       (request_timeout w1 <? clock_off w - clock rq) then
      w2 ← upd_request r (set_flags REQUEST_TIME_OUT) w1; upd_thread t (set_t_pc PcLoop) (to_done_stage rc_ok r w2)
    else upd_thread t (fun th => set_t_pc (PcBusy r) (set_t_cur_rqst (Some r) (set_t_status THREAD_BUSY th))) w1) = Some w' /\
    pcb w' = pcb w /\ final_request_head w' = final_request_head w /\ rqcbs w' = <[t_rqcb th:=rqcb_drop r q]> (rqcbs w) /\
    threads w' = <[t:=th']> (threads w) /\ t_rqcb th' = t_rqcb th /\ t_pc th' <> PcExited /\ (length (pc_list (t_pc th')) <= 1)%nat /\
    (requests w' = requests w \/ exists rq', requests w' = <[r:=rq']> (requests w) /\ nstage rq' = nstage rq)).
  { destruct (_ && _).
    - rewrite (upd_request_eq r _ w1 rq) by exact Hrq. cbn [mbind option_bind]. unfold to_done_stage, signal_done. cbn [rc_ok lock_rc Z.eqb].
      destruct (done_signalled w) eqn:Ed; cbn -[upd_thread rqcb_drop]; rewrite ?Ed; cbn -[upd_thread rqcb_drop];
        rewrite (upd_thread_eq t _ _ th) by exact Ht; eexists _, (set_t_pc PcLoop th); (split; [reflexivity|]);
        split_and!; try reflexivity; try done; try (cbn; lia); right; eexists; split; reflexivity.
    - rewrite (upd_thread_eq t _ _ th) by exact Ht. eexists _, _. split; [reflexivity|].
      split_and!; try reflexivity; try done; try (cbn; lia). by left. }
  destruct E as (w' & th' & E & E1 & E2 & E3 & E4 & E5 & E6 & E7 & E8). exists w'. split; [exact E|]. split.
  - split_and!; try done; [by rewrite E3, length_insert|by exists th, th'|]. destruct E8 as [|(rq' & H1 & H2)]; [by left|right].
    by exists r, rq, rq'.
  - pose proof (work_insert w w' t th th' (t_rqcb th) q _ Ht E4 Hq E3) as Hw. rewrite Hpc in Hw.
    pose proof (length_unlink r (request_head q)) as Hu. rewrite Ho in Hu. cbn in Hw. lia.
Qed.

(** Time passes. *)
Lemma ticks_steps n w : rtc step w (set_clock_off (clock_off w + Z.of_nat n) w).
Proof.
  induction n as [|n IH]; [by rewrite Z.add_0_r; destruct w|]. eapply rtc_r; [exact IH|].
  apply (step_op _ OTick); [done|]. cbn [exec set_clock_off clock_off]. by replace (clock_off w + Z.of_nat (S n)) with (clock_off w + Z.of_nat n + 1) by lia.
Qed.

Lemma clock_serviceable c w : serviceable w -> serviceable (set_clock_off c w).
Proof. done. Qed.

Lemma step_pinv w w' : pinv w -> step w w' -> pinv w'.
Proof. intros Hp [o w1 Hen E]. destruct (exec_pinv o w Hp Hen) as (w2 & E2 & H2). congruence. Qed.

(** A thread that is not busy, in a stage that has requests. *)
Lemma idle_serves w t th q r l rq : serviceable w -> threads w !! t = Some th -> t_pc th = PcLoop \/ t_pc th = PcWait ->
  rqcbs w !! t_rqcb th = Some q -> request_head q = r :: l -> requests w !! r = Some rq -> delay q <= clock_off w - clock rq ->
  exists w', step w w' /\ served t w w' /\ (work w' < work w)%nat.
Proof.
  intros Hs Ht Hpc Hq Hr Hrq Hd. destruct Hs as (Hp & _ & _ & _ & Hz). destruct (pinv_head w _ q r l Hp Hq Hr) as [Ho _].
  assert (Hlist : pc_list (t_pc th) = []) by by destruct Hpc as [-> | ->].
  destruct Hpc as [Hpc|Hpc].
  - set (th1 := set_t_cur_rqst None (set_t_status THREAD_WAITING th)). set (w1 := set_threads (<[t:=th1]> (threads w)) w).
    assert (Ht1 : threads w1 !! t = Some th1) by (cbn; rewrite list_lookup_insert_eq; [done|by eapply lookup_lt_Some]).
    destruct (take_serves w1 t th1 q r rq Ht1 Hlist Hq Ho Hrq Hd) as (w' & E & (E1 & E2 & E3 & (th2 & th' & F1 & F2 & F3 & F4) & E5) & Hw).
    exists w'. split; [|split].
    + apply (step_op w (OLoop t)); [by exists th|]. cbn [exec]. unfold worker_loop. rewrite (upd_thread_eq t _ _ th) by done.
      cbn [mbind option_bind]. fold th1 w1. rewrite Ht1. cbn [mbind option_bind]. change (rqcbs w1) with (rqcbs w).
      change (t_rqcb th1) with (t_rqcb th). rewrite Hq. cbn [mbind option_bind]. rewrite Hr. exact E.
    + split_and!; try done. assert (th2 = th1) as -> by congruence. exists th, th'. split_and!; try done.
      rewrite F2. cbn [w1 threads set_threads]. apply list_insert_insert_eq.
    + assert (work w1 = work w); [|lia].
      pose proof (work_insert w w1 t th th1 _ q q Ht eq_refl Hq ltac:(by rewrite list_insert_id)) as H1.
      change (pc_list (t_pc th1)) with (pc_list (t_pc th)) in H1. lia.
  - destruct (take_serves w t th q r rq Ht Hlist Hq Ho Hrq Hd) as (w' & E & Hsv & Hw). exists w'. split; [|by split].
    apply (step_op w (OWake t)); [by exists th|]. cbn [exec]. unfold worker_wake.
    assert (pipeline_queue_len w <> 0) as Hne.
    { destruct Hp as (_ & _ & _ & ->). rewrite u64_small by lia. intros Hs0.
      assert (size (requests w) = 0%nat) as Hs1 by lia. apply map_size_empty_inv in Hs1. rewrite Hs1 in Hrq. done. }
    rewrite (proj2 (Z.eqb_neq _ _) Hne), andb_false_r. rewrite Ht. cbn [mbind option_bind]. rewrite Hq. cbn [mbind option_bind].
    by rewrite Hr.
Qed.

Lemma sum_positive {A} (f : A -> nat) l : (0 < sum_list_with f l)%nat -> exists i x, l !! i = Some x /\ (0 < f x)%nat.
Proof.
  induction l as [|x l IH]; cbn; [lia|]. intros H. destruct (decide (0 < f x)%nat); [by exists 0%nat, x|].
  destruct IH as (i & y & Hi & Hy); [lia|]. by exists (S i), y.
Qed.

(** As long as there is work, it can become less. *)
Lemma work_progress w : serviceable w -> tmp_empty w -> (0 < work w)%nat ->
  exists w', rtc step w w' /\ serviceable w' /\ tmp_empty w' /\ (work w' < work w)%nat.
Proof.
  intros Hs Ht Hw. pose proof (proj1 Hs) as Hp.
  assert (Hbusy : forall t th r, threads w !! t = Some th -> t_pc th = PcBusy r ->
    exists w', rtc step w w' /\ serviceable w' /\ tmp_empty w' /\ (work w' < work w)%nat).
  { intros t th r H1 H2. destruct (run_serves w t th r Hs H1 H2) as (w' & Hst & Hsv & Hlt). exists w'.
    destruct (served_serviceable t w w' Hs Ht (step_pinv _ _ Hp Hst) Hsv). split; [by apply rtc_once|done]. }
  destruct (decide (0 < sum_list_with (fun th => length (pc_list (t_pc th))) (threads w))%nat) as [H|H].
  { destruct (sum_positive _ _ H) as (t & th & Hth & Hl). destruct (t_pc th) as [| |r|] eqn:E; cbn in Hl; try lia. by eapply Hbusy. }
  destruct (sum_positive (fun q => 2 * length (request_head q))%nat (rqcbs w)) as (i & q & Hq & Hl); [unfold work in Hw; lia|].
  destruct (request_head q) as [|r l] eqn:Er; [cbn in Hl; lia|]. destruct (pinv_head w i q r l Hp Hq Er) as [_ [rq Hrq]].
  pose proof Hs as (_ & _ & Hst & _). destruct (Hst i (lookup_lt_Some _ _ _ Hq)) as (t & th & Hth & <- & Hne).
  destruct (t_pc th) as [| |r'|] eqn:Epc; [| |by eapply Hbusy|done].
  all: set (n := Z.to_nat (delay q - (clock_off w - clock rq))); set (w1 := set_clock_off (clock_off w + Z.of_nat n) w).
  all: destruct (idle_serves w1 t th q r l rq) as (w' & Hs' & Hsv & Hlt); [exact Hs|exact Hth|auto|exact Hq|exact Er|exact Hrq|cbn; lia|].
  all: exists w'; destruct (served_serviceable t w1 w' Hs Ht (step_pinv w1 w' Hp Hs') Hsv) as [H1 H2].
  all: split; [eapply rtc_r; [apply ticks_steps|exact Hs']|]; by split_and!.
Qed.

Lemma work_ends n w : serviceable w -> tmp_empty w -> (work w <= n)%nat ->
  exists w', rtc step w w' /\ serviceable w' /\ tmp_empty w' /\ work w' = 0%nat.
Proof.
  revert w; induction n as [|n IH]; intros w Hs Ht Hn; [exists w; split; [done|]; split_and!; [done..|lia]|].
  destruct (decide (work w = 0%nat)) as [E|E]; [by exists w|].
  destruct (work_progress w Hs Ht) as (w1 & R1 & S1 & T1 & L1); [lia|]. destruct (IH w1 S1 T1) as (w' & R2 & H); [lia|].
  exists w'. split; [by etrans|done].
Qed.

(** * The temporary queues *)

(** What moving a temporary queue leaves alone. *)
Definition kept (w w' : world) : Prop :=
  threads w' = threads w /\ requests w' = requests w /\ final_request_head w' = final_request_head w /\
  length (rqcbs w') = length (rqcbs w).

Lemma kick_one_empties w p w' : kick_one (fun _ => false) w p = Some w' ->
  kept w w' /\ forall p' pc', pcb w' !! p' = Some (Some pc') -> tmp_request_head pc' <> [] ->
    p' <> p /\ pcb w !! p' = Some (Some pc').
Proof.
  unfold kick_one, get_pcb, kept. destruct (pcb w !! p) as [[pc|]|] eqn:Ep; [|done|done]. cbn [mjoin option_join mbind option_bind].
  destruct (tmp_request_head pc) as [|r l] eqn:Et.
  { intros [= <-]. split; [done|]. intros p' pc' H Hne. cbn in H. split; [|done]. intros ->. congruence. }
  destruct (first_rqcbp pc) as [i|]; [|done]. cbn [mbind option_bind]. unfold concat_tmp, upd_rqcb, upd_pcb.
  destruct (rqcbs w !! i) as [q|] eqn:Eq; [|done]. cbn. rewrite Ep. cbn. intros [= <-]. cbn. rewrite length_insert.
  split; [done|]. intros p' pc'. destruct (decide (p' = p)) as [->|Hne]; [|by rewrite list_lookup_insert_ne].
  rewrite list_lookup_insert_eq by by eapply lookup_lt_Some. by intros [= <-].
Qed.

Lemma kick_loop_empties l w w' : for_each (kick_one (fun _ => false)) w l = Some w' ->
  kept w w' /\ forall p pc, pcb w' !! p = Some (Some pc) -> tmp_request_head pc <> [] -> (p ∉ l) /\ pcb w !! p = Some (Some pc).
Proof.
  revert w; induction l as [|p l IH]; intros w; cbn [for_each].
  { intros [= <-]. split; [done|]. intros. split; [apply not_elem_of_nil|done]. }
  destruct (kick_one _ w p) as [w1|] eqn:E; [|done]. cbn [mbind option_bind]. intros H.
  apply kick_one_empties in E as [(K1 & K2 & K3 & K4) E]. apply IH in H as [(H1 & H2 & H3 & H4) H].
  split; [split_and!; congruence|]. intros p' pc' Hp Hne. destruct (H p' pc' Hp Hne) as [Hni Hp1].
  destruct (E p' pc' Hp1 Hne) as [Hn Hp0]. split; [|done]. by apply not_elem_of_cons.
Qed.

Lemma kick_empties w : serviceable w -> exists w', step w w' /\ serviceable w' /\ tmp_empty w'.
Proof.
  intros (Hp & Hf & Hs & Hn & Hz). destruct (exec_pinv (OKick (fun _ => false)) w Hp I) as (w' & E & Hp').
  exists w'. split; [by apply (step_op w (OKick (fun _ => false)))|]. cbn [exec] in E. unfold kick_request_queue in E.
  apply kick_loop_empties in E as [(K1 & K2 & K3 & K4) E]. split.
  - unfold serviceable, staffed. rewrite K1, K2, K3, K4. done.
  - intros p pc H. destruct (tmp_request_head pc) eqn:Et; [done|]. destruct (E p pc H) as [Hni Hpc]; [by rewrite Et|].
    destruct Hp as ((_ & _ & _ & (_ & _ & Ha) & _) & _). destruct Hni. apply (Ha p pc Hpc). by rewrite Et.
Qed.

(** * Completion *)

Lemma sum_zero {A} (f : A -> nat) l : sum_list_with f l = 0%nat -> forall x, x ∈ l -> f x = 0%nat.
Proof.
  induction l as [|y l IH]; cbn; intros H x; [by intros ?%not_elem_of_nil|].
  intros [->|Hx]%elem_of_cons; [lia|]. apply IH; [lia|done].
Qed.

Lemma sum_all_zero {A} (f : A -> nat) l : (forall x, x ∈ l -> f x = 0%nat) -> sum_list_with f l = 0%nat.
Proof.
  induction l as [|y l IH]; cbn; intros H; [done|]. rewrite (H y), IH; [done| |apply elem_of_cons; by left].
  intros x Hx. apply H, elem_of_cons. by right.
Qed.

(** With no work and no temporary queue every live request is in the done queue. *)
Lemma all_done w r rq : serviceable w -> tmp_empty w -> work w = 0%nat -> requests w !! r = Some rq -> r ∈ request_head (done_rqcb w).
Proof.
  intros (Hp & Hf & _) Ht Hw Hr. destruct Hp as (_ & _ & Ho & _). specialize (Ho r). unfold live in Ho. rewrite Hr in Ho.
  unfold work in Hw. apply occurs_pos. unfold occ in Ho. rewrite Hf in Ho.
  assert (occ_stages r (rqcbs w) = 0%nat) as E1.
  { unfold occ_stages. apply sum_all_zero. intros q Hq.
    assert (2 * length (request_head q) = 0)%nat by (apply (sum_zero (fun q => 2 * length (request_head q))%nat (rqcbs w)); [lia|done]).
    destruct (request_head q); [done|cbn in *; lia]. }
  assert (occ_threads r (threads w) = 0%nat) as E2.
  { unfold occ_threads. apply sum_all_zero. intros th Hth.
    assert (length (pc_list (t_pc th)) = 0)%nat by (apply (sum_zero (fun th => length (pc_list (t_pc th))) (threads w)); [lia|done]).
    by destruct (pc_list (t_pc th)). }
  assert (occ_tmp r (pcb w) = 0%nat) as E3.
  { unfold occ_tmp. apply sum_all_zero. intros [pc|] Hpc; [|done]. apply list_elem_of_lookup in Hpc as [p Hpc]. by rewrite (Ht p pc Hpc). }
  cbn in Ho. lia.
Qed.


(** * Witness *)

