(* ===== verification/PipelineDrain.v ===== *)
(** How long the pipeline works on the requests it has: while no new ones come and
    the handlers do not send requests back, every schedule of the threads and the
    event loop has at most 2 * n + 2 productive steps per request, n being the
    number of stages, and as long as requests are left there is such a step.
    The proof is a measure that productive steps lower and no step raises. *)

From S2P Require Import Prelude Pipeline PipelineInv PipelineProps PipelineTypes PipelineLive.

(** * Draining runs *)

(** No new requests, and handlers that neither re-queue nor choose a stage. *)
Definition tame (o : op) : Prop :=
  match o with
  | OSubmit _ _ _ _ => False
  | ORun out _ _ => h_next out = None /\ i32 (h_ret out) <> PIPELINE_REQUEUE
  | _ => True
  end.

(** A request that its stage's delay lets go is at the head of the queue of [t]. *)
Definition ready (t : nat) (w : world) : Prop :=
  exists th q r l rq, threads w !! t = Some th /\ rqcbs w !! t_rqcb th = Some q /\ request_head q = r :: l /\
    requests w !! r = Some rq /\ (delay q = 0 \/ delay q <= clock_off w - clock rq).

(** The steps that have something to do: a handler that returns, a thread that
    finds a request, the move of a temporary queue, a pass over completed requests. *)
Definition productive (o : op) (w : world) : Prop :=
  match o with
  | ORun _ _ _ => True
  | OLoop t => ready t w
  | OWake t => ready t w /\ graceful_restart w && (pipeline_queue_len w =? 0) = false
  | OKick busy => exists p pc i, pcb w !! p = Some (Some pc) /\ tmp_request_head pc <> [] /\ first_rqcbp pc = Some i /\ busy i = false
  | ODone _ _ done_busy ev => request_head (done_rqcb w) <> [] /\ done_busy = false /\ ev <> EV_TIMEOUT
  | _ => False
  end.

(** A run with [k] productive steps among its steps. *)
Inductive drain (w0 : world) : nat -> world -> Prop :=
| drain_start : drain w0 0 w0
| drain_idle k w o w' : drain w0 k w -> enabled o w -> tame o -> exec o w = Some w' -> drain w0 k w'
| drain_work k w o w' : drain w0 k w -> enabled o w -> tame o -> productive o w -> exec o w = Some w' -> drain w0 (S k) w'.

(** Stages lead to later stages only, as [pipeline_init] links them, and no thread
    has a stage chosen. *)
Definition straight (w : world) : Prop :=
  (forall i q j, rqcbs w !! i = Some q -> next_rqcb q = Some j -> (i < j)%nat) /\
  (forall t th, threads w !! t = Some th -> t_next_rqcbp th = None).

(** * The measure *)

Fixpoint zsum {A} (f : A -> Z) (l : list A) : Z :=
  match l with [] => 0 | x :: l' => f x + zsum f l' end.

Lemma zsum_insert {A} (f : A -> Z) l i x y : l !! i = Some x -> zsum f (<[i:=y]> l) = zsum f l + f y - f x.
Proof.
  revert i. induction l as [|z l IH]; intros [|i] H; [done|done|cbn in *; simplify_eq; lia|].
  change (<[S i:=y]> (z :: l)) with (z :: <[i:=y]> l). cbn [zsum]. rewrite (IH i H). lia.
Qed.

(** What the requests of a queue of stages still cost, when [n] stages are left. *)
Fixpoint stages_cost (n : Z) (qs : list RQCB) : Z :=
  match qs with
  | [] => 0
  | q :: qs' => (2 * n + 1) * Z.of_nat (length (request_head q)) + stages_cost (n - 1) qs'
  end.

Lemma stages_cost_insert n qs i q q' : qs !! i = Some q ->
  stages_cost n (<[i:=q']> qs) =
  stages_cost n qs + (2 * (n - Z.of_nat i) + 1) * (Z.of_nat (length (request_head q')) - Z.of_nat (length (request_head q))).
Proof.
  revert n i. induction qs as [|z qs IH]; intros n [|i] H; [done|done|cbn -[Z.of_nat Z.mul] in *; simplify_eq; lia|].
  change (<[S i:=q']> (z :: qs)) with (z :: <[i:=q']> qs). cbn [stages_cost]. rewrite (IH (n - 1) i H). replace (2 * (n - Z.of_nat (S i)) + 1) with (2 * (n - 1 - Z.of_nat i) + 1) by lia. lia.
Qed.

Definition stages (w : world) : Z := Z.of_nat (length (rqcbs w)).

Definition tmp_len (op : option PCB) : Z := match op with Some pc => Z.of_nat (length (tmp_request_head pc)) | None => 0 end.

Definition busy_cost (n : Z) (th : PIPELINE_THREAD) : Z :=
  2 * (n - Z.of_nat (t_rqcb th)) * Z.of_nat (length (pc_list (t_pc th))).

(** Before the done queue, and in all. *)
Definition ahead (w : world) : Z :=
  stages_cost (stages w) (rqcbs w) + (2 * stages w + 2) * zsum tmp_len (pcb w) + zsum (busy_cost (stages w)) (threads w).

Definition todo (w : world) : Z := ahead w + Z.of_nat (length (request_head (done_rqcb w))).

(** [adv d w w']: the shape is kept and at most [d] was added to the measure. *)
Definition adv (d : Z) (w w' : world) : Prop :=
  straight w' /\ length (rqcbs w') = length (rqcbs w) /\ final_request_head w' = final_request_head w /\ todo w' <= todo w + d.

Lemma adv_trans d1 d2 w w1 w2 : adv d1 w w1 -> adv d2 w1 w2 -> adv (d1 + d2) w w2.
Proof. intros (H1 & H2 & H3 & H4) (H5 & H6 & H7 & H8). split_and!; [done|congruence|congruence|lia]. Qed.

Lemma adv_weaken d d' w w' : d <= d' -> adv d w w' -> adv d' w w'.
Proof. intros Hd (H1 & H2 & H3 & H4). split_and!; try done. lia. Qed.

(** * Updates *)

(** What the measure does not look at. *)
Definition aside (w w' : world) : Prop :=
  rqcbs w' = rqcbs w /\ done_rqcb w' = done_rqcb w /\ final_request_head w' = final_request_head w /\
  pcb w' = pcb w /\ threads w' = threads w.

Lemma aside_adv w w' : straight w -> aside w w' -> adv 0 w w'.
Proof.
  intros Hs (H1 & H2 & H3 & H4 & H5). unfold adv, straight, todo, ahead, stages. rewrite H1, H2, H3, H4, H5.
  split_and!; try done; try apply Hs. lia.
Qed.

Lemma adv_rqcb w i q q' : straight w -> rqcbs w !! i = Some q -> next_rqcb q' = next_rqcb q ->
  adv ((2 * (stages w - Z.of_nat i) + 1) * (Z.of_nat (length (request_head q')) - Z.of_nat (length (request_head q))))
    w (set_rqcbs (<[i:=q']> (rqcbs w)) w).
Proof.
  intros [Hs Ht] Hq Hn. unfold adv. split_and!; cbn; [|by rewrite length_insert|done|].
  - split; [|exact Ht]. intros j q1 k Hj Hk. cbn in Hj. apply list_lookup_insert_Some in Hj as [(-> & <- & _)|[_ Hj]]; eauto.
    rewrite Hn in Hk. eauto.
  - unfold todo, ahead, stages. cbn -[Z.of_nat Z.mul]. rewrite length_insert, (stages_cost_insert _ _ _ _ _ Hq). lia.
Qed.

Lemma adv_thread w t th th' : straight w -> threads w !! t = Some th -> t_next_rqcbp th' = None -> t_rqcb th' = t_rqcb th ->
  adv (2 * (stages w - Z.of_nat (t_rqcb th)) * (Z.of_nat (length (pc_list (t_pc th'))) - Z.of_nat (length (pc_list (t_pc th)))))
    w (set_threads (<[t:=th']> (threads w)) w).
Proof.
  intros [Hs Ht] Hth Hn Hr. unfold adv. split_and!; cbn; [|done|done|].
  - split; [exact Hs|]. intros u th1 Hu. cbn in Hu. apply list_lookup_insert_Some in Hu as [(-> & <- & _)|[_ Hu]]; eauto.
  - unfold todo, ahead, stages. cbn -[Z.of_nat Z.mul]. rewrite (zsum_insert _ _ _ _ _ Hth). unfold busy_cost. rewrite Hr. lia.
Qed.

Lemma adv_done rc r w : straight w -> lock_rc rc = 0 -> adv 1 w (to_done_stage rc r w).
Proof.
  intros Hs Hrc. unfold to_done_stage, signal_done. rewrite Hrc. cbn [Z.eqb].
  assert (forall b p, adv 1 w (set_done_pipe p (set_done_signalled b (set_done_rqcb
    (let q := rqcb_push r (done_rqcb w) in set_rqst_num (u32 (rqst_num q + 1)) q) w)))) as H.
  { intros b p. split_and!; try done; try apply Hs. unfold todo, ahead, stages. cbn -[Z.of_nat Z.mul]. rewrite length_app. cbn [length]. lia. }
  case_match; [|apply H]. specialize (H (done_signalled w) (done_pipe w)). by destruct w.
Qed.

Lemma adv_next rc j r w : straight w -> lock_rc rc = 0 -> ensures (adv (2 * (stages w - Z.of_nat j) + 1) w) (to_next_stage rc j r w).
Proof.
  intros Hs Hrc. unfold to_next_stage. rewrite Hrc. cbn [Z.eqb]. apply ensures_bind with (P := adv (2 * (stages w - Z.of_nat j) + 1) w).
  - apply ensures_read. intros q Hq. apply ensures_Some. eapply adv_weaken; [|by apply adv_rqcb].
    cbn -[Z.of_nat Z.mul]. rewrite length_app. cbn [length]. lia.
  - intros w1 H1. apply ensures_read. intros rq _. apply ensures_Some. replace (2 * _ + 1) with (2 * (stages w - Z.of_nat j) + 1 + 0) by lia.
    eapply adv_trans; [exact H1|]. apply aside_adv; [apply H1|done].
Qed.

(** * Worker threads *)

(** A thread that is not busy takes the oldest request of its stage. *)
Lemma adv_take t i q r l th rq w :
  straight w -> threads w !! t = Some th -> t_rqcb th = i -> pc_list (t_pc th) = [] -> (i < length (rqcbs w))%nat ->
  rqcbs w !! i = Some q -> request_head q = r :: l -> occurs r (request_head q) = 1%nat -> requests w !! r = Some rq ->
  ensures (adv (if negb (delay q =? 0) && (clock_off w - clock rq <? delay q) then 0 else -1) w) (worker_take rc_ok t i r w).
Proof.
  intros Hs Ht Hti Hpc Hi Hq Hh Ho Hr. unfold worker_take. rewrite Hq, Hr. cbn [mbind option_bind].
  assert (forall w1 th1 d, adv d w w1 -> threads w1 = threads w -> pc_list (t_pc th1) = [] ->
    t_next_rqcbp th1 = None -> t_rqcb th1 = i -> adv d w (set_threads (<[t:=th1]> (threads w1)) w1)) as Hidle.
  { intros w1 th1 d H1 E1 E2 E3 E4. replace d with (d + 0) by lia. eapply adv_trans; [exact H1|].
    rewrite <-E1 in Ht. eapply adv_weaken; [|eapply (adv_thread w1 t th th1); [apply H1|done|done|congruence]]. rewrite E2, Hpc. cbn. lia. }
  assert (t_next_rqcbp th = None) as Hnx by (by apply (proj2 Hs) in Ht).
  case_match; [rewrite (upd_thread_eq _ _ _ _ Ht); apply ensures_Some, Hidle; try done; by apply aside_adv|].
  rewrite (upd_rqcb_eq _ _ _ _ Hq). cbn [mbind option_bind]. set (w1 := set_rqcbs _ w).
  assert (adv (- (2 * (stages w - Z.of_nat i) + 1)) w w1) as H1.
  { eapply adv_weaken; [|by apply adv_rqcb]. pose proof (length_unlink r (request_head q)) as Hu. rewrite Ho in Hu.
    change (request_head (rqcb_drop r q)) with (unlink r (request_head q)). nia. }
  assert (0 < stages w - Z.of_nat i) as Hlt by (unfold stages; lia). case_match.
  - rewrite (upd_request_eq r _ w1 rq) by exact Hr. cbn [mbind option_bind]. set (w2 := set_requests _ w1).
    rewrite (upd_thread_eq t _ (to_done_stage rc_ok r w2) th) by (rewrite threads_to_done; exact Ht).
    assert (adv 0 w1 w2) as H2 by (apply aside_adv; [apply H1|done]).
    apply ensures_Some, Hidle; [|by rewrite threads_to_done|done|done|done].
    eapply adv_weaken; [|eapply adv_trans; [exact H1|eapply adv_trans; [exact H2|apply adv_done; [apply H2|done]]]]. lia.
  - rewrite (upd_thread_eq t _ w1 th) by exact Ht. apply ensures_Some. eapply adv_weaken; [|eapply adv_trans; [exact H1|]].
    2:{ apply adv_thread; [apply H1|exact Ht|done|done]. }
    rewrite Hpc. cbn -[Z.of_nat]. change (stages w1) with (Z.of_nat (length (<[i:=rqcb_drop r q]> (rqcbs w)))). rewrite length_insert, Hti.
    unfold stages. lia.
Qed.

(** The look at the queue, at the top of the loop or after a wait. *)
Lemma adv_look t th q w :
  pinv w -> straight w -> threads w !! t = Some th -> pc_list (t_pc th) = [] -> rqcbs w !! t_rqcb th = Some q ->
  match request_head q with
  | [] => True
  | r :: _ => ensures (fun w' => adv 0 w w' /\ (ready t w -> adv (-1) w w')) (worker_take rc_ok t (t_rqcb th) r w)
  end.
Proof.
  intros Hp Hs Ht Hpc Hq. destruct (request_head q) as [|r l] eqn:Hh; [done|].
  destruct (pinv_head w _ q r l Hp Hq Hh) as [Ho [rq Hr]].
  assert (ready t w -> negb (delay q =? 0) && (clock_off w - clock rq <? delay q) = false) as Hready.
  { intros (th1 & q1 & r1 & l1 & rq1 & E1 & E2 & E3 & E4 & Hd). simplify_eq. rewrite Hh in E3. simplify_eq. apply andb_false_iff. rewrite negb_false_iff, Z.eqb_eq, Z.ltb_ge. lia. }
  intros w' E. pose proof (adv_take t _ q r l th rq w Hs Ht eq_refl Hpc (lookup_lt_Some _ _ _ Hq) Hq Hh Ho Hr w' E) as H.
  split; [|intros Hrd; by rewrite Hready in H]. eapply adv_weaken; [|exact H]. case_match; lia.
Qed.

Lemma adv_loop t w : pinv w -> straight w -> thread_at t PcLoop w ->
  ensures (fun w' => adv 0 w w' /\ (ready t w -> adv (-1) w w')) (worker_loop rc_ok t w).
Proof.
  intros Hp Hs (th & Ht & Hpc). unfold worker_loop. rewrite (upd_thread_eq _ _ _ _ Ht). cbn [mbind option_bind].
  set (th1 := set_t_cur_rqst None (set_t_status THREAD_WAITING th)). set (w1 := set_threads _ w).
  assert (threads w1 !! t = Some th1) as Ht1 by (apply list_lookup_insert_eq; by eapply lookup_lt_Some).
  assert (t_next_rqcbp th = None) as Hnx by (by apply (proj2 Hs) in Ht).
  assert (adv 0 w w1) as H1 by (eapply adv_weaken; [|by apply (adv_thread w t th th1)]; cbn -[Z.of_nat]; lia).
  destruct (moves_thread_quiet w t (fun th => set_t_cur_rqst None (set_t_status THREAD_WAITING th)) th (proj1 Hp) Ht)
    as (w1' & E1 & _ & _ & _ & Hm); [done|by cbn; rewrite Hnx|done|].
  rewrite (upd_thread_eq _ _ _ _ Ht) in E1. injection E1 as <-. fold th1 w1 in Hm.
  assert (pinv w1) as Hp1 by (by eapply moves_pinv). rewrite Ht1. cbn [mbind option_bind].
  assert (ready t w -> ready t w1) as Hrd.
  { intros (th2 & q & r & l & rq & E & Hrest). simplify_eq. exists th1, q, r, l, rq. done. }
  apply ensures_read. intros q Hq. pose proof (adv_look t th1 q w1 Hp1 (proj1 H1) Ht1) as Hlook.
  change (pc_list (t_pc th1)) with (pc_list (t_pc th)) in Hlook. rewrite Hpc in Hlook. specialize (Hlook eq_refl Hq).
  destruct (request_head q) as [|r l] eqn:Hh.
  - rewrite (upd_thread_eq _ _ _ _ Ht1). apply ensures_Some. split.
    + change 0 with (0 + 0). eapply adv_trans; [exact H1|]. eapply adv_weaken; [|eapply (adv_thread w1 t th1); [apply H1|done..]].
      cbn -[Z.of_nat]. rewrite Hpc. cbn. lia.
    + intros (th2 & q2 & r & l & rq & E2 & E3 & E4 & _). assert (th2 = th) as -> by congruence.
      change (rqcbs w !! t_rqcb th = Some q) in Hq. congruence.
  - intros w' E. destruct (Hlook w' E) as [Ha Hb]. split; [exact (adv_trans 0 0 _ _ _ H1 Ha)|].
    intros Hr. exact (adv_trans 0 (-1) _ _ _ H1 (Hb (Hrd Hr))).
Qed.

Lemma adv_wake t w : pinv w -> straight w -> thread_at t PcWait w ->
  ensures (fun w' => adv 0 w w' /\ (productive (OWake t) w -> adv (-1) w w')) (worker_wake rc_ok t w).
Proof.
  intros Hp Hs (th & Ht & Hpc). unfold worker_wake. assert (t_next_rqcbp th = None) as Hnx by (by apply (proj2 Hs) in Ht).
  destruct (graceful_restart w && (pipeline_queue_len w =? 0)) eqn:Eg.
  - unfold thread_deinit. rewrite (upd_thread_eq _ _ _ _ Ht). cbn [mbind option_bind]. apply ensures_Some.
    split; [|intros [_ H]; congruence]. cbn zeta. set (w1 := set_threads _ w).
    assert (adv 0 w w1) as H1 by (eapply adv_weaken; [|by apply (adv_thread w t th)]; rewrite Hpc; cbn; lia).
    change 0 with (0 + 0). eapply adv_trans; [exact H1|]. case_match; (apply aside_adv; [apply H1|done]).
  - rewrite Ht. cbn [mbind option_bind]. apply ensures_read. intros q Hq.
    pose proof (adv_look t th q w Hp Hs Ht ltac:(by rewrite Hpc) Hq) as Hlook.
    destruct (request_head q) as [|r l] eqn:Hh.
    + apply ensures_Some. split; [by apply aside_adv|]. intros [(th2 & q2 & r & l & rq & E2 & E3 & E4 & _) _]. simplify_eq. congruence.
    + intros w' E. destruct (Hlook w' E) as [Ha Hb]. split; [done|]. intros [Hr _]. auto.
Qed.

(** The thread [t] is still at the same point of the same stage. *)
Definition stays (t : nat) (th : PIPELINE_THREAD) (w : world) : Prop :=
  exists th', threads w !! t = Some th' /\ t_pc th' = t_pc th /\ t_rqcb th' = t_rqcb th.

Lemma adv_submit_next t th i r rq w :
  straight w -> threads w !! t = Some th -> (i < length (rqcbs w))%nat -> requests w !! r = Some rq ->
  nstage rq <= MAX_STAGE_JUMP -> ret rq <> PIPELINE_REQUEUE ->
  ensures (fun w' => adv (2 * (stages w - Z.of_nat i) - 1) w w' /\ stays t th w') (submit_next rc_ok t i r w).
Proof.
  intros Hs Ht Hi Hr Hn Hret.
  assert (1 <= stages w - Z.of_nat i) as Hlt by (unfold stages; lia).
  assert (forall w1, adv 0 w w1 -> stays t th w1 ->
    adv (2 * (stages w - Z.of_nat i) - 1) w (to_done_stage rc_ok r w1) /\ stays t th (to_done_stage rc_ok r w1)) as Hdone.
  { intros w1 H1 Hst. split; [|unfold stays; by rewrite threads_to_done].
    eapply adv_weaken; [|eapply adv_trans; [exact H1|apply adv_done; [apply H1|done]]]. lia. }
  assert (stays t th w) as Hst by (by exists th). assert (adv 0 w w) as H0 by (by apply aside_adv).
  unfold submit_next. rewrite Hr. cbn [mbind option_bind]. rewrite (check_loop_skip rc_ok r w rq Hr Hn).
  case_match; [by apply ensures_Some, Hdone|]. case_match.
  2:{ case_match; [by apply ensures_Some, Hdone|]. case_match; bool_props; [done|by apply ensures_Some, Hdone]. }
  cbn [mbind option_bind]. rewrite Ht. cbn [mbind option_bind]. apply ensures_read. intros q Hq.
  rewrite (upd_thread_eq _ _ _ _ Ht), (proj2 Hs t th Ht). cbn [mbind option_bind]. set (w1 := set_threads _ w).
  assert (adv 0 w w1) as Hw1 by (eapply adv_weaken; [|by apply (adv_thread w t th)]; cbn -[Z.of_nat]; lia).
  assert (stays t th w1) as Hst1 by (eexists; split; [apply list_lookup_insert_eq; by eapply lookup_lt_Some|done]).
  destruct (next_rqcb q) as [j|] eqn:Hj; [|by apply ensures_Some, Hdone].
  intros w' E. split; [|unfold stays; by rewrite (threads_to_next _ _ _ _ _ E)].
  pose proof (proj1 Hs i q j Hq Hj). eapply adv_weaken; [|eapply adv_trans; [exact Hw1|exact (adv_next rc_ok j r w1 (proj1 Hw1) eq_refl w' E)]].
  change (stages w1) with (stages w). lia.
Qed.

Lemma adv_run out t r w : pinv w -> straight w -> enabled (ORun out t r) w -> tame (ORun out t r) ->
  ensures (adv (-1) w) (worker_run rc_ok out t r w).
Proof.
  intros Hp Hs ((th & Ht & Hpc) & _ & Hn) [Hnx Hret]. unfold worker_run. rewrite Ht. cbn [mbind option_bind].
  apply ensures_read. intros rq Hr. cbn zeta. apply ensures_read. intros q Hq.
  pose proof (lookup_lt_Some _ _ _ Hq) as Hi. assert (1 <= stages w - Z.of_nat (t_rqcb th)) as Hlt by (unfold stages; lia).
  set (d := 2 * (stages w - Z.of_nat (t_rqcb th)) - 1).
  assert (forall w1, adv 0 w w1 -> threads w1 = threads w -> adv d w (to_done_stage rc_ok r w1) /\ stays t th (to_done_stage rc_ok r w1)) as Hdone.
  { intros w1 H1 E1. split; [|exists th; by rewrite threads_to_done, E1].
    eapply adv_weaken; [|eapply adv_trans; [exact H1|apply adv_done; [apply H1|done]]]. unfold d. lia. }
  apply ensures_bind with (P := fun w3 => adv d w w3 /\ stays t th w3).
  - case_match; [|rewrite (upd_request_eq _ _ _ _ Hr); cbn [mbind option_bind]; apply ensures_Some, Hdone; [by apply aside_adv|done]].
    case_match; [|by apply ensures_Some, Hdone; [apply aside_adv|]]. case_match; [|by apply ensures_Some, Hdone; [apply aside_adv|]].
    rewrite (upd_request_eq _ _ _ _ Hr), Hnx. cbn [mbind option_bind]. set (rq1 := set_err _ _). set (w1 := set_requests _ w).
    assert (adv 0 w w1) as H1' by (by apply aside_adv).
    intros w3 E. destruct (adv_submit_next t th (t_rqcb th) r rq1 w1 (proj1 H1') Ht Hi (lookup_insert_eq _ _ _) (Hn rq Hr) Hret w3 E) as [Ha Hst].
    split; [|exact Hst]. eapply adv_weaken; [|exact (adv_trans _ _ _ _ _ H1' Ha)]. unfold d. change (stages w1) with (stages w). lia.
  - intros w3 [H3 (th3 & Ht3 & Hpc3 & Hr3)]. rewrite (upd_thread_eq _ _ _ _ Ht3). apply ensures_Some.
    eapply adv_weaken; [|eapply adv_trans; [exact H3|apply (adv_thread w3 t th3); [apply H3|done|exact (proj2 (proj1 H3) t th3 Ht3)|done]]].
    rewrite Hpc3, Hpc, Hr3. cbn -[Z.of_nat Z.mul]. unfold d. assert (stages w3 = stages w) as -> by (unfold stages; f_equal; apply H3). lia.
Qed.

(** * The temporary queues *)

Lemma adv_joined w p i pc q :
  straight w -> pcb w !! p = Some (Some pc) -> rqcbs w !! i = Some q ->
  adv (- Z.of_nat (length (tmp_request_head pc))) w (joined_world p i pc q w).
Proof.
  intros Hs Hp Hq. set (k := Z.of_nat (length (tmp_request_head pc))). unfold joined_world. set (w1 := set_rqcbs _ w).
  assert (adv ((2 * (stages w - Z.of_nat i) + 1) * k) w w1) as H1.
  { eapply adv_weaken; [|by apply (adv_rqcb w i q (joined pc q))]. cbn -[Z.of_nat Z.mul]. rewrite length_app. unfold k. lia. }
  assert (adv (- ((2 * stages w + 2) * k)) w1 (set_apq (unlink p (apq w)) (set_pcb (<[p:=Some (emptied pc)]> (pcb w)) w1))) as H2.
  { split_and!; try done; try apply H1. unfold todo, ahead, stages, w1. cbn -[Z.of_nat Z.mul]. rewrite length_insert.
    rewrite (zsum_insert tmp_len _ _ _ _ Hp). cbn -[Z.of_nat Z.mul]. unfold k. lia. }
  eapply adv_weaken; [|exact (adv_trans _ _ _ _ _ H1 H2)]. unfold k. nia.
Qed.

(** What happens to the temporary queue of a pipeline that may be moved. *)
Lemma adv_kick_one busy w p : straight w ->
  ensures (fun w' => adv 0 w w' /\
    (forall pc i, pcb w !! p = Some (Some pc) -> first_rqcbp pc = Some i -> busy i = false ->
       adv (- Z.of_nat (length (tmp_request_head pc))) w w') /\
    (forall p', p' <> p -> pcb w' !! p' = pcb w !! p')) (kick_one busy w p).
Proof.
  intros Hs. unfold kick_one, get_pcb. destruct (pcb w !! p) as [[pc|]|] eqn:Hp; [|done|done].
  cbn [mbind option_bind mjoin option_join]. destruct (tmp_request_head pc) as [|r l] eqn:Et.
  - apply ensures_Some. split; [by apply aside_adv|]. split; [|done]. intros pc' i [= <-] _ _. rewrite Et. by apply aside_adv.
  - apply ensures_read. intros i Hi. destruct (busy i) eqn:Eb.
    + apply ensures_Some. split; [by apply aside_adv|]. split; [|done]. intros pc' i' [= <-] Hi' Hb. congruence.
    + intros w' E. destruct (rqcbs w !! i) as [q|] eqn:Hq; [|unfold concat_tmp, upd_rqcb in E; by rewrite Hq in E].
      rewrite (concat_tmp_eq _ _ _ _ _ Hp Hq) in E. apply (inj Some) in E as <-. pose proof (adv_joined w p i pc q Hs Hp Hq) as H.
      split; [eapply adv_weaken; [|exact H]; lia|]. split; [by intros pc' i' [= <-] _ _|].
      intros p' Hne. cbn. by rewrite list_lookup_insert_ne.
Qed.

Lemma adv_kick_loop busy l w : straight w ->
  ensures (fun w' => adv 0 w w' /\ forall p pc i, p ∈ l -> pcb w !! p = Some (Some pc) -> tmp_request_head pc <> [] ->
    first_rqcbp pc = Some i -> busy i = false -> adv (-1) w w') (for_each (kick_one busy) w l).
Proof.
  revert w. induction l as [|p l IH]; intros w Hs; cbn [for_each].
  { apply ensures_Some. split; [by apply aside_adv|]. by intros p pc i ?%not_elem_of_nil. }
  apply ensures_read. intros w1 E1. destruct (adv_kick_one busy w p Hs w1 E1) as (H1 & Hmv & Hot).
  intros w' E. destruct (IH w1 (proj1 H1) w' E) as [H2 Hmv2]. split; [exact (adv_trans 0 0 _ _ _ H1 H2)|].
  intros p' pc i Hin Hp Ht Hi Hb. destruct (decide (p' = p)) as [->|Hne].
  - eapply adv_weaken; [|exact (adv_trans _ _ _ _ _ (Hmv pc i Hp Hi Hb) H2)]. destruct (tmp_request_head pc); [done|cbn; lia].
  - eapply (adv_trans 0 (-1)); [exact H1|]. apply (Hmv2 p' pc i); try done; [by apply elem_of_cons in Hin as [?|?]|by rewrite Hot].
Qed.

Lemma adv_kick busy w : pinv w -> straight w ->
  ensures (fun w' => adv 0 w w' /\ (productive (OKick busy) w -> adv (-1) w w')) (kick_request_queue busy w).
Proof.
  intros Hp Hs w' E. destruct (adv_kick_loop busy (apq w) w Hs w' E) as [H1 H2]. split; [done|].
  intros (p & pc & i & Hpc & Ht & Hi & Hb). apply (H2 p pc i); try done.
  destruct Hp as ((_ & _ & _ & (_ & _ & Ha) & _) & _). by eapply Ha.
Qed.

(** * Completion *)

(** What the completion of requests leaves to the other threads. *)
Definition kept_stages (w w' : world) : Prop := rqcbs w' = rqcbs w /\ pcb w' = pcb w /\ threads w' = threads w.

Lemma kept_trans w1 w2 w3 : kept_stages w1 w2 -> kept_stages w2 w3 -> kept_stages w1 w3.
Proof. intros (H1 & H2 & H3) (H4 & H5 & H6). split_and!; congruence. Qed.

Lemma kept_rele c w : ensures (kept_stages w) (CS_RELE c w).
Proof. apply ensures_read. intros cs _. cbn zeta. case_match; by apply ensures_Some. Qed.

Lemma kept_close c w : ensures (kept_stages w) (conn_close c w).
Proof. apply ensures_read. intros cs _. case_match; by apply ensures_Some. Qed.

Lemma kept_lost c w : ensures (kept_stages w) (conn_state_cleanup c w).
Proof. exact (kept_rele c (connection_lost c w)). Qed.

Lemma kept_cleanup r w : ensures (kept_stages w) (cleanup_request r w).
Proof.
  apply ensures_read. intros rq _. cbn zeta. set (w2 := match data_cleaner rq with Some _ => emit _ _ | None => _ end).
  assert (kept_stages w w2) as H2 by (unfold w2; by case_match). apply ensures_bind with (P := kept_stages w).
  - case_match; [|by apply ensures_Some]. intros w3 E. exact (kept_trans _ _ _ H2 (kept_rele _ _ _ E)).
  - intros w3 H3. by apply ensures_Some.
Qed.

Lemma kept_respond respond s r : ensures (fun s' => kept_stages s.2 s'.2) (respond_one respond s r).
Proof.
  destruct s as [rc w]. cbn [snd]. unfold respond_one. cbn zeta. set (w0 := set_pipeline_queue_len _ w).
  assert (kept_stages w w0) as H0 by done. clearbody w0. apply ensures_read. intros rq _. destruct (csp rq) as [c|]; [|by apply ensures_Some].
  apply ensures_read. intros _ _. match goal with |- ensures _ (let '(_, _) := ?m in _) =>
    assert (kept_stages w m.2) as H1; [repeat case_match; exact H0|destruct m as [rc1 w1]; cbn in H1] end.
  apply ensures_bind with (P := kept_stages w).
  { case_match; [|by apply ensures_Some]. apply ensures_bind with (P := kept_stages w).
    - intros w2 E. exact (kept_trans _ _ _ H1 (kept_close _ _ _ E)).
    - intros w2 H2 w3 E. exact (kept_trans _ _ _ H2 (kept_lost _ _ _ E)). }
  intros w2 H2. apply ensures_bind with (P := kept_stages w).
  { case_match; [by apply ensures_Some|]. apply ensures_read. intros rq2 _. by apply ensures_Some. }
  intros w3 H3. apply ensures_bind with (P := kept_stages w).
  { intros w4 E. exact (kept_trans _ _ _ H3 (kept_cleanup _ _ _ E)). }
  intros w4 H4. apply ensures_Some. cbn. by case_match.
Qed.

(** What one step does to the measure. *)
Definition drained (o : op) (w w' : world) : Prop :=
  straight w' /\ length (rqcbs w') = length (rqcbs w) /\ final_request_head w' = [] /\
  todo w' <= todo w /\ (productive o w -> todo w' < todo w).

Lemma adv_drained o w w' : final_request_head w = [] -> adv 0 w w' -> (productive o w -> adv (-1) w w') -> drained o w w'.
Proof.
  intros Hf (H1 & H2 & H3 & H4) Hprod. split_and!; [done|done|congruence|lia|]. intros Hp. destruct (Hprod Hp) as (_ & _ & _ & H). lia.
Qed.

Lemma kept_ahead w w' : kept_stages w w' -> ahead w' = ahead w /\ (straight w -> straight w') /\ length (rqcbs w') = length (rqcbs w).
Proof. intros (H1 & H2 & H3). unfold ahead, stages, straight. by rewrite H1, H2, H3. Qed.

Lemma drained_done respond busy db ev w :
  pinv w -> straight w -> final_request_head w = [] -> enabled (ODone respond busy db ev) w ->
  ensures (drained (ODone respond busy db ev) w) (done_requests_handler respond busy db ev w).
Proof.
  intros Hp Hs Hf Hresp w' E. unfold done_requests_handler in E. fold (clear_signal w) in E.
  pose proof (clear_signal_moves w (proj1 Hp)) as Hm1.
  assert (adv 0 w (clear_signal w)) as H1 by (apply aside_adv; [done|unfold clear_signal; by destruct (done_signalled w)]).
  assert (done_rqcb (clear_signal w) = done_rqcb w) as Hd1 by (unfold clear_signal; by destruct (done_signalled w)).
  destruct (kick_request_queue_spec busy (clear_signal w) (moves_wf _ _ _ _ Hm1)) as (w2 & E2 & Hm2 & _ & (_ & Hf2 & Hd2 & _)).
  pose proof (moves_pinv _ _ _ _ Hp (fun _ => eq_refl) (moves_trans _ _ _ _ _ _ _ Hm1 Hm2)) as Hp2.
  pose proof (moves_pinv _ _ _ _ Hp (fun _ => eq_refl) Hm1) as Hp1.
  destruct (adv_kick busy _ Hp1 (proj1 H1) w2 E2) as [H2 _]. pose proof (adv_trans 0 0 _ _ _ H1 H2) as H3. clear H1 H2 Hm1 Hm2 Hp1.
  rewrite E2 in E. cbn [mbind option_bind] in E. rewrite Hd1 in Hd2.
  destruct (request_head (done_rqcb w2)) as [|r0 l0] eqn:Ed.
  { injection E as <-. apply adv_drained; [done|done|]. intros (Hne & _). by rewrite <-Hd2, Ed in Hne. }
  destruct (Z.eqb_spec ev EV_TIMEOUT) as [Hev|Hev].
  { injection E as <-. apply adv_drained; [done|done|]. by intros (_ & _ & ?). }
  pose proof (moves_pinv _ _ _ _ Hp2 (fun _ => eq_refl) (get_done_moves db w2 (proj1 Hp2))) as Hp3. set (w3 := get_done_requests db w2) in *.
  destruct (respond_loop_spec respond (final_request_head w3) (Z.lor RESPONDER_OK RESPONDER_CLEAN) w3)
    as (rc' & w4 & E4 & _ & Hf4 & Hd4 & _); [done..|].
  pose proof (ensures_for_each (fun s => kept_stages w3 s.2) (respond_one respond) (final_request_head w3)
    (Z.lor RESPONDER_OK RESPONDER_CLEAN, w3)) as Hk.
  rewrite E4 in E. injection E as <-. specialize (Hk ltac:(done)
    (fun s x Hs s' Es => kept_trans _ _ _ Hs (kept_respond respond s x s' Es)) _ E4). cbn in Hk.
  assert (kept_stages w2 w3) as Hk3 by (unfold w3, get_done_requests; rewrite Ed; by destruct db).
  destruct (kept_ahead _ _ (kept_trans _ _ _ Hk3 Hk)) as (Ha & Hst & Hlen). destruct H3 as (Hs2 & Hl2 & _ & Ht2).
  unfold drained. split; [by apply Hst|]. split; [congruence|]. split; [done|]. unfold todo in *. rewrite Ha, Hd4.
  assert (request_head (done_rqcb w3) = if db then r0 :: l0 else []) as -> by (unfold w3, get_done_requests; rewrite Ed; by destruct db).
  rewrite Ed in Ht2. destruct db; cbn -[Z.of_nat] in *; [split; [lia|by intros (_ & ? & _)]|lia].
Qed.

Lemma drained_step o w : pinv w -> straight w -> final_request_head w = [] -> enabled o w -> tame o -> ensures (drained o w) (exec o w).
Proof.
  intros Hp Hs Hf Hen Ht w' E. destruct o; cbn [exec tame enabled] in *; try done.
  - destruct (adv_kick _ _ Hp Hs w' E). by apply adv_drained.
  - by apply (drained_done respond busy done_busy ev w).
  - apply adv_drained; [done| |done]. apply aside_adv; [done|]. destruct req; [|by injection E as <-].
    revert E. apply (ensures_read (aside w)). intros rq _. by apply ensures_Some.
  - injection E as <-. apply adv_drained; [done| |done]. by apply aside_adv.
  - apply adv_drained; [done| |done]. apply aside_adv; [done|]. revert E. apply (ensures_bind (aside w)).
    + apply ensures_read. intros cs _. case_match; by apply ensures_Some.
    + intros w1 H1. apply (ensures_read (aside w)). intros cs _. cbn zeta. case_match; by apply ensures_Some.
  - destruct (adv_loop t w Hp Hs Hen w' E). by apply adv_drained.
  - destruct (adv_wake t w Hp Hs Hen w' E). by apply adv_drained.
  - pose proof (adv_run out t r w Hp Hs Hen Ht w' E) as H. apply adv_drained; [done| |done]. eapply adv_weaken; [|exact H]. lia.
  - injection E as <-. apply adv_drained; [done| |done]. by apply aside_adv.
  - injection E as <-. apply adv_drained; [done| |done]. by apply aside_adv.
Qed.

Lemma drain_bound w0 k w : pinv w0 -> straight w0 -> final_request_head w0 = [] -> drain w0 k w ->
  pinv w /\ straight w /\ final_request_head w = [] /\ length (rqcbs w) = length (rqcbs w0) /\ Z.of_nat k + todo w <= todo w0.
Proof.
  intros Hp Hs Hf Hd. induction Hd as [|k w o w' _ (H1 & H2 & H3 & H4 & H5) Hen Ht E|k w o w' _ (H1 & H2 & H3 & H4 & H5) Hen Ht Hprod E].
  - by split_and!.
  - destruct (exec_pinv o w H1 Hen) as (w1 & E1 & Hp1). assert (w1 = w') as -> by congruence.
    destruct (drained_step o w H1 H2 H3 Hen Ht w' E) as (G1 & G2 & G3 & G4 & _). split_and!; try done; [congruence|lia].
  - destruct (exec_pinv o w H1 Hen) as (w1 & E1 & Hp1). assert (w1 = w') as -> by congruence.
    destruct (drained_step o w H1 H2 H3 Hen Ht w' E) as (G1 & G2 & G3 & G4 & G5). specialize (G5 Hprod). split_and!; try done; [congruence|lia].
Qed.

(** * The bound *)

(** Everything that is queued or worked on. *)
Definition queued (w : world) : list nat :=
  final_request_head w ++ request_head (done_rqcb w) ++ concat (request_head <$> rqcbs w) ++
  concat ((fun op => match op with Some pc => tmp_request_head pc | None => [] end) <$> pcb w) ++
  concat ((fun th => pc_list (t_pc th)) <$> threads w).

Lemma occurs_concat {A} (f : A -> list nat) r l : occurs r (concat (f <$> l)) = sum_list_with (fun x => occurs r (f x)) l.
Proof. induction l as [|x l IH]; [done|]. cbn [fmap list_fmap concat sum_list_with]. by rewrite occurs_app, IH. Qed.

Lemma occurs_queued r w : occurs r (queued w) = occ r w.
Proof.
  unfold queued, occ, occ_stages, occ_tmp, occ_threads. rewrite !occurs_app, !occurs_concat.
  assert (sum_list_with (fun x => occurs r match x with Some pc => tmp_request_head pc | None => [] end) (pcb w) =
    sum_list_with (fun op => match op with Some pc => occurs r (tmp_request_head pc) | None => O end) (pcb w)) as ->; [|lia].
  induction (pcb w) as [|[pc|] ps IH]; cbn; congruence.
Qed.

Lemma live_length {A} l (m : gmap nat A) : (forall r, occurs r l = live r m) -> length l = size m.
Proof.
  revert m. induction l as [|r l IH]; intros m H.
  - assert (m = ∅) as ->; [|by rewrite map_size_empty]. apply map_eq. intros k. rewrite lookup_empty. specialize (H k). unfold live in H.
    destruct (m !! k); [done|done].
  - pose proof (H r) as Hr. cbn in Hr. rewrite Nat.eqb_refl in Hr. unfold live in Hr. destruct (m !! r) as [x|] eqn:E; [|done].
    cbn [length]. rewrite (IH (delete r m)); [rewrite map_size_delete_Some by eauto; cbn|].
    + assert (size m <> 0%nat); [|lia]. intros H0%map_size_empty_inv. by rewrite H0, lookup_empty in E.
    + intros k. specialize (H k). unfold live in *. destruct (decide (k = r)) as [->|Hne].
      * rewrite lookup_delete_eq. lia.
      * rewrite lookup_delete_ne by done. cbn in H. by rewrite (proj2 (Nat.eqb_neq _ _) Hne) in H.
Qed.

Lemma zsum_le {A} (f : A -> Z) (g : A -> list nat) c l : (forall x, f x <= c * Z.of_nat (length (g x))) ->
  zsum f l <= c * Z.of_nat (length (concat (g <$> l))).
Proof.
  intros H. induction l as [|x l IH]; cbn -[Z.of_nat Z.mul]; [lia|]. rewrite length_app. specialize (H x). lia.
Qed.

Lemma stages_cost_le n qs : 0 <= n -> stages_cost n qs <= (2 * n + 1) * Z.of_nat (length (concat (request_head <$> qs))).
Proof.
  assert (forall n, stages_cost n qs <= (2 * n + 1) * Z.of_nat (length (concat (request_head <$> qs)))) as H; [|auto].
  induction qs as [|q qs IH]; intros m; cbn -[Z.of_nat Z.mul]; [lia|]. rewrite length_app. specialize (IH (m - 1)).
  cbn -[Z.of_nat Z.mul] in IH. nia.
Qed.

Lemma todo_le w : pinv w -> todo w <= (2 * stages w + 2) * Z.of_nat (size (requests w)).
Proof.
  intros (_ & _ & Hocc & _). rewrite <-(live_length (queued w)) by (intros r; by rewrite occurs_queued).
  assert (0 <= stages w) as Hn by (unfold stages; lia). pose proof (stages_cost_le (stages w) (rqcbs w) Hn) as H1.
  pose proof (zsum_le tmp_len (fun op => match op with Some pc => tmp_request_head pc | None => [] end) 1 (pcb w)
    ltac:(intros [pc|]; cbn -[Z.of_nat]; lia)) as H2.
  pose proof (zsum_le (busy_cost (stages w)) (fun th => pc_list (t_pc th)) (2 * stages w) (threads w)
    ltac:(intros th; unfold busy_cost; nia)) as H3.
  unfold todo, ahead, queued. rewrite !length_app. nia.
Qed.

(** * There is always something to do *)

(** The step [o] can be taken, possibly after a wait, and has something to do. *)
Definition offers (w : world) : Prop :=
  exists d o w', 0 <= d /\ let w1 := set_clock_off (clock_off w + d) w in
    enabled o w1 /\ tame o /\ productive o w1 /\ exec o w1 = Some w'.

Lemma offers_intro w d o : pinv w -> 0 <= d -> let w1 := set_clock_off (clock_off w + d) w in
  enabled o w1 -> tame o -> productive o w1 -> offers w.
Proof.
  intros Hp Hd w1 He Ht Hprod. assert (pinv w1) as Hp1 by exact Hp.
  destruct (exec_pinv o w1 Hp1 He) as (w' & E & _). by exists d, o, w'.
Qed.

Lemma elem_of_concat_fmap {A B} (f : A -> list B) l x : x ∈ concat (f <$> l) -> exists i y, l !! i = Some y /\ x ∈ f y.
Proof.
  induction l as [|y l IH]; cbn; [by intros ?%not_elem_of_nil|]. rewrite elem_of_app. intros [H|H]; [by exists 0%nat, y|].
  destruct (IH H) as (i & z & Hz & Hx). by exists (S i), z.
Qed.

Lemma offers_busy w t th r : serviceable w -> threads w !! t = Some th -> t_pc th = PcBusy r -> offers w.
Proof.
  intros (Hp & _ & _ & Hn & _) Ht Hpc. apply (offers_intro w 0 (ORun (mk_outcome PIPELINE_BREAK 0 None) t r)); try done.
  split; [by exists th|]. split; [done|]. intros rq. apply Hn.
Qed.

Lemma offers_queue w i q r l : serviceable w -> requests w <> ∅ -> rqcbs w !! i = Some q -> request_head q = r :: l -> offers w.
Proof.
  intros Hs Hne Hq Hr. pose proof Hs as (Hp & _ & Hst & _ & Hz). destruct (pinv_head w i q r l Hp Hq Hr) as [_ [rq Hrq]].
  destruct (Hst i (lookup_lt_Some _ _ _ Hq)) as (t & th & Ht & <- & Hex). set (d := Z.max 0 (delay q - (clock_off w - clock rq))).
  assert (ready t (set_clock_off (clock_off w + d) w)) as Hready by (exists th, q, r, l, rq; split_and!; try done; cbn; lia).
  destruct (t_pc th) as [| |r'|] eqn:Epc; [| |by eapply offers_busy|done].
  - apply (offers_intro w d (OLoop t)); [done|lia|by exists th|done..].
  - apply (offers_intro w d (OWake t)); [done|lia|by exists th|done|]. split; [done|]. cbn. apply andb_false_iff. right.
    destruct Hp as (_ & _ & _ & ->). rewrite u64_small by lia. apply Z.eqb_neq. intros H0. apply Hne, map_size_empty_inv. lia.
Qed.

(** While requests are left, some step is productive, if need be after the time
    its stage delays the request. *)
Lemma serviceable_offers w : serviceable w -> requests w <> ∅ -> offers w.
Proof.
  intros Hs Hne. pose proof Hs as (Hp & Hf & _). assert (exists r, r ∈ queued w) as (r & Hr).
  { apply map_choose in Hne as (r & rq & Hr). exists r. apply occurs_pos. rewrite occurs_queued.
    destruct Hp as (_ & _ & Ho & _). rewrite Ho. unfold live. rewrite Hr. lia. }
  unfold queued in Hr. rewrite Hf in Hr. cbn [app] in Hr. rewrite !elem_of_app in Hr. destruct Hr as [Hr|[Hr|[Hr|Hr]]].
  - apply (offers_intro w 0 (ODone (fun _ _ _ _ => RESPONDER_CLEAN) (fun _ => false) false 2)); try done.
    split; [|done]. cbn. intros H0. rewrite H0 in Hr. by apply not_elem_of_nil in Hr.
  - apply elem_of_concat_fmap in Hr as (i & q & Hq & Hx). destruct (request_head q) as [|r0 l] eqn:Eq; [by apply not_elem_of_nil in Hx|].
    by eapply offers_queue.
  - apply elem_of_concat_fmap in Hr as (p & [pc|] & Hpc & Hx); [|by apply not_elem_of_nil in Hx].
    destruct (wf_get_pcb _ _ _ (proj1 Hp) Hpc) as (_ & i & Hi & _). apply (offers_intro w 0 (OKick (fun _ => false))); try done.
    exists p, pc, i. split_and!; try done. intros H0. rewrite H0 in Hx. by apply not_elem_of_nil in Hx.
  - apply elem_of_concat_fmap in Hr as (t & th & Hth & Hx). destruct (t_pc th) as [| |r'|] eqn:E; try by apply not_elem_of_nil in Hx.
    by eapply offers_busy.
Qed.

(** * The threads stay *)

(** No request appears, and every thread stays at its stage and in its loop. *)
Definition manned (w w' : world) : Prop :=
  (forall r, requests w !! r = None -> requests w' !! r = None) /\
  (forall t th, threads w !! t = Some th ->
     exists th', threads w' !! t = Some th' /\ t_rqcb th' = t_rqcb th /\ (t_pc th' = PcExited -> t_pc th = PcExited)).

#[local] Instance manned_refl : Reflexive manned.
Proof. intros w. split; [done|]. intros t th H. by exists th. Qed.

#[local] Instance manned_trans : Transitive manned.
Proof.
  intros w1 w2 w3 [H1 H2] [H3 H4]. split; [auto|]. intros t th Ht. destruct (H2 t th Ht) as (th' & Ht' & E & Hx).
  destruct (H4 t th' Ht') as (th2 & Ht2 & E2 & Hx2). exists th2. split_and!; [done|congruence|auto].
Qed.

Lemma manned_eq w w' : requests w' = requests w -> threads w' = threads w -> manned w w'.
Proof. intros E1 E2. split; [by rewrite E1|]. intros t th H. exists th. by rewrite E2. Qed.

Lemma manned_ret w w' : requests w' = requests w -> threads w' = threads w -> ensures (manned w) (Some w').
Proof. intros E1 E2. by apply ensures_Some, manned_eq. Qed.

Lemma manned_bind w (e : option world) k : ensures (manned w) e -> (forall w1, ensures (manned w1) (k w1)) -> ensures (manned w) (w1 ← e; k w1).
Proof. intros H1 H2. eapply ensures_bind; [exact H1|]. intros w1 Hw1 w2 E. etrans; [exact Hw1|exact (H2 w1 w2 E)]. Qed.

Lemma manned_read {A} w (o : option A) k : (forall a, ensures (manned w) (k a)) -> ensures (manned w) (a ← o; k a).
Proof. intros H. apply ensures_read. auto. Qed.

Lemma manned_request r f w : ensures (manned w) (upd_request r f w).
Proof.
  unfold upd_request. destruct (requests w !! r) as [rq|] eqn:E; [|done]. apply ensures_Some. split; cbn; [|intros t th H; by exists th].
  intros r' H. rewrite lookup_insert_ne; [done|]. congruence.
Qed.

Lemma manned_thread t f w : (forall th, t_rqcb (f th) = t_rqcb th /\ (t_pc (f th) = PcExited -> t_pc th = PcExited)) ->
  ensures (manned w) (upd_thread t f w).
Proof.
  intros Hf. unfold upd_thread. destruct (threads w !! t) as [th|] eqn:E; [|done]. apply ensures_Some. split; [done|]. cbn. intros u thu Hu.
  destruct (decide (u = t)) as [->|Hne].
  - simplify_eq. exists (f th). rewrite list_lookup_insert_eq by by eapply lookup_lt_Some. split; [done|]. apply Hf.
  - exists thu. by rewrite list_lookup_insert_ne.
Qed.

Lemma manned_rqcb i f w : ensures (manned w) (upd_rqcb i f w).
Proof. apply manned_read. intros q. by apply manned_ret. Qed.

Lemma manned_pcb p f w : ensures (manned w) (upd_pcb p f w).
Proof. do 2 (apply manned_read; intros ?). by apply manned_ret. Qed.

Lemma manned_done rc r w : manned w (to_done_stage rc r w).
Proof. unfold to_done_stage, signal_done. repeat case_match; by apply manned_eq. Qed.

#[local] Hint Resolve manned_request manned_rqcb manned_pcb manned_ret manned_done : csf.

Lemma manned_to_done rc r w : ensures (manned w) (Some (to_done_stage rc r w)).
Proof. apply ensures_Some, manned_done. Qed.

Lemma manned_next rc i r w : ensures (manned w) (to_next_stage rc i r w).
Proof. unfold to_next_stage. case_match; [|by apply manned_ret]. apply manned_bind; auto with csf. Qed.

Lemma manned_for_each f l w : (forall w x, ensures (manned w) (f w x)) -> ensures (manned w) (for_each f w l).
Proof. intros H. revert w. induction l as [|x l IH]; intros w; cbn [for_each]; [by apply manned_ret|]. by apply manned_bind. Qed.

Lemma manned_kick busy w : ensures (manned w) (kick_request_queue busy w).
Proof.
  apply manned_for_each. clear w. intros w p. apply manned_read. intros pc. case_match; [by apply manned_ret|]. apply manned_read. intros i.
  case_match; [by apply manned_ret|]. unfold concat_tmp. repeat (apply manned_bind; [auto with csf|intros ?]). by apply manned_ret.
Qed.

Lemma manned_rele c w : ensures (manned w) (CS_RELE c w).
Proof. apply manned_read. intros cs. cbn zeta. case_match; by apply manned_ret. Qed.

Lemma manned_cleanup r w : ensures (manned w) (cleanup_request r w).
Proof.
  apply manned_read. intros rq. cbn zeta. set (w2 := match data_cleaner rq with Some _ => emit _ _ | None => _ end).
  apply ensures_bind with (P := manned w).
  - assert (manned w w2) as H2 by (unfold w2; case_match; by apply manned_eq). case_match; [|by apply ensures_Some].
    intros w3 E. etrans; [exact H2|exact (manned_rele _ _ _ E)].
  - intros w3 [H1 H2]. apply ensures_Some. split; [|exact H2]. intros r' Hr. cbn. apply lookup_delete_None. auto.
Qed.

Lemma manned_respond respond s r : ensures (fun s' => manned s.2 s'.2) (respond_one respond s r).
Proof.
  destruct s as [rc w]. cbn [snd]. unfold respond_one. cbn zeta. apply ensures_read. intros rq _.
  destruct (csp rq) as [c|]; [|apply ensures_Some; by apply manned_eq].
  apply ensures_read. intros _ _. match goal with |- ensures _ (let '(_, _) := ?m in _) =>
    assert (manned w m.2) as H1; [repeat case_match; by apply manned_eq|destruct m as [rc1 w1]; cbn in H1] end.
  apply ensures_bind with (P := manned w).
  { case_match; [|by apply ensures_Some]. intros w2 E. etrans; [exact H1|]. revert w2 E.
    apply manned_bind; [apply manned_read; intros ?; case_match; by apply manned_ret|].
    intros w3 w4 E. etrans; [|exact (manned_rele _ _ _ E)]. by apply manned_eq. }
  intros w2 H2. apply ensures_bind with (P := manned w).
  { intros w3 E. etrans; [exact H2|]. revert w3 E. case_match; [by apply manned_ret|apply manned_request]. }
  intros w3 H3. apply ensures_bind with (P := manned w).
  { intros w4 E. etrans; [exact H3|exact (manned_cleanup _ _ _ E)]. }
  intros w4 H4. apply ensures_Some. cbn. case_match; [|done]. etrans; [exact H4|]. by apply manned_eq.
Qed.

Lemma manned_handler respond busy db ev w : ensures (manned w) (done_requests_handler respond busy db ev w).
Proof.
  unfold done_requests_handler. cbn zeta. apply ensures_bind with (P := manned w).
  { intros w1 E. etrans; [|exact (manned_kick _ _ _ E)]. case_match; by apply manned_eq. }
  intros w2 H2. case_match; [by apply ensures_Some|]. case_match; [by apply ensures_Some|].
  apply (ensures_fmap (fun s => manned w s.2)); [|done]. apply ensures_for_each.
  - cbn. etrans; [exact H2|]. unfold get_done_requests. repeat case_match; by apply manned_eq.
  - intros s r Hs s' E. etrans; [exact Hs|exact (manned_respond _ _ _ _ E)].
Qed.

(** Threads in their loop. *)
Lemma manned_take rc t i r w : ensures (manned w) (worker_take rc t i r w).
Proof.
  apply manned_read. intros q. apply manned_read. intros rq. cbn zeta. case_match; [by apply manned_thread|].
  apply manned_bind; [auto with csf|]. intros w1. case_match; [|by apply manned_thread]. apply manned_bind; [auto with csf|]. intros w2 w3 E.
  etrans; [apply manned_done|]. refine (manned_thread t _ _ _ w3 E). done.
Qed.

Lemma manned_loop rc t w : ensures (manned w) (worker_loop rc t w).
Proof.
  apply manned_bind; [by apply manned_thread|]. intros w1. apply manned_read. intros th. apply manned_read. intros q.
  case_match; [by apply manned_thread|apply manned_take].
Qed.

Lemma manned_wake rc t w : graceful_restart w && (pipeline_queue_len w =? 0) = false -> ensures (manned w) (worker_wake rc t w).
Proof.
  intros Hg. unfold worker_wake. rewrite Hg. apply manned_read. intros th. apply manned_read. intros q. case_match; [by apply manned_ret|apply manned_take].
Qed.

Lemma manned_submit rc t i r w : ensures (manned w) (submit_next rc t i r w).
Proof.
  assert (forall w, ensures (manned w) (check_loop rc r w)) as Hc.
  { clear w. intros w. apply manned_read. intros rq. case_match; [|by apply manned_ret]. apply manned_bind; [auto with csf|]. intros. apply manned_to_done. }
  apply manned_read. intros rq. case_match; [apply manned_to_done|]. case_match.
  - apply manned_bind; [apply Hc|]. intros w1. apply manned_read. intros th. apply manned_read. intros q. apply manned_bind; [by apply manned_thread|].
    intros w2. case_match; [apply manned_next|apply manned_to_done].
  - case_match; [apply manned_to_done|]. case_match; [|apply manned_to_done]. apply manned_bind; [apply Hc|]. intros. apply manned_next.
Qed.

Lemma manned_run rc out t r w : ensures (manned w) (worker_run rc out t r w).
Proof.
  apply manned_read. intros th. apply manned_read. intros rq. cbn zeta. apply manned_read. intros q.
  apply manned_bind; [|intros w3; by apply manned_thread]. case_match.
  - case_match; [|apply manned_to_done]. case_match; [|apply manned_to_done]. apply manned_bind; [auto with csf|]. intros w1.
    apply manned_bind; [case_match; [by apply manned_thread|by apply manned_ret]|]. intros w2. apply manned_submit.
  - apply manned_bind; [auto with csf|]. intros w1. apply manned_to_done.
Qed.

(** * Termination *)

Lemma zsum_nonneg {A} (f : A -> Z) l : Forall (fun x => 0 <= f x) l -> 0 <= zsum f l.
Proof. induction 1; cbn [zsum]; lia. Qed.

Lemma stages_cost_nonneg n qs : Z.of_nat (length qs) <= n -> 0 <= stages_cost n qs.
Proof.
  revert n. induction qs as [|q qs IH]; intros n Hn; cbn -[Z.of_nat Z.mul] in *; [lia|]. specialize (IH (n - 1) ltac:(lia)). nia.
Qed.

Lemma todo_nonneg w : wf w -> 0 <= todo w.
Proof.
  intros (_ & _ & _ & _ & Ht). unfold todo, ahead. pose proof (stages_cost_nonneg (stages w) (rqcbs w) ltac:(unfold stages; lia)).
  assert (0 <= zsum tmp_len (pcb w)) by (apply zsum_nonneg, list.Forall_forall; intros [pc|] _; cbn -[Z.of_nat]; lia).
  assert (0 <= zsum (busy_cost (stages w)) (threads w)).
  { apply zsum_nonneg. eapply list.Forall_impl; [exact Ht|]. intros th [Hi _]. unfold busy_cost, stages. nia. }
  unfold stages in *. nia.
Qed.

(** A stage is left without a thread only when no request is left. *)
Definition staffed_or_done (w : world) : Prop := staffed w \/ requests w = ∅.

Lemma manned_staffed w w' : length (rqcbs w') = length (rqcbs w) -> manned w w' -> staffed_or_done w -> staffed_or_done w'.
Proof.
  intros Hlen [H1 H2] [Hs|He]; [left|right].
  - intros i Hi. rewrite Hlen in Hi. destruct (Hs i Hi) as (t & th & Ht & Hr & Hx). destruct (H2 t th Ht) as (th' & Ht' & Hr' & Hx').
    exists t, th'. split_and!; [done|congruence|auto].
  - apply map_eq. intros r. rewrite lookup_empty. apply H1. by rewrite He.
Qed.

Lemma step_staffed o w : pinv w -> Z.of_nat (size (requests w)) < 2 ^ 64 -> tame o ->
  ensures (fun w' => manned w w' \/ requests w' = ∅) (exec o w).
Proof.
  intros Hp Hz Ht w' E. destruct o; cbn [exec tame] in *; try done.
  - left. exact (manned_kick _ _ _ E).
  - left. exact (manned_handler _ _ _ _ _ _ E).
  - left. destruct req; [exact (manned_request _ _ _ _ E)|by injection E as <-].
  - left. injection E as <-. by apply manned_eq.
  - left. revert w' E. apply manned_bind; [apply manned_read; intros cs; case_match; by apply manned_ret|].
    intros w1 w2 E. etrans; [|exact (manned_rele _ _ _ E)]. by apply manned_eq.
  - left. exact (manned_loop _ _ _ _ E).
  - destruct (graceful_restart w && (pipeline_queue_len w =? 0)) eqn:Hg; [|left; exact (manned_wake _ _ _ Hg _ E)]. right.
    assert (requests w = ∅) as He.
    { apply map_size_empty_inv. apply andb_prop in Hg as [_ Hg%Z.eqb_eq]. destruct Hp as (_ & _ & _ & Hq). rewrite Hq, u64_small in Hg by lia. lia. }
    unfold worker_wake in E. rewrite Hg in E. unfold thread_deinit, upd_thread in E. destruct (threads w !! t); [|done]. cbn in E.
    injection E as <-. by case_match.
  - left. exact (manned_run _ _ _ _ _ _ E).
  - left. injection E as <-. by apply manned_eq.
  - left. injection E as <-. by apply manned_eq.
Qed.

Lemma manned_size w w' : manned w w' \/ requests w' = ∅ -> (size (requests w') <= size (requests w))%nat.
Proof.
  intros [[H _]| ->]; [|rewrite map_size_empty; lia]. rewrite <-!size_dom. apply subseteq_size. intros r. rewrite !elem_of_dom.
  intros [rq Hr]. destruct (requests w !! r) eqn:E; [by eexists|]. by rewrite (H r E) in Hr.
Qed.

Lemma drain_staffed w0 k w : pinv w0 -> straight w0 -> final_request_head w0 = [] -> staffed w0 -> Z.of_nat (size (requests w0)) < 2 ^ 64 ->
  drain w0 k w -> staffed_or_done w /\ Z.of_nat (size (requests w)) < 2 ^ 64.
Proof.
  intros Hp Hs Hf Hst Hz Hd. assert (forall k w o w', drain w0 k w -> staffed_or_done w /\ Z.of_nat (size (requests w)) < 2 ^ 64 -> enabled o w -> tame o ->
    exec o w = Some w' -> staffed_or_done w' /\ Z.of_nat (size (requests w')) < 2 ^ 64) as Hstep.
  { clear k w Hd. intros k w o w' Hd [H1 H2] Hen Ht E. destruct (drain_bound w0 k w Hp Hs Hf Hd) as (Hp' & Hs' & Hf' & _).
    pose proof (step_staffed o w Hp' H2 Ht w' E) as H. split; [|apply manned_size in H; lia]. destruct H as [H|H]; [|by right].
    destruct (drained_step o w Hp' Hs' Hf' Hen Ht w' E) as (_ & Hl & _). by apply (manned_staffed w w'). }
  induction Hd; [split; [by left|done]|eauto|eauto].
Qed.


(** The request 10 moves from the temporary queue to the first stage and is taken
    there: two of at most six productive steps, and more to do. *)
Definition drain_kicked : world := default demo2 (exec (OKick (fun _ => false)) demo2).
Definition drain_taken : world := default demo2 (exec (OLoop 0) drain_kicked).

