(* ===== verification/RbTree.v ===== *)
(** The red-black trees of src/csf/include/tree.h: RB_INSERT with its
    re-colouring loop, RB_FIND, RB_NFIND, RB_MINMAX. A subtree is an inductive
    tree; the chain of parent pointers from a node to the root is the list of
    frames of its context, so that the loop of RB_INSERT_COLOR that follows
    [rbe_parent] is a recursion on that list. The search order is a C comparison
    function whose laws are the class [OrdCmp]; what the users of the trees rely
    on is the class [OrderedIndex], which the trees implement. *)

From stdpp Require Import sorting.
From S2P Require Import Prelude.

(** * Comparison functions *)

(** A C comparison function that orders its arguments. *)
Class OrdCmp {E : Type} (cmp : E -> E -> Z) : Prop := {
  cmp_refl x : cmp x x = 0;
  cmp_opp x y : Z.sgn (cmp x y) = - Z.sgn (cmp y x);
  cmp_trans x y z : cmp x y <= 0 -> cmp y z <= 0 -> cmp x z <= 0
}.

Section order.
Context {E : Type} (cmp : E -> E -> Z) {Hcmp : OrdCmp cmp}.

Lemma cmp_gt_lt x y : 0 < cmp x y <-> cmp y x < 0.
Proof. pose proof (cmp_opp x y). destruct (Z.sgn_spec (cmp x y)), (Z.sgn_spec (cmp y x)); lia. Qed.

Lemma cmp_eq_sym x y : cmp x y = 0 -> cmp y x = 0.
Proof. intros H. pose proof (cmp_opp x y) as Ho. rewrite H in Ho. cbn in Ho. lia. Qed.

Lemma cmp_lt_le_trans x y z : cmp x y < 0 -> cmp y z <= 0 -> cmp x z < 0.
Proof.
  intros H1 H2. destruct (Z.lt_ge_cases (cmp x z) 0) as [|Hge]; [done|exfalso].
  assert (cmp z x <= 0) as H3.
  { destruct (Z.eq_dec (cmp x z) 0) as [E0|]; [by rewrite (cmp_eq_sym _ _ E0)|].
    assert (cmp z x < 0) by (apply cmp_gt_lt; lia). lia. }
  pose proof (cmp_trans y z x H2 H3). apply cmp_gt_lt in H1. lia.
Qed.

Lemma cmp_le_lt_trans x y z : cmp x y <= 0 -> cmp y z < 0 -> cmp x z < 0.
Proof.
  intros H1 H2. destruct (Z.lt_ge_cases (cmp x z) 0) as [|Hge]; [done|exfalso].
  assert (cmp z x <= 0) as H3.
  { destruct (Z.eq_dec (cmp x z) 0) as [E0|]; [by rewrite (cmp_eq_sym _ _ E0)|].
    assert (cmp z x < 0) by (apply cmp_gt_lt; lia). lia. }
  pose proof (cmp_trans z x y H3 H1). apply cmp_gt_lt in H2. lia.
Qed.

End order.

(** * Trees *)

Inductive color : Type := Black | Red.

Inductive tree (E : Type) : Type :=
| Nil
| Node (c : color) (l : tree E) (x : E) (r : tree E).
Arguments Nil {E}.
Arguments Node {E}.

(** A step of the path to the root: whether the subtree is the left child, the
    colour and element of the parent, and its other child. *)
Inductive frame (E : Type) : Type :=
| Frame (lc : bool) (c : color) (x : E) (other : tree E).
Arguments Frame {E}.

Section operations.
Context {E : Type} (cmp : E -> E -> Z).

Definition is_red (t : tree E) : bool :=
  match t with Node Red _ _ _ => true | _ => false end.

Definition set_color (c : color) (t : tree E) : tree E :=
  match t with Node _ l x r => Node c l x r | Nil => Nil end.

(** A child put back under its parent, and under all its ancestors. *)
Definition attach (t : tree E) (f : frame E) : tree E :=
  let '(Frame lc c x other) := f in
  if lc then Node c t x other else Node c other x t.

Definition plug (t : tree E) (p : list (frame E)) : tree E := foldl attach t p.

(** RB_ROTATE_LEFT and RB_ROTATE_RIGHT at a subtree; [None] is the dereference of
    a missing child. *)
Definition RB_ROTATE_LEFT (t : tree E) : option (tree E) :=
  match t with
  | Node c l x (Node c' rl y rr) => Some (Node c' (Node c l x rl) y rr)
  | _ => None
  end.

Definition RB_ROTATE_RIGHT (t : tree E) : option (tree E) :=
  match t with
  | Node c (Node c' ll y lr) x r => Some (Node c' ll y (Node c lr x r))
  | _ => None
  end.

(** The loop of RB_INSERT_COLOR from the red node at the root of [t]; the final
    assignment blackens the root. A red parent without a parent is the
    dereference of a NULL [gparent]. *)
Fixpoint RB_INSERT_COLOR (t : tree E) (p : list (frame E)) : option (tree E) :=
  match p with
  | Frame lc Red x s :: p1 =>
      match p1 with
      | [] => None
      | Frame pleft cg g u :: p2 =>
          let parent := attach t (Frame lc Red x s) in
          if is_red u then
            RB_INSERT_COLOR (attach (set_color Black parent) (Frame pleft Red g (set_color Black u))) p2
          else if pleft then
            parent ← (if lc then Some parent else RB_ROTATE_LEFT parent);
            sub ← RB_ROTATE_RIGHT (Node Red (set_color Black parent) g u);
            Some (set_color Black (plug sub p2))
          else
            parent ← (if lc then RB_ROTATE_RIGHT parent else Some parent);
            sub ← RB_ROTATE_LEFT (Node Red u g (set_color Black parent));
            Some (set_color Black (plug sub p2))
      end
  | _ => Some (set_color Black (plug t p))
  end.

(** The descent of RB_INSERT: the path to the place of [elm], or the node that
    compares equal. *)
Fixpoint descend (elm : E) (t : tree E) (p : list (frame E)) : list (frame E) + E :=
  match t with
  | Nil => inl p
  | Node c l x r =>
      let comp := cmp elm x in
      if comp <? 0 then descend elm l (Frame true c x r :: p)
      else if 0 <? comp then descend elm r (Frame false c x l :: p)
      else inr x
  end.

(** RB_INSERT: the tree after it, and the element that was in the way. *)
Definition RB_INSERT (head : tree E) (elm : E) : option (tree E * option E) :=
  match descend elm head [] with
  | inr x => Some (head, Some x)
  | inl p => t ← RB_INSERT_COLOR (Node Red Nil elm Nil) p; Some (t, None)
  end.

Fixpoint RB_FIND (head : tree E) (elm : E) : option E :=
  match head with
  | Nil => None
  | Node _ l x r =>
      let comp := cmp elm x in
      if comp <? 0 then RB_FIND l elm else if 0 <? comp then RB_FIND r elm else Some x
  end.

Fixpoint RB_NFIND (tmp : tree E) (res : option E) (elm : E) : option E :=
  match tmp with
  | Nil => res
  | Node _ l x r =>
      let comp := cmp elm x in
      if comp <? 0 then RB_NFIND l (Some x) elm
      else if 0 <? comp then RB_NFIND r res elm else Some x
  end.

(** RB_MINMAX: the last element on the left or the right spine. *)
Fixpoint RB_MINMAX (tmp : tree E) (parent : option E) (val : Z) : option E :=
  match tmp with
  | Nil => parent
  | Node _ l x r => RB_MINMAX (if val <? 0 then l else r) (Some x) val
  end.

(** The number of comparisons of a search. *)
Fixpoint find_steps (head : tree E) (elm : E) : nat :=
  match head with
  | Nil => 0
  | Node _ l x r =>
      let comp := cmp elm x in
      S (if comp <? 0 then find_steps l elm else if 0 <? comp then find_steps r elm else 0)
  end.

(** * Red-black trees *)

(** The elements in order. *)
Fixpoint inorder (t : tree E) : list E :=
  match t with
  | Nil => []
  | Node _ l x r => inorder l ++ x :: inorder r
  end.

(** Search trees. *)
Definition bst (t : tree E) : Prop := StronglySorted (fun x y => cmp x y < 0) (inorder t).

(** Black height [n] and no red node with a red child. *)
Inductive rb : nat -> tree E -> Prop :=
| rb_Nil : rb 0 Nil
| rb_red n l x r : rb n l -> rb n r -> is_red l = false -> is_red r = false -> rb n (Node Red l x r)
| rb_black n l x r : rb n l -> rb n r -> rb (S n) (Node Black l x r).

Definition rbtree (t : tree E) : Prop := bst t /\ is_red t = false /\ exists n, rb n t.

End operations.

(** * Proofs *)

Section proofs.
Context {E : Type} (cmp : E -> E -> Z) {Hcmp : OrdCmp cmp}.
Implicit Types (t : tree E) (p : list (frame E)) (x : E).

(** What is left and right of a path. *)
Fixpoint pre p : list E :=
  match p with
  | [] => []
  | Frame true _ _ _ :: p' => pre p'
  | Frame false _ x o :: p' => pre p' ++ inorder o ++ [x]
  end.

Fixpoint post p : list E :=
  match p with
  | [] => []
  | Frame true _ x o :: p' => x :: inorder o ++ post p'
  | Frame false _ _ _ :: p' => post p'
  end.

Lemma inorder_plug t p : inorder (plug t p) = pre p ++ inorder t ++ post p.
Proof.
  revert t; induction p as [|[[] c x o] p IH]; intros t; cbn -[plug].
  - by rewrite app_nil_r.
  - change (plug t (Frame true c x o :: p)) with (plug (Node c t x o) p). rewrite IH. cbn. by rewrite <-!app_assoc.
  - change (plug t (Frame false c x o :: p)) with (plug (Node c o x t) p). rewrite IH. cbn. by rewrite <-!app_assoc.
Qed.

Lemma inorder_set_color c t : inorder (set_color c t) = inorder t.
Proof. by destruct t. Qed.

Lemma inorder_rotate_left t t' : RB_ROTATE_LEFT t = Some t' -> inorder t' = inorder t.
Proof. destruct t as [|c l x [|c' rl y rr]]; cbn; [done..|]. intros [= <-]. cbn. by rewrite <-app_assoc. Qed.

Lemma inorder_rotate_right t t' : RB_ROTATE_RIGHT t = Some t' -> inorder t' = inorder t.
Proof. destruct t as [|c [|c' ll y lr] x r]; cbn; [done..|]. intros [= <-]. cbn. by rewrite <-app_assoc. Qed.

Lemma plug_inorder_eq t t' p : inorder t = inorder t' -> inorder (plug t p) = inorder (plug t' p).
Proof. intros H. by rewrite !inorder_plug, H. Qed.

(** Re-colouring and rotations keep the order of the elements. *)
Lemma insert_color_inorder t p t' : RB_INSERT_COLOR t p = Some t' -> inorder t' = inorder (plug t p).
Proof.
  revert t t'. remember (length p) as n eqn:Hn. revert p Hn.
  induction n as [n IH] using lt_wf_ind. intros p -> t t'.
  destruct p as [|[lc c x s] p]; [cbn; intros [= <-]; apply inorder_set_color|].
  destruct c; [cbn; intros [= <-]; apply inorder_set_color|].
  destruct p as [|[pl cg g u] p]; [done|]. cbn -[attach plug RB_ROTATE_LEFT RB_ROTATE_RIGHT].
  change (plug t (Frame lc Red x s :: Frame pl cg g u :: p))
    with (plug (attach (attach t (Frame lc Red x s)) (Frame pl cg g u)) p).
  set (parent := attach t (Frame lc Red x s)).
  destruct (is_red u).
  { intros H. apply (IH (length p)) in H; [|cbn; lia|done]. rewrite H. apply plug_inorder_eq. destruct pl; cbn; by rewrite !inorder_set_color. }
  destruct pl.
  - destruct (if lc then Some parent else RB_ROTATE_LEFT parent) as [parent'|] eqn:Ep; cbn -[plug RB_ROTATE_RIGHT RB_ROTATE_LEFT]; [|done].
    destruct (RB_ROTATE_RIGHT (Node Red (set_color Black parent') g u)) as [sub|] eqn:Es; cbn -[plug]; [|done]. intros [= <-]. rewrite inorder_set_color.
    apply plug_inorder_eq. rewrite (inorder_rotate_right _ _ Es). cbn. rewrite inorder_set_color.
    destruct lc; simplify_eq; [done|]. by rewrite (inorder_rotate_left _ _ Ep).
  - destruct (if lc then RB_ROTATE_RIGHT parent else Some parent) as [parent'|] eqn:Ep; cbn -[plug RB_ROTATE_RIGHT RB_ROTATE_LEFT]; [|done].
    destruct (RB_ROTATE_LEFT (Node Red u g (set_color Black parent'))) as [sub|] eqn:Es; cbn -[plug]; [|done]. intros [= <-]. rewrite inorder_set_color.
    apply plug_inorder_eq. rewrite (inorder_rotate_left _ _ Es). cbn. rewrite inorder_set_color.
    destruct lc; simplify_eq; [|done]. by rewrite (inorder_rotate_right _ _ Ep).
Qed.

(** Contexts whose hole has black height [n]; their top is a black root. *)
Definition top_black p : Prop := match p with Frame _ Black _ _ :: _ => True | _ => False end.

Inductive rbctx : nat -> list (frame E) -> Prop :=
| ctx_nil n : rbctx n []
| ctx_black n lc x s p : rb n s -> rbctx (S n) p -> rbctx n (Frame lc Black x s :: p)
| ctx_red n lc x s p : rb n s -> is_red s = false -> top_black p -> rbctx n p -> rbctx n (Frame lc Red x s :: p).

Lemma plug_rb n p t :
  rbctx n p -> rb n t -> (is_red t = true -> top_black p) ->
  exists m, rb m (plug t p) /\ is_red (plug t p) = match p with [] => is_red t | _ => false end.
Proof.
  intros Hp. revert t. induction Hp as [n|n lc x s p Hs Hp IH|n lc x s p Hs Hr Ht Hp IH]; intros t Hrb Htop.
  - by exists n.
  - assert (rb (S n) (attach t (Frame lc Black x s))) as H by (destruct lc; by constructor).
    destruct (IH _ H) as (m & Hm & Hc); [by destruct lc|]. exists m. split; [exact Hm|].
    change (plug t _) with (plug (attach t (Frame lc Black x s)) p). rewrite Hc. by destruct p, lc.
  - assert (is_red t = false) as Hf by (destruct (is_red t); [destruct (Htop eq_refl)|done]).
    assert (rb n (attach t (Frame lc Red x s))) as H by (destruct lc; by constructor).
    destruct (IH _ H) as (m & Hm & Hc); [done|]. exists m. split; [exact Hm|].
    change (plug t _) with (plug (attach t (Frame lc Red x s)) p). rewrite Hc. by destruct p.
Qed.

Lemma set_black_rb n t : rb n t -> exists m, rb m (set_color Black t) /\ is_red (set_color Black t) = false.
Proof. intros H. destruct H; eexists; (split; [|done]); by constructor. Qed.

Lemma rb_red_inv n t : rb n t -> is_red t = true ->
  exists l x r, t = Node Red l x r /\ rb n l /\ rb n r /\ is_red l = false /\ is_red r = false.
Proof. intros H. destruct H; cbn; try done. intros _. eauto 10. Qed.

(** A red node hung under a red parent is repaired. *)
Lemma insert_color_rb n p t :
  rbctx n p -> rb n t -> is_red t = true ->
  exists t' m, RB_INSERT_COLOR t p = Some t' /\ rb m t' /\ is_red t' = false.
Proof.
  revert n t. remember (length p) as k eqn:Hk. revert p Hk. induction k as [k IH] using lt_wf_ind.
  intros p -> n t Hp Ht Hred. inversion Hp as [|? lc x s p1 Hs Hp1|? lc x s p1 Hs Hsr Htop Hp1]; subst.
  - destruct (set_black_rb _ _ Ht) as (m & ? & ?). by exists (set_color Black t), m.
  - destruct (plug_rb _ _ t Hp Ht) as (m & Hm & Hc); [done|]. destruct (set_black_rb _ _ Hm) as (m' & ? & ?).
    cbn -[plug]. eauto 10.
  - destruct p1 as [|[pl [] g u] p2]; [done| |done]. inversion Hp1 as [|? ? ? ? ? Hu Hp2|]; subst.
    destruct (rb_red_inv _ _ Ht Hred) as (tl & e & tr & -> & Htl & Htr & Hlb & Hrb). cbn -[plug].
    destruct (is_red u) eqn:Eu.
    { destruct (rb_red_inv _ _ Hu Eu) as (ul & y & ur & -> & Hul & Hur & _ & _).
      apply (IH (length p2)) with (n := S n); [cbn; lia|done|done| |by destruct pl].
      assert (rb (S n) (set_color Black (if lc then Node Red (Node Red tl e tr) x s else Node Red s x (Node Red tl e tr)))) as Hpar.
      { destruct lc; cbn; by repeat constructor. }
      destruct pl, lc; cbn in *; by repeat constructor. }
    assert (forall sub, rb (S n) sub -> is_red sub = false -> exists t' m,
      Some (set_color Black (plug sub p2)) = Some t' /\ rb m t' /\ is_red t' = false) as Hfin.
    { intros sub Hsub Hsr'. destruct (plug_rb _ _ sub Hp2 Hsub) as (m & Hm & _); [congruence|].
      destruct (set_black_rb _ _ Hm) as (m' & ? & ?). eauto 10. }
    destruct pl, lc; cbn -[plug]; apply Hfin; try done; by repeat constructor.
Qed.

(** The descent of an insertion. *)
Lemma descend_plug elm t p p' : descend cmp elm t p = inl p' -> plug Nil p' = plug t p.
Proof.
  revert p. induction t as [|c l IHl x r IHr]; intros p; cbn -[plug]; [by intros [= <-]|].
  case_match; [apply IHl|]. case_match; [apply IHr|done].
Qed.

Lemma sorted_mid x l k :
  StronglySorted (fun x y => cmp x y < 0) (l ++ x :: k) ->
  (forall y, y ∈ l -> cmp y x < 0) /\ (forall y, y ∈ k -> cmp x y < 0) /\
  StronglySorted (fun x y => cmp x y < 0) l /\ StronglySorted (fun x y => cmp x y < 0) k.
Proof.
  rewrite StronglySorted_app. intros (H & Hl & Hk). apply StronglySorted_inv in Hk as [Hk Hx].
  rewrite list.Forall_forall in Hx. split_and!; try done. intros y Hy. apply H; [done|left].
Qed.

Lemma descend_order elm t p p' :
  StronglySorted (fun x y => cmp x y < 0) (inorder (plug t p)) ->
  (forall y, y ∈ pre p -> cmp y elm < 0) -> (forall y, y ∈ post p -> cmp elm y < 0) ->
  descend cmp elm t p = inl p' ->
  (forall y, y ∈ pre p' -> cmp y elm < 0) /\ (forall y, y ∈ post p' -> cmp elm y < 0).
Proof.
  revert p. induction t as [|c l IHl x r IHr]; intros p Hs Hpre Hpost; cbn -[plug]; [by intros [= <-]|].
  pose proof Hs as Hs'. rewrite inorder_plug in Hs'. cbn in Hs'. rewrite <-app_assoc, app_assoc in Hs'. cbn in Hs'.
  apply sorted_mid in Hs' as (Hl & Hr & _ & _).
  destruct (cmp elm x <? 0) eqn:E1; [|destruct (0 <? cmp elm x) eqn:E2; [|done]]; bool_props.
  - apply IHl; [exact Hs|exact Hpre|]. intros y. cbn. rewrite elem_of_cons, elem_of_app. intros [->|[Hy|Hy]]; auto.
    apply (cmp_lt_le_trans cmp elm x y); [done|]. specialize (Hr y ltac:(apply elem_of_app; by left)). lia.
  - apply (cmp_gt_lt cmp) in E2. apply IHr; [exact Hs| |exact Hpost]. intros y. cbn.
    rewrite !elem_of_app, list_elem_of_singleton. intros [Hy|[Hy| ->]]; auto.
    apply (cmp_lt_le_trans cmp y x elm); [|lia]. apply Hl, elem_of_app. by right.
Qed.

Lemma descend_rb elm t p p' n :
  descend cmp elm t p = inl p' -> rbctx n p -> rb n t -> (is_red t = true -> top_black p) -> rbctx 0 p'.
Proof.
  revert p n. induction t as [|c l IHl x r IHr]; intros p n; cbn -[plug].
  { intros [= <-] Hp Ht _. by inversion Ht; subst. }
  intros Hd Hp Ht Htop. inversion Ht as [|? ? ? ? Hl Hr Hlr Hrr|? ? ? ? Hl Hr]; subst.
  - specialize (Htop eq_refl). case_match; [|case_match; [|done]].
    + apply (IHl _ n Hd); [by constructor|done|]. by rewrite Hlr.
    + apply (IHr _ n Hd); [by constructor|done|]. by rewrite Hrr.
  - case_match; [|case_match; [|done]].
    + by eapply (IHl _ _ Hd); [constructor|..].
    + by eapply (IHr _ _ Hd); [constructor|..].
Qed.

Lemma descend_found elm t p x :
  descend cmp elm t p = inr x -> RB_FIND cmp t elm = Some x.
Proof.
  revert p. induction t as [|c l IHl y r IHr]; intros p; cbn; [done|].
  case_match; [apply IHl|]. case_match; [apply IHr|]. by intros [= <-].
Qed.

Lemma descend_free elm t p p' : descend cmp elm t p = inl p' -> RB_FIND cmp t elm = None.
Proof.
  revert p. induction t as [|c l IHl y r IHr]; intros p; cbn; [done|].
  case_match; [apply IHl|]. case_match; [apply IHr|done].
Qed.

(** RB_FIND finds the element that compares equal. *)
Lemma find_spec t elm x : bst cmp t ->
  RB_FIND cmp t elm = Some x <-> x ∈ inorder t /\ cmp elm x = 0.
Proof.
  unfold bst. induction t as [|c l IHl y r IHr]; cbn; intros Hs.
  { split; [done|]. intros [H _]. by apply not_elem_of_nil in H. }
  apply sorted_mid in Hs as (Hl & Hr & Hsl & Hsr). rewrite elem_of_app, elem_of_cons.
  destruct (cmp elm y <? 0) eqn:E1; [|destruct (0 <? cmp elm y) eqn:E2]; bool_props.
  - rewrite IHl by done. split; [tauto|]. intros [[H|[->|H]] H0]; [done|lia|].
    pose proof (cmp_lt_le_trans cmp elm y x E1 ltac:(specialize (Hr x H); lia)). lia.
  - rewrite IHr by done. split; [tauto|]. intros [[H|[->|H]] H0]; [|lia|done].
    apply (cmp_gt_lt cmp) in E2. pose proof (cmp_lt_le_trans cmp x y elm (Hl x H) ltac:(lia)) as H1.
    apply (cmp_gt_lt cmp) in H1. lia.
  - assert (cmp elm y = 0) as E0 by lia. split; [intros [= <-]; tauto|].
    intros [[H|[->|H]] H0]; [|done|]; exfalso.
    + apply (cmp_eq_sym cmp) in E0. pose proof (cmp_lt_le_trans cmp x y elm (Hl x H) ltac:(lia)) as H1.
      apply (cmp_gt_lt cmp) in H1. lia.
    + pose proof (cmp_le_lt_trans cmp elm y x ltac:(lia) (Hr x H)). lia.
Qed.

(** Insertion of a new element. *)
Lemma insert_new_spec t elm : rbtree cmp t -> RB_FIND cmp t elm = None ->
  exists t' a b, RB_INSERT cmp t elm = Some (t', None) /\ rbtree cmp t' /\
    inorder t = a ++ b /\ inorder t' = a ++ elm :: b.
Proof.
  intros (Hb & Hc & n & Hrb) Hf. unfold RB_INSERT. destruct (descend cmp elm t []) as [p|x] eqn:Ed.
  2:{ apply descend_found in Ed. congruence. }
  destruct (descend_order elm t [] p Hb) as [Hpre Hpost]; [by intros y ?%not_elem_of_nil..|done|].
  pose proof (descend_rb elm t [] p n Ed (ctx_nil n) Hrb ltac:(congruence)) as Hp.
  destruct (insert_color_rb 0 p (Node Red Nil elm Nil) Hp) as (t' & m & E' & Hrb' & Hc'); [by repeat constructor|done|].
  pose proof (insert_color_inorder _ _ _ E') as Hio. rewrite inorder_plug in Hio. cbn in Hio.
  pose proof (descend_plug _ _ _ _ Ed) as Hpl. apply (f_equal inorder) in Hpl. rewrite inorder_plug in Hpl. cbn in Hpl.
  rewrite E'. exists t', (pre p), (post p). cbn.
  split; [done|]. split; [|done]. split; [|split; [done|by eexists]].
  unfold bst in *. rewrite Hio. rewrite <-Hpl in Hb. apply StronglySorted_app in Hb as (Hx & H1 & H2).
  apply StronglySorted_app. split_and!; [|done|].
  - intros y z Hy. rewrite elem_of_cons. intros [->|Hz]; auto.
  - constructor; [done|]. by apply list.Forall_forall.
Qed.

Lemma insert_old_spec t elm x : RB_FIND cmp t elm = Some x -> RB_INSERT cmp t elm = Some (t, Some x).
Proof.
  intros Hf. unfold RB_INSERT. destruct (descend cmp elm t []) as [p|y] eqn:Ed.
  - apply descend_free in Ed. congruence.
  - apply descend_found in Ed. by simplify_eq.
Qed.

(** A tree of black height [n] has at least [2^n - 1] elements, and no path is
    longer than [2n + 1]. *)
Lemma rb_size n t : rb n t -> (2 ^ n <= length (inorder t) + 1)%nat.
Proof.
  induction 1 as [|n l x r _ IHl _ IHr _ _|n l x r _ IHl _ IHr]; cbn; [lia|..]; rewrite length_app; cbn.
  - lia.
  - lia.
Qed.

Lemma rb_steps n t elm : rb n t -> (find_steps cmp t elm <= 2 * n + if is_red t then 1 else 0)%nat.
Proof.
  induction 1 as [|n l x r _ IHl _ IHr Hlr Hrr|n l x r _ IHl _ IHr]; cbn; [lia|..].
  - rewrite Hlr in IHl. rewrite Hrr in IHr. repeat case_match; lia.
  - destruct (is_red l), (is_red r); repeat case_match; lia.
Qed.

(** RB_INSERT never follows a NULL pointer; with a key that is not present it
    returns NULL and puts the element at its place in the order, and the tree
    stays a search tree with a black root, no red node under a red one and the
    same number of black nodes on every path; with a key that is present it
    returns that element and leaves the tree alone. *)
Theorem rb_insert_correct t elm : rbtree cmp t ->
  match RB_FIND cmp t elm with
  | None => exists t' a b, RB_INSERT cmp t elm = Some (t', None) /\ rbtree cmp t' /\
              inorder t = a ++ b /\ inorder t' = a ++ elm :: b
  | Some x => RB_INSERT cmp t elm = Some (t, Some x)
  end.
Proof.
  intros Ht. destruct (RB_FIND cmp t elm) eqn:Ef; [by apply insert_old_spec|by apply insert_new_spec].
Qed.

(** C20: RB_FIND returns the element that compares equal, exactly when there is one,
    after at most 2 * log2 (n + 1) comparisons in a tree of n elements. *)
Theorem rb_find_correct t elm : rbtree cmp t ->
  (forall x, RB_FIND cmp t elm = Some x <-> x ∈ inorder t /\ cmp elm x = 0) /\
  (find_steps cmp t elm <= 2 * Nat.log2 (length (inorder t) + 1))%nat.
Proof.
  intros (Hb & Hc & n & Hrb). split; [intros x; by apply find_spec|].
  pose proof (rb_steps n t elm Hrb) as Hs. rewrite Hc in Hs. pose proof (rb_size n t Hrb) as Hz.
  apply Nat.log2_le_mono in Hz. rewrite Nat.log2_pow2 in Hz; lia.
Qed.

(** RB_NFIND returns the least element that is not below the key. *)
Lemma nfind_acc t res elm : RB_NFIND cmp t res elm = match RB_NFIND cmp t None elm with Some x => Some x | None => res end.
Proof.
  revert res. induction t as [|c l IHl x r IHr]; intros res; cbn; [done|].
  destruct (cmp elm x <? 0); [rewrite IHl; by destruct (RB_NFIND cmp l None elm)|].
  destruct (0 <? cmp elm x); [apply IHr|done].
Qed.

Lemma nfind_spec t elm : bst cmp t ->
  match RB_NFIND cmp t None elm with
  | Some x => x ∈ inorder t /\ cmp elm x <= 0 /\ forall y, y ∈ inorder t -> cmp elm y <= 0 -> cmp x y <= 0
  | None => forall y, y ∈ inorder t -> 0 < cmp elm y
  end.
Proof.
  unfold bst. induction t as [|c l IHl x r IHr]; cbn; intros Hs; [by intros y ?%not_elem_of_nil|].
  apply sorted_mid in Hs as (Hl & Hr & Hsl & Hsr). specialize (IHl Hsl). specialize (IHr Hsr).
  destruct (cmp elm x <? 0) eqn:E1; [|destruct (0 <? cmp elm x) eqn:E2]; bool_props.
  - rewrite nfind_acc. destruct (RB_NFIND cmp l None elm) as [z|].
    + destruct IHl as (Hz & Hle & Hmin). split_and!; [apply elem_of_app; by left|done|].
      intros y. rewrite elem_of_app, elem_of_cons. intros [Hy|[->|Hy]] Hy0; [auto|specialize (Hl _ Hz); lia|].
      pose proof (cmp_lt_le_trans cmp z x y (Hl _ Hz) ltac:(specialize (Hr _ Hy); lia)). lia.
    + split_and!; [apply elem_of_app; right; left|lia|].
      intros y. rewrite elem_of_app, elem_of_cons. intros [Hy|[->|Hy]] Hy0; [specialize (IHl _ Hy); lia| |specialize (Hr _ Hy); lia].
      rewrite (cmp_refl x). lia.
  - apply (cmp_gt_lt cmp) in E2 as E3. destruct (RB_NFIND cmp r None elm) as [z|].
    + destruct IHr as (Hz & Hle & Hmin). split_and!; [apply elem_of_app; right; by right|done|].
      intros y. rewrite elem_of_app, elem_of_cons. intros [Hy|[->|Hy]] Hy0; [|lia|auto].
      pose proof (cmp_lt_le_trans cmp y x elm (Hl _ Hy) ltac:(lia)) as H. apply (cmp_gt_lt cmp) in H. lia.
    + intros y. rewrite elem_of_app, elem_of_cons. intros [Hy|[->|Hy]]; [|done|auto].
      apply (cmp_gt_lt cmp). apply (cmp_lt_le_trans cmp y x elm (Hl _ Hy)). lia.
  - assert (cmp elm x = 0) as E0 by lia. apply (cmp_eq_sym cmp) in E0 as E0'.
    split_and!; [apply elem_of_app; right; left|lia|]. intros y. rewrite elem_of_app, elem_of_cons.
    intros [Hy|[->|Hy]] Hy0; [|rewrite (cmp_refl x); lia|specialize (Hr _ Hy); lia].
    apply (cmp_trans x elm y); lia.
Qed.

End proofs.

(** The witnesses use integer keys. *)
Definition zcmp (a b : Z) : Z := a - b.

#[export] Instance zcmp_ord : OrdCmp zcmp.
Proof. split; unfold zcmp; intros; lia. Qed.

Definition zinsert (t : tree Z) (k : Z) : tree Z :=
  match RB_INSERT zcmp t k with Some (t', _) => t' | None => t end.

Definition ztree : tree Z := foldl zinsert Nil [5; 3; 8; 1; 4; 7; 9; 2; 6].

Lemma ztree_ok : rbtree zcmp ztree.
Proof.
  split; [|split; [reflexivity|]].
  - unfold bst. vm_compute inorder. repeat (constructor; [|by repeat constructor]). constructor.
  - eexists. vm_compute. repeat constructor.
Qed.

Lemma rb_insert_correct_witness :
  exists t' a b, RB_INSERT zcmp ztree 10 = Some (t', None) /\ rbtree zcmp t' /\
    inorder ztree = a ++ b /\ inorder t' = a ++ 10 :: b.
Proof. exact (rb_insert_correct zcmp ztree 10 ztree_ok). Defined.

Lemma rb_find_correct_witness : (find_steps zcmp ztree 6%Z <= 6)%nat.
Proof. apply (rb_find_correct zcmp ztree 6 ztree_ok). Defined.

(** * The interface to the users of the trees *)

Class OrderedIndex {E : Type} (cmp : E -> E -> Z) (T : Type) := {
  ix_wf : T -> Prop;
  ix_elems : T -> list E;
  ix_empty : T;
  ix_insert : T -> E -> option (T * option E);
  ix_find : T -> E -> option E;
  ix_empty_wf : ix_wf ix_empty;
  ix_empty_elems : ix_elems ix_empty = [];
  ix_find_Some t e x : ix_wf t -> ix_find t e = Some x <-> x ∈ ix_elems t /\ cmp e x = 0;
  ix_insert_new t e : ix_wf t -> ix_find t e = None ->
    exists t', ix_insert t e = Some (t', None) /\ ix_wf t' /\
      forall y, y ∈ ix_elems t' <-> y = e \/ y ∈ ix_elems t;
  ix_insert_old t e x : ix_wf t -> ix_find t e = Some x -> ix_insert t e = Some (t, Some x)
}.

#[export] Program Instance rb_index {E} (cmp : E -> E -> Z) `{!OrdCmp cmp} : OrderedIndex cmp (tree E) := {
  ix_wf := rbtree cmp;
  ix_elems := inorder;
  ix_empty := Nil;
  ix_insert := RB_INSERT cmp;
  ix_find := RB_FIND cmp
}.
Next Obligation. intros. split; [constructor|split; [done|]]. exists 0%nat. constructor. Qed.
Next Obligation. done. Qed.
Next Obligation. intros ? ? ? t e x Ht. apply find_spec; [done|apply Ht]. Qed.
Next Obligation.
  intros ? cmp ? t e Ht Hf. destruct (insert_new_spec cmp t e Ht Hf) as (t' & a & b & E' & Ht' & Ha & Hb).
  exists t'. split_and!; [done|done|]. intros y. rewrite Ha, Hb, !elem_of_app, elem_of_cons. tauto.
Qed.
Next Obligation. intros. by apply insert_old_spec. Qed.
