(* ===== verification/RbRemove.v ===== *)
(** Removal and traversal of the red-black trees of src/csf/include/tree.h:
    RB_REMOVE with its loop RB_REMOVE_COLOR, and RB_NEXT, on the trees and paths of
    RbTree.v. An element inside a tree is a node with its path to the root. *)

From stdpp Require Import sorting.
From S2P Require Import Prelude RbTree.

Section operations.
Context {E : Type}.
Implicit Types (t l r w : tree E) (p : list (frame E)) (x : E).

(** A round of RB_REMOVE_COLOR at a parent of colour [c] with element [x], the child
    [t] and the other child [w], which is not red: the subtree to go on with, or the
    subtree after the last rotation. [None] is the dereference of a NULL [tmp]. *)
Definition sibling (lc : bool) (t : tree E) (c : color) (x : E) (w : tree E) : option (tree E + tree E) :=
  match w with
  | Nil => None
  | Node cw wl wx wr =>
      if negb (is_red wl) && negb (is_red wr) then Some (inl (attach t (Frame lc c x (Node Red wl wx wr))))
      else
        w1 ← (if lc then if is_red wr then Some w else RB_ROTATE_RIGHT (Node Red (set_color Black wl) wx wr)
              else if is_red wl then Some w else RB_ROTATE_LEFT (Node Red wl wx (set_color Black wr)));
        sub ← (match w1 with
               | Nil => None
               | Node _ l1 x1 r1 =>
                   if lc then RB_ROTATE_LEFT (Node Black t x (Node c l1 x1 (set_color Black r1)))
                   else RB_ROTATE_RIGHT (Node Black (Node c (set_color Black l1) x1 r1) x t)
               end);
        Some (inr sub)
  end.

(** RB_REMOVE_COLOR for the child at the hole of the path. A red sibling is rotated
    above the parent, which becomes red: its near child is the new sibling, and when
    the round then ends at the parent the loop stops there, since the parent is
    red. *)
Fixpoint RB_REMOVE_COLOR (t : tree E) (p : list (frame E)) : option (tree E) :=
  match p with
  | [] => Some (set_color Black t)
  | Frame lc c x w :: p1 =>
      if is_red t then Some (plug (set_color Black t) p)
      else
        match w with
        | Node Red wl wx wr =>
            let p2 := Frame lc Black wx (if lc then wr else wl) :: p1 in
            res ← sibling lc t Red x (if lc then wl else wr);
            Some (match res with
                  | inl t1 => plug (set_color Black t1) p2
                  | inr sub => set_color Black (plug sub p2)
                  end)
        | _ =>
            res ← sibling lc t c x w;
            match res with
            | inl t1 => RB_REMOVE_COLOR t1 p1
            | inr sub => Some (set_color Black (plug sub p1))
            end
        end
  end.

(** The walk to the leftmost element of a subtree. *)
Fixpoint leftmost (c : color) (l : tree E) (x : E) (r : tree E) (p : list (frame E)) : color * E * tree E * list (frame E) :=
  match l with
  | Nil => (c, x, r, p)
  | Node c1 l1 x1 r1 => leftmost c1 l1 x1 r1 (Frame true c x r :: p)
  end.

(** The end of RB_REMOVE, from the label [color]. *)
Definition remove_at (col : color) (child : tree E) (p : list (frame E)) : option (tree E) :=
  match col with Black => RB_REMOVE_COLOR child p | Red => Some (plug child p) end.

(** RB_REMOVE of the element [x] whose node has colour [c] and children [l] and [r]:
    with two children its successor takes its place and its colour. *)
Definition RB_REMOVE (c : color) (l : tree E) (x : E) (r : tree E) (p : list (frame E)) : option (tree E) :=
  match l, r with
  | Nil, _ => remove_at c r p
  | _, Nil => remove_at c l p
  | _, Node cr rl rx rr =>
      let '(ce, e, child, pe) := leftmost cr rl rx rr [] in
      remove_at ce child (pe ++ Frame false c e l :: p)
  end.

(** The climb of RB_NEXT: the first ancestor reached from its left. *)
Fixpoint climb (p : list (frame E)) : option E :=
  match p with
  | [] => None
  | Frame true _ x _ :: _ => Some x
  | Frame false _ _ _ :: p1 => climb p1
  end.

(** RB_NEXT of the node with right child [r]. *)
Definition RB_NEXT (r : tree E) (p : list (frame E)) : option E :=
  match r with
  | Node c l x r1 => Some (leftmost c l x r1 []).1.1.2
  | Nil => climb p
  end.

(** A node in its tree, as the pointer of a traversal: its colour and children,
    its element and the path to the root. *)
Definition cursor : Type := color * tree E * E * tree E * list (frame E).

Definition at_cursor (q : cursor) : E := q.1.1.2.

(** RB_MIN as a pointer. *)
Fixpoint min_from (t : tree E) (p : list (frame E)) : option cursor :=
  match t with
  | Nil => None
  | Node c l x r =>
      match l with
      | Nil => Some (c, Nil, x, r, p)
      | Node _ _ _ _ => min_from l (Frame true c x r :: p)
      end
  end.

(** RB_NEXT as a pointer. *)
Fixpoint climb_from (t : tree E) (p : list (frame E)) : option cursor :=
  match p with
  | [] => None
  | Frame true c x o :: p1 => Some (c, t, x, o, p1)
  | Frame false c x o :: p1 => climb_from (Node c o x t) p1
  end.

Definition next_from (q : cursor) : option cursor :=
  let '(c, l, x, r, p) := q in
  match r with
  | Nil => climb_from (Node c l x Nil) p
  | Node _ _ _ _ => min_from r (Frame false c x l :: p)
  end.

(** The loop of RB_FOREACH over a tree its body leaves alone: the elements it
    visits. [fuel] bounds the number of rounds. *)
Fixpoint foreach_rb (fuel : nat) (x : option cursor) : option (list E) :=
  match x with
  | None => Some []
  | Some q => match fuel with O => None | S fuel' => cons (at_cursor q) <$> foreach_rb fuel' (next_from q) end
  end.

Definition RB_FOREACH (t : tree E) : option (list E) := foreach_rb (length (inorder t)) (min_from t []).

(** * Proofs *)

(** The rotation of a red sibling leaves the parent at the path the loop goes on
    with. *)
Lemma red_sibling_rotation (lc : bool) t x wl wx wr :
  (if lc then RB_ROTATE_LEFT (Node Red t x (set_color Black (Node Red wl wx wr)))
   else RB_ROTATE_RIGHT (Node Red (set_color Black (Node Red wl wx wr)) x t)) =
  Some (plug t [Frame lc Red x (if lc then wl else wr); Frame lc Black wx (if lc then wr else wl)]).
Proof. by destruct lc. Qed.

Lemma sibling_inorder lc t c x w res : sibling lc t c x w = Some res ->
  inorder (match res with inl t1 => t1 | inr t1 => t1 end) = inorder (attach t (Frame lc c x w)).
Proof.
  unfold sibling. destruct w as [|cw wl wx wr]; [done|]. destruct (negb (is_red wl) && negb (is_red wr)).
  { intros [= <-]. by destruct lc. }
  set (w := Node cw wl wx wr).
  match goal with |- (?m ≫= _) = _ -> _ => destruct m as [w1|] eqn:E1 end; [|done]. cbn [mbind option_bind].
  assert (inorder w1 = inorder w) as Hw.
  { destruct lc; [destruct (is_red wr)|destruct (is_red wl)]; try congruence.
    - rewrite (inorder_rotate_right _ _ E1). cbn. by rewrite inorder_set_color.
    - rewrite (inorder_rotate_left _ _ E1). cbn. by rewrite inorder_set_color. }
  destruct w1 as [|c1 l1 x1 r1]; [done|].
  destruct lc.
  - destruct (RB_ROTATE_LEFT _) as [sub|] eqn:E2; [|done]. intros [= <-]. rewrite (inorder_rotate_left _ _ E2). cbn in *.
    by rewrite inorder_set_color, Hw.
  - destruct (RB_ROTATE_RIGHT _) as [sub|] eqn:E2; [|done]. intros [= <-]. rewrite (inorder_rotate_right _ _ E2). cbn in *.
    by rewrite inorder_set_color, Hw.
Qed.

Lemma remove_color_inorder t p t' : RB_REMOVE_COLOR t p = Some t' -> inorder t' = inorder (plug t p).
Proof.
  revert t; induction p as [|[lc c x w] p IH]; intros t; cbn [RB_REMOVE_COLOR].
  { intros [= <-]. apply inorder_set_color. }
  destruct (is_red t). { intros H. apply (inj Some) in H as <-. apply plug_inorder_eq, inorder_set_color. }
  change (plug t (Frame lc c x w :: p)) with (plug (attach t (Frame lc c x w)) p).
  assert (Hb : forall w, (res ← sibling lc t c x w; match res with inl t1 => RB_REMOVE_COLOR t1 p
    | inr sub => Some (set_color Black (plug sub p)) end) = Some t' -> inorder t' = inorder (plug (attach t (Frame lc c x w)) p)).
  { clear w. intros w. destruct (sibling lc t c x w) as [res|] eqn:Es; [|done]. cbn [mbind option_bind]. apply sibling_inorder in Es.
    destruct res as [t1|sub].
    - intros H. rewrite (IH _ H). by apply plug_inorder_eq.
    - intros [= <-]. rewrite inorder_set_color. by apply plug_inorder_eq. }
  destruct w as [|[] wl wx wr]; [exact (Hb Nil)|exact (Hb (Node Black wl wx wr))|]. clear Hb.
  destruct (sibling lc t Red x _) as [res|] eqn:Es; [|done]. cbn [mbind option_bind]. apply sibling_inorder in Es. intros H. apply (inj Some) in H as <-.
  set (p2 := Frame lc Black wx (if lc then wr else wl) :: p).
  trans (inorder (plug (attach t (Frame lc Red x (if lc then wl else wr))) p2)).
  - destruct res; [|rewrite inorder_set_color]; by apply plug_inorder_eq; rewrite <-Es, ?inorder_set_color.
  - unfold p2. rewrite !inorder_plug. destruct lc; cbn; rewrite <-!app_assoc; cbn; by rewrite <-?app_assoc.
Qed.

(** The sibling of a subtree that lost a black node: the round either moves the
    missing node up to the parent or ends with a subtree that has it again. *)
Lemma sibling_rb n lc t c x w : rb n t -> rb (S n) w -> is_red w = false ->
  exists res, sibling lc t c x w = Some res /\
    match res with
    | inl t1 => is_red t1 = (match c with Red => true | Black => false end) /\ rb (S n) (set_color Black t1)
    | inr sub => rb (match c with Red => S n | Black => S (S n) end) sub /\ is_red sub = match c with Red => true | Black => false end
    end.
Proof.
  intros Ht Hw Hwb. inversion Hw as [|? wl wx wr Hl Hr|? wl wx wr Hl Hr]; subst; [done|]. cbn [sibling].
  destruct (is_red wl) eqn:El, (is_red wr) eqn:Er; cbn [negb andb].
  4:{ eexists. split; [done|]. cbn iota. destruct lc, c; cbn; (split; [done|]); by repeat constructor. }
  all: try (destruct (rb_red_inv _ _ Hl El) as (a & y & b & -> & Ha & Hb & Ra & Rb)).
  all: try (destruct (rb_red_inv _ _ Hr Er) as (a' & y' & b' & -> & Ha' & Hb' & Ra' & Rb')).
  all: destruct lc; cbn; eexists; (split; [reflexivity|]); destruct c; cbn; (split; [|done]); by repeat constructor.
Qed.

Lemma blacken_ok n t : rb n t -> exists t' m, Some (set_color Black t) = Some t' /\ rb m t' /\ is_red t' = false.
Proof. intros H. destruct (set_black_rb _ _ H) as (m & ? & ?). by exists (set_color Black t), m. Qed.

(** A subtree of the right black height put at the hole of a path. *)
Lemma plug_blacken n t p : rbctx n p -> rb n t -> (is_red t = true -> top_black p) ->
  exists t' m, Some (set_color Black (plug t p)) = Some t' /\ rb m t' /\ is_red t' = false.
Proof. intros Hp Ht Hr. destruct (plug_rb n p t Hp Ht Hr) as (m & Hm & _). by apply (blacken_ok m). Qed.

Lemma plug_black n t p : rbctx n p -> rb n t -> is_red t = false ->
  exists t' m, Some (plug t p) = Some t' /\ rb m t' /\ is_red t' = false.
Proof.
  intros Hp Ht Hr. destruct (plug_rb n p t Hp Ht) as (m & Hm & Hc); [congruence|]. exists (plug t p), m.
  split_and!; [done..|]. rewrite Hc. by destruct p.
Qed.

(** A red subtree becomes black and makes up for the missing node. *)
Lemma rb_blacken_red n t : rb n t -> is_red t = true -> rb (S n) (set_color Black t).
Proof. intros Ht Hr. destruct (rb_red_inv _ _ Ht Hr) as (l & x & r & -> & Hl & Hr' & _). by constructor. Qed.

(** The loop repairs a tree whose subtree at the hole lacks one black node. *)
Lemma remove_color_rb p : forall n t, rbctx (S n) p -> rb n t ->
  exists t' m, RB_REMOVE_COLOR t p = Some t' /\ rb m t' /\ is_red t' = false.
Proof.
  induction p as [|[lc c x w] p IH]; intros n t Hp Ht; [by apply (blacken_ok n)|]. cbn [RB_REMOVE_COLOR].
  destruct (is_red t) eqn:Er.
  { apply (plug_black (S n)); [done|by apply rb_blacken_red|by destruct t]. }
  assert (Hblack : forall w, rb (S n) w -> is_red w = false -> rbctx (match c with Red => S n | Black => S (S n) end) p ->
    (c = Red -> top_black p) ->
    exists t' m, (res ← sibling lc t c x w; match res with inl t1 => RB_REMOVE_COLOR t1 p
      | inr sub => Some (set_color Black (plug sub p)) end) = Some t' /\ rb m t' /\ is_red t' = false).
  { clear w Hp. intros w Hw Hwb Hp Htop. destruct (sibling_rb n lc t c x w Ht Hw Hwb) as (res & -> & Hres). cbn [mbind option_bind].
    destruct res as [t1|sub].
    - destruct Hres as [Hc Hrb]. destruct c.
      + apply (IH (S n)); [done|]. destruct t1 as [|[] ? ? ?]; [done|done|done].
      + destruct p as [|[lc' c' x' w'] p]; [by destruct (Htop eq_refl)|]. cbn [RB_REMOVE_COLOR]. rewrite Hc.
        apply (plug_black (S n)); [done|done|by destruct t1].
    - destruct Hres as [Hrb Hc]. apply (plug_blacken (match c with Red => S n | Black => S (S n) end)); [done|done|].
      rewrite Hc. destruct c; [done|auto]. }
  inversion Hp as [|? ? ? ? ? Hs Hp1|? ? ? ? ? Hs Hsr Htop Hp1]; subst.
  2:{ destruct w as [|[] wl wx wr]; [by apply Hblack|by apply Hblack|done]. }
  inversion Hs as [|? wl wx wr Hl Hr Rl Rr|? wl wx wr Hl Hr]; subst; [|by apply Hblack].
  set (near := if lc then wl else wr). set (far := if lc then wr else wl).
  assert (rb (S n) near /\ is_red near = false /\ rb (S n) far) as (Hn & Rn & Hf) by (unfold near, far; by destruct lc).
  assert (rbctx (S n) (Frame lc Black wx far :: p)) as Hp2 by by constructor.
  destruct (sibling_rb n lc t Red x near Ht Hn Rn) as (res & -> & Hres). cbn [mbind option_bind]. destruct res as [t1|sub].
  - destruct Hres as [Hc Hrb]. apply (plug_black (S n)); [done|done|by destruct t1].
  - destruct Hres as [Hrb Hc]. by apply (plug_blacken (S n)).
Qed.

(** The leftmost element of a subtree. *)
Lemma leftmost_spec c l x r p ce e child pe : leftmost c l x r p = (ce, e, child, pe) ->
  plug (Node c l x r) p = plug (Node ce Nil e child) pe.
Proof.
  revert c x r p. induction l as [|c1 l1 IH x1 r1 _]; intros c x r p; cbn [leftmost]; [by intros [= <- <- <- <-]|].
  intros H. by apply IH in H.
Qed.

Lemma leftmost_ctx n c l x r p ce e child pe : leftmost c l x r p = (ce, e, child, pe) ->
  rb n (Node c l x r) -> rbctx n p -> (c = Red -> top_black p) ->
  exists m, rb m (Node ce Nil e child) /\ rbctx m pe /\ (ce = Red -> top_black pe).
Proof.
  revert n c x r p. induction l as [|c1 l1 IH x1 r1 _]; intros n c x r p; cbn [leftmost].
  { intros [= <- <- <- <-] H1 H2 H3. by exists n. }
  intros H Hrb Hp Htop. inversion Hrb as [|? ? ? ? Hl Hr Rl Rr|m ? ? ? Hl Hr]; subst.
  - apply (IH n) in H; try done; [by constructor; auto|]. by intros ->.
  - apply (IH m) in H; try done. by constructor.
Qed.

(** The path of the successor does not leave the right subtree. *)
Lemma leftmost_app c l x r p q : leftmost c l x r (p ++ q) = let '(ce, e, child, pe) := leftmost c l x r p in (ce, e, child, pe ++ q).
Proof.
  revert c x r p. induction l as [|c1 l1 IH x1 r1 _]; intros c x r p; cbn [leftmost]; [done|].
  exact (IH c1 x1 r1 (Frame true c x r :: p)).
Qed.

(** What a red-black tree says about a subtree and its path. *)
Lemma plug_rb_inv p : forall t m, rb m (plug t p) -> is_red (plug t p) = false ->
  exists n, rb n t /\ rbctx n p /\ (is_red t = true -> top_black p).
Proof.
  induction p as [|[lc c x w] p IH]; intros t m Hrb Hr.
  { exists m. split_and!; [done|constructor|]. cbn in Hr. congruence. }
  destruct (IH (attach t (Frame lc c x w)) m Hrb Hr) as (n & Hn & Hp & Htop).
  destruct c.
  - destruct lc; inversion Hn as [| |k ? ? ? H1 H2]; subst; exists k; (split_and!; [done|by constructor|done]).
  - assert (top_black p) by (apply Htop; by destruct lc).
    destruct lc; inversion Hn as [|? ? ? ? H1 H2 R1 R2|]; subst; exists n; (split_and!; [done|by constructor|congruence]).
Qed.

Lemma pre_app p q : pre (p ++ q) = pre q ++ pre p.
Proof. induction p as [|[[] c x o] p IH]; cbn; [by rewrite app_nil_r|done|]. by rewrite IH, !app_assoc. Qed.

Lemma post_app p q : post (p ++ q) = post p ++ post q.
Proof. induction p as [|[[] c x o] p IH]; cbn; [done| |done]. by rewrite IH, app_assoc. Qed.

Lemma leftmost_pre c l x r p : pre (leftmost c l x r p).2 = pre p.
Proof. revert c x r p. induction l as [|c1 l1 IH x1 r1 _]; intros c x r p; cbn [leftmost]; [done|]. by rewrite IH. Qed.

(** A subtree in order is its leftmost element and what follows it. *)
Lemma leftmost_inorder c l x r ce e child pe : leftmost c l x r [] = (ce, e, child, pe) ->
  pre pe = [] /\ inorder (Node c l x r) = e :: inorder child ++ post pe.
Proof.
  intros H. pose proof (leftmost_pre c l x r []) as Hp. rewrite H in Hp. cbn [snd pre] in Hp. split; [done|].
  apply leftmost_spec, (f_equal inorder) in H. rewrite (inorder_plug (Node ce Nil e child)), Hp in H. exact H.
Qed.

(** The element is cut out at a node that has one child at most. *)
Lemma remove_at_ok n col child p : rbctx n p ->
  match col with Black => exists k, n = S k /\ rb k child | Red => rb n child /\ is_red child = false end ->
  exists t' m, remove_at col child p = Some t' /\ rb m t' /\ is_red t' = false /\ inorder t' = inorder (plug child p).
Proof.
  intros Hp H. destruct col; cbn [remove_at].
  - destruct H as (k & -> & Hk). destruct (remove_color_rb p k child Hp Hk) as (t' & m & E1 & H1 & H2).
    exists t', m. split_and!; try done. by apply remove_color_inorder.
  - destruct H as [H1 H2]. destruct (plug_black n child p Hp H1 H2) as (t' & m & E1 & H3 & H4). exists t', m.
    split_and!; try done. by injection E1 as ->.
Qed.

Lemma remove_spec c l x r p m : rb m (plug (Node c l x r) p) -> is_red (plug (Node c l x r) p) = false ->
  exists t' k, RB_REMOVE c l x r p = Some t' /\ rb k t' /\ is_red t' = false /\
    inorder t' = pre p ++ (inorder l ++ inorder r) ++ post p.
Proof.
  intros Hrb Hred. destruct (plug_rb_inv p _ m Hrb Hred) as (n & Hn & Hp & Htop).
  assert (Hone : forall child, inorder child = inorder l ++ inorder r ->
    match c with Black => exists k, n = S k /\ rb k child | Red => rb n child /\ is_red child = false end ->
    exists t' k, remove_at c child p = Some t' /\ rb k t' /\ is_red t' = false /\ inorder t' = pre p ++ (inorder l ++ inorder r) ++ post p).
  { intros child Hc Hk. destruct (remove_at_ok n c child p Hp Hk) as (t' & k & E1 & H1 & H2 & H3).
    exists t', k. split_and!; try done. by rewrite H3, inorder_plug, Hc. }
  assert (Hkids : match c with Black => exists k, n = S k /\ rb k l /\ rb k r
                  | Red => rb n l /\ rb n r /\ is_red l = false /\ is_red r = false end) by (inversion Hn; subst; eauto 10).
  unfold RB_REMOVE. destruct l as [|cl ll lx lr]; [apply Hone; [done|]; destruct c; naive_solver|].
  destruct r as [|cr rl rx rr]; [apply Hone; [by rewrite app_nil_r|]; destruct c; naive_solver|]. clear Hone.
  destruct (leftmost cr rl rx rr []) as [[[ce e] child] pe] eqn:El. set (l := Node cl ll lx lr) in *. set (r := Node cr rl rx rr) in *.
  pose proof (leftmost_app cr rl rx rr [] (Frame false c e l :: p)) as Ea. rewrite El in Ea. cbn [app] in Ea.
  assert (Hctx : exists k, rb k r /\ rbctx k (Frame false c e l :: p) /\ (cr = Red -> top_black (Frame false c e l :: p))).
  { destruct c.
    - destruct Hkids as (k & -> & Hl & Hr). exists k. split_and!; [done|by constructor|done].
    - destruct Hkids as (Hl & Hr & Rl & Rr). exists n. split_and!; [done|constructor; auto|]. intros ->. done. }
  destruct Hctx as (k & Hr & Hc & Ht). destruct (leftmost_ctx k _ _ _ _ _ _ _ _ _ Ea Hr Hc Ht) as (j & Hj & Hpe & Htop').
  destruct (remove_at_ok j ce child (pe ++ Frame false c e l :: p) Hpe) as (t' & k' & E1 & H1 & H2 & H3).
  { destruct ce; inversion Hj; subst; eauto. }
  exists t', k'. split_and!; try done. rewrite H3, inorder_plug, pre_app, post_app. cbn [pre post].
  apply leftmost_inorder in El as [-> Er]. change (inorder r) with (inorder (Node cr rl rx rr)). rewrite Er.
  rewrite app_nil_r. cbn [app]. rewrite <-!app_assoc. cbn [app]. by rewrite <-?app_assoc.
Qed.

(** ** Traversal *)

Lemma climb_spec p : climb p = head (post p).
Proof. by induction p as [|[[] c x o] p IH]. Qed.

(** What a traversal still visits from a node on. *)
Definition rest_from (q : cursor) : list E := let '(_, _, x, r, p) := q in x :: inorder r ++ post p.

Definition pending (x : option cursor) : list E := match x with Some q => rest_from q | None => [] end.

Lemma min_from_spec t p : t <> Nil -> pending (min_from t p) = inorder t ++ post p.
Proof.
  revert p. induction t as [|c l IHl x r _]; intros p Ht; [done|]. cbn [min_from].
  destruct l as [|c1 l1 x1 r1]; [done|]. rewrite IHl by done. cbn. by rewrite <-!app_assoc.
Qed.

Lemma climb_from_spec t p : pending (climb_from t p) = post p.
Proof. revert t. by induction p as [|[[] c x o] p IH]; intros t; cbn. Qed.

Lemma next_from_spec q : pending (next_from q) = tail (rest_from q).
Proof.
  destruct q as [[[[c l] x] r] p]. cbn [next_from rest_from tail].
  destruct r as [|cr rl rx rr]; [apply climb_from_spec|by rewrite min_from_spec].
Qed.

Lemma foreach_rb_spec fuel (x : option cursor) : (length (pending x) <= fuel)%nat -> foreach_rb fuel x = Some (pending x).
Proof.
  revert x. induction fuel as [|fuel IH]; intros [q|] Hf; try done; destruct q as [[[[c l] y] r] p] eqn:Eq; [cbn in Hf; lia|].
  rewrite <-Eq in *. cbn [foreach_rb]. rewrite IH; rewrite next_from_spec; subst q; cbn in *; [done|lia].
Qed.

(** The pointer RB_NEXT gives is to the element of [RB_NEXT]. *)
Lemma next_from_next c l x r p : at_cursor <$> next_from (c, l, x, r, p) = RB_NEXT r p.
Proof.
  assert (forall q, at_cursor <$> q = head (pending q)) as Hh by (by intros [[[[[? ?] ?] ?] ?]|]).
  rewrite Hh, next_from_spec. cbn. unfold RB_NEXT. destruct r as [|cr rl rx rr]; [by rewrite climb_spec|].
  destruct (leftmost cr rl rx rr []) as [[[ce e] child] pe] eqn:El. apply leftmost_inorder in El as [_ ->]. done.
Qed.

(** RB_FOREACH ends and visits every element once, in order. *)
Theorem rb_foreach_inorder t : RB_FOREACH t = Some (inorder t).
Proof.
  unfold RB_FOREACH. destruct t as [|c l x r]; [done|]. set (t := Node c l x r).
  rewrite foreach_rb_spec; rewrite min_from_spec by done; cbn [post]; rewrite app_nil_r; done.
Qed.

End operations.

Section order.
Context {E : Type} (cmp : E -> E -> Z) {Hcmp : OrdCmp cmp}.

Lemma remove_elem_spec c l x r p : rbtree cmp (plug (Node c l x r) p) ->
  exists t' a b, RB_REMOVE c l x r p = Some t' /\ rbtree cmp t' /\
    inorder (plug (Node c l x r) p) = a ++ x :: b /\ inorder t' = a ++ b.
Proof.
  intros (Hb & Hred & m & Hrb). destruct (remove_spec c l x r p m Hrb Hred) as (t' & k & E1 & H1 & H2 & H3).
  assert (Hi : inorder (plug (Node c l x r) p) = (pre p ++ inorder l) ++ x :: inorder r ++ post p).
  { rewrite inorder_plug. cbn. by rewrite <-!app_assoc. }
  assert (Ht : inorder t' = (pre p ++ inorder l) ++ inorder r ++ post p) by by rewrite H3, <-!app_assoc.
  exists t', (pre p ++ inorder l), (inorder r ++ post p). split; [done|]. split; [|done]. split; [|split; [done|by exists k]].
  unfold bst in *. rewrite Hi in Hb. rewrite Ht. apply StronglySorted_app in Hb as (Hx & Ha & Hb).
  apply StronglySorted_inv in Hb as [Hb _]. apply StronglySorted_app. split_and!; try done.
  intros y z Hy Hz. apply Hx; [done|]. by apply elem_of_cons; right.
Qed.

(** RB_REMOVE of any element of a red-black tree never follows a NULL pointer,
    takes exactly that element out of the order, and leaves a search tree with a
    black root, no red node under a red one and the same number of black nodes on
    every path. *)
Theorem rb_remove_correct c l x r p : rbtree cmp (plug (Node c l x r) p) ->
  exists t' a b, RB_REMOVE c l x r p = Some t' /\ rbtree cmp t' /\
    inorder (plug (Node c l x r) p) = a ++ x :: b /\ inorder t' = a ++ b.
Proof. apply remove_elem_spec. Qed.

(** RB_NEXT gives the element that follows in the order, and NULL for the last
    one. *)
Theorem rb_next_correct c l (x : E) r p :
  exists a b, inorder (plug (Node c l x r) p) = a ++ x :: b /\ RB_NEXT r p = head b.
Proof.
  exists (pre p ++ inorder l), (inorder r ++ post p). split; [rewrite inorder_plug; cbn; by rewrite <-!app_assoc|].
  unfold RB_NEXT. destruct r as [|cr rl rx rr]; [apply climb_spec|].
  destruct (leftmost cr rl rx rr []) as [[[ce e] child] pe] eqn:El. apply leftmost_inorder in El as [_ ->]. done.
Qed.

End order.

(** * Witness *)

(** The element 5 of the tree of RbTree.v, with both children, and its path. *)
Definition zpath : list (frame Z) * tree Z :=
  (fix go (k : Z) (t : tree Z) (p : list (frame Z)) : list (frame Z) * tree Z :=
     match t with
     | Nil => (p, Nil)
     | Node c l x r => if k =? x then (p, t) else if k <? x then go k l (Frame true c x r :: p) else go k r (Frame false c x l :: p)
     end) 3 ztree [].

Lemma rb_remove_correct_witness :
  match zpath with
  | (p, Node c l x r) => x = 3 /\ exists t', RB_REMOVE c l x r p = Some t' /\ rbtree zcmp t' /\ inorder t' = [1; 2; 4; 5; 6; 7; 8; 9]
  | _ => False
  end.
Proof.
  assert (H : match zpath with (p, Node c l x r) => rbtree zcmp (plug (Node c l x r) p) | _ => False end).
  { vm_compute. exact ztree_ok. }
  destruct zpath as [p [|c l x r]] eqn:Ez; [done|]. vm_compute in Ez. injection Ez as Ep Ec El Ex Er.
  destruct (rb_remove_correct zcmp c l x r p H) as (t' & a & b & E1 & Ht & _ & _).
  split; [by rewrite <-Ex|]. exists t'. split; [exact E1|]. split; [exact Ht|].
  rewrite <-Ep, <-Ec, <-El, <-Ex, <-Er in E1. vm_compute in E1. injection E1 as <-. reflexivity.
Defined.
