(* ===== verification/Splay.v ===== *)
(** The splay trees of src/csf/include/tree.h. A tree is an inductive tree; the
    two chains that the loop of SPLAY builds on its local node, through the
    pointers __left and __right, are the lists of what it linked, in the order of
    the links: the last element of a list is the one the pointer points to. The
    loop takes the size of the tree as fuel, since each round descends. The
    abstraction of a tree is its list of elements in order. *)

From stdpp Require Import sorting.
From S2P Require Import Prelude RbTree.

(** * Trees *)

Inductive stree (E : Type) : Type :=
| SLeaf
| SNode (l : stree E) (x : E) (r : stree E).
Arguments SLeaf {E}.
Arguments SNode {E}.

Section operations.
Context {E : Type} (cmp : E -> E -> Z).
Implicit Types (t : stree E) (elm : E).

Fixpoint ssize (t : stree E) : nat :=
  match t with SLeaf => 0 | SNode l _ r => S (ssize l + ssize r) end.

Fixpoint elems (t : stree E) : list E :=
  match t with SLeaf => [] | SNode l x r => elems l ++ x :: elems r end.

Definition SPLAY_EMPTY t : bool := match t with SLeaf => true | _ => false end.

Definition SPLAY_LEFT t : option (stree E) := match t with SNode l _ _ => Some l | SLeaf => None end.

Definition SPLAY_RIGHT t : option (stree E) := match t with SNode _ _ r => Some r | SLeaf => None end.

(** [None] is the dereference of a missing node. *)
Definition SPLAY_ROTATE_RIGHT t : option (stree E) :=
  match t with
  | SNode (SNode ll y lr) x r => Some (SNode ll y (SNode lr x r))
  | _ => None
  end.

Definition SPLAY_ROTATE_LEFT t : option (stree E) :=
  match t with
  | SNode l x (SNode rl y rr) => Some (SNode (SNode l x rl) y rr)
  | _ => None
  end.

(** The chain of __right: each node hangs on the left of the one before; the
    chain of __left the other way round. *)
Abbreviation rchain := (list (E * stree E)).
Abbreviation lchain := (list (stree E * E)).

Definition SPLAY_LINKLEFT t (B : rchain) : option (stree E * rchain) :=
  match t with SNode l x r => Some (l, B ++ [(x, r)]) | SLeaf => None end.

Definition SPLAY_LINKRIGHT t (A : lchain) : option (stree E * lchain) :=
  match t with SNode l x r => Some (r, A ++ [(l, x)]) | SLeaf => None end.

(** The chains with a tree at their end. *)
Fixpoint close_left (A : lchain) (t : stree E) : stree E :=
  match A with [] => t | (l, x) :: A' => SNode l x (close_left A' t) end.

Fixpoint close_right (B : rchain) (t : stree E) : stree E :=
  match B with [] => t | (x, r) :: B' => SNode (close_right B' t) x r end.

Definition SPLAY_ASSEMBLE t (A : lchain) (B : rchain) : option (stree E) :=
  match t with SNode l x r => Some (SNode (close_left A l) x (close_right B r)) | SLeaf => None end.

(** The state of the loop: the root and the two chains. *)
Definition splay_state : Type := stree E * lchain * rchain.

(** The body of the loop of SPLAY and SPLAY_MINMAX, where [c] compares the key
    with an element; the result tells whether it ended in a break. *)
Definition splay_body (c : E -> Z) (s : splay_state) : option (bool * splay_state) :=
  let '(t, A, B) := s in
  match t with
  | SLeaf => None
  | SNode l x r =>
      if c x <? 0 then
        match l with
        | SLeaf => Some (true, s)
        | SNode _ y _ =>
            t1 ← (if c y <? 0 then SPLAY_ROTATE_RIGHT t else Some t);
            l1 ← SPLAY_LEFT t1;
            if (c y <? 0) && SPLAY_EMPTY l1 then Some (true, (t1, A, B))
            else tr ← SPLAY_LINKLEFT t1 B; Some (false, (tr.1, A, tr.2))
        end
      else if 0 <? c x then
        match r with
        | SLeaf => Some (true, s)
        | SNode _ y _ =>
            t1 ← (if 0 <? c y then SPLAY_ROTATE_LEFT t else Some t);
            r1 ← SPLAY_RIGHT t1;
            if (0 <? c y) && SPLAY_EMPTY r1 then Some (true, (t1, A, B))
            else tl ← SPLAY_LINKRIGHT t1 A; Some (false, (tl.1, tl.2, B))
        end
      else Some (false, s)
  end.

Fixpoint splay_loop (fuel : nat) (c : E -> Z) (s : splay_state) : option splay_state :=
  match fuel with
  | O => None
  | S fuel' =>
      match s.1.1 with
      | SLeaf => None
      | SNode _ x _ =>
          if c x =? 0 then Some s
          else bs ← splay_body c s; if (bs.1 : bool) then Some bs.2 else splay_loop fuel' c bs.2
      end
  end.

Definition SPLAY t elm : option (stree E) :=
  s ← splay_loop (ssize t) (cmp elm) (t, [], []);
  SPLAY_ASSEMBLE s.1.1 s.1.2 s.2.

(** The loop of SPLAY_MINMAX has no condition. *)
Fixpoint minmax_loop (fuel : nat) (comp : Z) (s : splay_state) : option splay_state :=
  match fuel with
  | O => None
  | S fuel' => bs ← splay_body (fun _ => comp) s; if (bs.1 : bool) then Some bs.2 else minmax_loop fuel' comp bs.2
  end.

Definition SPLAY_MINMAX t (comp : Z) : option (stree E) :=
  s ← minmax_loop (ssize t) comp (t, [], []);
  SPLAY_ASSEMBLE s.1.1 s.1.2 s.2.

Definition SPLAY_ROOT t : option E := match t with SNode _ x _ => Some x | SLeaf => None end.

Definition SPLAY_NEGINF : Z := -1.
Definition SPLAY_INF : Z := 1.

(** The tree after SPLAY_MIN, SPLAY_MAX and their results. *)
Definition SPLAY_MIN_MAX t (val : Z) : option (stree E * option E) :=
  if SPLAY_EMPTY t then Some (t, None)
  else t' ← SPLAY_MINMAX t val; Some (t', SPLAY_ROOT t').

Definition SPLAY_MIN t := SPLAY_MIN_MAX t SPLAY_NEGINF.
Definition SPLAY_MAX t := SPLAY_MIN_MAX t SPLAY_INF.

Definition SPLAY_FIND t elm : option (stree E * option E) :=
  if SPLAY_EMPTY t then Some (t, None)
  else
    t' ← SPLAY t elm;
    x ← SPLAY_ROOT t';
    Some (t', if cmp elm x =? 0 then Some x else None).

Fixpoint leftmost_of (x : E) (t : stree E) : E :=
  match t with SLeaf => x | SNode l y _ => leftmost_of y l end.

(** SPLAY_NEXT of an element of the tree; a node that is not in it would be read
    with its old links. *)
Definition SPLAY_NEXT t elm : option (stree E * option E) :=
  t' ← SPLAY t elm;
  match t' with
  | SNode _ x r =>
      if cmp elm x =? 0
      then Some (t', match r with SNode l y _ => Some (leftmost_of y l) | SLeaf => None end)
      else None
  | SLeaf => None
  end.

Definition SPLAY_INSERT t elm : option (stree E * option E) :=
  if SPLAY_EMPTY t then Some (SNode SLeaf elm SLeaf, None)
  else
    t' ← SPLAY t elm;
    match t' with
    | SNode l x r =>
        let comp := cmp elm x in
        if comp <? 0 then Some (SNode l elm (SNode SLeaf x r), None)
        else if 0 <? comp then Some (SNode (SNode l x SLeaf) elm r, None)
        else Some (t', Some x)
    | SLeaf => None
    end.

Definition SPLAY_REMOVE t elm : option (stree E * option E) :=
  if SPLAY_EMPTY t then Some (t, None)
  else
    t' ← SPLAY t elm;
    match t' with
    | SNode l x r =>
        if cmp elm x =? 0 then
          match l with
          | SLeaf => Some (r, Some elm)
          | _ =>
              l' ← SPLAY l elm;
              match l' with SNode a y _ => Some (SNode a y r, Some elm) | SLeaf => None end
          end
        else Some (t', None)
    | SLeaf => None
    end.

(** The elements SPLAY_FOREACH visits, and the tree after it. *)
Fixpoint sforeach_from (fuel : nat) (t : stree E) (x : option E) : option (stree E * list E) :=
  match x, fuel with
  | None, _ => Some (t, [])
  | Some e, S fuel' =>
      tn ← SPLAY_NEXT t e;
      tl ← sforeach_from fuel' tn.1 tn.2;
      Some (tl.1, e :: tl.2)
  | Some _, O => None
  end.

Definition SPLAY_FOREACH t : option (stree E * list E) :=
  tm ← SPLAY_MIN t; sforeach_from (ssize t) tm.1 tm.2.

(** * Specification *)

Definition sorted (l : list E) : Prop := StronglySorted (fun x y => cmp x y < 0) l.

(** Operations on a tree, with the elements they return. *)
Inductive sop : Type :=
| SpInsert (e : E)
| SpRemove (e : E)
| SpFind (e : E)
| SpNext (e : E)
| SpMin
| SpMax
| SpForeach.

Definition sp_exec (o : sop) t : option (stree E * list E) :=
  let ret1 (r : option (stree E * option E)) := (fun p => (p.1, option_list p.2)) <$> r in
  match o with
  | SpInsert e => ret1 (SPLAY_INSERT t e)
  | SpRemove e => ret1 (SPLAY_REMOVE t e)
  | SpFind e => ret1 (SPLAY_FIND t e)
  | SpNext e => ret1 (SPLAY_NEXT t e)
  | SpMin => ret1 (SPLAY_MIN t)
  | SpMax => ret1 (SPLAY_MAX t)
  | SpForeach => SPLAY_FOREACH t
  end.

(** The same on a sorted list: what is below, equal to and above a key. *)
Definition below (e : E) (l : list E) : list E := List.filter (fun x => 0 <? cmp e x) l.
Definition same (e : E) (l : list E) : list E := List.filter (fun x => cmp e x =? 0) l.
Definition above (e : E) (l : list E) : list E := List.filter (fun x => cmp e x <? 0) l.

Definition sp_spec (o : sop) (l : list E) : option (list E * list E) :=
  match o with
  | SpInsert e => Some (match same e l with [] => (below e l ++ e :: above e l, []) | xs => (l, xs) end)
  | SpRemove e => Some (below e l ++ above e l, match same e l with [] => [] | _ => [e] end)
  | SpFind e => Some (l, same e l)
  | SpNext e => match same e l with [] => None | _ => Some (l, option_list (head (above e l))) end
  | SpMin => Some (l, option_list (head l))
  | SpMax => Some (l, option_list (list.last l))
  | SpForeach => Some (l, l)
  end.

Fixpoint sp_run {S} (f : sop -> S -> option (S * list E)) (ops : list sop) (s : S) : option (S * list (list E)) :=
  match ops with
  | [] => Some (s, [])
  | o :: ops' => sr ← f o s; sn ← sp_run f ops' sr.1; Some (sn.1, sr.2 :: sn.2)
  end.

End operations.

(** * Proofs *)

Section chains.
Context {E : Type}.
Implicit Types (t : stree E) (c : E -> Z).

(** The elements of the chains, in order. *)
Fixpoint lelems (A : list (stree E * E)) : list E :=
  match A with [] => [] | (l, x) :: A' => elems l ++ x :: lelems A' end.

Fixpoint relems (B : list (E * stree E)) : list E :=
  match B with [] => [] | (x, r) :: B' => relems B' ++ x :: elems r end.

Lemma lelems_snoc A l x : lelems (A ++ [(l, x)]) = lelems A ++ elems l ++ [x].
Proof. induction A as [|[l' y] A IH]; cbn; [done|]. rewrite IH, <-!app_assoc. done. Qed.

Lemma relems_snoc B x r : relems (B ++ [(x, r)]) = x :: elems r ++ relems B.
Proof. induction B as [|[y r'] B IH]; cbn; [by rewrite app_nil_r|]. rewrite IH. cbn. by rewrite <-app_assoc. Qed.

Lemma elems_close_left A t : elems (close_left A t) = lelems A ++ elems t.
Proof. induction A as [|[l x] A IH]; cbn; [done|]. rewrite IH, <-app_assoc. done. Qed.

Lemma elems_close_right B t : elems (close_right B t) = elems t ++ relems B.
Proof. induction B as [|[x r] B IH]; cbn; [by rewrite app_nil_r|]. rewrite IH, <-app_assoc. done. Qed.

(** The elements of a state. *)
Definition selems (s : splay_state) : list E := lelems s.1.2 ++ elems s.1.1 ++ relems s.2.

Lemma assemble_elems t A B t' : SPLAY_ASSEMBLE t A B = Some t' -> elems t' = selems (t, A, B).
Proof.
  destruct t as [|l x r]; cbn; [done|]. intros [= <-]. cbn. rewrite elems_close_left, elems_close_right.
  unfold selems. cbn. by rewrite <-!app_assoc.
Qed.

(** [c] compares a key with elements in their order. *)
Definition ordered c (x y : E) : Prop := (c x <= 0 -> c y < 0) /\ (0 <= c y -> 0 < c x).

Definition split_by c (s : splay_state) : Prop :=
  StronglySorted (ordered c) (selems s) /\
  (forall x, x ∈ lelems s.1.2 -> 0 < c x) /\ (forall x, x ∈ relems s.2 -> c x < 0).

(** Where the loop ends: the key is at the root or would be next to it. *)
Definition at_key c t : Prop :=
  exists l x r, t = SNode l x r /\ (c x = 0 \/ (c x < 0 /\ l = SLeaf) \/ (0 < c x /\ r = SLeaf)).

Lemma ordered_mid c l x k :
  StronglySorted (ordered c) (l ++ x :: k) ->
  (0 <= c x -> forall y, y ∈ l -> 0 < c y) /\ (c x <= 0 -> forall y, y ∈ k -> c y < 0).
Proof.
  rewrite StronglySorted_app. intros (Hlx & _ & Hk). apply StronglySorted_inv in Hk as [_ Hk].
  rewrite list.Forall_forall in Hk. split.
  - intros Hc y Hy. destruct (Hlx y x Hy ltac:(left)) as [_ Ho]. auto.
  - intros Hc y Hy. destruct (Hk y Hy) as [Ho _]. auto.
Qed.

(** Rotations and links keep the elements. *)
Lemma rotate_right_elems t t' : SPLAY_ROTATE_RIGHT t = Some t' -> elems t' = elems t.
Proof. destruct t as [|[|ll y lr] x r]; cbn; [done..|]. intros [= <-]. cbn. by rewrite <-app_assoc. Qed.

Lemma rotate_left_elems t t' : SPLAY_ROTATE_LEFT t = Some t' -> elems t' = elems t.
Proof. destruct t as [|l x [|rl y rr]]; cbn; [done..|]. intros [= <-]. cbn. by rewrite <-app_assoc. Qed.

Lemma link_left_step c l x r A B :
  c x < 0 -> split_by c (SNode l x r, A, B) -> split_by c (l, A, B ++ [(x, r)]) /\
  selems (l, A, B ++ [(x, r)]) = selems (SNode l x r, A, B).
Proof.
  intros Hc (Hs & HA & HB).
  assert (selems (l, A, B ++ [(x, r)]) = selems (SNode l x r, A, B)) as El.
  { unfold selems. cbn [fst snd elems]. rewrite relems_snoc, <-app_assoc. done. }
  split; [|done]. split; [by rewrite El|]. split; [done|]. cbn [snd]. rewrite relems_snoc.
  unfold selems in Hs. cbn [fst snd elems] in Hs. rewrite <-app_assoc, app_assoc in Hs. cbn in Hs.
  apply ordered_mid in Hs as [_ Hr]. intros y [->|Hy]%elem_of_cons; [done|]. apply Hr; [lia|done].
Qed.

Lemma link_right_step c l x r A B :
  0 < c x -> split_by c (SNode l x r, A, B) -> split_by c (r, A ++ [(l, x)], B) /\
  selems (r, A ++ [(l, x)], B) = selems (SNode l x r, A, B).
Proof.
  intros Hc (Hs & HA & HB).
  assert (selems (r, A ++ [(l, x)], B) = selems (SNode l x r, A, B)) as El.
  { unfold selems. cbn [fst snd elems]. rewrite lelems_snoc, <-!app_assoc. done. }
  split; [|done]. split; [by rewrite El|]. split; [|done]. cbn [fst snd]. rewrite lelems_snoc.
  unfold selems in Hs. cbn [fst snd elems] in Hs. rewrite <-app_assoc, app_assoc in Hs. cbn in Hs.
  apply ordered_mid in Hs as [Hl _]. intros y. rewrite app_assoc. intros [Hy|Hy]%elem_of_app; [apply Hl; [lia|done]|].
  apply list_elem_of_singleton in Hy. by subst.
Qed.

Lemma split_by_root c t t' A B : elems t' = elems t -> split_by c (t, A, B) -> split_by c (t', A, B) /\ selems (t', A, B) = selems (t, A, B).
Proof. intros El (Hs & HA & HB). unfold split_by, selems in *. cbn in *. by rewrite El. Qed.

(** One round of the loop. *)
Lemma splay_body_spec c l x r A B :
  c x <> 0 -> split_by c (SNode l x r, A, B) ->
  exists b s', splay_body c (SNode l x r, A, B) = Some (b, s') /\ split_by c s' /\ selems s' = selems (SNode l x r, A, B) /\
    if (b : bool) then at_key c s'.1.1 else s'.1.1 <> SLeaf /\ (ssize s'.1.1 < ssize (SNode l x r))%nat.
Proof.
  intros Hx Hs. cbn -[elems]. destruct (c x <? 0) eqn:E1; [|destruct (0 <? c x) eqn:E2]; bool_props; [| |lia].
  - destruct l as [|ll y lr]; [eexists true, _; split_and!; [done..|]; eexists _, x, r; split; [done|tauto]|].
    destruct (c y <? 0) eqn:E3; bool_props; cbn -[elems].
    + destruct (split_by_root c _ (SNode ll y (SNode lr x r)) A B (rotate_right_elems (SNode (SNode ll y lr) x r) _ eq_refl) Hs) as [Hs1 El1].
      destruct ll as [|lll z llr]; cbn -[elems ssize].
      * eexists true, _. split_and!; [done..|]. eexists _, y, _. split; [done|tauto].
      * destruct (link_left_step c _ _ _ _ _ E3 Hs1) as [Hs2 El2]. eexists false, _. split_and!; [done|exact Hs2|exact (eq_trans El2 El1)|done|cbn; lia].
    + destruct (link_left_step c _ _ _ _ _ E1 Hs) as [Hs2 El2]. eexists false, _. split_and!; [done|exact Hs2|done|done|cbn; lia].
  - destruct r as [|rl y rr]; [eexists true, _; split_and!; [done..|]; eexists l, x, _; split; [done|tauto]|].
    destruct (0 <? c y) eqn:E3; bool_props; cbn -[elems].
    + destruct (split_by_root c _ (SNode (SNode l x rl) y rr) A B (rotate_left_elems (SNode l x (SNode rl y rr)) _ eq_refl) Hs) as [Hs1 El1].
      destruct rr as [|rrl z rrr]; cbn -[elems ssize].
      * eexists true, _. split_and!; [done..|]. eexists _, y, _. split; [done|tauto].
      * destruct (link_right_step c _ _ _ _ _ E3 Hs1) as [Hs2 El2]. eexists false, _. split_and!; [done|exact Hs2|exact (eq_trans El2 El1)|done|cbn; lia].
    + destruct (link_right_step c _ _ _ _ _ E2 Hs) as [Hs2 El2]. eexists false, _. split_and!; [done|exact Hs2|done|done|cbn; lia].
Qed.

(** The loop ends with enough fuel. *)
Lemma splay_loop_spec c fuel s :
  split_by c s -> s.1.1 <> SLeaf -> (ssize s.1.1 <= fuel)%nat ->
  exists s', splay_loop fuel c s = Some s' /\ split_by c s' /\ selems s' = selems s /\ at_key c s'.1.1.
Proof.
  revert s; induction fuel as [|fuel IH]; intros [[t A] B] Hs Ht Hf; cbn [fst] in *.
  { destruct t; cbn in *; [done|lia]. }
  destruct t as [|l x r]; [done|]. cbn [splay_loop fst]. destruct (Z.eqb_spec (c x) 0) as [E0|E0].
  { eexists. split_and!; [done..|]. exists l, x, r. split; [done|by left]. }
  destruct (splay_body_spec c l x r A B E0 Hs) as (b & s' & -> & Hs' & El & Hb). cbn [mbind option_bind fst snd].
  destruct b; [by exists s'|]. destruct Hb as [Hne Hlt].
  destruct (IH s' Hs' Hne ltac:(lia)) as (s2 & E2 & Hs2 & El2 & Hk). exists s2. split_and!; [done..|congruence|done].
Qed.

(** SPLAY_MINMAX is the same loop for a key outside of the tree; with 0 it would
    never end. *)
Lemma minmax_loop_eq fuel comp (s : @splay_state E) : comp <> 0 -> minmax_loop fuel comp s = splay_loop fuel (fun _ => comp) s.
Proof.
  intros Hc. revert s; induction fuel as [|fuel IH]; intros [[t A] B]; [done|].
  cbn [minmax_loop splay_loop fst]. destruct t as [|l x r]; [done|]. rewrite (proj2 (Z.eqb_neq _ _) Hc).
  destruct (splay_body (fun _ => comp) (SNode l x r, A, B)) as [[[] s']|]; cbn; [done|apply IH|done].
Qed.

Lemma minmax_loop_zero fuel (s : @splay_state E) : minmax_loop fuel 0 s = None.
Proof. revert s; induction fuel as [|fuel IH]; intros [[t A] B]; [done|]. destruct t as [|l x r]; [done|]. apply IH. Qed.

(** The tree after the loop and SPLAY_ASSEMBLE. *)
Definition splayed c (l0 : list E) (t : stree E) : Prop :=
  exists l x r, t = SNode l x r /\ elems l ++ x :: elems r = l0 /\
    (forall y, y ∈ elems l -> 0 < c y) /\ (forall y, y ∈ elems r -> c y < 0).

Lemma splay_assembled c t :
  t <> SLeaf -> StronglySorted (ordered c) (elems t) ->
  exists s t', splay_loop (ssize t) c (t, [], []) = Some s /\ SPLAY_ASSEMBLE s.1.1 s.1.2 s.2 = Some t' /\ splayed c (elems t) t'.
Proof.
  intros Ht Hs. assert (selems (t, [], []) = elems t) as E0 by (unfold selems; cbn; by rewrite app_nil_r).
  destruct (splay_loop_spec c (ssize t) (t, [], [])) as ([[t1 A] B] & E1 & (Hs1 & HA & HB) & El & l & x & r & Et & Hk).
  { split; [by rewrite E0|]. split; intros ? ?%not_elem_of_nil; done. } { done. } { done. }
  cbn [fst snd] in *. subst t1. eexists _, _. split; [done|]. split; [done|].
  exists (close_left A l), x, (close_right B r). split; [done|]. rewrite elems_close_left, elems_close_right.
  unfold selems in *. cbn [fst snd elems] in *. split; [rewrite <-E0, <-El, <-!app_assoc; done|].
  rewrite <-app_assoc, app_assoc in Hs1. cbn [app] in Hs1. apply ordered_mid in Hs1 as [H1 H2].
  split; intros y Hy.
  - destruct Hk as [Hx|[[Hx ->]|[Hx _]]]; [apply H1; [lia|done]| |apply H1; [lia|done]].
    cbn in Hy. rewrite app_nil_r in Hy. by apply HA.
  - destruct Hk as [Hx|[[Hx _]|[Hx ->]]]; [apply H2; [lia|done]..|]. cbn in Hy. by apply HB.
Qed.

End chains.

Section correct.
Context {E : Type} (cmp : E -> E -> Z) {Hcmp : OrdCmp cmp}.
Implicit Types (t : stree E) (e : E) (l : list E).

Lemma filter_all (f : E -> bool) l : (forall x, x ∈ l -> f x = true) -> List.filter f l = l.
Proof. induction l as [|x l IH]; intros Hl; cbn; [done|]. rewrite (Hl x) by left. f_equal. apply IH. intros; apply Hl. by right. Qed.

Lemma filter_none (f : E -> bool) l : (forall x, x ∈ l -> f x = false) -> List.filter f l = [].
Proof. induction l as [|x l IH]; intros Hl; cbn; [done|]. rewrite (Hl x) by left. apply IH. intros; apply Hl. by right. Qed.

(** The three parts of a list around an element that separates it. *)
Lemma parts_split e a x b :
  (forall y, y ∈ a -> 0 < cmp e y) -> (forall y, y ∈ b -> cmp e y < 0) ->
  below cmp e (a ++ x :: b) = a ++ (if 0 <? cmp e x then [x] else []) /\
  same cmp e (a ++ x :: b) = (if cmp e x =? 0 then [x] else []) /\
  above cmp e (a ++ x :: b) = (if cmp e x <? 0 then [x] else []) ++ b.
Proof.
  intros Ha Hb. unfold below, same, above. rewrite !List.filter_app. cbn. split_and!.
  - rewrite filter_all by (intros y Hy; apply Z.ltb_lt; auto).
    rewrite (filter_none _ b) by (intros y Hy; apply Z.ltb_ge; specialize (Hb y Hy); lia). by case_match.
  - rewrite filter_none by (intros y Hy; apply Z.eqb_neq; specialize (Ha y Hy); lia).
    rewrite (filter_none _ b) by (intros y Hy; apply Z.eqb_neq; specialize (Hb y Hy); lia). by case_match.
  - rewrite filter_none by (intros y Hy; apply Z.ltb_ge; specialize (Ha y Hy); lia).
    rewrite (filter_all _ b) by (intros y Hy; apply Z.ltb_lt; auto). by case_match.
Qed.

Lemma sorted_weaken (P Q : E -> E -> Prop) l : (forall x y, P x y -> Q x y) -> StronglySorted P l -> StronglySorted Q l.
Proof.
  intros Hpq. induction 1 as [|x l _ IH Hx]; constructor; [done|].
  rewrite list.Forall_forall in *. auto.
Qed.

Lemma sorted_ordered e l : sorted cmp l -> StronglySorted (ordered (cmp e)) l.
Proof.
  apply sorted_weaken. intros x y Hxy. split; intros He.
  - by apply (cmp_le_lt_trans cmp e x y).
  - apply (cmp_gt_lt cmp). apply (cmp_lt_le_trans cmp x y e); [done|].
    destruct (Z.eq_dec (cmp e y) 0) as [E0|]; [rewrite (cmp_eq_sym cmp _ _ E0); lia|].
    assert (cmp y e < 0); [apply (cmp_gt_lt cmp); lia|lia].
Qed.

Lemma SPLAY_spec t e : t <> SLeaf -> sorted cmp (elems t) ->
  exists t', SPLAY cmp t e = Some t' /\ splayed (cmp e) (elems t) t'.
Proof.
  intros Ht Hs. destruct (splay_assembled (cmp e) t Ht (sorted_ordered e _ Hs)) as (s & t' & E1 & E2 & Hsp).
  exists t'. unfold SPLAY. rewrite E1. done.
Qed.

Lemma SPLAY_MINMAX_spec t comp : comp <> 0 -> t <> SLeaf -> sorted cmp (elems t) ->
  exists t', SPLAY_MINMAX t comp = Some t' /\ splayed (fun _ => comp) (elems t) t'.
Proof.
  intros Hc Ht Hs. destruct (splay_assembled (fun _ => comp) t Ht) as (s & t' & E1 & E2 & Hsp).
  - eapply sorted_weaken; [|exact Hs]. intros x y _. split; lia.
  - exists t'. unfold SPLAY_MINMAX. rewrite minmax_loop_eq by done. rewrite E1. done.
Qed.

Lemma find_ok t e : sorted cmp (elems t) ->
  exists t', SPLAY_FIND cmp t e = Some (t', head (same cmp e (elems t))) /\ elems t' = elems t /\
    option_list (head (same cmp e (elems t))) = same cmp e (elems t).
Proof.
  intros Hs. unfold SPLAY_FIND. destruct t as [|l0 x0 r0]; [by eexists|]. cbn [SPLAY_EMPTY].
  destruct (SPLAY_spec (SNode l0 x0 r0) e) as (t' & -> & l & x & r & -> & El & Hl & Hr); [done..|]. cbn [mbind option_bind SPLAY_ROOT].
  rewrite <-El. destruct (parts_split e _ x _ Hl Hr) as (_ & -> & _). eexists. split; [by case_match|]. split; [done|by case_match].
Qed.

Lemma insert_ok t e : sorted cmp (elems t) ->
  exists t', (same cmp e (elems t) = [] /\ SPLAY_INSERT cmp t e = Some (t', None) /\
              elems t' = below cmp e (elems t) ++ e :: above cmp e (elems t)) \/
    (exists x, same cmp e (elems t) = [x] /\ SPLAY_INSERT cmp t e = Some (t', Some x) /\ elems t' = elems t).
Proof.
  intros Hs. unfold SPLAY_INSERT. destruct t as [|l0 x0 r0]; [eexists; by left|]. cbn [SPLAY_EMPTY].
  destruct (SPLAY_spec (SNode l0 x0 r0) e) as (t' & -> & l & x & r & -> & El & Hl & Hr); [done..|]. cbn [mbind option_bind].
  rewrite <-El. destruct (parts_split e _ x _ Hl Hr) as (-> & -> & ->).
  destruct (cmp e x <? 0) eqn:E1; [|destruct (0 <? cmp e x) eqn:E2]; bool_props.
  - eexists. left. rewrite (proj2 (Z.ltb_ge _ _)), (proj2 (Z.eqb_neq _ _)), app_nil_r by lia. done.
  - exists (SNode (SNode l x SLeaf) e r). left. rewrite (proj2 (Z.eqb_neq _ _)) by lia. done.
  - eexists. right. exists x. rewrite (proj2 (Z.eqb_eq _ _)) by lia. done.
Qed.

(** Behind the removed root: its left subtree splayed for the removed key has an
    empty right subtree. *)
Lemma remove_ok t e : sorted cmp (elems t) ->
  exists t', SPLAY_REMOVE cmp t e = Some (t', match same cmp e (elems t) with [] => None | _ => Some e end) /\
    elems t' = below cmp e (elems t) ++ above cmp e (elems t).
Proof.
  intros Hs. unfold SPLAY_REMOVE. destruct t as [|l0 x0 r0]; [by eexists|]. cbn [SPLAY_EMPTY].
  destruct (SPLAY_spec (SNode l0 x0 r0) e) as (t' & -> & l & x & r & -> & El & Hl & Hr); [done..|]. cbn [mbind option_bind].
  rewrite <-El in *. destruct (parts_split e _ x _ Hl Hr) as (-> & -> & ->).
  destruct (Z.eqb_spec (cmp e x) 0) as [E0|E0].
  2:{ eexists. split; [done|]. cbn. rewrite <-app_assoc. destruct (0 <? cmp e x) eqn:E1, (cmp e x <? 0) eqn:E2; bool_props; try done; lia. }
  rewrite E0. cbn [Z.ltb Z.compare]. rewrite app_nil_r. destruct l as [|ll y lr]; [by eexists|].
  destruct (SPLAY_spec (SNode ll y lr) e) as (l' & -> & a & z & b & -> & El' & Ha & Hb); [done| |].
  { apply StronglySorted_app in Hs as (_ & Hs & _). done. }
  cbn [mbind option_bind]. eexists. split; [done|]. destruct b as [|bl u br].
  - cbn [elems] in *. rewrite <-El'. by rewrite <-app_assoc.
  - assert (u ∈ elems (SNode ll y lr)) as Hu by (rewrite <-El'; cbn [elems]; set_solver).
    specialize (Hl u Hu). specialize (Hb u ltac:(cbn [elems]; set_solver)). lia.
Qed.

Lemma leftmost_head (x : E) t r : head (elems (SNode t x r)) = Some (leftmost_of x t).
Proof.
  revert x r; induction t as [|tl IH y tr _]; intros x r; [done|]. cbn [leftmost_of]. rewrite <-(IH y tr).
  cbn. rewrite <-app_assoc. by destruct (elems tl).
Qed.

Lemma next_ok t e : sorted cmp (elems t) -> same cmp e (elems t) <> [] ->
  exists t', SPLAY_NEXT cmp t e = Some (t', head (above cmp e (elems t))) /\ elems t' = elems t.
Proof.
  intros Hs Hsame. unfold SPLAY_NEXT. destruct t as [|l0 x0 r0]; [done|].
  destruct (SPLAY_spec (SNode l0 x0 r0) e) as (t' & -> & l & x & r & -> & El & Hl & Hr); [done..|]. cbn [mbind option_bind].
  rewrite <-El in *. destruct (parts_split e _ x _ Hl Hr) as (_ & Es & ->). rewrite Es in Hsame.
  destruct (Z.eqb_spec (cmp e x) 0) as [E0|]; [|done]. rewrite E0. cbn [Z.ltb Z.compare app].
  exists (SNode l x r). split; [|done]. destruct r as [|rl y rr]; [done|]. by rewrite leftmost_head.
Qed.

Lemma min_ok t : sorted cmp (elems t) -> exists t', SPLAY_MIN t = Some (t', head (elems t)) /\ elems t' = elems t.
Proof.
  intros Hs. unfold SPLAY_MIN, SPLAY_MIN_MAX. destruct t as [|l0 x0 r0]; [by eexists|]. cbn [SPLAY_EMPTY].
  destruct (SPLAY_MINMAX_spec (SNode l0 x0 r0) SPLAY_NEGINF) as (t' & -> & l & x & r & -> & El & Hl & Hr); [done..|].
  exists (SNode l x r). split; [|exact El]. rewrite <-El. destruct (elems l) as [|y k]; [done|]. by specialize (Hl y ltac:(left)).
Qed.

Lemma max_ok t : sorted cmp (elems t) -> exists t', SPLAY_MAX t = Some (t', list.last (elems t)) /\ elems t' = elems t.
Proof.
  intros Hs. unfold SPLAY_MAX, SPLAY_MIN_MAX. destruct t as [|l0 x0 r0]; [by eexists|]. cbn [SPLAY_EMPTY].
  destruct (SPLAY_MINMAX_spec (SNode l0 x0 r0) SPLAY_INF) as (t' & -> & l & x & r & -> & El & Hl & Hr); [done..|].
  exists (SNode l x r). split; [|exact El]. rewrite <-El. destruct (elems r) as [|y k]; [by rewrite list.last_snoc|].
  by specialize (Hr y ltac:(left)).
Qed.

(** The loop of SPLAY_FOREACH from an element on. *)
Lemma sforeach_ok fuel t a k : sorted cmp (elems t) -> elems t = a ++ k -> (length k <= fuel)%nat ->
  exists t', sforeach_from cmp fuel t (head k) = Some (t', k) /\ elems t' = elems t.
Proof.
  revert t a k; induction fuel as [|fuel IH]; intros t a [|e k] Hs El Hf; cbn in Hf; [by eexists|lia|by eexists|].
  assert (Hp : (forall y, y ∈ a -> 0 < cmp e y) /\ forall y, y ∈ k -> cmp e y < 0).
  { unfold sorted in Hs. rewrite El in Hs. apply sorted_mid in Hs as (Ha & Hk & _). split; [|done].
    intros y Hy. apply (cmp_gt_lt cmp). auto. }
  destruct (parts_split e a e k (proj1 Hp) (proj2 Hp)) as (_ & Es & Ea). rewrite (cmp_refl e) in Es, Ea. cbn in Es, Ea.
  destruct (next_ok t e Hs) as (t1 & E1 & El1); [by rewrite El, Es|]. rewrite El, Ea in E1. cbn [head sforeach_from].
  rewrite E1. cbn [mbind option_bind fst snd]. destruct (IH t1 (a ++ [e]) k) as (t2 & -> & El2); [by rewrite El1| |lia|].
  { by rewrite El1, El, <-app_assoc. }
  cbn. eexists. split; [done|]. congruence.
Qed.

Lemma length_elems t : length (elems t) = ssize t.
Proof. induction t as [|l IHl x r IHr]; cbn; [done|]. rewrite length_app. cbn. lia. Qed.

Lemma foreach_ok t : sorted cmp (elems t) -> exists t', SPLAY_FOREACH cmp t = Some (t', elems t) /\ elems t' = elems t.
Proof.
  intros Hs. unfold SPLAY_FOREACH. destruct (min_ok t Hs) as (t1 & -> & El1). cbn [mbind option_bind fst snd].
  rewrite <-El1. destruct (sforeach_ok (ssize t) t1 [] (elems t1)) as (t2 & -> & El2); [by rewrite El1|done| |].
  - rewrite El1, length_elems. done.
  - eexists. split; [done|done].
Qed.

(** The specification keeps the order. *)
Lemma sorted_parts e l : sorted cmp l -> sorted cmp (below cmp e l ++ above cmp e l) /\ sorted cmp (below cmp e l ++ e :: above cmp e l).
Proof.
  intros Hs. assert (forall f, sorted cmp (List.filter f l)) as Hf.
  { intros f. unfold sorted in *. induction Hs as [|x k Hk IH Hx]; cbn; [constructor|]. case_match; [|done]. constructor; [done|].
    rewrite list.Forall_forall in *. intros y Hy. apply Hx. apply list_elem_of_In, List.filter_In in Hy as [Hy _].
    by apply list_elem_of_In. }
  assert (forall x y, x ∈ below cmp e l -> y ∈ above cmp e l -> cmp x e < 0 /\ cmp e y < 0) as Hba.
  { intros x y Hx Hy. apply list_elem_of_In, List.filter_In in Hx as [_ Hx], Hy as [_ Hy]. bool_props. split; [by apply (cmp_gt_lt cmp)|done]. }
  split.
  - apply StronglySorted_app. split_and!; [|apply Hf..]. intros x y Hx Hy. destruct (Hba x y Hx Hy).
    apply (cmp_lt_le_trans cmp x e y); [done|lia].
  - apply StronglySorted_app. split_and!; [|apply Hf|].
    + intros x y Hx [->|Hy]%elem_of_cons.
      * apply list_elem_of_In, List.filter_In in Hx as [_ Hx]. bool_props. by apply (cmp_gt_lt cmp).
      * destruct (Hba x y Hx Hy). apply (cmp_lt_le_trans cmp x e y); [done|lia].
    + constructor; [apply Hf|]. apply list.Forall_forall. intros y Hy. apply list_elem_of_In, List.filter_In in Hy as [_ Hy]. by bool_props.
Qed.

Lemma sp_exec_refines o t l' out :
  sorted cmp (elems t) -> sp_spec cmp o (elems t) = Some (l', out) ->
  exists t', sp_exec cmp o t = Some (t', out) /\ elems t' = l' /\ sorted cmp l'.
Proof.
  intros Hs. destruct o as [e|e|e|e| | |]; cbn [sp_spec sp_exec].
  - destruct (insert_ok t e Hs) as (t' & [(Es & E1 & El)|(x & Es & E1 & El)]); rewrite Es, E1; intros [= <- <-]; eexists.
    + split; [done|]. split; [done|]. by apply sorted_parts.
    + done.
  - destruct (remove_ok t e Hs) as (t' & -> & El). intros [= <- <-]. eexists. cbn. split; [by case_match|].
    split; [done|]. by apply sorted_parts.
  - destruct (find_ok t e Hs) as (t' & -> & El & Eo). intros [= <- <-]. eexists. cbn. rewrite Eo. done.
  - destruct (same cmp e (elems t)) eqn:Es; [done|]. destruct (next_ok t e Hs) as (t' & -> & El); [by rewrite Es|].
    intros [= <- <-]. by eexists.
  - destruct (min_ok t Hs) as (t' & -> & El). intros [= <- <-]. by eexists.
  - destruct (max_ok t Hs) as (t' & -> & El). intros [= <- <-]. by eexists.
  - destruct (foreach_ok t Hs) as (t' & -> & El). intros [= <- <-]. by eexists.
Qed.


End correct.

