(* ===== verification/RbMem.v ===== *)
(** The red-black trees of src/csf/include/tree.h on linked memory: the macros as
    they assign and follow the pointers [rbe_left], [rbe_right] and [rbe_parent],
    statement by statement. A computation takes the memory and has no result when it
    follows NULL or a pointer to nothing. *)

From S2P Require Import Prelude RbTree.

(** * Memory *)

(** A pointer to an element. *)
Abbreviation rbp := (option nat).

(** RB_ENTRY. *)
Record rb_entry : Type := mk_ent {
  rbe_left : rbp;
  rbe_right : rbp;
  rbe_parent : rbp;
  rbe_color : color
}.

(** The heads ([rbh_root] of RB_HEAD) and the entries of the elements. *)
Record rb_mem : Type := mk_rb { rb_heads : gmap nat rbp; rb_ents : gmap nat rb_entry }.

Definition set_heads (hs : gmap nat rbp) (m : rb_mem) : rb_mem := mk_rb hs (rb_ents m).
Definition set_ents (es : gmap nat rb_entry) (m : rb_mem) : rb_mem := mk_rb (rb_heads m) es.

(** Computations on the memory. *)
Definition rbM (A : Type) : Type := rb_mem -> option (A * rb_mem).

Definition rb_ret {A} (a : A) : rbM A := fun m => Some (a, m).
Definition rb_bind {A B} (e : rbM A) (k : A -> rbM B) : rbM B := fun m => r ← e m; k r.1 r.2.
Definition rb_fail {A} : rbM A := fun _ => None.

Notation "x <- e ;; k" := (rb_bind e (fun x => k)) (at level 100, e at next level, k at level 200, right associativity) : csf_scope.
Notation "e ;;; k" := (rb_bind e (fun _ => k)) (at level 100, k at level 200, right associativity) : csf_scope.

(** A field of the element a pointer leads to, and an assignment to it. *)
Definition rb_get {A} (f : rb_entry -> A) (p : rbp) : rbM A := fun m =>
  x ← p; e ← rb_ents m !! x; Some (f e, m).
Definition rb_put (f : rb_entry -> rb_entry) (p : rbp) : rbM unit := fun m =>
  x ← p; e ← rb_ents m !! x; Some (tt, set_ents (<[x:=f e]> (rb_ents m)) m).

Definition RB_LEFT : rbp -> rbM rbp := rb_get rbe_left.
Definition RB_RIGHT : rbp -> rbM rbp := rb_get rbe_right.
Definition RB_PARENT : rbp -> rbM rbp := rb_get rbe_parent.
Definition RB_COLOR : rbp -> rbM color := rb_get rbe_color.

Definition set_left (v : rbp) : rbp -> rbM unit := rb_put (fun e => mk_ent v (rbe_right e) (rbe_parent e) (rbe_color e)).
Definition set_right (v : rbp) : rbp -> rbM unit := rb_put (fun e => mk_ent (rbe_left e) v (rbe_parent e) (rbe_color e)).
Definition set_parent (v : rbp) : rbp -> rbM unit := rb_put (fun e => mk_ent (rbe_left e) (rbe_right e) v (rbe_color e)).
Definition put_color (c : color) : rbp -> rbM unit := rb_put (fun e => mk_ent (rbe_left e) (rbe_right e) (rbe_parent e) c).

Definition RB_ROOT (h : nat) : rbM rbp := fun m => p ← rb_heads m !! h; Some (p, m).
Definition set_root (h : nat) (v : rbp) : rbM unit := fun m =>
  _ ← rb_heads m !! h; Some (tt, set_heads (<[h:=v]> (rb_heads m)) m).

(** The number of elements, which no walk along the pointers of a tree exceeds. *)
Definition rb_fuel : rbM nat := fun m => Some (size (rb_ents m), m).

Definition same_ptr (p q : rbp) : bool := bool_decide (p = q).
Definition is_RED (c : color) : bool := match c with Red => true | Black => false end.

(** * The macros *)

(** RB_SET and RB_SET_BLACKRED. *)
Definition RB_SET (elm parent : rbp) : rbM unit :=
  set_parent parent elm;;; set_left None elm;;; set_right None elm;;; put_color Red elm.

Definition RB_SET_BLACKRED (black red : rbp) : rbM unit := put_color Black black;;; put_color Red red.

(** [if (p) RB_PARENT(p) = parent], and [p && RB_COLOR(p) == RB_RED]. *)
Definition adopt (p parent : rbp) : rbM unit :=
  match p with Some _ => set_parent parent p | None => rb_ret tt end.

Definition red_at (p : rbp) : rbM bool :=
  match p with Some _ => c <- RB_COLOR p;; rb_ret (is_RED c) | None => rb_ret false end.

(** The pointer to [elm] in its parent, or in the head, is set to [new]. *)
Definition relink (h : nat) (parent elm new : rbp) : rbM unit :=
  match parent with
  | Some _ => l <- RB_LEFT parent;; if same_ptr l elm then set_left new parent else set_right new parent
  | None => set_root h new
  end.

(** RB_ROTATE_LEFT and RB_ROTATE_RIGHT; the result is the final [tmp]. *)
Definition RB_ROTATE_LEFT (h : nat) (elm : rbp) : rbM rbp :=
  tmp <- RB_RIGHT elm;;
  tl <- RB_LEFT tmp;;
  set_right tl elm;;; adopt tl elm;;;
  parent <- RB_PARENT elm;;
  set_parent parent tmp;;; relink h parent elm tmp;;;
  set_left elm tmp;;; set_parent tmp elm;;; rb_ret tmp.

Definition RB_ROTATE_RIGHT (h : nat) (elm : rbp) : rbM rbp :=
  tmp <- RB_LEFT elm;;
  tr <- RB_RIGHT tmp;;
  set_left tr elm;;; adopt tr elm;;;
  parent <- RB_PARENT elm;;
  set_parent parent tmp;;; relink h parent elm tmp;;;
  set_right elm tmp;;; set_parent tmp elm;;; rb_ret tmp.

(** The two branches of RB_INSERT_COLOR and RB_REMOVE_COLOR mirror each other: for the
    branch of the left child ([side] is [true]) [RB_CHILD] is RB_LEFT and [rb_rotate] is
    RB_ROTATE_LEFT. *)
Definition RB_CHILD (side : bool) : rbp -> rbM rbp := if side then RB_LEFT else RB_RIGHT.
Definition rb_rotate (side : bool) (h : nat) (elm : rbp) : rbM rbp :=
  if side then RB_ROTATE_LEFT h elm else RB_ROTATE_RIGHT h elm.

(** The loop of RB_INSERT_COLOR, and the function. *)
Fixpoint insert_color_loop (fuel : nat) (h : nat) (elm : rbp) : rbM unit :=
  match fuel with
  | O => rb_fail
  | S fuel' =>
      parent <- RB_PARENT elm;;
      red <- red_at parent;;
      if negb red then rb_ret tt
      else
        gparent <- RB_PARENT parent;;
        gl <- RB_LEFT gparent;;
        let side := same_ptr parent gl in
        tmp <- RB_CHILD (negb side) gparent;;
        r <- red_at tmp;;
        if (r : bool) then
          put_color Black tmp;;; RB_SET_BLACKRED parent gparent;;; insert_color_loop fuel' h gparent
        else
          inner <- RB_CHILD (negb side) parent;;
          if same_ptr inner elm then
            rb_rotate side h parent;;; RB_SET_BLACKRED elm gparent;;; rb_rotate (negb side) h gparent;;;
            insert_color_loop fuel' h parent
          else
            RB_SET_BLACKRED parent gparent;;; rb_rotate (negb side) h gparent;;; insert_color_loop fuel' h elm
  end.

Definition RB_INSERT_COLOR (h : nat) (elm : rbp) : rbM unit :=
  n <- rb_fuel;; insert_color_loop (S n) h elm;;; root <- RB_ROOT h;; put_color Black root.

(** [if (p) RB_COLOR(p) = RB_BLACK]. *)
Definition blacken (p : rbp) : rbM unit :=
  match p with Some _ => put_color Black p | None => rb_ret tt end.

(** The end of a round of RB_REMOVE_COLOR that leaves the loop: the sibling [tmp] takes
    the colour of the parent and is rotated above it; the new [elm] is the root. *)
Definition remove_last (h : nat) (side : bool) (parent tmp : rbp) : rbM rbp :=
  c <- RB_COLOR parent;;
  put_color c tmp;;; put_color Black parent;;;
  far <- RB_CHILD (negb side) tmp;;
  blacken far;;; rb_rotate side h parent;;; RB_ROOT h.

(** A round from the point where the sibling [tmp] is not red; [continue] is the next
    round, with the new parent and [elm]. *)
Definition remove_round (continue : rbp -> rbp -> rbM rbp) (h : nat) (side : bool) (parent tmp : rbp) : rbM rbp :=
  near <- RB_CHILD side tmp;; rn <- red_at near;;
  far <- RB_CHILD (negb side) tmp;; rf <- red_at far;;
  if negb rn && negb rf then
    put_color Red tmp;;; pp <- RB_PARENT parent;; continue pp parent
  else if negb rf then
    blacken near;;; put_color Red tmp;;; rb_rotate (negb side) h tmp;;;
    tmp <- RB_CHILD (negb side) parent;; remove_last h side parent tmp
  else remove_last h side parent tmp.

(** The loop of RB_REMOVE_COLOR; the result is the [elm] it ends with. *)
Fixpoint remove_color_loop (fuel : nat) (h : nat) (parent elm : rbp) : rbM rbp :=
  match fuel with
  | O => rb_fail
  | S fuel' =>
      red <- red_at elm;;
      root <- RB_ROOT h;;
      if red || same_ptr elm root then rb_ret elm
      else
        l <- RB_LEFT parent;;
        let side := same_ptr l elm in
        tmp <- RB_CHILD (negb side) parent;;
        c <- RB_COLOR tmp;;
        if is_RED c then
          RB_SET_BLACKRED tmp parent;;; rb_rotate side h parent;;;
          tmp <- RB_CHILD (negb side) parent;; remove_round (remove_color_loop fuel' h) h side parent tmp
        else remove_round (remove_color_loop fuel' h) h side parent tmp
  end.

Definition RB_REMOVE_COLOR (h : nat) (parent elm : rbp) : rbM unit :=
  n <- rb_fuel;; elm <- remove_color_loop (S (S n)) h parent elm;; blacken elm.

(** The walk along the left children in RB_REMOVE and RB_NEXT, and the walk to the root that
    calls RB_AUGMENT, which does nothing. *)
Fixpoint walk_left (fuel : nat) (elm : rbp) : rbM rbp :=
  match fuel with
  | O => rb_fail
  | S fuel' => left <- RB_LEFT elm;; match left with Some _ => walk_left fuel' left | None => rb_ret elm end
  end.

Fixpoint augment_up (fuel : nat) (elm : rbp) : rbM unit :=
  match fuel with
  | O => rb_fail
  | S fuel' => up <- RB_PARENT elm;; match up with Some _ => augment_up fuel' up | None => rb_ret tt end
  end.

(** [(elm)->field = (old)->field]. *)
Definition copy_entry (elm old : rbp) : rbM unit := e <- rb_get id old;; rb_put (fun _ => e) elm.

(** RB_REMOVE, from the label [color]. *)
Definition remove_end (h : nat) (c : color) (parent child : rbp) : rbM unit :=
  if is_RED c then rb_ret tt else RB_REMOVE_COLOR h parent child.

(** An element with one child at most is cut out. *)
Definition remove_leafward (h : nat) (elm child : rbp) : rbM unit :=
  parent <- RB_PARENT elm;; c <- RB_COLOR elm;;
  adopt child parent;;; relink h parent elm child;;; remove_end h c parent child.

(** The element [old] with two children: its successor is cut out and takes its place. *)
Definition remove_inner (h : nat) (old : rbp) : rbM unit :=
  n <- rb_fuel;;
  right <- RB_RIGHT old;;
  elm <- walk_left (S n) right;;
  child <- RB_RIGHT elm;; parent <- RB_PARENT elm;; c <- RB_COLOR elm;;
  adopt child parent;;; relink h parent elm child;;;
  ep <- RB_PARENT elm;;
  let parent := if same_ptr ep old then elm else parent in
  copy_entry elm old;;;
  op <- RB_PARENT old;; relink h op old elm;;;
  ol <- RB_LEFT old;; set_parent elm ol;;;
  or <- RB_RIGHT old;; adopt or elm;;;
  augment_up (S n) parent;;;
  remove_end h c parent child.

Definition RB_REMOVE (h : nat) (elm : rbp) : rbM rbp :=
  l <- RB_LEFT elm;; r <- RB_RIGHT elm;;
  (match l, r with
   | None, _ => remove_leafward h elm r
   | Some _, None => remove_leafward h elm l
   | Some _, Some _ => remove_inner h elm
   end);;; rb_ret elm.

Section search.
Context (cmp : nat -> nat -> Z).

(** The loop of RB_INSERT: an equal element, or the last parent and comparison. *)
Fixpoint insert_loop (fuel : nat) (elm : nat) (tmp parent : rbp) (comp : Z) : rbM (nat + rbp * Z) :=
  match tmp with
  | None => rb_ret (inr (parent, comp))
  | Some x =>
      match fuel with
      | O => rb_fail
      | S fuel' =>
          let comp := cmp elm x in
          if comp <? 0 then l <- RB_LEFT tmp;; insert_loop fuel' elm l tmp comp
          else if 0 <? comp then r <- RB_RIGHT tmp;; insert_loop fuel' elm r tmp comp
          else rb_ret (inl x)
      end
  end.

Definition RB_INSERT (h : nat) (elm : nat) : rbM rbp :=
  n <- rb_fuel;; root <- RB_ROOT h;;
  res <- insert_loop n elm root None 0;;
  match res with
  | inl x => rb_ret (Some x)
  | inr (parent, comp) =>
      RB_SET (Some elm) parent;;;
      (match parent with
       | Some _ => if comp <? 0 then set_left (Some elm) parent else set_right (Some elm) parent
       | None => set_root h (Some elm)
       end);;;
      RB_INSERT_COLOR h (Some elm);;; rb_ret None
  end.

Fixpoint find_loop (fuel : nat) (elm : nat) (tmp : rbp) : rbM rbp :=
  match tmp with
  | None => rb_ret None
  | Some x =>
      match fuel with
      | O => rb_fail
      | S fuel' =>
          let comp := cmp elm x in
          if comp <? 0 then l <- RB_LEFT tmp;; find_loop fuel' elm l
          else if 0 <? comp then r <- RB_RIGHT tmp;; find_loop fuel' elm r
          else rb_ret tmp
      end
  end.

Definition RB_FIND (h : nat) (elm : nat) : rbM rbp := n <- rb_fuel;; root <- RB_ROOT h;; find_loop n elm root.

Fixpoint nfind_loop (fuel : nat) (elm : nat) (tmp res : rbp) : rbM rbp :=
  match tmp with
  | None => rb_ret res
  | Some x =>
      match fuel with
      | O => rb_fail
      | S fuel' =>
          let comp := cmp elm x in
          if comp <? 0 then l <- RB_LEFT tmp;; nfind_loop fuel' elm l tmp
          else if 0 <? comp then r <- RB_RIGHT tmp;; nfind_loop fuel' elm r res
          else rb_ret tmp
      end
  end.

Definition RB_NFIND (h : nat) (elm : nat) : rbM rbp := n <- rb_fuel;; root <- RB_ROOT h;; nfind_loop n elm root None.

End search.

Fixpoint minmax_walk (fuel : nat) (val : Z) (tmp parent : rbp) : rbM rbp :=
  match tmp with
  | None => rb_ret parent
  | Some _ =>
      match fuel with
      | O => rb_fail
      | S fuel' => next <- RB_CHILD (val <? 0) tmp;; minmax_walk fuel' val next tmp
      end
  end.

Definition RB_MINMAX (h : nat) (val : Z) : rbM rbp := n <- rb_fuel;; root <- RB_ROOT h;; minmax_walk n val root None.

(** The climb of RB_NEXT over right children, and the function. *)
Fixpoint climb_loop (fuel : nat) (elm : rbp) : rbM rbp :=
  match fuel with
  | O => rb_fail
  | S fuel' =>
      parent <- RB_PARENT elm;;
      match parent with
      | None => rb_ret None
      | Some _ => r <- RB_RIGHT parent;; if same_ptr elm r then climb_loop fuel' parent else rb_ret parent
      end
  end.

Definition RB_NEXT (elm : rbp) : rbM rbp :=
  n <- rb_fuel;;
  right <- RB_RIGHT elm;;
  match right with
  | Some _ => walk_left n right
  | None =>
      parent <- RB_PARENT elm;;
      on_left <- (match parent with Some _ => l <- RB_LEFT parent;; rb_ret (same_ptr elm l) | None => rb_ret false end);;
      if (on_left : bool) then rb_ret parent else climb_loop n elm
  end.

Lemma same_ptr_refl p : same_ptr p p = true.
Proof. by apply bool_decide_eq_true_2. Qed.

Lemma same_ptr_ne p q : p <> q -> same_ptr p q = false.
Proof. apply bool_decide_eq_false_2. Qed.

Lemma same_ptr_sym p q : same_ptr p q = same_ptr q p.
Proof. unfold same_ptr. by apply bool_decide_ext. Qed.
