(* ===== verification/RbLogic.v ===== *)
(** The program logic for the computations of RbMem.v, on top of Iris: [x ↦ e] owns
    the entry of the element [x], [h ↦r p] the head [h] whose root pointer is [p], and
    [wp] says that a computation has a result. Owned entries are distinct, so that the
    proofs need no conditions on aliasing. *)

From iris.proofmode Require Import environments coq_tactics proofmode.
From iris.base_logic.lib Require Import ghost_map.
From S2P Require Import Prelude RbTree RbMem.

Class rbGS (Σ : gFunctors) := RbGS {
  rb_ent_inG :: ghost_mapG Σ nat rb_entry;
  rb_head_inG :: ghost_mapG Σ nat rbp;
  rb_ent_name : gname;
  rb_head_name : gname
}.

Notation "x ↦ e" := (ghost_map_elem (H0:=rb_ent_inG) rb_ent_name x (DfracOwn 1) e) (at level 20, format "x  ↦  e") : bi_scope.
Notation "h ↦r p" := (ghost_map_elem (H0:=rb_head_inG) rb_head_name h (DfracOwn 1) p) (at level 20, format "h  ↦r  p") : bi_scope.

Section logic.
Context `{!rbGS Σ}.

Definition rb_interp (m : rb_mem) : iProp Σ :=
  ghost_map_auth rb_head_name 1 (rb_heads m) ∗ ghost_map_auth rb_ent_name 1 (rb_ents m).

(** The computation has a result, which satisfies [Φ]. *)
Definition wp {A} (e : rbM A) (Φ : A -> iProp Σ) : iProp Σ :=
  ∀ m, rb_interp m ==∗ ∃ a m', ⌜e m = Some (a, m')⌝ ∗ rb_interp m' ∗ Φ a.

Lemma wp_ret {A} (a : A) Φ : Φ a -∗ wp (rb_ret a) Φ.
Proof. iIntros "H" (m) "Hm !>". iExists a, m. by iFrame. Qed.

Lemma wp_bind {A B} (e : rbM A) (k : A -> rbM B) Φ : wp e (fun a => wp (k a) Φ) -∗ wp (rb_bind e k) Φ.
Proof.
  iIntros "H" (m) "Hm". iMod ("H" with "Hm") as (a m1 E1) "[Hm H]". iMod ("H" with "Hm") as (b m2 E2) "[Hm H]".
  iModIntro. iExists b, m2. iFrame. iPureIntro. unfold rb_bind. by rw E1.
Qed.

Lemma wp_mono {A} (e : rbM A) Φ Ψ : wp e Φ -∗ (∀ a, Φ a -∗ Ψ a) -∗ wp e Ψ.
Proof.
  iIntros "H HΦ" (m) "Hm". iMod ("H" with "Hm") as (a m1 E1) "[Hm H]". iModIntro. iExists a, m1.
  iFrame. iSplit; [done|]. by iApply "HΦ".
Qed.

Lemma wp_get {A} (f : rb_entry -> A) x e Φ : x ↦ e -∗ (x ↦ e -∗ Φ (f e)) -∗ wp (rb_get f (Some x)) Φ.
Proof.
  iIntros "Hx H" (m) "[Hh He]". iDestruct (ghost_map_lookup with "He Hx") as %Hx. iModIntro. iExists (f e), m. iFrame.
  iSplit; [|by iApply "H"]. iPureIntro. unfold rb_get. cbn. by rw Hx.
Qed.

Lemma wp_put f x e Φ : x ↦ e -∗ (x ↦ f e -∗ Φ tt) -∗ wp (rb_put f (Some x)) Φ.
Proof.
  iIntros "Hx H" (m) "[Hh He]". iDestruct (ghost_map_lookup with "He Hx") as %Hx.
  iMod (ghost_map_update (f e) with "He Hx") as "[He Hx]". iModIntro. iExists tt, (set_ents (<[x:=f e]> (rb_ents m)) m).
  iFrame. iSplit; [|by iApply "H"]. iPureIntro. unfold rb_put. cbn. by rw Hx.
Qed.

Lemma wp_root h p Φ : h ↦r p -∗ (h ↦r p -∗ Φ p) -∗ wp (RB_ROOT h) Φ.
Proof.
  iIntros "Hx H" (m) "[Hh He]". iDestruct (ghost_map_lookup with "Hh Hx") as %Hx. iModIntro. iExists p, m. iFrame.
  iSplit; [|by iApply "H"]. iPureIntro. unfold RB_ROOT. by rw Hx.
Qed.

Lemma wp_set_root h p v Φ : h ↦r p -∗ (h ↦r v -∗ Φ tt) -∗ wp (set_root h v) Φ.
Proof.
  iIntros "Hx H" (m) "[Hh He]". iDestruct (ghost_map_lookup with "Hh Hx") as %Hx.
  iMod (ghost_map_update v with "Hh Hx") as "[Hh Hx]". iModIntro. iExists tt, (set_heads (<[h:=v]> (rb_heads m)) m).
  iFrame. iSplit; [|by iApply "H"]. iPureIntro. unfold set_root. by rw Hx.
Qed.

Lemma ent_ne x y (e e' : rb_entry) : x ↦ e -∗ y ↦ e' -∗ ⌜x <> y⌝.
Proof. iIntros "H1 H2". iApply (ghost_map_elem_ne with "H1 H2"). Qed.

(** The rules on proof contexts: the entry is found among the hypotheses. *)
Lemma tac_get {A} Δ i (f : rb_entry -> A) x e Φ :
  envs_lookup i Δ = Some (false, x ↦ e)%I -> envs_entails Δ (Φ (f e)) -> envs_entails Δ (wp (rb_get f (Some x)) Φ).
Proof.
  rw envs_entails_unseal. intros Hi HΦ. rw envs_lookup_split //. cbn. iIntros "[Hx H]". iApply (wp_get with "Hx").
  iIntros "Hx". iApply HΦ. by iApply "H".
Qed.

Lemma tac_put Δ Δ' i f x e Φ :
  envs_lookup i Δ = Some (false, x ↦ e)%I -> envs_simple_replace i false (Esnoc Enil i (x ↦ f e)%I) Δ = Some Δ' ->
  envs_entails Δ' (Φ tt) -> envs_entails Δ (wp (rb_put f (Some x)) Φ).
Proof.
  rw envs_entails_unseal. intros Hi Hr HΦ. rw envs_simple_replace_sound //. cbn. iIntros "[Hx H]".
  iApply (wp_put with "Hx"). iIntros "Hx". iApply HΦ. iApply "H". by iFrame.
Qed.

Lemma tac_root Δ i h (p : rbp) Φ :
  envs_lookup i Δ = Some (false, h ↦r p)%I -> envs_entails Δ (Φ p) -> envs_entails Δ (wp (RB_ROOT h) Φ).
Proof.
  rw envs_entails_unseal. intros Hi HΦ. rw envs_lookup_split //. cbn. iIntros "[Hx H]". iApply (wp_root with "Hx").
  iIntros "Hx". iApply HΦ. by iApply "H".
Qed.

Lemma tac_set_root Δ Δ' i h (p v : rbp) Φ :
  envs_lookup i Δ = Some (false, h ↦r p)%I -> envs_simple_replace i false (Esnoc Enil i (h ↦r v)%I) Δ = Some Δ' ->
  envs_entails Δ' (Φ tt) -> envs_entails Δ (wp (set_root h v) Φ).
Proof.
  rw envs_entails_unseal. intros Hi Hr HΦ. rw envs_simple_replace_sound //. cbn. iIntros "[Hx H]".
  iApply (wp_set_root with "Hx"). iIntros "Hx". iApply HΦ. iApply "H". by iFrame.
Qed.

End logic.

(** One statement: a read or an assignment of a field whose entry is owned. *)
Ltac wp_simpl := cbn [rbe_left rbe_right rbe_parent rbe_color RB_CHILD rb_rotate id].

Ltac wp_find := first [iAssumptionCore | fail 1 "entry not owned"].

Ltac wp_atom e :=
  lazymatch e with
  | rb_ret _ => iApply wp_ret
  | RB_ROOT _ => eapply tac_root; [wp_find|]
  | set_root _ _ => eapply tac_set_root; [wp_find|reflexivity|]
  | RB_LEFT _ => eapply (tac_get _ _ rbe_left); [wp_find|]
  | RB_RIGHT _ => eapply (tac_get _ _ rbe_right); [wp_find|]
  | RB_PARENT _ => eapply (tac_get _ _ rbe_parent); [wp_find|]
  | RB_COLOR _ => eapply (tac_get _ _ rbe_color); [wp_find|]
  | rb_get _ _ => eapply tac_get; [wp_find|]
  | _ => eapply tac_put; [wp_find|reflexivity|]
  end; wp_simpl.

Ltac wp_step :=
  lazymatch goal with
  | |- envs_entails _ (wp (rb_bind ?e _) _) => iApply wp_bind; wp_atom e
  | |- envs_entails _ (wp ?e _) => wp_atom e
  end.
