(* ===== verification/RbLinked.v ===== *)
(** The red-black trees of RbMem.v implement those of RbTree.v and RbRemove.v: a
    linked tree is owned entry by entry ([is_tree]), a node together with the rest of
    its tree is a subtree and the entries on its path to the root ([is_path]), and each
    macro takes the linked tree through the tree function of the same name. *)

From iris.proofmode Require Import environments coq_tactics proofmode.
From iris.base_logic.lib Require Import ghost_map.
From S2P Require Import Prelude RbTree RbRemove RbMem RbLogic.
Import Datatypes.

(** * Linked trees *)

Definition rootp (t : tree nat) : rbp := match t with Nil => None | Node _ _ x _ => Some x end.

(** The parent at the bottom of a path whose top has the parent [q], and the pointer
    at its top. *)
Definition parp (p : list (frame nat)) (q : rbp) : rbp := match p with [] => q | Frame _ _ x _ :: _ => Some x end.

Fixpoint topp (hole : rbp) (p : list (frame nat)) : rbp :=
  match p with [] => hole | Frame _ _ x _ :: p' => topp (Some x) p' end.

(** The entry of a node on a path, by the side the path comes from. *)
Definition frame_ent (lc : bool) (hole o q : rbp) (c : color) : rb_entry := if lc then mk_ent hole o q c else mk_ent o hole q c.

Lemma frame_ent_color lc hole o q c : rbe_color (frame_ent lc hole o q c) = c.
Proof. by destruct lc. Qed.

Lemma frame_ent_parent lc hole o q c : rbe_parent (frame_ent lc hole o q c) = q.
Proof. by destruct lc. Qed.

Lemma frame_ent_left lc hole o q c : o <> hole -> same_ptr (rbe_left (frame_ent lc hole o q c)) hole = lc.
Proof. destruct lc; cbn; [intros; apply same_ptr_refl|apply same_ptr_ne]. Qed.

Section trees.
Context `{!rbGS Σ}.
Implicit Types (t l r : tree nat) (p : list (frame nat)) (q : rbp).

Fixpoint is_tree (q : rbp) (t : tree nat) : iProp Σ :=
  match t with
  | Nil => emp
  | Node c l x r => x ↦ mk_ent (rootp l) (rootp r) q c ∗ is_tree (Some x) l ∗ is_tree (Some x) r
  end.

Fixpoint is_seg (hole : rbp) (p : list (frame nat)) (q : rbp) : iProp Σ :=
  match p with
  | [] => emp
  | Frame lc c x o :: p' =>
      x ↦ frame_ent lc hole (rootp o) (parp p' q) c ∗
      is_tree (Some x) o ∗ is_seg (Some x) p' q
  end.

Definition is_path (h : nat) (hole : rbp) (p : list (frame nat)) : iProp Σ := is_seg hole p None ∗ h ↦r topp hole p.

Definition tree_at (h : nat) (t : tree nat) : iProp Σ := is_tree None t ∗ h ↦r rootp t.

Lemma is_attach q t lc c x o : is_tree q (attach t (Frame lc c x o)) ⊣⊢
  is_tree (Some x) t ∗ x ↦ frame_ent lc (rootp t) (rootp o) q c ∗ is_tree (Some x) o.
Proof. destruct lc; cbn; iSplit; iIntros "(? & ? & ?)"; iFrame. Qed.

Lemma is_plug h t p : is_tree (parp p None) t ∗ is_path h (rootp t) p ⊣⊢ tree_at h (plug t p).
Proof.
  unfold is_path. revert t. induction p as [|[lc c x o] p IH]; intros t.
  { cbn. iSplit; [iIntros "(? & ? & ?)"|iIntros "(? & ?)"]; iFrame. }
  change (plug t (Frame lc c x o :: p)) with (plug (attach t (Frame lc c x o)) p). rw -IH is_attach. cbn [parp is_seg topp].
  assert (rootp (attach t (Frame lc c x o)) = Some x) as -> by by destruct lc.
  iSplit; [iIntros "(? & (? & ? & ?) & ?)"|iIntros "((? & ? & ?) & ? & ?)"]; iFrame.
Qed.

(** * Helpers of the macros *)

Lemma wp_red_at q t Φ : is_tree q t -∗ (is_tree q t -∗ Φ (is_red t)) -∗ wp (red_at (rootp t)) Φ.
Proof.
  iIntros "Ht H". destruct t as [|c l x r]; cbn [rootp red_at]; [iApply wp_ret; by iApply "H"|].
  cbn [is_tree]. iDestruct "Ht" as "(Hx & Hl & Hr)". wp_step. wp_step.
  replace (is_RED c) with (is_red (Node c l x r)) by by destruct c. iApply "H". iFrame.
Qed.

Lemma wp_adopt q q' t Φ : is_tree q t -∗ (is_tree q' t -∗ Φ tt) -∗ wp (adopt (rootp t) q') Φ.
Proof.
  iIntros "Ht H". destruct t as [|c l x r]; cbn [rootp adopt]; [iApply wp_ret; by iApply "H"|].
  cbn [is_tree]. iDestruct "Ht" as "(Hx & Hl & Hr)". wp_step. iApply "H". iFrame.
Qed.

Lemma wp_blacken q t Φ : is_tree q t -∗ (is_tree q (set_color Black t) -∗ Φ tt) -∗ wp (blacken (rootp t)) Φ.
Proof.
  iIntros "Ht H". destruct t as [|c l x r]; cbn [rootp blacken]; [iApply wp_ret; by iApply "H"|].
  cbn [is_tree set_color]. iDestruct "Ht" as "(Hx & Hl & Hr)". wp_step. iApply "H". iFrame.
Qed.

(** A node owned elsewhere is not the root of an owned tree. *)
Lemma root_ne x (e : rb_entry) q t : x ↦ e -∗ is_tree q t -∗ ⌜rootp t <> Some x⌝.
Proof.
  iIntros "Hx Ht". destruct t as [|c l y r]; [done|]. cbn. iDestruct "Ht" as "(Hy & _)".
  iDestruct (ent_ne with "Hx Hy") as %Hne. iPureIntro. congruence.
Qed.

(** The children of a node on a path. *)

Lemma wp_other x (lc : bool) (hole o q : rbp) c Φ : x ↦ frame_ent lc hole o q c -∗ (x ↦ frame_ent lc hole o q c -∗ Φ o) -∗
  wp (RB_CHILD (negb lc) (Some x)) Φ.
Proof. iIntros "Hx H". destruct lc; cbn [negb]; wp_simpl; wp_step; by iApply "H". Qed.

Lemma wp_this x (lc : bool) (hole o q : rbp) c Φ : x ↦ frame_ent lc hole o q c -∗ (x ↦ frame_ent lc hole o q c -∗ Φ hole) -∗
  wp (RB_CHILD lc (Some x)) Φ.
Proof. iIntros "Hx H". destruct lc; cbn [negb]; wp_simpl; wp_step; by iApply "H". Qed.

(** The pointer to [x] at the bottom of a path is set to [new]. *)
Lemma wp_relink h x (e : rb_entry) new p Φ : x ↦ e -∗ is_path h (Some x) p -∗ (x ↦ e -∗ is_path h new p -∗ Φ tt) -∗
  wp (relink h (parp p None) (Some x) new) Φ.
Proof.
  iIntros "Hx Hp H". unfold is_path. destruct p as [|[[] c y o] p]; cbn [parp relink topp is_seg].
  - iDestruct "Hp" as "[_ Hh]". wp_step. iApply ("H" with "Hx"). iFrame.
  - iDestruct "Hp" as "[(Hy & Ho & Hp) Hh]". wp_step. rw same_ptr_refl. wp_step. iApply ("H" with "Hx"). iFrame.
  - iDestruct "Hp" as "[(Hy & Ho & Hp) Hh]". iDestruct (root_ne with "Hx Ho") as %Hne. wp_step. rw same_ptr_ne; [|done]. wp_step.
    iApply ("H" with "Hx"). iFrame.
Qed.

(** * Rotations *)

Lemma wp_rotate_left h c l x c' rl y rr p Φ :
  is_tree (parp p None) (Node c l x (Node c' rl y rr)) -∗ is_path h (Some x) p -∗
  (is_tree (parp p None) (Node c' (Node c l x rl) y rr) -∗ is_path h (Some y) p -∗ Φ (Some y)) -∗
  wp (RB_ROTATE_LEFT h (Some x)) Φ.
Proof.
  cbn [is_tree rootp]. iIntros "(Hx & Hl & Hy & Hrl & Hrr) Hp H". unfold RB_ROTATE_LEFT. do 3 wp_step.
  iApply wp_bind. iApply (wp_adopt with "Hrl"). iIntros "Hrl". do 2 wp_step.
  iApply wp_bind. iApply (wp_relink with "Hx Hp"). iIntros "Hx Hp". do 3 wp_step. iApply ("H" with "[-Hp] Hp"). iFrame.
Qed.

Lemma wp_rotate_right h c c' ll y lr x r p Φ :
  is_tree (parp p None) (Node c (Node c' ll y lr) x r) -∗ is_path h (Some x) p -∗
  (is_tree (parp p None) (Node c' ll y (Node c lr x r)) -∗ is_path h (Some y) p -∗ Φ (Some y)) -∗
  wp (RB_ROTATE_RIGHT h (Some x)) Φ.
Proof.
  cbn [is_tree rootp]. iIntros "(Hx & (Hy & Hll & Hlr) & Hr) Hp H". unfold RB_ROTATE_RIGHT. do 3 wp_step.
  iApply wp_bind. iApply (wp_adopt with "Hlr"). iIntros "Hlr". do 2 wp_step.
  iApply wp_bind. iApply (wp_relink with "Hx Hp"). iIntros "Hx Hp". do 3 wp_step. iApply ("H" with "[-Hp] Hp"). iFrame.
Qed.

(** * Insertion *)

(** The loop stops at the root and under a black parent. *)
Lemma wp_insert_stop fuel h t p Φ : t <> Nil -> match p with Frame _ Red _ _ :: _ => False | _ => True end ->
  is_tree (parp p None) t -∗ is_path h (rootp t) p -∗ (tree_at h (plug t p) -∗ Φ tt) -∗ wp (insert_color_loop (S fuel) h (rootp t)) Φ.
Proof.
  iIntros (Ht Hp) "Ht Hp H". destruct t as [|ct tl e tr]; [done|]. iAssert (wp (insert_color_loop (S fuel) h (Some e))
    (fun _ => is_tree (parp p None) (Node ct tl e tr) ∗ is_path h (Some e) p)%I) with "[Ht Hp]" as "Hw".
  - unfold is_path. cbn [is_tree insert_color_loop]. iDestruct "Ht" as "(He & Htl & Htr)". wp_step.
    destruct p as [|[lc [] y s] p]; [| |done]; cbn [parp red_at is_seg].
    + wp_step. cbn [negb]. wp_step. iFrame.
    + iDestruct "Hp" as "[(Hy & Hs & Hp) Hh]". iApply wp_bind. wp_step. rw frame_ent_color. wp_step. cbn [is_RED negb]. wp_step. iFrame.
  - iApply (wp_mono with "Hw"). iIntros ([]) "Hx". iApply "H". rw -is_plug. iFrame.
Qed.

(** The two cases that end with a rotation of the grandparent [g] whose left, or
    right, child is the parent [y]. *)
Lemma wp_insert_outer (side : bool) fuel h t y s g u p Φ : t <> Nil ->
  let sub := if side then Node Black t y (Node Red s g u) else Node Black (Node Red u g s) y t in
  is_tree (parp p None) (if side then Node Red (Node Black t y s) g u else Node Red u g (Node Black s y t)) -∗
  is_path h (Some g) p -∗ (tree_at h (plug sub p) -∗ Φ tt) -∗
  wp (rb_rotate (negb side) h (Some g);;; insert_color_loop (S fuel) h (rootp t)) Φ.
Proof.
  iIntros (Ht sub) "Ht Hp H". iApply wp_bind. destruct side; cbn [rb_rotate negb]; subst sub.
  - iApply (wp_rotate_right with "Ht Hp"). cbn [is_tree rootp]. iIntros "(Hy & Ht & Hg & Hs & Hu) Hp".
    iApply (wp_insert_stop fuel h t (Frame true Black y (Node Red s g u) :: p) with "Ht [-H] H"); [done|done|].
    unfold is_path. cbn [is_seg is_tree rootp topp]. iDestruct "Hp" as "[Hp Hh]". iFrame.
  - iApply (wp_rotate_left with "Ht Hp"). cbn [is_tree rootp]. iIntros "(Hy & (Hg & Hu & Hs) & Ht) Hp".
    iApply (wp_insert_stop fuel h t (Frame false Black y (Node Red u g s) :: p) with "Ht [-H] H"); [done|done|].
    unfold is_path. cbn [is_seg is_tree rootp topp]. iDestruct "Hp" as "[Hp Hh]". iFrame.
Qed.

Lemma plug_cons (t : tree nat) f p : plug t (f :: p) = plug (attach t f) p.
Proof. done. Qed.

Lemma plug_Nil t p : t <> Nil -> plug t p <> Nil.
Proof. revert t. induction p as [|[[] c x o] p IH]; intros t Ht; [done|by apply IH..]. Qed.

(** The tree function by the cases of the code. *)
Lemma insert_color_red (t : tree nat) lc y s pl cg g u p : is_red u = true ->
  RbTree.RB_INSERT_COLOR t (Frame lc Red y s :: Frame pl cg g u :: p) =
  RbTree.RB_INSERT_COLOR (attach (set_color Black (attach t (Frame lc Red y s))) (Frame pl Red g (set_color Black u))) p.
Proof. cbn -[attach plug]. by intros ->. Qed.

Lemma insert_color_outer (t : tree nat) y s (pl : bool) cg g u p : is_red u = false ->
  RbTree.RB_INSERT_COLOR t (Frame pl Red y s :: Frame pl cg g u :: p) =
  Some (set_color Black (plug (if pl then Node Black t y (Node Red s g u) else Node Black (Node Red u g s) y t) p)).
Proof. cbn -[plug]. intros ->. by destruct pl. Qed.

Lemma insert_color_inner ct tl (e : nat) tr y s (pl : bool) cg g u p : is_red u = false ->
  RbTree.RB_INSERT_COLOR (Node ct tl e tr) (Frame (negb pl) Red y s :: Frame pl cg g u :: p) =
  Some (set_color Black (plug (if pl then Node Black (Node Red s y tl) e (Node Red tr g u)
                               else Node Black (Node Red u g tl) e (Node Red tr y s)) p)).
Proof. cbn -[plug]. intros ->. by destruct pl. Qed.

(** The rotations under a black uncle. *)
Lemma wp_insert_turn fuel h ct tl e tr lc y s pl cg g u p t' Φ : is_red u = false -> rootp s <> Some e ->
  RbTree.RB_INSERT_COLOR (Node ct tl e tr) (Frame lc Red y s :: Frame pl cg g u :: p) = Some t' ->
  is_tree (Some y) (Node ct tl e tr) -∗ y ↦ frame_ent lc (Some e) (rootp s) (Some g) Red -∗ is_tree (Some y) s -∗
  g ↦ frame_ent pl (Some y) (rootp u) (parp p None) cg -∗ is_tree (Some g) u -∗ is_path h (Some g) p -∗
  (∀ t0, ⌜set_color Black t0 = t' /\ t0 <> Nil⌝ -∗ tree_at h t0 -∗ Φ tt) -∗
  wp (inner <- RB_CHILD (negb pl) (Some y);;
      if same_ptr inner (Some e) then
        rb_rotate pl h (Some y);;; RB_SET_BLACKRED (Some e) (Some g);;; rb_rotate (negb pl) h (Some g);;; insert_color_loop (S fuel) h (Some y)
      else RB_SET_BLACKRED (Some y) (Some g);;; rb_rotate (negb pl) h (Some g);;; insert_color_loop (S fuel) h (Some e)) Φ.
Proof.
  iIntros (Eu Hes E) "Ht Hy Hs Hg Hu [Hp Hh] H". cbn [is_tree]. iDestruct "Ht" as "(He & Htl & Htr)".
  destruct (decide (lc = pl)) as [->|Hlc].
  - rw insert_color_outer in E; [|done]. injection E as <-. iApply wp_bind. iApply (wp_other with "Hy"). iIntros "Hy".
    rw same_ptr_ne; [|done]. iApply wp_bind. unfold RB_SET_BLACKRED. do 2 wp_step.
    iApply (wp_insert_outer pl fuel h (Node ct tl e tr) y s g u p with "[-Hp Hh H] [Hp Hh] [H]"); [done|destruct pl; cbn; iFrame|iFrame|].
    iIntros "Ht". iApply ("H" with "[] Ht"). iPureIntro. split; [done|apply plug_Nil; by destruct pl].
  - assert (lc = negb pl) as -> by by destruct lc, pl. rw insert_color_inner in E; [|done]. injection E as <-.
    iApply wp_bind. iApply (wp_this with "Hy"). iIntros "Hy". rw same_ptr_refl. iApply wp_bind. destruct pl; cbn [negb rb_rotate].
    + iApply (wp_rotate_left h Red s y ct tl e tr (Frame true cg g u :: p) with "[He Htl Htr Hy Hs] [Hg Hu Hp Hh]");
        [cbn; iFrame|cbn; iFrame|]. cbn [is_tree is_path is_seg rootp parp]. iIntros "(He & (Hy & Hs & Htl) & Htr) [(Hg & Hu & Hp) Hh]".
      iApply wp_bind. unfold RB_SET_BLACKRED. do 2 wp_step.
      iApply (wp_insert_outer true fuel h (Node Red s y tl) e tr g u p with "[-Hp Hh H] [Hp Hh] [H]"); [done|cbn; iFrame|iFrame|].
      iIntros "Ht". iApply ("H" with "[] Ht"). iPureIntro. split; [done|by apply plug_Nil].
    + iApply (wp_rotate_right h Red ct tl e tr y s (Frame false cg g u :: p) with "[He Htl Htr Hy Hs] [Hg Hu Hp Hh]");
        [cbn; iFrame|cbn; iFrame|]. cbn [is_tree is_path is_seg rootp parp]. iIntros "(He & Htl & Hy & Htr & Hs) [(Hg & Hu & Hp) Hh]".
      iApply wp_bind. unfold RB_SET_BLACKRED. do 2 wp_step.
      iApply (wp_insert_outer false fuel h (Node Red tr y s) e tl g u p with "[-Hp Hh H] [Hp Hh] [H]"); [done|cbn; iFrame|iFrame|].
      iIntros "Ht". iApply ("H" with "[] Ht"). iPureIntro. split; [done|by apply plug_Nil].
Qed.

(** The loop, from the node at the root of [t] on. *)
Lemma wp_insert_loop fuel h t p t' Φ : t <> Nil -> (length p < fuel)%nat -> RbTree.RB_INSERT_COLOR t p = Some t' ->
  is_tree (parp p None) t -∗ is_path h (rootp t) p -∗
  (∀ t0, ⌜set_color Black t0 = t' /\ t0 <> Nil⌝ -∗ tree_at h t0 -∗ Φ tt) -∗ wp (insert_color_loop fuel h (rootp t)) Φ.
Proof.
  revert t p. induction fuel as [|fuel IH]; intros t p Ht Hf E; [lia|]. iIntros "Ht Hp H".
  destruct p as [|[lc [] y s] [|[pl cg g u] p]]; try (injection E as <-; iApply (wp_insert_stop with "Ht Hp"); [done|done|];
    iIntros "Ht"; iApply ("H" with "[] Ht"); iPureIntro; split; [done|by apply plug_Nil]); [discriminate E|].
  destruct t as [|ct tl e tr]; [done|]. cbn [parp insert_color_loop].
  unfold is_path. cbn [is_seg parp topp is_tree]. iDestruct "Hp" as "[(Hy & Hs & Hg & Hu & Hp) Hh]". iDestruct "Ht" as "(He & Htl & Htr)".
  iDestruct (root_ne with "He Hs") as %Hes. iDestruct (root_ne with "Hy Hu") as %Hyu. cbn [rootp].
  wp_step. cbn [red_at]. iApply wp_bind. wp_step. rw frame_ent_color. wp_step. cbn [is_RED negb].
  wp_step. rw frame_ent_parent. wp_step. rw same_ptr_sym frame_ent_left; [|done].
  iApply wp_bind. iApply (wp_other with "Hg"). iIntros "Hg". iApply wp_bind; iApply (wp_red_at with "Hu"); iIntros "Hu"; destruct (is_red u) eqn:Eu.
  - rw insert_color_red in E; [|done]. destruct u as [|[] ul ux ur]; try done. cbn [is_tree rootp]. iDestruct "Hu" as "(Hux & Hul & Hur)".
    wp_step. iApply wp_bind. unfold RB_SET_BLACKRED. do 2 wp_step. match type of E with RbTree.RB_INSERT_COLOR ?T _ = _ => pose (T' := T) end.
    replace (Some g) with (rootp T') by by destruct pl, lc.
    iApply (IH T' p with "[-Hp Hh H] [Hp Hh] H"); [by destruct pl, lc|cbn in Hf; lia|exact E|unfold T'..].
    + destruct pl, lc; cbn [attach set_color is_tree rootp]; iFrame.
    + destruct pl, lc; iFrame.
  - destruct fuel as [|fuel]; [cbn in Hf; lia|].
    iApply (wp_insert_turn with "[He Htl Htr] Hy Hs Hg Hu [Hp Hh] H"); [exact Eu|exact Hes|exact E|cbn; iFrame|iFrame].
Qed.

(** * Enough fuel *)

Definition owned (l : list nat) : iProp Σ := [∗ list] x ∈ l, ∃ e : rb_entry, x ↦ e.

Fixpoint path_elems (p : list (frame nat)) : list nat :=
  match p with [] => [] | Frame _ _ x o :: p' => x :: inorder o ++ path_elems p' end.

Lemma owned_dom m (xs : list nat) : rb_interp m -∗ owned xs -∗ ⌜NoDup xs /\ list_to_set xs ⊆ dom (rb_ents m)⌝.
Proof.
  iIntros "[_ Hm] Hl". unfold owned. iInduction xs as [|x xs] "IH"; [iPureIntro; split; [constructor|set_solver]|]. cbn.
  iDestruct "Hl" as "[(%e & Hx) Hl]". iDestruct ("IH" with "Hm Hl") as %[Hn Hd]. iDestruct (ghost_map_lookup with "Hm Hx") as %Hx.
  iAssert ⌜x ∉ xs⌝%I as %Hni.
  { iIntros (Hi). iDestruct (big_sepL_elem_of with "Hl") as "(%e' & Hx')"; [done|]. by iDestruct (ent_ne with "Hx Hx'") as %?. }
  iPureIntro. split; [by constructor|]. apply elem_of_dom_2 in Hx. set_solver.
Qed.

Lemma wp_fuel (xs : list nat) (P : iProp Σ) Φ : (P ⊢ owned xs) -> P -∗ (∀ n, ⌜length xs <= n⌝%nat -∗ P -∗ Φ n) -∗ wp rb_fuel Φ.
Proof.
  iIntros (HP) "HP H". iIntros (m) "Hm". iAssert ⌜length xs <= size (rb_ents m)⌝%nat%I as %Hl.
  { iDestruct (HP with "HP") as "Hl". iDestruct (owned_dom with "Hm Hl") as %[Hn Hd]. iPureIntro.
    rw -(size_list_to_set (C:=gset nat)) // -size_dom. by apply subseteq_size. }
  iModIntro. iExists (size (rb_ents m)), m. iFrame. iSplit; [done|]. by iApply "H".
Qed.

Lemma is_tree_owned q t : is_tree q t ⊢ owned (inorder t).
Proof.
  revert q. induction t as [|c l IHl x r IHr]; intros q; unfold owned; cbn; [done|]. rw big_sepL_app big_sepL_cons.
  iIntros "(Hx & Hl & Hr)". iSplitL "Hl"; [by iApply IHl|]. iSplitL "Hx"; [by iExists _|by iApply IHr].
Qed.

Lemma is_seg_owned hole p q : is_seg hole p q ⊢ owned (path_elems p).
Proof.
  revert hole. induction p as [|[lc c x o] p IH]; intros hole; unfold owned; cbn; [done|]. rw big_sepL_app.
  iIntros "(Hx & Ho & Hp)". iSplitL "Hx"; [by iExists _|]. iSplitL "Ho"; [by iApply is_tree_owned|by iApply IH].
Qed.

Lemma path_elems_length p : (length p <= length (path_elems p))%nat.
Proof. induction p as [|[lc c x o] p IH]; cbn; [done|]. rw length_app. lia. Qed.

(** A node on its path. *)
Lemma zipper_owned h q t hole p : is_tree q t ∗ is_path h hole p ⊢ owned (inorder t ++ path_elems p).
Proof. unfold owned. rw big_sepL_app. iIntros "(Ht & Hp & _)". iSplitL "Ht"; [by iApply is_tree_owned|by iApply is_seg_owned]. Qed.

(** * Insertion, continued *)

Lemma wp_insert_color h t p t' Φ : t <> Nil -> RbTree.RB_INSERT_COLOR t p = Some t' ->
  is_tree (parp p None) t -∗ is_path h (rootp t) p -∗ (tree_at h t' -∗ Φ tt) -∗ wp (RB_INSERT_COLOR h (rootp t)) Φ.
Proof.
  iIntros (Ht E) "Ht Hp H". unfold RB_INSERT_COLOR. iApply wp_bind.
  iApply (wp_fuel _ _ _ (zipper_owned h (parp p None) t (rootp t) p) with "[$]"). iIntros (n Hn) "[Ht Hp]".
  rw length_app in Hn. pose proof (path_elems_length p). iApply wp_bind. iApply (wp_insert_loop with "Ht Hp"); [done|lia|exact E|].
  iIntros (t0 [<- Ht0]) "[Ht Hh]". wp_step. destruct t0 as [|c l x r]; [done|]. cbn [is_tree rootp set_color]. iDestruct "Ht" as "(Hx & Hl & Hr)".
  wp_step. iApply "H". unfold tree_at. cbn. iFrame.
Qed.

Section search.
Context (cmp : nat -> nat -> Z).

(** The comparison of the last round of the descent tells the side of the path. *)
Definition side_of (p : list (frame nat)) (comp : Z) : Prop :=
  match p with Frame lc _ _ _ :: _ => (comp <? 0) = lc | [] => True end.

Lemma wp_insert_descend fuel h elm t p comp Φ : (length (inorder t) <= fuel)%nat -> side_of p comp ->
  is_tree (parp p None) t -∗ is_path h (rootp t) p -∗
  (match descend cmp elm t p with
   | inr x => tree_at h (plug t p) -∗ Φ (inl x)
   | inl p' => ∀ comp, ⌜side_of p' comp⌝ -∗ is_path h None p' -∗ Φ (inr (parp p' None, comp))
   end) -∗ wp (insert_loop cmp fuel elm (rootp t) (parp p None) comp) Φ.
Proof.
  revert fuel p comp. induction t as [|c l IHl x r IHr]; intros fuel p comp Hf Hs; iIntros "Ht Hp H".
  { destruct fuel; cbn [rootp insert_loop descend]; wp_step; by iApply "H". }
  destruct fuel as [|fuel]; [cbn in Hf; rw length_app in Hf; cbn in Hf; lia|]. cbn [rootp insert_loop descend].
  rw /= length_app /= in Hf. destruct (cmp elm x <? 0) eqn:E1; [|destruct (0 <? cmp elm x) eqn:E2].
  - cbn [is_tree]. iDestruct "Ht" as "(Hx & Hl & Hr)". wp_step.
    iApply (IHl fuel (Frame true c x r :: p) with "Hl [Hx Hr Hp] [H]"); [lia|done| |].
    + unfold is_path. cbn. iDestruct "Hp" as "[? ?]". iFrame.
    + done.
  - cbn [is_tree]. iDestruct "Ht" as "(Hx & Hl & Hr)". wp_step.
    iApply (IHr fuel (Frame false c x l :: p) with "Hr [Hx Hl Hp] [H]"); [lia|done| |].
    + unfold is_path. cbn. iDestruct "Hp" as "[? ?]". iFrame.
    + done.
  - wp_step. iApply "H". rw -is_plug. iFrame.
Qed.

Lemma wp_insert_old h elm t x Φ : RbTree.RB_FIND cmp t elm = Some x ->
  tree_at h t -∗ (tree_at h t -∗ Φ (Some x)) -∗ wp (RB_INSERT cmp h elm) Φ.
Proof.
  iIntros (Hf) "[Ht Hh] H". unfold RB_INSERT. iApply wp_bind. iApply (wp_fuel _ _ _ (is_tree_owned None t) with "Ht"). iIntros (n Hn) "Ht".
  wp_step. iApply wp_bind. iApply (wp_insert_descend n h elm t [] 0 with "Ht [Hh]"); [done|done|unfold is_path; cbn; iFrame|].
  apply insert_old_spec in Hf. unfold RbTree.RB_INSERT in Hf. destruct (descend cmp elm t []) as [p|y]; [by destruct (RbTree.RB_INSERT_COLOR _ _)|].
  injection Hf as ->. iIntros "Ht". wp_step. by iApply "H".
Qed.

Lemma wp_insert_new h elm e t t' Φ : RbTree.RB_INSERT cmp t elm = Some (t', None) ->
  tree_at h t -∗ elm ↦ e -∗ (tree_at h t' -∗ Φ None) -∗ wp (RB_INSERT cmp h elm) Φ.
Proof.
  iIntros (Hf) "[Ht Hh] He H". unfold RB_INSERT. iApply wp_bind. iApply (wp_fuel _ _ _ (is_tree_owned None t) with "Ht"). iIntros (n Hn) "Ht".
  wp_step. iApply wp_bind. iApply (wp_insert_descend n h elm t [] 0 with "Ht [Hh]"); [done|done|unfold is_path; cbn; iFrame|].
  unfold RbTree.RB_INSERT in Hf. destruct (descend cmp elm t []) as [p|y]; [|done].
  destruct (RbTree.RB_INSERT_COLOR (Node Red Nil elm Nil) p) as [t1|] eqn:E; [|done]. injection Hf as ->.
  iIntros (comp Hs) "Hp". unfold RB_SET. iApply wp_bind. do 4 wp_step.
  iAssert (is_tree (parp p None) (Node Red Nil elm Nil)) with "[He]" as "He"; [cbn; by iFrame|]. iApply wp_bind.
  iAssert (∀ Ψ, (is_path h (Some elm) p -∗ Ψ tt) -∗ wp (match parp p None with
    | Some _ => if comp <? 0 then set_left (Some elm) (parp p None) else set_right (Some elm) (parp p None)
    | None => set_root h (Some elm) end) Ψ)%I with "[Hp]" as "Hw".
  { iIntros (Ψ) "H". unfold is_path. destruct p as [|[lc c x o] p]; cbn [parp is_seg topp].
    - iDestruct "Hp" as "[_ Hh]". wp_step. iApply "H". iFrame.
    - iDestruct "Hp" as "[(Hx & Ho & Hp) Hh]". cbn in Hs. rw Hs. destruct lc; wp_step; iApply "H"; cbn; iFrame. }
  iApply "Hw". iIntros "Hp". iApply wp_bind. iApply (wp_insert_color h (Node Red Nil elm Nil) p with "He Hp"); [done|exact E|].
  iIntros "Ht". wp_step. by iApply "H".
Qed.

End search.

(** * Removal *)

(** The last rotation of RB_REMOVE_COLOR at the parent [x]. *)
Lemma wp_remove_last h (lc : bool) t c x c1 l1 x1 r1 p Φ :
  let sub := if lc then Node c (Node Black t x l1) x1 (set_color Black r1) else Node c (set_color Black l1) x1 (Node Black r1 x t) in
  is_tree (Some x) t -∗ x ↦ frame_ent lc (rootp t) (Some x1) (parp p None) c -∗ is_tree (Some x) (Node c1 l1 x1 r1) -∗
  is_path h (Some x) p -∗ (tree_at h (plug sub p) -∗ Φ (rootp (plug sub p))) -∗ wp (remove_last h lc (Some x) (Some x1)) Φ.
Proof.
  intros sub. iIntros "Ht Hx Hw Hp H". unfold remove_last. cbn [is_tree]. iDestruct "Hw" as "(Hx1 & Hl1 & Hr1)".
  wp_step. rw frame_ent_color. do 2 wp_step. iApply wp_bind. destruct lc; cbn [frame_ent negb RB_CHILD rbe_left rbe_right rbe_parent]; wp_step; iApply wp_bind.
  - iApply (wp_blacken with "Hr1"). iIntros "Hr1". iApply wp_bind.
    iApply (wp_rotate_left h Black t x c l1 x1 (set_color Black r1) p with "[-Hp H] Hp"); [cbn; destruct r1; cbn; iFrame|].
    iIntros "Ht Hp". iAssert (tree_at h (plug sub p)) with "[Ht Hp]" as "[Ht Hh]"; [rw -is_plug; iFrame|]. wp_step. iApply "H". iFrame.
  - iApply (wp_blacken with "Hl1"). iIntros "Hl1". iApply wp_bind.
    iApply (wp_rotate_right h Black c (set_color Black l1) x1 r1 x t p with "[-Hp H] Hp"); [cbn; destruct l1; cbn; iFrame|].
    iIntros "Ht Hp". iAssert (tree_at h (plug sub p)) with "[Ht Hp]" as "[Ht Hh]"; [rw -is_plug; iFrame|]. wp_step. iApply "H". iFrame.
Qed.

Lemma wp_remove_round k h (lc : bool) t c x w p res Φ : sibling lc t c x w = Some res ->
  is_tree (Some x) t -∗ x ↦ frame_ent lc (rootp t) (rootp w) (parp p None) c -∗ is_tree (Some x) w -∗ is_path h (Some x) p -∗
  (match res with
   | inl t1 => ⌜rootp t1 = Some x⌝ -∗ is_tree (parp p None) t1 -∗ is_path h (Some x) p -∗ wp (k (parp p None) (Some x)) Φ
   | inr sub => tree_at h (plug sub p) -∗ Φ (rootp (plug sub p))
   end) -∗ wp (remove_round k h lc (Some x) (rootp w)) Φ.
Proof.
  intros E. iIntros "Ht Hx Hw Hp H". destruct w as [|cw wl wx wr]; [done|]. unfold remove_round. cbn [is_tree rootp sibling] in *.
  iDestruct "Hw" as "(Hw & Hwl & Hwr)".
  destruct lc; cbn [negb RB_CHILD]; wp_step; iApply wp_bind.
  - iApply (wp_red_at with "Hwl"). iIntros "Hwl". wp_step. iApply wp_bind. iApply (wp_red_at with "Hwr"). iIntros "Hwr".
    destruct (is_red wl) eqn:Erl, (is_red wr) eqn:Err; cbn [negb andb] in *.
    + apply (inj Some) in E as <-. iApply (wp_remove_last h true with "Ht Hx [Hw Hwl Hwr] Hp H"). cbn. iFrame.
    + destruct wl as [|[] a y b]; try done. cbn in E. apply (inj Some) in E as <-. iApply wp_bind. iApply (wp_blacken with "Hwl"). iIntros "Hwl".
      wp_step. iApply wp_bind. cbn [rb_rotate]. iApply (wp_rotate_right h Red Black a y b wx wr (Frame false c x t :: p) with "[Hw Hwl Hwr] [Hx Ht Hp]").
      * cbn. iFrame.
      * unfold is_path. cbn. iDestruct "Hp" as "[? ?]". iFrame.
      * cbn [is_path is_seg topp]. iIntros "Hw [(Hx & Ht & Hp) Hh]". wp_step.
        iApply (wp_remove_last h true with "Ht Hx Hw [Hp Hh] H"). iFrame.
    + apply (inj Some) in E as <-. iApply (wp_remove_last h true with "Ht Hx [Hw Hwl Hwr] Hp H"). cbn. iFrame.
    + apply (inj Some) in E as <-. do 2 wp_step. iApply ("H" with "[] [-Hp] Hp"); [done|]. cbn. iFrame.
  - iApply (wp_red_at with "Hwr"). iIntros "Hwr". wp_step. iApply wp_bind. iApply (wp_red_at with "Hwl"). iIntros "Hwl".
    destruct (is_red wl) eqn:Erl, (is_red wr) eqn:Err; cbn [negb andb] in *.
    + apply (inj Some) in E as <-. iApply (wp_remove_last h false with "Ht Hx [Hw Hwl Hwr] Hp H"). cbn. iFrame.
    + apply (inj Some) in E as <-. iApply (wp_remove_last h false with "Ht Hx [Hw Hwl Hwr] Hp H"). cbn. iFrame.
    + destruct wr as [|[] a y b]; try done. cbn in E. apply (inj Some) in E as <-. iApply wp_bind. iApply (wp_blacken with "Hwr"). iIntros "Hwr".
      wp_step. iApply wp_bind. cbn [rb_rotate]. iApply (wp_rotate_left h Red wl wx Black a y b (Frame true c x t :: p) with "[Hw Hwl Hwr] [Hx Ht Hp]").
      * cbn. iFrame.
      * unfold is_path. cbn. iDestruct "Hp" as "[? ?]". iFrame.
      * cbn [is_path is_seg topp]. iIntros "Hw [(Hx & Ht & Hp) Hh]". wp_step.
        iApply (wp_remove_last h false with "Ht Hx Hw [Hp Hh] H"). iFrame.
    + apply (inj Some) in E as <-. do 2 wp_step. iApply ("H" with "[] [-Hp] Hp"); [done|]. cbn. iFrame.
Qed.

(** The root of the tree is above every node of a subtree. *)
Lemma top_ne q t x e p q' : is_tree q t -∗ x ↦ e -∗ is_seg (Some x) p q' -∗ ⌜rootp t <> topp (Some x) p⌝.
Proof.
  iIntros "Ht Hx Hp". iInduction p as [|[lc c y o] p] "IH" forall (x e); cbn [topp is_seg]; [by iApply (root_ne with "Hx Ht")|].
  iDestruct "Hp" as "(Hy & Ho & Hp)". iApply ("IH" with "Ht Hy Hp").
Qed.

Lemma remove_color_black (t : tree nat) lc c x w p : is_red t = false -> is_red w = false ->
  RbRemove.RB_REMOVE_COLOR t (Frame lc c x w :: p) =
  (res ← sibling lc t c x w; match res with inl t1 => RbRemove.RB_REMOVE_COLOR t1 p | inr sub => Some (set_color Black (plug sub p)) end).
Proof. cbn. intros -> Hw. by destruct w as [|[] ? ? ?]. Qed.

Lemma remove_color_red (t : tree nat) (lc : bool) c x wl wx wr p : is_red t = false ->
  RbRemove.RB_REMOVE_COLOR t (Frame lc c x (Node Red wl wx wr) :: p) =
  (res ← sibling lc t Red x (if lc then wl else wr);
   Some (match res with
         | inl t1 => plug (set_color Black t1) (Frame lc Black wx (if lc then wr else wl) :: p)
         | inr sub => set_color Black (plug sub (Frame lc Black wx (if lc then wr else wl) :: p))
         end)).
Proof. cbn. by intros ->. Qed.

(** What is left after the loop: a node that, made black, completes the tree. *)
Definition almost (h : nat) (t' : tree nat) (elm : rbp) : iProp Σ :=
  ∃ t0 p0, ⌜plug (set_color Black t0) p0 = t' /\ rootp t0 = elm⌝ ∗ is_tree (parp p0 None) t0 ∗ is_path h (rootp t0) p0.

Lemma almost_root h t : tree_at h t ⊢ almost h (set_color Black t) (rootp t).
Proof. iIntros "[Ht Hh]". iExists t, []. iSplit; [done|]. unfold is_path. cbn. iFrame. Qed.

Lemma sibling_red lc (t : tree nat) x w t1 : sibling lc t Red x w = Some (inl t1) -> is_red t1 = true.
Proof.
  destruct w as [|cw wl wx wr]; [done|]. cbn [sibling]. destruct (negb (is_red wl) && negb (is_red wr)); [intros H; injection H as <-; by destruct lc|].
  match goal with |- (?m ≫= _) = _ -> _ => destruct m as [w1|]; [|done] end. cbn [mbind option_bind].
  match goal with |- (?m ≫= _) = _ -> _ => by destruct m end.
Qed.

Lemma wp_remove_red fuel h t p Φ : is_red t = true ->
  is_tree (parp p None) t -∗ is_path h (rootp t) p -∗ (∀ e, almost h (plug (set_color Black t) p) e -∗ Φ e) -∗
  wp (remove_color_loop (S fuel) h (parp p None) (rootp t)) Φ.
Proof.
  iIntros (Er) "Ht [Hp Hh] H". cbn [remove_color_loop]. iApply wp_bind. iApply (wp_red_at with "Ht"). iIntros "Ht". wp_step.
  rw Er. cbn [orb]. wp_step. iApply "H". iExists t, p. unfold is_path. by iFrame.
Qed.

(** A red sibling [wx] is rotated above the parent [x], which becomes red. *)
Lemma wp_red_sibling h (lc : bool) t c x wl wx wr p (k : rbM rbp) Φ :
  is_tree (Some x) t -∗ x ↦ frame_ent lc (rootp t) (Some wx) (parp p None) c -∗ is_tree (Some x) (Node Red wl wx wr) -∗ is_path h (Some x) p -∗
  (is_tree (Some x) t -∗ x ↦ frame_ent lc (rootp t) (rootp (if lc then wl else wr)) (Some wx) Red -∗ is_tree (Some x) (if lc then wl else wr) -∗
   is_path h (Some x) (Frame lc Black wx (if lc then wr else wl) :: p) -∗ wp k Φ) -∗
  wp (RB_SET_BLACKRED (Some wx) (Some x);;; rb_rotate lc h (Some x);;; k) Φ.
Proof.
  cbn [is_tree]. iIntros "Ht Hx (Hw & Hwl & Hwr) Hp H". iApply wp_bind. unfold RB_SET_BLACKRED. do 2 wp_step. iApply wp_bind. destruct lc; cbn [rb_rotate].
  - iApply (wp_rotate_left h Red t x Black wl wx wr p with "[-Hp H] Hp"); [cbn; iFrame|].
    cbn [is_tree rootp]. iIntros "(Hw & (Hx & Ht & Hwl) & Hwr) [Hp Hh]". iApply ("H" with "Ht Hx Hwl"). unfold is_path. cbn. iFrame.
  - iApply (wp_rotate_right h Red Black wl wx wr x t p with "[-Hp H] Hp"); [cbn; iFrame|].
    cbn [is_tree rootp]. iIntros "(Hw & Hwl & Hx & Hwr & Ht) [Hp Hh]". iApply ("H" with "Ht Hx Hwr"). unfold is_path. cbn. iFrame.
Qed.

Lemma wp_remove_loop fuel h t p t' Φ : (length p < fuel)%nat -> RbRemove.RB_REMOVE_COLOR t p = Some t' ->
  is_tree (parp p None) t -∗ is_path h (rootp t) p -∗ (∀ e, almost h t' e -∗ Φ e) -∗
  wp (remove_color_loop fuel h (parp p None) (rootp t)) Φ.
Proof.
  revert t p. induction fuel as [|fuel IH]; intros t p Hf E; [lia|]. iIntros "Ht Hp H". destruct (is_red t) eqn:Er.
  { assert (plug (set_color Black t) p = t') as <-.
    { destruct p as [|[lc c x w] p]; [by injection E as <-|]. cbn [RbRemove.RB_REMOVE_COLOR] in E. rw Er in E. by apply (inj Some) in E. }
    by iApply (wp_remove_red with "Ht Hp"). }
  cbn [remove_color_loop]. iApply wp_bind. iApply (wp_red_at with "Ht"). iIntros "Ht". rw Er.
  iDestruct "Hp" as "[Hp Hh]". wp_step. cbn [orb]. destruct p as [|[lc c x w] p]; cbn [topp].
  { rw same_ptr_refl. wp_step. injection E as <-. iApply "H". iApply almost_root. iFrame. }
  cbn [is_seg parp]. iDestruct "Hp" as "(Hx & Hw & Hp)". iDestruct (top_ne with "Ht Hx Hp") as %Hne. rw same_ptr_ne; [|done].
  destruct w as [|cw wl wx wr]; [by cbn in E; rw Er in E|]. wp_step. cbn [is_tree]. iDestruct "Hw" as "(Hwx & Hwl & Hwr)".
  iDestruct (root_ne with "Hwx Ht") as %Hwt. rw !frame_ent_left; [|done]. fold (negb lc). iApply wp_bind. iApply (wp_other with "Hx"). iIntros "Hx".
  wp_step. iAssert (is_tree (Some x) (Node cw wl wx wr)) with "[$Hwx $Hwl $Hwr]" as "Hw". iAssert (is_path h (Some x) p) with "[$Hp $Hh]" as "Hp".
  destruct cw; cbn [is_RED].
  - rw remove_color_black in E; [|done|done]. destruct (sibling lc t c x (Node Black wl wx wr)) as [res|] eqn:Es; [|done].
    iApply (wp_remove_round _ h lc t c x (Node Black wl wx wr) p res with "Ht Hx Hw Hp"); [exact Es|]. destruct res as [t1|sub]; cbn [mbind option_bind] in E.
    + iIntros (Ht1) "Ht Hp". rw -Ht1. iApply (IH t1 p with "Ht Hp H"); [cbn in Hf; lia|exact E].
    + apply (inj Some) in E as <-. iIntros "Ht". iApply "H". by iApply almost_root.
  - rw remove_color_red in E; [|done]. destruct (sibling lc t Red x _) as [res|] eqn:Es; [|done]. cbn [mbind option_bind] in E. apply (inj Some) in E as <-.
    iApply (wp_red_sibling with "Ht Hx Hw Hp"). iIntros "Ht Hx Hw Hp". iApply wp_bind. iApply (wp_other with "Hx"). iIntros "Hx".
    iApply (wp_remove_round _ h lc t Red x _ (Frame lc Black wx (if lc then wr else wl) :: p) res with "Ht Hx Hw Hp"); [exact Es|]. destruct res as [t1|sub].
    + iIntros (Ht1) "Ht Hp". rw -Ht1. destruct fuel; [cbn in Hf; lia|]. iApply (wp_remove_red with "Ht Hp H"). by eapply sibling_red.
    + iIntros "Ht". iApply "H". by iApply almost_root.
Qed.

Lemma wp_remove_color h t p t' Φ : RbRemove.RB_REMOVE_COLOR t p = Some t' ->
  is_tree (parp p None) t -∗ is_path h (rootp t) p -∗ (tree_at h t' -∗ Φ tt) -∗ wp (RB_REMOVE_COLOR h (parp p None) (rootp t)) Φ.
Proof.
  iIntros (E) "Ht Hp H". unfold RB_REMOVE_COLOR. iApply wp_bind.
  iApply (wp_fuel _ _ _ (zipper_owned h (parp p None) t (rootp t) p) with "[$]"). iIntros (n Hn) "[Ht Hp]".
  rw length_app in Hn. pose proof (path_elems_length p). iApply wp_bind. iApply (wp_remove_loop with "Ht Hp"); [lia|exact E|].
  iIntros (e) "(%t0 & %p0 & [<- <-] & Ht & Hp)". iApply (wp_blacken with "Ht"). iIntros "Ht". iApply "H". rw -is_plug. iFrame. by destruct t0.
Qed.

Lemma wp_remove_end h c t p t' Φ : remove_at c t p = Some t' ->
  is_tree (parp p None) t -∗ is_path h (rootp t) p -∗ (tree_at h t' -∗ Φ tt) -∗ wp (remove_end h c (parp p None) (rootp t)) Φ.
Proof.
  iIntros (E) "Ht Hp H". unfold remove_end. destruct c; cbn [is_RED remove_at] in *; [by iApply (wp_remove_color with "Ht Hp")|].
  injection E as <-. wp_step. iApply "H". rw -is_plug. iFrame.
Qed.

(** An element with one child at most. *)
Lemma wp_remove_leafward h x (a b : rbp) c t p t' Φ : remove_at c t p = Some t' ->
  x ↦ mk_ent a b (parp p None) c -∗ is_tree (Some x) t -∗ is_path h (Some x) p -∗ (tree_at h t' -∗ (∃ e, x ↦ e) -∗ Φ tt) -∗
  wp (remove_leafward h (Some x) (rootp t)) Φ.
Proof.
  iIntros (E) "Hx Ht Hp H". unfold remove_leafward. do 2 wp_step. iApply wp_bind. iApply (wp_adopt with "Ht"). iIntros "Ht".
  iApply wp_bind. iApply (wp_relink with "Hx Hp"). iIntros "Hx Hp". iApply (wp_remove_end with "Ht Hp"); [exact E|].
  iIntros "Ht". iApply ("H" with "Ht"). by iExists _.
Qed.

(** ** Paths in two parts *)

Lemma parp_app p1 p2 q : parp (p1 ++ p2) q = parp p1 (parp p2 q).
Proof. by destruct p1 as [|[? ? ? ?] ?]. Qed.

Lemma topp_app hole p1 p2 : topp hole (p1 ++ p2) = topp (topp hole p1) p2.
Proof. revert hole. induction p1 as [|[lc c x o] p1 IH]; intros hole; cbn; [done|apply IH]. Qed.

Lemma is_seg_app hole p1 p2 q : is_seg hole (p1 ++ p2) q ⊣⊢ is_seg hole p1 (parp p2 q) ∗ is_seg (topp hole p1) p2 q.
Proof.
  revert hole. induction p1 as [|[lc c x o] p1 IH]; intros hole; cbn [app is_seg topp]; [by rw left_id|].
  rw IH parp_app. iSplit; [iIntros "(? & ? & ? & ?)"|iIntros "((? & ? & ?) & ?)"]; iFrame.
Qed.

(** The successor [e] of [x] at the end of the left spine of its right subtree. *)
Lemma is_path_inner h hole pe (c : color) (x : nat) (l : tree nat) p :
  is_path h hole (pe ++ Frame false c x l :: p) ⊣⊢
  is_seg hole pe (Some x) ∗ x ↦ mk_ent (rootp l) (topp hole pe) (parp p None) c ∗ is_tree (Some x) l ∗ is_path h (Some x) p.
Proof.
  unfold is_path. rw is_seg_app topp_app. cbn [parp is_seg topp frame_ent].
  iSplit; [iIntros "((? & ? & ? & ?) & ?)"|iIntros "(? & ? & ? & ? & ?)"]; iFrame.
Qed.

(** The top of a path gets another parent. *)
Lemma wp_adopt_seg hole p q q' Φ : p <> [] -> is_seg hole p q -∗ (is_seg hole p q' -∗ Φ tt) -∗ wp (adopt (topp hole p) q') Φ.
Proof.
  intros Hp. iIntros "Hs H". iInduction p as [|[lc c x o] p] "IH" forall (hole Hp Φ); [done|]. cbn [is_seg topp]. iDestruct "Hs" as "(Hx & Ho & Hs)".
  destruct p as [|[lc' c' x' o'] p].
  - cbn [topp adopt parp]. wp_step. iApply "H". destruct lc; cbn; iFrame.
  - iApply ("IH" with "[] Hs"); [done|]. iIntros "Hs". iApply "H". cbn [parp]. iFrame.
Qed.

Lemma wp_walk_left fuel c l x r p q ce e child pe Φ : (length (inorder l) < fuel)%nat -> leftmost c l x r p = (ce, e, child, pe) ->
  is_tree (parp p q) (Node c l x r) -∗ is_seg (Some x) p q -∗
  (e ↦ mk_ent None (rootp child) (parp pe q) ce -∗ is_tree (Some e) child -∗ is_seg (Some e) pe q -∗ Φ (Some e)) -∗ wp (walk_left fuel (Some x)) Φ.
Proof.
  revert fuel c x r p. induction l as [|c1 l1 IH x1 r1 _]; intros fuel c x r p Hf El; (destruct fuel as [|fuel]; [lia|]);
    cbn [is_tree walk_left leftmost rootp] in *; iIntros "(Hx & Hl & Hr) Hp H"; wp_step.
  - injection El as <- <- <- <-. wp_step. iApply ("H" with "Hx Hr Hp").
  - iApply (IH fuel _ _ _ (Frame true c x r :: p) with "[Hl] [Hx Hr Hp] H"); [rw /= length_app /= in Hf; lia|exact El|cbn; iFrame|cbn; iFrame].
Qed.

Lemma leftmost_top c l (x : nat) r p ce e child pe : leftmost c l x r p = (ce, e, child, pe) -> topp (Some e) pe = topp (Some x) p.
Proof. revert c x r p. induction l as [|c1 l1 IH x1 r1 _]; intros c x r p; cbn; [by intros [= <- <- <- <-]|]. by intros ->%IH. Qed.

Lemma wp_augment fuel hole p Φ : p <> [] -> (length p <= fuel)%nat -> is_seg hole p None -∗ (is_seg hole p None -∗ Φ tt) -∗
  wp (augment_up fuel (parp p None)) Φ.
Proof.
  iIntros (Hp Hf) "Hs H". iInduction p as [|[lc c x o] p] "IH" forall (fuel hole Hp Hf Φ); [done|]. destruct fuel as [|fuel]; [cbn in Hf; lia|].
  cbn [is_seg parp augment_up]. iDestruct "Hs" as "(Hx & Ho & Hs)". wp_step. rw frame_ent_parent. destruct p as [|[lc' c' x' o'] p].
  - cbn [parp]. wp_step. iApply "H". iFrame.
  - iApply ("IH" with "[] [] Hs"); [done|iPureIntro; cbn in *; lia|]. iIntros "Hs". iApply "H". iFrame.
Qed.

(** ** RB_REMOVE *)

(** The entry of [x] is copied to [e], and its neighbours are led to [e]. *)
Lemma wp_replace h x e (ent : rb_entry) c l t pe p (k : rbM unit) Φ : l <> Nil ->
  rbe_parent ent = parp pe (Some x) ->
  e ↦ ent -∗ is_tree (parp pe (Some x)) t -∗ is_path h (rootp t) (pe ++ Frame false c x l :: p) -∗
  ((∃ e', x ↦ e') -∗ is_tree (parp pe (Some e)) t -∗ is_path h (rootp t) (pe ++ Frame false c e l :: p) -∗ wp k Φ) -∗
  wp (copy_entry (Some e) (Some x);;; op <- RB_PARENT (Some x);; relink h op (Some x) (Some e);;;
      ol <- RB_LEFT (Some x);; set_parent (Some e) ol;;; or <- RB_RIGHT (Some x);; adopt or (Some e);;; k) Φ.
Proof.
  intros Hl Hent. iIntros "He Ht Hp H". rw is_path_inner. iDestruct "Hp" as "(Hpe & Hx & Hl & Hp)".
  iApply wp_bind. unfold copy_entry. do 3 wp_step. iApply wp_bind. iApply (wp_relink with "Hx Hp"). iIntros "Hx Hp". wp_step.
  iApply wp_bind. destruct l as [|cl ll lx lr]; [done|]. iApply (wp_adopt _ (Some e) (Node cl ll lx lr) with "Hl"). iIntros "Hl". wp_step. iApply wp_bind.
  iAssert (∀ Ψ, (is_seg (rootp t) pe (Some e) -∗ is_tree (parp pe (Some e)) t -∗ Ψ tt) -∗ wp (adopt (topp (rootp t) pe) (Some e)) Ψ)%I
    with "[Hpe Ht]" as "Hw".
  { iIntros (Ψ) "H". destruct pe as [|[lc c' y o] pe].
    - cbn [topp parp]. iApply (wp_adopt with "Ht"). iIntros "Ht". iApply ("H" with "[] Ht"). done.
    - iApply (wp_adopt_seg with "Hpe"); [done|]. iIntros "Hpe". iApply ("H" with "Hpe Ht"). }
  iApply "Hw". iIntros "Hpe Ht". iApply ("H" with "[Hx] Ht"); [by iExists _|]. rw is_path_inner. iFrame.
Qed.

Lemma plug_length (t : tree nat) p : (length p + length (inorder t) <= length (inorder (plug t p)))%nat.
Proof.
  revert t. induction p as [|[lc c x o] p IH]; intros t; [done|]. rw plug_cons. specialize (IH (attach t (Frame lc c x o))).
  destruct lc; cbn in *; rw length_app /= in IH; lia.
Qed.

Lemma wp_remove_inner h c l x r p t' Φ : l <> Nil -> r <> Nil -> RbRemove.RB_REMOVE c l x r p = Some t' ->
  is_tree (parp p None) (Node c l x r) -∗ is_path h (Some x) p -∗ (tree_at h t' -∗ (∃ e, x ↦ e) -∗ Φ tt) -∗ wp (remove_inner h (Some x)) Φ.
Proof.
  intros Hl Hr E. iIntros "Ht Hp H". unfold remove_inner. iApply wp_bind.
  iApply (wp_fuel _ _ _ (zipper_owned h (parp p None) (Node c l x r) (Some x) p) with "[$]"). iIntros (n Hn) "[Ht Hp]".
  cbn [is_tree]. iDestruct "Ht" as "(Hx & Hl & Hr)". wp_step. destruct r as [|cr rl rx rr]; [done|].
  destruct (leftmost cr rl rx rr []) as [[[ce e] child] pe] eqn:El.
  assert (remove_at ce child (pe ++ Frame false c e l :: p) = Some t') as Er.
  { unfold RbRemove.RB_REMOVE in E. rw El in E. by destruct l. } clear E.
  assert (length (inorder rl) <= n /\ length (pe ++ Frame false c e l :: p) <= n)%nat as [Hrl Hpe].
  { apply leftmost_spec in El as Hpl. pose proof (plug_length (Node ce Nil e child) pe) as Hlen. rw -Hpl in Hlen.
    pose proof (path_elems_length p). cbn in Hlen, Hn. rw !length_app /= !length_app /= in Hn, Hlen. rw length_app /=. lia. }
  iApply wp_bind. iApply (wp_walk_left (S n) cr rl rx rr [] (Some x) with "Hr []"); [lia|exact El|done|]. iIntros "He Hc Hpe". do 3 wp_step.
  iAssert (is_path h (Some e) (pe ++ Frame false c x l :: p)) with "[Hx Hl Hpe Hp]" as "Hp".
  { rw is_path_inner (leftmost_top _ _ _ _ _ _ _ _ _ El). iFrame. }
  iApply wp_bind. iApply (wp_adopt with "Hc"). iIntros "Hc". iApply wp_bind.
  replace (parp pe (Some x)) with (parp (pe ++ Frame false c x l :: p) None) by apply parp_app.
  iApply (wp_relink with "He Hp"). iIntros "He Hp". wp_step. rw parp_app. cbn [parp].
  iAssert ⌜(if same_ptr (parp pe (Some x)) (Some x) then Some e else parp pe (Some x)) = parp (pe ++ Frame false c e l :: p) None⌝%I as %->.
  { rw is_path_inner. destruct pe as [|[lc c' y o] pe]; cbn [parp app is_seg]; [by rw same_ptr_refl|]. iDestruct "Hp" as "((Hy & _) & Hx & _)".
    iDestruct (ent_ne with "Hy Hx") as %Hne. iPureIntro. rw same_ptr_ne; [done|congruence]. }
  iApply (wp_replace with "He Hc Hp"); [done|done|]. iIntros "Hx Hc [Hs Hh]". iApply wp_bind.
  iApply (wp_augment with "Hs"); [by destruct pe|lia|]. iIntros "Hs".
  iApply (wp_remove_end _ _ _ _ _ _ Er with "[Hc] [Hs Hh]"); [by rw parp_app|iFrame|]. iIntros "Ht". iApply ("H" with "Ht Hx").
Qed.

Lemma wp_remove h c l x r p t' Φ : RbRemove.RB_REMOVE c l x r p = Some t' ->
  tree_at h (plug (Node c l x r) p) -∗ (tree_at h t' -∗ (∃ e, x ↦ e) -∗ Φ (Some x)) -∗ wp (RB_REMOVE h (Some x)) Φ.
Proof.
  intros E. iIntros "Ht H". rw -is_plug. iDestruct "Ht" as "[Ht Hp]". cbn [is_tree rootp]. iDestruct "Ht" as "(Hx & Hl & Hr)". unfold RB_REMOVE. do 2 wp_step.
  iApply wp_bind. destruct l as [|cl ll lx lr] eqn:El.
  { cbn [rootp is_tree RbRemove.RB_REMOVE] in *. iApply (wp_remove_leafward with "Hx Hr Hp"); [exact E|]. iIntros "Ht Hx". wp_step. iApply ("H" with "Ht Hx"). }
  destruct r as [|cr rl rx rr] eqn:Er'.
  { iApply (wp_remove_leafward h x _ _ c (Node cl ll lx lr) with "Hx Hl Hp"); [exact E|]. iIntros "Ht Hx". wp_step. iApply ("H" with "Ht Hx"). }
  iApply (wp_remove_inner h c (Node cl ll lx lr) x (Node cr rl rx rr) p t' with "[Hx Hl Hr] Hp"); [done|done|exact E|cbn; iFrame|]. iIntros "Ht Hx". wp_step. iApply ("H" with "Ht Hx").
Qed.

(** * Searches *)

Section searches.
Context (cmp : nat -> nat -> Z).

Lemma wp_find_loop fuel elm q t Φ : (length (inorder t) <= fuel)%nat ->
  is_tree q t -∗ (is_tree q t -∗ Φ (RbTree.RB_FIND cmp t elm)) -∗ wp (find_loop cmp fuel elm (rootp t)) Φ.
Proof.
  revert fuel q Φ. induction t as [|c l IHl x r IHr]; intros fuel q Φ Hf; iIntros "Ht H".
  { destruct fuel; cbn [rootp find_loop]; wp_step; by iApply "H". }
  rw /= length_app /= in Hf. destruct fuel as [|fuel]; [lia|]. cbn [rootp find_loop RbTree.RB_FIND is_tree]. iDestruct "Ht" as "(Hx & Hl & Hr)".
  destruct (cmp elm x <? 0); [|destruct (0 <? cmp elm x)]; wp_step.
  - iApply (IHl with "Hl"); [lia|]. iIntros "Hl". iApply "H". iFrame.
  - iApply (IHr with "Hr"); [lia|]. iIntros "Hr". iApply "H". iFrame.
  - iApply "H". iFrame.
Qed.

Lemma wp_nfind_loop fuel elm q t res Φ : (length (inorder t) <= fuel)%nat ->
  is_tree q t -∗ (is_tree q t -∗ Φ (RbTree.RB_NFIND cmp t res elm)) -∗ wp (nfind_loop cmp fuel elm (rootp t) res) Φ.
Proof.
  revert fuel q res Φ. induction t as [|c l IHl x r IHr]; intros fuel q res Φ Hf; iIntros "Ht H".
  { destruct fuel; cbn [rootp nfind_loop]; wp_step; by iApply "H". }
  rw /= length_app /= in Hf. destruct fuel as [|fuel]; [lia|]. cbn [rootp nfind_loop RbTree.RB_NFIND is_tree]. iDestruct "Ht" as "(Hx & Hl & Hr)".
  destruct (cmp elm x <? 0); [|destruct (0 <? cmp elm x)]; wp_step.
  - iApply (IHl with "Hl"); [lia|]. iIntros "Hl". iApply "H". iFrame.
  - iApply (IHr with "Hr"); [lia|]. iIntros "Hr". iApply "H". iFrame.
  - iApply "H". iFrame.
Qed.

Lemma wp_minmax_walk fuel val q t res Φ : (length (inorder t) <= fuel)%nat ->
  is_tree q t -∗ (is_tree q t -∗ Φ (RbTree.RB_MINMAX t res val)) -∗ wp (minmax_walk fuel val (rootp t) res) Φ.
Proof.
  revert fuel q res Φ. induction t as [|c l IHl x r IHr]; intros fuel q res Φ Hf; iIntros "Ht H".
  { destruct fuel; cbn [rootp minmax_walk]; wp_step; by iApply "H". }
  rw /= length_app /= in Hf. destruct fuel as [|fuel]; [lia|]. cbn [rootp minmax_walk RbTree.RB_MINMAX is_tree]. iDestruct "Ht" as "(Hx & Hl & Hr)".
  destruct (val <? 0); cbn [RB_CHILD]; wp_step.
  - iApply (IHl with "Hl"); [lia|]. iIntros "Hl". iApply "H". iFrame.
  - iApply (IHr with "Hr"); [lia|]. iIntros "Hr". iApply "H". iFrame.
Qed.

(** A search from the root of a tree, with the fuel the memory gives. *)
Lemma wp_from_root {A} h t (k : nat -> rbp -> rbM A) Φ :
  tree_at h t -∗ (∀ n, ⌜length (inorder t) <= n⌝%nat -∗ is_tree None t -∗ h ↦r rootp t -∗ wp (k n (rootp t)) Φ) -∗
  wp (n <- rb_fuel;; root <- RB_ROOT h;; k n root) Φ.
Proof.
  iIntros "[Ht Hh] H". iApply wp_bind. iApply (wp_fuel _ _ _ (is_tree_owned None t) with "Ht"). iIntros (n Hn) "Ht". wp_step.
  iApply ("H" $! n Hn with "Ht Hh").
Qed.

Lemma wp_find h elm t Φ : tree_at h t -∗ (tree_at h t -∗ Φ (RbTree.RB_FIND cmp t elm)) -∗ wp (RB_FIND cmp h elm) Φ.
Proof.
  iIntros "Ht H". iApply (wp_from_root with "Ht"). iIntros (n Hn) "Ht Hh". iApply (wp_find_loop with "Ht"); [done|].
  iIntros "Ht". iApply "H". iFrame.
Qed.

Lemma wp_nfind h elm t Φ : tree_at h t -∗ (tree_at h t -∗ Φ (RbTree.RB_NFIND cmp t None elm)) -∗ wp (RB_NFIND cmp h elm) Φ.
Proof.
  iIntros "Ht H". iApply (wp_from_root with "Ht"). iIntros (n Hn) "Ht Hh". iApply (wp_nfind_loop with "Ht"); [done|].
  iIntros "Ht". iApply "H". iFrame.
Qed.

Lemma wp_minmax h val t Φ : tree_at h t -∗ (tree_at h t -∗ Φ (RbTree.RB_MINMAX t None val)) -∗ wp (RB_MINMAX h val) Φ.
Proof.
  iIntros "Ht H". iApply (wp_from_root with "Ht"). iIntros (n Hn) "Ht Hh". iApply (wp_minmax_walk with "Ht"); [done|].
  iIntros "Ht". iApply "H". iFrame.
Qed.

End searches.

(** * The next element *)

Lemma is_seg_plug q t p : is_tree (parp p q) t ∗ is_seg (rootp t) p q ⊣⊢ is_tree q (plug t p).
Proof.
  revert t. induction p as [|[lc c x o] p IH]; intros t; [cbn; by rw right_id|]. rw plug_cons -IH is_attach. cbn [parp is_seg].
  assert (rootp (attach t (Frame lc c x o)) = Some x) as -> by by destruct lc.
  iSplit; [iIntros "(? & ? & ? & ?)"|iIntros "((? & ? & ?) & ?)"]; iFrame.
Qed.

Lemma wp_climb fuel x (e : rb_entry) p Φ : (length p < fuel)%nat -> rbe_parent e = parp p None ->
  x ↦ e -∗ is_seg (Some x) p None -∗ (x ↦ e -∗ is_seg (Some x) p None -∗ Φ (climb p)) -∗ wp (climb_loop fuel (Some x)) Φ.
Proof.
  iIntros (Hf He) "Hx Hp H". iInduction p as [|[lc c y o] p] "IH" forall (fuel x e Hf He Φ); (destruct fuel as [|fuel]; [cbn in Hf; lia|]);
    cbn [climb_loop is_seg parp climb] in *; wp_step; rw He; [wp_step; iApply ("H" with "Hx Hp")|].
  iDestruct "Hp" as "(Hy & Ho & Hp)". iDestruct (root_ne with "Hx Ho") as %Hne. wp_step. destruct lc; cbn [frame_ent rbe_right].
  - rw same_ptr_ne; [|congruence]. wp_step. iApply ("H" with "Hx"). iFrame.
  - rw same_ptr_refl. iApply ("IH" with "[] [] Hy Hp"); [iPureIntro; cbn in Hf; lia|done|]. iIntros "Hy Hp". iApply ("H" with "Hx"). iFrame.
Qed.

Lemma wp_next h c l x r p Φ : tree_at h (plug (Node c l x r) p) -∗ (tree_at h (plug (Node c l x r) p) -∗ Φ (RbRemove.RB_NEXT r p)) -∗
  wp (RB_NEXT (Some x)) Φ.
Proof.
  rw -is_plug. iIntros "Ht H". unfold RB_NEXT. iApply wp_bind.
  iApply (wp_fuel _ _ _ (zipper_owned h (parp p None) (Node c l x r) (Some x) p) with "Ht"). iIntros (n Hn) "[Ht Hp]".
  pose proof (path_elems_length p) as Hpl. cbn in Hn. rw !length_app /= in Hn. cbn [is_tree]. iDestruct "Ht" as "(Hx & Hl & Hr)". wp_step.
  destruct r as [|cr rl rx rr]; cbn [rootp RbRemove.RB_NEXT].
  - wp_step. unfold is_path. iDestruct "Hp" as "[Hp Hh]".
    iAssert (wp (match parp p None with Some _ => l0 <- RB_LEFT (parp p None);; rb_ret (same_ptr (Some x) l0) | None => rb_ret false end)
      (fun b => ⌜b = match p with Frame true _ _ _ :: _ => true | _ => false end⌝ ∗ x ↦ mk_ent (rootp l) None (parp p None) c ∗ is_seg (Some x) p None)%I)
      with "[Hx Hp]" as "Hw".
    { destruct p as [|[lc c' y o] p]; cbn [parp is_seg]; [wp_step; by iFrame|]. iDestruct "Hp" as "(Hy & Ho & Hp)".
      iDestruct (root_ne with "Hx Ho") as %Hne. wp_step. wp_step. iFrame. iPureIntro. rw same_ptr_sym frame_ent_left; [by destruct lc|done]. }
    iApply wp_bind. iApply (wp_mono with "Hw"). iIntros (b) "(-> & Hx & Hp)".
    destruct p as [|[[] c' y o] p]; [|wp_step; iApply "H"; cbn; iFrame|].
    all: iApply (wp_climb with "Hx Hp"); [cbn in *; rw ?length_app in Hn, Hpl; lia|done|]; iIntros "Hx Hp"; iApply "H"; cbn; iFrame.
  - destruct (leftmost cr rl rx rr []) as [[[ce e] child] pe] eqn:El. cbn [fst snd].
    iApply (wp_walk_left n cr rl rx rr [] (Some x) with "Hr []"); [cbn in Hn; rw length_app /= in Hn; lia|exact El|done|].
    iIntros "He Hc Hpe". iAssert (is_tree (Some x) (plug (Node cr rl rx rr) [])) with "[He Hc Hpe]" as "Hr".
    { apply leftmost_spec in El. rw El -is_seg_plug. cbn. iFrame. }
    iApply "H". iFrame.
Qed.

End trees.
