(* ===== verification/RbClient.v ===== *)
(** What the users of the linked red-black trees rely on: every sequence of operations
    on a tree in memory gives the answers of a sorted list. The proofs in the program
    logic of RbLogic.v are turned into statements about runs of the macros. *)

From stdpp Require Import sorting.
From iris.proofmode Require Import proofmode.
From iris.base_logic.lib Require Import ghost_map.
From S2P Require Import Prelude RbTree RbRemove Splay RbMem RbLogic RbLinked.

(** * Adequacy *)

Definition rbΣ : gFunctors := #[ghost_mapΣ nat rb_entry; ghost_mapΣ nat rbp].

Class rbGpreS (Σ : gFunctors) := {
  rbpre_ent :: ghost_mapG Σ nat rb_entry;
  rbpre_head :: ghost_mapG Σ nat rbp
}.

#[export] Instance subG_rbGpreS {Σ} : subG rbΣ Σ -> rbGpreS Σ.
Proof. solve_inG. Qed.

(** A computation with a [wp] has a result in the memory whose cells were given to it. *)
Lemma rb_adequacy {A} (e : rbM A) (m : rb_mem) (φ : A -> rb_mem -> Prop) :
  (forall `{!rbGS rbΣ}, ([∗ map] h ↦ p ∈ rb_heads m, h ↦r p) -∗ ([∗ map] x ↦ en ∈ rb_ents m, x ↦ en) -∗
    wp e (fun a => ∀ m', rb_interp m' -∗ ⌜φ a m'⌝)) ->
  exists a m', e m = Some (a, m') /\ φ a m'.
Proof.
  intros Hwp. apply (sbi.pure_soundness (PROP:=iPropI rbΣ)). apply: uPred.bupd_soundness.
  iMod (ghost_map_alloc (rb_ents m)) as (γe) "[He Hxs]". iMod (ghost_map_alloc (rb_heads m)) as (γh) "[Hh Hhs]".
  set (G := RbGS rbΣ _ _ γe γh). iMod (Hwp G with "Hhs Hxs [$He $Hh]") as (a m' E) "[Hm H]".
  iModIntro. iExists a, m'. iSplit; [done|]. by iApply "H".
Qed.

(** * Linked trees *)

Fixpoint linked_tree (es : gmap nat rb_entry) (q : rbp) (t : tree nat) : Prop :=
  match t with
  | Nil => True
  | Node c l x r => es !! x = Some (mk_ent (rootp l) (rootp r) q c) /\ linked_tree es (Some x) l /\ linked_tree es (Some x) r
  end.

(** The head [h] of the memory leads to exactly the tree [t]. *)
Definition linked (m : rb_mem) (h : nat) (t : tree nat) : Prop :=
  rb_heads m !! h = Some (rootp t) /\ linked_tree (rb_ents m) None t /\ NoDup (inorder t).

Definition without (xs : list nat) (es : gmap nat rb_entry) : gmap nat rb_entry := filter (fun ye => ye.1 ∉ xs) es.

Lemma without_lookup xs es y : without xs es !! y = if decide (y ∈ xs) then None else es !! y.
Proof.
  unfold without. destruct (es !! y) as [e|] eqn:E.
  - case_decide; [apply map_lookup_filter_None_2; right; cbn; naive_solver|by apply map_lookup_filter_Some_2].
  - rw map_lookup_filter_None_2; [by case_decide|by left].
Qed.

Lemma linked_agree es es' q t : (forall y, y ∈ inorder t -> es' !! y = es !! y) -> linked_tree es q t -> linked_tree es' q t.
Proof.
  revert q. induction t as [|c l IHl x r IHr]; intros q H; cbn in *; [done|]. intros (H1 & H2 & H3).
  split_and!; [rw H; [done|set_solver]|apply IHl; [set_solver|done]|apply IHr; [set_solver|done]].
Qed.

Section footprint.
Context `{!rbGS Σ}.

Lemma take_tree es q t : linked_tree es q t -> NoDup (inorder t) ->
  ([∗ map] x ↦ e ∈ es, x ↦ e) ⊢ is_tree q t ∗ ([∗ map] x ↦ e ∈ without (inorder t) es, x ↦ e).
Proof.
  revert es q. induction t as [|c l IHl x r IHr]; intros es q Hl Hn; cbn in *.
  { iIntros "H". iSplit; [done|]. unfold without. rw map_filter_id; [done|]. intros; cbn. apply not_elem_of_nil. }
  destruct Hl as (Hx & Hl & Hr). apply list.NoDup_app in Hn as (Hnl & Hd & Hn). apply list.NoDup_cons in Hn as [Hxr Hnr].
  rw (IHl es (Some x) Hl Hnl). rw (big_sepM_delete _ (without (inorder l) es) x); last first.
  { rw without_lookup. rw decide_False; [exact Hx|]. intros Hi. apply (Hd x Hi). left. }
  rw (IHr (delete x (without (inorder l) es)) (Some x)); [|eapply linked_agree; [|exact Hr]|done]; last first.
  { intros y Hy. assert (y <> x) by (intros ->; done). rw lookup_delete_ne; [|done]. rw without_lookup decide_False; [done|].
    intros Hi. apply (Hd y Hi). by right. }
  assert (without (inorder r) (delete x (without (inorder l) es)) = without (inorder l ++ x :: inorder r) es) as ->.
  { apply map_eq. intros y. rw !without_lookup. destruct (decide (y = x)) as [->|Hne].
    - rw lookup_delete_eq (decide_True _ _ (_ : x ∈ inorder l ++ x :: inorder r)); [by case_decide|set_solver].
    - rw lookup_delete_ne; [|done]. rw without_lookup. repeat case_decide; set_solver. }
  iIntros "(? & ? & ? & ?)". iFrame.
Qed.

(** The same for elements outside the tree. *)
Lemma take_owned es (xs : list nat) : NoDup xs -> (forall y, y ∈ xs -> is_Some (es !! y)) ->
  ([∗ map] x ↦ e ∈ es, x ↦ e) ⊢ owned xs ∗ ([∗ map] x ↦ e ∈ without xs es, x ↦ e).
Proof.
  intros Hn. revert es. induction Hn as [|x xs Hx Hn IH]; intros es Hs.
  { unfold owned, without. cbn. iIntros "H". iSplit; [done|]. rw map_filter_id; [done|]. intros; cbn. apply not_elem_of_nil. }
  rw (IH es); [|intros y Hy; apply Hs; by right]. destruct (Hs x) as [e He]; [left|].
  rw (big_sepM_delete _ (without xs es) x e); [|by rw without_lookup decide_False].
  assert (delete x (without xs es) = without (x :: xs) es) as ->.
  { apply map_eq. intros y. rw without_lookup. destruct (decide (y = x)) as [->|Hne].
    - rw lookup_delete_eq decide_True; [done|left].
    - rw lookup_delete_ne; [|done]. rw without_lookup. repeat case_decide; set_solver. }
  iIntros "(? & ? & ?)". iFrame.
Qed.

(** Back from ownership to the memory. *)
Lemma is_tree_linked m q t : rb_interp m -∗ is_tree q t -∗ ⌜linked_tree (rb_ents m) q t⌝.
Proof.
  iIntros "Hm Ht". iInduction t as [|c l IHl x r IHr] "IH" forall (q); [done|]. cbn. iDestruct "Ht" as "(Hx & Hl & Hr)".
  iDestruct ("IH" with "Hm Hl") as %Hl. iDestruct ("IH1" with "Hm Hr") as %Hr. iDestruct "Hm" as "[_ Hm]".
  by iDestruct (ghost_map_lookup with "Hm Hx") as %Hx.
Qed.

Lemma tree_at_linked m h t : rb_interp m -∗ tree_at h t -∗ ⌜linked m h t⌝.
Proof.
  iIntros "Hm [Ht Hh]". iDestruct (is_tree_linked with "Hm Ht") as %Hl. iDestruct (is_tree_owned with "Ht") as "Ho".
  iDestruct (owned_dom with "Hm Ho") as %[Hn _]. iDestruct "Hm" as "[Hm _]". by iDestruct (ghost_map_lookup with "Hm Hh") as %Hh.
Qed.

End footprint.

(** What an operation on the tree at [h] leaves alone. *)
Definition untouched (h : nat) (xs : list nat) (m m' : rb_mem) : Prop :=
  (forall y e, y ∉ xs -> rb_ents m !! y = Some e -> rb_ents m' !! y = Some e) /\
  (forall h' p, h' <> h -> rb_heads m !! h' = Some p -> rb_heads m' !! h' = Some p).

(** A specification in the logic as a statement about the memory. The operation may use
    the elements [ys] outside the tree. *)
Lemma linked_op {A} (e : rbM A) m h t (ys : list nat) (P : A -> tree nat -> list nat -> Prop) :
  linked m h t -> NoDup (inorder t ++ ys) -> (forall y, y ∈ ys -> is_Some (rb_ents m !! y)) ->
  (forall `{!rbGS rbΣ}, tree_at h t -∗ owned ys -∗ wp e (fun a => ∃ t' ys', ⌜P a t' ys'⌝ ∗ tree_at h t' ∗ owned ys')) ->
  exists a m' t' ys', e m = Some (a, m') /\ P a t' ys' /\ linked m' h t' /\
    (forall y, y ∈ ys' -> is_Some (rb_ents m' !! y)) /\ untouched h (inorder t ++ ys) m m'.
Proof.
  intros (Hh & Hl & Hn) Hd Hys Hwp. apply list.NoDup_app in Hd as (_ & Hd & Hn'). set (φ := fun a m' => exists t' ys', P a t' ys' /\ linked m' h t' /\
    (forall y, y ∈ ys' -> is_Some (rb_ents m' !! y)) /\ untouched h (inorder t ++ ys) m m').
  destruct (rb_adequacy e m φ) as (a & m' & E & t' & ys' & H); [|by exists a, m', t', ys'].
  intros G. iIntros "Hhs Hxs". iDestruct (take_tree _ None t Hl Hn with "Hxs") as "[Ht Hxs]".
  iDestruct (take_owned _ ys Hn' with "Hxs") as "[Hys Hxs]".
  { intros y Hy. rw without_lookup decide_False; [by apply Hys|]. intros Hi. by apply (Hd y Hi). }
  iDestruct (big_sepM_delete _ _ h with "Hhs") as "[Hh Hhs]"; [exact Hh|].
  iApply (wp_mono with "[Ht Hh Hys]"); [iApply (Hwp G with "[$] Hys")|]. iIntros (a) "(%t' & %ys' & %HP & Ht & Hys)". iIntros (m') "Hm".
  iDestruct (tree_at_linked with "Hm Ht") as %Hl'. iDestruct (owned_dom with "Hm Hys") as %[_ Hdom]. iDestruct "Hm" as "[Hmh Hme]".
  iDestruct (ghost_map_lookup_big with "Hme Hxs") as %Hsub. iDestruct (ghost_map_lookup_big with "Hmh Hhs") as %Hsubh.
  iPureIntro. exists t', ys'. split_and!; [done|done| |split].
  - intros y Hy. apply elem_of_dom, Hdom. by apply elem_of_list_to_set.
  - intros y en Hy Hen. eapply lookup_weaken; [|exact Hsub]. apply not_elem_of_app in Hy as [H1 H2].
    rw without_lookup decide_False // without_lookup decide_False //.
  - intros h' p Hne Hp. eapply lookup_weaken; [|exact Hsubh]. rw lookup_delete_ne //.
Qed.

(** * Operations *)

Inductive rbop : Type :=
| RInsert (x : nat)
| RRemove (x : nat)
| RFind (x : nat)
| RNfind (x : nat)
| RNext (x : nat)
| RMin
| RMax.

Section client.
Context (cmp : nat -> nat -> Z) {Hcmp : OrdCmp cmp}.

(** An operation on the tree at [h]. *)
Definition rb_exec (h : nat) (o : rbop) : rbM rbp :=
  match o with
  | RInsert x => RB_INSERT cmp h x
  | RRemove x => RB_REMOVE h (Some x)
  | RFind x => RB_FIND cmp h x
  | RNfind x => RB_NFIND cmp h x
  | RNext x => RB_NEXT (Some x)
  | RMin => RB_MINMAX h (-1)
  | RMax => RB_MINMAX h 1
  end.

(** The same on a sorted list; [RRemove] and [RNext] want an element of the tree. *)
Definition rb_spec (o : rbop) (l : list nat) : option (rbp * list nat) :=
  match o with
  | RInsert x => Some (match same cmp x l with y :: _ => (Some y, l) | [] => (None, below cmp x l ++ x :: above cmp x l) end)
  | RRemove x => if decide (x ∈ l) then Some (Some x, List.filter (fun y => negb (cmp x y =? 0)) l) else None
  | RFind x => Some (head (same cmp x l), l)
  | RNfind x => Some (head (List.filter (fun y => cmp x y <=? 0) l), l)
  | RNext x => if decide (x ∈ l) then Some (head (above cmp x l), l) else None
  | RMin => Some (head l, l)
  | RMax => Some (list.last l, l)
  end.

Fixpoint rb_run {S} (f : rbop -> S -> option (rbp * S)) (ops : list rbop) (s : S) : option (list rbp * S) :=
  match ops with
  | [] => Some ([], s)
  | o :: ops' => r ← f o s; rs ← rb_run f ops' r.2; Some (r.1 :: rs.1, rs.2)
  end.

(** The memory holds a red-black tree with the elements [l] in order. *)
Definition rb_holds (h : nat) (m : rb_mem) (l : list nat) : Prop :=
  exists t, linked m h t /\ rbtree cmp t /\ inorder t = l.

(** ** The tree functions on sorted lists *)

(** The first element of a sorted list with a property. *)
Lemma head_filter (f : nat -> bool) l x : StronglySorted (fun x y => cmp x y < 0) l -> x ∈ l -> f x = true ->
  (forall y, y ∈ l -> f y = true -> cmp x y <= 0) -> head (List.filter f l) = Some x.
Proof.
  intros Hs. induction Hs as [|y l Hs IH Hy]; [by intros ?%not_elem_of_nil|]. intros Hx Hf Hmin. cbn.
  destruct (f y) eqn:Ey.
  - cbn. apply elem_of_cons in Hx as [->|Hx]; [done|]. exfalso. rw list.Forall_forall in Hy. specialize (Hy x Hx).
    specialize (Hmin y ltac:(left) Ey). apply (cmp_gt_lt cmp) in Hy. lia.
  - apply elem_of_cons in Hx as [->|Hx]; [congruence|]. apply IH; [done|done|]. intros z Hz. apply Hmin. by right.
Qed.

Lemma find_head t x : bst cmp t -> RbTree.RB_FIND cmp t x = head (same cmp x (inorder t)).
Proof.
  intros Hb. unfold same. destruct (RbTree.RB_FIND cmp t x) as [y|] eqn:E.
  - apply (find_spec cmp t x y Hb) in E as [Hy Hc]. symmetry. apply head_filter; [done|done|by apply Z.eqb_eq|].
    intros z Hz Hz0. apply Z.eqb_eq in Hz0. apply (cmp_trans y x z); [apply (cmp_eq_sym cmp) in Hc; lia|lia].
  - rw filter_none; [done|]. intros y Hy. apply Z.eqb_neq. intros Hc. assert (RbTree.RB_FIND cmp t x = Some y) by (by apply find_spec). congruence.
Qed.

Lemma nfind_head t x : bst cmp t -> RbTree.RB_NFIND cmp t None x = head (List.filter (fun y => cmp x y <=? 0) (inorder t)).
Proof.
  intros Hb. pose proof (nfind_spec cmp t x Hb) as H. destruct (RbTree.RB_NFIND cmp t None x) as [y|].
  - destruct H as (Hy & Hle & Hmin). symmetry. apply head_filter; [done|done|by apply Z.leb_le|]. intros z Hz Hc%Z.leb_le. by apply Hmin.
  - rw filter_none; [done|]. intros y Hy. specialize (H y Hy). by apply Z.leb_gt.
Qed.

Lemma min_head (t : tree nat) res : RbTree.RB_MINMAX t res (-1) = match head (inorder t) with Some x => Some x | None => res end.
Proof. revert res. induction t as [|c l IHl x r IHr]; intros res; [done|]. cbn. rw IHl. by destruct (inorder l). Qed.

Lemma max_last (t : tree nat) res : RbTree.RB_MINMAX t res 1 = match list.last (inorder t) with Some x => Some x | None => res end.
Proof.
  revert res. induction t as [|c l IHl x r IHr]; intros res; [done|]. cbn. rw IHr last_app last_cons. by destruct (list.last (inorder r)).
Qed.

(** The parts of a sorted list around a place. *)
Lemma parts_at x a b : (forall y, y ∈ a -> cmp y x < 0) -> (forall y, y ∈ b -> cmp x y < 0) ->
  below cmp x (a ++ b) = a /\ same cmp x (a ++ b) = [] /\ above cmp x (a ++ b) = b.
Proof.
  intros Ha Hb. assert (forall y, y ∈ a -> 0 < cmp x y) as Ha' by (intros y Hy; apply (cmp_gt_lt cmp); auto).
  unfold below, same, above. rw !List.filter_app. split_and!.
  - rw filter_all; [|intros y Hy; apply Z.ltb_lt; auto]. rw filter_none; [by rw app_nil_r|]. intros y Hy. apply Z.ltb_ge. specialize (Hb y Hy). lia.
  - rw !filter_none //; intros y Hy; apply Z.eqb_neq; [specialize (Hb y Hy)|specialize (Ha' y Hy)]; lia.
  - rw filter_none; [|intros y Hy; apply Z.ltb_ge; specialize (Ha' y Hy); lia]. rw filter_all; [done|]. intros y Hy. apply Z.ltb_lt. auto.
Qed.

(** Every element of a tree is at the end of a path. *)
Lemma elem_plug (t : tree nat) x : x ∈ inorder t -> exists c l r p, t = plug (Node c l x r) p.
Proof.
  enough (forall p, x ∈ inorder t -> exists c l r p', plug t p = plug (Node c l x r) p') as H by (intros Hx; exact (H [] Hx)).
  induction t as [|c l IHl y r IHr]; intros p; cbn; [by intros ?%not_elem_of_nil|]. rw elem_of_app elem_of_cons. intros [Hx|[->|Hx]].
  - destruct (IHl (Frame true c y r :: p) Hx) as (c' & l' & r' & p' & E). by exists c', l', r', p'.
  - by exists c, l, r, p.
  - destruct (IHr (Frame false c y l :: p) Hx) as (c' & l' & r' & p' & E). by exists c', l', r', p'.
Qed.

(** ** One operation *)

Definition alive (m m' : rb_mem) : Prop := forall y, is_Some (rb_ents m !! y) -> is_Some (rb_ents m' !! y).

Lemma linked_alive es q t y : linked_tree es q t -> y ∈ inorder t -> is_Some (es !! y).
Proof.
  revert q. induction t as [|c l IHl x r IHr]; intros q; cbn; [by intros _ ?%not_elem_of_nil|]. intros (H1 & H2 & H3).
  rw elem_of_app elem_of_cons. intros [Hy|[->|Hy]]; eauto.
Qed.

(** An operation whose result and tree are known. *)
Lemma op_refines (e : rbM rbp) m h t (ys : list nat) r t' ys' :
  linked m h t -> NoDup (inorder t ++ ys) -> (forall y, y ∈ ys -> is_Some (rb_ents m !! y)) ->
  (forall y, y ∈ inorder t ++ ys -> y ∈ inorder t' ++ ys') ->
  (forall `{!rbGS rbΣ} Φ, tree_at h t -∗ owned ys -∗ (tree_at h t' -∗ owned ys' -∗ Φ r) -∗ wp e Φ) ->
  exists m', e m = Some (r, m') /\ linked m' h t' /\ untouched h (inorder t ++ ys) m m' /\ alive m m'.
Proof.
  intros Hl Hn Hys Hsub Hwp.
  destruct (linked_op e m h t ys (fun a t1 ys1 => a = r /\ t1 = t' /\ ys1 = ys') Hl Hn Hys) as (a & m' & t1 & ys1 & E & (-> & -> & ->) & Hl' & Hys' & Hu).
  { intros G. iIntros "Ht Hys". iApply (Hwp G with "Ht Hys"). iIntros "Ht Hys". iExists t', ys'. by iFrame. }
  exists m'. split_and!; [done|done|done|]. intros y [en Hy]. destruct (decide (y ∈ inorder t ++ ys)) as [Hi|Hi].
  - apply Hsub, elem_of_app in Hi as [Hi|Hi]; [|auto]. eapply linked_alive; [apply Hl'|done].
  - exists en. by apply Hu.
Qed.

Definition brings (o : rbop) : list nat := match o with RInsert x => [x] | _ => [] end.

Lemma untouched_app h xs ys m m' : untouched h xs m m' -> untouched h (xs ++ ys) m m'.
Proof. intros [H1 H2]. split; [|exact H2]. intros y e Hy. apply H1. set_solver. Qed.

(** An operation that only reads the tree. *)
Lemma read_refines (e : rbM rbp) m h t r :
  linked m h t -> rbtree cmp t -> (forall `{!rbGS rbΣ} Φ, tree_at h t -∗ (tree_at h t -∗ Φ r) -∗ wp e Φ) ->
  exists m', e m = Some (r, m') /\ rb_holds h m' (inorder t) /\ untouched h (inorder t ++ []) m m' /\ alive m m'.
Proof.
  intros Hl Ht Hwp. destruct (op_refines e m h t [] r t [] Hl) as (m' & E & Hl' & Hu & Ha).
  - rw app_nil_r. apply Hl.
  - by intros y ?%not_elem_of_nil.
  - done.
  - intros G Φ. iIntros "Ht _ H". iApply (Hwp G with "Ht"). iIntros "Ht". iApply ("H" with "Ht"). unfold owned. done.
  - exists m'. split_and!; [done|by exists t|done|done].
Qed.

Lemma insert_refines h m t x : linked m h t -> rbtree cmp t -> is_Some (rb_ents m !! x) -> RbTree.RB_FIND cmp t x = None ->
  exists m', RB_INSERT cmp h x m = Some (None, m') /\ rb_holds h m' (below cmp x (inorder t) ++ x :: above cmp x (inorder t)) /\
    untouched h (inorder t ++ [x]) m m' /\ alive m m'.
Proof.
  intros Hl Ht Hx Hf. destruct (insert_new_spec cmp t x Ht Hf) as (t' & a & b & E & Ht' & Ea & Eb).
  destruct (op_refines (RB_INSERT cmp h x) m h t [x] None t' [] Hl) as (m' & Em & Hl' & Hu & Ha).
  - apply list.NoDup_app. split_and!; [apply Hl| |apply NoDup_singleton]. intros y Hy ->%list_elem_of_singleton.
    pose proof (cmp_refl x) as H0. assert (RbTree.RB_FIND cmp t x = Some x) by (apply find_spec; [done|apply Ht|done]). congruence.
  - intros y ->%list_elem_of_singleton. done.
  - intros y. rw Ea Eb. set_solver.
  - intros G Φ. iIntros "Ht Hx H". unfold owned. cbn. iDestruct "Hx" as "[(%e & Hx) _]".
    iApply (wp_insert_new with "Ht Hx"); [exact E|]. iIntros "Ht". by iApply ("H" with "Ht").
  - exists m'. split_and!; [done| |done|done]. exists t'. split_and!; [done|done|]. destruct Ht' as [Hs _]. unfold bst in Hs. rw Eb in Hs.
    apply sorted_mid in Hs as (H1 & H2 & _). rw Ea Eb. destruct (parts_at x a b H1 H2) as (-> & _ & ->). done.
Qed.

Lemma remove_refines h m t x : linked m h t -> rbtree cmp t -> x ∈ inorder t ->
  exists m', RB_REMOVE h (Some x) m = Some (Some x, m') /\ rb_holds h m' (List.filter (fun y => negb (cmp x y =? 0)) (inorder t)) /\
    untouched h (inorder t ++ []) m m' /\ alive m m'.
Proof.
  intros Hl Ht Hx. destruct (elem_plug t x Hx) as (c & l & r & p & ->).
  destruct (remove_elem_spec cmp c l x r p Ht) as (t' & a & b & E & Ht' & Ea & Eb). set (t := plug (Node c l x r) p) in *.
  destruct (op_refines (RB_REMOVE h (Some x)) m h t [] (Some x) t' [x] Hl) as (m' & Em & Hl' & Hu & Ha).
  - rw app_nil_r. apply Hl.
  - by intros y ?%not_elem_of_nil.
  - intros y. rw Ea Eb. set_solver.
  - intros G Φ. iIntros "Ht _ H". iApply (wp_remove with "Ht"); [exact E|]. iIntros "Ht Hx". iApply ("H" with "Ht"). unfold owned. cbn. by iFrame.
  - exists m'. split_and!; [done| |done|done]. exists t'. split_and!; [done|done|]. destruct Ht as [Hs _]. unfold bst in Hs. rw Ea in Hs.
    apply sorted_mid in Hs as (H1 & H2 & _). rw Ea Eb List.filter_app. cbn. rw (cmp_refl x). cbn.
    rw !filter_all //; intros y Hy; rw (proj2 (Z.eqb_neq _ _)) //; [specialize (H2 y Hy); lia|].
    specialize (H1 y Hy). apply (cmp_gt_lt cmp) in H1. lia.
Qed.

Lemma rb_exec_refines h o m l r l' :
  rb_holds h m l -> (forall x, x ∈ brings o -> is_Some (rb_ents m !! x)) -> rb_spec o l = Some (r, l') ->
  exists m', rb_exec h o m = Some (r, m') /\ rb_holds h m' l' /\ untouched h (l ++ brings o) m m' /\ alive m m'.
Proof.
  intros (t & Hl & Ht & <-) Hx Es. pose proof Ht as (Hb & _). destruct o as [x|x|x|x|x| |]; cbn [rb_spec rb_exec brings] in *.
  - pose proof (find_head t x Hb) as Hf. destruct (same cmp x (inorder t)) as [|y k]; injection Es as <- <-.
    + apply insert_refines; [done|done|apply Hx; left|done].
    + destruct (read_refines (RB_INSERT cmp h x) m h t (Some y) Hl Ht) as (m' & E & Hh & Hu & Ha).
      { intros G Φ. by apply wp_insert_old. }
      rw app_nil_r in Hu. exists m'. split_and!; [done|done|by apply untouched_app|done].
  - case_decide; [|done]. injection Es as <- <-. by apply remove_refines.
  - injection Es as <- <-. rw -find_head //. apply read_refines; [done|done|]. intros G Φ. apply wp_find.
  - injection Es as <- <-. rw -nfind_head //. apply read_refines; [done|done|]. intros G Φ. apply wp_nfind.
  - case_decide as Hi; [|done]. injection Es as <- <-. destruct (elem_plug t x Hi) as (c & l & k & p & ->).
    destruct (rb_next_correct c l x k p) as (a & b & Ei & En). unfold bst in Hb. rw Ei in Hb. apply sorted_mid in Hb as (H1 & H2 & _).
    assert (above cmp x (inorder (plug (Node c l x k) p)) = b) as ->.
    { rw Ei. destruct (parts_split cmp x a x b) as (_ & _ & ->); [intros y Hy; apply (cmp_gt_lt cmp); auto|done|]. by rw (cmp_refl x). }
    rw -En. apply read_refines; [done|done|]. intros G Φ. apply wp_next.
  - injection Es as <- <-. pose proof (min_head t None) as Hm. destruct (head (inorder t)); rw -Hm; (apply read_refines; [done|done|]); intros G Φ; apply wp_minmax.
  - injection Es as <- <-. pose proof (max_last t None) as Hm. destruct (list.last (inorder t)); rw -Hm; (apply read_refines; [done|done|]); intros G Φ; apply wp_minmax.
Qed.

(** ** Programs *)

Lemma rb_spec_elems o l r l' y : rb_spec o l = Some (r, l') -> y ∈ l' -> y ∈ l ++ brings o.
Proof.
  assert (forall f, y ∈ List.filter f l -> y ∈ l) as Hf.
  { intros f. rw !list_elem_of_In List.filter_In. tauto. }
  destruct o as [x|x|x|x|x| |]; cbn; try (intros H; injection H as <- <-; set_solver).
  - destruct (same cmp x l); intros H; injection H as <- <-; [|set_solver]. rw !elem_of_app elem_of_cons.
    unfold below, above. intros [Hy|[->|Hy]]; [left; by eapply Hf|right; left|left; by eapply Hf].
  - case_decide; intros Hs; [|done]. injection Hs as <- <-. rw app_nil_r. apply Hf.
  - case_decide; intros Hs; [|done]. injection Hs as <- <-. by rw app_nil_r.
Qed.

Lemma untouched_trans h xs ys m1 m2 m3 : untouched h xs m1 m2 -> untouched h ys m2 m3 -> untouched h (xs ++ ys) m1 m3.
Proof.
  intros [H1 H2] [H3 H4]. split.
  - intros y e Hy He. apply H3; [set_solver|]. apply H1; [set_solver|done].
  - intros h' p Hn Hp. auto.
Qed.

(** C19: The red-black macros of tree.h implement sorted sets on linked memory: from
    any memory whose head [h] links a red-black tree with the elements [l] in order,
    every sequence of RB_INSERT, RB_REMOVE, RB_FIND, RB_NFIND, RB_NEXT, RB_MIN and
    RB_MAX runs without following NULL or a stale pointer and every loop ends; each
    call returns what the same operation on the sorted list returns; all left, right
    and parent pointers, colours and the head link a red-black tree of the resulting
    list again; and no other head and no element that is neither in the tree nor
    inserted is written. *)
Theorem rb_linked_refines h ops m l outs l' :
  rb_holds h m l -> (forall x, RInsert x ∈ ops -> is_Some (rb_ents m !! x)) ->
  rb_run rb_spec ops l = Some (outs, l') ->
  exists m', rb_run (rb_exec h) ops m = Some (outs, m') /\ rb_holds h m' l' /\
    untouched h (l ++ concat (brings <$> ops)) m m'.
Proof.
  revert m l outs. induction ops as [|o ops IH]; intros m l outs Hh Hx; cbn [rb_run].
  { intros [= <- <-]. exists m. split_and!; [done|done|]. by split. }
  destruct (rb_spec o l) as [[r l1]|] eqn:Eo; [|done]. cbn [mbind option_bind fst snd].
  destruct (rb_run rb_spec ops l1) as [[outs1 l2]|] eqn:Er; [|done]. intros H. injection H as <- <-.
  destruct (rb_exec_refines h o m l r l1 Hh) as (m1 & E1 & Hh1 & Hu1 & Ha1); [|done|].
  { intros x Hi. apply Hx. destruct o; cbn in Hi; try by apply not_elem_of_nil in Hi. apply list_elem_of_singleton in Hi as ->. left. }
  destruct (IH m1 l1 outs1 Hh1) as (m2 & E2 & Hh2 & Hu2); [|done|].
  { intros x Hi. apply Ha1, Hx. by right. }
  exists m2. rw E1. cbn [mbind option_bind fst snd]. rw E2. split_and!; [done|done|].
  pose proof (untouched_trans _ _ _ _ _ _ Hu1 Hu2) as [H1 H2]. split; [|exact H2]. intros y e Hy. apply H1. cbn [fmap list_fmap concat] in Hy.
  pose proof (rb_spec_elems o l r l1 y Eo). set_solver.
Qed.

End client.

(** * Witness *)

(** Elements 0 to 9, ordered by their addresses, all outside a tree, with arbitrary
    pointers in them. *)
Definition addr_cmp (x y : nat) : Z := Z.of_nat x - Z.of_nat y.

#[export] Instance addr_cmp_ord : OrdCmp addr_cmp.
Proof. split; unfold addr_cmp; intros; lia. Qed.

Definition demo_mem : rb_mem :=
  mk_rb {[0%nat := None]} (list_to_map ((fun x => (x, mk_ent (Some 77%nat) (Some 78%nat) (Some 79%nat) Red)) <$> seq 0 10)).

Definition demo_ops : list rbop :=
  [RInsert 3; RInsert 1; RInsert 2; RInsert 7; RInsert 5; RInsert 3; RFind 7; RNfind 4; RNext 3; RMin; RMax;
   RRemove 3; RRemove 1; RFind 3; RInsert 9; RNext 9; RMin]%nat.

Lemma rb_linked_refines_witness :
  exists m', rb_run (rb_exec addr_cmp 0) demo_ops demo_mem =
    Some ([None; None; None; None; None; Some 3; Some 7; Some 5; Some 5; Some 1; Some 7; Some 3; Some 1; None; None; None; Some 2]%nat, m') /\
    rb_holds addr_cmp 0 m' [2; 5; 7; 9]%nat.
Proof.
  destruct (rb_linked_refines addr_cmp 0 demo_ops demo_mem []
    [None; None; None; None; None; Some 3; Some 7; Some 5; Some 5; Some 1; Some 7; Some 3; Some 1; None; None; None; Some 2]%nat
    [2; 5; 7; 9]%nat) as (m' & E & Hh & _).
  - exists Nil. split_and!; [split_and!; [reflexivity|exact I|constructor]| |reflexivity]. split; [constructor|]. split; [reflexivity|]. exists 0%nat. constructor.
  - intros x Hx. unfold demo_ops in Hx. repeat (apply elem_of_cons in Hx as [Hx|Hx]; [try discriminate Hx; injection Hx as ->; eexists; vm_compute; reflexivity|]).
    by apply not_elem_of_nil in Hx.
  - vm_compute. reflexivity.
  - exists m'. split; [exact E|exact Hh].
Defined.
