(* ===== verification/Stage.v ===== *)
(** The index of stages by module name: src/csf/pipeline_stage.c. The operations
    are proved against the interface [OrderedIndex] of RbTree.v, which the
    red-black trees of tree.h implement. A stage is known by its name and the
    address of its RQCB. *)

From S2P Require Import Prelude CString RbTree.

Definition MAX_MOD_NAME_LEN : nat := 64.
Definition STAGE_ADD_ERR : Z := -1.
Definition STAGE_ADD_OK : Z := 0.
Definition STAGE_SET_ERR : Z := -1.
Definition STAGE_SET_OK : Z := 0.

(** An RQCB as the tree sees it: its [mod_name] and its address. *)
Record stage_node : Type := mk_stage { sn_name : cstr; sn_addr : nat }.

(** [name_cmp]. *)
Definition name_cmp (a b : stage_node) : Z :=
  let diff := strncmp (MAX_MOD_NAME_LEN - 1) (sn_name a) (sn_name b) in
  if diff =? 0 then 0 else if diff <? 0 then -1 else 1.

Lemma name_cmp_sgn a b : name_cmp a b = Z.sgn (strncmp (MAX_MOD_NAME_LEN - 1) (sn_name a) (sn_name b)).
Proof. unfold name_cmp. set (d := strncmp _ _ _). by destruct d. Qed.

#[export] Instance name_cmp_ord : OrdCmp name_cmp.
Proof.
  split; intros; rewrite ?name_cmp_sgn in *.
  - by rewrite strncmp_refl.
  - rewrite !Z.sgn_sgn, strncmp_opp. apply Z.sgn_opp.
  - rewrite Z.sgn_nonpos in *. by eapply strncmp_trans.
Qed.

Lemma name_cmp_zero a b : no_nul (sn_name a) -> no_nul (sn_name b) ->
  name_cmp a b = 0 <-> strlcpy_str MAX_MOD_NAME_LEN (sn_name a) = strlcpy_str MAX_MOD_NAME_LEN (sn_name b).
Proof.
  intros Ha Hb. rewrite name_cmp_sgn, Z.sgn_null_iff. by apply strncmp_zero.
Qed.

(** * Operations *)

Section stage.
Context {T : Type} `{!OrderedIndex name_cmp T}.

(** [stage_init]; [None] is the exit of CRIT when the allocation fails. *)
Definition stage_init (malloc_ok : bool) (p : option T) : option T :=
  match p with
  | Some t => Some t
  | None => if malloc_ok then Some ix_empty else None
  end.

(** [stage_add]. *)
Definition stage_add (stage_rqcb_rbt : T) (rqcbp : stage_node) : option (T * Z) :=
  r ← ix_insert stage_rqcb_rbt rqcbp;
  Some (r.1, match r.2 with None => STAGE_ADD_OK | Some _ => STAGE_ADD_ERR end).

(** [stage_find]; the address of the local [find] does not matter. *)
Definition stage_find (stage_rqcb_rbt : T) (name : cstr) : option nat :=
  sn_addr <$> ix_find stage_rqcb_rbt (mk_stage (strlcpy_str MAX_MOD_NAME_LEN name) 0).

(** [set_next_stage] on the [next_rqcbp] of a worker. *)
Definition set_next_stage (stage_rqcb_rbt : T) (next_rqcbp : option nat) (stage_name : cstr)
  : option nat * Z :=
  match stage_find stage_rqcb_rbt stage_name with
  | None => (next_rqcbp, STAGE_SET_ERR)
  | Some rqcbp => (Some rqcbp, STAGE_SET_OK)
  end.

(** The names of the index are C strings of at most 63 characters. *)
Definition stages_ok (t : T) : Prop :=
  ix_wf t /\ forall n, n ∈ ix_elems t -> no_nul (sn_name n) /\ strlcpy_str MAX_MOD_NAME_LEN (sn_name n) = sn_name n.

Lemma strlcpy_str_idem n s : strlcpy_str n (strlcpy_str n s) = strlcpy_str n s.
Proof. unfold strlcpy_str. rewrite take_take. f_equal. lia. Qed.

(** A node compares equal to a name exactly when it carries it. *)
Lemma cmp_name t n name : stages_ok t -> no_nul name -> n ∈ ix_elems t ->
  name_cmp (mk_stage (strlcpy_str MAX_MOD_NAME_LEN name) 0) n = 0 <-> sn_name n = strlcpy_str MAX_MOD_NAME_LEN name.
Proof.
  intros [_ Hok] Hn Hm. destruct (Hok n Hm) as [Hnn Htr].
  rewrite name_cmp_zero by (done || by apply no_nul_take). cbn [sn_name]. rewrite strlcpy_str_idem, Htr. split; congruence.
Qed.

Lemma stage_find_Some t name a : stages_ok t -> no_nul name ->
  stage_find t name = Some a <->
  exists n, n ∈ ix_elems t /\ sn_name n = strlcpy_str MAX_MOD_NAME_LEN name /\ sn_addr n = a.
Proof.
  intros Ht Hn. unfold stage_find. rewrite fmap_Some. split.
  - intros (n & [Hm Hc]%ix_find_Some & ->); [|apply Ht]. exists n. by rewrite (cmp_name t n name) in Hc.
  - intros (n & Hm & Hc & <-). exists n. split; [|done]. apply ix_find_Some; [apply Ht|].
    split; [done|]. by apply (cmp_name t).
Qed.

(** An index whose nodes with equal names are the same node. *)
Lemma stage_names_inj t n n' : stages_ok t -> n ∈ ix_elems t -> n' ∈ ix_elems t -> sn_name n = sn_name n' -> n = n'.
Proof.
  intros [Hw Hok] Hn Hn' E. assert (ix_find t n = Some n' /\ ix_find t n = Some n) as [H1 H2]; [|congruence].
  split; apply ix_find_Some; try done; (split; [done|]); rewrite name_cmp_sgn, <-?E, strncmp_refl; done.
Qed.

Lemma stage_add_ok t n a : stages_ok t -> no_nul n ->
  match stage_find t n with
  | Some _ => stage_add t (mk_stage (strlcpy_str MAX_MOD_NAME_LEN n) a) = Some (t, STAGE_ADD_ERR)
  | None => exists t', stage_add t (mk_stage (strlcpy_str MAX_MOD_NAME_LEN n) a) = Some (t', STAGE_ADD_OK) /\
      stages_ok t' /\ forall m, no_nul m ->
        stage_find t' m = if decide (strlcpy_str MAX_MOD_NAME_LEN m = strlcpy_str MAX_MOD_NAME_LEN n)
                          then Some a else stage_find t m
  end.
Proof.
  intros Ht Hn. set (node := mk_stage _ a).
  assert (ix_find t node = ix_find t (mk_stage (strlcpy_str MAX_MOD_NAME_LEN n) 0)) as Hsame.
  { apply option_eq. intros x. by rewrite !ix_find_Some by apply Ht. }
  unfold stage_find at 1. rewrite <-Hsame. destruct (ix_find t node) as [x|] eqn:Ef; cbn [fmap option_fmap option_map].
  { unfold stage_add. rewrite (ix_insert_old t node x) by (apply Ht || done). done. }
  destruct (ix_insert_new t node (proj1 Ht) Ef) as (t' & E' & Hw' & Hel). exists t'. unfold stage_add. rewrite E'.
  split; [done|]. assert (stages_ok t') as Ht'.
  { split; [done|]. intros m [->|Hm]%Hel; [|by apply Ht]. cbn [sn_name].
    split; [by apply no_nul_take|apply strlcpy_str_idem]. }
  split; [done|]. intros m Hm. case_decide as Hd.
  - apply stage_find_Some; [done..|]. exists node. split; [apply Hel; by left|done].
  - apply option_eq. intros b. rewrite !stage_find_Some by done. split; intros (k & Hk & Hkn & Hka).
    + apply Hel in Hk as [->|Hk]; [by destruct Hd|]. by exists k.
    + exists k. split; [apply Hel; by right|done].
Qed.

(** [stage_add] refuses a stage exactly when one with the same first 63
    characters is known, and then changes nothing; otherwise the new index finds
    the new stage under its name, and every other name as before. *)
Theorem stage_add_correct t n a : stages_ok t -> no_nul n ->
  match stage_find t n with
  | Some _ => stage_add t (mk_stage (strlcpy_str MAX_MOD_NAME_LEN n) a) = Some (t, STAGE_ADD_ERR)
  | None => exists t', stage_add t (mk_stage (strlcpy_str MAX_MOD_NAME_LEN n) a) = Some (t', STAGE_ADD_OK) /\
      stages_ok t' /\ forall m, no_nul m ->
        stage_find t' m = if decide (strlcpy_str MAX_MOD_NAME_LEN m = strlcpy_str MAX_MOD_NAME_LEN n)
                          then Some a else stage_find t m
  end.
Proof. apply stage_add_ok. Qed.

(** A handler that names a stage gets exactly that stage as its next one, and
    an unknown name is reported and leaves the choice as it was. *)
Theorem set_next_stage_correct t next name : stages_ok t -> no_nul name ->
  (forall n, n ∈ ix_elems t -> sn_name n = strlcpy_str MAX_MOD_NAME_LEN name ->
     set_next_stage t next name = (Some (sn_addr n), STAGE_SET_OK)) /\
  ((forall n, n ∈ ix_elems t -> sn_name n <> strlcpy_str MAX_MOD_NAME_LEN name) ->
     set_next_stage t next name = (next, STAGE_SET_ERR)).
Proof.
  intros Ht Hn. unfold set_next_stage. split.
  - intros n Hm Hname. rewrite (proj2 (stage_find_Some t name (sn_addr n) Ht Hn)); [done|by exists n].
  - intros Hnone. destruct (stage_find t name) as [a|] eqn:E; [|done].
    apply stage_find_Some in E as (n & Hm & Hname & _); [|done..]. by destruct (Hnone n Hm).
Qed.

End stage.

(** Two stages in a tree. *)
Definition stage_demo : tree stage_node :=
  match stage_add (T:=tree stage_node) Nil (mk_stage (L"parse") 0) with
  | Some (t, _) => match stage_add t (mk_stage (L"store") 1) with Some (t', _) => t' | None => Nil end
  | None => Nil
  end.

Lemma stage_demo_ok : stages_ok stage_demo.
Proof.
  split.
  - replace stage_demo with (Node Black Nil (mk_stage (L"parse") 0) (Node Red Nil (mk_stage (L"store") 1) Nil))
      by (vm_compute; reflexivity).
    split; [|split; [reflexivity|exists 1%nat; by repeat constructor]].
    unfold bst. cbn [inorder app]. constructor; [by repeat constructor|].
    constructor; [|constructor]. vm_compute. reflexivity.
  - apply (list.Forall_forall (fun n => no_nul (sn_name n) /\ strlcpy_str MAX_MOD_NAME_LEN (sn_name n) = sn_name n)).
    apply (bool_decide_unpack _). vm_compute. exact I.
Qed.

Lemma stage_add_correct_witness :
  exists t', stage_add stage_demo (mk_stage (strlcpy_str MAX_MOD_NAME_LEN (L"log")) 2) = Some (t', STAGE_ADD_OK) /\
    stage_find t' (L"log") = Some 2%nat.
Proof.
  destruct (stage_add_correct stage_demo (L"log") 2 stage_demo_ok) as (t' & E & _ & Hf).
  - apply (bool_decide_unpack _). vm_compute. exact I.
  - exists t'. split; [exact E|]. rewrite Hf; [reflexivity|]. apply (bool_decide_unpack _). vm_compute. exact I.
Defined.

Lemma set_next_stage_correct_witness :
  set_next_stage stage_demo None (L"store") = (Some 1%nat, STAGE_SET_OK).
Proof.
  destruct (set_next_stage_correct stage_demo None (L"store") stage_demo_ok) as [H _].
  - apply (bool_decide_unpack _). vm_compute. exact I.
  - apply (H (mk_stage (L"store") 1)); [|reflexivity]. vm_compute. right. left.
Defined.
