(* ===== verification/StageMem.v ===== *)
(** The index of stages (src/csf/pipeline_stage.c) on the linked memory of its
    red-black tree: the RQCBs are elements of the memory, [stage_add] and
    [set_next_stage] run the macros of RbMem.v, and together they are a finite map from
    module names to stages. *)

From S2P Require Import Prelude CString RbTree Splay Stage RbMem RbClient.

(** [name_cmp] of the RQCBs at two addresses; [nm] gives the [mod_name] at an address. *)
Definition addr_name_cmp (nm : nat -> cstr) (x y : nat) : Z := name_cmp (mk_stage (nm x) x) (mk_stage (nm y) y).

#[export] Instance addr_name_cmp_ord nm : OrdCmp (addr_name_cmp nm).
Proof. split; intros; unfold addr_name_cmp in *; [apply cmp_refl|apply cmp_opp|by eapply cmp_trans]. Qed.

(** [stage_add]. *)
Definition stage_add_mem (nm : nat -> cstr) (h a : nat) : rbM Z :=
  p <- RB_INSERT (addr_name_cmp nm) h a;;
  rb_ret (match p with None => STAGE_ADD_OK | Some _ => STAGE_ADD_ERR end).

(** [stage_find]: the local [find], at the address [loc], gets a copy of the name. *)
Definition stage_find_mem (nm : nat -> cstr) (h loc : nat) (name : cstr) : rbM rbp :=
  RB_FIND (addr_name_cmp (fun y => if Nat.eqb y loc then strlcpy_str MAX_MOD_NAME_LEN name else nm y)) h loc.

(** [set_next_stage] on the [next_rqcbp] of a worker. *)
Definition set_next_stage_mem (nm : nat -> cstr) (h loc : nat) (next_rqcbp : rbp) (stage_name : cstr) : rbM (rbp * Z) :=
  rqcbp <- stage_find_mem nm h loc stage_name;;
  rb_ret (match rqcbp with None => (next_rqcbp, STAGE_SET_ERR) | Some _ => (rqcbp, STAGE_SET_OK) end).

Inductive stage_op : Type :=
| SgAdd (a : nat)
| SgSet (next : rbp) (name : cstr).

Section index.
Context (nm : nat -> cstr) (h loc : nat).

Definition stage_exec (o : stage_op) : rbM (rbp * Z) :=
  match o with
  | SgAdd a => rc <- stage_add_mem nm h a;; rb_ret (None, rc)
  | SgSet next name => set_next_stage_mem nm h loc next name
  end.

(** The same on a finite map of names. *)
Definition stage_spec (o : stage_op) (M : gmap cstr nat) : (rbp * Z) * gmap cstr nat :=
  match o with
  | SgAdd a => match M !! nm a with Some _ => ((None, STAGE_ADD_ERR), M) | None => ((None, STAGE_ADD_OK), <[nm a:=a]> M) end
  | SgSet next name =>
      match M !! strlcpy_str MAX_MOD_NAME_LEN name with
      | Some b => ((Some b, STAGE_SET_OK), M)
      | None => ((next, STAGE_SET_ERR), M)
      end
  end.

Fixpoint stage_run (ops : list stage_op) (m : rb_mem) : option (list (rbp * Z) * rb_mem) :=
  match ops with
  | [] => Some ([], m)
  | o :: ops' => r ← stage_exec o m; rs ← stage_run ops' r.2; Some (r.1 :: rs.1, rs.2)
  end.

Fixpoint stage_spec_run (ops : list stage_op) (M : gmap cstr nat) : list (rbp * Z) * gmap cstr nat :=
  match ops with
  | [] => ([], M)
  | o :: ops' => let r := stage_spec o M in let rs := stage_spec_run ops' r.2 in (r.1 :: rs.1, rs.2)
  end.

(** A name as [request_queue_init] copies it into an RQCB. *)
Definition mod_name_ok (s : cstr) : Prop := no_nul s /\ strlcpy_str MAX_MOD_NAME_LEN s = s.

(** The head [h] links a red-black tree of the stages of the map. *)
Definition index_holds (m : rb_mem) (M : gmap cstr nat) : Prop :=
  exists l, rb_holds (addr_name_cmp nm) h m l /\ (loc ∉ l) /\ (forall a, a ∈ l -> mod_name_ok (nm a)) /\
    forall k a, M !! k = Some a <-> (a ∈ l /\ nm a = k).

Definition op_ok (m : rb_mem) (o : stage_op) : Prop :=
  match o with
  | SgAdd a => is_Some (rb_ents m !! a) /\ a <> loc /\ mod_name_ok (nm a)
  | SgSet _ name => no_nul name
  end.

(** ** Names and order *)

Lemma cmp_names (nm' : nat -> cstr) x y : mod_name_ok (nm' x) -> mod_name_ok (nm' y) -> addr_name_cmp nm' x y = 0 <-> nm' x = nm' y.
Proof.
  intros [Hx Ex] [Hy Ey]. unfold addr_name_cmp. rewrite name_cmp_zero; [|exact Hx|exact Hy]. cbn [sn_name]. by rewrite Ex, Ey.
Qed.

Lemma elem_same (cmp : nat -> nat -> Z) x y l : y ∈ same cmp x l <-> y ∈ l /\ cmp x y = 0.
Proof. unfold same. rewrite !list_elem_of_In, List.filter_In, Z.eqb_eq. tauto. Qed.

Lemma elem_inserted (cmp : nat -> nat -> Z) x y l : same cmp x l = [] -> y ∈ below cmp x l ++ x :: above cmp x l <-> y = x \/ y ∈ l.
Proof.
  intros Hs. unfold below, above. rewrite elem_of_app, elem_of_cons, !list_elem_of_In, !List.filter_In, !Z.ltb_lt. split; [tauto|].
  intros [->|Hy]; [tauto|]. assert (y ∉ same cmp x l) as Hn by (rewrite Hs; apply not_elem_of_nil).
  rewrite elem_same, list_elem_of_In in Hn. destruct (Z.lt_trichotomy (cmp x y) 0) as [?|[?|?]]; tauto.
Qed.

(** Only the order of the elements matters. *)
Lemma rb_holds_ext (cmp cmp' : nat -> nat -> Z) k m l : (forall x y, x ∈ l -> y ∈ l -> cmp' x y = cmp x y) ->
  rb_holds cmp k m l -> rb_holds cmp' k m l.
Proof.
  intros He (t & Hl & (Hb & Hr) & <-). exists t. split; [done|]. split; [|done]. split; [|done]. unfold bst in *. clear Hr Hl.
  induction Hb as [|x l Hs IH Hx]; constructor; [apply IH; intros; apply He; by right|].
  rewrite list.Forall_forall in Hx. apply list.Forall_forall. intros y Hy. rewrite He; [by apply Hx|left|by right].
Qed.

(** ** One operation *)

Lemma add_refines a m M : index_holds m M -> op_ok m (SgAdd a) ->
  exists m', stage_exec (SgAdd a) m = Some ((stage_spec (SgAdd a) M).1, m') /\ index_holds m' (stage_spec (SgAdd a) M).2 /\ alive m m'.
Proof.
  intros (l & Hh & Hloc & Hok & HM) (Ha & Hne & Hna). set (cmp := addr_name_cmp nm).
  assert (forall y, y ∈ same cmp a l <-> y ∈ l /\ nm y = nm a) as Hsame.
  { intros y. rewrite elem_same. split; intros [Hy Hc]; (split; [done|]); unfold cmp in *; [|by rewrite cmp_names; auto].
    rewrite cmp_names in Hc; auto. }
  destruct (rb_spec cmp (RInsert a) l) as [[r l']|] eqn:Es; [|done].
  destruct (rb_exec_refines cmp h (RInsert a) m l r l' Hh) as (m' & E & Hh' & _ & Hal); [by intros x ->%list_elem_of_singleton|done|].
  exists m'. cbn [stage_exec stage_spec rb_spec rb_exec] in *. unfold stage_add_mem, rb_bind, rb_ret. fold cmp. rewrite E. cbn [mbind option_bind fst snd].
  destruct (same cmp a l) as [|y k] eqn:Esame.
  - injection Es as <- <-. destruct (M !! nm a) as [b|] eqn:EM.
    { apply HM, Hsame in EM. by apply not_elem_of_nil in EM. }
    split; [done|]. split; [|done]. exists (below cmp a l ++ a :: above cmp a l). split; [done|].
    pose proof (fun y => elem_inserted cmp a y l Esame) as Hel. split_and!.
    + rewrite Hel. naive_solver.
    + intros y [->|Hy]%Hel; auto.
    + intros key y. cbn [snd]. rewrite Hel, lookup_insert_Some, HM. split; [naive_solver|]. intros [[->|Hy] <-]; [by left|right]. split; [|done].
      intros Hn. assert (y ∈ []) as Hi by (apply Hsame; split; [done|congruence]). by apply not_elem_of_nil in Hi.
  - injection Es as <- <-. assert (M !! nm a = Some y) as -> by (apply HM, Hsame; left). split; [done|]. split; [|done]. by exists l.
Qed.

Lemma set_refines next name m M : index_holds m M -> no_nul name ->
  exists m', stage_exec (SgSet next name) m = Some ((stage_spec (SgSet next name) M).1, m') /\ index_holds m' M /\ alive m m'.
Proof.
  intros (l & Hh & Hloc & Hok & HM) Hn. set (key := strlcpy_str MAX_MOD_NAME_LEN name).
  set (nm' := fun y => if Nat.eqb y loc then key else nm y). assert (forall y, y ∈ l -> nm' y = nm y) as Hnm.
  { intros y Hy. unfold nm'. destruct (Nat.eqb_spec y loc) as [->|]; done. }
  assert (nm' loc = key) as Hkey by (unfold nm'; by rewrite Nat.eqb_refl).
  assert (mod_name_ok key) as Hk by (split; [by apply no_nul_take|apply strlcpy_str_idem]).
  assert (forall y, y ∈ same (addr_name_cmp nm') loc l <-> M !! key = Some y) as Hsame.
  { intros y. rewrite elem_same, HM. split; intros [Hy Hc]; (split; [done|]).
    - rewrite cmp_names in Hc; [|by rewrite Hkey|rewrite Hnm; auto]. rewrite <-(Hnm y Hy). congruence.
    - apply cmp_names; [by rewrite Hkey|rewrite Hnm; auto|]. rewrite Hkey, Hnm by done. auto. }
  assert (rb_holds (addr_name_cmp nm') h m l) as Hh1.
  { apply (rb_holds_ext (addr_name_cmp nm)); [|done]. intros x y Hx Hy. unfold addr_name_cmp. by rewrite !Hnm. }
  destruct (rb_exec_refines (addr_name_cmp nm') h (RFind loc) m l (head (same (addr_name_cmp nm') loc l)) l Hh1)
    as (m' & E & Hh' & _ & Hal); [by intros x ?%not_elem_of_nil|done|].
  exists m'. cbn [stage_exec stage_spec rb_exec] in *. unfold set_next_stage_mem, stage_find_mem, rb_bind, rb_ret. fold key nm'. rewrite E. cbn [mbind option_bind fst snd]. split.
  - destruct (same (addr_name_cmp nm') loc l) as [|y k] eqn:Es; cbn [list.head].
    + destruct (M !! key) as [b|] eqn:EM; [|done]. pose proof (proj2 (Hsame b) eq_refl) as Hb. by apply not_elem_of_nil in Hb.
    + assert (M !! key = Some y) as -> by (apply Hsame; left). done.
  - split; [|done]. exists l. split_and!; [|done|done|done]. apply (rb_holds_ext (addr_name_cmp nm')); [|done].
    intros x y Hx Hy. unfold addr_name_cmp. by rewrite !Hnm.
Qed.

(** C36: The stage index on linked memory is a finite map from module names to stages:
    every sequence of [stage_add] and [set_next_stage], on a red-black tree of RQCBs
    linked through their [stage_entry] fields, runs without following a bad pointer;
    [stage_add] refuses exactly the names that are known, [set_next_stage] sets the
    stage that was added under the first 63 characters of the name, or leaves the
    choice and reports an error, and the tree links the stages of the map again. *)
Theorem stage_index_linked ops m M :
  index_holds m M -> (forall o, o ∈ ops -> op_ok m o) ->
  exists m', stage_run ops m = Some ((stage_spec_run ops M).1, m') /\ index_holds m' (stage_spec_run ops M).2.
Proof.
  revert m M. induction ops as [|o ops IH]; intros m M Hh Hok; [by exists m|]. cbn [stage_run stage_spec_run].
  assert (exists m1, stage_exec o m = Some ((stage_spec o M).1, m1) /\ index_holds m1 (stage_spec o M).2 /\ alive m m1) as (m1 & E1 & Hh1 & Ha).
  { specialize (Hok o ltac:(left)). destruct o as [a|next name]; [by apply add_refines|].
    destruct (set_refines next name m M Hh Hok) as (m1 & E & H1 & Ha). exists m1. split; [done|]. split; [|done]. cbn. by case_match. }
  destruct (IH m1 (stage_spec o M).2 Hh1) as (m2 & E2 & Hh2).
  { intros o' Ho'. specialize (Hok o' ltac:(by right)). destruct o'; cbn in *; [|done]. destruct Hok as (H1 & H2). split; [by apply Ha|done]. }
  exists m2. rewrite E1. cbn [mbind option_bind fst snd]. by rewrite E2.
Qed.

End index.

(** * Witness *)

(** Three RQCBs, two of them with the same name, and a local at the address 9. *)
Definition demo_names (a : nat) : cstr := match a with 0%nat => L"parse" | 1%nat => L"store" | _ => L"parse" end.

Definition stage_mem : rb_mem := mk_rb {[5%nat := None]} (list_to_map ((fun a => (a, mk_ent None None None Red)) <$> seq 0 3)).

Lemma stage_index_linked_witness :
  exists m', stage_run demo_names 5 9 [SgAdd 0; SgAdd 1; SgAdd 2; SgSet None (L"store"); SgSet (Some 1%nat) (L"other"); SgSet None (L"parse")] stage_mem =
    Some ([(None, STAGE_ADD_OK); (None, STAGE_ADD_OK); (None, STAGE_ADD_ERR); (Some 1%nat, STAGE_SET_OK); (Some 1%nat, STAGE_SET_ERR); (Some 0%nat, STAGE_SET_OK)], m').
Proof.
  destruct (stage_index_linked demo_names 5 9 [SgAdd 0; SgAdd 1; SgAdd 2; SgSet None (L"store"); SgSet (Some 1%nat) (L"other"); SgSet None (L"parse")]
    stage_mem ∅) as (m' & E & _).
  - exists []. split_and!; [|apply not_elem_of_nil|by intros a ?%not_elem_of_nil|].
    + exists Nil. split_and!; [split_and!; [reflexivity|exact I|constructor]| |reflexivity]. split; [constructor|]. split; [reflexivity|]. exists 0%nat. constructor.
    + intros k a. rewrite lookup_empty. split; [done|]. by intros [?%not_elem_of_nil _].
  - intros o Ho. repeat (apply elem_of_cons in Ho as [->|Ho]; [|]); [..|by apply not_elem_of_nil in Ho].
    all: cbn [op_ok]; unfold mod_name_ok; repeat split; try discriminate; try (eexists; vm_compute; reflexivity).
    all: apply (bool_decide_unpack _); vm_compute; exact I.
  - exists m'. exact E.
Defined.
