(* ===== verification/Mempool.v ===== *)
(** The memory pool: src/csf/mempool.c, from which [smalloc] and [sfree] of
    utils.c take every request and connection. Blocks and tree entries are
    addresses; [blocks] holds the header ([size]) of every block obtained from
    the C library, in use or cached, and the caller's pointer is named by the
    address of its header. Each call of the C allocator is one element of the
    oracle of [Alloc]. The tree of sizes is used through [OrderedIndex]. *)

From S2P Require Import Prelude RbTree.

(** [MP_TREE_ENTRY] without its tree links. *)
Record mp_entry : Type := mk_entry {
  mem_size : Z;
  total_item : Z;
  mem_head : list nat
}.

(** What the tree compares, and the address of the entry. *)
Record mp_node : Type := mk_node { nd_size : Z; nd_addr : nat }.

(** [size_cmp]. *)
Definition size_cmp (a b : mp_node) : Z :=
  let diff := nd_size a - nd_size b in
  if diff =? 0 then 0 else if diff <? 0 then -1 else 1.

(** The difference of two sizes that fit an [int] and are not negative fits an
    [int], so the subtraction of the C code does not overflow. *)
Lemma size_cmp_int a b :
  0 <= nd_size a <= INT_MAX -> 0 <= nd_size b <= INT_MAX -> i32 (nd_size a - nd_size b) = nd_size a - nd_size b.
Proof. unfold INT_MAX. intros. apply i32_small. lia. Qed.

Lemma size_cmp_sgn a b : size_cmp a b = Z.sgn (nd_size a - nd_size b).
Proof. unfold size_cmp. set (d := _ - _). by destruct d. Qed.

#[export] Instance size_cmp_ord : OrdCmp size_cmp.
Proof. split; intros; rewrite ?size_cmp_sgn, ?Z.sgn_sgn in *; lia. Qed.

(** * The pool *)

Record pool (T : Type) : Type := mk_pool {
  mp_tree : T;
  entries : gmap nat mp_entry;
  blocks : gmap nat Z;
  next_addr : nat;
  mp_initialized : bool;
  g_pre_alloc_num : Z;
  g_pre_free_num : Z
}.
Arguments mk_pool {T}.
Arguments mp_tree {T}.
Arguments entries {T}.
Arguments blocks {T}.
Arguments next_addr {T}.
Arguments mp_initialized {T}.
Arguments g_pre_alloc_num {T}.
Arguments g_pre_free_num {T}.

Section mempool.
Context {T : Type} `{!OrderedIndex size_cmp T}.
Implicit Types p : pool T.

Definition set_blocks (bs : gmap nat Z) (n : nat) p : pool T :=
  mk_pool (mp_tree p) (entries p) bs n (mp_initialized p) (g_pre_alloc_num p) (g_pre_free_num p).

Definition set_entry (a : nat) (e : mp_entry) p : pool T :=
  mk_pool (mp_tree p) (<[a:=e]> (entries p)) (blocks p) (next_addr p) (mp_initialized p)
    (g_pre_alloc_num p) (g_pre_free_num p).

Definition set_tree (t : T) p : pool T :=
  mk_pool t (entries p) (blocks p) (next_addr p) (mp_initialized p) (g_pre_alloc_num p) (g_pre_free_num p).

(** [mp_init]. The statics are [unsigned int]. *)
Definition mp_init (pre_alloc_num pre_free_num : Z) p : pool T :=
  if negb (pre_alloc_num =? 0) && negb (pre_free_num =? 0)
  then mk_pool (mp_tree p) (entries p) (blocks p) (next_addr p) true (u32 pre_alloc_num)
         (u32 (if pre_free_num <? pre_alloc_num then pre_alloc_num else pre_free_num))
  else mk_pool (mp_tree p) (entries p) (blocks p) (next_addr p) true (g_pre_alloc_num p) (g_pre_free_num p).

(** A block from the C library with its header filled in. *)
Definition new_block (size : Z) p : Alloc (option nat * pool T) :=
  ok ← allocate;
  mret (if (ok : bool) then (Some (next_addr p), set_blocks (<[next_addr p:=size]> (blocks p)) (S (next_addr p)) p)
        else (None, p)).

(** [free] of a list of blocks. *)
Definition free_blocks (l : list nat) p : pool T :=
  set_blocks (foldr (fun b bs => delete b bs) (blocks p) l) (next_addr p) p.

(** [mp_init_block] on the entry [e]: its result, the entry and the pool. *)
Fixpoint mp_init_block (alloc_num : nat) (size : Z) (e : mp_entry) p : Alloc (Z * mp_entry * pool T) :=
  match alloc_num with
  | O => mret (0, e, p)
  | S k =>
      new_block size p ≫= fun r : option nat * pool T =>
      match r.1 with
      | None => mret (-1, mk_entry (mem_size e) (total_item e) [], free_blocks (mem_head e) r.2)
      | Some b => mp_init_block k size (mk_entry (mem_size e) (u32 (total_item e + 1)) (b :: mem_head e)) r.2
      end
  end.

(** The end of [mp_alloc]: a block for the caller. *)
Definition alloc_tail (size : Z) p : Alloc (option nat * pool T) := new_block size p.

(** [mp_alloc]. *)
Definition mp_alloc (size : Z) p : Alloc (option nat * pool T) :=
  if negb (mp_initialized p) then mret (None, p)
  else if size <=? 0 then mret (None, p)
  else
    let k := Z.to_nat (u32 (g_pre_alloc_num p - 1)) in
    match ix_find (mp_tree p) (mk_node (i32 size) 0) with
    | None =>
        ok ← allocate;
        if (ok : bool) then
          let a := next_addr p in
          mp_init_block k size (mk_entry (i32 size) 0 []) (set_blocks (blocks p) (S a) p)
          ≫= fun '((rc, e, p1) : Z * mp_entry * pool T) =>
          if rc <? 0 then mret (None, p1)
          else
            access (ix_insert (mp_tree p1) (mk_node (i32 size) a)) ≫= fun ins : T * option mp_node =>
            alloc_tail size (set_entry a e (set_tree ins.1 p1))
        else mret (None, p)
    | Some n =>
        access (entries p !! nd_addr n) ≫= fun e : mp_entry =>
        if total_item e =? 0 then
          mp_init_block k (mem_size e) (mk_entry (mem_size e) (total_item e) []) p
          ≫= fun '((rc, e1, p1) : Z * mp_entry * pool T) =>
          let p2 := set_entry (nd_addr n) e1 p1 in
          if rc <? 0 then mret (None, p2) else alloc_tail size p2
        else
          match mem_head e with
          | b :: l => mret (Some b, set_entry (nd_addr n) (mk_entry (mem_size e) (u32 (total_item e - 1)) l) p)
          | [] => mret (None, p)
          end
    end.

(** The loop of [mp_pfree] that trims the cache of an entry. *)
Fixpoint trim (limit : Z) (l : list nat) (total : Z) (bs : gmap nat Z) : list nat * Z * gmap nat Z :=
  match l with
  | [] => ([], total, bs)
  | b :: l' =>
      let total' := u32 (total - 1) in
      let bs' := delete b bs in
      if total' =? limit then (l', total', bs') else trim limit l' total' bs'
  end.

(** [mp_pfree]. *)
Definition mp_pfree (ptr : option nat) p : option (pool T) :=
  if negb (mp_initialized p) then Some p
  else match ptr with
       | None => Some p
       | Some b =>
           size ← blocks p !! b;
           match ix_find (mp_tree p) (mk_node (i32 size) 0) with
           | None => Some p
           | Some n =>
               e ← entries p !! nd_addr n;
               if g_pre_free_num p <? total_item e then
                 let '(l, total, bs) := trim (g_pre_free_num p) (mem_head e) (total_item e) (delete b (blocks p)) in
                 Some (set_entry (nd_addr n) (mk_entry (mem_size e) total l) (set_blocks bs (next_addr p) p))
               else
                 Some (set_entry (nd_addr n) (mk_entry (mem_size e) (u32 (total_item e + 1)) (b :: mem_head e)) p)
           end
       end.

(** [mp_malloc], [mp_calloc] and [mp_free]; [size_t] arguments become [long]. *)
Definition long_of (z : Z) : Z := (z + 2 ^ 63) mod 2 ^ 64 - 2 ^ 63.
Definition mp_malloc (size : Z) p : Alloc (option nat * pool T) := mp_alloc (long_of size) p.
Definition mp_calloc (number size : Z) p : Alloc (option nat * pool T) := mp_alloc (long_of (u64 (number * size))) p.
Definition mp_free (ptr : option nat) p : option (pool T) := mp_pfree ptr p.

(** * Well-formed pools *)

Definition is_cached p (b : nat) : Prop := exists a e, entries p !! a = Some e /\ b ∈ mem_head e.

(** A block in the hands of a caller. *)
Definition in_use p (b : nat) : Prop := is_Some (blocks p !! b) /\ ~ is_cached p b.

(** One entry: its count, and its blocks carry its size. *)
Definition entry_ok p (e : mp_entry) : Prop :=
  total_item e = Z.of_nat (length (mem_head e)) /\ total_item e < 2 ^ 32 /\ NoDup (mem_head e) /\
  0 < mem_size e <= INT_MAX /\ forall b, b ∈ mem_head e -> blocks p !! b = Some (mem_size e).

(** The tree indexes exactly the entries, by size; every block has the size of
    an entry; addresses are below the next one. *)
Definition pool_ok p : Prop :=
  ix_wf (mp_tree p) /\
  (forall n, n ∈ ix_elems (mp_tree p) <-> exists e, entries p !! nd_addr n = Some e /\ mem_size e = nd_size n) /\
  (forall a e, entries p !! a = Some e -> entry_ok p e /\ (a < next_addr p)%nat) /\
  (forall b s, blocks p !! b = Some s -> (b < next_addr p)%nat /\ exists n, n ∈ ix_elems (mp_tree p) /\ nd_size n = s) /\
  0 < g_pre_alloc_num p < 2 ^ 32 /\ 0 <= g_pre_free_num p < 2 ^ 32 - 1.

(** * Lemmas *)

(** The search by size. *)
Lemma find_size p s : pool_ok p ->
  match ix_find (mp_tree p) (mk_node s 0) with
  | Some n => n ∈ ix_elems (mp_tree p) /\ nd_size n = s /\ exists e, entries p !! nd_addr n = Some e /\ mem_size e = s
  | None => forall n, n ∈ ix_elems (mp_tree p) -> nd_size n <> s
  end.
Proof.
  intros (Hw & Hix & _). destruct (ix_find (mp_tree p) (mk_node s 0)) as [n|] eqn:E.
  - apply ix_find_Some in E as [Hn Hc]; [|done]. rewrite size_cmp_sgn, Z.sgn_null_iff in Hc. cbn in Hc.
    assert (nd_size n = s) as Hs by lia. destruct (proj1 (Hix n) Hn) as (e & ? & ?). split_and!; [done..|].
    exists e. split; congruence.
  - intros n Hn Hs. assert (ix_find (mp_tree p) (mk_node s 0) = Some n); [|congruence].
    apply ix_find_Some; [done|]. split; [done|]. rewrite size_cmp_sgn. cbn. rewrite Hs, Z.sub_diag. done.
Qed.

(** One entry per size. *)
Lemma entry_unique p a a' e e' : pool_ok p ->
  entries p !! a = Some e -> entries p !! a' = Some e' -> mem_size e = mem_size e' -> a = a'.
Proof.
  intros (Hw & Hix & _) Ha Ha' Hs.
  assert (forall x f, entries p !! x = Some f -> mem_size f = mem_size e ->
    ix_find (mp_tree p) (mk_node (mem_size e) 0) = Some (mk_node (mem_size e) x)) as Hf.
  { intros x f Hx Hm. apply ix_find_Some; [done|]. split; [apply Hix; by exists f|].
    rewrite size_cmp_sgn. cbn. by rewrite Z.sub_diag. }
  pose proof (Hf _ _ Ha eq_refl). pose proof (Hf _ _ Ha' ltac:(done)). congruence.
Qed.

(** A cached block belongs to one entry. *)
Lemma cached_unique p a a' e e' b : pool_ok p ->
  entries p !! a = Some e -> entries p !! a' = Some e' -> b ∈ mem_head e -> b ∈ mem_head e' -> a = a'.
Proof.
  intros Hok Ha Ha' Hb Hb'. pose proof Hok as (_ & _ & He & _).
  destruct (He _ _ Ha) as [(_ & _ & _ & _ & H1) _], (He _ _ Ha') as [(_ & _ & _ & _ & H2) _].
  eapply entry_unique; eauto. specialize (H1 _ Hb). specialize (H2 _ Hb'). congruence.
Qed.

(** Replacing one entry, and extending the blocks. *)
Lemma entries_set a e p a' e' : entries (set_entry a e p) !! a' = Some e' ->
  (a' = a /\ e' = e) \/ (a' <> a /\ entries p !! a' = Some e').
Proof.
  cbn. destruct (decide (a = a')) as [<-|Hne].
  - rewrite lookup_insert_eq. intros [= <-]. by left.
  - rewrite lookup_insert_ne by done. right. split; [congruence|done].
Qed.

(** A change of the list of one entry and of the set of blocks keeps the pool
    well formed when the entry is well formed afterwards and the blocks cached
    by other entries are untouched. *)
Lemma pool_ok_update p a e e' bs nx :
  pool_ok p -> entries p !! a = Some e -> mem_size e' = mem_size e -> (next_addr p <= nx)%nat ->
  entry_ok (set_entry a e' (set_blocks bs nx p)) e' ->
  (forall a' f b, a' <> a -> entries p !! a' = Some f -> b ∈ mem_head f -> bs !! b = blocks p !! b) ->
  (forall b s, bs !! b = Some s -> (b < nx)%nat /\ exists n, n ∈ ix_elems (mp_tree p) /\ nd_size n = s) ->
  pool_ok (set_entry a e' (set_blocks bs nx p)).
Proof.
  intros (Hw & Hix & He & Hb & Hga & Hgf) Ha Hm Hnx Hok Hother Hbs. split_and!; try done; cbn -[entry_ok]; try apply Hga; try apply Hgf.
  - intros n. rewrite Hix. destruct (decide (a = nd_addr n)) as [->|Hne].
    + rewrite lookup_insert_eq. split; intros (f & Hf & Hs); simplify_eq; eexists; split; try done; congruence.
    + by rewrite lookup_insert_ne.
  - intros a' f Hf. apply (entries_set a e' (set_blocks bs nx p)) in Hf as [[-> ->]|[Hne Hf]].
    + split; [done|]. destruct (He _ _ Ha). lia.
    + cbn in Hf. destruct (He _ _ Hf) as [(H1 & H2 & H3 & H4 & H5) H6]. split; [|lia].
      split_and!; try done; try apply H4. intros b Hbm. cbn. rewrite (Hother a' f b Hne Hf Hbm). auto.
Qed.

(** [mp_init_block] when the library has memory: [k] fresh blocks in front. *)
Lemma init_block_spec k size e p : 0 <= total_item e -> total_item e + Z.of_nat k < 2 ^ 32 ->
  exists l bs, mp_init_block k size e p [] =
      Some ((0, mk_entry (mem_size e) (total_item e + Z.of_nat k) (l ++ mem_head e), set_blocks bs (next_addr p + k) p), []) /\
    length l = k /\ NoDup l /\ (forall b, b ∈ l <-> (next_addr p <= b < next_addr p + k)%nat) /\
    forall c, bs !! c = if decide (next_addr p <= c < next_addr p + k)%nat then Some size else blocks p !! c.
Proof.
  revert e p. induction k as [|k IH]; intros e p Hlo Hhi.
  - exists [], (blocks p). cbn. rewrite Z.add_0_r, Nat.add_0_r. split_and!; try done.
    + by destruct e, p.
    + constructor.
    + intros b. rewrite elem_of_nil. lia.
    + intros c. by rewrite decide_False by lia.
  - set (e1 := mk_entry (mem_size e) (u32 (total_item e + 1)) (next_addr p :: mem_head e)).
    set (p1 := set_blocks (<[next_addr p:=size]> (blocks p)) (S (next_addr p)) p).
    change (mp_init_block (S k) size e p []) with (mp_init_block k size e1 p1 []).
    assert (total_item e1 = total_item e + 1) as Ht1 by (apply u32_small; lia).
    destruct (IH e1 p1) as (l & bs & E & Hl & Hnd & Hm & Hbs); [lia..|]. exists (l ++ [next_addr p]), bs.
    rewrite Ht1 in E. rewrite E. cbn in Hm, Hbs. split_and!.
    + rewrite <-app_assoc. cbn -[Z.of_nat]. replace (total_item e + Z.of_nat (S k)) with (total_item e + 1 + Z.of_nat k) by lia.
      by replace (next_addr p + S k)%nat with (S (next_addr p) + k)%nat by lia.
    + rewrite length_app. cbn. lia.
    + apply list.NoDup_app. split_and!; [done| |apply NoDup_singleton].
      intros b Hb%Hm ->%list_elem_of_singleton. lia.
    + intros b. rewrite elem_of_app, list_elem_of_singleton, Hm. lia.
    + intros c. rewrite Hbs. cbn. repeat case_decide; try lia; try done.
      * assert (c = next_addr p) as -> by lia. by rewrite lookup_insert_eq.
      * rewrite lookup_insert_ne; [done|lia].
Qed.

(** Filling the empty cache of an entry. *)
Lemma fill_ok p a e k l bs :
  pool_ok p -> entries p !! a = Some e -> mem_head e = [] -> length l = k -> Z.of_nat k < 2 ^ 32 -> NoDup l ->
  (forall b, b ∈ l <-> (next_addr p <= b < next_addr p + k)%nat) ->
  (forall c, bs !! c = if decide (next_addr p <= c < next_addr p + k)%nat then Some (mem_size e) else blocks p !! c) ->
  let p' := set_entry a (mk_entry (mem_size e) (Z.of_nat k) l) (set_blocks bs (next_addr p + k) p) in
  pool_ok p' /\ forall c, in_use p' c <-> in_use p c.
Proof.
  intros Hok Ha Hh Hlen Hk Hnd Hm Hbs. pose proof Hok as (Hw & Hix & He & Hb & Hga & Hgf).
  destruct (He _ _ Ha) as [(Ht & Hlt & _ & Hsz & _) Hna].
  assert (forall c s, blocks p !! c = Some s -> bs !! c = Some s) as Hold.
  { intros c s Hc. rewrite Hbs. destruct (Hb _ _ Hc). by rewrite decide_False by lia. }
  cbn zeta. split.
  - eapply pool_ok_update; try done; [lia|..].
    + split_and!; cbn -[Z.of_nat]; try done; try apply Hsz; [lia|]. intros b Hbm. rewrite Hbs, decide_True by (by apply Hm). done.
    + intros a' f b Hne Hf Hbm. destruct (He _ _ Hf) as [(_ & _ & _ & _ & H) _]. by rewrite (Hold _ _ (H _ Hbm)), (H _ Hbm).
    + intros b s. rewrite Hbs. case_decide; [intros [= <-]|].
      * split; [lia|]. exists (mk_node (mem_size e) a). split; [|done]. apply Hix. by exists e.
      * intros Hs. destruct (Hb _ _ Hs). split; [lia|done].
  - intros c. unfold in_use, is_cached. cbn. split.
    + intros [[s Hs] Hnc]. rewrite Hbs in Hs. case_decide as Hd.
      { destruct Hnc. eexists a, _. rewrite lookup_insert_eq. split; [done|]. by apply Hm. }
      split; [by eexists|]. intros (a' & f & Hf & Hcf). apply Hnc.
      destruct (decide (a = a')) as [<-|Hne]; [simplify_eq; rewrite Hh in Hcf; by apply not_elem_of_nil in Hcf|].
      exists a', f. by rewrite lookup_insert_ne.
    + intros [[s Hs] Hnc]. split; [rewrite (Hold _ _ Hs); by eexists|]. intros (a' & f & Hf & Hcf). apply Hnc.
      destruct (decide (a = a')) as [<-|Hne].
      * rewrite lookup_insert_eq in Hf. simplify_eq. cbn in Hcf. apply Hm in Hcf. destruct (Hb _ _ Hs). lia.
      * rewrite lookup_insert_ne in Hf by done. by exists a', f.
Qed.

(** A block for the caller, from the library. *)
Lemma new_block_ok p s n : pool_ok p -> n ∈ ix_elems (mp_tree p) -> nd_size n = s ->
  exists b p', new_block s p [] = Some ((Some b, p'), []) /\ pool_ok p' /\ blocks p' !! b = Some s /\
    ~ in_use p b /\ forall c, in_use p' c <-> c = b \/ in_use p c.
Proof.
  intros Hok Hn Hs. pose proof Hok as (Hw & Hix & He & Hb & Hga & Hgf). eexists (next_addr p), _. split; [done|].
  assert (blocks p !! next_addr p = None) as Hfresh.
  { destruct (blocks p !! next_addr p) eqn:E; [|done]. destruct (Hb _ _ E). lia. }
  split_and!.
  - split; [done|]. split; [done|]. split; [|split; [|done]]; cbn.
    + intros a e Ha. destruct (He _ _ Ha) as [(H1 & H2 & H3 & H4 & H5) H6]. split; [|lia]. split_and!; try done; try apply H4.
      intros b Hbm. cbn. rewrite lookup_insert_ne; [auto|]. intros <-. specialize (H5 _ Hbm). congruence.
    + intros b s'. destruct (decide (next_addr p = b)) as [<-|Hne].
      * rewrite lookup_insert_eq. intros [= <-]. split; [lia|]. eauto.
      * rewrite lookup_insert_ne by done. intros Hx. destruct (Hb _ _ Hx). split; [lia|done].
  - apply lookup_insert_eq.
  - intros [[x Hx] _]. congruence.
  - intros c. unfold in_use, is_cached. cbn. destruct (decide (c = next_addr p)) as [->|Hne].
    + split; [by left|]. intros _. split; [rewrite lookup_insert_eq; by eexists|].
      intros (a & f & Hf & Hc). destruct (He _ _ Hf) as [(_ & _ & _ & _ & H5) _]. specialize (H5 _ Hc). congruence.
    + rewrite lookup_insert_ne by done. split; [by right|]. by intros [?|?].
Qed.

(** A block for the caller, from the cache of an entry. *)
Lemma pop_ok p a e b l : pool_ok p -> entries p !! a = Some e -> mem_head e = b :: l ->
  let p' := set_entry a (mk_entry (mem_size e) (u32 (total_item e - 1)) l) p in
  pool_ok p' /\ blocks p' !! b = Some (mem_size e) /\ ~ in_use p b /\ forall c, in_use p' c <-> c = b \/ in_use p c.
Proof.
  intros Hok Ha Hh. pose proof Hok as (Hw & Hix & He & Hb & Hga & Hgf).
  destruct (He _ _ Ha) as [(Ht & Hlt & Hnd & Hsz & Hbl) Hna]. rewrite Hh in *.
  apply list.NoDup_cons in Hnd as [Hbnl Hndl]. cbn zeta. split_and!.
  - replace (set_entry a _ p) with (set_entry a (mk_entry (mem_size e) (u32 (total_item e - 1)) l)
      (set_blocks (blocks p) (next_addr p) p)) by (by destruct p).
    cbn [length] in Ht. eapply pool_ok_update; try done.
    + split_and!; cbn -[Z.of_nat]; try done; try apply Hsz; [rewrite u32_small; lia|pose proof (u32_range (total_item e - 1)); lia|].
      intros c Hc. apply Hbl. by right.
  - cbn. apply Hbl. left.
  - intros [_ Hnc]. apply Hnc. exists a, e. rewrite Hh. split; [done|left].
  - intros c. unfold in_use, is_cached. cbn. split.
    + intros [Hs Hnc]. destruct (decide (c = b)) as [->|Hne]; [by left|right]. split; [done|].
      intros (a' & f & Hf & Hc). apply Hnc. destruct (decide (a = a')) as [<-|Hna'].
      * simplify_eq. rewrite Hh in Hc. eexists a, _. rewrite lookup_insert_eq. split; [done|]. cbn. by apply elem_of_cons in Hc as [?|?].
      * exists a', f. by rewrite lookup_insert_ne.
    + intros Hc. assert (is_Some (blocks p !! c)) as Hs.
      { destruct Hc as [->|[? _]]; [|done]. eexists. apply Hbl. left. }
      split; [done|]. intros (a' & f & Hf & Hcf). destruct (decide (a = a')) as [<-|Hna'].
      * rewrite lookup_insert_eq in Hf. simplify_eq. cbn in Hcf. destruct Hc as [->|[_ Hc]]; [done|].
        apply Hc. exists a, e. rewrite Hh. split; [done|]. by right.
      * rewrite lookup_insert_ne in Hf by done. destruct Hc as [->|[_ Hc]]; [|apply Hc; by exists a', f].
        apply Hna'. eapply cached_unique; try done. rewrite Hh. left.
Qed.

(** A new entry with an empty cache. *)
Lemma new_entry_ok p s t' :
  pool_ok p -> 0 < s <= INT_MAX -> (forall n, n ∈ ix_elems (mp_tree p) -> nd_size n <> s) ->
  ix_wf t' -> (forall y, y ∈ ix_elems t' <-> y = mk_node s (next_addr p) \/ y ∈ ix_elems (mp_tree p)) ->
  let p' := set_entry (next_addr p) (mk_entry s 0 []) (set_tree t' (set_blocks (blocks p) (S (next_addr p)) p)) in
  pool_ok p' /\ forall c, in_use p' c <-> in_use p c.
Proof.
  intros Hok Hs Hnew Hw' Hel. pose proof Hok as (Hw & Hix & He & Hb & Hga & Hgf).
  assert (entries p !! next_addr p = None) as Hfresh.
  { destruct (entries p !! next_addr p) eqn:E; [|done]. destruct (He _ _ E). lia. }
  cbn zeta. split.
  - split; [done|]. split; [|split; [|split; [|done]]]; cbn -[entry_ok].
    + intros n. rewrite Hel, Hix. destruct (decide (next_addr p = nd_addr n)) as [E|Hne].
      * rewrite <-E, lookup_insert_eq, Hfresh. split; [intros [->|(? & ? & ?)]; [by eexists|done]|].
        intros (f & Hf & Hfs). left. destruct n as [ns na]. cbn in *. by simplify_eq/=.
      * rewrite lookup_insert_ne by done. split; [intros [->|?]; [done|done]|by right].
    + intros a e. destruct (decide (next_addr p = a)) as [<-|Hne].
      * rewrite lookup_insert_eq. intros [= <-]. split; [|lia]. split_and!; cbn; try done; try lia; [constructor|].
        by intros b ?%not_elem_of_nil.
      * rewrite lookup_insert_ne by done. intros Ha. destruct (He _ _ Ha). split; [done|lia].
    + intros b x Hx. destruct (Hb _ _ Hx) as (Hlt & n & Hn & Hns). split; [lia|]. exists n. split; [|done]. apply Hel. by right.
  - intros c. unfold in_use, is_cached. cbn. split; intros [Hs' Hnc]; (split; [done|]); intros (a & f & Hf & Hc); apply Hnc.
    + destruct (decide (next_addr p = a)) as [<-|Hne]; [congruence|]. exists a, f. by rewrite lookup_insert_ne.
    + destruct (decide (next_addr p = a)) as [<-|Hne].
      * rewrite lookup_insert_eq in Hf. simplify_eq. by apply not_elem_of_nil in Hc.
      * rewrite lookup_insert_ne in Hf by done. by exists a, f.
Qed.

Lemma pre_alloc_bound p : pool_ok p -> Z.of_nat (Z.to_nat (u32 (g_pre_alloc_num p - 1))) < 2 ^ 32.
Proof. intros _. pose proof (u32_range (g_pre_alloc_num p - 1)). lia. Qed.

(** The three ways of [mp_alloc]: refill, cache, new size. *)
Lemma mp_alloc_spec size p : pool_ok p -> mp_initialized p = true -> 0 < size <= INT_MAX ->
  exists b p', mp_alloc size p [] = Some ((Some b, p'), []) /\ pool_ok p' /\ blocks p' !! b = Some size /\
    ~ in_use p b /\ forall c, in_use p' c <-> c = b \/ in_use p c.
Proof.
  intros Hok Hini Hsz. pose proof Hok as (Hw & Hix & He & Hb & Hga & Hgf). pose proof (pre_alloc_bound p Hok) as Hk.
  unfold mp_alloc. rewrite Hini, (proj2 (Z.leb_gt _ _)) by lia. cbn -[mp_init_block ix_insert Z.of_nat].
  assert (i32 size = size) as Hi by (apply i32_small; unfold INT_MAX in *; lia). rewrite Hi.
  set (k := Z.to_nat (u32 (g_pre_alloc_num p - 1))) in *.
  pose proof (find_size p size Hok) as Hf. destruct (ix_find (mp_tree p) (mk_node size 0)) as [n|] eqn:En.
  - destruct Hf as (Hn & Hns & e & Ha & Hme). alloc_step Ha. destruct (total_item e =? 0) eqn:Et; bool_props.
    + assert (mem_head e = []) as Hh.
      { destruct (He _ _ Ha) as [(Ht & _) _]. rewrite Et in Ht. destruct (mem_head e); [done|cbn in Ht; lia]. }
      destruct (init_block_spec k (mem_size e) (mk_entry (mem_size e) (total_item e) []) p) as (l & bs & E & Hl & Hnd & Hm & Hbs);
        [cbn; lia|cbn -[Z.of_nat]; lia|]. alloc_step E. cbn -[Z.of_nat new_block] in *. rewrite Et, Z.add_0_l, app_nil_r in *.
      destruct (fill_ok p (nd_addr n) e k l bs) as [Hok1 Huse1]; try done.
      destruct (new_block_ok _ size n Hok1) as (b & p' & E' & Hok' & Hbb & Hnu & Huse); [done..|].
      exists b, p'. split; [exact E'|]. split_and!; try done; [by rewrite <-Huse1|]. intros c. by rewrite Huse, Huse1.
    + destruct (mem_head e) as [|b l] eqn:Hh.
      { destruct (He _ _ Ha) as [(Ht & _) _]. rewrite Hh in Ht. done. }
      destruct (pop_ok p (nd_addr n) e b l Hok Ha Hh) as (H1 & H2 & H3 & H4).
      eexists b, _. split; [done|]. by rewrite Hme in *.
  - unfold mbind at 1, alloc_bind at 1. cbn -[mp_init_block ix_insert Z.of_nat].
    set (p0 := set_blocks (blocks p) (S (next_addr p)) p).
    destruct (init_block_spec k size (mk_entry size 0 []) p0) as (l & bs & E & Hl & Hnd & Hm & Hbs); [done|cbn -[Z.of_nat]; lia|].
    alloc_step E. cbn -[Z.of_nat new_block ix_insert] in *. rewrite app_nil_r in *.
    assert (ix_find (mp_tree p) (mk_node size (next_addr p)) = None) as Hnf.
    { destruct (ix_find _ (mk_node size (next_addr p))) as [m|] eqn:Em; [|done].
      apply ix_find_Some in Em as [Hm1 Hm2]; [|done]. rewrite size_cmp_sgn, Z.sgn_null_iff in Hm2. cbn in Hm2.
      specialize (Hf m Hm1). lia. }
    destruct (ix_insert_new (mp_tree p) _ Hw Hnf) as (t' & Et & Hw' & Hel). alloc_step Et. cbn -[Z.of_nat new_block].
    destruct (new_entry_ok p size t' Hok Hsz Hf Hw' Hel) as [Hok0 Huse0].
    match type of Hok0 with pool_ok ?q => set (p1 := q) in * end.
    destruct (fill_ok p1 (next_addr p) (mk_entry size 0 []) k l bs Hok0) as [Hok1 Huse1]; try done; [apply lookup_insert_eq|].
    destruct (new_block_ok _ size (mk_node size (next_addr p)) Hok1) as (b & p' & E' & Hok' & Hbb & Hnu & Huse); [|done|].
    { cbn. apply Hel. by left. }
    exists b, p'. split; [|split_and!; try done; [by rewrite <-Huse0, <-Huse1|intros c; by rewrite Huse, Huse1, Huse0]].
    rewrite <-E'. unfold alloc_tail, set_entry. cbn. by rewrite insert_insert_eq.
Qed.

(** When the C library has memory, [mp_alloc] of a positive size that fits an
    [int] returns a block of exactly that size that no caller holds; every block
    held before is still held, and the pool stays well formed (counts, sizes and
    index agree, no block is cached twice). *)
Theorem mp_alloc_correct size p : pool_ok p -> mp_initialized p = true -> 0 < size <= INT_MAX ->
  exists b p', mp_alloc size p [] = Some ((Some b, p'), []) /\ pool_ok p' /\ blocks p' !! b = Some size /\
    ~ in_use p b /\ forall c, in_use p' c <-> c = b \/ in_use p c.
Proof. apply mp_alloc_spec. Qed.

(** The trimming loop frees the blocks in front until [limit] are left. *)
Lemma trim_spec limit l total bs :
  total = Z.of_nat (length l) -> total < 2 ^ 32 -> 0 <= limit < total ->
  exists d r bs', trim limit l total bs = (r, limit, bs') /\ l = d ++ r /\ Z.of_nat (length r) = limit /\
    forall c, bs' !! c = if decide (c ∈ d) then None else bs !! c.
Proof.
  revert total bs. induction l as [|b l IH]; intros total bs Ht Hb Hl; cbn -[Z.of_nat u32] in *; [lia|].
  rewrite u32_small by lia. destruct (total - 1 =? limit) eqn:E; bool_props.
  - exists [b], l, (delete b bs). split_and!; [by rewrite E|done|lia|]. intros c. case_decide as Hc.
    + apply list_elem_of_singleton in Hc as ->. apply lookup_delete_eq.
    + rewrite lookup_delete_ne; [done|]. intros <-. destruct Hc. left.
  - destruct (IH (total - 1) (delete b bs)) as (d & r & bs' & -> & -> & Hr & Hbs); [lia..|].
    exists (b :: d), r, bs'. split_and!; [done..|]. intros c. rewrite Hbs. destruct (decide (c = b)) as [->|Hne].
    + rewrite (decide_True (P := b ∈ b :: d)) by left. case_decide; [done|apply lookup_delete_eq].
    + rewrite lookup_delete_ne by done. do 2 case_decide; try done.
      * by destruct H0; right.
      * by apply elem_of_cons in H0 as [?|?].
Qed.

(** Giving a block back to the cache of its size. *)
Lemma push_ok p a e b : pool_ok p -> entries p !! a = Some e -> blocks p !! b = Some (mem_size e) -> ~ is_cached p b ->
  total_item e <= g_pre_free_num p ->
  let p' := set_entry a (mk_entry (mem_size e) (u32 (total_item e + 1)) (b :: mem_head e)) p in
  pool_ok p' /\ forall c, in_use p' c <-> c <> b /\ in_use p c.
Proof.
  intros Hok Ha Hbs Hnc Hle. pose proof Hok as (Hw & Hix & He & Hb & Hga & Hgf).
  destruct (He _ _ Ha) as [(Ht & Hlt32 & Hnd & Hsz & Hbl) Hna]. cbn zeta. split.
  - replace (set_entry _ _ p) with (set_entry a (mk_entry (mem_size e) (u32 (total_item e + 1)) (b :: mem_head e))
      (set_blocks (blocks p) (next_addr p) p)) by (by destruct p).
    eapply pool_ok_update; try done. split_and!; cbn -[Z.of_nat]; try apply Hsz.
    + rewrite u32_small; lia.
    + apply u32_range.
    + constructor; [|done]. intros Hbm. apply Hnc. by exists a, e.
    + intros c [->|Hc]%elem_of_cons; [done|by apply Hbl].
  - intros c. unfold in_use, is_cached. cbn. split.
    + intros [Hsome Hnc']. split.
      { intros ->. apply Hnc'. eexists _, _. rewrite lookup_insert_eq. split; [done|left]. }
      split; [done|]. intros (a' & f & Hf & Hc). apply Hnc'.
      destruct (decide (a = a')) as [<-|Hne]; [|exists a', f; by rewrite lookup_insert_ne].
      simplify_eq. eexists _, _. rewrite lookup_insert_eq. split; [done|]. by right.
    + intros (Hne & Hsome & Hnc'). split; [done|]. intros (a' & f & Hf & Hc). apply Hnc'.
      destruct (decide (a = a')) as [<-|Hne']; [|exists a', f; by rewrite lookup_insert_ne in Hf].
      rewrite lookup_insert_eq in Hf. simplify_eq. exists a, e. split; [done|]. by apply elem_of_cons in Hc as [?|?].
Qed.

(** Freeing a block and the front [d] of the cache of its size. *)
Lemma trim_ok p a e b d r bs : pool_ok p -> entries p !! a = Some e -> ~ is_cached p b -> mem_head e = d ++ r ->
  (forall c, bs !! c = if decide (c = b \/ c ∈ d) then None else blocks p !! c) ->
  let p' := set_entry a (mk_entry (mem_size e) (Z.of_nat (length r)) r) (set_blocks bs (next_addr p) p) in
  pool_ok p' /\ forall c, in_use p' c <-> c <> b /\ in_use p c.
Proof.
  intros Hok Ha Hnc Hdr Hbs. pose proof Hok as (Hw & Hix & He & Hb & Hga & Hgf).
  destruct (He _ _ Ha) as [(Ht & Hlt32 & Hnd & Hsz & Hbl) Hna]. rewrite Hdr in Hnd, Ht. rewrite length_app in Ht.
  apply list.NoDup_app in Hnd as (Hndd & Hdisj & Hndr).
  assert (forall c, c ∈ d -> is_cached p c) as Hdc.
  { intros c Hc. exists a, e. rewrite Hdr, elem_of_app. auto. }
  assert (forall c, c ∈ r -> is_cached p c) as Hrc.
  { intros c Hc. exists a, e. rewrite Hdr, elem_of_app. auto. }
  cbn zeta. split.
  - eapply pool_ok_update; try done.
    + split_and!; cbn -[Z.of_nat]; try done; try apply Hsz; [lia|]. intros c Hc.
      rewrite Hbs, decide_False; [apply Hbl; rewrite Hdr, elem_of_app; auto|].
      intros [->|Hd]; [by apply Hnc, Hrc|by apply (Hdisj c)].
    + intros a' f c Hne Hf Hc. rewrite Hbs, decide_False; [done|]. intros [->|Hd]; [apply Hnc; by exists a', f|].
      apply Hne. eapply (cached_unique p a' _ f e c); try done. rewrite Hdr, elem_of_app. auto.
    + intros c x. rewrite Hbs. case_decide; [done|]. apply Hb.
  - intros c. unfold in_use at 1. unfold is_cached at 1. cbn. rewrite Hbs. split.
    + intros [[x Hx] Hnc']. case_decide as Hd; [done|]. split; [tauto|]. split; [by eexists|]. intros (a' & f & Hf & Hc). apply Hnc'.
      destruct (decide (a = a')) as [<-|Hne]; [|exists a', f; by rewrite lookup_insert_ne].
      simplify_eq. rewrite Hdr in Hc. apply elem_of_app in Hc as [?|?]; [tauto|]. eexists _, _. rewrite lookup_insert_eq. done.
    + intros (Hne & Hsome & Hnc'). rewrite decide_False by (intros [?|?]; [done|by apply Hnc', Hdc]).
      split; [done|]. intros (a' & f & Hf & Hc). apply Hnc'.
      destruct (decide (a = a')) as [<-|Hne']; [|exists a', f; by rewrite lookup_insert_ne in Hf].
      rewrite lookup_insert_eq in Hf. simplify_eq. by apply Hrc.
Qed.

(** The release of a block, to the cache of its size or with a part of that cache. *)
Lemma mp_free_ok p b : pool_ok p -> mp_initialized p = true -> in_use p b ->
  exists p', mp_free (Some b) p = Some p' /\ pool_ok p' /\ (forall c, in_use p' c <-> c <> b /\ in_use p c) /\
    (forall a e, entries p' !! a = Some e -> entries p !! a <> Some e -> total_item e <= g_pre_free_num p + 1).
Proof.
  intros Hok Hini [[s Hs] Hnc]. pose proof Hok as (Hw & Hix & He & Hb & Hga & Hgf).
  destruct (Hb _ _ Hs) as (Hlt & n0 & Hn0 & Hn0s). unfold mp_free, mp_pfree. rewrite Hini, Hs. cbn -[trim].
  assert (0 < s <= INT_MAX) as Hsz.
  { destruct (proj1 (Hix n0) Hn0) as (e & Ha & Hm). destruct (He _ _ Ha) as [(_ & _ & _ & H & _) _]. by rewrite <-Hn0s, <-Hm. }
  rewrite (i32_small s) by (unfold INT_MAX in *; lia).
  pose proof (find_size p s Hok) as Hf. destruct (ix_find (mp_tree p) (mk_node s 0)) as [n|]; [|by destruct (Hf n0)].
  destruct Hf as (Hn & Hns & e & Ha & Hme). rewrite Ha. cbn -[trim]. destruct (He _ _ Ha) as [(Ht & Hlt32 & _) _].
  destruct (g_pre_free_num p <? total_item e) eqn:Eg; bool_props.
  - destruct (trim_spec (g_pre_free_num p) (mem_head e) (total_item e) (delete b (blocks p)) Ht Hlt32)
      as (d & r & bs & -> & Hdr & Hlen & Hbs); [lia|]. rewrite <-Hlen.
    destruct (trim_ok p (nd_addr n) e b d r bs Hok Ha Hnc Hdr) as [H1 H2].
    { intros c. rewrite Hbs. destruct (decide (c = b)) as [->|Hne].
      - rewrite (decide_True (P := b = b \/ b ∈ d)) by (by left). case_decide; [done|apply lookup_delete_eq].
      - rewrite lookup_delete_ne by done. do 2 case_decide; try done; tauto. }
    eexists; split; [done|]. split; [done|]. split; [done|].
    intros a f [[-> ->]|[Hne Hf]]%entries_set Hold; [cbn; lia|done].
  - destruct (push_ok p (nd_addr n) e b Hok Ha ltac:(congruence) Hnc Eg) as [H1 H2].
    eexists; split; [done|]. split; [done|]. split; [done|].
    intros a f [[-> ->]|[Hne Hf]]%entries_set Hold; [cbn; rewrite u32_small; lia|done].
Qed.

(** C22: [mp_free] of a block a caller holds takes back exactly that block: every
    other block stays with its holder, the pool stays well formed, and the cache
    of that size is never longer than the configured limit plus one. *)
Theorem mp_free_correct p b : pool_ok p -> mp_initialized p = true -> in_use p b ->
  exists p', mp_free (Some b) p = Some p' /\ pool_ok p' /\ (forall c, in_use p' c <-> c <> b /\ in_use p c) /\
    (forall a e, entries p' !! a = Some e -> entries p !! a <> Some e -> total_item e <= g_pre_free_num p + 1).
Proof. apply mp_free_ok. Qed.

(** [mp_init_block] when the library runs out of memory after [i] blocks. *)
Lemma init_block_fails o size i k (f : mp_entry) (q : pool T) :
  (i < k)%nat -> 0 <= total_item f -> total_item f + Z.of_nat i < 2 ^ 32 ->
  exists bs nx, mp_init_block k size f q (replicate i true ++ false :: o) =
    Some ((-1, mk_entry (mem_size f) (total_item f + Z.of_nat i) [], set_blocks bs nx q), o).
Proof.
  revert k f q. induction i as [|i IH]; intros k f q Hik H0 Hb; destruct k as [|k]; try lia.
  - eexists _, _. cbn. rewrite Z.add_0_r. reflexivity.
  - destruct (IH k (mk_entry (mem_size f) (u32 (total_item f + 1)) (next_addr q :: mem_head f))
      (set_blocks (<[next_addr q:=size]> (blocks q)) (S (next_addr q)) q)) as (bs & nx & E); [lia|apply u32_range|..].
    { cbn -[Z.of_nat]. rewrite u32_small by lia. lia. }
    exists bs, nx. cbn -[Z.of_nat] in *. rewrite u32_small in E by lia.
    replace (total_item f + Z.of_nat (S i)) with (total_item f + 1 + Z.of_nat i) by lia. etransitivity; [|exact E].
    by rewrite u32_small by lia.
Qed.

(** When the library runs out of memory while [mp_alloc] refills the cache of
    a known size, the blocks are freed but [total_item] keeps the count of those
    already obtained: from then on every allocation of that size fails, however
    much memory there is. *)
Theorem mp_alloc_refill_failure size n e p (j : nat) o :
  mp_initialized p = true -> 0 < size <= INT_MAX ->
  ix_find (mp_tree p) (mk_node size 0) = Some n -> entries p !! nd_addr n = Some e -> total_item e = 0 ->
  (0 < j)%nat -> Z.of_nat j < u32 (g_pre_alloc_num p - 1) ->
  exists p', mp_alloc size p (replicate j true ++ false :: o) = Some ((None, p'), o) /\ forall o', mp_alloc size p' o' = Some ((None, p'), o').
Proof.
  intros Hini Hsz Hf Ha Ht Hj Hjk.
  assert (i32 size = size) as Hi by (apply i32_small; unfold INT_MAX in *; lia).
  pose proof (u32_range (g_pre_alloc_num p - 1)).
  destruct (init_block_fails o (mem_size e) j (Z.to_nat (u32 (g_pre_alloc_num p - 1))) (mk_entry (mem_size e) (total_item e) []) p) as (bs & nx & E);
    [lia|cbn; lia|cbn -[Z.of_nat]; lia|].
  cbn -[Z.of_nat] in E. rewrite Ht, Z.add_0_l in E.
  eexists. split.
  - unfold mp_alloc. rewrite Hini, (proj2 (Z.leb_gt _ _)), Hi, Hf by lia. cbn -[mp_init_block Z.of_nat].
    alloc_step Ha. rewrite Ht. cbn -[mp_init_block Z.of_nat]. alloc_step E. reflexivity.
  - intros o'. unfold mp_alloc. cbn -[Z.of_nat mp_init_block]. rewrite Hini, (proj2 (Z.leb_gt _ _)), Hi, Hf by lia.
    cbn -[Z.of_nat mp_init_block]. erewrite alloc_bind_eq by (apply access_Some, lookup_insert_eq).
    cbn -[Z.of_nat]. by rewrite (proj2 (Z.eqb_neq _ _)) by lia.
Qed.

End mempool.

(** * Examples *)

Definition pool0 : pool (tree mp_node) := mk_pool Nil ∅ ∅ 0 true 3 4.

Lemma pool0_ok : pool_ok pool0.
Proof.
  split; [exact (ix_empty_wf (OrderedIndex:=rb_index size_cmp))|]. split_and!; cbn; try done; intros *.
  - split; [by intros ?%not_elem_of_nil|]. intros (e & He & _). by rewrite lookup_empty in He.
Qed.

Lemma mp_alloc_correct_witness :
  exists b p', mp_alloc 64 pool0 [] = Some ((Some b, p'), []) /\ blocks p' !! b = Some 64 /\ in_use p' b.
Proof.
  destruct (mp_alloc_correct 64 pool0 pool0_ok eq_refl) as (b & p' & E & _ & Hb & _ & Hu); [unfold INT_MAX; lia|].
  exists b, p'. split; [exact E|]. split; [exact Hb|]. apply Hu. by left.
Defined.

Lemma mp_free_correct_witness :
  exists b p1 p2, mp_alloc 64 pool0 [] = Some ((Some b, p1), []) /\ mp_free (Some b) p1 = Some p2 /\ ~ in_use p2 b.
Proof.
  destruct (mp_alloc_spec 64 pool0 pool0_ok eq_refl) as (b & p1 & E & Hok & Hb & _ & Hu); [unfold INT_MAX; lia|].
  assert (mp_initialized p1 = true) as Hi.
  { vm_compute in E. injection E as <- <-. reflexivity. }
  destruct (mp_free_correct p1 b Hok Hi) as (p2 & E2 & _ & Hu2 & _); [apply Hu; by left|].
  exists b, p1, p2. split; [exact E|]. split; [exact E2|]. rewrite Hu2. by intros [? _].
Defined.

(** A size whose cache is empty. *)
Definition pool_drained : pool (tree mp_node) :=
  mk_pool (Node Black Nil (mk_node 64 0) Nil) {[0%nat := mk_entry 64 0 []]} ∅ 1 true 3 4.

Lemma mp_alloc_refill_failure_witness :
  exists p', mp_alloc 64 pool_drained [true; false] = Some ((None, p'), []) /\
    mp_alloc 64 p' [] = Some ((None, p'), []).
Proof.
  destruct (mp_alloc_refill_failure 64 (mk_node 64 0) (mk_entry 64 0 []) pool_drained 1 [])
    as (p' & E & H).
  - reflexivity.
  - unfold INT_MAX. lia.
  - vm_compute. reflexivity.
  - vm_compute. reflexivity.
  - reflexivity.
  - lia.
  - vm_compute. reflexivity.
  - exists p'. split; [exact E|apply H].
Defined.
