(* ===== verification/MempoolClient.v ===== *)
(** What the users of the memory pool of src/csf/mempool.c may rely on: over any
    sequence of [mp_malloc], [mp_calloc] and [mp_free] the blocks in their hands
    are a finite map from addresses to sizes, to which an allocation adds a fresh
    block and from which a release takes exactly the given one. *)

From S2P Require Import Prelude RbTree Mempool.

(** * Clients *)

Inductive mop : Type :=
| Malloc (size : Z)
| Calloc (number size : Z)
| Free (b : nat).

(** The size an operation asks for. *)
Definition asked (o : mop) : option Z :=
  match o with
  | Malloc size => Some (long_of size)
  | Calloc number size => Some (long_of (u64 (number * size)))
  | Free _ => None
  end.

(** The contract of the caller: positive sizes that fit an [int], and only its own
    blocks are given back. *)
Definition allowed (live : gmap nat Z) (o : mop) : Prop :=
  match asked o with
  | Some size => 0 < size <= INT_MAX
  | None => match o with Free b => is_Some (live !! b) | _ => False end
  end.

(** The blocks held after an operation with the result [r]. *)
Definition held_after (o : mop) (r : option nat) (live : gmap nat Z) : gmap nat Z :=
  match o with
  | Free b => delete b live
  | _ => match r, asked o with Some b, Some size => <[b:=size]> live | _, _ => live end
  end.

Section client.
Context {T : Type} `{!OrderedIndex size_cmp T}.
Implicit Types p : pool T.

(** An operation while the C library has memory: the pointer it returns. *)
Definition mp_step (o : mop) p : option (option nat * pool T) :=
  match o with
  | Malloc size => fst <$> mp_malloc size p []
  | Calloc number size => fst <$> mp_calloc number size p []
  | Free b => pair None <$> mp_free (Some b) p
  end.

(** The states a client reaches, and the blocks it then holds. *)
Inductive reached (p0 : pool T) : pool T -> gmap nat Z -> Prop :=
| reached_start : reached p0 p0 ∅
| reached_step p live o r p' :
    reached p0 p live -> allowed live o -> mp_step o p = Some (r, p') -> reached p0 p' (held_after o r live).

(** * Blocks keep their sizes *)

(** What an allocation leaves alone. *)
Definition grows p p' : Prop :=
  mp_initialized p' = mp_initialized p /\ (next_addr p <= next_addr p')%nat /\
  forall b s, (b < next_addr p)%nat -> blocks p !! b = Some s -> blocks p' !! b = Some s.

Lemma grows_refl p : grows p p.
Proof. by split_and!. Qed.

Lemma grows_trans p1 p2 p3 : grows p1 p2 -> grows p2 p3 -> grows p1 p3.
Proof.
  intros (H1 & H2 & H3) (H4 & H5 & H6). split; [congruence|]. split; [lia|]. intros b s Hb Hs. apply H6; [lia|]. by apply H3.
Qed.

(** Only the blocks matter. *)
Lemma grows_entry p p' a e : grows p p' -> grows p (set_entry a e p').
Proof. done. Qed.

Lemma grows_tree p p' t : grows p p' -> grows p (set_tree t p').
Proof. done. Qed.

Lemma new_block_grows size p r o : new_block size p [] = Some (r, o) -> grows p r.2.
Proof.
  intros [= <- _]. cbn. split_and!; cbn; [done|lia|]. intros b s Hb Hs. by rewrite lookup_insert_ne by lia.
Qed.

Lemma init_block_grows k size e p : exists r, mp_init_block k size e p [] = Some (r, []) /\ r.1.1 = 0 /\ grows p r.2.
Proof.
  revert e p. induction k as [|k IH]; intros e p; [eexists; split; [done|]; split; [done|apply grows_refl]|].
  cbn [mp_init_block]. assert (exists r, new_block size p [] = Some (r, []) /\ is_Some r.1) as (r & E & b & Hb) by (eexists; split; [done|by eexists]).
  pose proof (new_block_grows _ _ _ _ E) as Hg. alloc_step E. rewrite Hb.
  destruct (IH (mk_entry (mem_size e) (u32 (total_item e + 1)) (b :: mem_head e)) r.2) as (r' & E' & H0 & Hg').
  exists r'. split; [exact E'|]. split; [done|]. by apply grows_trans with r.2.
Qed.

Lemma mp_alloc_grows size p ob p' o : mp_alloc size p [] = Some ((ob, p'), o) -> grows p p'.
Proof.
  unfold mp_alloc. case_match; [intros [= _ <- _]; apply grows_refl|]. case_match; [intros [= _ <- _]; apply grows_refl|].
  cbn zeta. set (k := Z.to_nat _). destruct (ix_find _ _) as [n|].
  - unfold mbind, alloc_bind. destruct (entries p !! nd_addr n) as [e|] eqn:Ee; [|done].
    cbn -[mp_init_block new_block]. case_match.
    + destruct (init_block_grows k (mem_size e) (mk_entry (mem_size e) (total_item e) []) p) as ([[rc e1] p1] & -> & Hrc & Hg).
      cbn in Hrc, Hg. subst rc. cbn -[new_block]. intros E.
      apply (grows_trans _ (set_entry (nd_addr n) e1 p1)); [done|]. exact (new_block_grows _ _ _ _ E).
    + case_match; intros [= _ <- _]; [apply grows_refl|]. apply grows_entry, grows_refl.
  - unfold mbind, alloc_bind. cbn -[mp_init_block new_block ix_insert]. set (p0 := set_blocks (blocks p) (S (next_addr p)) p).
    destruct (init_block_grows k size (mk_entry (i32 size) 0 []) p0) as ([[rc e1] p1] & -> & Hrc & Hg).
    cbn in Hrc, Hg. subst rc. cbn -[new_block ix_insert]. destruct (ix_insert _ _) as [[t x]|]; [|done]. cbn -[new_block]. intros E.
    assert (grows p p0) as Hg0 by (split_and!; cbn; [done|lia|done]).
    apply (grows_trans _ p0 _ Hg0), (grows_trans _ (set_entry (next_addr p) e1 (set_tree t p1))); [done|].
    exact (new_block_grows _ _ _ _ E).
Qed.

Lemma mp_free_keeps p p' b c : pool_ok p -> in_use p c -> c <> b -> mp_free (Some b) p = Some p' ->
  blocks p' !! c = blocks p !! c.
Proof.
  intros Hok Hc Hne. unfold mp_free, mp_pfree. case_match; [by intros [= <-]|].
  destruct (blocks p !! b) as [s|]; [|done]. cbn -[trim]. destruct (ix_find _ _) as [n|]; [|by intros [= <-]].
  destruct (entries p !! nd_addr n) as [e|] eqn:Ee; [|done]. cbn -[trim].
  destruct (g_pre_free_num p <? total_item e) eqn:Eg; bool_props; [|by intros [= <-]].
  pose proof Hok as (_ & _ & He & _ & _ & Hgf). destruct (He _ _ Ee) as [(Ht & Hlt & _) _].
  destruct (trim_spec (g_pre_free_num p) (mem_head e) (total_item e) (delete b (blocks p)) Ht Hlt) as (d & r & bs & -> & Hd & _ & Hbs); [lia|].
  intros [= <-]. cbn. rewrite Hbs, decide_False, lookup_delete_ne; [done|done|].
  intros Hin. apply (proj2 Hc). exists (nd_addr n), e. split; [done|]. rewrite Hd. apply elem_of_app. by left.
Qed.

Lemma mp_free_initialized p p' b : mp_free b p = Some p' -> mp_initialized p' = mp_initialized p.
Proof.
  unfold mp_free, mp_pfree. case_match; [by intros [= <-]|]. destruct b as [b|]; [|by intros [= <-]].
  destruct (blocks p !! b); [|done]. cbn -[trim]. case_match; [|by intros [= <-]]. destruct (entries p !! _); [|done].
  cbn -[trim]. case_match; [|by intros [= <-]]. destruct (trim _ _ _ _) as [[l t] bs]. by intros [= <-].
Qed.

(** * The simulation *)

(** The pool keeps the map [live] of the blocks in use. *)
Definition serves p (live : gmap nat Z) : Prop :=
  pool_ok p /\ mp_initialized p = true /\ forall b s, live !! b = Some s <-> in_use p b /\ blocks p !! b = Some s.

Lemma serves_alloc p live size : serves p live -> 0 < size <= INT_MAX ->
  exists b p', mp_alloc size p [] = Some ((Some b, p'), []) /\ live !! b = None /\ serves p' (<[b:=size]> live).
Proof.
  intros (Hok & Hini & Hlive) Hs. destruct (mp_alloc_spec size p Hok Hini Hs) as (b & p' & E & Hok' & Hb & Hnb & Huse).
  destruct (mp_alloc_grows _ _ _ _ _ E) as (Hini' & _ & Hkeep). exists b, p'. split; [done|].
  assert (live !! b = None) as Hfresh by (destruct (live !! b) eqn:El; [by apply Hlive in El as [? _]|done]).
  split; [done|]. split; [done|]. split; [congruence|]. intros c s. destruct (decide (c = b)) as [->|Hne].
  - rewrite lookup_insert_eq, Huse, Hb. split; [intros [= <-]; auto|]. intros [_ [= <-]]. done.
  - rewrite lookup_insert_ne, Hlive, Huse by done.
    assert (in_use p c -> blocks p' !! c = blocks p !! c) as Hsame.
    { intros [[x Hx] _]. rewrite Hx. apply Hkeep; [|done]. destruct Hok as (_ & _ & _ & Hlt & _). by destruct (Hlt _ _ Hx). }
    split; [intros [Hc Hx]; rewrite Hsame by done; auto|]. intros [[->|Hc] Hx]; [done|]. rewrite Hsame in Hx by done. auto.
Qed.

Lemma serves_free p live b : serves p live -> is_Some (live !! b) ->
  exists p', mp_free (Some b) p = Some p' /\ serves p' (delete b live).
Proof.
  intros (Hok & Hini & Hlive) [x Hx]. apply Hlive in Hx as [Hb _].
  destruct (mp_free_ok p b Hok Hini Hb) as (p' & E & Hok' & Huse & _). exists p'. split; [done|]. split; [done|]. split.
  - by rewrite (mp_free_initialized _ _ _ E).
  - intros c s. destruct (decide (c = b)) as [->|Hne].
    + rewrite lookup_delete_eq, Huse. naive_solver.
    + rewrite lookup_delete_ne, Hlive, Huse by done. split.
      * intros [Hc Hs]. split; [done|]. by rewrite (mp_free_keeps p p' b c Hok Hc Hne E).
      * intros [[_ Hc] Hs]. split; [done|]. by rewrite <-(mp_free_keeps p p' b c Hok Hc Hne E).
Qed.

Lemma serves_step p live o : serves p live -> allowed live o ->
  exists r p', mp_step o p = Some (r, p') /\ serves p' (held_after o r live) /\
    match r with Some b => live !! b = None | None => asked o = None end.
Proof.
  intros Hs Ha. destruct o as [size|number size|b]; cbn in Ha.
  - destruct (serves_alloc p live _ Hs Ha) as (b & p' & E & Hb & Hs'). exists (Some b), p'. cbn. unfold mp_malloc. by rewrite E.
  - destruct (serves_alloc p live _ Hs Ha) as (b & p' & E & Hb & Hs'). exists (Some b), p'. cbn. unfold mp_calloc. by rewrite E.
  - destruct (serves_free p live b Hs Ha) as (p' & E & Hs'). exists None, p'. cbn. by rewrite E.
Qed.

Lemma reached_serves p0 p live : serves p0 ∅ -> reached p0 p live -> serves p live.
Proof.
  intros H0 Hr. induction Hr as [|p live o r p' _ IH Ha E]; [done|].
  destruct (serves_step p live o IH Ha) as (r' & p'' & E' & Hs & _). congruence.
Qed.


End client.

(** * Witness *)

Lemma pool0_serves : serves pool0 ∅.
Proof.
  split; [exact pool0_ok|]. split; [done|]. intros b s. rewrite lookup_empty. split; [done|]. intros [_ H]. cbn in H. by rewrite lookup_empty in H.
Qed.

