(* ===== verification/Utils.v ===== *)
(** The utilities of src/csf/utils.c: [daemonize], with the disposition of the
    hang-up signal, the descriptors and the working directory it leaves, and
    [_smalloc] and [_sfree] over the memory pool. *)

From S2P Require Import Prelude RbTree Mempool.

(** * daemonize *)

(** What is done with SIGHUP, and what a descriptor refers to. *)
Inductive disposition : Type := SIG_IGN | Kept.
Inductive file : Type := dev_null | other_file (n : Z).

Record process : Type := mk_process {
  pr_hup : disposition;
  pr_root : bool;
  pr_fds : gmap Z file
}.

(** The answers of the system; [an_open] is a descriptor that was not in use. *)
Record daemon_calls : Type := mk_daemon_calls {
  an_sigaction : Z;
  an_fork : Z;
  an_setsid : Z;
  an_open : Z
}.

(** The process that called either exits or goes on with a result. *)
Inductive daemon_end : Type :=
| DExit (code : Z)
| DRet (rc : Z) (p : process).

Definition set_hup (d : disposition) (p : process) : process := mk_process d (pr_root p) (pr_fds p).
Definition chdir_root (p : process) : process := mk_process (pr_hup p) true (pr_fds p).
Definition set_fds (m : gmap Z file) (p : process) : process := mk_process (pr_hup p) (pr_root p) m.

(** [dup2]; [close] is [delete]. *)
Definition dup2 (fd to : Z) (m : gmap Z file) : gmap Z file :=
  match m !! fd with Some f => <[to:=f]> m | None => m end.

(** The descriptors after /dev/null was opened as [fd]. *)
Definition redirect (fd : Z) (m : gmap Z file) : gmap Z file :=
  let m := dup2 fd 2 (dup2 fd 1 (dup2 fd 0 (<[fd:=dev_null]> m))) in
  if 2 <? fd then delete fd m else m.

(** [daemonize]. *)
Definition daemonize (nochdir noclose : bool) (k : daemon_calls) (p : process) : daemon_end :=
  let p1 := if an_sigaction k =? -1 then p else set_hup SIG_IGN p in
  if an_fork k =? -1 then DRet (-1) p1
  else if negb (an_fork k =? 0) then DExit 0
  else
    let p2 := if negb (an_sigaction k =? -1) then set_hup (pr_hup p) p1 else p1 in
    if an_setsid k =? -1 then DRet CSF_ERR p2
    else
      let p3 := if negb nochdir then chdir_root p2 else p2 in
      let p4 := if negb noclose && negb (an_open k =? -1) then set_fds (redirect (an_open k) (pr_fds p3)) p3 else p3 in
      DRet CSF_OK p4.

(** * Memory *)

Section memory.
Context {T : Type} `{!OrderedIndex size_cmp T}.
Implicit Types p : pool T.

(** [_smalloc] returns a block, or [_crit] ends the process. *)
Inductive smalloc_end : Type := Block (b : nat) | CritExit.

Definition _smalloc (size : Z) p : Alloc (smalloc_end * pool T) :=
  mp_malloc (u64 size) p ≫= fun r : option nat * pool T =>
  mret (match r.1 with Some b => Block b | None => CritExit end, r.2).

(** [_sfree]. *)
Definition _sfree (ptr : option nat) p : option (pool T) := mp_free ptr p.

(** * Lemmas *)

Lemma long_of_u64 s : - 2 ^ 31 <= s < 2 ^ 31 -> long_of (u64 s) = s.
Proof. intros. unfold long_of, u64. Z.to_euclidean_division_equations; lia. Qed.

(** [smalloc] of a positive [int] gives a block of that size that nobody
    holds, and a size that is not positive ends the process: no caller ever gets
    NULL. *)
Theorem smalloc_correct size p : pool_ok p -> mp_initialized p = true -> - 2 ^ 31 <= size < 2 ^ 31 ->
  if 0 <? size then
    exists b p', _smalloc size p [] = Some ((Block b, p'), []) /\ pool_ok p' /\ blocks p' !! b = Some size /\
      ~ in_use p b /\ forall c, in_use p' c <-> c = b \/ in_use p c
  else _smalloc size p [] = Some ((CritExit, p), []).
Proof.
  intros Hok Hi Hs. unfold _smalloc, mp_malloc. rewrite long_of_u64 by done.
  destruct (Z.ltb_spec 0 size) as [Hp|Hn].
  - destruct (mp_alloc_spec size p Hok Hi) as (b & p' & E & H); [unfold INT_MAX; lia|].
    exists b, p'. split; [|done]. by erewrite alloc_bind_eq by exact E.
  - unfold mp_alloc. rewrite Hi. cbn [negb]. by destruct (Z.leb_spec size 0); [|lia].
Qed.

End memory.

Lemma redirect_std fd m : m !! fd = None -> 0 <= fd ->
  (forall i, 0 <= i <= 2 -> redirect fd m !! i = Some dev_null) /\
  (forall i, ~ 0 <= i <= 2 -> redirect fd m !! i = m !! i).
Proof.
  intros Hfd Hp. unfold redirect.
  assert (D : forall k m', m' !! fd = Some dev_null -> dup2 fd k m' = <[k:=dev_null]> m').
  { intros k m' H. unfold dup2. by rewrite H. }
  assert (I : forall (k : Z) (m' : gmap Z file), m' !! fd = Some dev_null -> <[k:=dev_null]> m' !! fd = Some dev_null).
  { intros k m' H. destruct (decide (k = fd)) as [->|]; [apply lookup_insert_eq|by rewrite lookup_insert_ne]. }
  assert (H0 : <[fd:=dev_null]> m !! fd = Some dev_null) by apply lookup_insert_eq.
  rewrite (D 0 _ H0), (D 1), (D 2) by auto.
  split; intros i Hi; destruct (Z.ltb_spec 2 fd) as [H|H].
  - rewrite lookup_delete_ne by lia. rewrite !lookup_insert. by repeat case_decide; try lia.
  - rewrite !lookup_insert. by repeat case_decide; try lia.
  - destruct (decide (i = fd)) as [->|]; [by rewrite lookup_delete_eq|].
    rewrite lookup_delete_ne, !lookup_insert_ne by lia. done.
  - rewrite !lookup_insert_ne by lia. done.
Qed.

(** [daemonize] goes on only in the child, with its hang-up handling restored
    and, when asked to, in the root directory and with the three standard
    descriptors on /dev/null and no other descriptor changed; the calling process
    exits with 0. *)
Theorem daemonize_correct nochdir noclose k p : an_fork k <> -1 -> 0 <= an_open k -> pr_fds p !! an_open k = None ->
  match daemonize nochdir noclose k p with
  | DExit code => code = 0 /\ an_fork k <> 0
  | DRet rc p' => an_fork k = 0 /\ pr_hup p' = pr_hup p /\ (rc = CSF_OK <-> an_setsid k <> -1) /\
      (rc = CSF_OK -> pr_root p' = negb nochdir || pr_root p /\
        (forall i, 0 <= i <= 2 -> pr_fds p' !! i = if noclose then pr_fds p !! i else Some dev_null) /\
        (forall i, ~ 0 <= i <= 2 -> pr_fds p' !! i = pr_fds p !! i))
  end.
Proof.
  intros Hf Ho Hn. destruct (redirect_std _ _ Hn Ho) as [R1 R2]. unfold daemonize.
  rewrite (proj2 (Z.eqb_neq _ _) Hf). destruct (Z.eqb_spec (an_fork k) 0) as [E|E]; cbn [negb]; [|done].
  destruct (Z.eqb_spec (an_setsid k) (-1)) as [Es|Es].
  - destruct (an_sigaction k =? -1), p; cbn; split_and!; try done; try (split; [done|by intros []]).
  - destruct (Z.eqb_spec (an_open k) (-1)); [lia|]. destruct (an_sigaction k =? -1), nochdir, noclose, p; cbn in *.
    all: split_and!; try done; intros _; split_and!; done.
Qed.

(** When [fork] fails the process goes on with the hang-up signal ignored: the
    old disposition is not put back, and no caller looks at the result. *)
Theorem daemonize_fork_failure nochdir noclose k p : an_fork k = -1 -> an_sigaction k <> -1 ->
  daemonize nochdir noclose k p = DRet (-1) (set_hup SIG_IGN p).
Proof. intros Hf Hs. unfold daemonize. by rewrite Hf, (proj2 (Z.eqb_neq _ _) Hs). Qed.

(** * Witnesses *)

Lemma smalloc_correct_witness :
  exists b p', _smalloc 64 pool0 [] = Some ((Block b, p'), []) /\ in_use p' b.
Proof.
  pose proof (smalloc_correct 64 pool0 pool0_ok eq_refl ltac:(lia)) as H. cbn in H.
  destruct H as (b & p' & E & _ & _ & _ & Hu). exists b, p'. split; [exact E|]. apply Hu. by left.
Defined.

Lemma daemonize_correct_witness :
  exists p', daemonize false false (mk_daemon_calls 0 0 77 3) (mk_process Kept false {[1 := other_file 5]}) = DRet 0 p' /\
    pr_fds p' !! 1 = Some dev_null.
Proof.
  pose proof (daemonize_correct false false (mk_daemon_calls 0 0 77 3) (mk_process Kept false {[1 := other_file 5]})
    ltac:(cbn; lia) ltac:(cbn; lia) eq_refl) as H.
  eexists. split; [reflexivity|]. refine (proj1 (proj2 (proj2 (proj2 (proj2 H)) eq_refl)) 1 _). lia.
Defined.
