(* ===== verification/Supervisor.v ===== *)
(** The supervisor process: src/csf/main.c, which launches the worker, waits for
    it, launches it again, and forwards signals. What happens to the process while
    it waits is a list of events: a child that is reaped, a signal whose handler
    runs, or an error of [waitpid]. *)

From S2P Require Import Prelude CString RbTree Mempool Utils.

Definition DELAY_ERROR : Z := 3000 * 1000.
Definition DELAY_RESTARTING : Z := 500 * 1000.

(** The signals the handler knows, and the others, which it forwards. *)
Inductive signal : Type := SIGHUP | SIGINT | SIGTERM | SIGUSR1 | SIGCHLD (si_pid : Z) | SIGOTHER (n : Z).

(** How a child ended: by [exit], or by a signal. *)
Inductive wstatus : Type := Exited (rc : Z) | Signaled (sig : Z).

(** What a call of [waitpid] meets. *)
Inductive event : Type :=
| Reaped (st : wstatus)
| Interrupt (sig : signal)
| NoChild
| WaitError.

(** [set_signals]: SIGPIPE (13) is ignored, and SIGHUP, SIGINT, SIGTERM, SIGUSR1,
    SIGUSR2 and SIGCHLD go to [signals_handler]; the numbers are those of Linux. *)
Inductive sig_action : Type := ActDefault | ActIgnore | ActHandler.

Definition set_signals (act : gmap Z sig_action) : gmap Z sig_action :=
  foldr (fun n m => <[n:=ActHandler]> m) (<[13:=ActIgnore]> act) [1; 2; 15; 10; 12; 17].

(** The globals, the signals sent, and the pauses made. *)
Record sup : Type := mk_sup {
  graceful : bool;
  child_pid : Z;
  kills : list (Z * signal);
  launched : list Z;
  pauses : list Z
}.

Definition set_graceful (b : bool) (s : sup) : sup := mk_sup b (child_pid s) (kills s) (launched s) (pauses s).

Definition kill (pid : Z) (sig : signal) (s : sup) : sup :=
  mk_sup (graceful s) (child_pid s) (kills s ++ [(pid, sig)]) (launched s) (pauses s).

(** The end of a call: it returns with the events left, the process exits, or it
    still waits when the events are over. *)
Inductive outcome (A : Type) : Type :=
| Ret (a : A) (evs : list event) (s : sup)
| Exit (code : Z) (s : sup)
| Blocked (s : sup).
Arguments Ret {A}.
Arguments Exit {A}.
Arguments Blocked {A}.

(** The status tests after the loop of [process_wait]. *)
Definition wait_result (st : wstatus) (evs : list event) (s : sup) : outcome Z :=
  match st with
  | Exited rc => if rc =? 2 then Exit 2 s else if negb (rc =? 0) then Ret CSF_ERR evs s else Ret CSF_OK evs s
  | Signaled _ => Ret CSF_OK evs s
  end.

(** [signals_handler] over the [process_wait] it may call. *)
Definition signals_handler (process_wait : list event -> sup -> outcome Z) (sig : signal) (evs : list event) (s : sup)
  : outcome unit :=
  match sig with
  | SIGUSR1 =>
      match process_wait evs (kill (child_pid s) SIGINT s) with
      | Ret _ evs' s' => Ret tt evs' s' | Exit c s' => Exit c s' | Blocked s' => Blocked s'
      end
  | SIGHUP => Ret tt evs (kill (child_pid s) SIGHUP (set_graceful true s))
  | SIGINT | SIGTERM =>
      match process_wait evs (kill (child_pid s) SIGTERM s) with
      | Ret _ _ s' => Exit 0 s' | Exit c s' => Exit c s' | Blocked s' => Blocked s'
      end
  | SIGCHLD _ =>
      match process_wait evs s with
      | Ret _ evs' s' => Ret tt evs' s' | Exit c s' => Exit c s' | Blocked s' => Blocked s'
      end
  | SIGOTHER n => Ret tt evs (kill (child_pid s) (SIGOTHER n) s)
  end.

(** [process_wait]; each round takes an event, so their number is enough fuel.
    [exitcode] is 0 until a child is reaped. *)
Fixpoint process_wait (fuel : nat) (evs : list event) (s : sup) : outcome Z :=
  match fuel, evs with
  | S fuel', Reaped st :: evs' => wait_result st evs' s
  | S fuel', NoChild :: evs' => Ret CSF_OK evs' s
  | S fuel', WaitError :: evs' => Ret CSF_ERR evs' s
  | S fuel', Interrupt sig :: evs' =>
      match signals_handler (process_wait fuel') sig evs' s with
      | Ret _ evs'' s' => if graceful s' then wait_result (Exited 0) evs'' s' else process_wait fuel' evs'' s'
      | Exit c s' => Exit c s'
      | Blocked s' => Blocked s'
      end
  | _, _ => Blocked s
  end.

Definition wait_child (evs : list event) (s : sup) : outcome Z := process_wait (S (length evs)) evs s.

(** The signals that arrive during [usleep], each with the events of its handler. *)
Fixpoint sleep_signals (sigs : list (signal * list event)) (s : sup) : outcome unit :=
  match sigs with
  | [] => Ret tt [] s
  | (sig, evs) :: sigs' =>
      match signals_handler (process_wait (S (length evs))) sig evs s with
      | Ret _ _ s' => sleep_signals sigs' s'
      | r => r
      end
  end.

(** A round of the loop of [main]: the result of [fork], the events of the wait,
    and the signals during the pause. *)
Record round : Type := mk_round { r_fork : Z; r_events : list event; r_sleep : list (signal * list event) }.

(** [process_launch]: the parent gets the pid; the child becomes the worker, or
    exits with 1 when the file cannot be executed. *)
Inductive launch_end : Type := LParent (pid : Z) | LWorker | LChildExit (code : Z).

Definition process_launch (fork : Z) (exec_ok : bool) : launch_end :=
  if fork =? 0 then if exec_ok then LWorker else LChildExit 1 else LParent fork.

Definition launch (pid : Z) (s : sup) : sup := mk_sup (graceful s) pid (kills s) (launched s ++ [pid]) (pauses s).

Definition pause (t : Z) (s : sup) : sup := mk_sup (graceful s) (child_pid s) (kills s) (launched s) (pauses s ++ [t]).

Definition main_round (r : round) (s : sup) : outcome unit :=
  let s := launch (r_fork r) (set_graceful false s) in
  if r_fork r <? 0 then Exit 1 s
  else
    match wait_child (r_events r) s with
    | Ret ret _ s' => sleep_signals (r_sleep r) (pause (if ret =? 0 then DELAY_RESTARTING else DELAY_ERROR) s')
    | Exit c s' => Exit c s'
    | Blocked s' => Blocked s'
    end.

Fixpoint main_loop (rounds : list round) (s : sup) : outcome unit :=
  match rounds with
  | [] => Ret tt [] s
  | r :: rounds' =>
      match main_round r s with
      | Ret _ _ s' => main_loop rounds' s'
      | e => e
      end
  end.

Definition sup0 : sup := mk_sup false 0 [] [] [].

(** [main] after the path is found: the result of [daemonize] is not looked at. *)
Definition main (k : daemon_calls) (p : process) (rounds : list round) : outcome unit :=
  match daemonize true true k p with
  | DExit code => Exit code sup0
  | DRet _ _ => main_loop rounds sup0
  end.

(** * The path of the worker *)

Definition LINK_SIZE : nat := 512.

(** The answers of the system: the working directory, and what the three links
    under /proc point to, cut to the size of the buffer. *)
Record paths : Type := mk_paths { p_cwd : option cstr; p_links : list (option cstr) }.

(** The search through [unix_paths]; the terminator is stored after the bytes
    that [readlink] returns. *)
Fixpoint link_target (links : list (option cstr)) : option (option cstr) :=
  match links with
  | [] => Some None
  | Some target :: links' =>
      let link := take LINK_SIZE target in
      match link with
      | [] => link_target links'
      | _ => if decide (length link < LINK_SIZE)%nat then Some (Some (strlcpy_str (length link + 9) (link ++ L"-worker"))) else None
      end
  | None :: links' => link_target links'
  end.

(** [figure_worker_path]: the value of [csf_worker]; memory is available. *)
Definition figure_worker_path (p : paths) (arg0 : cstr) : option (option cstr) :=
  if bool_decide (head arg0 = Some "/"%char) then
    Some (Some (strlcpy_str (length arg0 + 9) (arg0 ++ L"-worker")))
  else if bool_decide (head arg0 = Some "."%char) || bool_decide ("/"%char ∈ arg0) then
    d ← p_cwd p;
    Some (Some (strlcpy_str (length arg0 + length d + 9) (d ++ L"/" ++ arg0 ++ L"-worker")))
  else link_target (p_links p).

(** * Theorems *)

(** Fuel is always enough: no call uses more rounds than it has events, and a
    call leaves fewer events than it was given. *)
Lemma handler_evs pw sig evs s :
  (forall evs s, match pw evs s with Ret _ evs' _ => (length evs' <= length evs)%nat | _ => True end) ->
  match signals_handler pw sig evs s with Ret _ evs' _ => (length evs' <= length evs)%nat | _ => True end.
Proof.
  intros H. destruct sig; cbn; try lia.
  - specialize (H evs (kill (child_pid s) SIGTERM s)). by destruct (pw _ _).
  - specialize (H evs (kill (child_pid s) SIGTERM s)). by destruct (pw _ _).
  - specialize (H evs (kill (child_pid s) SIGINT s)). by destruct (pw _ _).
  - specialize (H evs s). by destruct (pw _ _).
Qed.

Lemma process_wait_evs fuel evs s :
  match process_wait fuel evs s with Ret _ evs' _ => (length evs' <= length evs)%nat | _ => True end.
Proof.
  revert evs s; induction fuel as [|fuel IH]; intros evs s; [done|].
  destruct evs as [|[st|sig| |] evs]; cbn [process_wait length]; [done|..|lia|lia].
  - unfold wait_result. destruct st; [|lia]. destruct (_ =? 2); [done|]. destruct (negb _); lia.
  - pose proof (handler_evs (process_wait fuel) sig evs s IH) as H.
    destruct (signals_handler _ sig evs s) as [[] evs' s'|c s'|s']; [|done..].
    destruct (graceful s'); [cbn; lia|]. specialize (IH evs' s'). destruct (process_wait fuel evs' s'); [lia|done..].
Qed.

(** More fuel gives the same result. *)
Lemma process_wait_fuel fuel fuel' evs s : (length evs < fuel)%nat -> (length evs < fuel')%nat ->
  process_wait fuel evs s = process_wait fuel' evs s.
Proof.
  revert fuel' evs s; induction fuel as [|fuel IH]; intros [|fuel'] evs s H H'; [lia..|].
  destruct evs as [|[st|sig| |] evs]; cbn [process_wait]; try done. cbn [length] in *.
  assert (Eh : signals_handler (process_wait fuel) sig evs s = signals_handler (process_wait fuel') sig evs s).
  { unfold signals_handler.
    destruct sig; try reflexivity; (rewrite (IH fuel') by lia); reflexivity. }
  pose proof (handler_evs (process_wait fuel') sig evs s (process_wait_evs fuel')) as Hle.
  rewrite Eh. destruct (signals_handler (process_wait fuel') sig evs s) as [[] evs' s'|c s'|s']; [|done..].
  destruct (graceful s'); [done|]. apply IH; lia.
Qed.

(** What an event gives to the waits: an end of a wait, or one more wait. *)
Definition weight (e : event) : Z :=
  match e with
  | Interrupt SIGHUP | Interrupt (SIGOTHER _) => 0
  | Interrupt _ => -1
  | _ => 1
  end.

Definition surplus (evs : list event) : Z := foldr (fun e n => weight e + n) 0 evs.

(** A wait that ends uses up at most one end; the process exits with 0 or 2. *)
Definition wait_ends {A} (n : Z) (o : outcome A) : Prop :=
  match o with Ret _ evs _ => n <= surplus evs | Exit c _ => c = 0 \/ c = 2 | Blocked _ => False end.

Lemma wait_result_ends st evs s : wait_ends (surplus evs) (wait_result st evs s).
Proof. unfold wait_result. destruct st as [rc|]; [destruct (rc =? 2), (negb (rc =? 0))|]; cbn; lia. Qed.

Lemma handler_ends pw sig evs s :
  (forall s, 0 < surplus evs -> wait_ends (surplus evs - 1) (pw evs s)) ->
  0 < weight (Interrupt sig) + surplus evs -> wait_ends (weight (Interrupt sig) + surplus evs) (signals_handler pw sig evs s).
Proof.
  intros H Hs. destruct sig; cbn [signals_handler weight] in *; try (cbn; lia).
  - specialize (H (kill (child_pid s) SIGTERM s)). destruct (pw _ _); cbn [wait_ends] in *; lia.
  - specialize (H (kill (child_pid s) SIGTERM s)). destruct (pw _ _); cbn [wait_ends] in *; lia.
  - specialize (H (kill (child_pid s) SIGINT s)). destruct (pw _ _); cbn [wait_ends] in *; lia.
  - specialize (H s). destruct (pw _ _); cbn [wait_ends] in *; lia.
Qed.

Lemma process_wait_ends fuel evs s : (length evs < fuel)%nat -> 0 < surplus evs ->
  wait_ends (surplus evs - 1) (process_wait fuel evs s).
Proof.
  revert evs s; induction fuel as [|fuel IH]; intros evs s Hf Hs; [lia|].
  destruct evs as [|e evs]; [cbn in Hs; lia|]. cbn [length surplus foldr] in Hf, Hs |- *.
  fold (surplus evs) in *. destruct e as [st|sig| |]; cbn [process_wait].
  - cbn [weight] in *. replace (1 + surplus evs - 1) with (surplus evs) by lia. apply wait_result_ends.
  - assert (Hh := handler_ends (process_wait fuel) sig evs s ltac:(intros; apply IH; lia) Hs).
    pose proof (handler_evs (process_wait fuel) sig evs s (process_wait_evs fuel)) as Hl.
    destruct (signals_handler _ sig evs s) as [[] evs' s'|c s'|s']; cbn [wait_ends] in Hh; [|done..].
    destruct (graceful s'); [cbn [wait_result wait_ends Z.eqb negb]; lia|]. specialize (IH evs' s' ltac:(lia) ltac:(lia)).
    destruct (process_wait fuel evs' s'); cbn [wait_ends] in *; lia.
  - cbn in *; lia.
  - cbn in *; lia.
Qed.

(** C13: The supervisor never waits without end: when every wait, that of the loop
    and those that signal handlers start, is met by an end of a child or an error,
    the call returns or the process exits with 0 or 2, however signals are
    nested. *)
Theorem wait_child_ends evs s : 0 < surplus evs ->
  match wait_child evs s with
  | Ret _ evs' _ => surplus evs - 1 <= surplus evs'
  | Exit c _ => c = 0 \/ c = 2
  | Blocked _ => False
  end.
Proof. intros H. apply (process_wait_ends (S (length evs)) evs s); [lia|done]. Qed.

(** ** The life of a worker *)

(** How a worker's time ends: it ends by itself, the supervisor is told to stop
    and the worker ends then, or the supervisor is told to restart gracefully. *)
Inductive ending : Type :=
| Ended (st : wstatus)
| Stopped (int : bool) (st : wstatus)
| Reload.

Record life : Type := mk_life { l_pid : Z; l_fwd : list Z; l_end : ending }.

Definition ending_events (e : ending) : list event :=
  match e with
  | Ended st => [Reaped st]
  | Stopped int st => [Interrupt (if int then SIGINT else SIGTERM); Reaped st]
  | Reload => [Interrupt SIGHUP]
  end.

(** The round of [main] in which the worker lives: signals that are forwarded
    come first. *)
Definition round_of (l : life) : round :=
  mk_round (l_pid l) (((fun n => Interrupt (SIGOTHER n)) <$> l_fwd l) ++ ending_events (l_end l)) [].

(** What the supervisor does about it. *)
Definition life_kills (l : life) : list (Z * signal) :=
  ((fun n => (l_pid l, SIGOTHER n)) <$> l_fwd l) ++
  match l_end l with Ended _ => [] | Stopped _ _ => [(l_pid l, SIGTERM)] | Reload => [(l_pid l, SIGHUP)] end.

Definition life_delay (l : life) : Z :=
  match l_end l with Ended (Exited rc) => if rc =? 0 then DELAY_RESTARTING else DELAY_ERROR | _ => DELAY_RESTARTING end.

(** The exit code of the supervisor, when it exits. *)
Definition life_exit (l : life) : option Z :=
  match l_end l with
  | Ended (Exited rc) => if rc =? 2 then Some 2 else None
  | Stopped _ (Exited rc) => Some (if rc =? 2 then 2 else 0)
  | Stopped _ (Signaled _) => Some 0
  | _ => None
  end.

Definition lived (ls : list life) (s s' : sup) : Prop :=
  launched s' = launched s ++ (l_pid <$> ls) /\ kills s' = kills s ++ mjoin (life_kills <$> ls).

Lemma wait_forwards fwd fuel evs s : graceful s = false -> (length fwd + length evs < fuel)%nat ->
  process_wait fuel (((fun n => Interrupt (SIGOTHER n)) <$> fwd) ++ evs) s =
  process_wait (S (length evs)) evs
    (mk_sup false (child_pid s) (kills s ++ ((fun n => (child_pid s, SIGOTHER n)) <$> fwd)) (launched s) (pauses s)).
Proof.
  revert fuel s; induction fwd as [|n fwd IH]; intros fuel s Hg Hf.
  - cbn [fmap list_fmap app]. rewrite app_nil_r, <-Hg. destruct s. apply process_wait_fuel; cbn in *; lia.
  - destruct fuel as [|fuel]; [cbn in Hf; lia|]. cbn [fmap list_fmap app process_wait signals_handler kill graceful].
    rewrite Hg, IH by (cbn in *; first [done|lia]). cbn [child_pid kills launched pauses kill].
    by rewrite <-app_assoc.
Qed.

Ltac life_done :=
  cbn; eexists; (split; [|split; reflexivity]); cbn; rewrite ?app_nil_r, <-?app_assoc; split; reflexivity.

(** One round. *)
Lemma main_round_life l s : 0 <= l_pid l ->
  exists s', lived [l] s s' /\
    match life_exit l with
    | Some c => main_round (round_of l) s = Exit c s' /\ pauses s' = pauses s
    | None => main_round (round_of l) s = Ret tt [] s' /\ pauses s' = pauses s ++ [life_delay l]
    end.
Proof.
  intros Hp. destruct l as [pid fwd e]. unfold main_round, round_of, wait_child, lived. cbn [r_fork r_events r_sleep l_pid l_fwd l_end].
  rewrite (proj2 (Z.ltb_ge _ _)) by exact Hp. rewrite wait_forwards by (rewrite ?length_app, ?length_fmap; first [done|lia]).
  cbn [launch set_graceful child_pid kills launched pauses].
  destruct e as [[rc|n]|int [rc|n]|]; unfold life_exit, life_kills, life_delay; cbn [l_end l_pid l_fwd].
  - cbn. destruct (Z.eqb_spec rc 2) as [->|]; [life_done|]. destruct (rc =? 0); life_done.
  - life_done.
  - destruct int; cbn; (destruct (rc =? 2); [|destruct (negb (rc =? 0))]); life_done.
  - destruct int; life_done.
  - life_done.
Qed.

Lemma lived_trans ls ls' s s1 s2 : lived ls s s1 -> lived ls' s1 s2 -> lived (ls ++ ls') s s2.
Proof.
  intros [E1 E2] [E3 E4]. split; [by rewrite E3, E1, fmap_app, app_assoc|].
  by rewrite E4, E2, fmap_app, join_app, app_assoc.
Qed.

Lemma main_loop_restarts ls rounds s : Forall (fun l => 0 <= l_pid l /\ life_exit l = None) ls ->
  exists s', main_loop ((round_of <$> ls) ++ rounds) s = main_loop rounds s' /\ lived ls s s' /\
    pauses s' = pauses s ++ (life_delay <$> ls).
Proof.
  intros H; revert s; induction H as [|l ls [Hp He] _ IH]; intros s.
  - exists s. by unfold lived; cbn; rewrite !app_nil_r.
  - destruct (main_round_life l s Hp) as (s1 & L1 & H1). rewrite He in H1. destruct H1 as [E1 P1].
    destruct (IH s1) as (s2 & E2 & L2 & P2). exists s2. split; [|split].
    + cbn [fmap list_fmap app main_loop]. by rewrite E1.
    + by apply (lived_trans [l] ls s s1 s2).
    + by rewrite P2, P1, <-app_assoc.
Qed.


(** A worker that fails before the supervisor waits for it is reaped by the handler
    of SIGCHLD, which drops its status: the loop finds no child, takes that for
    success and restarts after half a second instead of three. *)
Theorem sigchld_loses_status pid rc s : 0 <= pid -> rc <> 2 ->
  exists s', main_round (mk_round pid [Interrupt (SIGCHLD pid); Reaped (Exited rc); NoChild] []) s = Ret tt [] s' /\
    pauses s' = pauses s ++ [DELAY_RESTARTING].
Proof.
  intros Hp Hr. unfold main_round, wait_child. cbn [r_fork r_events r_sleep].
  rewrite (proj2 (Z.ltb_ge _ _)) by exact Hp. cbn. rewrite (proj2 (Z.eqb_neq _ _) Hr).
  destruct (negb (rc =? 0)); cbn; by eexists.
Qed.

(** A worker that cannot be executed, as with the NULL path that is left when no
    link can be read, is launched again every three seconds for as long as the
    supervisor runs. *)
Theorem exec_failure_retries n pid s : 0 <= pid ->
  process_launch 0 false = LChildExit 1 /\
  exists s', main_loop (round_of <$> replicate n (mk_life pid [] (Ended (Exited 1)))) s = Ret tt [] s' /\
    pauses s' = pauses s ++ replicate n DELAY_ERROR.
Proof.
  intros Hp. split; [done|].
  destruct (main_loop_restarts (replicate n (mk_life pid [] (Ended (Exited 1)))) [] s) as (s' & E & _ & P).
  { by apply Forall_replicate. }
  exists s'. rewrite app_nil_r in E. by rewrite E, P, fmap_replicate.
Qed.

(** ** The path *)

Lemma link_target_first links target rest :
  Forall (fun l => l = None \/ l = Some []) links -> (0 < length target < LINK_SIZE)%nat ->
  link_target (links ++ Some target :: rest) = Some (Some (target ++ L"-worker")).
Proof.
  intros H Ht. induction H as [|l links [->| ->] _ IH]; [|exact IH..].
  cbn [app link_target]. rewrite take_ge by lia. destruct target as [|c t] eqn:E; [cbn in Ht; lia|]. rewrite <-E in *.
  rewrite decide_True by lia. unfold strlcpy_str. rewrite take_ge; [done|]. rewrite length_app. cbn. lia.
Qed.

(** The worker is the file named after the program: next to it when the program
    was given with a path, absolute or relative to the working directory, and
    otherwise where the first link under /proc that can be read points. *)
Theorem figure_worker_path_correct p arg0 d links target rest :
  p_cwd p = Some d -> p_links p = links ++ Some target :: rest ->
  Forall (fun l => l = None \/ l = Some []) links -> (0 < length target < LINK_SIZE)%nat ->
  figure_worker_path p arg0 =
    Some (Some (if bool_decide (head arg0 = Some "/"%char) then arg0 ++ L"-worker"
                else if bool_decide (head arg0 = Some "."%char) || bool_decide ("/"%char ∈ arg0) then d ++ L"/" ++ arg0 ++ L"-worker"
                else target ++ L"-worker")).
Proof.
  intros Hd Hl Hn Ht. unfold figure_worker_path. rewrite Hd, Hl. unfold strlcpy_str.
  destruct (bool_decide (head arg0 = _)); [|destruct (_ || _)].
  - rewrite take_ge; [done|]. rewrite length_app. cbn. lia.
  - cbn [option_bind mbind]. rewrite take_ge; [done|]. rewrite !length_app. cbn. lia.
  - by apply link_target_first.
Qed.

(** A link of 512 bytes or more fills the buffer, and the terminator is stored
    behind it; without any link the worker's path stays NULL. *)
Theorem figure_worker_path_overflow target rest : (LINK_SIZE <= length target)%nat ->
  link_target (Some target :: rest) = None /\ link_target [] = Some None.
Proof.
  intros H. split; [|done]. cbn [link_target]. pose proof (length_take target LINK_SIZE) as Hl.
  destruct (take LINK_SIZE target) as [|c t] eqn:E; [exfalso; unfold LINK_SIZE in *; change (length (@nil ascii)) with 0%nat in Hl; lia|].
  rewrite decide_False; [done|]. lia.
Qed.

(** * Witnesses *)

Definition some_lives : list life :=
  [mk_life 10 [12] (Ended (Exited 1)); mk_life 11 [] Reload; mk_life 12 [] (Ended (Signaled 11))].

Lemma wait_child_ends_witness :
  0 < surplus [Interrupt SIGUSR1; Interrupt SIGHUP; NoChild; Reaped (Exited 0)] /\
  match wait_child [Interrupt SIGUSR1; Interrupt SIGHUP; NoChild; Reaped (Exited 0)] sup0 with
  | Ret _ evs' _ => 0 <= surplus evs' | _ => True end.
Proof.
  split; [cbn; lia|].
  exact (wait_child_ends [Interrupt SIGUSR1; Interrupt SIGHUP; NoChild; Reaped (Exited 0)] sup0 ltac:(cbn; lia)).
Defined.


Lemma figure_worker_path_correct_witness :
  figure_worker_path (mk_paths (Some (L"/home")) [Some (L"/opt/csf")]) (L"csf") = Some (Some (L"/opt/csf-worker")).
Proof.
  refine (eq_trans (figure_worker_path_correct (mk_paths (Some (L"/home")) [Some (L"/opt/csf")]) (L"csf") (L"/home") []
    (L"/opt/csf") [] eq_refl eq_refl (Forall_nil _) _) _); [unfold LINK_SIZE; cbn; lia|reflexivity].
Defined.
