(* ===== verification/IniParser.v ===== *)
(** The INI parser: src/csf/confparser/iniparser.c, over the dictionary of
    Dictionary.v. Strings are contents without the terminator; a file is the list
    of its characters. The scanning formats of [iniparser_line] run in a small
    interpreter of [sscanf]. Where the code reads [line[-1]] (a blank line), the
    byte before the buffer is a parameter. *)

From S2P Require Import Prelude CString Dictionary.

Definition ASCIILINESZ : nat := 1024.

(** * Strings *)

(** Skipping leading white space. *)
Fixpoint lstrip (s : cstr) : cstr :=
  match s with
  | c :: s' => if isspace c then lstrip s' else s
  | [] => []
  end.

(** Cutting trailing white space. *)
Definition rstrip (s : cstr) : cstr := rev (lstrip (rev s)).

(** [strstrip]. *)
Definition strstrip (s : cstr) : cstr := rstrip (lstrip s).

(** [strlwc]. *)
Definition strlwc (s : cstr) : cstr := tolower <$> take ASCIILINESZ s.

(** The C string that starts a block of bytes. *)
Fixpoint strz (s : buffer) : cstr :=
  match s with
  | c :: s' => if ascii_dec c NUL then [] else c :: strz s'
  | [] => []
  end.

Definition strchr (c : ascii) (s : cstr) : bool := bool_decide (c ∈ s).

(** * Scanning *)

(** The directives of the formats: a literal character, white space, and a
    [%[...]] conversion given by its set of characters. *)
Inductive directive : Type :=
| Lit (c : ascii)
| Ws
| Scan (set : ascii -> bool).

Fixpoint span (p : ascii -> bool) (s : cstr) : cstr * cstr :=
  match s with
  | c :: s' => if p c then let '(a, b) := span p s' in (c :: a, b) else ([], s)
  | [] => ([], [])
  end.

(** [sscanf]: the strings assigned before the first directive that fails. *)
Fixpoint sscanf (fmt : list directive) (s : cstr) : list cstr :=
  match fmt with
  | [] => []
  | Lit c :: fmt' =>
      match s with
      | c' :: s' => if ascii_dec c c' then sscanf fmt' s' else []
      | [] => []
      end
  | Ws :: fmt' => sscanf fmt' (lstrip s)
  | Scan p :: fmt' =>
      match span p s with
      | ([], _) => []
      | (a, b) => a :: sscanf fmt' b
      end
  end.

Definition eqc (c : ascii) : ascii -> bool := fun x => bool_decide (x = c).
Definition neqc (c : ascii) : ascii -> bool := fun x => negb (eqc c x).

(** The formats of [iniparser_line], in the order they are tried. *)
Definition fmt_section : list directive := [Lit "["%char; Scan (neqc "]"%char)].
Definition fmt_key : list directive := [Scan (neqc "="%char); Ws; Lit "="%char; Ws].
Definition fmt_dquote : list directive := fmt_key ++ [Lit QUOTE; Scan (neqc QUOTE); Lit QUOTE].
Definition fmt_squote : list directive := fmt_key ++ [Lit "'"%char; Scan (neqc "'"%char); Lit "'"%char].
Definition fmt_plain : list directive := fmt_key ++ [Scan (fun c => neqc ";"%char c && neqc "#"%char c)].
Definition fmt_comment : list directive := fmt_key ++ [Scan (fun c => eqc ";"%char c || eqc "#"%char c)].
Definition fmt_empty : list directive := [Scan (neqc "="%char); Ws; Scan (eqc "="%char)].

(** A disjunction of [sscanf (...) == 2] tests: whether one held, and the
    buffers [key] and [value] afterwards (a failed test may have written the key). *)
Fixpoint scan_first (fmts : list (list directive)) (line key value : cstr) : bool * cstr * cstr :=
  match fmts with
  | [] => (false, key, value)
  | f :: fmts' =>
      match sscanf f line with
      | k :: v :: _ => (true, k, v)
      | [k] => scan_first fmts' line k value
      | [] => scan_first fmts' line key value
      end
  end.

Inductive line_status : Type :=
| LINE_UNPROCESSED
| LINE_ERROR
| LINE_EMPTY
| LINE_COMMENT
| LINE_SECTION
| LINE_VALUE.

(** The buffers [section], [key] and [value]. *)
Record ini_buffers : Type := mk_buffers { b_section : cstr; b_key : cstr; b_value : cstr }.

(** [iniparser_line]. *)
Definition iniparser_line (input_line : cstr) (b : ini_buffers) : line_status * ini_buffers :=
  let line := strstrip input_line in
  match line with
  | [] => (LINE_EMPTY, b)
  | c :: _ =>
      if eqc "#"%char c then (LINE_COMMENT, b)
      else if eqc "["%char c && bool_decide (list.last line = Some "]"%char) then
        let section := match sscanf fmt_section line with s :: _ => s | [] => b_section b end in
        (LINE_SECTION, mk_buffers (strlwc (strstrip section)) (b_key b) (b_value b))
      else
        let '(ok, key, value) := scan_first [fmt_dquote; fmt_squote; fmt_plain] line (b_key b) (b_value b) in
        if ok then
          let v := strstrip value in
          let v := if bool_decide (v = [QUOTE; QUOTE]) || bool_decide (v = ["'"%char; "'"%char]) then [] else v in
          (LINE_VALUE, mk_buffers (b_section b) (strlwc (strstrip key)) v)
        else
          let '(ok, key, value) := scan_first [fmt_comment; fmt_empty] line key value in
          if ok then (LINE_VALUE, mk_buffers (b_section b) (strlwc (strstrip key)) [])
          else (LINE_ERROR, mk_buffers (b_section b) key value)
  end.

(** * Loading *)

(** [fgets] into [size] bytes: at most [size - 1] characters, up to and with the
    newline; [None] at the end of the file. *)
Fixpoint read_chunk (n : nat) (rest : cstr) : cstr * cstr :=
  match n, rest with
  | S n', c :: rest' =>
      if ascii_dec c LF then ([c], rest')
      else let '(a, b) := read_chunk n' rest' in (c :: a, b)
  | _, _ => ([], rest)
  end.

Definition fgets (size : nat) (rest : cstr) : option (cstr * cstr) :=
  match rest with
  | [] => None
  | _ => Some (read_chunk (size - 1) rest)
  end.

(** The variables of the loading loops. *)
Record ini_state : Type := mk_ini {
  i_line : cstr;
  i_last : nat;
  i_buffers : ini_buffers;
  i_dict : option dictionary;
  i_errs : Z
}.

(** The [switch] of the loops, and the reset of [line] and [last] after it. *)
Definition ini_switch (line : cstr) (s : ini_state) : Alloc ini_state :=
  let '(sta, b) := iniparser_line line (i_buffers s) in
  match sta with
  | LINE_SECTION =>
      r ← dictionary_set (i_dict s) (Some (b_section b)) None;
      mret (mk_ini [] 0 b (snd (B:=option dictionary) r) (fst (A:=Z) r))
  | LINE_VALUE =>
      let tmp := b_section b ++ L":" ++ b_key b in
      if decide (ASCIILINESZ < length tmp)%nat then fault
      else
        r ← dictionary_set (i_dict s) (Some tmp) (Some (b_value b));
        mret (mk_ini [] 0 b (snd (B:=option dictionary) r) (fst (A:=Z) r))
  | LINE_ERROR => mret (mk_ini [] 0 b (i_dict s) (i_errs s + 1))
  | _ => mret (mk_ini [] 0 b (i_dict s) (i_errs s))
  end.

(** The end of the loading functions: a dictionary with errors is dropped. *)
Definition ini_finish (s : ini_state) : Alloc (option dictionary) :=
  if i_errs s =? 0 then mret (i_dict s)
  else _ ← access (dictionary_del (i_dict s)); mret None.

(** The loop of [iniparser_load]; [stray] is the byte before [line]. [fuel]
    bounds the number of iterations, each of which consumes a character. *)
Fixpoint load_loop (fuel : nat) (stray : ascii) (rest : cstr) (s : ini_state) : Alloc (option dictionary) :=
  match fuel with
  | O => fault
  | S fuel' =>
      match fgets (ASCIILINESZ - i_last s) rest with
      | None => ini_finish s
      | Some (chunk, rest') =>
          let line := strz (take (i_last s) (i_line s) ++ chunk) in
          if negb (bool_decide (default stray (list.last line) = LF)) then
            _ ← access (dictionary_del (i_dict s)); mret None
          else
            let line := rstrip line in
            match list.last line with
            | Some c =>
                if eqc BACKSLASH c
                then load_loop fuel' stray rest' (mk_ini line (length line - 1) (i_buffers s) (i_dict s) (i_errs s))
                else
                  ini_switch line s ≫= fun s' : ini_state =>
                  if i_errs s' <? 0 then ini_finish s' else load_loop fuel' stray rest' s'
            | None =>
                if eqc BACKSLASH stray then fault
                else
                  ini_switch line s ≫= fun s' : ini_state =>
                  if i_errs s' <? 0 then ini_finish s' else load_loop fuel' stray rest' s'
            end
      end
  end.

(** [iniparser_load] of a file that can be opened or not. *)
Definition iniparser_load (stray : ascii) (file : option cstr) : Alloc (option dictionary) :=
  match file with
  | None => mret None
  | Some content =>
      dict ← dictionary_new 0;
      match dict with
      | None => mret None
      | Some d => load_loop (S (length content)) stray content (mk_ini [] 0 (mk_buffers [] [] []) (Some d) 0)
      end
  end.

(** [getnstr]: the bytes it stores at [buf] and its result; the source ends with a
    NUL. [pos] is the number of bytes stored so far. *)
Fixpoint getnstr_loop (n pos : nat) (s : cstr) : buffer * nat :=
  match n with
  | O => ([], O)
  | S n' =>
      let c := default NUL (head s) in
      if eqc CR c || eqc LF c || eqc NUL c then
        if eqc CR c && bool_decide (s !! 1%nat = Some LF) && negb (bool_decide (n = 1%nat)) then
          match n' with
          | S (S _) => ([CR; LF; NUL], (pos + 2)%nat)
          | _ => ([CR; NUL], (pos + 1)%nat)
          end
        else
          match n' with
          | S _ => ([c; NUL], (pos + 1)%nat)
          | O => ([NUL], pos)
          end
      else let '(a, r) := getnstr_loop n' (S pos) (tail s) in (c :: a, r)
  end.

Definition getnstr (s : cstr) (n : nat) : buffer * nat := getnstr_loop n 0 s.

(** The loop of [iniparser_load_mem] at the offset [tpos] of [ini]. The test of
    the last character looks at the terminator, so nothing is trimmed there and
    no line is continued. *)
Fixpoint load_mem_loop (fuel : nat) (ini : cstr) (inilen : Z) (tpos : nat) (s : ini_state)
  : Alloc (option dictionary) :=
  match fuel with
  | O => fault
  | S fuel' =>
      let '(chunk, rpos) := getnstr (drop tpos ini) (ASCIILINESZ - i_last s) in
      if decide (length ini < tpos)%nat then fault
      else if bool_decide (rpos = O) || negb (Z.of_nat tpos <? inilen) then ini_finish s
      else
        ini_switch (strz (take (i_last s) (i_line s) ++ chunk)) s ≫= fun s' : ini_state =>
        if i_errs s' <? 0 then ini_finish s' else load_mem_loop fuel' ini inilen (tpos + rpos) s'
  end.

(** [iniparser_load_mem]. *)
Definition iniparser_load_mem (ini : cstr) (inilen : Z) : Alloc (option dictionary) :=
  dict ← dictionary_new 0;
  match dict with
  | None => mret None
  | Some d => load_mem_loop (S (S (length ini))) ini inilen 0 (mk_ini [] 0 (mk_buffers [] [] []) (Some d) 0)
  end.

(** * Access *)

(** What [iniparser_getstring] returns: the caller's default, or a value that may
    be NULL. *)
Inductive lookup_result : Type :=
| Default
| Stored (v : option cstr).

(** [iniparser_getstring]. *)
Definition iniparser_getstring (d : option dictionary) (key : option cstr) : option lookup_result :=
  match d, key with
  | Some d0, Some k => dictionary_get d0 (strlwc k) Default Stored
  | _, _ => Some Default
  end.

(** The value of a digit in base [base]. *)
Definition digit (base : Z) (c : ascii) : option Z :=
  let n := uchar c in
  let v := if (48 <=? n) && (n <=? 57) then n - 48
           else if (97 <=? n) && (n <=? 122) then n - 87
           else if (65 <=? n) && (n <=? 90) then n - 55 else 99 in
  if v <? base then Some v else None.

Fixpoint digits (base acc : Z) (s : cstr) : Z :=
  match s with
  | c :: s' => match digit base c with Some v => digits base (acc * base + v) s' | None => acc end
  | [] => acc
  end.

Definition LONG_MAX : Z := 2 ^ 63 - 1.

(** [strtol (s, NULL, 0)]: sign, base prefix, digits, saturation. *)
Definition strtol0 (s : cstr) : Z :=
  let s := lstrip s in
  let '(neg, s) := match s with
                   | c :: s' => if eqc "-"%char c then (true, s') else if eqc "+"%char c then (false, s') else (false, s)
                   | [] => (false, s)
                   end in
  let v := match s with
           | z :: x :: s' =>
               if eqc "0"%char z then
                 if (eqc "x"%char x || eqc "X"%char x) && match s' with c :: _ => bool_decide (is_Some (digit 16 c)) | [] => false end
                 then digits 16 0 s' else digits 8 0 (x :: s')
               else digits 10 0 s
           | _ => digits 10 0 s
           end in
  if (neg : bool) then Z.max (- v) (- LONG_MAX - 1) else Z.min v LONG_MAX.

(** [iniparser_getint]; a stored NULL is handed to [strtol]. *)
Definition iniparser_getint (d : option dictionary) (key : option cstr) (notfound : Z) : option Z :=
  r ← iniparser_getstring d key;
  match r with
  | Default => Some notfound
  | Stored None => None
  | Stored (Some str) => Some (i32 (strtol0 str))
  end.

(** [iniparser_getdouble] for any type of floating-point numbers; a stored NULL is
    handed to [atof]. *)
Definition iniparser_getdouble {D} (atof : cstr -> D) (d : option dictionary) (key : option cstr) (notfound : D) : option D :=
  r ← iniparser_getstring d key;
  match r with
  | Default => Some notfound
  | Stored None => None
  | Stored (Some str) => Some (atof str)
  end.

(** [iniparser_getboolean]. *)
Definition iniparser_getboolean (d : option dictionary) (key : option cstr) (notfound : Z) : option Z :=
  r ← iniparser_getstring d key;
  match r with
  | Default => Some notfound
  | Stored None => None
  | Stored (Some str) =>
      let c := default NUL (head str) in
      Some (if bool_decide (c ∈ L"yY1tT") then 1 else if bool_decide (c ∈ L"nN0fF") then 0 else notfound)
  end.

(** [iniparser_find_entry]. *)
Definition iniparser_find_entry (d : option dictionary) (entry : option cstr) : option Z :=
  r ← iniparser_getstring d entry;
  Some (match r with Default => 0 | Stored _ => 1 end).

(** [iniparser_set] and [iniparser_unset]. *)
Definition iniparser_set (d : option dictionary) (entry : option cstr) (val : option cstr)
  : Alloc (Z * option dictionary) := dictionary_set d (strlwc <$> entry) val.

Definition iniparser_unset (d : dictionary) (entry : option cstr) : option dictionary :=
  dictionary_unset d (strlwc <$> entry).

(** [iniparser_freedict]. *)
Definition iniparser_freedict (d : option dictionary) : option (list cstr) := dictionary_del d.

(** * Sections and output *)

Definition is_section (kv : option cstr * option cstr) : bool :=
  match kv.1 with Some k => negb (strchr ":"%char k) | None => false end.

(** [iniparser_getnsec]. *)
Definition iniparser_getnsec (d : option dictionary) : option Z :=
  match d with
  | None => Some (-1)
  | Some d0 => sl ← slots d0; Some (Z.of_nat (length (List.filter is_section sl)))
  end.

(** [iniparser_getsecname]; the result may be NULL. *)
Definition iniparser_getsecname (d : option dictionary) (n : Z) : option (option cstr) :=
  match d with
  | None => Some None
  | Some d0 =>
      if n <? 0 then Some None
      else sl ← slots d0; Some (kv ← List.filter is_section sl !! Z.to_nat n; kv.1)
  end.

(** [iniparser_dump]: the text written. *)
Definition iniparser_dump (d : option dictionary) (out : bool) : option cstr :=
  match d, out with
  | Some d0, true =>
      flat_map (fun '(k, v) =>
        match k with
        | None => []
        | Some key => L"[" ++ key ++ match v with Some val => L"]=[" ++ val ++ L"]" | None => L"]=UNDEF" end ++ [LF]
        end) <$> slots d0
  | _, _ => Some []
  end.

(** ["%-30s"]. *)
Definition pad_right (n : nat) (s : cstr) : cstr := s ++ replicate (n - length s) " "%char.

(** The lines of one section in [iniparser_dump_ini]. *)
Definition dump_section (sl : list (option cstr * option cstr)) (secname : cstr) : option cstr :=
  let seclen := length secname in
  let keym := secname ++ L":" in
  if decide (ASCIILINESZ < length keym)%nat then None
  else Some ([LF] ++ L"[" ++ secname ++ L"]" ++ [LF] ++
    flat_map (fun '(k, v) =>
      match k with
      | None => []
      | Some key => if strncmp (seclen + 1) key keym =? 0
                    then pad_right 30 (drop (seclen + 1) key) ++ L" = " ++ default [] v ++ [LF] else []
      end) sl).

Fixpoint concat_opt (l : list (option cstr)) : option cstr :=
  match l with
  | [] => Some []
  | x :: l' => a ← x; b ← concat_opt l'; Some (a ++ b)
  end.

(** [iniparser_dump_ini]; without sections a NULL value is given to ["%s"]. *)
Definition iniparser_dump_ini (d : option dictionary) (out : bool) : option cstr :=
  match d, out with
  | Some d0, true =>
      sl ← slots d0;
      match List.filter is_section sl with
      | [] => concat_opt ((fun '(k, v) =>
                match k with
                | None => Some []
                | Some key => val ← v; Some (key ++ L" = " ++ val ++ [LF])
                end) <$> sl)
      | secs => body ← concat_opt ((fun kv => dump_section sl (default [] kv.1)) <$> secs); Some (body ++ [LF])
      end
  | _, _ => Some []
  end.

(** * Files the parser accepts *)

(** The lines of a file: sections, plain pairs and comments. *)
Inductive item : Type :=
| ISection (name : cstr)
| IPair (key value : cstr)
| IComment (text : cstr).

Definition body (i : item) : cstr :=
  match i with
  | ISection n => L"[" ++ n ++ L"]"
  | IPair k v => k ++ L" = " ++ v
  | IComment t => L"#" ++ t
  end.

Definition print (items : list item) : cstr := flat_map (fun i => body i ++ [LF]) items.

Definition first_not (p : ascii -> bool) (s : cstr) : Prop := match s with c :: _ => p c = false | [] => True end.
Definition last_not (p : ascii -> bool) (s : cstr) : Prop := match list.last s with Some c => p c = false | None => True end.

(** Lines that fit, without continuation; names and keys of at most 500
    characters; values without quotes at the start and without comments. *)
Definition item_ok (i : item) : Prop :=
  (LF ∉ body i) /\ (NUL ∉ body i) /\ (length (body i) <= 1022)%nat /\
  match i with
  | ISection n => n <> [] /\ ("]"%char ∉ n) /\ (length n <= 500)%nat
  | IPair k v =>
      (k <> [] /\ ("="%char ∉ k) /\ (length k <= 500)%nat) /\
      first_not (fun c => isspace c || eqc "#"%char c || eqc "["%char c) k /\ last_not isspace k /\
      first_not (fun c => isspace c || eqc QUOTE c || eqc "'"%char c) v /\
      last_not (fun c => isspace c || eqc BACKSLASH c) v /\ (";"%char ∉ v) /\ ("#"%char ∉ v)
  | IComment t => last_not (eqc BACKSLASH) (rstrip t)
  end.

#[export] Instance first_not_dec p s : Decision (first_not p s).
Proof. destruct s; cbn; apply _. Defined.

#[export] Instance last_not_dec p s : Decision (last_not p s).
Proof. unfold last_not. destruct (list.last s); apply _. Defined.

#[export] Instance item_ok_dec i : Decision (item_ok i).
Proof. unfold item_ok. destruct i; apply _. Defined.

(** What a file means: each section is a key without value, each pair is stored
    under [section:key], later lines win. *)
Fixpoint meaning (section : cstr) (items : list item) (m : gmap cstr (option cstr)) : gmap cstr (option cstr) :=
  match items with
  | [] => m
  | ISection n :: items' => let s := strlwc (strstrip n) in meaning s items' (<[s:=None]> m)
  | IPair k v :: items' => meaning section items' (<[section ++ L":" ++ strlwc k:=Some v]> m)
  | IComment _ :: items' => meaning section items' m
  end.

(** ** Lemmas on white space *)

Lemma lstrip_snoc s c : isspace c = false -> lstrip (s ++ [c]) = lstrip s ++ [c].
Proof. intros H. induction s as [|d s IH]; cbn; [by rewrite H|]. by destruct (isspace d). Qed.

Lemma rstrip_cons c s : isspace c = false -> rstrip (c :: s) = c :: rstrip s.
Proof. intros H. unfold rstrip. cbn. by rewrite lstrip_snoc, rev_app_distr. Qed.

Lemma rstrip_snoc_space s c : isspace c = true -> rstrip (s ++ [c]) = rstrip s.
Proof. intros H. unfold rstrip. rewrite rev_app_distr. cbn. by rewrite H. Qed.

Lemma rstrip_snoc s c : isspace c = false -> rstrip (s ++ [c]) = s ++ [c].
Proof. intros H. unfold rstrip. rewrite rev_app_distr. cbn. rewrite H. cbn. by rewrite rev_involutive. Qed.

Lemma rstrip_id s : last_not isspace s -> rstrip s = s.
Proof.
  destruct s as [|c s] using rev_ind; [done|]. unfold last_not. rewrite last_snoc. apply rstrip_snoc.
Qed.

Lemma lstrip_id s : first_not isspace s -> lstrip s = s.
Proof. destruct s as [|c s]; cbn; [done|]. by intros ->. Qed.

Lemma length_rstrip s : (length (rstrip s) <= length s)%nat.
Proof.
  unfold rstrip. rewrite length_rev. rewrite <-(length_rev s). generalize (rev s) as t.
  induction t as [|c t IH]; cbn; [lia|]. destruct (isspace c); cbn; lia.
Qed.

Lemma length_lstrip s : (length (lstrip s) <= length s)%nat.
Proof. induction s as [|c t IH]; cbn; [lia|]. destruct (isspace c); cbn; lia. Qed.

Lemma first_not_app p c s t : first_not p (c :: s) -> first_not p ((c :: s) ++ t).
Proof. done. Qed.

Lemma span_until c (s t : cstr) : c ∉ s -> span (neqc c) (s ++ c :: t) = (s, c :: t).
Proof.
  intros H. induction s as [|d s IH]; cbn.
  - unfold neqc, eqc. by rewrite bool_decide_eq_true_2.
  - apply not_elem_of_cons in H as [Hd Hs]. unfold neqc, eqc in *. rewrite bool_decide_eq_false_2 by congruence.
    cbn. by rewrite IH.
Qed.

Lemma span_all p s : Forall (fun c => p c = true) s -> span p s = (s, []).
Proof. induction 1 as [|c s Hc _ IH]; cbn; [done|]. by rewrite Hc, IH. Qed.

Lemma strz_id s : no_nul s -> strz s = s.
Proof.
  induction s as [|c s IH]; cbn; [done|]. rewrite no_nul_cons. intros [Hc Hs].
  destruct (ascii_dec c NUL); [done|]. by rewrite IH.
Qed.

Lemma read_chunk_line n s rest : LF ∉ s -> (length s < n)%nat -> read_chunk n (s ++ LF :: rest) = (s ++ [LF], rest).
Proof.
  revert n. induction s as [|c s IH]; intros [|n] Hs Hn; cbn in *; try lia.
  - by destruct (ascii_dec LF LF).
  - apply not_elem_of_cons in Hs as [Hc Hs]. destruct (ascii_dec c LF); [congruence|]. by rewrite IH by (done || lia).
Qed.

(** ** The lines *)

Lemma span_key k rest : "="%char ∉ k -> span (neqc "="%char) (k ++ L" = " ++ rest) = (k ++ L" ", L"= " ++ rest).
Proof.
  intros Hk. change (k ++ L" = " ++ rest) with (k ++ L" " ++ "="%char :: L" " ++ rest). rewrite app_assoc.
  apply span_until. rewrite not_elem_of_app. split; [done|]. by intros ?%list_elem_of_singleton.
Qed.

(** A format for a key, an equal sign and a value, on a printed pair. *)
Lemma sscanf_pair k v fmt : k <> [] -> "="%char ∉ k -> first_not isspace v ->
  sscanf (fmt_key ++ fmt) (k ++ L" = " ++ v) = (k ++ L" ") :: sscanf fmt v.
Proof.
  intros Hk Hne Hv. cbn [fmt_key app sscanf]. rewrite span_key by done.
  destruct (k ++ L" ") as [|a l] eqn:E; [by destruct k|].
  change ((a :: l) :: sscanf fmt (lstrip v) = (a :: l) :: sscanf fmt v). by rewrite lstrip_id.
Qed.

Lemma strstrip_key k : k <> [] -> first_not isspace k -> last_not isspace k -> strstrip (k ++ L" ") = k.
Proof.
  intros Hk Hf Hl. unfold strstrip. rewrite lstrip_id by (destruct k; [done|exact Hf]).
  change (L" ") with [" "%char]. rewrite rstrip_snoc_space by done.
  by apply rstrip_id.
Qed.

(** A line that starts like a key goes to the formats. *)
Lemma line_scans c s b :
  isspace c = false -> eqc "#"%char c = false -> eqc "["%char c = false -> rstrip (c :: s) = c :: s ->
  iniparser_line (c :: s) b =
    let '(ok, key, value) := scan_first [fmt_dquote; fmt_squote; fmt_plain] (c :: s) (b_key b) (b_value b) in
    if ok then
      let v := strstrip value in
      let v := if bool_decide (v = [QUOTE; QUOTE]) || bool_decide (v = ["'"%char; "'"%char]) then [] else v in
      (LINE_VALUE, mk_buffers (b_section b) (strlwc (strstrip key)) v)
    else
      let '(ok, key, value) := scan_first [fmt_comment; fmt_empty] (c :: s) key value in
      if ok then (LINE_VALUE, mk_buffers (b_section b) (strlwc (strstrip key)) [])
      else (LINE_ERROR, mk_buffers (b_section b) key value).
Proof.
  intros Hs Hh Hb Hr. unfold iniparser_line.
  assert (strstrip (c :: s) = c :: s) as -> by (unfold strstrip; cbn [lstrip]; by rewrite Hs).
  by rewrite Hh, Hb.
Qed.

(** A pair with a value. *)
Lemma line_pair_value k v b : k <> [] -> "="%char ∉ k ->
  first_not (fun c => isspace c || eqc "#"%char c || eqc "["%char c) k -> last_not isspace k ->
  v <> [] -> first_not (fun c => isspace c || eqc QUOTE c || eqc "'"%char c) v ->
  last_not isspace v -> ";"%char ∉ v -> "#"%char ∉ v ->
  iniparser_line (k ++ L" = " ++ v) b = (LINE_VALUE, mk_buffers (b_section b) (strlwc k) v).
Proof.
  intros Hk Hne Hkf Hkl Hv Hvf Hvl Hsemi Hhash. destruct v as [|v0 v']; [done|].
  pose proof Hvf as [[Hvs Hvq]%orb_false_iff Hva]%orb_false_iff. set (v := v0 :: v') in *.
  destruct k as [|k0 k']; [done|]. pose proof Hkf as [[Hks Hkh]%orb_false_iff Hkb]%orb_false_iff. set (k := k0 :: k') in *.
  change (k ++ L" = " ++ v) with (k0 :: (k' ++ L" = " ++ v)). rewrite line_scans; try done.
  2:{ change (k0 :: (k' ++ L" = " ++ v)) with (k ++ L" = " ++ v). apply rstrip_id. unfold last_not in *.
      rewrite app_assoc, last_app. destruct (list.last v) eqn:El; [done|]. by apply last_None in El. }
  change (k0 :: (k' ++ L" = " ++ v)) with (k ++ L" = " ++ v).
  assert (forall q fmt, eqc q v0 = false -> sscanf (fmt_key ++ Lit q :: fmt) (k ++ L" = " ++ v) = [k ++ L" "]) as Hq.
  { intros q fmt Hq. rewrite sscanf_pair by done. subst v. cbn [sscanf]. destruct (ascii_dec q v0) as [->|]; [|done].
    unfold eqc in Hq. by rewrite bool_decide_eq_true_2 in Hq. }
  cbn [scan_first]. unfold fmt_dquote, fmt_squote, fmt_plain. rewrite !Hq, sscanf_pair by done.
  cbn [sscanf]. rewrite span_all.
  2:{ apply list.Forall_forall. intros c Hc. unfold neqc, eqc. rewrite !bool_decide_eq_false_2 by (intros ->; done). done. }
  subst v. cbn [scan_first]. set (v := v0 :: v') in *. cbv zeta. rewrite strstrip_key by done.
  assert (strstrip v = v) as ->.
  { unfold strstrip. rewrite lstrip_id by done. by apply rstrip_id. }
  rewrite !bool_decide_eq_false_2; [done|intros E; subst v; simplify_eq; done..].
Qed.

(** A pair without a value. *)
Lemma line_pair_empty k b : k <> [] -> "="%char ∉ k ->
  first_not (fun c => isspace c || eqc "#"%char c || eqc "["%char c) k -> last_not isspace k ->
  iniparser_line (k ++ L" =") b = (LINE_VALUE, mk_buffers (b_section b) (strlwc k) []).
Proof.
  intros Hk Hne Hkf Hkl. destruct k as [|k0 k']; [done|].
  pose proof Hkf as [[Hks Hkh]%orb_false_iff Hkb]%orb_false_iff. set (k := k0 :: k') in *.
  change (k ++ L" =") with (k0 :: (k' ++ L" =")). rewrite line_scans; try done.
  2:{ change (k0 :: (k' ++ L" =")) with (k ++ L" " ++ L"="). rewrite app_assoc. by apply rstrip_snoc. }
  change (k0 :: (k' ++ L" =")) with (k ++ L" =").
  assert (span (neqc "="%char) (k ++ L" =") = (k ++ L" ", L"=")) as Hsp.
  { change (k ++ L" =") with (k ++ L" " ++ "="%char :: []). rewrite app_assoc. apply span_until.
    rewrite not_elem_of_app. split; [done|]. by intros ?%list_elem_of_singleton. }
  assert (k ++ L" " = k0 :: (k' ++ L" ")) as Ek by done.
  assert (forall fmt, sscanf fmt [] = [] -> sscanf (fmt_key ++ fmt) (k ++ L" =") = [k ++ L" "]) as Hq.
  { intros fmt Hf. cbn [fmt_key app sscanf]. rewrite Hsp, Ek.
    change ((k0 :: (k' ++ L" ")) :: sscanf fmt [] = [k0 :: (k' ++ L" ")]). by rewrite Hf. }
  cbn [scan_first]. unfold fmt_dquote, fmt_squote, fmt_plain, fmt_comment. rewrite !Hq by done. cbn [scan_first].
  assert (sscanf fmt_empty (k ++ L" =") = [k ++ L" "; L"="]) as ->.
  { unfold fmt_empty. cbn [sscanf]. rewrite Hsp, Ek. reflexivity. }
  by rewrite strstrip_key.
Qed.

(** A section line. *)
Lemma line_section n b : n <> [] -> "]"%char ∉ n ->
  iniparser_line (L"[" ++ n ++ L"]") b = (LINE_SECTION, mk_buffers (strlwc (strstrip n)) (b_key b) (b_value b)).
Proof.
  intros Hn Hb. unfold iniparser_line.
  assert (strstrip (L"[" ++ n ++ L"]") = L"[" ++ n ++ L"]") as ->.
  { unfold strstrip. rewrite lstrip_id by done. rewrite app_assoc. by apply rstrip_snoc. }
  assert (sscanf fmt_section (L"[" ++ n ++ L"]") = [n]) as Hs.
  { change (sscanf [Scan (neqc "]"%char)] (n ++ "]"%char :: []) = [n]). cbn [sscanf]. rewrite span_until by done. by destruct n. }
  rewrite Hs. change (L"[" ++ n ++ L"]") with ("["%char :: (n ++ ["]"%char])).
  cbv beta iota. rewrite bool_decide_eq_true_2; [done|]. by rewrite app_comm_cons, last_snoc.
Qed.

Lemma line_comment t b : iniparser_line (L"#" ++ t) b = (LINE_COMMENT, b).
Proof.
  unfold iniparser_line. unfold strstrip. change (L"#" ++ t) with ("#"%char :: t). cbn [lstrip].
  change (isspace "#") with false. cbv iota. rewrite rstrip_cons by done. done.
Qed.

(** What the loop sees of a printed item: the trimmed line, which is not
    continued, and its classification. *)
Definition item_status (i : item) (b : ini_buffers) : line_status * ini_buffers :=
  match i with
  | ISection n => (LINE_SECTION, mk_buffers (strlwc (strstrip n)) (b_key b) (b_value b))
  | IPair k v => (LINE_VALUE, mk_buffers (b_section b) (strlwc k) v)
  | IComment t => (LINE_COMMENT, b)
  end.

Lemma line_item i b : item_ok i ->
  rstrip (body i) <> [] /\ last_not (eqc BACKSLASH) (rstrip (body i)) /\
  iniparser_line (rstrip (body i)) b = item_status i b.
Proof.
  intros (_ & _ & _ & Hi). destruct i as [n|k v|t]; cbn [body item_status].
  - destruct Hi as (Hn & Hb & _).
    assert (rstrip (L"[" ++ n ++ L"]") = L"[" ++ n ++ L"]") as -> by (rewrite app_assoc; by apply rstrip_snoc).
    split_and!; [done| |by apply line_section].
    unfold last_not. rewrite app_assoc. change (L"]") with ["]"%char]. by rewrite last_snoc.
  - destruct Hi as ((Hk & Hne & _) & Hkf & Hkl & Hvf & Hvl & Hsemi & Hhash).
    assert (last_not isspace v /\ last_not (eqc BACKSLASH) v) as [Hvs Hvb].
    { unfold last_not in *. destruct (list.last v); [|done]. by apply orb_false_iff in Hvl. }
    destruct v as [|v0 v'].
    + assert (rstrip (k ++ L" = " ++ []) = k ++ L" =") as ->.
      { change (L" = " ++ []) with (L" =" ++ [" "%char]). rewrite app_assoc, rstrip_snoc_space by done.
        change (L" =") with (L" " ++ ["="%char]). rewrite app_assoc. by apply rstrip_snoc. }
      split_and!; [by destruct k| |by apply line_pair_empty].
      unfold last_not. change (L" =") with (L" " ++ ["="%char]). by rewrite app_assoc, last_snoc.
    + assert (rstrip (k ++ L" = " ++ v0 :: v') = k ++ L" = " ++ v0 :: v') as ->.
      { apply rstrip_id. unfold last_not in *. rewrite app_assoc, last_app.
        destruct (list.last (v0 :: v')) eqn:El; [done|]. by apply last_None in El. }
      split_and!; [by destruct k| |by apply line_pair_value].
      unfold last_not in *. rewrite app_assoc, last_app.
      destruct (list.last (v0 :: v')) eqn:El; [done|]. by apply last_None in El.
  - change (L"#" ++ t) with ("#"%char :: t). rewrite rstrip_cons by done. split_and!; [done| |apply line_comment].
    unfold last_not in *. rewrite last_cons. by destruct (list.last (rstrip t)).
Qed.

(** ** The loop *)

(** The dictionary after some lines: well formed, and small enough to grow. *)
Definition dict_after (d : dictionary) (m : gmap cstr (option cstr)) (count : nat) : Prop :=
  dict_wf d /\ dict_map d = m /\ d_n d <= Z.of_nat count /\
  0 < Z.of_nat (d_size d) <= Z.max (Z.of_nat DICTMINSZ) (2 * Z.of_nat count).

Lemma dict_after_set d m count key val :
  dict_after d m count -> Z.of_nat count <= 2 ^ 25 ->
  exists d', dictionary_set (Some d) (Some key) val [] = Some ((0, Some d'), []) /\ dict_after d' (<[key:=val]> m) (S count).
Proof.
  intros (Hwf & <- & Hn & Hsz) Hc.
  destruct (dictionary_set_ok d key val Hwf) as (d' & E & Hwf' & Hm & Hn' & Hsz').
  { unfold DICT_MAXSZ, DICTMINSZ in *. lia. }
  exists d'. split; [done|]. unfold dict_after. rewrite Hm, Hn'. split; [done|]. split; [done|].
  case_decide; lia.
Qed.

(** One printed item. *)
Lemma load_item fuel stray i rest s d m count :
  item_ok i -> i_last s = 0%nat -> i_errs s = 0 -> i_dict s = Some d -> dict_after d m count ->
  Z.of_nat count <= 2 ^ 25 -> (length (b_section (i_buffers s)) <= 500)%nat ->
  exists s' d', load_loop (S fuel) stray (body i ++ LF :: rest) s [] = load_loop fuel stray rest s' [] /\
    i_last s' = 0%nat /\ i_errs s' = 0 /\ i_dict s' = Some d' /\ (length (b_section (i_buffers s')) <= 500)%nat /\
    b_section (i_buffers s') = match i with ISection n => strlwc (strstrip n) | _ => b_section (i_buffers s) end /\
    dict_after d' (meaning (b_section (i_buffers s)) [i] m) (S count).
Proof.
  intros Hok Hlast Herrs Hd Hda Hc Hsec. pose proof Hok as (Hlf & Hnul & Hlen & Hi).
  destruct (line_item i (i_buffers s) Hok) as (Hne & Hbs & Hline).
  assert (fgets (ASCIILINESZ - i_last s) (body i ++ LF :: rest) = Some (body i ++ [LF], rest)) as Hfg.
  { unfold fgets. rewrite Hlast, read_chunk_line by (done || (unfold ASCIILINESZ; lia)). by destruct (body i). }
  cbn [load_loop]. rewrite Hfg, Hlast. rewrite take_0, app_nil_l.
  rewrite strz_id by (apply no_nul_app; split; [done|by apply (bool_decide_unpack _)]).
  rewrite last_snoc. cbn [default]. rewrite (bool_decide_eq_true_2 (LF = LF)) by done. cbn [negb].
  rewrite rstrip_snoc_space by done. destruct (list.last (rstrip (body i))) as [c|] eqn:El.
  2:{ apply last_None in El. done. }
  unfold last_not in Hbs. rewrite El in Hbs. rewrite Hbs. unfold ini_switch. rewrite Hline. clear Hfg Hline El.
  assert (dict_after d m (S count)) as Hda'.
  { destruct Hda as (? & ? & ? & ?). split_and!; try done; lia. }
  destruct i as [n|k v|t]; cbn [item_status meaning] in *.
  - destruct (dict_after_set d m count (strlwc (strstrip n)) None Hda Hc) as (d' & E & Hd').
    erewrite alloc_bind_eq; [|rewrite Hd; erewrite alloc_bind_eq by exact E; reflexivity].
    eexists _, d'. split; [reflexivity|]. cbn. split_and!; try done.
    unfold strlwc. rewrite length_fmap, length_take. unfold strstrip.
    pose proof (length_rstrip (lstrip n)). pose proof (length_lstrip n). destruct Hi as (_ & _ & ?). lia.
  - set (tmp := b_section (i_buffers s) ++ L":" ++ strlwc k).
    assert (length tmp <= ASCIILINESZ)%nat as Hlt.
    { subst tmp. unfold strlwc. rewrite !length_app, length_fmap, length_take. cbn [length lit String.list_ascii_of_string].
      destruct Hi as ((_ & _ & ?) & _). unfold ASCIILINESZ. lia. }
    destruct (dict_after_set d m count tmp (Some v) Hda Hc) as (d' & E & Hd').
    cbn [b_section b_key b_value]. fold tmp. rewrite decide_False by lia.
    erewrite alloc_bind_eq; [|rewrite Hd; erewrite alloc_bind_eq by exact E; reflexivity].
    eexists _, d'. split; [reflexivity|]. cbn. by split_and!.
  - exists (mk_ini [] 0 (i_buffers s) (i_dict s) (i_errs s)), d. split; [|by split_and!].
    erewrite alloc_bind_eq by reflexivity. cbn [i_errs]. rewrite Herrs. reflexivity.
Qed.

Lemma load_items fuel stray items s d m count :
  Forall item_ok items -> (length items < fuel)%nat -> Z.of_nat (count + length items) <= 2 ^ 25 ->
  i_last s = 0%nat -> i_errs s = 0 -> i_dict s = Some d -> dict_after d m count ->
  (length (b_section (i_buffers s)) <= 500)%nat ->
  exists d', load_loop fuel stray (print items) s [] = Some (Some d', []) /\ dict_wf d' /\
    dict_map d' = meaning (b_section (i_buffers s)) items m.
Proof.
  intros Hok. revert fuel s d m count. induction Hok as [|i items Hi _ IH]; intros [|fuel] s d m count Hf Hc Hl He Hd Hda Hsec;
    cbn [length] in *; try lia.
  - exists d. destruct Hda as (Hwf & Hm & _). split; [|done].
    change (ini_finish s [] = Some (Some d, [])). unfold ini_finish. by rewrite He, Hd.
  - change (print (i :: items)) with ((body i ++ [LF]) ++ print items). rewrite <-app_assoc. cbn [app].
    destruct (load_item fuel stray i (print items) s d m count) as (s' & d1 & -> & Hl' & He' & Hd1 & Hsec' & Hs & Hda');
      try done; [lia|].
    destruct (IH fuel s' d1 (meaning (b_section (i_buffers s)) [i] m) (S count)) as (d' & E & Hwf & Hm); [lia|lia|done..|].
    exists d'. split; [done|]. split; [done|]. rewrite Hm, Hs. by destruct i.
Qed.

Lemma print_length items : (length items <= length (print items))%nat.
Proof.
  induction items as [|i items IH]; [done|]. change (print (i :: items)) with ((body i ++ [LF]) ++ print items).
  rewrite !length_app. cbn. lia.
Qed.

Lemma iniparser_load_ok stray items :
  Forall item_ok items -> Z.of_nat (length items) <= 2 ^ 25 ->
  exists d, iniparser_load stray (Some (print items)) [] = Some (Some d, []) /\ dict_wf d /\
    dict_map d = meaning [] items ∅.
Proof.
  intros Hok Hc. unfold iniparser_load.
  destruct dictionary_new_ok as (d0 & E & Hwf & Hm & Hn & Hs). erewrite alloc_bind_eq by exact E.
  apply (load_items (S (length (print items))) stray items (mk_ini [] 0 (mk_buffers [] [] []) (Some d0) 0) d0 ∅ 0);
    try done; cbn -[Z.of_nat]; try lia.
  - pose proof (print_length items). lia.
  - split_and!; [done|done|lia|..]; rewrite Hs; unfold DICTMINSZ; lia.
Qed.

(** C17: Loading a file of section, key and comment lines gives, when memory does not
    run out, a well-formed dictionary that maps every section to no value and
    every [section:key] to the value of its last line, with lower-case names;
    loading never depends on the byte before the line buffer. *)
Theorem iniparser_load_print stray items :
  Forall item_ok items -> Z.of_nat (length items) <= 2 ^ 25 ->
  exists d, iniparser_load stray (Some (print items)) [] = Some (Some d, []) /\ dict_wf d /\
    dict_map d = meaning [] items ∅.
Proof.
  apply iniparser_load_ok.
Qed.

Definition ini_sample : list item := [IComment (L" configuration"); ISection (L"Server"); IPair (L"Port") (L"81"); IPair (L"user") []].

Lemma iniparser_load_print_witness :
  exists d, iniparser_load NUL (Some (print ini_sample)) [] = Some (Some d, []) /\
    dict_map d !! L"server:port" = Some (Some (L"81")).
Proof.
  destruct (iniparser_load_print NUL ini_sample) as (d & E & _ & Hm).
  - apply (bool_decide_unpack _). vm_compute. exact I.
  - vm_compute. discriminate.
  - exists d. split; [exact E|]. rewrite Hm. vm_compute. reflexivity.
Defined.

(** * Queries *)

(** On a well-formed dictionary every query first lower-cases the key and then
    is a function of the abstract map: an absent key gives the caller's default,
    [iniparser_getint] converts the stored string as [strtol] in base 0 does and
    cuts it to an [int], and asking for the number under a section name (a NULL
    value) is the one query that faults. *)
Theorem iniparser_getint_correct d key notfound : dict_wf d ->
  iniparser_getint (Some d) (Some key) notfound =
    match dict_map d !! strlwc key with
    | None => Some notfound
    | Some None => None
    | Some (Some str) => Some (i32 (strtol0 str))
    end /\
  iniparser_find_entry (Some d) (Some key) = Some (if decide (is_Some (dict_map d !! strlwc key)) then 1 else 0).
Proof.
  intros Hd. unfold iniparser_getint, iniparser_find_entry, iniparser_getstring.
  rewrite (dictionary_get_ok _ d (strlwc key) Default Stored Hd). cbn [mbind option_bind].
  destruct (dict_map d !! strlwc key) as [[str|]|]; split; try done;
    case_decide as Hs; try done; try (by destruct Hs; eauto); by destruct Hs as [? ?].
Qed.

(** [iniparser_getdouble] differs only in the conversion. *)
Lemma iniparser_getdouble_correct {D} (atof : cstr -> D) d key notfound : dict_wf d ->
  iniparser_getdouble atof (Some d) (Some key) notfound =
    match dict_map d !! strlwc key with
    | None => Some notfound
    | Some None => None
    | Some (Some str) => Some (atof str)
    end.
Proof.
  intros Hd. unfold iniparser_getdouble, iniparser_getstring. rewrite (dictionary_get_ok _ d (strlwc key) Default Stored Hd).
  cbn [mbind option_bind]. by destruct (dict_map d !! strlwc key) as [[str|]|].
Qed.

Lemma iniparser_getint_correct_witness :
  iniparser_getint (Some dict_example) (Some (L"Server:PORT")) 80 = Some 81.
Proof.
  rewrite (proj1 (iniparser_getint_correct dict_example (L"Server:PORT") 80 dict_example_wf)). vm_compute. reflexivity.
Defined.

(** * Errors the loader forgets *)

(** A syntax error is forgotten when a section or a key follows it: the file
    with a line that is neither is accepted as if the line were not there, though
    a file that ends with such a line is refused. *)
Theorem iniparser_load_forgets_errors :
  (exists d, iniparser_load NUL (Some (L"[a]" ++ [LF] ++ L"garbage" ++ [LF] ++ L"k = v" ++ [LF])) [] = Some (Some d, []) /\
     dict_map d = meaning [] [ISection (L"a"); IPair (L"k") (L"v")] ∅) /\
  iniparser_load NUL (Some (L"[a]" ++ [LF] ++ L"k = v" ++ [LF] ++ L"garbage" ++ [LF])) [] = Some (None, []) /\
  iniparser_load NUL (Some (L"[a]" ++ [LF] ++ L"k = v")) [] = Some (None, []).
Proof.
  split; [|split; vm_compute; reflexivity].
  destruct (iniparser_load NUL _ []) as [[[d|] o]|] eqn:E; [|vm_compute in E; discriminate E..].
  exists d. assert (o = [] /\ dict_map d = meaning [] [ISection (L"a"); IPair (L"k") (L"v")] ∅) as [-> H].
  { vm_compute in E. injection E as <- <-. split; vm_compute; reflexivity. }
  by rewrite H.
Qed.

(** * Sections *)

(** The names of the sections in the order of their slots. *)
Definition sections (d : dictionary) : list cstr :=
  match slots d with Some sl => omap fst (List.filter is_section sl) | None => [] end.

Lemma omap_sections sl i :
  length (omap fst (List.filter is_section sl)) = length (List.filter is_section sl) /\
  omap fst (List.filter is_section sl) !! i = (kv ← List.filter is_section sl !! i; kv.1).
Proof.
  revert i. induction sl as [|[[k|] v] sl IH]; intros i; cbn [List.filter is_section fst]; [done| |apply IH].
  case_match; [|apply IH]. cbn. destruct (IH (Nat.pred i)) as [-> Hi]. split; [done|]. by destruct i.
Qed.

(** [iniparser_getnsec] counts the sections, [iniparser_getsecname] enumerates
    them. *)
Lemma sections_enumerated d : dict_wf d ->
  iniparser_getnsec (Some d) = Some (Z.of_nat (length (sections d))) /\
  forall i, iniparser_getsecname (Some d) (Z.of_nat i) = Some (sections d !! i).
Proof.
  intros (keys & vals & hashes & R). unfold iniparser_getnsec, iniparser_getsecname, sections.
  rewrite (slots_ok _ _ _ _ R). cbn [mbind option_bind]. split; [by rewrite (proj1 (omap_sections _ 0))|].
  intros i. rewrite (proj2 (Z.ltb_ge _ _)), Nat2Z.id by lia. by rewrite (proj2 (omap_sections _ i)).
Qed.
