(* ===== verification/ConfParser.v ===== *)
(** Loading configuration variables: src/csf/confparser/confparser.c. The
    NULL-terminated arrays of variables are lists of names with the current
    values of the variables; the file system is a function from names to
    contents. *)

From S2P Require Import Prelude CString Dictionary IniParser.

Definition CONF_ITEM_LEN : nat := 63.
Definition MAX_PATH : nat := 1024.

(** [CONF_INT_CONFIG] and [CONF_STR_CONFIG] with the variables they point to. *)
Definition CONF_INT_CONFIG : Type := cstr * Z.
Definition CONF_STR_CONFIG : Type := cstr * cstr.

(** [set_conf_file]: the new value of [conf_file]. *)
Definition set_conf_file (conf_name : option cstr) (conf_file : cstr) : cstr :=
  match conf_name with Some n => strlcpy_str MAX_PATH n | None => conf_file end.

(** [snprintf (buf, CONF_ITEM_LEN, "%s:%s", mod_name, config_name)]. *)
Definition conf_key (mod_name config_name : cstr) : cstr :=
  take (CONF_ITEM_LEN - 1) (mod_name ++ L":" ++ config_name).

(** The loops of [parse_conf_file], one variable at a time. *)
Definition parse_int (conf : dictionary) (mod_name : cstr) (c : CONF_INT_CONFIG) : option CONF_INT_CONFIG :=
  i ← iniparser_getint (Some conf) (Some (conf_key mod_name c.1)) (-1);
  Some (c.1, if i =? -1 then c.2 else i).

Definition parse_str (conf : dictionary) (mod_name : cstr) (c : CONF_STR_CONFIG) : option CONF_STR_CONFIG :=
  r ← iniparser_getstring (Some conf) (Some (conf_key mod_name c.1));
  Some (c.1, match r with Stored (Some s) => strlcpy_str (CONF_ITEM_LEN + 1) s | _ => c.2 end).

(** [parse_conf_file]. *)
Definition parse_conf_file (conf : option dictionary) (mod_name : option cstr)
  (cic : list CONF_INT_CONFIG) (csc : list CONF_STR_CONFIG)
  : option (Z * list CONF_INT_CONFIG * list CONF_STR_CONFIG) :=
  match conf, mod_name with
  | Some d, Some m =>
      cic' ← mapM (parse_int d m) cic;
      csc' ← mapM (parse_str d m) csc;
      Some (0, cic', csc')
  | _, _ => Some (-1, cic, csc)
  end.

Section files.
Context (fs : cstr -> option cstr) (stray : ascii).

(** [open_conf_file]. *)
Definition open_conf_file (conf_file : cstr) (conf_name : option cstr) : Alloc (option dictionary) :=
  iniparser_load stray (fs (default conf_file conf_name)).

(** [close_conf_file]. *)
Definition close_conf_file (conf : option dictionary) : option (list cstr) := iniparser_freedict conf.

(** [load_conf]. *)
Definition load_conf (conf_file : cstr) (conf_name mod_name : option cstr)
  (cic : list CONF_INT_CONFIG) (csc : list CONF_STR_CONFIG)
  : Alloc (Z * list CONF_INT_CONFIG * list CONF_STR_CONFIG) :=
  open_conf_file conf_file conf_name ≫= fun conf : option dictionary =>
  match conf with
  | None => mret (-1, cic, csc)
  | Some _ =>
      access (parse_conf_file conf mod_name cic csc)
      ≫= fun r : Z * list CONF_INT_CONFIG * list CONF_STR_CONFIG =>
      access (close_conf_file conf) ≫= fun _ : list cstr =>
      mret (0, r.1.2, r.2)
  end.

End files.

(** [open_conf_mem]. *)
Definition open_conf_mem (ini : option cstr) (len : Z) : Alloc (option dictionary) :=
  match ini with
  | Some s => iniparser_load_mem s len
  | None => mret None
  end.

(** [load_conf_mem]. *)
Definition load_conf_mem (ini : option cstr) (len : Z) (mod_name : option cstr)
  (cic : list CONF_INT_CONFIG) (csc : list CONF_STR_CONFIG)
  : Alloc (Z * list CONF_INT_CONFIG * list CONF_STR_CONFIG) :=
  open_conf_mem ini len ≫= fun conf : option dictionary =>
  match conf with
  | None => mret (-1, cic, csc)
  | Some _ =>
      access (parse_conf_file conf mod_name cic csc)
      ≫= fun r : Z * list CONF_INT_CONFIG * list CONF_STR_CONFIG =>
      access (close_conf_file conf) ≫= fun _ : list cstr =>
      mret (0, r.1.2, r.2)
  end.

(** * What the variables become *)

(** The value an integer variable gets from the map of a file; -1 counts as
    absent. *)
Definition int_value (m : gmap cstr (option cstr)) (mod_name : cstr) (c : CONF_INT_CONFIG) : CONF_INT_CONFIG :=
  (c.1, match m !! strlwc (conf_key mod_name c.1) with
        | Some (Some s) => if i32 (strtol0 s) =? -1 then c.2 else i32 (strtol0 s)
        | _ => c.2
        end).

Definition str_value (m : gmap cstr (option cstr)) (mod_name : cstr) (c : CONF_STR_CONFIG) : CONF_STR_CONFIG :=
  (c.1, match m !! strlwc (conf_key mod_name c.1) with
        | Some (Some s) => strlcpy_str (CONF_ITEM_LEN + 1) s
        | _ => c.2
        end).

(** No integer variable is asked for under the name of a section. *)
Definition ints_ok (m : gmap cstr (option cstr)) (mod_name : cstr) (cic : list CONF_INT_CONFIG) : Prop :=
  Forall (fun c => m !! strlwc (conf_key mod_name c.1) <> Some None) cic.

Lemma mapM_map {A B} (f : A -> option B) g l : Forall (fun x => f x = Some (g x)) l -> mapM f l = Some (g <$> l).
Proof. induction 1 as [|x l Hx _ IH]; cbn -[fmap]; [done|]. by rewrite Hx, IH. Qed.

Lemma parse_conf_file_map d m mod_name cic csc : dict_wf d -> dict_map d = m -> ints_ok m mod_name cic ->
  parse_conf_file (Some d) (Some mod_name) cic csc =
    Some (0, int_value m mod_name <$> cic, str_value m mod_name <$> csc).
Proof.
  intros Hd <- Hi. unfold parse_conf_file.
  rewrite (mapM_map _ (int_value (dict_map d) mod_name)).
  - cbn [mbind option_bind]. rewrite (mapM_map _ (str_value (dict_map d) mod_name)); [done|].
    apply list.Forall_forall. intros c _. unfold parse_str, str_value, iniparser_getstring.
    rewrite (dictionary_get_ok _ d _ Default Stored Hd). cbn [mbind option_bind].
    by destruct (dict_map d !! strlwc (conf_key mod_name c.1)) as [[]|].
  - apply list.Forall_forall. intros c Hc. unfold ints_ok in Hi. rewrite list.Forall_forall in Hi.
    specialize (Hi c Hc).
    unfold parse_int, int_value, iniparser_getint, iniparser_getstring.
    rewrite (dictionary_get_ok _ d _ Default Stored Hd). cbn [mbind option_bind].
    destruct (dict_map d !! strlwc (conf_key mod_name c.1)) as [[]|]; [done..|done].
Qed.

Lemma load_conf_ok fs stray conf_file conf_name mod_name items cic csc :
  Forall item_ok items -> Z.of_nat (length items) <= 2 ^ 25 -> ints_ok (meaning [] items ∅) mod_name cic ->
  fs (default conf_file conf_name) = Some (print items) ->
  load_conf fs stray conf_file conf_name (Some mod_name) cic csc [] =
    Some ((0, int_value (meaning [] items ∅) mod_name <$> cic, str_value (meaning [] items ∅) mod_name <$> csc), []).
Proof.
  intros Hok Hc Hi Hf. unfold load_conf, open_conf_file. rewrite Hf.
  destruct (iniparser_load_ok stray items Hok Hc) as (d & E & Hwf & Hm).
  erewrite alloc_bind_eq by exact E. cbn beta iota.
  erewrite alloc_bind_eq by (erewrite parse_conf_file_map by done; reflexivity).
  destruct (dictionary_del_ok d Hwf) as (freed & Ed).
  erewrite alloc_bind_eq; [|unfold close_conf_file, iniparser_freedict; rewrite Ed; reflexivity]. done.
Qed.


Definition conf_sample (name : cstr) : option cstr :=
  if decide (name = L"/etc/csf.ini") then Some (print ini_sample) else None.


(** A file cannot set an integer variable to -1: the value that stands for a
    missing entry is taken as one, and the variable keeps its default. *)
Theorem load_conf_ignores_minus_one fs stray conf_file mod_name items var old s csc :
  Forall item_ok items -> Z.of_nat (length items) <= 2 ^ 25 -> fs conf_file = Some (print items) ->
  meaning [] items ∅ !! strlwc (conf_key mod_name var) = Some (Some s) -> i32 (strtol0 s) = -1 ->
  exists csc', load_conf fs stray conf_file None (Some mod_name) [(var, old)] csc [] = Some ((0, [(var, old)], csc'), []).
Proof.
  intros Hok Hc Hf Hm Hs. exists (str_value (meaning [] items ∅) mod_name <$> csc).
  rewrite (load_conf_ok _ _ _ _ _ items) by (done || (apply list.Forall_singleton; cbn [fst]; by rewrite Hm)).
  rewrite list_fmap_singleton. unfold int_value at 1. cbn [fst snd]. by rewrite Hm, Hs.
Qed.

Definition minus_sample : list item := [ISection (L"pipeline"); IPair (L"log_expire_days") (L"-1")].

Lemma load_conf_ignores_minus_one_witness :
  exists csc', load_conf (fun _ => Some (print minus_sample)) NUL [] None (Some (L"PIPELINE")) [(L"log_expire_days", 30)] [] [] =
    Some ((0, [(L"log_expire_days", 30)], csc'), []).
Proof.
  apply (load_conf_ignores_minus_one (fun _ => Some (print minus_sample)) NUL [] (L"PIPELINE") minus_sample
    (L"log_expire_days") 30 (L"-1") []).
  - apply (bool_decide_unpack _). vm_compute. exact I.
  - vm_compute. discriminate.
  - reflexivity.
  - vm_compute. reflexivity.
  - vm_compute. reflexivity.
Defined.
