(* ===== verification/Format.v ===== *)
(** The conversions of [printf] the program uses, as texts, and what reading a
    number back gives. *)

From S2P Require Import Prelude IniParser.

(** The decimal digits of a number that is not negative. *)
Fixpoint dec_loop (fuel : nat) (z : Z) (acc : cstr) : cstr :=
  match fuel with
  | O => acc
  | S fuel' =>
      let acc' := chr (Z.to_nat (48 + z mod 10)) :: acc in
      if z <? 10 then acc' else dec_loop fuel' (z / 10) acc'
  end.

(** The conversions %ju and %jd. *)
Definition fmt_ju (z : Z) : cstr := dec_loop (S (Z.to_nat (Z.log2 z))) z [].

Definition fmt_jd (z : Z) : cstr := if z <? 0 then "-"%char :: fmt_ju (- z) else fmt_ju z.

(** [n / d] rounded to the nearest integer, ties to even. *)
Definition round_half_even (n d : Z) : Z :=
  let q := n / d in let r := n mod d in
  if 2 * r <? d then q else if d <? 2 * r then q + 1 else if Z.even q then q else q + 1.

(** The conversion %f of an IEEE number with [mb] bits of mantissa and [eb] bits
    of exponent. *)
Definition fmt_f (mb eb : Z) (bits : Z) : cstr :=
  let sign := if Z.testbit bits (mb + eb) then L"-" else [] in
  let e := Z.land (Z.shiftr bits mb) (Z.ones eb) in
  let m := Z.land bits (Z.ones mb) in
  sign ++
  (if e =? Z.ones eb then if m =? 0 then L"inf" else L"nan"
   else
     let mant := (if e =? 0 then m else Z.lor m (Z.shiftl 1 mb)) * 10 ^ 6 in
     let ex := Z.max e 1 - Z.ones (eb - 1) - mb in
     let q := if 0 <=? ex then Z.shiftl mant ex else round_half_even mant (Z.shiftl 1 (- ex)) in
     let frac := fmt_ju (q mod 10 ^ 6) in
     fmt_ju (q / 10 ^ 6) ++ L"." ++ replicate (6 - length frac) "0"%char ++ frac).

(** The conversion %02d of a number that is not negative. *)
Definition fmt_02d (z : Z) : cstr := if z <? 10 then "0"%char :: fmt_jd z else fmt_jd z.

(** * Reading back *)

Lemma uchar_chr n : (n < 256)%nat -> uchar (chr n) = Z.of_nat n.
Proof.
  intros H. unfold uchar, chr, ascii_of_nat. rewrite N_ascii_embedding by lia. lia.
Qed.

Lemma digit_chr d : 0 <= d < 10 -> digit 10 (chr (Z.to_nat (48 + d))) = Some d.
Proof.
  intros H. unfold digit. rewrite uchar_chr, Z2Nat.id by lia.
  replace ((48 <=? 48 + d) && (48 + d <=? 57)) with true by (symmetry; apply andb_true_intro; split; apply Z.leb_le; lia).
  replace (48 + d - 48 <? 10) with true by (symmetry; apply Z.ltb_lt; lia). f_equal. lia.
Qed.

(** The characters of a number. *)
Definition numeral (c : ascii) : Prop := is_Some (digit 10 c).

Lemma dec_loop_ok fuel z acc : 0 <= z < 2 ^ Z.of_nat fuel -> (0 < fuel)%nat ->
  exists ds, dec_loop fuel z acc = ds ++ acc /\ ds <> [] /\ Forall numeral ds /\ (length ds <= fuel)%nat /\
    (forall rest, digits 10 0 (ds ++ rest) = digits 10 z rest).
Proof.
  revert z acc; induction fuel as [|fuel IH]; intros z acc Hz Hf; [lia|]. cbn [dec_loop].
  destruct (Z.ltb_spec z 10) as [H10|H10].
  - exists [chr (Z.to_nat (48 + z mod 10))]. rewrite Z.mod_small by lia. split_and!; try done.
    + constructor; [|done]. unfold numeral. rewrite digit_chr by lia. eauto.
    + intros rest. cbn -[digit]. rewrite digit_chr by lia. done.
  - assert (Hm := Z.mod_pos_bound z 10 ltac:(lia)). assert (Hd := Z.div_mod z 10 ltac:(lia)).
    rewrite Nat2Z.inj_succ, Z.pow_succ_r in Hz by lia. destruct fuel as [|fuel]; [cbn in Hz; lia|].
    destruct (IH (z / 10) (chr (Z.to_nat (48 + z mod 10)) :: acc)) as (ds & E & Hne & Hall & Hlen & Hdig); [|lia|].
    { split; [apply Z.div_pos; lia|]. lia. }
    exists (ds ++ [chr (Z.to_nat (48 + z mod 10))]). rewrite E, <-app_assoc. split_and!; [done|by destruct ds| | |].
    + apply Forall_app. split; [done|]. constructor; [|done]. unfold numeral. rewrite digit_chr by lia. eauto.
    + rewrite length_app. cbn. lia.
    + intros rest. rewrite <-app_assoc, Hdig. cbn -[digit]. rewrite digit_chr by lia. f_equal. lia.
Qed.

Lemma fmt_ju_ok z : 0 <= z < 2 ^ 64 ->
  fmt_ju z <> [] /\ Forall numeral (fmt_ju z) /\ (length (fmt_ju z) <= 64)%nat /\
  forall rest, digits 10 0 (fmt_ju z ++ rest) = digits 10 z rest.
Proof.
  intros Hz. unfold fmt_ju. destruct (dec_loop_ok (S (Z.to_nat (Z.log2 z))) z []) as (ds & -> & Hne & Hall & Hlen & Hd); [|lia|].
  - split; [lia|]. rewrite Nat2Z.inj_succ, Z2Nat.id by apply Z.log2_nonneg.
    destruct (Z.eq_dec z 0) as [->|]; [done|]. apply Z.log2_spec. lia.
  - rewrite app_nil_r. split_and!; try done. assert (Z.log2 z < 64); [|lia].
    destruct (Z.eq_dec z 0) as [->|]; [done|]. apply Z.log2_lt_pow2; lia.
Qed.
