(* ===== verification/Address.v ===== *)
(** The text of an IPv4 address: [ip2str] of src/csf/protocol.c and
    src/csf/libprotocol.c, which [connection_made] uses for its log line. *)

From S2P Require Import Prelude IniParser Format.

(** The four bytes of a [sin_addr], in network order. *)
Record in_addr : Type := mk_addr { a1 : Z; a2 : Z; a3 : Z; a4 : Z }.

Definition addr_ok (a : in_addr) : Prop :=
  0 <= a1 a < 256 /\ 0 <= a2 a < 256 /\ 0 <= a3 a < 256 /\ 0 <= a4 a < 256.

Definition dotted (a : in_addr) : cstr :=
  fmt_ju (a1 a) ++ L"." ++ fmt_ju (a2 a) ++ L"." ++ fmt_ju (a3 a) ++ L"." ++ fmt_ju (a4 a).

(** [inet_ntop (AF_INET, ...)]: the text with its NUL has to fit in [len] bytes. *)
Definition inet_ntop (a : in_addr) (len : Z) : option cstr :=
  if len <=? Z.of_nat (length (dotted a)) then None else Some (dotted a).

(** [ip2str]: the string it returns, and writes to [ipstr]. *)
Definition ip2str (a : in_addr) (len : Z) : option cstr :=
  match inet_ntop a len with
  | None => None
  | Some s => Some s
  end.

(** The size [connection_made] passes. *)
Definition IP_STR_LEN : Z := 16.

(** * Reading it back *)

(** The number up to the first other character, and what follows it. *)
Fixpoint number_then (acc : Z) (s : cstr) : Z * cstr :=
  match s with
  | c :: s' => match digit 10 c with Some v => number_then (acc * 10 + v) s' | None => (acc, s') end
  | [] => (acc, [])
  end.

Definition read_addr (s : cstr) : in_addr :=
  let '(x1, s1) := number_then 0 s in let '(x2, s2) := number_then 0 s1 in
  let '(x3, s3) := number_then 0 s2 in let '(x4, _) := number_then 0 s3 in mk_addr x1 x2 x3 x4.

Lemma number_then_digits ds acc s :
  Forall numeral ds -> number_then acc (ds ++ L"." ++ s) = (digits 10 acc ds, s) /\ number_then acc ds = (digits 10 acc ds, []).
Proof.
  intros H. revert acc. induction H as [|c ds [v Hv] _ IH]; intros acc; [done|]. cbn -[digit]. rewrite Hv. apply IH.
Qed.

Lemma number_then_ju z s : 0 <= z < 256 ->
  number_then 0 (fmt_ju z ++ L"." ++ s) = (z, s) /\ number_then 0 (fmt_ju z) = (z, []).
Proof.
  intros Hz. destruct (fmt_ju_ok z ltac:(lia)) as (_ & Hall & _ & Hd). specialize (Hd []). rewrite app_nil_r in Hd.
  destruct (number_then_digits (fmt_ju z) 0 s Hall) as [-> ->]. by rewrite Hd.
Qed.

Lemma byte_text z : 0 <= z < 256 -> (1 <= length (fmt_ju z) <= 3)%nat.
Proof.
  assert (forallb (fun n => (1 <=? length (fmt_ju (Z.of_nat n)))%nat && (length (fmt_ju (Z.of_nat n)) <=? 3)%nat) (seq 0 256) = true)
    as H by (vm_compute; reflexivity).
  intros Hz. rewrite forallb_forall in H. specialize (H (Z.to_nat z)). rewrite Z2Nat.id in H by lia.
  destruct (andb_true_iff (1 <=? length (fmt_ju z))%nat (length (fmt_ju z) <=? 3)%nat) as [H1 _].
  destruct (H1 (H ltac:(apply in_seq; lia))) as [Ha%Nat.leb_le Hb%Nat.leb_le]. lia.
Qed.

(** The 16 bytes that [connection_made] gives are enough for every address, the
    text is no longer than 15 characters, and it reads back as the address: two
    clients are never logged under one text. *)
Theorem ip2str_correct a : addr_ok a ->
  exists s, ip2str a IP_STR_LEN = Some s /\ (7 <= length s <= 15)%nat /\ read_addr s = a.
Proof.
  intros (H1 & H2 & H3 & H4). exists (dotted a).
  assert (7 <= length (dotted a) <= 15)%nat as Hl.
  { unfold dotted. rewrite !length_app. change (length (L".")) with 1%nat.
    pose proof (byte_text _ H1). pose proof (byte_text _ H2). pose proof (byte_text _ H3). pose proof (byte_text _ H4). lia. }
  split; [|split; [done|]].
  - unfold ip2str, inet_ntop, IP_STR_LEN. by rewrite (proj2 (Z.leb_gt _ _)) by lia.
  - unfold read_addr, dotted.
    rewrite (proj1 (number_then_ju _ _ H1)), (proj1 (number_then_ju _ _ H2)), (proj1 (number_then_ju _ _ H3)),
      (proj2 (number_then_ju _ [] H4)). by destruct a.
Qed.

Lemma ip2str_correct_witness :
  exists s, ip2str (mk_addr 10 0 255 7) IP_STR_LEN = Some s /\ (7 <= length s <= 15)%nat /\ read_addr s = mk_addr 10 0 255 7.
Proof. apply (ip2str_correct (mk_addr 10 0 255 7)). unfold addr_ok. cbn. lia. Defined.
