(* ===== verification/SelfTest.v ===== *)
(** The two test programs of src/csf/confparser: the [main] of dictionary.c that
    TESTDIC enables, which sets, gets and unsets NVALS keys, and testmem.c, which
    reads two variables from a configuration in memory. What they print says
    whether the library works; the theorems say what they print. *)

From S2P Require Import Prelude CString Dictionary IniParser ConfParser Format.

(** * The test of dictionary.c *)

Definition NVALS : Z := 20000.

(** The conversion %04d of a number that is not negative. *)
Definition fmt_04d (z : Z) : cstr := replicate (4 - length (fmt_jd z)) "0"%char ++ fmt_jd z.

Definition test_keys (nvals : nat) : list cstr := fmt_04d ∘ Z.of_nat <$> seq 0 nvals.

(** The three loops; the argument lists the values of [cval]. *)
Fixpoint set_values (cvals : list cstr) (d : option dictionary) : Alloc (option dictionary) :=
  match cvals with
  | [] => mret d
  | cval :: cvals' =>
      '(_, d1) ← dictionary_set d (Some cval) (Some (L"salut"));
      set_values cvals' d1
  end.

(** DICT_INVALID_KEY is [None]; the result is what the loop prints. *)
Fixpoint get_values (cvals : list cstr) (d : dictionary) : option cstr :=
  match cvals with
  | [] => Some []
  | cval :: cvals' =>
      val ← dictionary_get d cval None Some;
      rest ← get_values cvals' d;
      Some (match val with
            | None => L"cannot get value for key [" ++ cval ++ L"]" ++ [LF]
            | Some _ => []
            end ++ rest)
  end.

Fixpoint unset_values (cvals : list cstr) (d : dictionary) : option dictionary :=
  match cvals with
  | [] => Some d
  | cval :: cvals' => d1 ← dictionary_unset d (Some cval); unset_values cvals' d1
  end.

Definition say (s : cstr) : cstr := s ++ [LF].

(** [main] of dictionary.c: everything it prints. A NULL dictionary faults in the
    first [dictionary_get], or in the test of [d->n] when there is no key. *)
Definition dictionary_main (nvals : nat) : Alloc cstr :=
  let n := fmt_jd (Z.of_nat nvals) in
  d0 ← dictionary_new 0;
  d1 ← set_values (test_keys nvals) d0;
  d ← access d1;
  got ← access (get_values (test_keys nvals) d);
  d2 ← access (unset_values (test_keys nvals) d);
  _ ← access (dictionary_del (Some d2));
  mret (say (L"allocating...") ++ say (L"setting " ++ n ++ L" values...") ++
        say (L"getting " ++ n ++ L" values...") ++ got ++
        say (L"unsetting " ++ n ++ L" values...") ++
        (if negb (d_n d2 =? 0) then say (L"error deleting values") else []) ++
        say (L"deallocating...")).

(** * The test of testmem.c *)

Definition testmem_buf : cstr :=
  L"[command]" ++ [CR; LF; LF] ++ L"command=" ++ [QUOTE] ++ L"ls" ++ [QUOTE; CR; LF] ++ L"timestamp=11111" ++ [CR; LF].

(** [main] of testmem.c: the text of its [printf] and the text on stderr;
    [command] is what the array of 1025 bytes holds on entry, up to a NUL. *)
Definition testmem_main (command : cstr) : Alloc (cstr * cstr) :=
  conf ← open_conf_mem (Some testmem_buf) (Z.of_nat (length testmem_buf));
  let err := match conf with None => L"errror" | Some _ => [] end in
  r ← access (parse_conf_file conf (Some (L"command")) [(L"timestamp", 0)] [(L"command", command)]);
  _ ← access (close_conf_file conf);
  let '(_, cic, csc) := r in
  mret (concat (snd <$> csc) ++ [LF] ++ concat ((fun c => fmt_jd (snd c)) <$> cic) ++ [LF], err).

(** * What they print *)

Lemma digit_zero : digit 10 "0"%char = Some 0. Proof. reflexivity. Qed.

Lemma digits_zeros n s : digits 10 0 (replicate n "0"%char ++ s) = digits 10 0 s.
Proof. induction n as [|n IH]; [done|]. cbn [replicate app digits]. by rewrite digit_zero. Qed.

Lemma fmt_04d_reads z : 0 <= z < 2 ^ 64 -> digits 10 0 (fmt_04d z) = z.
Proof.
  intros Hz. unfold fmt_04d. rewrite digits_zeros. unfold fmt_jd. rewrite (proj2 (Z.ltb_ge _ _)) by lia.
  destruct (fmt_ju_ok z Hz) as (_ & _ & _ & H). specialize (H []). by rewrite app_nil_r in H.
Qed.

Lemma test_keys_nodup nvals : Z.of_nat nvals <= 2 ^ 64 -> NoDup (test_keys nvals).
Proof.
  intros Hn. apply NoDup_fmap_2_strong; [|apply NoDup_seq]. intros x y Hx Hy E.
  apply elem_of_seq in Hx, Hy. cbn in E. apply Nat2Z.inj.
  rewrite <-(fmt_04d_reads (Z.of_nat x)), <-(fmt_04d_reads (Z.of_nat y)) by lia. by rewrite E.
Qed.

(** The bound of the size that keeps doubling below INT_MAX bytes. *)
Definition TEST_MAX : Z := 2 ^ 25.

Lemma set_values_ok ks d :
  NoDup ks -> (forall k, k ∈ ks -> dict_map d !! k = None) -> dict_wf d ->
  0 <= d_n d -> 0 < Z.of_nat (d_size d) <= DICT_MAXSZ -> d_n d + Z.of_nat (length ks) <= TEST_MAX ->
  exists d', set_values ks (Some d) [] = Some (Some d', []) /\ dict_wf d' /\
    d_n d' = d_n d + Z.of_nat (length ks) /\
    (forall k, dict_map d' !! k = if bool_decide (k ∈ ks) then Some (Some (L"salut")) else dict_map d !! k).
Proof.
  revert d. induction ks as [|k ks IH]; intros d Hnd Hnone Hwf Hn Hsz Hmax.
  { exists d. split; [done|]. split; [done|]. split; [cbn; lia|]. intros k. rewrite bool_decide_eq_false_2; [done|set_solver]. }
  apply list.NoDup_cons in Hnd as [Hk Hnd]. cbn [length] in Hmax.
  destruct (dictionary_set_ok d k (Some (L"salut")) Hwf Hsz) as (d1 & E & Hwf1 & Hm1 & Hn1 & Hs1).
  rewrite decide_False in Hn1 by (rewrite Hnone by set_solver; by intros [? ?]).
  destruct (IH d1) as (d' & E' & Hwf' & Hn' & Hm'); try done.
  - intros k' Hk'. rewrite Hm1, lookup_insert_ne by set_solver. apply Hnone. set_solver.
  - lia.
  - unfold DICT_MAXSZ, TEST_MAX in *. lia.
  - lia.
  - exists d'. cbn [set_values]. rewrite (alloc_bind_eq _ _ _ _ _ E). split; [exact E'|]. split; [done|].
    split; [cbn [length]; lia|]. intros k'. rewrite Hm', Hm1.
    destruct (decide (k' ∈ ks)) as [Hin|Hin]; [by rewrite !bool_decide_eq_true_2 by set_solver|].
    rewrite (bool_decide_eq_false_2 (k' ∈ ks)) by done. destruct (decide (k' = k)) as [->|Hne].
    + by rewrite lookup_insert_eq, bool_decide_eq_true_2 by set_solver.
    + by rewrite lookup_insert_ne, bool_decide_eq_false_2 by set_solver.
Qed.

Lemma get_values_ok ks d :
  dict_wf d -> (forall k, k ∈ ks -> is_Some (dict_map d !! k)) -> get_values ks d = Some [].
Proof.
  intros Hwf. induction ks as [|k ks IH]; intros Hin; [done|]. cbn [get_values]. rewrite dictionary_get_ok by done.
  destruct (Hin k ltac:(set_solver)) as [v ->]. cbn. rewrite IH by set_solver. done.
Qed.

Lemma unset_values_ok ks d :
  NoDup ks -> dict_wf d -> (forall k, k ∈ ks -> is_Some (dict_map d !! k)) ->
  exists d', unset_values ks d = Some d' /\ dict_wf d' /\ d_n d' = d_n d - Z.of_nat (length ks).
Proof.
  revert d. induction ks as [|k ks IH]; intros d Hnd Hwf Hin; [exists d; cbn; split_and!; [done|done|lia]|].
  apply list.NoDup_cons in Hnd as [Hk Hnd].
  destruct (dictionary_unset_ok d (Some k) Hwf) as (d1 & E & Hwf1 & Hm1 & _ & Hn1).
  rewrite decide_True in Hn1 by (apply Hin; set_solver).
  destruct (IH d1 Hnd Hwf1) as (d' & E' & Hwf' & Hn').
  { intros k' Hk'. rewrite Hm1, lookup_delete_ne by set_solver. apply Hin. set_solver. }
  exists d'. cbn [unset_values]. rewrite E. cbn [mbind option_bind length]. split_and!; [done|done|lia].
Qed.

(** What the test prints when nothing is wrong. *)
Definition clean_report (nvals : nat) : cstr :=
  let n := fmt_jd (Z.of_nat nvals) in
  say (L"allocating...") ++ say (L"setting " ++ n ++ L" values...") ++ say (L"getting " ++ n ++ L" values...") ++
  say (L"unsetting " ++ n ++ L" values...") ++ say (L"deallocating...").

(** The dictionary's own test finds no error, for its 20000 keys and for every
    other number of keys up to 2^25: each key is found after all were set, over
    all growth of the arrays, and none is left after all were unset. *)
Theorem dictionary_main_clean nvals :
  Z.of_nat nvals <= TEST_MAX -> dictionary_main nvals [] = Some (clean_report nvals, []).
Proof.
  intros Hn. unfold dictionary_main. cbn zeta. destruct dictionary_new_ok as (d0 & E0 & Hwf0 & Hm0 & Hn0 & Hs0).
  assert (length (test_keys nvals) = nvals) as Hlen by (unfold test_keys; by rewrite length_fmap, length_seq).
  assert (NoDup (test_keys nvals)) as Hnd by (apply test_keys_nodup; unfold TEST_MAX in *; lia).
  destruct (set_values_ok (test_keys nvals) d0) as (d1 & E1 & Hwf1 & Hn1 & Hm1); try done.
  - intros k _. by rewrite Hm0.
  - lia.
  - rewrite Hs0. unfold DICT_MAXSZ, DICTMINSZ. lia.
  - lia.
  - assert (forall k, k ∈ test_keys nvals -> is_Some (dict_map d1 !! k)) as Hin.
    { intros k Hk. rewrite Hm1, bool_decide_eq_true_2 by done. eauto. }
    destruct (unset_values_ok (test_keys nvals) d1 Hnd Hwf1 Hin) as (d2 & E2 & Hwf2 & Hn2).
    destruct (dictionary_del_ok d2 Hwf2) as (freed & E3).
    rewrite (alloc_bind_eq _ _ _ _ _ E0), (alloc_bind_eq _ _ _ _ _ E1).
    rewrite (alloc_bind_eq _ _ _ _ _ (access_Some (Some d1) d1 [] eq_refl)).
    rewrite (alloc_bind_eq _ _ _ _ _ (access_Some _ _ [] (get_values_ok _ _ Hwf1 Hin))).
    rewrite (alloc_bind_eq _ _ _ _ _ (access_Some _ _ [] E2)), (alloc_bind_eq _ _ _ _ _ (access_Some _ _ [] E3)).
    replace (d_n d2) with 0 by lia. done.
Qed.

Lemma dictionary_main_clean_witness :
  dictionary_main (Z.to_nat NVALS) [] = Some (clean_report (Z.to_nat NVALS), []).
Proof. apply (dictionary_main_clean (Z.to_nat NVALS)). unfold NVALS, TEST_MAX. lia. Defined.

(** The memory image of testmem.c is read as meant: the quotes are removed, the
    empty line and the CR LF ends are skipped, whatever the array held before. *)
Theorem testmem_main_prints command :
  testmem_main command [] = Some (L"ls" ++ [LF] ++ L"11111" ++ [LF], [], []).
Proof. vm_compute. reflexivity. Qed.
