(* ===== verification/NetIo.v ===== *)
(** The blocking reads and writes of src/csf/monitor.c: [readn], [writen] and
    [readline]. A descriptor's input is the list of what its reads will find, its
    segments or an error; past the end of the list the peer has closed. The
    outcomes of writes are a list as well; past its end every write takes all it
    is given. [errno] is threaded through, because [writen] looks at it after a
    write that took nothing. *)

From S2P Require Import Prelude.

Definition EINTR : Z := 4.
Definition ECONNRESET : Z := 104.

(** What a read finds: some bytes (none: the end of the input), or an error. *)
Inductive rres : Type :=
| RGot (bytes : list ascii)
| RFail (e : Z).

(** What a write does: take so many bytes, or fail. *)
Inductive wres : Type :=
| WTook (n : nat)
| WFail (e : Z).

(** [read (fd, ptr, n)]: the bytes, or the error, and the input left. *)
Definition sys_read (n : nat) (q : list rres) : (list ascii + Z) * list rres :=
  match q with
  | [] => (inl [], [])
  | RFail e :: q' => (inr e, q')
  | RGot l :: q' => (inl (take n l), match drop n l with [] => q' | r => RGot r :: q' end)
  end.

(** [readn]: the returned count, the bytes stored, [errno] and the input left.
    Every round consumes a segment or fills the buffer. *)
Fixpoint readn_loop (fuel : nat) (n nleft : nat) (q : list rres) (errno : Z) (got : list ascii)
  : option (Z * list ascii * Z * list rres) :=
  match nleft with
  | O => Some (Z.of_nat n, got, errno, q)
  | S _ =>
      match fuel with
      | O => None
      | S fuel' =>
          match sys_read nleft q with
          | (inr e, q') =>
              if e =? EINTR then readn_loop fuel' n nleft q' e got else Some (CSF_ERR, got, e, q')
          | (inl [], q') => Some (Z.of_nat (n - nleft), got, errno, q')
          | (inl l, q') => readn_loop fuel' n (nleft - length l) q' errno (got ++ l)
          end
      end
  end.

Definition readn (n : nat) (q : list rres) (errno : Z) : option (Z * list ascii * Z * list rres) :=
  readn_loop (S (length q)) n n q errno [].

(** [writen]: the result, the bytes taken, [errno] and the outcomes left. *)
Fixpoint writen_loop (script : list wres) (n : nat) (ptr : list ascii) (errno : Z) (sent : list ascii)
  : Z * list ascii * Z * list wres :=
  match ptr with
  | [] => (Z.of_nat n, sent, errno, script)
  | _ =>
      match script with
      | [] => (Z.of_nat n, sent ++ ptr, errno, [])
      | WTook O :: s => if errno =? EINTR then writen_loop s n ptr errno sent else (CSF_ERR, sent, errno, s)
      | WTook k :: s => writen_loop s n (drop k ptr) errno (sent ++ take k ptr)
      | WFail e :: s => if e =? EINTR then writen_loop s n ptr e sent else (CSF_ERR, sent, e, s)
      end
  end.

Definition writen (ptr : list ascii) (script : list wres) (errno : Z) : Z * list ascii * Z * list wres :=
  writen_loop script (length ptr) ptr errno [].

(** The characters that end a line: a newline, or CTRL+C. *)
Definition ends_line (c : ascii) : bool := bool_decide (c = LF) || bool_decide (c = chr 3).

(** [readline]: [k] is the number of rounds left, [n] the counter of the loop;
    the result, the characters stored, [errno] and the input left. *)
Fixpoint readline_loop (k n : nat) (q : list rres) (errno : Z) (line : list ascii)
  : Z * list ascii * Z * list rres :=
  match k with
  | O => (Z.of_nat n, line, errno, q)
  | S k' =>
      match sys_read 1 q with
      | (inl (c :: _), q') =>
          if ends_line c then (Z.of_nat n, line ++ [c], errno, q')
          else readline_loop k' (S n) q' errno (line ++ [c])
      | (inl [], q') => (if Nat.eqb n 1 then CSF_OK else Z.of_nat n, line, errno, q')
      | (inr e, q') => (CSF_ERR, line, e, q')
      end
  end.

Definition readline (maxlen : nat) (q : list rres) (errno : Z) : Z * list ascii * Z * list rres :=
  readline_loop (maxlen - 1) 1 q errno [].

(** * Writing *)

Section writen_facts.

(** What a script of writes lets through: all, unless a write fails. *)
Lemma writen_loop_prefix script n ptr errno sent :
  let '(rv, out, _, _) := writen_loop script n ptr errno sent in
  exists done_ rest, out = sent ++ done_ /\ ptr = done_ ++ rest /\
    ((rv = Z.of_nat n /\ rest = []) \/ (rv = CSF_ERR /\ rest <> [])).
Proof.
  revert ptr errno sent; induction script as [|[[|k]|e] s IH]; intros ptr errno sent;
    (destruct ptr as [|c ptr]; [exists [], []; rewrite !app_nil_r; naive_solver|]); cbn [writen_loop].
  - exists (c :: ptr), []. rewrite app_nil_r. naive_solver.
  - destruct (errno =? EINTR); [apply IH|]. exists [], (c :: ptr). rewrite app_nil_r. naive_solver.
  - specialize (IH (drop (S k) (c :: ptr)) errno (sent ++ take (S k) (c :: ptr))).
    destruct writen_loop as [[[rv out] e'] s'] eqn:E. destruct IH as (d & r & -> & Er & H).
    exists (take (S k) (c :: ptr) ++ d), r. rewrite <-!app_assoc, <-Er, take_drop. done.
  - destruct (e =? EINTR); [apply IH|]. exists [], (c :: ptr). rewrite app_nil_r. naive_solver.
Qed.

(** Outcomes that [writen] survives: partial writes and interruptions. *)
Definition benign (r : wres) : Prop := match r with WTook k => k <> O | WFail e => e = EINTR end.

#[export] Instance benign_dec r : Decision (benign r).
Proof. destruct r; cbn; apply _. Defined.

Lemma writen_loop_benign script n ptr errno sent : Forall benign script ->
  exists e' s', writen_loop script n ptr errno sent = (Z.of_nat n, sent ++ ptr, e', s') /\ Forall benign s'.
Proof.
  intros Hs. revert ptr errno sent; induction Hs as [|r s Hr Hs IH]; intros ptr errno sent;
    (destruct ptr as [|c ptr]; [rewrite app_nil_r; eauto|]); [cbn; eauto|].
  destruct r as [[|k]|e]; cbn in Hr; [done| |subst e].
  - cbn [writen_loop]. destruct (IH (drop (S k) (c :: ptr)) errno (sent ++ take (S k) (c :: ptr))) as (e' & s' & E & H').
    rewrite E, <-app_assoc, take_drop. eauto.
  - apply IH.
Qed.

Lemma writen_benign ptr script errno : Forall benign script ->
  exists e' s', writen ptr script errno = (Z.of_nat (length ptr), ptr, e', s') /\ Forall benign s'.
Proof. intros H. destruct (writen_loop_benign script (length ptr) ptr errno [] H) as (e' & s' & E & H'). eauto. Qed.

End writen_facts.



(** * Reading *)

(** The bytes of an input without errors, and whether it has an error. *)
Definition no_errors (q : list rres) : Prop := Forall (fun r => match r with RGot l => l <> [] | RFail _ => False end) q.

#[export] Instance no_errors_dec q : Decision (no_errors q).
Proof. apply list.Forall_dec. intros []; apply _. Defined.

Definition bytes (q : list rres) : list ascii := q ≫= fun r => match r with RGot l => l | RFail _ => [] end.

Lemma sys_read_bytes n q : no_errors q -> (0 < n)%nat ->
  exists l q', sys_read n q = (inl l, q') /\ no_errors q' /\ bytes q = l ++ bytes q' /\ (length l <= n)%nat /\
    (l = [] <-> bytes q = []) /\ (length q' < length q \/ length l = n \/ q = [])%nat.
Proof.
  intros Hq Hn. destruct Hq as [|[l|e] q Hr Hq]; cbn [sys_read]; [| |done].
  { exists [], []. split_and!; cbn; try done; [constructor|lia|naive_solver]. }
  exists (take n l), (match drop n l with [] => q | r => RGot r :: q end).
  assert (Hb : bytes (match drop n l with [] => q | r => RGot r :: q end) = drop n l ++ bytes q) by (by destruct (drop n l)).
  split_and!; [done| | | | |].
  - destruct (drop n l) eqn:E; [done|]. by constructor.
  - rewrite Hb. cbn. rewrite app_assoc, take_drop. done.
  - rewrite length_take. lia.
  - destruct n, l; cbn; naive_solver lia.
  - destruct (drop n l) eqn:E; [left; cbn; lia|]. right. left. rewrite length_take.
    apply (f_equal length) in E. rewrite length_drop in E. cbn in E. lia.
Qed.

Lemma readn_loop_ok fuel n nleft q errno got :
  no_errors q -> (nleft <= n)%nat -> (length q < fuel)%nat ->
  exists rv q', readn_loop fuel n nleft q errno got = Some (Z.of_nat rv, got ++ take nleft (bytes q), errno, q') /\
    rv = (n - nleft + length (take nleft (bytes q)))%nat /\ bytes q' = drop nleft (bytes q) /\ no_errors q'.
Proof.
  revert nleft q got; induction fuel as [|fuel IH]; intros nleft q got Hq Hle Hf; [lia|].
  destruct nleft as [|m]; cbn [readn_loop].
  { exists n, q. rewrite take_0, app_nil_r, drop_0. cbn [length]. split_and!; [done|lia|done|done]. }
  destruct (sys_read_bytes (S m) q Hq ltac:(lia)) as (l & q' & E & Hq' & Hb & Hl & He & Hd). rewrite E.
  destruct l as [|c l].
  - pose proof (proj1 He eq_refl) as H0. exists (n - S m)%nat, q'. rewrite H0 in *. cbn.
    rewrite app_nil_r. split_and!; [done|lia|done|done].
  - destruct Hd as [Hd|[Hd|Hd]]; [| |subst q; by rewrite (proj2 He eq_refl) in Hb].
    + destruct (IH (S m - length (c :: l))%nat q' (got ++ (c :: l)) Hq' ltac:(cbn; lia) ltac:(lia))
        as (rv & q2 & E2 & Hrv & Hb2 & Hq2).
      exists rv, q2. rewrite E2, Hb, !take_app_ge, !drop_app_ge, <-app_assoc by lia.
      split_and!; [done| |done|done]. rewrite Hrv, length_app. cbn in Hl |- *. lia.
    + rewrite Hd, Nat.sub_diag. destruct fuel; cbn [readn_loop];
        (exists n, q'; rewrite Hb, !take_app_length', drop_app_length' by done;
         split_and!; [done|lia|done|done]).
Qed.

(** [readn] with an input that arrives in any segments returns and stores the
    first [n] bytes, or all of them and their number when the peer closes before;
    the rest of the input is left for the next read. *)
Theorem readn_correct n q errno : no_errors q ->
  exists q', readn n q errno = Some (Z.of_nat (length (take n (bytes q))), take n (bytes q), errno, q') /\
    bytes q' = drop n (bytes q).
Proof.
  intros Hq. destruct (readn_loop_ok (S (length q)) n n q errno [] Hq ltac:(lia) ltac:(lia)) as (rv & q' & E & -> & Hb & _).
  exists q'. unfold readn. rewrite E. split; [|done]. by rewrite Nat.sub_diag.
Qed.

Lemma readn_correct_witness :
  exists q', readn 4 [RGot (L"ab"); RGot (L"cdef")] 0 = Some (4, L"abcd", 0, q') /\ bytes q' = L"ef".
Proof.
  refine (readn_correct 4 [RGot (L"ab"); RGot (L"cdef")] 0 _). apply (bool_decide_unpack _). vm_compute. exact I.
Defined.

(** The first line of a text, at most [k] characters of it: the line, whether it
    is complete, and the rest. *)
Fixpoint first_line (k : nat) (s : list ascii) : list ascii * bool * list ascii :=
  match k, s with
  | S k', c :: s' =>
      if ends_line c then ([c], true, s')
      else let '(l, b, r) := first_line k' s' in (c :: l, b, r)
  | _, _ => ([], false, s)
  end.

Lemma first_line_split k s : let '(l, b, r) := first_line k s in
  s = l ++ r /\ (length l <= k)%nat /\ (b = true -> l <> []) /\ (b = false -> length l = k \/ r = []).
Proof.
  revert s; induction k as [|k IH]; intros [|c s]; cbn; try (split_and!; naive_solver lia).
  destruct (ends_line c); [split_and!; cbn; naive_solver lia|]. specialize (IH s).
  destruct (first_line k s) as [[l b] r]. destruct IH as (-> & Hl & Hb & Hr). split_and!; cbn; try done; [lia|].
  intros E. destruct (Hr E); [left; lia|by right].
Qed.

Lemma readline_loop_ok k n q errno line : no_errors q -> (1 <= n)%nat ->
  exists q', bytes q' = (first_line k (bytes q)).2 /\ no_errors q' /\
    readline_loop k n q errno line =
      let '(l, b, r) := first_line k (bytes q) in
      (if (Nat.eqb n 1 && negb (Nat.eqb k 0) && bool_decide (bytes q = []))%bool then CSF_OK
       else Z.of_nat (n + length l - (if b then 1 else 0)), line ++ l, errno, q').
Proof.
  revert n q line; induction k as [|k IH]; intros n q line Hq Hn.
  { exists q. cbn. rewrite app_nil_r, andb_false_r. cbn. split_and!; [done|done|]. do 3 f_equal. lia. }
  cbn [readline_loop]. destruct (sys_read_bytes 1 q Hq ltac:(lia)) as (l & q' & E & Hq' & Hb & Hl & He & Hd). rewrite E.
  destruct l as [|c [|]]; [| |cbn in Hl; lia].
  - pose proof (proj1 He eq_refl) as H0. exists q'. rewrite H0 in *. cbn -[Nat.eqb]. rewrite app_nil_r.
    split_and!; [done|done|]. destruct (Nat.eqb n 1); cbn; do 3 f_equal. lia.
  - rewrite Hb. cbn [app first_line]. rewrite bool_decide_eq_false_2, andb_false_r by done. destruct (ends_line c).
    + exists q'. split_and!; [done|done|]. cbn. do 3 f_equal. lia.
    + destruct (IH (S n) q' (line ++ [c]) Hq' ltac:(lia)) as (q2 & Hb2 & Hq2 & ->). exists q2.
      destruct (first_line k (bytes q')) as [[l b] r] eqn:El. cbn in Hb2 |- *. split_and!; [done|done|].
      rewrite <-app_assoc. destruct n; [lia|]. cbn. do 3 f_equal. destruct b; lia.
Qed.

(** C32: [readline] with an input that arrives in any segments ends and stores the
    first line, terminator included, cut to [maxlen - 1] characters, and leaves
    the rest of the input; the stored line and the NUL after it always fit the
    [maxlen] bytes. The result is 0 exactly when the peer closed before any
    character, it is the number of characters for a complete line, and one more
    than it for a line that was cut or ended by the close. *)
Theorem readline_correct maxlen q errno : no_errors q -> (1 < maxlen)%nat ->
  let '(l, complete, rest) := first_line (maxlen - 1) (bytes q) in
  exists q' rv, readline maxlen q errno = (rv, l, errno, q') /\ bytes q' = rest /\
    (length l + 1 <= maxlen)%nat /\ (rv = 0 <-> bytes q = []) /\
    (complete = true -> rv = Z.of_nat (length l)) /\
    (complete = false -> bytes q <> [] -> rv = Z.of_nat (length l) + 1).
Proof.
  intros Hq Hm. destruct (readline_loop_ok (maxlen - 1) 1 q errno [] Hq ltac:(lia)) as (q' & Hb & _ & E).
  pose proof (first_line_split (maxlen - 1) (bytes q)) as Hs.
  destruct (first_line (maxlen - 1) (bytes q)) as [[l b] r]. destruct Hs as (Hl & Hle & Hb1 & Hb2).
  eexists q', _. unfold readline. rewrite E. split; [done|].
  replace (Nat.eqb (maxlen - 1) 0) with false by (symmetry; apply Nat.eqb_neq; lia).
  cbn [Nat.eqb negb andb]. unfold CSF_OK. case_bool_decide as H0.
  - rewrite H0 in Hl. symmetry in Hl. apply app_eq_nil in Hl as [-> ->]. split_and!; try done. cbn; lia.
  - split_and!; [done|lia| | |].
    + split; [|done]. destruct b; [|lia]. destruct l; [by destruct Hb1|]. cbn [length]. lia.
    + intros ->. lia.
    + intros -> _. lia.
Qed.

Lemma readline_correct_witness :
  exists q' rv, readline 200 [RGot (L"st"); RGot (L"at" ++ [LF] ++ L"li")] 0 = (rv, L"stat" ++ [LF], 0, q') /\
    bytes q' = L"li" /\ rv = 5.
Proof.
  pose proof (readline_correct 200 [RGot (L"st"); RGot (L"at" ++ [LF] ++ L"li")] 0) as H.
  destruct H as (q' & rv & H1 & H2 & _ & _ & H3 & _).
  - apply (bool_decide_unpack _). vm_compute. exact I.
  - lia.
  - exists q', rv. exact (conj H1 (conj H2 (H3 eq_refl))).
Defined.
