(* ===== verification/Monitor.v ===== *)
(** The monitor: src/csf/monitor.c. Modules register variables with it; clients
    connect to its port and ask for their values. The registered variables are
    nodes of a singly-linked list (Slist), the bytes a client sends and receives go
    through NetIo. The memory the variables live in is a parameter of the commands
    that read it. *)

From S2P Require Import Prelude CString Dictionary IniParser ConfParser Format Slist NetIo.

Definition MAX_OPEN_FD : nat := 10.
Definition MAX_STR_LEN : nat := 512.
Definition DEFAULT_BINDIP : cstr := L"0.0.0.0".
Definition MNT_DEF_PORT : Z := 22222.
Definition CMD_BUF_SIZE : nat := 200.
Definition MAX_FIELD_LENGTH : nat := 21.

Definition MNT_UINT_64 : Z := 0x1.
Definition MNT_INT_64 : Z := 0x2.
Definition MNT_UINT_32 : Z := 0x4.
Definition MNT_INT_32 : Z := 0x8.
Definition MNT_UINT : Z := 0x10.
Definition MNT_INT : Z := 0x20.
Definition MNT_CHAR : Z := 0x40.
Definition MNT_STRING : Z := 0x80.
Definition MNT_FLOAT : Z := 0x100.
Definition MNT_DOUBLE : Z := 0x200.
Definition MNT_GROUP_STAT : Z := 0x400.
Definition MNT_DISREG : Z := -1.

(** The events of [poll] on Linux. *)
Definition POLLRDNORM : Z := 0x40.
Definition POLLERR : Z := 0x8.

(** * State *)

(** [VAR_NODE] without its link. *)
Record VAR_NODE : Type := mk_var {
  item_name : cstr;
  so_name : cstr;
  val : option nat;
  opt : Z
}.

(** The variables of the file, the memory of the list and its nodes, and the
    system: the coming results of [malloc], [write], [read] and [accept], what the
    clients have received, the descriptors closed so far and the sockets that
    listen. *)
Record mon : Type := mk_mon {
  monitor_head : option nat;
  mlists : sl_mem;
  nodes : gmap nat VAR_NODE;
  mon_next : nat;
  switch_monitor_run : Z;
  mnt_fd : Z;
  monitor_port : Z;
  monitor_enable : Z;
  monitor_bind_ip : cstr;
  errno : Z;
  mallocs : list bool;
  writes : list wres;
  reads : Z -> list rres;
  accepts : list Z;
  wire : list (Z * list ascii);
  closed : list Z;
  listening : list (Z * Z * cstr)
}.

Definition set_list (h : option nat) (m : sl_mem) (ns : gmap nat VAR_NODE) (next : nat) (w : mon) : mon :=
  mk_mon h m ns next (switch_monitor_run w) (mnt_fd w) (monitor_port w) (monitor_enable w) (monitor_bind_ip w)
    (errno w) (mallocs w) (writes w) (reads w) (accepts w) (wire w) (closed w) (listening w).

Definition set_conf (port enable : Z) (ip : cstr) (w : mon) : mon :=
  mk_mon (monitor_head w) (mlists w) (nodes w) (mon_next w) (switch_monitor_run w) (mnt_fd w) port enable ip
    (errno w) (mallocs w) (writes w) (reads w) (accepts w) (wire w) (closed w) (listening w).

Definition set_switch (b : Z) (w : mon) : mon :=
  mk_mon (monitor_head w) (mlists w) (nodes w) (mon_next w) b (mnt_fd w) (monitor_port w) (monitor_enable w)
    (monitor_bind_ip w) (errno w) (mallocs w) (writes w) (reads w) (accepts w) (wire w) (closed w) (listening w).

Definition set_mnt_fd (fd : Z) (w : mon) : mon :=
  mk_mon (monitor_head w) (mlists w) (nodes w) (mon_next w) (switch_monitor_run w) fd (monitor_port w) (monitor_enable w)
    (monitor_bind_ip w) (errno w) (mallocs w) (writes w) (reads w) (accepts w) (wire w) (closed w) (listening w).

Definition set_mallocs (o : list bool) (w : mon) : mon :=
  mk_mon (monitor_head w) (mlists w) (nodes w) (mon_next w) (switch_monitor_run w) (mnt_fd w) (monitor_port w)
    (monitor_enable w) (monitor_bind_ip w) (errno w) o (writes w) (reads w) (accepts w) (wire w) (closed w) (listening w).

(** The part of the state that input and output change. *)
Definition set_io (e : Z) (ws : list wres) (rs : Z -> list rres) (acc : list Z) (out : list (Z * list ascii))
  (cl : list Z) (ls : list (Z * Z * cstr)) (w : mon) : mon :=
  mk_mon (monitor_head w) (mlists w) (nodes w) (mon_next w) (switch_monitor_run w) (mnt_fd w) (monitor_port w)
    (monitor_enable w) (monitor_bind_ip w) e (mallocs w) ws rs acc out cl ls.

(** [close]. *)
Definition close (fd : Z) (w : mon) : mon :=
  set_io (errno w) (writes w) (reads w) (accepts w) (wire w) (closed w ++ [fd]) (listening w) w.

(** [writen (fd, ...)] in the state. *)
Definition do_writen (fd : Z) (s : list ascii) (w : mon) : Z * mon :=
  let '(rv, out, e, ws) := writen s (writes w) (errno w) in
  (rv, set_io e ws (reads w) (accepts w) (wire w ++ [(fd, out)]) (closed w) (listening w) w).

(** What the client of a descriptor has received. *)
Definition received (fd : Z) (w : mon) : list ascii :=
  wire w ≫= fun p => if decide (p.1 = fd) then p.2 else [].

(** [malloc] and computations that allocate. *)
Definition with_alloc {A} (m : Alloc A) (w : mon) : option (A * mon) :=
  '(a, o) ← m (mallocs w); Some (a, set_mallocs o w).

(** * Registration *)

(** [add_node]: the address of the new node. *)
Definition add_node (item : cstr) (v : option nat) (so : cstr) (option_ : Z) (w : mon) : option (option nat * mon) :=
  '(ok, w) ← with_alloc allocate w;
  if (ok : bool) then
    let p := mon_next w in
    let n := mk_var (strlcpy_str MAX_FIELD_LENGTH item) (strlcpy_str MAX_FIELD_LENGTH so) v option_ in
    h ← monitor_head w;
    m ← SLIST_INSERT_HEAD h p (mlists w);
    Some (Some p, set_list (Some h) m (<[p:=n]> (nodes w)) (S p) w)
  else Some (None, w).

(** SLIST_REMOVE of a node and [free]. *)
Definition unlink_node (h t : nat) (w : mon) : option mon :=
  m ← SLIST_REMOVE h t (mlists w);
  Some (set_list (Some h) (free_elem t m) (delete t (nodes w)) (mon_next w) w).

(** The body of the loop of [remove_node]. *)
Definition remove_body (v : option nat) (h : nat) (t : nat) (w : mon) : option mon :=
  n ← nodes w !! t;
  if bool_decide (val n = v) || bool_decide (v = None) then unlink_node h t w else Some w.

(** [remove_node]. *)
Definition remove_node (v : option nat) (w : mon) : option mon :=
  h ← monitor_head w;
  SLIST_FOREACH_SAFE mlists (remove_body v h) h w.

(** [register_stat_int]. *)
Definition register_stat_int (so item : option cstr) (option_ : Z) (v : option nat) (w : mon) : option mon :=
  if monitor_enable w =? 0 then Some w
  else
    match item, v, so with
    | Some i, Some _, Some s =>
        if 0 <=? option_ then '(_, w') ← add_node i v s option_ w; Some w'
        else if option_ =? MNT_DISREG then remove_node v w else Some w
    | _, _, _ => if option_ =? MNT_DISREG then remove_node v w else Some w
    end.

(** * Values *)

(** The little-endian number in a block, and its reading as a signed number. *)
Definition le (l : buffer) : Z := foldr (fun c z => uchar c + 256 * z) 0 l.

Definition signed (w z : Z) : Z := if z <? 2 ^ (w - 1) then z else z - 2 ^ w.

(** [strstr (hay, needle) != NULL]. *)
Fixpoint strstr (hay needle : cstr) : bool :=
  bool_decide (needle `prefix_of` hay) || match hay with [] => false | _ :: hay' => strstr hay' needle end.

(** * Commands *)

(** [COMMAND_CONTEXT]; the array of connections is the list of its descriptors. *)
Record COMMAND_CONTEXT : Type := mk_ctx {
  command : cstr;
  listenfd : Z;
  connfd : Z;
  all_connfd : list Z;
  all_connfd_len : nat
}.

(** What "stat" takes from its command: the items asked for and those excepted. *)
Definition fmt_e_opt : list directive :=
  [Scan (neqc "-"%char); Lit "-"%char; Lit "e"%char; Ws; Scan (fun c => negb (isspace c))].
Definition fmt_arg : list directive :=
  [Lit "s"%char; Lit "t"%char; Lit "a"%char; Lit "t"%char; Scan (neqc "-"%char)].

Definition stat_e_opt (command : cstr) : cstr := match sscanf fmt_e_opt command with _ :: s :: _ => s | _ => [] end.
Definition stat_arg (command : cstr) : cstr := match sscanf fmt_arg command with s :: _ => s | [] => [] end.

(** Whether "stat" shows a node. *)
Definition stat_shows (command : cstr) (n : VAR_NODE) : bool :=
  if strstr (stat_arg command) (L"all") || Nat.eqb (length (stat_arg command)) 1
  then negb (strstr (stat_e_opt command) (so_name n))
  else negb (negb (strstr (stat_arg command) (so_name n)) || strstr (stat_e_opt command) (so_name n)).

Definition has (n : VAR_NODE) (flag : Z) : bool := Z.land (opt n) flag =? flag.

Section commands.
(** What the memory holds from an address on. *)
Context (ram : nat -> buffer).

(** The [size] bytes a pointer points to. *)
Definition peek (v : option nat) (size : nat) : option buffer :=
  a ← v; if decide (size <= length (ram a))%nat then Some (take size (ram a)) else None.

(** The string a pointer points to. *)
Definition peek_str (v : option nat) : option cstr :=
  a ← v; _ ← strlen (ram a); Some (strz (ram a)).

(** The text of the value of a node, by the first type flag that is set. *)
Definition stat_value (n : VAR_NODE) : option cstr :=
  if has n MNT_UINT_64 then (fun b => fmt_ju (le b)) <$> peek (val n) 8
  else if has n MNT_INT_64 then (fun b => fmt_jd (signed 64 (le b))) <$> peek (val n) 8
  else if has n MNT_UINT_32 then (fun b => fmt_ju (le b)) <$> peek (val n) 4
  else if has n MNT_INT_32 then (fun b => fmt_jd (signed 32 (le b))) <$> peek (val n) 4
  else if has n MNT_UINT then (fun b => fmt_ju (le b)) <$> peek (val n) 4
  else if has n MNT_INT then (fun b => fmt_jd (signed 32 (le b))) <$> peek (val n) 4
  else if has n MNT_CHAR then peek (val n) 1
  else if has n MNT_STRING then peek_str (val n)
  else if has n MNT_FLOAT then (fun b => fmt_f 23 8 (le b)) <$> peek (val n) 4
  else if has n MNT_DOUBLE then (fun b => fmt_f 52 11 (le b)) <$> peek (val n) 8
  else Some (L"*TYPE INVALID*").

(** Whether a type flag is set at all. *)
Definition typed (n : VAR_NODE) : bool :=
  existsb (has n) [MNT_UINT_64; MNT_INT_64; MNT_UINT_32; MNT_INT_32; MNT_UINT; MNT_INT; MNT_CHAR; MNT_STRING;
                   MNT_FLOAT; MNT_DOUBLE].

(** The record of a node: what [snprintf] leaves in [buf], up to its terminator. *)
Definition stat_record (n : VAR_NODE) : option cstr :=
  v ← stat_value n;
  let fin := if typed n && has n MNT_GROUP_STAT then L"##|" else L"|" in
  Some (strz (take (CMD_BUF_SIZE - 1) (item_name n ++ L"," ++ v ++ L"," ++ so_name n ++ fin))).

(** The body of the loop of [cmd_stat]. *)
Definition stat_body (cmd_ctxt : COMMAND_CONTEXT) (t_node : nat) (w : mon) : option mon :=
  n ← nodes w !! t_node;
  if stat_shows (command cmd_ctxt) n
  then buf ← stat_record n; Some (do_writen (connfd cmd_ctxt) buf w).2
  else Some w.

Definition CRLF : cstr := [CR; LF].

(** [cmd_stat]. *)
Definition cmd_stat (cmd_ctxt : COMMAND_CONTEXT) (w : mon) : option mon :=
  h ← monitor_head w;
  w ← SLIST_FOREACH mlists (stat_body cmd_ctxt) h w;
  Some (do_writen (connfd cmd_ctxt) (CRLF ++ CRLF) w).2.

(** [cmd_list]. *)
Definition list_record (n : VAR_NODE) : cstr := strz (take (CMD_BUF_SIZE - 1) (so_name n ++ L"," ++ item_name n ++ L"|")).

Definition list_body (cmd_ctxt : COMMAND_CONTEXT) (t_node : nat) (w : mon) : option mon :=
  n ← nodes w !! t_node;
  Some (do_writen (connfd cmd_ctxt) (list_record n) w).2.

Definition cmd_list (cmd_ctxt : COMMAND_CONTEXT) (w : mon) : option mon :=
  h ← monitor_head w;
  w ← SLIST_FOREACH mlists (list_body cmd_ctxt) h w;
  Some (do_writen (connfd cmd_ctxt) (CRLF ++ CRLF) w).2.

Definition TAB : ascii := chr 9.

(** [cmd_help]. *)
Definition help_text : cstr :=
  L"Welcome!" ++ CRLF ++ L" " ++ CRLF ++
  L"  stat" ++ [TAB; TAB] ++ L"Watch the registered variables. Type Enter to quit." ++ CRLF ++ L" " ++ CRLF ++
  [TAB] ++ L"stat item1,...,itemN [-e item1,...,itemN]" ++ CRLF ++ [TAB] ++ L"item: items you want to monitor." ++ CRLF ++
  [TAB] ++ L"-e: excepet the items specified in the parameter." ++ CRLF ++ L" " ++ CRLF ++
  L"  help" ++ [TAB; TAB] ++ L"For help." ++ CRLF ++
  L"  list" ++ [TAB; TAB] ++ L"List the module loaded." ++ CRLF ++
  L"  stop" ++ [TAB; TAB] ++ L"To stop the monitor service. And you CAN NOT connect again!" ++ CRLF.

Definition cmd_help (cmd_ctxt : COMMAND_CONTEXT) (w : mon) : option mon :=
  Some (do_writen (connfd cmd_ctxt) help_text w).2.

(** The loop of [cmd_stop] over the connections; [beyond] is the number in the
    memory that follows the array, which the last round reads. *)
Definition stop_close (beyond : Z) (cmd_ctxt : COMMAND_CONTEXT) (w : mon) : mon :=
  foldl (fun w i =>
           let acceptfd := default beyond (all_connfd cmd_ctxt !! i) in
           if acceptfd <? 0 then w else close acceptfd w)
        w (seq 0 (S (all_connfd_len cmd_ctxt))).

(** [cmd_stop]. *)
Definition cmd_stop (beyond : Z) (cmd_ctxt : COMMAND_CONTEXT) (w : mon) : option mon :=
  let w := stop_close beyond cmd_ctxt (close (listenfd cmd_ctxt) w) in
  h ← monitor_head w;
  w ← SLIST_FOREACH_SAFE mlists (unlink_node h) h w;
  Some (set_switch 0 w).

(** [cmd_empty]. *)
Definition cmd_empty (cmd_ctxt : COMMAND_CONTEXT) (w : mon) : option mon :=
  Some (do_writen (connfd cmd_ctxt) CRLF w).2.

(** [cmd_func_array]. *)
Definition cmd_func_array (beyond : Z) : list (cstr * (COMMAND_CONTEXT -> mon -> option mon)) :=
  [(L"stat", cmd_stat); (L"help", cmd_help); (L"stop", cmd_stop beyond); (L"list", cmd_list); (L"empty", cmd_empty)].

(** The loop of [command_distribute]. *)
Fixpoint distribute_loop (table : list (cstr * (COMMAND_CONTEXT -> mon -> option mon))) (cmd_ctxt : COMMAND_CONTEXT)
  (w : mon) : option mon :=
  match table with
  | [] => Some w
  | (name, func_ptr) :: table' =>
      if strncmp (length name) (command cmd_ctxt) name =? 0 then func_ptr cmd_ctxt w
      else
        let w := match table' with
                 | [] => (do_writen (connfd cmd_ctxt) (L"Command not found." ++ CRLF ++ CRLF) w).2
                 | _ => w
                 end in
        distribute_loop table' cmd_ctxt w
  end.

Definition command_distribute (beyond : Z) (cmd_ctxt : COMMAND_CONTEXT) (w : mon) : option mon :=
  distribute_loop (cmd_func_array beyond) cmd_ctxt w.

End commands.

(** * Connections *)

(** An entry of [fd_array]; [revents] is not set before the first [poll]. *)
Record pollfd : Type := mk_pollfd { fd : Z; revents : option Z }.

Definition set_fd (i : nat) (f : Z) (a : list pollfd) : list pollfd := alter (fun p => mk_pollfd f (revents p)) i a.

(** The result of a [poll]: the number of ready entries and the events of every
    entry, or a failure that leaves the events as they were. *)
Inductive poll_result : Type :=
| Ready (nready : Z) (events : list Z)
| PollFailed.

Definition apply_poll (p : poll_result) (a : list pollfd) : Z * list pollfd :=
  match p with
  | Ready n evs => (n, zip_with (fun e ev => mk_pollfd (fd e) (Some ev)) a evs)
  | PollFailed => (-1, a)
  end.

(** [unix_accept]. *)
Definition unix_accept (w : mon) : Z * mon :=
  (default (-1) (head (accepts w)),
   set_io (errno w) (writes w) (reads w) (tail (accepts w)) (wire w) (closed w) (listening w) w).

(** The first entry of the array without a connection. *)
Fixpoint free_slot (i : nat) (a : list pollfd) : option nat :=
  match a with
  | [] => None
  | p :: a' => if fd p <? 0 then Some i else free_slot (S i) a'
  end.

(** [accept_new_client]. The message of a refused client formats the descriptor
    with %s: [wlog] is whether WLOG_INFO formats messages (a build with DEBUG_ whose
    logger is initialised), in which case the call reads memory at that address. *)
Definition accept_new_client (wlog : bool) (a : list pollfd) (w : mon) : option (Z * list pollfd * mon) :=
  let '(c, w) := unix_accept w in
  if c <? 0 then Some (CSF_ERR, a, w)
  else
    match free_slot 0 a with
    | Some i => Some (c, set_fd i c a, w)
    | None => if wlog then None else Some (CSF_ERR, a, close c w)
    end.

Section loop.
Context (wlog : bool) (ram : nat -> buffer) (beyond : Z) (ver ctime : cstr).

Definition welcome : cstr :=
  take (MAX_STR_LEN - 1)
    (L"CSF Monitor. Type " ++ [QUOTE] ++ L"help" ++ [QUOTE] ++ L" for help." ++ CRLF ++
     L"Press " ++ [QUOTE] ++ L"CTRL+C" ++ [QUOTE] ++ L" to quit." ++ CRLF ++
     ver ++ L"CSF start time: " ++ ctime ++ CRLF).

(** [show_welcome]. *)
Definition show_welcome (io : Z) (w : mon) : mon := (do_writen io welcome w).2.

(** [readline (fd, ibuf, CMD_BUF_SIZE)] in the state. *)
Definition do_readline (f : Z) (w : mon) : Z * cstr * mon :=
  let '(n, line, e, q) := readline CMD_BUF_SIZE (reads w f) (errno w) in
  (n, line, set_io e (writes w) (fun g => if decide (g = f) then q else reads w g) (accepts w) (wire w) (closed w)
              (listening w) w).

(** The body of the loop of [monitor_start] over the clients: entry [i], when the
    last accepted connection is [conn]. *)
Definition serve (lfd conn : Z) (i : nat) (s : list pollfd * mon) : option (list pollfd * mon) :=
  let '(a, w) := s in
  p ← a !! i;
  if fd p <? 0 then Some s
  else
    ev ← revents p;
    if Z.land ev (Z.lor POLLRDNORM POLLERR) =? 0 then Some s
    else
      let '(n, ibuf, w) := do_readline (fd p) w in
      if n <? 0 then
        if errno w =? ECONNRESET then Some (set_fd i (-1) a, close conn w) else Some (a, w)
      else if n =? 0 then Some (set_fd i (-1) a, close conn w)
      else
        w ← command_distribute ram beyond (mk_ctx (strz ibuf) lfd (fd p) (fd <$> a) MAX_OPEN_FD) w;
        Some (a, w).

Fixpoint serve_all (lfd conn : Z) (is_ : list nat) (s : list pollfd * mon) : option (list pollfd * mon) :=
  match is_ with
  | [] => Some s
  | i :: is' => s' ← serve lfd conn i s; serve_all lfd conn is' s'
  end.

(** The variables of [monitor_start] between two rounds, and how a round ends. *)
Record loop_state : Type := mk_loop { conn : Z; fds : list pollfd; lworld : mon }.

Inductive round_result : Type :=
| Continue (s : loop_state)
| Return (w : mon).

(** The part of a round after the listening socket. *)
Definition clients_round (lfd : Z) (s : loop_state) : option round_result :=
  '(a, w) ← serve_all lfd (conn s) (seq 1 (MAX_OPEN_FD - 1)) (fds s, lworld s);
  Some (if switch_monitor_run w =? 0 then Return w else Continue (mk_loop (conn s) a w)).

(** A round of the loop of [monitor_start]. *)
Definition monitor_round (lfd : Z) (p : poll_result) (s : loop_state) : option round_result :=
  let '(nready, a) := apply_poll p (fds s) in
  p0 ← a !! 0%nat;
  ev ← revents p0;
  if negb (Z.land ev POLLRDNORM =? 0) then
    '(c, a, w) ← accept_new_client wlog a (lworld s);
    if c <? 0 then Some (Continue (mk_loop c a w))
    else
      let w := show_welcome c w in
      if nready - 1 <=? 0 then Some (Continue (mk_loop c a w))
      else clients_round lfd (mk_loop c a w)
  else clients_round lfd (mk_loop (conn s) a (lworld s)).

(** [monitor_start] for as long as [poll] returns the listed results. *)
Fixpoint monitor_loop (lfd : Z) (polls : list poll_result) (s : loop_state) : option round_result :=
  match polls with
  | [] => Some (Continue s)
  | p :: polls' =>
      r ← monitor_round lfd p s;
      match r with
      | Continue s' => monitor_loop lfd polls' s'
      | Return w => Some (Return w)
      end
  end.

Definition start_fds (lfd : Z) : list pollfd :=
  mk_pollfd lfd None :: replicate (MAX_OPEN_FD - 1) (mk_pollfd (-1) None).

Definition monitor_start (lfd : Z) (polls : list poll_result) (w : mon) : option round_result :=
  monitor_loop lfd polls (mk_loop (-1) (start_fds lfd) w).

(** [monitor_thread], whose signal mask concerns no other step. *)
Definition monitor_thread (polls : list poll_result) (w : mon) : option round_result := monitor_start (mnt_fd w) polls w.

End loop.

(** * Initialisation *)

(** The results of the system calls of [monitor_init]. *)
Record init_calls : Type := mk_calls {
  c_socket : Z;
  c_bind : Z;
  c_listen : Z;
  c_thread : Z
}.

(** [unix_listen]. *)
Definition unix_listen (k : init_calls) (port : Z) (ip : cstr) (w : mon) : Z * mon :=
  if c_socket k <? 0 then (CSF_ERR, w)
  else if c_bind k <? 0 then (CSF_ERR, close (c_socket k) w)
  else if c_listen k <? 0 then (CSF_ERR, close (c_socket k) w)
  else (c_socket k,
        set_io (errno w) (writes w) (reads w) (accepts w) (wire w) (closed w)
          (listening w ++ [(c_socket k, port, ip)]) w).

Definition monitor_conf_int (w : mon) : list CONF_INT_CONFIG :=
  [(L"monitor_port", monitor_port w); (L"monitor_enable", monitor_enable w)].

Definition monitor_conf_str (w : mon) : list CONF_STR_CONFIG := [(L"monitor_bind_ip", monitor_bind_ip w)].

Definition with_conf (ints : list CONF_INT_CONFIG) (strs : list CONF_STR_CONFIG) (w : mon) : mon :=
  match ints, strs with
  | [(_, p); (_, e)], [(_, ip)] => set_conf p e ip w
  | _, _ => w
  end.

Definition u16 (z : Z) : Z := z mod 2 ^ 16.

Section init.
Context (fs : cstr -> option cstr) (stray : ascii) (conf_file : cstr).

(** [monitor_init]; a handle is the head of another copy of the monitor. *)
Definition monitor_init (k : init_calls) (handle : option nat) (w : mon) : option (option nat * mon) :=
  let w := set_conf (monitor_port w) (monitor_enable w) [] w in
  match handle with
  | None =>
      '(r, w) ← with_alloc (load_conf fs stray conf_file None (Some (L"server")) (monitor_conf_int w) (monitor_conf_str w)) w;
      let '(rv, ints, strs) := r in
      let w := with_conf ints strs w in
      if negb (rv =? 0) || (monitor_enable w =? 0) then Some (None, w)
      else
        '(ok, w) ← with_alloc allocate w;
        if (ok : bool) then
          let h := mon_next w in
          let w := set_list (Some h) (SLIST_INIT h (mlists w)) (nodes w) (S h) w in
          let w := if monitor_port w <? 0 then set_conf MNT_DEF_PORT (monitor_enable w) (monitor_bind_ip w) w else w in
          let w := if bool_decide (monitor_bind_ip w = []) then set_conf (monitor_port w) (monitor_enable w) DEFAULT_BINDIP w else w in
          let '(lfd, w) := unix_listen k (u16 (monitor_port w)) (monitor_bind_ip w) w in
          if lfd <? 0 then Some (None, w)
          else
            let w := set_mnt_fd lfd w in
            if negb (c_thread k =? 0) then Some (None, w) else Some (monitor_head w, w)
        else Some (None, w)
  | Some h => let w := set_list (Some h) (mlists w) (nodes w) (mon_next w) w in Some (Some h, w)
  end.

End init.
