(* ===== verification/MonitorProps.v ===== *)
(** Theorems about the monitor of Monitor.v: the list of registered variables as
    an abstract list of nodes, the commands, the loop over the connections and the
    initialisation. *)

From S2P Require Import Prelude CString Dictionary IniParser ConfParser Format Slist NetIo Monitor.

(** * The registered variables *)

(** The part of the state that holds them. *)
Definition registry (w : mon) : option nat * sl_mem * gmap nat VAR_NODE * nat :=
  (monitor_head w, mlists w, nodes w, mon_next w).

(** The head [h] links the nodes at [addrs], which hold [l]; nothing else is
    allocated. *)
Record reg (w : mon) (h : nat) (addrs : list nat) (l : list VAR_NODE) : Prop := mk_reg {
  reg_head : monitor_head w = Some h;
  reg_list : slist (mlists w) h addrs;
  reg_nodes : Forall2 (fun a n => nodes w !! a = Some n) addrs l;
  reg_below : Forall (fun a => a < mon_next w)%nat addrs;
  reg_only : forall a, is_Some (nodes w !! a) \/ is_Some (sle_next (mlists w) !! a) -> a ∈ addrs
}.

(** [w'] differs from [w] in the list only. *)
Definition only_list (w w' : mon) : Prop :=
  w' = set_list (monitor_head w') (mlists w') (nodes w') (mon_next w') w.

Lemma only_list_refl w : only_list w w.
Proof. by destruct w. Qed.

Lemma only_list_trans w w' w'' : only_list w w' -> only_list w' w'' -> only_list w w''.
Proof. unfold only_list. intros -> ->. done. Qed.

Lemma only_list_set w h m ns k : only_list w (set_list h m ns k w).
Proof. done. Qed.

#[export] Hint Resolve only_list_refl only_list_set : csf.

Lemma reg_same w w' h addrs l : registry w' = registry w -> reg w h addrs l -> reg w' h addrs l.
Proof. intros [= H1 H2 H3 H4] []. split; rewrite ?H1, ?H2, ?H3, ?H4; done. Qed.

Lemma reg_lookup w h a1 t a2 l : reg w h (a1 ++ t :: a2) l ->
  exists l1 n l2, l = l1 ++ n :: l2 /\ length a1 = length l1 /\ nodes w !! t = Some n.
Proof.
  intros [_ _ Hn _ _]. apply Forall2_app_inv_l in Hn as (l1 & l2 & H1 & H2 & ->).
  inversion H2; subst. eauto 7 using Forall2_length.
Qed.

Lemma nodes_frame (ns ns' : gmap nat VAR_NODE) addrs l :
  (forall a, a ∈ addrs -> ns' !! a = ns !! a) ->
  Forall2 (fun a n => ns !! a = Some n) addrs l -> Forall2 (fun a n => ns' !! a = Some n) addrs l.
Proof.
  intros H. induction 1 as [|a n addrs l Ha _ IH]; constructor; [rewrite H; set_solver|].
  apply IH. intros; apply H; set_solver.
Qed.

(** Unlinking one node removes it from the abstract list and frees it. *)
Lemma unlink_node_ok w h a1 t a2 l1 n l2 :
  reg w h (a1 ++ t :: a2) (l1 ++ n :: l2) -> length a1 = length l1 ->
  exists w', unlink_node h t w = Some w' /\ reg w' h (a1 ++ a2) (l1 ++ l2) /\ only_list w w'.
Proof.
  intros [Hh Hs Hn Hb Ho] Hlen. unfold unlink_node.
  destruct (SLIST_REMOVE_ok _ _ _ _ _ Hs) as (m' & -> & Hs' & Hdom & _ & _). cbn [mbind option_bind].
  pose proof Hs as [Hnd _]. apply list.NoDup_app in Hnd as (_ & Hd & [Ht _]%list.NoDup_cons).
  assert (Hta : t ∉ a1 ++ a2) by set_solver.
  eexists. split; [done|]. split; [|done]. apply Forall2_app_inv in Hn as [H1 H2]; [|done]. inversion H2; subst.
  split; cbn [set_list monitor_head mlists nodes mon_next].
  - done.
  - by apply slist_free.
  - apply nodes_frame with (nodes w); [|by apply Forall2_app].
    intros a Ha. apply lookup_delete_ne. set_solver.
  - apply Forall_app in Hb as [? Hb]. inversion Hb; subst. by apply Forall_app.
  - intros a Ha. assert (a <> t /\ a ∈ a1 ++ t :: a2) as [? ?]; [|set_solver].
    destruct Ha as [[v Ha]|[v Ha]]; cbn in Ha; apply lookup_delete_Some in Ha as [? Ha]; (split; [done|]); apply Ho; [eauto|].
    right. apply elem_of_dom. rewrite <-Hdom. apply elem_of_dom. eauto.
Qed.

(** The loops of [remove_node] and [cmd_stop]: the nodes that satisfy [P] go. *)
Lemma remove_loop_ok (P : VAR_NODE -> bool) body w h addrs l :
  reg w h addrs l ->
  (forall t n w', nodes w' !! t = Some n -> body t w' = if P n then unlink_node h t w' else Some w') ->
  exists w' addrs', SLIST_FOREACH_SAFE mlists body h w = Some w' /\
    reg w' h addrs' (filter (fun n => P n = false) l) /\ only_list w w'.
Proof.
  intros Hr Hbody. unfold SLIST_FOREACH_SAFE. rewrite (SLIST_FIRST_ok _ _ _ (reg_list _ _ _ _ Hr)). cbn [mbind option_bind].
  set (I := fun (k : list nat) (s : mon) => exists kept dn todo, length kept = length (filter (fun n => P n = false) dn) /\
    l = dn ++ todo /\ reg s h (kept ++ k) (filter (fun n => P n = false) dn ++ todo) /\ only_list w s).
  destruct (foreach_safe_rule mlists body I (size (sle_next (mlists w))) addrs w) as (w' & E & kept & dn & todo & Hlen & El & Hr' & Ho').
  - intros t k s (kept & dn & todo & Hlen & El & Hr' & Ho'). split; [by eapply slist_NEXT, reg_list|].
    destruct (reg_lookup _ _ _ _ _ _ Hr') as (l1 & n & l2 & E2 & Hl1 & Hn).
    apply app_inj_1 in E2 as [<- ->]; [|congruence]. rewrite (Hbody t n s Hn). destruct (P n) eqn:EP.
    + destruct (unlink_node_ok _ _ _ _ _ _ _ _ Hr' Hl1) as (s' & E & Hr2 & Ho2). exists s'. split; [done|].
      exists kept, (dn ++ [n]), l2. rewrite list.filter_app, filter_cons, decide_False, app_nil_r, <-app_assoc by congruence.
      eauto 6 using only_list_trans.
    + exists s. split; [done|]. exists (kept ++ [t]), (dn ++ [n]), l2.
      rewrite list.filter_app, filter_cons, decide_True, !length_app, Hlen, <-!app_assoc by done. done.
  - exists [], [], l. split; [done|]. split; [done|]. split; [exact Hr|apply only_list_refl].
  - destruct (reg_list _ _ _ _ Hr) as (Hnd & p & Hp & Hl). by apply linked_size with p.
  - rewrite app_nil_r in Hr'. exists w', kept. split; [done|]. split; [|done].
    assert (todo = []) as ->; [|by rewrite app_nil_r in Hr', El; subst].
    pose proof (Forall2_length (reg_nodes _ _ _ _ Hr')) as HL. rewrite length_app, Hlen in HL.
    destruct todo; [done|cbn in HL; lia].
Qed.

(** What a registration call means on the abstract list. *)
Definition register_spec (enabled allocated : bool) (so item : option cstr) (option_ : Z) (v : option nat)
  (l : list VAR_NODE) : list VAR_NODE :=
  if negb enabled then l
  else
    match item, v, so, 0 <=? option_ with
    | Some i, Some _, Some s, true =>
        if allocated then mk_var (take 20 i) (take 20 s) v option_ :: l else l
    | _, _, _, _ =>
        if option_ =? -1 then filter (fun n => bool_decide (val n = v) || bool_decide (v = None) = false) l else l
    end.

Lemma add_node_ok w h addrs l item v so o :
  reg w h addrs l ->
  exists r w' addrs', add_node item v so o w = Some (r, w') /\
    reg w' h addrs' (if default true (head (mallocs w)) then mk_var (take 20 item) (take 20 so) v o :: l else l) /\
    only_list (set_mallocs (tail (mallocs w)) w) w'.
Proof.
  intros Hr. pose proof Hr as [Hh Hs Hn Hb Ho]. unfold add_node, with_alloc, allocate.
  assert (Hp : mon_next w ∉ addrs).
  { intros H. rewrite list.Forall_forall in Hb. apply Hb in H. lia. }
  assert (Hok : forall o', exists w' addrs', (h0 ← Some h; m ← SLIST_INSERT_HEAD h0 (mon_next w) (mlists w);
     Some (Some (mon_next w), set_list (Some h0) m
        (<[mon_next w:=mk_var (strlcpy_str MAX_FIELD_LENGTH item) (strlcpy_str MAX_FIELD_LENGTH so) v o]> (nodes w))
        (S (mon_next w)) (set_mallocs o' w))) = Some (Some (mon_next w), w') /\
     reg w' h addrs' (mk_var (take 20 item) (take 20 so) v o :: l) /\ only_list (set_mallocs o' w) w').
  { intros o'. cbn [mbind option_bind].
    destruct (SLIST_INSERT_HEAD_ok _ _ _ _ Hs Hp) as (m' & -> & Hs' & En & Ef). cbn [mbind option_bind].
    eexists _, (mon_next w :: addrs). split; [done|]. split; [|done].
    split; cbn [set_list monitor_head mlists nodes mon_next]; [done|done| | |].
    - constructor; [by rewrite lookup_insert_eq|]. apply nodes_frame with (nodes w); [|done].
      intros a Ha. apply lookup_insert_ne. set_solver.
    - constructor; [lia|]. eapply list.Forall_impl; [exact Hb|]. cbn. lia.
    - intros a Ha. rewrite En in Ha. destruct (decide (a = mon_next w)) as [->|Hne]; [by left|]. right.
      rewrite !lookup_insert_ne in Ha by done. by apply Ho. }
  destruct (mallocs w) as [|[] o'] eqn:Em; cbn [mbind option_bind].
  - destruct (Hok []) as (w' & addrs' & E & H). cbn [set_mallocs monitor_head mlists nodes mon_next] in *. rewrite Hh, E. eauto.
  - destruct (Hok o') as (w' & addrs' & E & H). cbn [set_mallocs monitor_head mlists nodes mon_next] in *. rewrite Hh, E. eauto.
  - exists None, (set_mallocs o' w), addrs. split; [done|]. split; [|apply only_list_refl].
    by apply (reg_same w).
Qed.

Lemma remove_node_ok w h addrs l v : reg w h addrs l ->
  exists w' addrs', remove_node v w = Some w' /\
    reg w' h addrs' (filter (fun n => bool_decide (val n = v) || bool_decide (v = None) = false) l) /\ only_list w w'.
Proof.
  intros Hr. unfold remove_node. rewrite (reg_head _ _ _ _ Hr). cbn [mbind option_bind].
  apply (remove_loop_ok (fun n => bool_decide (val n = v) || bool_decide (v = None)) _ _ _ addrs); [done|].
  intros t n w' Hn. unfold remove_body. by rewrite Hn.
Qed.

(** C28: The monitor keeps an abstract list of variables: registering prepends a
    node with the names cut to 20 characters (unless memory is short),
    disregistering removes every node of that variable, or all of them for NULL,
    any other call and any call on a disabled monitor does nothing; no call
    follows a stale pointer or leaks a node, and nothing but the list (and the
    allocator) changes. *)
Theorem register_stat_int_refines w h addrs l so item o v :
  reg w h addrs l ->
  exists w' addrs' ms, register_stat_int so item o v w = Some w' /\
    reg w' h addrs' (register_spec (negb (monitor_enable w =? 0)) (default true (head (mallocs w))) so item o v l) /\
    only_list (set_mallocs ms w) w'.
Proof.
  intros Hr. unfold register_stat_int, register_spec. destruct (monitor_enable w =? 0); cbn [negb].
  { exists w, addrs, (mallocs w). split_and!; [done|done|]. by destruct w. }
  assert (Hrm : exists w' addrs' ms, (if o =? MNT_DISREG then remove_node v w else Some w) = Some w' /\
    reg w' h addrs' (if o =? -1 then filter (fun n => bool_decide (val n = v) || bool_decide (v = None) = false) l else l) /\
    only_list (set_mallocs ms w) w').
  { change MNT_DISREG with (-1). destruct (o =? -1).
    - destruct (remove_node_ok w h addrs l v Hr) as (w' & addrs' & E & Hr' & Ho). exists w', addrs', (mallocs w).
      split_and!; [done|done|]. by destruct w.
    - exists w, addrs, (mallocs w). split_and!; [done|done|]. by destruct w. }
  destruct item as [i|]; [|exact Hrm]. destruct v as [a|]; [|destruct so; exact Hrm].
  destruct so as [s|]; [|exact Hrm]. destruct (0 <=? o); [|exact Hrm]. clear Hrm.
  destruct (add_node_ok w h addrs l i (Some a) s o Hr) as (r & w' & addrs' & E & Hr' & Ho).
  rewrite E. by exists w', addrs', (tail (mallocs w)).
Qed.

(** A monitor after [monitor_init], with one client on descriptor 5. *)
Definition mon_sample : mon :=
  mk_mon (Some 0%nat) (SLIST_INIT 0 (mk_sl ∅ ∅)) ∅ 1 1 4 22222 1 (L"0.0.0.0") 0 [] [] (fun _ => []) [] [] [] [].

Lemma mon_sample_reg : reg mon_sample 0 [] [].
Proof.
  split; cbn; [done|apply SLIST_INIT_ok|constructor|constructor|].
  intros a [[? H]|[? H]]; by rewrite lookup_empty in H.
Qed.

Lemma register_stat_int_refines_witness :
  exists w' addrs' ms, register_stat_int (Some (L"a_module_with_a_long_name")) (Some (L"hits")) MNT_UINT_64 (Some 77%nat) mon_sample = Some w' /\
    reg w' 0 addrs' [mk_var (L"hits") (L"a_module_with_a_long") (Some 77%nat) 1] /\ only_list (set_mallocs ms mon_sample) w'.
Proof.
  exact (register_stat_int_refines mon_sample 0 [] [] (Some (L"a_module_with_a_long_name")) (Some (L"hits")) MNT_UINT_64
           (Some 77%nat) mon_sample_reg).
Defined.

(** * Replies *)

(** Several calls of [writen] on one descriptor. *)
Definition send_all (f : Z) (recs : list cstr) (w : mon) : mon := foldl (fun w s => (do_writen f s w).2) w recs.

Lemma do_writen_registry f s w : registry (do_writen f s w).2 = registry w.
Proof. unfold do_writen. by destruct writen as [[[rv out] e] ws]. Qed.

Lemma send_all_registry f recs w : registry (send_all f recs w) = registry w.
Proof.
  revert w; induction recs as [|r recs IH]; intros w; [done|].
  cbn. etransitivity; [apply IH|apply do_writen_registry].
Qed.

Lemma received_do_writen f s w g :
  received g (do_writen f s w).2 = received g w ++ (if decide (f = g) then (writen s (writes w) (errno w)).1.1.2 else []).
Proof.
  unfold do_writen. destruct (writen s (writes w) (errno w)) as [[[rv out] e] ws]. cbn. unfold received. cbn.
  rewrite bind_app. cbn. rewrite app_nil_r. done.
Qed.

Lemma received_other f recs w g : g <> f -> received g (send_all f recs w) = received g w.
Proof.
  intros Hne. revert w; induction recs as [|r recs IH]; intros w; [done|].
  change (send_all f (r :: recs) w) with (send_all f recs (do_writen f r w).2).
  rewrite IH, received_do_writen, decide_False, app_nil_r; done.
Qed.

Lemma received_send_all f recs w : Forall benign (writes w) -> received f (send_all f recs w) = received f w ++ concat recs.
Proof.
  revert w; induction recs as [|r recs IH]; intros w Hw; [by rewrite app_nil_r|].
  change (send_all f (r :: recs) w) with (send_all f recs (do_writen f r w).2).
  destruct (writen_benign r (writes w) (errno w) Hw) as (e' & s' & E & Hs').
  rewrite IH by (unfold do_writen; rewrite E; done).
  rewrite received_do_writen, decide_True, E by done. cbn. by rewrite <-app_assoc.
Qed.

Lemma send_all_app f r1 r2 w : send_all f (r1 ++ r2) w = send_all f r2 (send_all f r1 w).
Proof. apply foldl_app. Qed.

(** A loop over the nodes that sends something for each. *)
Lemma foreach_send (body : nat -> mon -> option mon) (g : VAR_NODE -> list cstr) f w h addrs l :
  reg w h addrs l ->
  (forall t n w', nodes w' !! t = Some n -> n ∈ l -> body t w' = Some (send_all f (g n) w')) ->
  SLIST_FOREACH mlists body h w = Some (send_all f (l ≫= g) w).
Proof.
  intros Hr Hbody. unfold SLIST_FOREACH. rewrite (SLIST_FIRST_ok _ _ _ (reg_list _ _ _ _ Hr)). cbn [mbind option_bind].
  set (I := fun (k : list nat) (s : mon) => exists seen dn todo, addrs = seen ++ k /\ l = dn ++ todo /\
    length seen = length dn /\ s = send_all f (dn ≫= g) w).
  destruct (foreach_rule mlists body I (size (sle_next (mlists w))) addrs w) as (w' & E & seen & dn & todo & Ea & El & Hlen & ->).
  - intros t k s (seen & dn & todo & Ea & El & Hlen & ->).
    assert (Hr' : reg (send_all f (dn ≫= g) w) h addrs l) by (eapply reg_same; [apply send_all_registry|done]).
    subst addrs. destruct (reg_lookup _ _ _ _ _ _ Hr') as (l1 & n & l2 & E2 & Hl1 & Hn).
    rewrite El in E2. apply app_inj_1 in E2 as [<- ->]; [|congruence].
    rewrite (Hbody t n _ Hn) by (rewrite El; set_solver). eexists. split; [done|]. split.
    + eapply slist_NEXT, reg_list. eapply reg_same; [apply send_all_registry|exact Hr'].
    + exists (seen ++ [t]), (dn ++ [n]), l2. rewrite <-!app_assoc, !length_app, Hlen, bind_app. cbn.
      rewrite app_nil_r, send_all_app. done.
  - by exists [], [], l.
  - destruct (reg_list _ _ _ _ Hr) as (Hnd & p & Hp & Hl). by apply linked_size with p.
  - rewrite E, El. rewrite app_nil_r in Ea. subst seen.
    assert (todo = []) as ->; [|by rewrite app_nil_r].
    pose proof (Forall2_length (reg_nodes _ _ _ _ Hr)) as HL. rewrite El, length_app, Hlen in HL.
    destruct todo; [done|cbn in HL; lia].
Qed.

(** * Numbers in replies *)

(** The bytes of a number in memory. *)
Fixpoint le_bytes (k : nat) (z : Z) : buffer :=
  match k with O => [] | S k' => chr (Z.to_nat (z mod 256)) :: le_bytes k' (z / 256) end.

Lemma le_bytes_length k z : length (le_bytes k z) = k.
Proof. revert z; induction k as [|k IH]; intros z; cbn; [done|by rewrite IH]. Qed.

Lemma le_le_bytes k z : le (le_bytes k z) = z mod 256 ^ Z.of_nat k.
Proof.
  revert z; induction k as [|k IH]; intros z; [cbn; by rewrite Z.mod_1_r|].
  rewrite Nat2Z.inj_succ, Z.pow_succ_r by lia. cbn [le_bytes le foldr]. unfold le in IH. rewrite IH.
  assert (Hm := Z.mod_pos_bound z 256 ltac:(lia)). rewrite uchar_chr, Z2Nat.id by lia.
  rewrite (Z.rem_mul_r z 256 (256 ^ Z.of_nat k)); lia.
Qed.

Lemma peek_bytes ram a k z rest : ram a = le_bytes k z ++ rest -> peek ram (Some a) k = Some (le_bytes k z).
Proof.
  intros H. unfold peek. cbn. rewrite H, length_app, le_bytes_length, decide_True by lia.
  by rewrite take_app_length' by (by rewrite le_bytes_length).
Qed.

(** * Reading a reply *)

(** What a client makes of a record: the fields before the first two commas and
    the text up to the end mark. *)
Definition parse_num (s : cstr) : Z :=
  match s with c :: s' => if eqc "-"%char c then - digits 10 0 s' else digits 10 0 s | [] => 0 end.

Definition parse_record (r : cstr) : cstr * Z * cstr :=
  let '(item, r1) := span (neqc ","%char) r in
  let '(num, r2) := span (neqc ","%char) (tail r1) in
  let '(so, _) := span (fun c => neqc "|"%char c && neqc "#"%char c) (tail r2) in
  (item, parse_num num, so).

Lemma span_stop p s c rest : Forall (fun x => p x = true) s -> p c = false -> span p (s ++ c :: rest) = (s, c :: rest).
Proof. intros Hs Hc. induction Hs as [|x s Hx _ IH]; cbn; [by rewrite Hc|]. by rewrite Hx, IH. Qed.

(** Names that do not clash with the punctuation of a record. *)
Definition plain_name (s : cstr) : Prop :=
  (length s <= 20)%nat /\ Forall (fun c => c <> NUL /\ neqc ","%char c && (neqc "|"%char c && neqc "#"%char c) = true) s.

#[export] Instance plain_name_dec s : Decision (plain_name s).
Proof. unfold plain_name. apply _. Defined.

Lemma plain_name_ok s : plain_name s ->
  no_nul s /\ Forall (fun c => neqc ","%char c = true) s /\ Forall (fun c => neqc "|"%char c && neqc "#"%char c = true) s.
Proof.
  intros [_ H]. unfold no_nul. split_and!.
  - intros Hin. rewrite list.Forall_forall in H. by destruct (H _ Hin).
  - eapply list.Forall_impl; [exact H|]. by intros c [_ [? _]%andb_prop].
  - eapply list.Forall_impl; [exact H|]. by intros c [_ [_ ?]%andb_prop].
Qed.

Lemma numeral_plain c : numeral c -> c <> NUL /\ neqc ","%char c = true /\ eqc "-"%char c = false.
Proof.
  intros H. unfold neqc, eqc. split_and!.
  - intros ->. destruct H as [? H]. vm_compute in H. done.
  - case_bool_decide; [|done]. subst. destruct H as [? H]. vm_compute in H. done.
  - case_bool_decide; [|done]. subst. destruct H as [? H]. vm_compute in H. done.
Qed.

(** The integer types: flag, size in bytes, signed or not. *)
Definition int_types : list (Z * nat * bool) :=
  [(MNT_UINT_64, 8%nat, false); (MNT_INT_64, 8%nat, true); (MNT_UINT_32, 4%nat, false); (MNT_INT_32, 4%nat, true);
   (MNT_UINT, 4%nat, false); (MNT_INT, 4%nat, true)].

Definition in_range (size : nat) (sgn : bool) (z : Z) : Prop :=
  if sgn then - 2 ^ (8 * Z.of_nat size - 1) <= z < 2 ^ (8 * Z.of_nat size - 1) else 0 <= z < 2 ^ (8 * Z.of_nat size).

#[export] Instance in_range_dec size sgn z : Decision (in_range size sgn z).
Proof. destruct sgn; cbn; apply _. Defined.

Lemma signed_mod w z : 0 < w -> - 2 ^ (w - 1) <= z < 2 ^ (w - 1) -> signed w (z mod 2 ^ w) = z.
Proof.
  intros Hw Hz. unfold signed. assert (E : 2 ^ w = 2 * 2 ^ (w - 1)) by (rewrite <-Z.pow_succ_r by lia; f_equal; lia).
  destruct (Z.ltb_spec z 0).
  - replace (z mod 2 ^ w) with (z + 2 ^ w) by (rewrite <-(Z.mod_small (z + 2 ^ w) (2 ^ w)) by lia; rewrite <-Zplus_mod_idemp_r, Z.mod_same, Z.add_0_r by lia; done).
    destruct (Z.ltb_spec (z + 2 ^ w) (2 ^ (w - 1))); lia.
  - rewrite Z.mod_small by lia. destruct (Z.ltb_spec z (2 ^ (w - 1))); lia.
Qed.

(** The text of an integer variable is the decimal text of the number stored. *)
Lemma stat_value_int ram n a flag size sgn g z rest :
  (flag, size, sgn) ∈ int_types -> g = 0 \/ g = MNT_GROUP_STAT -> opt n = Z.lor flag g -> val n = Some a ->
  in_range size sgn z -> ram a = le_bytes size z ++ rest ->
  stat_value ram n = Some (if sgn then fmt_jd z else fmt_ju z) /\ typed n = true.
Proof.
  intros Ht Hg Ho Hv Hz Hram. apply peek_bytes in Hram. unfold stat_value, typed, has. rewrite Hv, Ho. clear Ho Hv.
  repeat (apply elem_of_cons in Ht as [[= -> -> ->]|Ht]); [..|by apply not_elem_of_nil in Ht].
  all: destruct Hg as [-> | ->]; cbn [Z.lor Z.land Z.eqb Pos.lor Pos.land Pos.eqb fmap existsb orb
    MNT_UINT_64 MNT_INT_64 MNT_UINT_32 MNT_INT_32 MNT_UINT MNT_INT MNT_CHAR MNT_STRING MNT_FLOAT MNT_DOUBLE MNT_GROUP_STAT Pos.Nsucc_double Z.of_N Pos.Ndouble N.succ_double N.double].
  all: rewrite Hram; cbn [fmap option_fmap option_map]; rewrite le_le_bytes; (split; [|done]); do 2 f_equal.
  all: cbn in Hz; first [apply Z.mod_small; cbn; lia|apply (signed_mod 64 z); [lia|exact Hz]|apply (signed_mod 32 z); [lia|exact Hz]].
Qed.

Lemma fmt_int_ok (sgn : bool) size z : in_range size sgn z -> (size <= 8)%nat -> (0 < size)%nat ->
  let s := if sgn then fmt_jd z else fmt_ju z in
  (length s <= 65)%nat /\ no_nul s /\ Forall (fun c => neqc ","%char c = true) s /\ parse_num s = z.
Proof.
  intros Hz Hs Hs0. cbv zeta.
  assert (Hpow : 2 ^ (8 * Z.of_nat size) <= 2 ^ 64) by (apply Z.pow_le_mono_r; lia).
  assert (Hpow' : 2 ^ (8 * Z.of_nat size - 1) <= 2 ^ 63) by (apply Z.pow_le_mono_r; lia).
  assert (Hu : forall y, 0 <= y < 2 ^ 64 -> no_nul (fmt_ju y) /\ Forall (fun c => neqc ","%char c = true) (fmt_ju y) /\
    parse_num (fmt_ju y) = y /\ digits 10 0 (fmt_ju y) = y /\ (length (fmt_ju y) <= 64)%nat).
  { intros y Hy. destruct (fmt_ju_ok y Hy) as (Hne & Hall & Hlen & Hd). specialize (Hd []). rewrite app_nil_r in Hd. change (digits 10 y []) with y in Hd.
    assert (Hp : Forall (fun c => c <> NUL /\ neqc ","%char c = true /\ eqc "-"%char c = false) (fmt_ju y))
      by (eapply list.Forall_impl; [exact Hall|apply numeral_plain]).
    split_and!; [| | |done|done].
    - intros Hin. rewrite list.Forall_forall in Hp. by destruct (Hp _ Hin).
    - eapply list.Forall_impl; [exact Hp|]. naive_solver.
    - unfold parse_num. destruct (fmt_ju y) as [|c s]; [done|]. destruct (Forall_inv Hp) as (_ & _ & ->). done. }
  destruct sgn; cbn in Hz.
  - unfold fmt_jd. destruct (Z.ltb_spec z 0) as [Hneg|Hpos].
    + destruct (Hu (- z) ltac:(lia)) as (H1 & H2 & _ & H3 & H4). split_and!; [cbn [length]; lia| | |].
      * apply no_nul_cons. by split.
      * by constructor.
      * change (- digits 10 0 (fmt_ju (- z)) = z). rewrite H3. lia.
    + destruct (Hu z ltac:(lia)) as (H1 & H2 & H3 & _ & H4). split_and!; [lia|done..].
  - destruct (Hu z ltac:(lia)) as (H1 & H2 & H3 & _ & H4). split_and!; [lia|done..].
Qed.

(** C29: A client that splits a "stat" record of an integer variable at its
    punctuation gets back the item's name, the module's name and exactly the
    number stored in the variable, for every integer type, grouped or not, over
    its whole range; the record is never truncated. *)
Theorem stat_record_roundtrip ram n a flag size sgn g z rest :
  (flag, size, sgn) ∈ int_types -> g = 0 \/ g = MNT_GROUP_STAT -> opt n = Z.lor flag g -> val n = Some a ->
  plain_name (item_name n) -> plain_name (so_name n) ->
  in_range size sgn z -> ram a = le_bytes size z ++ rest ->
  exists r, stat_record ram n = Some r /\ parse_record r = (item_name n, z, so_name n).
Proof.
  intros Ht Hg Ho Hv Hi Hs Hz Hram.
  destruct (stat_value_int ram n a flag size sgn g z rest Ht Hg Ho Hv Hz Hram) as [Ev Et].
  assert (Hsize : (0 < size <= 8)%nat).
  { unfold int_types in Ht. repeat (apply elem_of_cons in Ht as [[= _ -> _]|Ht]); [lia..|by apply not_elem_of_nil in Ht]. }
  destruct (fmt_int_ok sgn size z Hz ltac:(lia) ltac:(lia)) as (Hlen & Hnn & Hc & Hp).
  set (v := if sgn then fmt_jd z else fmt_ju z) in *. unfold stat_record. rewrite Ev, Et. cbn [mbind option_bind andb].
  eexists. split; [reflexivity|].
  assert (exists c e, (if has n MNT_GROUP_STAT then L"##|" else L"|") = c :: e /\ no_nul (c :: e) /\ (length e <= 2)%nat /\
    neqc "|"%char c && neqc "#"%char c = false) as (c & e & -> & Hne & Hle & Hce).
  { destruct (has n MNT_GROUP_STAT); do 2 eexists; (split; [reflexivity|]); split_and!;
      [by apply (bool_decide_unpack _)|cbn; lia|done|by apply (bool_decide_unpack _)|cbn; lia|done]. }
  destruct (plain_name_ok _ Hi) as (Hi1 & Hi2 & _), (plain_name_ok _ Hs) as (Hs1 & _ & Hs3), Hi as [Hi0 _], Hs as [Hs0 _].
  rewrite take_ge by (rewrite !length_app; cbn; lia).
  rewrite strz_id by (rewrite !no_nul_app; split_and!; try done; by apply (bool_decide_unpack _)).
  unfold parse_record. change (L",") with [","%char].
  rewrite <-!app_comm_cons, !app_nil_l, (span_stop _ (item_name n)) by done. cbn [tail].
  rewrite (span_stop _ v) by done. cbn [tail]. rewrite (span_stop _ (so_name n)) by done. by rewrite Hp.
Qed.

Definition stat_sample : VAR_NODE := mk_var (L"balance") (L"main") (Some 5%nat) (Z.lor MNT_INT_64 MNT_GROUP_STAT).

Lemma stat_record_roundtrip_witness :
  exists r, stat_record (fun _ => le_bytes 8 (-42)) stat_sample = Some r /\ parse_record r = (L"balance", -42, L"main").
Proof.
  refine (stat_record_roundtrip (fun _ => le_bytes 8 (-42)) stat_sample 5 MNT_INT_64 8 true MNT_GROUP_STAT (-42) [] _ _ _ _ _ _ _ _);
    [|by right|done|done|..].
  - by apply (bool_decide_unpack _).
  - by apply (bool_decide_unpack _).
  - by apply (bool_decide_unpack _).
  - by apply (bool_decide_unpack _).
  - by rewrite app_nil_r.
Defined.

(** * Commands *)

Definition contains (s t : cstr) : Prop := exists a b, s = a ++ t ++ b.

Lemma strstr_spec s t : strstr s t = true <-> contains s t.
Proof.
  induction s as [|c s IH]; cbn [strstr]; rewrite orb_true_iff, bool_decide_eq_true.
  - split.
    + intros [[k E]|]; [|done]. exists [], k. done.
    + intros (a & b & E). destruct a; [|done]. left. by exists b.
  - rewrite IH. split.
    + intros [[k E]|(a & b & ->)]; [by exists [], k|by exists (c :: a), b].
    + intros ([|x a] & b & E); [left; by exists b|]. right. injection E as -> ->. by exists a, b.
Qed.

#[export] Instance contains_dec s t : Decision (contains s t).
Proof. destruct (strstr s t) eqn:E; [left|right]; rewrite <-strstr_spec, E; done. Defined.

Lemma span_app p a b : Forall (fun c => p c = true) a -> match b with [] => True | c :: _ => p c = false end ->
  span p (a ++ b) = (a, b).
Proof.
  intros Ha Hb. destruct b as [|c b]; [|by apply span_stop]. rewrite app_nil_r.
  induction Ha as [|c a Hc _ IH]; cbn; [done|by rewrite Hc, IH].
Qed.

(** The command of a "stat" with the items [x] and the exceptions [y]. *)
Definition stat_command (x y : cstr) : cstr := L"stat" ++ x ++ L"-e " ++ y ++ CRLF.

Definition stat_words (x y : cstr) : Prop :=
  x <> [] /\ y <> [] /\ Forall (fun c => neqc "-"%char c = true) x /\ Forall (fun c => isspace c = false) y.

#[export] Instance stat_words_dec x y : Decision (stat_words x y).
Proof. unfold stat_words. apply _. Defined.

Lemma stat_parse x y : stat_words x y -> stat_arg (stat_command x y) = x /\ stat_e_opt (stat_command x y) = y.
Proof.
  intros (Hx & Hy & Hxd & Hys). unfold stat_arg, stat_e_opt, stat_command, fmt_arg, fmt_e_opt. split.
  - change (L"stat" ++ x ++ L"-e " ++ y ++ CRLF)
      with ("s"%char :: "t"%char :: "a"%char :: "t"%char :: x ++ L"-e " ++ y ++ CRLF).
    cbn [sscanf]. repeat (destruct (ascii_dec _ _); [|done]).
    rewrite (span_app (neqc "-"%char) x) by done. by destruct x.
  - cbn [sscanf]. rewrite app_assoc, (span_app (neqc "-"%char) (L"stat" ++ x)).
    2: { apply Forall_app. split; [|done]. by apply (bool_decide_unpack _). }
    2: done.
    change (L"stat" ++ x) with ("s"%char :: L"tat" ++ x).
    change (L"-e " ++ y ++ CRLF) with ("-"%char :: "e"%char :: " "%char :: y ++ CRLF).
    cbn -[lstrip span CRLF app ascii_dec isspace]. repeat (destruct (ascii_dec _ _); [|done]).
    assert (El : lstrip (" "%char :: y ++ CRLF) = y ++ CRLF).
    { change (lstrip (y ++ CRLF) = y ++ CRLF). destruct y as [|c y]; [done|]. cbn. by rewrite (Forall_inv Hys). }
    rewrite El, (span_app _ y); [by destruct y| |done].
    eapply list.Forall_impl; [exact Hys|]. by intros c ->.
Qed.

Section replies.
Context (ram : nat -> buffer).

(** The variables a module registered can be read. *)
Definition readable (n : VAR_NODE) : Prop := is_Some (stat_value ram n).

Definition stat_reply (cmd : cstr) (n : VAR_NODE) : list cstr :=
  if stat_shows cmd n then match stat_record ram n with Some r => [r] | None => [] end else [].

Lemma cmd_stat_sends ctx w h addrs l : reg w h addrs l -> Forall readable l ->
  cmd_stat ram ctx w = Some (send_all (connfd ctx) ((l ≫= stat_reply (command ctx)) ++ [CRLF ++ CRLF]) w).
Proof.
  intros Hr Hl. unfold cmd_stat. rewrite (reg_head _ _ _ _ Hr). cbn [mbind option_bind].
  rewrite (foreach_send _ (stat_reply (command ctx)) (connfd ctx) w h addrs l Hr).
  - cbn [mbind option_bind]. by rewrite send_all_app.
  - intros t n w' Hn Hin. unfold stat_body, stat_reply. rewrite Hn. cbn [mbind option_bind].
    destruct (stat_shows (command ctx) n); [|done]. rewrite list.Forall_forall in Hl. destruct (Hl n Hin) as [v Ev].
    unfold stat_record. rewrite Ev. done.
Qed.

Lemma cmd_list_sends ctx w h addrs l : reg w h addrs l ->
  cmd_list ctx w = Some (send_all (connfd ctx) ((list_record <$> l) ++ [CRLF ++ CRLF]) w).
Proof.
  intros Hr. unfold cmd_list. rewrite (reg_head _ _ _ _ Hr). cbn [mbind option_bind].
  rewrite (foreach_send _ (fun n => [list_record n]) (connfd ctx) w h addrs l Hr).
  - cbn [mbind option_bind]. by rewrite send_all_app.
  - intros t n w' Hn Hin. unfold list_body. by rewrite Hn.
Qed.

(** Which variables "stat x -e y" shows. *)
Definition wanted (x y : cstr) (n : VAR_NODE) : Prop :=
  (contains x (L"all") \/ length x = 1%nat \/ contains x (so_name n)) /\ ~ contains y (so_name n).

#[export] Instance wanted_dec x y n : Decision (wanted x y n).
Proof. unfold wanted. apply _. Defined.

Lemma stat_shows_wanted x y n : stat_words x y -> stat_shows (stat_command x y) n = bool_decide (wanted x y n).
Proof.
  intros Hw. unfold stat_shows. destruct (stat_parse x y Hw) as [-> ->]. unfold wanted.
  pose proof (strstr_spec x (L"all")) as H1. pose proof (strstr_spec x (so_name n)) as H2.
  pose proof (strstr_spec y (so_name n)) as H3. pose proof (Nat.eqb_eq (length x) 1) as H4.
  destruct (strstr x (L"all")), (strstr x (so_name n)), (strstr y (so_name n)), (Nat.eqb (length x) 1); cbn;
    symmetry; (rewrite bool_decide_eq_true || rewrite bool_decide_eq_false); naive_solver.
Qed.

End replies.

(** * Dispatch *)

Lemma strncmp_prefix name s : no_nul name -> no_nul s -> strncmp (length name) s name = 0 <-> name `prefix_of` s.
Proof.
  intros Hn Hs. rewrite strncmp_zero by done. rewrite (firstn_all name). split.
  - intros E. exists (drop (length name) s). by rewrite <-E at 1; rewrite take_drop.
  - intros [k ->]. by rewrite take_app_length.
Qed.

(** The names of the table are proper strings. *)
Lemma table_names ram beyond : Forall (fun e => no_nul e.1) (cmd_func_array ram beyond).
Proof. repeat constructor; by apply (bool_decide_unpack _). Qed.

(** C30: [command_distribute] runs the handler of the first entry of the table whose
    name starts the command, and answers that the command was not found when no
    entry matches: nothing else is sent or changed. *)
Theorem command_distribute_first_match ram beyond ctx w : no_nul (command ctx) ->
  command_distribute ram beyond ctx w =
    match List.find (fun e => bool_decide (e.1 `prefix_of` command ctx)) (cmd_func_array ram beyond) with
    | Some (_, func_ptr) => func_ptr ctx w
    | None => Some (send_all (connfd ctx) [L"Command not found." ++ CRLF ++ CRLF] w)
    end.
Proof.
  intros Hc. unfold command_distribute. pose proof (table_names ram beyond) as Ht.
  assert (Hne : cmd_func_array ram beyond <> []) by done. revert Ht Hne. generalize (cmd_func_array ram beyond) as table.
  intros table. induction table as [|[name f] table IH]; intros Ht Hne; [done|].
  pose proof (Forall_inv Ht) as Hn. apply Forall_inv_tail in Ht. cbn [distribute_loop List.find fst].
  pose proof (strncmp_prefix name (command ctx) Hn Hc) as H.
  destruct (Z.eqb_spec (strncmp (length name) (command ctx) name) 0) as [E|E].
  - rewrite bool_decide_eq_true_2 by tauto. done.
  - rewrite bool_decide_eq_false_2 by tauto. destruct table as [|e table]; [done|]. by apply IH.
Qed.

Definition help_ctx : COMMAND_CONTEXT := mk_ctx (L"helpme") 4 5 [] 10.

Lemma command_distribute_first_match_witness :
  command_distribute (fun _ => []) 0 help_ctx mon_sample = cmd_help help_ctx mon_sample.
Proof.
  refine (eq_trans (command_distribute_first_match (fun _ => []) 0 help_ctx mon_sample _) _);
    [by apply (bool_decide_unpack _)|reflexivity].
Defined.

(** * Stopping *)

Definition stop_closes (beyond : Z) (ctx : COMMAND_CONTEXT) : list Z :=
  filter (fun f => 0 <= f) ((fun i => default beyond (all_connfd ctx !! i)) <$> seq 0 (S (all_connfd_len ctx))).

Lemma close_registry f w : registry (close f w) = registry w.
Proof. done. Qed.

Lemma stop_close_ok beyond ctx w :
  exists w', stop_close beyond ctx w = w' /\ registry w' = registry w /\ closed w' = closed w ++ stop_closes beyond ctx /\
    accepts w' = accepts w.
Proof.
  eexists. split; [done|]. unfold stop_close, stop_closes. generalize (seq 0 (S (all_connfd_len ctx))) as ks.
  intros ks. revert w. induction ks as [|i ks IH]; intros w; [by rewrite app_nil_r|].
  rewrite fmap_cons, filter_cons. cbn [foldl]. destruct (Z.ltb_spec (default beyond (all_connfd ctx !! i)) 0).
  - rewrite decide_False by lia. apply IH.
  - rewrite decide_True by lia. destruct (IH (close (default beyond (all_connfd ctx !! i)) w)) as (E1 & E2 & E3).
    split_and!; [by rewrite E1|rewrite E2; cbn; by rewrite <-app_assoc|by rewrite E3].
Qed.

Lemma cmd_stop_ok beyond ctx w h addrs l : reg w h addrs l ->
  exists w', cmd_stop beyond ctx w = Some w' /\ reg w' h [] [] /\ switch_monitor_run w' = 0 /\
    closed w' = closed w ++ listenfd ctx :: stop_closes beyond ctx /\ accepts w' = accepts w.
Proof.
  intros Hr. unfold cmd_stop. destruct (stop_close_ok beyond ctx (close (listenfd ctx) w)) as (w1 & -> & Er & Ec & Es).
  assert (Hr1 : reg w1 h addrs l) by (by apply (reg_same w)). rewrite (reg_head _ _ _ _ Hr1). cbn [mbind option_bind].
  destruct (remove_loop_ok (fun _ => true) (unlink_node h) w1 h addrs l Hr1) as (w2 & addrs2 & -> & Hr2 & Ho);
    [done|]. cbn [mbind option_bind]. eexists. split; [done|].
  assert (E0 : filter (fun _ : VAR_NODE => true = false) l = []).
  { clear. induction l as [|n l IH]; [done|]. by rewrite filter_cons, decide_False. }
  rewrite E0 in Hr2. assert (addrs2 = []) as ->.
  { pose proof (Forall2_length (reg_nodes _ _ _ _ Hr2)). by destruct addrs2. }
  split_and!; [by apply (reg_same w2)|done| |].
  - cbn. rewrite Ho. cbn. rewrite Ec. cbn. by rewrite <-app_assoc.
  - cbn. rewrite Ho. cbn. by rewrite Es.
Qed.

(** "stop" frees every node and switches the monitor off, but it closes the
    listening socket twice (as [listenfd] and as entry 0 of the array), a
    descriptor another thread may have got in between, and it looks at the entry
    after the last one: when the memory there happens to hold a number that is not
    negative, that unrelated descriptor is closed too. *)
Theorem cmd_stop_closes ctx w h addrs l beyond :
  reg w h addrs l -> length (all_connfd ctx) = all_connfd_len ctx -> head (all_connfd ctx) = Some (listenfd ctx) ->
  0 <= listenfd ctx ->
  exists w', cmd_stop beyond ctx w = Some w' /\ reg w' h [] [] /\ switch_monitor_run w' = 0 /\
    closed w' = closed w ++ listenfd ctx :: listenfd ctx ::
      filter (fun f => 0 <= f) (tail (all_connfd ctx)) ++ (if decide (0 <= beyond) then [beyond] else []).
Proof.
  intros Hr Hlen Hhd Hl. destruct (cmd_stop_ok beyond ctx w h addrs l Hr) as (w' & E & Hr' & Hs & Hc & _).
  exists w'. split_and!; [done..|]. rewrite Hc. do 2 f_equal. unfold stop_closes.
  assert (Hseq : (fun i => default beyond (all_connfd ctx !! i)) <$> seq 0 (S (all_connfd_len ctx)) = all_connfd ctx ++ [beyond]).
  { apply list_eq. intros i. rewrite list_lookup_fmap. destruct (decide (i < S (all_connfd_len ctx))%nat) as [Hi|Hi].
    - rewrite lookup_seq_lt by lia. cbn. destruct (decide (i < length (all_connfd ctx))%nat).
      + rewrite lookup_app_l by done. destruct (lookup_lt_is_Some_2 (all_connfd ctx) i) as [x ->]; done.
      + rewrite lookup_ge_None_2, lookup_app_r by lia. by replace (i - length (all_connfd ctx))%nat with 0%nat by lia.
    - rewrite lookup_seq_ge by lia. symmetry. apply lookup_ge_None_2. rewrite length_app. cbn. lia. }
  rewrite Hseq. destruct (all_connfd ctx) as [|f fs]; [done|]. injection Hhd as ->. cbn [app tail].
  rewrite filter_cons, decide_True by done. f_equal. rewrite list.filter_app. done.
Qed.

Lemma cmd_stop_closes_witness :
  exists w', cmd_stop 9 (mk_ctx (L"stop") 4 5 [4; 5; -1] 3) mon_sample = Some w' /\ closed w' = [4; 4; 5; 9].
Proof.
  destruct (cmd_stop_closes (mk_ctx (L"stop") 4 5 [4; 5; -1] 3) mon_sample 0 [] [] 9) as (w' & E & _ & _ & Hc);
    [exact mon_sample_reg|done..|].
  exists w'. split; [exact E|exact Hc].
Defined.

(** * The loop over the connections *)

(** What writing and reading leave alone besides the list. *)
Definition control (w : mon) : Z * list Z := (switch_monitor_run w, accepts w).

Lemma do_writen_control f s w : control (do_writen f s w).2 = control w.
Proof. unfold do_writen. by destruct writen as [[[rv out] e] ws]. Qed.

Lemma send_all_control f recs w : control (send_all f recs w) = control w.
Proof.
  revert w; induction recs as [|r recs IH]; intros w; [done|].
  cbn. etransitivity; [apply IH|apply do_writen_control].
Qed.

Section safety.
Context (wlog : bool) (ram : nat -> buffer) (beyond : Z) (ver ctime : cstr) (h : nat) (addrs : list nat) (l : list VAR_NODE).
Context (Hreadable : Forall (readable ram) l).

(** The monitor runs with its variables, or has been stopped and has none; the
    coming connections are [acc]. *)
Definition alive_or_stopped (acc : list Z) (w : mon) : Prop :=
  accepts w = acc /\
  ((reg w h addrs l /\ switch_monitor_run w <> 0) \/ (reg w h [] [] /\ switch_monitor_run w = 0)).

Lemma alive_same acc w w' : registry w' = registry w -> control w' = control w ->
  alive_or_stopped acc w -> alive_or_stopped acc w'.
Proof. intros Hr [= Hs Ha] [<- [[? ?]|[? ?]]]; (split; [done|]); [left|right]; rewrite Hs; eauto using reg_same. Qed.

Lemma alive_reg acc w : alive_or_stopped acc w -> exists addrs' l', reg w h addrs' l' /\ Forall (readable ram) l'.
Proof. intros [_ [[? ?]|[? ?]]]; eauto. Qed.

Lemma send_all_alive acc f recs w : alive_or_stopped acc w -> alive_or_stopped acc (send_all f recs w).
Proof. apply alive_same; [apply send_all_registry|apply send_all_control]. Qed.

(** Every handler of the table runs to its end and keeps the variables, or stops
    the monitor and removes them. *)
Lemma handlers_alive : Forall (fun e => forall acc ctx w, alive_or_stopped acc w -> exists w', e.2 ctx w = Some w' /\ alive_or_stopped acc w')
  (cmd_func_array ram beyond).
Proof.
  unfold cmd_func_array. repeat apply Forall_cons; [..|apply Forall_nil]; intros acc ctx w Hw; cbn [snd];
    destruct (alive_reg acc w Hw) as (a' & l' & Hr & Hl).
  - rewrite (cmd_stat_sends _ _ _ _ _ _ Hr Hl). eauto using send_all_alive.
  - exists (send_all (connfd ctx) [help_text] w). split; [done|]. by apply send_all_alive.
  - destruct (cmd_stop_ok beyond ctx w h a' l' Hr) as (w' & E & Hr' & Hs & _ & Hacc). exists w'. split; [done|].
    split; [rewrite Hacc; by destruct Hw|by right].
  - rewrite (cmd_list_sends _ _ _ _ _ Hr). eauto using send_all_alive.
  - exists (send_all (connfd ctx) [CRLF] w). split; [done|]. by apply send_all_alive.
Qed.

Lemma distribute_alive acc ctx w : alive_or_stopped acc w ->
  exists w', command_distribute ram beyond ctx w = Some w' /\ alive_or_stopped acc w'.
Proof.
  unfold command_distribute. revert w. induction handlers_alive as [|[name f] table Hf _ IH]; intros w Hw; cbn; [eauto|].
  case_match; [by apply Hf|]. apply IH. destruct table; [|done]. by apply (send_all_alive _ _ [_]).
Qed.

(** The array of connections: ten entries, entry 0 the listening socket, all with
    events. *)
Definition fds_ok (lfd : Z) (a : list pollfd) : Prop :=
  length a = MAX_OPEN_FD /\ (exists p, a !! 0%nat = Some p /\ fd p = lfd) /\ Forall (fun p => is_Some (revents p)) a.

(** The entries in use. *)
Definition occupied (a : list pollfd) : nat := sum_list_with (fun p => if fd p <? 0 then 0%nat else 1%nat) a.

(** There is an entry for each connection to come, or none is needed for the
    message of a refused one. *)
Definition room (a : list pollfd) (acc : list Z) : Prop := wlog = false \/ (occupied a + length acc <= MAX_OPEN_FD)%nat.

Lemma occupied_set_fd a i p f : a !! i = Some p ->
  (occupied (set_fd i f a) + (if (fd p <? 0)%Z then 0 else 1) = occupied a + (if (f <? 0)%Z then 0 else 1))%nat.
Proof.
  unfold occupied, set_fd. revert i; induction a as [|q a IH]; intros [|i] Hp; [done..| |]; cbn in Hp |- *.
  - injection Hp as ->. lia.
  - specialize (IH i Hp). lia.
Qed.

Lemma free_slot_Some i a k : free_slot i a = Some k -> exists j p, k = (i + j)%nat /\ a !! j = Some p /\ fd p < 0.
Proof.
  revert i; induction a as [|p a IH]; intros i; cbn; [done|]. destruct (Z.ltb_spec (fd p) 0).
  - intros [= <-]. exists 0%nat, p. split_and!; [lia|done|done].
  - intros H0%IH. destruct H0 as (j & q & -> & Hq & Hneg). exists (S j), q. split_and!; [lia|done|done].
Qed.

Lemma free_slot_None i a : free_slot i a = None -> occupied a = length a.
Proof.
  revert i; induction a as [|p a IH]; intros i; cbn; [done|]. destruct (fd p <? 0); [done|].
  intros H%IH. unfold occupied in H. lia.
Qed.

Lemma set_fd_ok lfd a i f : fds_ok lfd a -> i <> 0%nat -> fds_ok lfd (set_fd i f a).
Proof.
  intros (Hl & (p & Hp & Hf) & Ha) Hi. unfold fds_ok, set_fd. rewrite length_alter. split_and!; [done| |].
  - exists p. by rewrite list_lookup_alter_ne.
  - apply Forall_lookup. intros j q Hq. rewrite Forall_lookup in Ha. destruct (decide (j = i)) as [->|Hne].
    + rewrite list_lookup_alter_eq in Hq. destruct (a !! i) as [q'|] eqn:E; [|done]. injection Hq as <-. cbn. by eapply Ha.
    + rewrite list_lookup_alter_ne in Hq by done. by eapply Ha.
Qed.

Lemma do_readline_same f w : let '(_, _, w') := do_readline f w in
  registry w' = registry w /\ control w' = control w.
Proof. unfold do_readline. by destruct readline as [[[n line] e] q]. Qed.

Lemma serve_alive acc lfd c i a w : i <> 0%nat -> (i < MAX_OPEN_FD)%nat -> fds_ok lfd a -> alive_or_stopped acc w ->
  exists a' w', serve ram beyond lfd c i (a, w) = Some (a', w') /\ fds_ok lfd a' /\ alive_or_stopped acc w' /\
    (occupied a' <= occupied a)%nat.
Proof.
  intros Hi Hlt Ha Hw. unfold serve. destruct (lookup_lt_is_Some_2 a i) as [p Hp]; [by destruct Ha as [-> _]|].
  assert (Hocc : (occupied (set_fd i (-1) a) <= occupied a)%nat).
  { pose proof (occupied_set_fd a i p (-1) Hp) as E. cbn in E. lia. }
  rewrite Hp. cbn [mbind option_bind]. destruct (fd p <? 0); [eauto 6|].
  assert (Hrev : is_Some (revents p)) by (destruct Ha as (_ & _ & Hf); rewrite Forall_lookup in Hf; by eapply Hf).
  destruct Hrev as [ev ->]. cbn [mbind option_bind]. destruct (_ =? 0); [eauto 6|].
  pose proof (do_readline_same (fd p) w) as Hs. destruct (do_readline (fd p) w) as [[n ibuf] w1].
  destruct Hs as [Hs1 Hs2]. assert (Hw1 : alive_or_stopped acc w1) by (by apply (alive_same acc w)).
  assert (Hcl : alive_or_stopped acc (close c w1)) by (by apply (alive_same acc w1)).
  destruct (n <? 0); [destruct (errno w1 =? ECONNRESET); eauto 7 using set_fd_ok|].
  destruct (n =? 0); [eauto 7 using set_fd_ok|].
  destruct (distribute_alive acc (mk_ctx (strz ibuf) lfd (fd p) (fd <$> a) MAX_OPEN_FD) w1 Hw1) as (w2 & -> & Hw2).
  cbn. eauto 6.
Qed.

Lemma serve_all_alive acc lfd c is_ a w :
  Forall (fun i => i <> 0%nat /\ (i < MAX_OPEN_FD)%nat) is_ -> fds_ok lfd a -> alive_or_stopped acc w ->
  exists a' w', serve_all ram beyond lfd c is_ (a, w) = Some (a', w') /\ fds_ok lfd a' /\ alive_or_stopped acc w' /\
    (occupied a' <= occupied a)%nat.
Proof.
  intros His. revert a w; induction His as [|i is_ [Hi Hlt] _ IH]; intros a w Ha Hw; cbn [serve_all]; [eauto 6|].
  destruct (serve_alive acc lfd c i a w Hi Hlt Ha Hw) as (a' & w' & -> & Ha' & Hw' & Ho). cbn [mbind option_bind].
  destruct (IH a' w' Ha' Hw') as (a2 & w2 & E & Ha2 & Hw2 & Ho2). exists a2, w2. split_and!; [done..|lia].
Qed.

(** How a round may end. *)
Definition round_ok (lfd : Z) (r : round_result) : Prop :=
  match r with
  | Continue s => fds_ok lfd (fds s) /\ room (fds s) (accepts (lworld s)) /\ reg (lworld s) h addrs l /\ switch_monitor_run (lworld s) <> 0
  | Return w => reg w h [] [] /\ switch_monitor_run w = 0
  end.

Lemma clients_round_ok lfd s : fds_ok lfd (fds s) -> room (fds s) (accepts (lworld s)) ->
  alive_or_stopped (accepts (lworld s)) (lworld s) ->
  exists r, clients_round ram beyond lfd s = Some r /\ round_ok lfd r.
Proof.
  intros Ha Hroom Hw. unfold clients_round.
  destruct (serve_all_alive (accepts (lworld s)) lfd (conn s) (seq 1 (MAX_OPEN_FD - 1)) (fds s) (lworld s))
    as (a' & w' & -> & Ha' & Hw' & Ho); [|done..|].
  { apply Forall_seq. unfold MAX_OPEN_FD. lia. }
  cbn. eexists. split; [done|]. destruct Hw' as [Hacc [[Hr Hs]|[Hr Hs]]].
  - destruct (Z.eqb_spec (switch_monitor_run w') 0); [done|]. cbn. rewrite Hacc. split_and!; try done.
    destruct Hroom; [by left|right; lia].
  - rewrite Hs. done.
Qed.

Lemma accept_new_client_ok lfd a w : fds_ok lfd a -> 0 <= lfd -> room a (accepts w) ->
  exists c a' w', accept_new_client wlog a w = Some (c, a', w') /\
    fds_ok lfd a' /\ registry w' = registry w /\ switch_monitor_run w' = switch_monitor_run w /\ room a' (accepts w').
Proof.
  intros Ha Hl Hroom. unfold accept_new_client, unix_accept. cbn [accepts set_io].
  assert (Htl : room a (tail (accepts w))) by (destruct Hroom; [by left|right; destruct (accepts w); cbn in *; lia]).
  destruct (accepts w) as [|c acc] eqn:Eacc; cbn [head default from_option id tail] in *.
  { do 3 eexists. split; [reflexivity|]. split_and!; done. }
  destruct (Z.ltb_spec c 0) as [Hc|Hc]. { do 3 eexists. split; [reflexivity|]. split_and!; done. }
  destruct (free_slot 0 a) as [i|] eqn:E.
  - do 3 eexists. split; [done|]. apply free_slot_Some in E as (j & p & -> & Hp & Hneg). cbn [Nat.add] in *.
    split_and!; [|done..|].
    + apply set_fd_ok; [done|]. intros ->. destruct Ha as (_ & (p' & Hp' & Hf) & _). simplify_eq. lia.
    + cbn. destruct Hroom as [?|Hroom]; [by left|right]. pose proof (occupied_set_fd a j p c Hp) as Eo.
      replace (fd p <? 0) with true in Eo by (symmetry; by apply Z.ltb_lt).
      replace (c <? 0) with false in Eo by (symmetry; apply Z.ltb_ge; lia). cbn [length] in Hroom.
      change (occupied (set_fd j c a) + length acc <= MAX_OPEN_FD)%nat. lia.
  - destruct Hroom as [->|Hroom]; [do 3 eexists; split; [reflexivity|]; split_and!; try done; by left|].
    apply free_slot_None in E. destruct Ha as (Hlen & _). rewrite E, Hlen in Hroom. cbn [length] in Hroom. lia.
Qed.

(** A result of [poll] as documented: events for each of the entries. *)
Definition poll_ok (p : poll_result) : Prop := match p with Ready _ evs => length evs = MAX_OPEN_FD | PollFailed => True end.

Lemma apply_poll_ok lfd p a : poll_ok p -> fds_ok lfd a -> fds_ok lfd (apply_poll p a).2.
Proof.
  destruct p as [n evs|]; cbn; [|done]. intros He (Hl & (p & Hp & Hf) & _). unfold fds_ok.
  rewrite length_zip_with, Hl, He. split_and!; [done| |].
  - destruct a as [|q a]; [done|]. destruct evs as [|e evs]; [done|]. injection Hp as ->. by eexists.
  - clear. revert evs. induction a as [|q a IH]; intros [|e evs]; cbn; constructor; cbn; eauto.
Qed.

Lemma apply_poll_room p a acc : poll_ok p -> length a = MAX_OPEN_FD -> room a acc -> room (apply_poll p a).2 acc.
Proof.
  destruct p as [n evs|]; cbn; [|done]. intros He Hl. unfold room, occupied.
  replace (sum_list_with _ (zip_with _ a evs)) with (sum_list_with (fun p => if fd p <? 0 then 0%nat else 1%nat) a); [done|].
  rewrite <-Hl in He. clear Hl. revert evs He. induction a as [|q a IH]; intros [|e evs] He; cbn in *; try done.
  rewrite (IH evs); [done|lia].
Qed.

Lemma monitor_round_ok lfd p s : 0 <= lfd -> fds_ok lfd (apply_poll p (fds s)).2 ->
  room (apply_poll p (fds s)).2 (accepts (lworld s)) ->
  reg (lworld s) h addrs l -> switch_monitor_run (lworld s) <> 0 ->
  exists r, monitor_round wlog ram beyond ver ctime lfd p s = Some r /\ round_ok lfd r.
Proof.
  intros Hl Ha Hroom Hr Hs. unfold monitor_round. destruct (apply_poll p (fds s)) as [nready a]. cbn [snd] in Ha, Hroom.
  pose proof Ha as (_ & (p0 & Hp0 & _) & Hrev). rewrite Hp0. cbn [mbind option_bind].
  rewrite Forall_lookup in Hrev. destruct (Hrev _ _ Hp0) as [ev ->]. cbn [mbind option_bind].
  destruct (negb _); [|apply clients_round_ok; [done..|split; [done|by left]]].
  destruct (accept_new_client_ok lfd a (lworld s) Ha Hl Hroom) as (c & a' & w1 & -> & Ha' & Hr1 & Hs1 & Hroom').
  cbn [mbind option_bind]. assert (Hreg1 : reg w1 h addrs l) by (by apply (reg_same (lworld s))).
  destruct (c <? 0); [eexists; split; [done|]; cbn [round_ok fds lworld]; rewrite Hs1; split_and!; done|].
  set (w2 := show_welcome ver ctime c w1).
  assert (Hreg2 : reg w2 h addrs l) by (eapply reg_same; [apply (send_all_registry c [welcome ver ctime] w1)|done]).
  pose proof (send_all_control c [welcome ver ctime] w1) as Hc2. change (control w2 = control w1) in Hc2. injection Hc2 as Hs2 Hacc2.
  rewrite <-Hacc2 in Hroom'. assert (Hsw : switch_monitor_run w2 <> 0) by congruence.
  destruct (nready - 1 <=? 0); [eexists; split; [done|]; done|].
  apply clients_round_ok; [done..|]. split; [done|by left].
Qed.

Lemma monitor_loop_ok lfd polls s : 0 <= lfd -> Forall poll_ok polls -> round_ok lfd (Continue s) ->
  exists r, monitor_loop wlog ram beyond ver ctime lfd polls s = Some r /\ round_ok lfd r.
Proof.
  intros Hl Hp. revert s; induction Hp as [|p polls Hp _ IH]; intros s Hs; cbn [monitor_loop]; [eauto|].
  destruct Hs as (Ha & Hroom & Hr & Hsw).
  destruct (monitor_round_ok lfd p s Hl (apply_poll_ok _ _ _ Hp Ha)) as (r & -> & Hr'); [|done..|].
  { apply apply_poll_room; [done|by destruct Ha|done]. }
  cbn [mbind option_bind]. destruct r as [s'|w']; [by apply IH|eauto].
Qed.

End safety.



(** A client that finds all entries taken crashes a monitor that formats its
    messages: the descriptor is printed as a string. *)
Theorem refused_client_fatal a w c acc :
  accepts w = c :: acc -> 0 <= c -> Forall (fun p => 0 <= fd p) a -> accept_new_client true a w = None.
Proof.
  intros Hacc Hc Ha. unfold accept_new_client, unix_accept. rewrite Hacc. cbn [head default from_option id].
  rewrite (proj2 (Z.ltb_ge _ _) Hc).
  assert (forall i, free_slot i a = None) as ->; [|done].
  induction Ha as [|p a Hp _ IH]; intros i; [done|]. cbn. by rewrite (proj2 (Z.ltb_ge _ _) Hp).
Qed.

(** * A client's command from its bytes to its reply *)

Lemma stat_reply_wanted ram x y l : stat_words x y ->
  concat (l ≫= stat_reply ram (stat_command x y)) =
  concat (omap (fun n => if decide (wanted x y n) then stat_record ram n else None) l).
Proof.
  intros Hw. induction l as [|n l IH]; [done|]. rewrite bind_cons, concat_app, IH. unfold stat_reply at 1.
  rewrite stat_shows_wanted by done. cbn. case_bool_decide; [rewrite decide_True by done|rewrite decide_False by done]; [|done].
  destruct (stat_record ram n); [|done]. cbn. by rewrite app_nil_r.
Qed.

Lemma first_line_command k s rest : Forall (fun c => ends_line c = false) s -> (length s < k)%nat ->
  first_line k (s ++ LF :: rest) = (s ++ [LF], true, rest).
Proof.
  intros Hs. revert k. induction Hs as [|c s Hc _ IH]; intros [|k] Hk; cbn [app length] in *; [lia|done|lia|].
  cbn [first_line]. rewrite Hc, IH by lia. done.
Qed.

(** The state after a read from a descriptor that left [q]. *)
Definition set_input (f : Z) (q : list rres) (w : mon) : mon :=
  set_io (errno w) (writes w) (fun g => if decide (g = f) then q else reads w g) (accepts w) (wire w) (closed w) (listening w) w.

(** A ready connection with a complete line: the line is given to the dispatcher. *)
Lemma serve_line ram beyond lfd c i a p ev w line more :
  a !! i = Some p -> 0 <= fd p -> revents p = Some ev -> Z.land ev (Z.lor POLLRDNORM POLLERR) <> 0 ->
  no_errors (reads w (fd p)) -> bytes (reads w (fd p)) = line ++ LF :: more ->
  Forall (fun b => ends_line b = false /\ b <> NUL) line -> (S (length line) < CMD_BUF_SIZE)%nat ->
  exists q', bytes q' = more /\ serve ram beyond lfd c i (a, w) =
    (fun w' => (a, w')) <$> command_distribute ram beyond (mk_ctx (line ++ [LF]) lfd (fd p) (fd <$> a) MAX_OPEN_FD) (set_input (fd p) q' w).
Proof.
  intros Hp Hf Hev Hland Hq Hb Hline Hlen.
  unfold serve. rewrite Hp. cbn [mbind option_bind]. replace (fd p <? 0) with false by (symmetry; apply Z.ltb_ge; lia).
  rewrite Hev. cbn [mbind option_bind]. rewrite (proj2 (Z.eqb_neq _ _) Hland).
  assert (Hfl : first_line (CMD_BUF_SIZE - 1) (bytes (reads w (fd p))) = (line ++ [LF], true, more)).
  { rewrite Hb. apply first_line_command; [eapply list.Forall_impl; [exact Hline|naive_solver]|lia]. }
  unfold do_readline, readline.
  destruct (readline_loop_ok (CMD_BUF_SIZE - 1) 1 (reads w (fd p)) (errno w) [] Hq ltac:(lia)) as (q' & Hq' & _ & ->).
  rewrite Hfl in Hq' |- *. cbn [snd] in Hq'. rewrite bool_decide_eq_false_2, andb_false_r by (rewrite Hb; by destruct line).
  exists q'. split; [done|]. cbn [app]. rewrite length_app. cbn [length].
  replace (Z.of_nat (1 + (length line + 1) - 1)) with (Z.of_nat (length line) + 1) by lia.
  replace (Z.of_nat (length line) + 1 <? 0) with false by (symmetry; apply Z.ltb_ge; lia).
  replace (Z.of_nat (length line) + 1 =? 0) with false by (symmetry; apply Z.eqb_neq; lia).
  rewrite strz_id; [done|]. apply no_nul_app. split; [|by apply (bool_decide_unpack _)].
  intros Hin. rewrite list.Forall_forall in Hline. by destruct (Hline _ Hin).
Qed.


(** A connection from which "stat all -e db" was read, over two variables. *)
Definition stat_world : mon :=
  set_io 0 [WTook 3; WFail EINTR] (fun _ => [RGot (L"stat all "); RGot (L"-e db" ++ CRLF)]) [] [] [] []
    (set_list (Some 0%nat) (mk_sl {[0%nat := Some 2%nat]} {[1%nat := None; 2%nat := Some 1%nat]})
       {[1%nat := mk_var (L"hits") (L"web") (Some 8%nat) MNT_CHAR; 2%nat := mk_var (L"size") (L"db") (Some 9%nat) MNT_CHAR]} 3
       mon_sample).

Lemma stat_world_reg : reg stat_world 0 [2; 1]%nat
  [mk_var (L"size") (L"db") (Some 9%nat) MNT_CHAR; mk_var (L"hits") (L"web") (Some 8%nat) MNT_CHAR].
Proof.
  split; [done| |by repeat constructor|repeat constructor|].
  - split; [by apply (bool_decide_unpack _)|]. exists (Some 2%nat). cbn.
    split; [done|]. split; [done|]. exists (Some 1%nat). split; [done|]. split; [done|]. by exists None.
  - intros a [[v H]|[v H]]; revert H; cbn [stat_world set_io set_list nodes mlists sle_next].
    all: rewrite lookup_insert_Some, lookup_singleton_Some; set_solver.
Qed.


(** * Disconnection *)

(** When a client disconnects, the monitor clears its entry but closes the
    connection that was accepted last instead of the client's: if they differ,
    the client's descriptor stays open with no entry that refers to it, and the
    latest client, whose entry stays, has lost its connection. *)
Theorem disconnect_closes_latest ram beyond lfd c i a p ev w :
  a !! i = Some p -> 0 <= fd p -> revents p = Some ev -> Z.land ev (Z.lor POLLRDNORM POLLERR) <> 0 ->
  bytes (reads w (fd p)) = [] -> no_errors (reads w (fd p)) ->
  exists w', serve ram beyond lfd c i (a, w) = Some (set_fd i (-1) a, w') /\ closed w' = closed w ++ [c] /\
    (fd p <> c -> forall j, j <> i -> (a !! j) ≫= (fun q => Some (fd q)) = Some c ->
      (set_fd i (-1) a !! j) ≫= (fun q => Some (fd q)) = Some c).
Proof.
  intros Hp Hf Hev Hland Hb Hq. unfold serve. rewrite Hp. cbn [mbind option_bind].
  replace (fd p <? 0) with false by (symmetry; apply Z.ltb_ge; lia).
  rewrite Hev. cbn [mbind option_bind]. rewrite (proj2 (Z.eqb_neq _ _) Hland). unfold do_readline, readline.
  destruct (readline_loop_ok (CMD_BUF_SIZE - 1) 1 (reads w (fd p)) (errno w) [] Hq ltac:(lia)) as (q' & _ & _ & ->).
  rewrite Hb. cbn. eexists. split; [done|]. split; [done|].
  intros _ j Hj Hc. unfold set_fd. by rewrite list_lookup_alter_ne.
Qed.

Lemma disconnect_closes_latest_witness :
  exists w', serve (fun _ => []) 0 4 6 1
      ([mk_pollfd 4 (Some 0); mk_pollfd 5 (Some POLLRDNORM); mk_pollfd 6 (Some 0)], mon_sample) =
      Some ([mk_pollfd 4 (Some 0); mk_pollfd (-1) (Some POLLRDNORM); mk_pollfd 6 (Some 0)], w') /\ closed w' = [6].
Proof.
  destruct (disconnect_closes_latest (fun _ => []) 0 4 6 1
    [mk_pollfd 4 (Some 0); mk_pollfd 5 (Some POLLRDNORM); mk_pollfd 6 (Some 0)] (mk_pollfd 5 (Some POLLRDNORM)) POLLRDNORM
    mon_sample) as (w' & E & Hc & _); [done..|by apply (bool_decide_unpack _)|]. exists w'. split; [exact E|exact Hc].
Defined.

(** * Initialisation *)

Section initialisation.
Context (fs : cstr -> option cstr) (stray : ascii) (conf_file : cstr) (items : list item).
Context (Hitems : Forall item_ok items) (Hcount : Z.of_nat (length items) <= 2 ^ 25).
Context (Hfile : fs conf_file = Some (print items)).

Let m := meaning [] items ∅.

(** What the file says about the monitor. *)
Definition conf_enable (old : Z) : Z := (int_value m (L"server") (L"monitor_enable", old)).2.
Definition conf_port (old : Z) : Z :=
  let p := (int_value m (L"server") (L"monitor_port", old)).2 in if p <? 0 then MNT_DEF_PORT else p.
Definition conf_ip : cstr :=
  let ip := (str_value m (L"server") (L"monitor_bind_ip", [])).2 in if bool_decide (ip = []) then DEFAULT_BINDIP else ip.

(** The system calls of [monitor_init] all succeed. *)
Definition calls_ok (k : init_calls) : Prop := 0 <= c_socket k /\ 0 <= c_bind k /\ 0 <= c_listen k /\ c_thread k = 0.

Lemma load_monitor_conf w : ints_ok m (L"server") (monitor_conf_int w) -> mallocs w = [] ->
  with_alloc (load_conf fs stray conf_file None (Some (L"server")) (monitor_conf_int w) (monitor_conf_str w)) w =
    Some ((0, int_value m (L"server") <$> monitor_conf_int w, str_value m (L"server") <$> monitor_conf_str w), w).
Proof.
  intros Hi Hm. unfold with_alloc. rewrite Hm, (load_conf_ok _ _ _ _ _ items) by done. cbn. rewrite <-Hm. by destruct w.
Qed.

(** The state in which the socket is opened. *)
Definition conf_world (w : mon) : mon :=
  let h := mon_next w in
  set_conf (conf_port (monitor_port w)) (conf_enable (monitor_enable w)) conf_ip
    (set_list (Some h) (SLIST_INIT h (mlists w)) (nodes w) (S h) w).

Lemma alloc_nil w : mallocs w = [] -> with_alloc allocate w = Some (true, w).
Proof. intros Hm. unfold with_alloc, allocate. rewrite Hm. cbn. rewrite <-Hm. by destruct w. Qed.

Lemma monitor_init_eq k w : ints_ok m (L"server") (monitor_conf_int w) -> mallocs w = [] ->
  monitor_init fs stray conf_file k None w =
    if conf_enable (monitor_enable w) =? 0
    then Some (None, set_conf (int_value m (L"server") (L"monitor_port", monitor_port w)).2 (conf_enable (monitor_enable w))
                       (str_value m (L"server") (L"monitor_bind_ip", [])).2 w)
    else
      let '(lfd, w1) := unix_listen k (u16 (conf_port (monitor_port w))) conf_ip (conf_world w) in
      if lfd <? 0 then Some (None, w1)
      else if negb (c_thread k =? 0) then Some (None, set_mnt_fd lfd w1) else Some (monitor_head w1, set_mnt_fd lfd w1).
Proof.
  intros Hi Hm. unfold monitor_init.
  rewrite load_monitor_conf by done. cbn [mbind option_bind].
  unfold monitor_conf_int, monitor_conf_str. cbn [fmap list_fmap with_conf].
  unfold conf_world, conf_enable, conf_port, conf_ip.
  change (monitor_port (set_conf (monitor_port w) (monitor_enable w) [] w)) with (monitor_port w).
  change (monitor_enable (set_conf (monitor_port w) (monitor_enable w) [] w)) with (monitor_enable w).
  change (monitor_bind_ip (set_conf (monitor_port w) (monitor_enable w) [] w)) with (@nil ascii).
  destruct (int_value m (L"server") (L"monitor_port", _)) as [np p].
  destruct (int_value m (L"server") (L"monitor_enable", _)) as [ne e].
  destruct (str_value m (L"server") (L"monitor_bind_ip", _)) as [ni ip].
  cbn [snd negb orb Z.eqb set_conf monitor_enable]. destruct (e =? 0); [done|].
  rewrite alloc_nil by done. cbn [mbind option_bind set_list set_conf mon_next monitor_port monitor_head mlists nodes].
  destruct (p <? 0); cbn [monitor_bind_ip set_conf set_list monitor_port monitor_enable]; case_bool_decide; reflexivity.
Qed.

End initialisation.

Lemma unix_listen_cases k port ip w :
  (calls_ok k -> unix_listen k port ip w =
     (c_socket k, set_io (errno w) (writes w) (reads w) (accepts w) (wire w) (closed w) (listening w ++ [(c_socket k, port, ip)]) w)) /\
  (0 <= c_socket k -> c_bind k < 0 \/ c_listen k < 0 -> unix_listen k port ip w = (CSF_ERR, close (c_socket k) w)).
Proof.
  unfold unix_listen, calls_ok. split.
  - intros (H1 & H2 & H3 & H4). by destruct (Z.ltb_spec (c_socket k) 0), (Z.ltb_spec (c_bind k) 0), (Z.ltb_spec (c_listen k) 0); try lia.
  - intros H1 H2. by destruct (Z.ltb_spec (c_socket k) 0), (Z.ltb_spec (c_bind k) 0), (Z.ltb_spec (c_listen k) 0); try lia.
Qed.


(** [monitor_init] with a readable configuration: a monitor that the file does
    not enable opens nothing and is not registered with; an enabled one listens on
    the address the file gives (all interfaces by default) and the port it gives
    modulo 65536 (22222 for a negative one), starts with an empty list and hands
    out its head; a socket that cannot be bound or listened on is closed again and
    NULL is returned. *)
Theorem monitor_init_correct fs stray conf_file items k w :
  Forall item_ok items -> Z.of_nat (length items) <= 2 ^ 25 -> fs conf_file = Some (print items) ->
  ints_ok (meaning [] items ∅) (L"server") (monitor_conf_int w) -> mallocs w = [] -> nodes w = ∅ -> sle_next (mlists w) = ∅ ->
  exists r w', monitor_init fs stray conf_file k None w = Some (r, w') /\
    (conf_enable items (monitor_enable w) = 0 ->
     r = None /\ monitor_enable w' = 0 /\ listening w' = listening w /\ closed w' = closed w) /\
    (conf_enable items (monitor_enable w) <> 0 -> calls_ok k ->
     r = Some (mon_next w) /\ reg w' (mon_next w) [] [] /\ mnt_fd w' = c_socket k /\ closed w' = closed w /\
     listening w' = listening w ++ [(c_socket k, conf_port items (monitor_port w) mod 65536, conf_ip items)]) /\
    (conf_enable items (monitor_enable w) <> 0 -> 0 <= c_socket k -> c_bind k < 0 \/ c_listen k < 0 ->
     r = None /\ listening w' = listening w /\ closed w' = closed w ++ [c_socket k]).
Proof.
  intros Hok Hc Hf Hi Hm Hn Hs. rewrite (monitor_init_eq fs stray conf_file items) by done.
  destruct (Z.eqb_spec (conf_enable items (monitor_enable w)) 0) as [E|E].
  { do 2 eexists. split; [done|]. split_and!; [|done..]. intros _. split_and!; try done. }
  destruct (unix_listen_cases k (u16 (conf_port items (monitor_port w))) (conf_ip items) (conf_world items w)) as [Hok1 Hbad].
  destruct (unix_listen _ _ _ _) as [lfd w1] eqn:Eu.
  assert (Hex : exists r w', (if lfd <? 0 then Some (None, w1)
    else if negb (c_thread k =? 0) then Some (None, set_mnt_fd lfd w1) else Some (monitor_head w1, set_mnt_fd lfd w1)) = Some (r, w'))
    by (destruct (lfd <? 0), (c_thread k =? 0); eauto).
  destruct Hex as (r & w' & Er). exists r, w'. split; [done|]. split_and!; [done| |].
  - intros _ Hk. injection (Hok1 Hk) as -> ->. destruct Hk as (H1 & _ & _ & H4).
    rewrite (proj2 (Z.ltb_ge _ _) H1), H4 in Er. injection Er as <- <-. split_and!; try done.
    split; cbn; [done|apply SLIST_INIT_ok|constructor|constructor|].
    intros a [[v H]|[v H]]; revert H; rewrite ?Hn, ?Hs, lookup_empty; done.
  - intros _ H1 H2. injection (Hbad H1 H2) as -> ->. injection Er as <- <-. done.
Qed.

Definition monitor_items : list item :=
  [ISection (L"server"); IPair (L"monitor_enable") (L"1"); IPair (L"monitor_port") (L"70000")].

Definition mon_boot : mon :=
  mk_mon None (mk_sl ∅ ∅) ∅ 1 1 (-1) (-1) 0 [] 0 [] [] (fun _ => []) [] [] [] [].

Lemma monitor_init_correct_witness :
  exists w', monitor_init (fun _ => Some (print monitor_items)) NUL [] (mk_calls 3 0 0 0) None mon_boot = Some (Some 1%nat, w') /\
    reg w' 1 [] [] /\ listening w' = [(3, 4464, L"0.0.0.0")].
Proof.
  destruct (monitor_init_correct (fun _ => Some (print monitor_items)) NUL [] monitor_items (mk_calls 3 0 0 0) mon_boot)
    as (r & w' & E & _ & H & _).
  1, 4: apply (bool_decide_unpack _); vm_compute; exact I.
  1-5: done.
  destruct H as (-> & Hr & _ & _ & Hl).
  - vm_compute. discriminate.
  - by split_and!.
  - exists w'. split; [exact E|]. split; [exact Hr|]. refine (eq_trans Hl _). vm_compute. reflexivity.
Defined.

(** When the memory for the head cannot be had, [monitor_init] returns NULL but
    the monitor stays enabled: the next registration writes through the NULL
    head. *)
Theorem monitor_init_no_memory fs stray conf_file k w ints strs w1 so item o v :
  with_alloc (load_conf fs stray conf_file None (Some (L"server")) (monitor_conf_int (set_conf (monitor_port w) (monitor_enable w) [] w))
    (monitor_conf_str (set_conf (monitor_port w) (monitor_enable w) [] w))) (set_conf (monitor_port w) (monitor_enable w) [] w) = Some ((0, ints, strs), w1) ->
  head (mallocs w1) = Some false -> monitor_enable (with_conf ints strs w1) <> 0 -> monitor_head w1 = None -> 0 <= o ->
  exists w', monitor_init fs stray conf_file k None w = Some (None, w') /\
    (head (mallocs w') <> Some false -> register_stat_int (Some so) (Some item) o (Some v) w' = None).
Proof.
  intros El Hm He Hh Ho. unfold monitor_init. rewrite El. cbn [mbind option_bind negb orb].
  assert (Hsame : mallocs (with_conf ints strs w1) = mallocs w1 /\ monitor_head (with_conf ints strs w1) = None)
    by (unfold with_conf; repeat case_match; done).
  destruct Hsame as [Hms Hhd].
  rewrite Z.eqb_refl. cbn [negb orb]. rewrite (proj2 (Z.eqb_neq _ _) He). unfold with_alloc at 1. rewrite Hms.
  destruct (mallocs w1) as [|b ms]; [done|]. injection Hm as ->. cbn [allocate mbind option_bind].
  eexists. split; [done|]. intros Hnf. unfold register_stat_int.
  change (monitor_enable (set_mallocs ms (with_conf ints strs w1))) with (monitor_enable (with_conf ints strs w1)).
  rewrite (proj2 (Z.eqb_neq _ _) He), (proj2 (Z.leb_le _ _) Ho). unfold add_node, with_alloc, allocate.
  destruct (mallocs (set_mallocs ms _)) as [|[] ms']; cbn [mbind option_bind]; [| |done];
    (change (monitor_head (set_mallocs _ _)) with (monitor_head (with_conf ints strs w1)); by rewrite Hhd).
Qed.
