(* ===== verification/Log.v ===== *)
(** Logging: src/csf/log.c. A handle on the heap is shared by the copies of the
    logger in the server and in its modules; each copy has its own statics. The
    files are their contents by name, the clock is given with each call, the
    local time zone is a parameter, and a message is given as the text its format
    and arguments make. A field of a handle that was not set has no value. *)

From S2P Require Import Prelude CString Dictionary IniParser ConfParser Format.

Definition MAX_PATH_LEN : nat := 256.
Definition MAX_MSG_LEN : nat := 512.
Definition HOST_NAME_MAXLEN : nat := 255.
Definition CSF_LOGGER : Z := 1.
Definition OS_SYSLOG : Z := 0.
Definition WLOG_UTC : Z := 0.
Definition WLOG_LOCAL : Z := 1.
Definition WLOG_HOUR : Z := 0.
Definition WLOG_DAY : Z := 1.
Definition WLOG_MONTH : Z := 2.
Definition LOG_CREATE_FAILED : Z := -1.
Definition LOG_CREATE_OK : Z := 0.
Definition DEFAULT_WLOG_METHOD : cstr := L"syslog".
Definition DEFAULT_WLOG_PATH : cstr := L"./".
Definition DEFAULT_NAME_PATTERN : cstr := L"csflog_".
Definition DEFAULT_TIMEZONE : cstr := L"UTC".
Definition DEFAULT_TPF : cstr := L"hour".

(** * Time *)

(** The fields of [struct tm] that are used. *)
Record tm : Type := mk_tm {
  tm_sec : Z;
  tm_min : Z;
  tm_hour : Z;
  tm_mday : Z;
  tm_mon : Z;
  tm_year : Z;
  tm_wday : Z
}.

(** The date of a day of a 400 year era that starts on the first of March: the
    year of the era, the month and the day of the month. *)
Definition era_date (doe : Z) : Z * Z * Z :=
  let yoe := (doe - doe / 1460 + doe / 36524 - doe / 146096) / 365 in
  let doy := doe - (365 * yoe + yoe / 4 - yoe / 100) in
  let mp := (5 * doy + 2) / 153 in
  let mday := doy - (153 * mp + 2) / 5 + 1 in
  let mon := if mp <? 10 then mp + 2 else mp - 10 in
  ((if mon <=? 1 then yoe + 1 else yoe), mon, mday).

(** [gmtime]: the civil date of the seconds since 1970. *)
Definition gmtime (t : Z) : tm :=
  let days := t / 86400 in
  let '(y, mon, mday) := era_date ((days + 719468) mod 146097) in
  mk_tm (t mod 60) (t / 60 mod 60) (t / 3600 mod 24) mday mon
    (y + 400 * ((days + 719468) / 146097) - 1900) ((days + 4) mod 7).

(** [asctime], without the newline that [write_log] removes. *)
Definition day_names : list cstr := [L"Sun"; L"Mon"; L"Tue"; L"Wed"; L"Thu"; L"Fri"; L"Sat"].
Definition month_names : list cstr :=
  [L"Jan"; L"Feb"; L"Mar"; L"Apr"; L"May"; L"Jun"; L"Jul"; L"Aug"; L"Sep"; L"Oct"; L"Nov"; L"Dec"].

Definition fmt_3d (z : Z) : cstr := if z <? 10 then L"  " ++ fmt_jd z else if z <? 100 then L" " ++ fmt_jd z else fmt_jd z.

Definition asctime (t : tm) : cstr :=
  default (L"???") (day_names !! Z.to_nat (tm_wday t)) ++ L" " ++ default (L"???") (month_names !! Z.to_nat (tm_mon t)) ++
  fmt_3d (tm_mday t) ++ L" " ++ fmt_02d (tm_hour t) ++ L":" ++ fmt_02d (tm_min t) ++ L":" ++ fmt_02d (tm_sec t) ++ L" " ++
  fmt_jd (1900 + tm_year t).

(** * State *)

(** The stream of a handle: NULL, open on a file, or closed. *)
Inductive stream : Type :=
| FNull
| FOpen (path : cstr)
| FClosed.

(** [LOG_HANDLE]; its strings, which are statics of the copy that made it, are
    kept with it. *)
Record LOG_HANDLE : Type := mk_handle {
  h_method : option Z;
  h_timezone : option Z;
  h_tpf : option Z;
  h_is_syslog : option Z;
  h_pid : option Z;
  h_log_fd : option stream;
  h_log_path : cstr;
  h_filenameprefix : cstr;
  h_log_ident : cstr;
  h_host_name : cstr;
  h_time_point : option Z
}.

Definition set_stream (f : stream) (tp : Z) (h : LOG_HANDLE) : LOG_HANDLE :=
  mk_handle (h_method h) (h_timezone h) (h_tpf h) (h_is_syslog h) (h_pid h) (Some f) (h_log_path h) (h_filenameprefix h)
    (h_log_ident h) (h_host_name h) (Some tp).

Definition set_log_fd (f : stream) (h : LOG_HANDLE) : LOG_HANDLE :=
  mk_handle (h_method h) (h_timezone h) (h_tpf h) (h_is_syslog h) (h_pid h) (Some f) (h_log_path h) (h_filenameprefix h)
    (h_log_ident h) (h_host_name h) (h_time_point h).

(** The statics of a copy of the logger. *)
Record statics : Type := mk_statics {
  local_handle : option nat;
  csf_log_method : Z;
  csf_log_timezone : Z;
  csf_log_tpf : Z;
  is_syslog : Z;
  pid : Z;
  log_method : cstr;
  log_path : cstr;
  log_filenameprefix : cstr;
  log_timezone : cstr;
  log_timeperfile : cstr;
  log_ident : cstr;
  host_name : cstr
}.

(** The statics of a copy before its initialisation. *)
Definition fresh_statics : statics :=
  mk_statics None OS_SYSLOG WLOG_UTC WLOG_HOUR 1 0 DEFAULT_WLOG_METHOD DEFAULT_WLOG_PATH DEFAULT_NAME_PATTERN
    DEFAULT_TIMEZONE DEFAULT_TPF [] [].

(** The heap of handles, the files, and the system log. *)
Record logs : Type := mk_logs {
  handles : gmap nat LOG_HANDLE;
  next_handle : nat;
  files : gmap cstr (list ascii);
  syslogged : list (Z * cstr)
}.

Definition put_handle (a : nat) (h : LOG_HANDLE) (g : logs) : logs :=
  mk_logs (<[a:=h]> (handles g)) (next_handle g) (files g) (syslogged g).

Definition append_file (path : cstr) (data : list ascii) (g : logs) : logs :=
  mk_logs (handles g) (next_handle g) (<[path:=default [] (files g !! path) ++ data]> (files g)) (syslogged g).

(** * The log file *)

Section logger.
Context (localtime : Z -> tm) (can_open : cstr -> bool).

(** [get_time]: it looks at the static of its own copy. *)
Definition get_time (s : statics) (now : Z) : tm :=
  if csf_log_timezone s =? WLOG_UTC then gmtime now else localtime now.

Definition weekday (wday : Z) : cstr :=
  if wday =? 0 then L"Sun" else if wday =? 1 then L"Mon" else if wday =? 2 then L"Tue" else if wday =? 3 then L"Wen"
  else if wday =? 4 then L"Thr" else if wday =? 5 then L"Fri" else if wday =? 6 then L"Sat" else L"Err".

(** The time point of a file: month, day and hour in a byte each. *)
Definition time_point (t : tm) : Z :=
  Z.lor (Z.lor (u32 (Z.shiftl (u32 (tm_mon t)) 24)) (u32 (Z.shiftl (u32 (tm_mday t)) 16))) (u32 (Z.shiftl (u32 (tm_hour t)) 8)).

(** The name of the file of a time. *)
Definition file_path (h : LOG_HANDLE) (t : tm) : cstr :=
  take (MAX_PATH_LEN - 1)
    (h_log_path h ++ h_filenameprefix h ++ L"_" ++ fmt_jd (tm_year t + 1900) ++ fmt_02d (tm_mon t + 1) ++ fmt_02d (tm_mday t) ++
     L"_" ++ weekday (tm_wday t) ++ L"_" ++ fmt_jd (tm_hour t) ++ L".log").

(** [fopen (path, "a")]: the file exists afterwards. *)
Definition fopen_a (path : cstr) (g : logs) : stream * logs :=
  if can_open path then (FOpen path, append_file path [] g) else (FNull, g).

(** [create_logfile]. *)
Definition create_logfile (s : statics) (now : Z) (g : logs) : option (Z * logs) :=
  let t := get_time s now in
  a ← local_handle s;
  h ← handles g !! a;
  let '(f, g) := fopen_a (file_path h t) g in
  Some (match f with FOpen _ => LOG_CREATE_OK | _ => LOG_CREATE_FAILED end, put_handle a (set_stream f (time_point t) h) g).

(** [fclose] of the stream of a handle. *)
Definition fclose (a : nat) (g : logs) : option logs :=
  h ← handles g !! a;
  f ← h_log_fd h;
  match f with
  | FOpen _ => Some (put_handle a (set_log_fd FClosed h) g)
  | _ => None
  end.

Definition rotate (s : statics) (now : Z) (a : nat) (g : logs) : option logs :=
  g ← fclose a g; '(_, g) ← create_logfile s now g; Some g.

(** [check_timepoint]. *)
Definition check_timepoint (s : statics) (now : Z) (g : logs) : option logs :=
  let t := get_time s now in
  a ← local_handle s;
  h ← handles g !! a;
  tpf ← h_tpf h;
  let differs mask v := (fun tp => negb (Z.land tp mask =? v)) <$> h_time_point h in
  if tpf =? WLOG_MONTH then
    d ← differs 0xFF000000 (u32 (Z.shiftl (u32 (tm_mon t)) 24)); if (d : bool) then rotate s now a g else Some g
  else if tpf =? WLOG_DAY then
    d ← differs 0x00FF0000 (u32 (Z.shiftl (u32 (tm_mday t)) 16)); if (d : bool) then rotate s now a g else Some g
  else if tpf =? WLOG_HOUR then
    d ← differs 0x0000FF00 (u32 (Z.shiftl (u32 (tm_hour t)) 8)); if (d : bool) then rotate s now a g else Some g
  else Some g.

(** What precedes a message in the file. *)
Definition log_header (s : statics) (now : Z) (h : LOG_HANDLE) (p : Z) : cstr :=
  asctime (get_time s now) ++ L" " ++ h_host_name h ++ L" " ++ h_log_ident h ++ L"[" ++ fmt_ju (u32 p) ++ L"]: ".

(** The array [msg] after both calls of [snprintf], of which the second writes at
    [msg + printed_size]: the text up to its terminator, or [None] when a byte is
    written past the array. *)
Definition log_text (header message : cstr) : option cstr :=
  if decide (length header + length (take (MAX_MSG_LEN - 1) message) < MAX_MSG_LEN + 1)%nat
  then Some (strz (take (MAX_MSG_LEN - 1) header ++
                   (if decide (length header < MAX_MSG_LEN)%nat then take (MAX_MSG_LEN - 1) message else [])))
  else None.

(** [write_log] with a message whose expansion is [message]. *)
Definition write_log (s : statics) (now priority : Z) (message : cstr) (g : logs) : option logs :=
  match local_handle s with
  | None => Some g
  | Some a =>
      h ← handles g !! a;
      sys ← h_is_syslog h;
      if negb (sys =? 0) then
        Some (mk_logs (handles g) (next_handle g) (files g) (syslogged g ++ [(priority, strz (take (MAX_MSG_LEN - 1) message))]))
      else
        g ← check_timepoint s now g;
        h ← handles g !! a;
        p ← h_pid h;
        msg ← log_text (log_header s now h p) message;
        let last := if decide (0 < length msg < MAX_MSG_LEN)%nat then LF else NUL in
        f ← h_log_fd h;
        match f with
        | FOpen path => Some (append_file path (msg ++ [last]) g)
        | _ => None
        end
  end.

(** [logger_deinit]. *)
Definition logger_deinit (s : statics) (g : logs) : option logs :=
  a ← local_handle s;
  h ← handles g !! a;
  sys ← h_is_syslog h;
  if negb (sys =? 0) then Some g else fclose a g.

(** * Initialisation *)

Definition log_conf_str (s : statics) : list CONF_STR_CONFIG :=
  [(L"log_method", log_method s); (L"log_path", log_path s); (L"log_filenameprefix", log_filenameprefix s);
   (L"log_timezone", log_timezone s); (L"log_timeperfile", log_timeperfile s)].

Definition with_log_conf (strs : list CONF_STR_CONFIG) (s : statics) : statics :=
  match strs with
  | [(_, m); (_, p); (_, n); (_, z); (_, t)] =>
      mk_statics (local_handle s) (csf_log_method s) (csf_log_timezone s) (csf_log_tpf s) (is_syslog s) (pid s) m p n z t
        (log_ident s) (host_name s)
  | _ => s
  end.

Definition set_local_handle (a : nat) (s : statics) : statics :=
  mk_statics (Some a) (csf_log_method s) (csf_log_timezone s) (csf_log_tpf s) (is_syslog s) (pid s) (log_method s) (log_path s)
    (log_filenameprefix s) (log_timezone s) (log_timeperfile s) (log_ident s) (host_name s).

(** The name of the host, without its domain; [None] when [gethostname] fails. *)
Definition short_name (name : option cstr) : cstr :=
  match name with
  | Some n => (span (neqc "."%char) (take HOST_NAME_MAXLEN n)).1
  | None => L"NULL"
  end.

Definition tpf_of (timeperfile : cstr) : Z :=
  match timeperfile with
  | c :: _ => if eqc "m"%char c then WLOG_MONTH else if eqc "d"%char c then WLOG_DAY else WLOG_HOUR
  | [] => WLOG_HOUR
  end.

Definition zone_of (timezone : cstr) : Z := if bool_decide (head timezone = Some "U"%char) then WLOG_UTC else WLOG_LOCAL.

(** The statics after the assignments of the branch of the built-in logger. *)
Definition builtin_statics (ident : cstr) (getpid : Z) (hostname : option cstr) (s : statics) : statics :=
  mk_statics (local_handle s) CSF_LOGGER (zone_of (log_timezone s)) (tpf_of (log_timeperfile s)) 0 getpid (log_method s)
    (log_path s) (log_filenameprefix s) (log_timezone s) (log_timeperfile s) (strlcpy_str (MAX_MSG_LEN + 1) ident)
    (short_name hostname).

Definition syslog_statics (s : statics) : statics :=
  mk_statics (local_handle s) (csf_log_method s) (csf_log_timezone s) (csf_log_tpf s) 1 (pid s) (log_method s) (log_path s)
    (log_filenameprefix s) (log_timezone s) (log_timeperfile s) (log_ident s) (host_name s).

(** The assignments to the handle at the end of [logger_init]. *)
Definition fill_handle (s : statics) (h : LOG_HANDLE) : LOG_HANDLE :=
  mk_handle (Some (csf_log_method s)) (Some (csf_log_timezone s)) (Some (csf_log_tpf s)) (Some (is_syslog s)) (Some (pid s))
    (h_log_fd h) (h_log_path h) (h_filenameprefix h) (h_log_ident h) (h_host_name h) (h_time_point h).

(** A handle as [malloc] gives it, with the pointers to the strings of [s]. *)
Definition new_handle (s : statics) : LOG_HANDLE :=
  mk_handle None None None None None None (log_path s) (log_filenameprefix s) (log_ident s) (host_name s) None.

Context (fs : cstr -> option cstr) (stray : ascii) (conf_file : cstr).

(** [logger_init]; the static [log_fd], which nothing ever sets, is NULL. The
    modules pass NULL for [ident]. *)
Definition logger_init (handle : option nat) (ident : option cstr) (getpid : Z) (hostname : option cstr) (now : Z)
  (s : statics) (g : logs) : Alloc (option nat * statics * logs) :=
  match handle with
  | Some a => mret (Some a, set_local_handle a s, g)
  | None =>
      load_conf fs stray conf_file None (Some (L"server")) [] (log_conf_str s)
      ≫= fun r : Z * list CONF_INT_CONFIG * list CONF_STR_CONFIG =>
      let s := with_log_conf r.2 s in
      load_conf fs stray conf_file None (Some (L"server")) [] []
      ≫= fun r' : Z * list CONF_INT_CONFIG * list CONF_STR_CONFIG =>
      if negb (r.1.1 =? 0) || negb (r'.1.1 =? 0) then mret (None, s, g)
      else
        ok ← allocate;
        if (ok : bool) then
          let a := next_handle g in
          let s := set_local_handle a s in
          let g := mk_logs (handles g) (S a) (files g) (syslogged g) in
          if strncmp 1 (L"csflogger") (log_method s) =? 0 then
            access ident ≫= fun ident : cstr =>
            let s := builtin_statics ident getpid hostname s in
            access (create_logfile s now (put_handle a (new_handle s) g)) ≫= fun r : Z * logs =>
            if negb (r.1 =? LOG_CREATE_OK) then mret (None, s, r.2)
            else
              access (handles r.2 !! a) ≫= fun h : LOG_HANDLE =>
              mret (Some a, s, put_handle a (fill_handle s h) r.2)
          else
            let s := syslog_statics s in
            mret (Some a, s, put_handle a (fill_handle s (new_handle s)) g)
        else mret (None, s, g)
  end.

End logger.

(** * Checks of the calendar *)

Example gmtime_billennium : asctime (gmtime 1234567890) = L"Fri Feb 13 23:31:30 2009".
Proof. vm_compute. reflexivity. Qed.

Example gmtime_leap_day : asctime (gmtime 951868799) = L"Tue Feb 29 23:59:59 2000".
Proof. vm_compute. reflexivity. Qed.
