(* ===== verification/LogProps.v ===== *)
(** Theorems about the logger of Log.v: the calendar and the packed time points,
    what a record in the file is, in which file it goes, the initialisation, and
    the ways the logger loses its file. *)

From S2P Require Import Prelude CString Dictionary IniParser ConfParser Format Log.

(** * Time points *)

(** The documented ranges of [struct tm]. *)
Definition tm_ok (t : tm) : Prop := 0 <= tm_hour t < 24 /\ 1 <= tm_mday t <= 31 /\ 0 <= tm_mon t < 12.

Lemma doy_range doe : 0 <= doe < 146097 ->
  let yoe := (doe - doe / 1460 + doe / 36524 - doe / 146096) / 365 in
  0 <= doe - (365 * yoe + yoe / 4 - yoe / 100) <= 365.
Proof. intros H. cbv zeta. Z.to_euclidean_division_equations. lia. Qed.

Lemma mday_range doy : 0 <= doy <= 365 ->
  let mp := (5 * doy + 2) / 153 in 0 <= mp < 12 /\ 1 <= doy - (153 * mp + 2) / 5 + 1 <= 31.
Proof. intros H. cbv zeta. Z.to_euclidean_division_equations. lia. Qed.

Lemma era_date_range doe : 0 <= doe < 146097 ->
  let '(_, mon, mday) := era_date doe in 0 <= mon < 12 /\ 1 <= mday <= 31.
Proof.
  intros H. unfold era_date. apply doy_range in H. cbv zeta in H. apply mday_range in H. cbv zeta in H.
  split; [|lia]. destruct (Z.ltb_spec ((5 * (doe - (365 * ((doe - doe / 1460 + doe / 36524 - doe / 146096) / 365) +
    (doe - doe / 1460 + doe / 36524 - doe / 146096) / 365 / 4 - (doe - doe / 1460 + doe / 36524 - doe / 146096) / 365 / 100)) + 2) / 153) 10); lia.
Qed.

Lemma gmtime_ok t : tm_ok (gmtime t).
Proof.
  unfold gmtime, tm_ok. pose proof (era_date_range ((t / 86400 + 719468) mod 146097)) as H.
  destruct (era_date _) as [[y mon] mday]. cbn [tm_hour tm_mday tm_mon].
  destruct H as [H1 H2]; [apply Z.mod_pos_bound; lia|]. pose proof (Z.mod_pos_bound (t / 3600) 24). lia.
Qed.

Definition month_field (m : Z) : Z := u32 (Z.shiftl (u32 m) 24).
Definition mday_field (d : Z) : Z := u32 (Z.shiftl (u32 d) 16).
Definition hour_field (h : Z) : Z := u32 (Z.shiftl (u32 h) 8).

(** Bits of a sum of a multiple of [2 ^ k] and a number below it. *)
Lemma lor_add a b k : 0 <= k -> 0 <= b < 2 ^ k -> Z.lor (a * 2 ^ k) b = a * 2 ^ k + b.
Proof.
  intros Hk Hb. assert (E : Z.land (a * 2 ^ k) b = 0); [|by rewrite Z.add_nocarry_lxor, Z.lxor_lor].
  apply Z.bits_inj'. intros n Hn. rewrite Z.land_spec, Z.bits_0. destruct (Z.ltb_spec n k).
  - by rewrite Z.mul_pow2_bits_low.
  - rewrite <-(Z.mod_small b (2 ^ k)) by lia. rewrite Z.mod_pow2_bits_high by lia. apply andb_false_r.
Qed.

(** Selecting a byte. *)
Lemma land_byte x k : 0 <= k -> Z.land x (Z.shiftl 255 k) = Z.shiftl (x / 2 ^ k mod 256) k.
Proof.
  intros Hk. rewrite <-Z.shiftr_div_pow2 by done. change 256 with (2 ^ 8). rewrite <-Z.land_ones by lia. change (Z.ones 8) with 255.
  apply Z.bits_inj'. intros n Hn. rewrite Z.land_spec, !Z.shiftl_spec, Z.land_spec by done. destruct (Z.ltb_spec n k).
  - by rewrite !(Z.testbit_neg_r _ (n - k)), andb_false_r by lia.
  - rewrite Z.shiftr_spec by lia. by rewrite Z.sub_add.
Qed.

Lemma field_values m d h : 0 <= m < 256 -> 0 <= d < 256 -> 0 <= h < 256 ->
  month_field m = m * 2 ^ 24 /\ mday_field d = d * 2 ^ 16 /\ hour_field h = h * 2 ^ 8 /\
  Z.lor (Z.lor (month_field m) (mday_field d)) (hour_field h) = (m * 256 + d) * 2 ^ 16 + h * 2 ^ 8.
Proof.
  intros Hm Hd Hh. unfold month_field, mday_field, hour_field. rewrite (u32_small m), (u32_small d), (u32_small h) by lia.
  rewrite !Z.shiftl_mul_pow2, !u32_small by lia. split_and!; try done. rewrite lor_add by lia.
  replace (m * 2 ^ 24 + d * 2 ^ 16) with ((m * 256 + d) * 2 ^ 16) by lia. rewrite lor_add by lia. lia.
Qed.

Lemma fields_check m d h : 0 <= m < 256 -> 0 <= d < 256 -> 0 <= h < 256 ->
  let tp := Z.lor (Z.lor (month_field m) (mday_field d)) (hour_field h) in
  Z.land tp 0xFF000000 = month_field m /\ Z.land tp 0x00FF0000 = mday_field d /\ Z.land tp 0x0000FF00 = hour_field h /\
  (Z.shiftr tp 24 = m /\ Z.land (Z.shiftr tp 16) 255 = d /\ Z.land (Z.shiftr tp 8) 255 = h /\ tp < 2 ^ 32).
Proof.
  intros Hm Hd Hh. cbv zeta. destruct (field_values m d h Hm Hd Hh) as (-> & -> & -> & ->).
  change 0xFF000000 with (Z.shiftl 255 24). change 0x00FF0000 with (Z.shiftl 255 16). change 0x0000FF00 with (Z.shiftl 255 8).
  rewrite !land_byte, !Z.shiftl_mul_pow2, !Z.shiftr_div_pow2 by lia. change 255 with (Z.ones 8). rewrite !Z.land_ones by lia.
  change (2 ^ 8) with 256. change (2 ^ 24) with 16777216. change (2 ^ 16) with 65536.
  split_and!; Z.to_euclidean_division_equations; lia.
Qed.

Lemma field_inj m m' : 0 <= m < 256 -> 0 <= m' < 256 ->
  (month_field m = month_field m' -> m = m') /\ (mday_field m = mday_field m' -> m = m') /\ (hour_field m = hour_field m' -> m = m').
Proof.
  intros H H'. unfold month_field, mday_field, hour_field. rewrite !(u32_small m), !(u32_small m') by lia.
  rewrite !Z.shiftl_mul_pow2, !u32_small by lia. lia.
Qed.

Lemma time_point_selects t t' : tm_ok t -> tm_ok t' ->
  (Z.land (time_point t) 0xFF000000 = month_field (tm_mon t') <-> tm_mon t = tm_mon t') /\
  (Z.land (time_point t) 0x00FF0000 = mday_field (tm_mday t') <-> tm_mday t = tm_mday t') /\
  (Z.land (time_point t) 0x0000FF00 = hour_field (tm_hour t') <-> tm_hour t = tm_hour t').
Proof.
  intros (Hh & Hd & Hm) (Hh' & Hd' & Hm').
  destruct (fields_check (tm_mon t) (tm_mday t) (tm_hour t) ltac:(lia) ltac:(lia) ltac:(lia)) as (E1 & E2 & E3 & _).
  change (Z.lor (Z.lor (month_field (tm_mon t)) (mday_field (tm_mday t))) (hour_field (tm_hour t))) with (time_point t) in *.
  rewrite E1, E2, E3.
  destruct (field_inj (tm_mon t) (tm_mon t') ltac:(lia) ltac:(lia)) as (F1 & _ & _).
  destruct (field_inj (tm_mday t) (tm_mday t') ltac:(lia) ltac:(lia)) as (_ & F2 & _).
  destruct (field_inj (tm_hour t) (tm_hour t') ltac:(lia) ltac:(lia)) as (_ & _ & F3).
  split_and!; (split; [assumption|by intros ->]).
Qed.

(** The time point of a log file keeps the month, the day and the hour of its
    creation apart: each mask of [check_timepoint] selects exactly its own field,
    the point fits 32 bits, and the three numbers can be read back from it. *)
Theorem time_point_fields t : tm_ok t ->
  let tp := time_point t in
  0 <= tp < 2 ^ 32 /\ Z.shiftr tp 24 = tm_mon t /\ Z.land (Z.shiftr tp 16) 255 = tm_mday t /\
  Z.land (Z.shiftr tp 8) 255 = tm_hour t /\
  (forall t', tm_ok t' ->
     (Z.land tp 0xFF000000 = month_field (tm_mon t') <-> tm_mon t = tm_mon t') /\
     (Z.land tp 0x00FF0000 = mday_field (tm_mday t') <-> tm_mday t = tm_mday t') /\
     (Z.land tp 0x0000FF00 = hour_field (tm_hour t') <-> tm_hour t = tm_hour t')).
Proof.
  intros Ht. cbv zeta. pose proof Ht as (Hh & Hd & Hm).
  destruct (fields_check (tm_mon t) (tm_mday t) (tm_hour t) ltac:(lia) ltac:(lia) ltac:(lia)) as (_ & _ & _ & E4 & E5 & E6 & E7).
  change (Z.lor (Z.lor (month_field (tm_mon t)) (mday_field (tm_mday t))) (hour_field (tm_hour t))) with (time_point t) in *.
  split_and!; [|done..|intros t' Ht'; by apply time_point_selects].
  unfold time_point. rewrite !Z.lor_nonneg. split_and!; apply u32_range.
Qed.

Lemma time_point_fields_witness : 0 <= time_point (gmtime 1234567890) < 2 ^ 32 /\ Z.shiftr (time_point (gmtime 1234567890)) 24 = 1.
Proof.
  destruct (time_point_fields (gmtime 1234567890)) as (H1 & H2 & _); [vm_compute; intuition discriminate|].
  exact (conj H1 H2).
Defined.

(** * Records *)

(** Two times in the same period of a file, as [check_timepoint] compares them. *)
Definition same_period (tpf : Z) (t t' : tm) : bool :=
  if tpf =? WLOG_MONTH then tm_mon t =? tm_mon t'
  else if tpf =? WLOG_DAY then tm_mday t =? tm_mday t'
  else if tpf =? WLOG_HOUR then tm_hour t =? tm_hour t'
  else true.

(** A handle whose file was opened at the time [t0]. *)
Record logging (h : LOG_HANDLE) (tpf p : Z) (t0 : tm) (path : cstr) : Prop := mk_logging {
  lg_sys : h_is_syslog h = Some 0;
  lg_tpf : h_tpf h = Some tpf;
  lg_pid : h_pid h = Some p;
  lg_point : h_time_point h = Some (time_point t0);
  lg_time : tm_ok t0;
  lg_file : h_log_fd h = Some (FOpen path)
}.

Section records.
Context (localtime : Z -> tm) (can_open : cstr -> bool) (Hlocal : forall t, tm_ok (localtime t)).
Implicit Types (s : statics) (g : logs) (h : LOG_HANDLE).

Lemma get_time_ok s now : tm_ok (get_time localtime s now).
Proof. unfold get_time. destruct (_ =? _); [apply gmtime_ok|apply Hlocal]. Qed.

(** The file a record of time [now] goes to, and the handle then. *)
Definition next_path s now h tpf t0 path : cstr :=
  let t := get_time localtime s now in if same_period tpf t0 t then path else file_path h t.

Lemma rotate_ok s now a h g path : local_handle s = Some a -> handles g !! a = Some h -> h_log_fd h = Some (FOpen path) ->
  let t := get_time localtime s now in
  rotate localtime can_open s now a g = Some (
    put_handle a (set_stream (if can_open (file_path h t) then FOpen (file_path h t) else FNull) (time_point t) h)
      (if can_open (file_path h t) then append_file (file_path h t) [] g else g)).
Proof.
  intros Ha Hh Hf. cbv zeta. unfold rotate, fclose, create_logfile. rewrite Hh. cbn [mbind option_bind].
  rewrite Hf. cbn [mbind option_bind]. rewrite Ha. cbn [mbind option_bind put_handle handles].
  rewrite lookup_insert_eq. cbn [mbind option_bind]. unfold fopen_a.
  change (file_path (set_log_fd FClosed h)) with (file_path h).
  destruct (can_open (file_path h (get_time localtime s now))); unfold put_handle, append_file; cbn; by rewrite insert_insert_eq.
Qed.

Lemma check_timepoint_ok s now a h g tpf p t0 path :
  local_handle s = Some a -> handles g !! a = Some h -> logging h tpf p t0 path ->
  check_timepoint localtime can_open s now g =
    if same_period tpf t0 (get_time localtime s now) then Some g else rotate localtime can_open s now a g.
Proof.
  intros Ha Hh [_ Ht _ Hp Ht0 _]. unfold check_timepoint, same_period. rewrite Ha. cbn [mbind option_bind].
  rewrite Hh. cbn [mbind option_bind]. rewrite Ht, Hp. cbn [mbind option_bind fmap option_fmap option_map].
  destruct (time_point_selects t0 (get_time localtime s now) Ht0 (get_time_ok s now)) as (S1 & S2 & S3).
  unfold month_field, mday_field, hour_field in *.
  destruct (tpf =? WLOG_MONTH); [|destruct (tpf =? WLOG_DAY); [|destruct (tpf =? WLOG_HOUR); [|done]]].
  all: match goal with |- context [negb (?x =? ?y)] => destruct (Z.eqb_spec x y) end.
  all: match goal with |- context [tm_mon ?x =? ?y] => destruct (Z.eqb_spec (tm_mon x) y)
                     | |- context [tm_mday ?x =? ?y] => destruct (Z.eqb_spec (tm_mday x) y)
                     | |- context [tm_hour ?x =? ?y] => destruct (Z.eqb_spec (tm_hour x) y) end; tauto.
Qed.

(** The handle and the files after [check_timepoint], when the file can be opened. *)
Lemma checked s now a h g tpf p t0 path :
  local_handle s = Some a -> handles g !! a = Some h -> logging h tpf p t0 path ->
  can_open (next_path s now h tpf t0 path) = true ->
  exists g' h' t1, check_timepoint localtime can_open s now g = Some g' /\ handles g' !! a = Some h' /\
    logging h' tpf p t1 (next_path s now h tpf t0 path) /\
    t1 = (if same_period tpf t0 (get_time localtime s now) then t0 else get_time localtime s now) /\
    (forall q, default [] (files g' !! q) = default [] (files g !! q)) /\
    (h_log_path h' = h_log_path h /\ h_filenameprefix h' = h_filenameprefix h /\ h_host_name h' = h_host_name h /\
     h_log_ident h' = h_log_ident h).
Proof.
  intros Ha Hh Hl Hc. rewrite (check_timepoint_ok s now a h g tpf p t0 path Ha Hh Hl). unfold next_path in *.
  destruct (same_period _ _ _). { exists g, h, t0. split_and!; done. }
  rewrite (rotate_ok s now a h g path Ha Hh (lg_file _ _ _ _ _ Hl)), Hc. do 3 eexists. split; [done|].
  destruct Hl as [H1 H2 H3 H4 H5 H6]. split; [cbn; by rewrite lookup_insert_eq|].
  split; [split; try done; apply get_time_ok|]. split_and!; try done.
  intros q. cbn. rewrite lookup_insert. case_decide; [subst|done]. cbn. by rewrite app_nil_r.
Qed.

(** The text of a record: complete up to 512 characters, out of bounds above. *)
Lemma log_text_ok header message : no_nul (header ++ message) -> (length header < MAX_MSG_LEN)%nat ->
  log_text header message =
    if decide (length header + length (take (MAX_MSG_LEN - 1) message) <= MAX_MSG_LEN)%nat
    then Some (header ++ take (MAX_MSG_LEN - 1) message) else None.
Proof.
  intros Hn Hh. unfold log_text. rewrite (decide_True (P := (length header < MAX_MSG_LEN)%nat)) by done.
  rewrite (take_ge header) by lia.
  destruct (decide (_ <= _)%nat); [rewrite decide_True by lia|by rewrite decide_False by lia].
  rewrite strz_id; [done|]. apply no_nul_app in Hn as [? ?]. apply no_nul_app. auto with csf.
Qed.

(** [write_log] to a file, in terms of the text of the record. *)
Lemma write_log_file s now prio message a h g tpf p t0 path :
  local_handle s = Some a -> handles g !! a = Some h -> logging h tpf p t0 path ->
  can_open (next_path s now h tpf t0 path) = true ->
  exists g1 h1 t1, handles g1 !! a = Some h1 /\ logging h1 tpf p t1 (next_path s now h tpf t0 path) /\
    t1 = (if same_period tpf t0 (get_time localtime s now) then t0 else get_time localtime s now) /\
    (forall q, default [] (files g1 !! q) = default [] (files g !! q)) /\
    (h_log_path h1 = h_log_path h /\ h_filenameprefix h1 = h_filenameprefix h /\ h_host_name h1 = h_host_name h /\
     h_log_ident h1 = h_log_ident h) /\
    write_log localtime can_open s now prio message g =
      (fun msg => append_file (next_path s now h tpf t0 path)
         (msg ++ [if decide (0 < length msg < MAX_MSG_LEN)%nat then LF else NUL]) g1)
      <$> log_text (log_header localtime s now h p) message.
Proof.
  intros Ha Hh Hl Hc. destruct (checked s now a h g tpf p t0 path Ha Hh Hl Hc) as (g1 & h1 & t1 & E & Hh1 & Hl1 & Et & Hf & Hs).
  exists g1, h1, t1. split_and!; try done; try apply Hs. unfold write_log. rewrite Ha, Hh. cbn [mbind option_bind].
  rewrite (lg_sys _ _ _ _ _ Hl). cbn [mbind option_bind Z.eqb negb]. rewrite E. cbn [mbind option_bind].
  rewrite Hh1. cbn [mbind option_bind]. rewrite (lg_pid _ _ _ _ _ Hl1). cbn [mbind option_bind].
  replace (log_header localtime s now h1 p) with (log_header localtime s now h p)
    by (unfold log_header; destruct Hs as (_ & _ & -> & ->); done).
  destruct (log_text _ message); [|done]. cbn [mbind option_bind fmap option_fmap option_map].
  by rewrite (lg_file _ _ _ _ _ Hl1).
Qed.

(** A record of the built-in logger: when header and message have at most 511
    characters, the file of the period gets exactly the header, the message and a
    newline at its end and no other file changes; at 512 characters the record
    ends with a NUL instead of the newline; and a longer message, up to its 511th
    character, is written past the end of [msg]: the length given to the second
    [vsnprintf] is that of the whole array. *)
Theorem write_log_record s now prio message a h g tpf p t0 path :
  local_handle s = Some a -> handles g !! a = Some h -> logging h tpf p t0 path ->
  can_open (next_path s now h tpf t0 path) = true ->
  let header := log_header localtime s now h p in
  let target := next_path s now h tpf t0 path in
  no_nul (header ++ message) -> (0 < length header < MAX_MSG_LEN)%nat ->
  ((length header + length message <= 511)%nat ->
   exists g', write_log localtime can_open s now prio message g = Some g' /\
     files g' !! target = Some (default [] (files g !! target) ++ header ++ message ++ [LF]) /\
     (forall q, q <> target -> default [] (files g' !! q) = default [] (files g !! q))) /\
  ((length header + length message = 512)%nat ->
   exists g', write_log localtime can_open s now prio message g = Some g' /\
     files g' !! target = Some (default [] (files g !! target) ++ header ++ message ++ [NUL])) /\
  ((512 < length header + Nat.min (length message) 511)%nat ->
   write_log localtime can_open s now prio message g = None).
Proof.
  intros Ha Hh Hl Hc. cbv zeta. intros Hn Hlen.
  destruct (write_log_file s now prio message a h g tpf p t0 path Ha Hh Hl Hc) as (g1 & h1 & t1 & _ & _ & _ & Hf & _ & ->).
  rewrite log_text_ok by (done || lia). set (header := log_header _ _ _ _ _) in *. unfold MAX_MSG_LEN in *.
  rewrite length_take. split_and!.
  - intros Hle. rewrite decide_True by lia. cbn [fmap option_fmap option_map]. rewrite take_ge by lia.
    rewrite decide_True by (rewrite length_app; lia). eexists. split; [done|]. cbn. rewrite lookup_insert_eq, Hf, <-!app_assoc.
    split; [done|]. intros q Hq. by rewrite lookup_insert_ne.
  - intros Hle. rewrite decide_True by lia. cbn [fmap option_fmap option_map]. rewrite take_ge by lia.
    rewrite decide_False by (rewrite length_app; lia). eexists. split; [done|]. cbn. by rewrite lookup_insert_eq, Hf, <-!app_assoc.
  - intros Hgt. by rewrite decide_False by lia.
Qed.

End records.

Definition log_handle_sample : LOG_HANDLE :=
  mk_handle (Some 1) (Some 0) (Some WLOG_HOUR) (Some 0) (Some 42) (Some (FOpen (L"f"))) (L"/l/") (L"csf") (L"id") (L"host")
    (Some (time_point (gmtime 1234567890))).

Definition logs_sample : logs := mk_logs {[0%nat := log_handle_sample]} 1 {[L"f" := L"x"]} [].

Definition statics_sample : statics := set_local_handle 0 (builtin_statics (L"id") 42 (Some (L"host")) fresh_statics).

Lemma sample_logging : logging log_handle_sample WLOG_HOUR 42 (gmtime 1234567890) (L"f").
Proof. split; [done..| |done]. apply gmtime_ok. Qed.

Lemma write_log_record_witness :
  exists g', write_log gmtime (fun _ => true) statics_sample 1234567899 0 (L"hello") logs_sample = Some g' /\
    files g' !! L"f" = Some (L"xFri Feb 13 23:31:39 2009 host id[42]: hello" ++ [LF]).
Proof.
  pose proof (write_log_record gmtime (fun _ => true) gmtime_ok statics_sample 1234567899 0 (L"hello") 0 log_handle_sample
    logs_sample WLOG_HOUR 42 (gmtime 1234567890) (L"f") eq_refl eq_refl sample_logging eq_refl) as H.
  destruct H as [H _]; [apply (bool_decide_unpack _); vm_compute; exact I|apply (bool_decide_unpack _); vm_compute; exact I|].
  destruct H as (g' & E & Ef & _); [apply (bool_decide_unpack _); vm_compute; exact I|]. exists g'. split; [exact E|exact Ef].
Defined.

(** * Which file a record goes to *)

Section hourly.
Context (localtime : Z -> tm) (can_open : cstr -> bool) (Hlocal : forall t, tm_ok (localtime t)).
Context (s : statics) (a : nat) (p : Z) (Ha : local_handle s = Some a) (Hutc : csf_log_timezone s = WLOG_UTC).

Lemma utc_time now : get_time localtime s now = gmtime now.
Proof. unfold get_time. by rewrite Hutc. Qed.

(** The name of a file depends on the hour only. *)
Lemma file_path_hour h t t' : t / 3600 = t' / 3600 -> file_path h (gmtime t) = file_path h (gmtime t').
Proof.
  intros E. assert (Ed : t / 86400 = t' / 86400).
  { change 86400 with (3600 * 24). rewrite <-!Z.div_div by lia. by rewrite E. }
  unfold file_path, gmtime. rewrite E, Ed. by destruct (era_date _) as [[y mon] mday].
Qed.

Lemma gmtime_hour t : tm_hour (gmtime t) = t / 3600 mod 24.
Proof. unfold gmtime. by destruct (era_date _) as [[y mon] mday]. Qed.

(** Within 23 hours the hour of the day tells whether the file changes. *)
Lemma same_hour t t' : t <= t' <= t + 23 * 3600 -> tm_hour (gmtime t) = tm_hour (gmtime t') <-> t / 3600 = t' / 3600.
Proof. intros H. rewrite !gmtime_hour. Z.to_euclidean_division_equations. lia. Qed.

(** Several messages, each with its time. *)
Fixpoint write_all (msgs : list (Z * cstr)) (g : logs) : option logs :=
  match msgs with
  | [] => Some g
  | (now, message) :: msgs' => g' ← write_log localtime can_open s now 0 message g; write_all msgs' g'
  end.

(** Times that follow each other within 23 hours. *)
Fixpoint paced (t0 : Z) (msgs : list (Z * cstr)) : Prop :=
  match msgs with [] => True | (t, _) :: msgs' => t0 <= t <= t0 + 23 * 3600 /\ paced t msgs' end.

Definition record_of (h : LOG_HANDLE) (m : Z * cstr) : cstr := log_header localtime s m.1 h p ++ m.2 ++ [LF].

(** Messages that fit a record, on days whose file can be opened. *)
Definition fits (h : LOG_HANDLE) (m : Z * cstr) : Prop :=
  no_nul (log_header localtime s m.1 h p ++ m.2) /\ (length (log_header localtime s m.1 h p) + length m.2 <= 511)%nat /\
  (0 < length (log_header localtime s m.1 h p))%nat /\ can_open (file_path h (gmtime m.1)) = true.

(** The records of a sequence of messages that belong to the file [q]. *)
Definition records_in (h : LOG_HANDLE) (q : cstr) (msgs : list (Z * cstr)) : list ascii :=
  concat (record_of h <$> filter (fun m => file_path h (gmtime m.1) = q) msgs).

Lemma hourly_step h g t0 tc now message :
  handles g !! a = Some h -> logging h WLOG_HOUR p (gmtime tc) (file_path h (gmtime tc)) -> tc / 3600 = t0 / 3600 ->
  t0 <= now <= t0 + 23 * 3600 -> fits h (now, message) ->
  exists g' h' tc', write_log localtime can_open s now 0 message g = Some g' /\ handles g' !! a = Some h' /\
    logging h' WLOG_HOUR p (gmtime tc') (file_path h' (gmtime tc')) /\ tc' / 3600 = now / 3600 /\
    (h_log_path h' = h_log_path h /\ h_filenameprefix h' = h_filenameprefix h /\ h_host_name h' = h_host_name h /\
     h_log_ident h' = h_log_ident h) /\
    (forall q, default [] (files g' !! q) = default [] (files g !! q) ++ records_in h q [(now, message)]).
Proof.
  intros Hh Hl Etc Hnow (Hn & Hlen & Hpos & Hc). cbn [fst snd] in *.
  assert (Hsame : same_period WLOG_HOUR (gmtime tc) (gmtime now) = bool_decide (tc / 3600 = now / 3600)).
  { change (same_period WLOG_HOUR (gmtime tc) (gmtime now)) with (tm_hour (gmtime tc) =? tm_hour (gmtime now)).
    replace (tm_hour (gmtime tc)) with (tm_hour (gmtime t0)) by (by rewrite !gmtime_hour, Etc).
    rewrite Etc. pose proof (same_hour t0 now ltac:(lia)) as Hs.
    case_bool_decide; [apply Z.eqb_eq; tauto|apply Z.eqb_neq; tauto]. }
  assert (Hnext : next_path localtime s now h WLOG_HOUR (gmtime tc) (file_path h (gmtime tc)) = file_path h (gmtime now)).
  { unfold next_path. rewrite utc_time, Hsame. case_bool_decide; [by apply file_path_hour|done]. }
  destruct (write_log_file localtime can_open Hlocal s now 0 message a h g WLOG_HOUR p (gmtime tc) _ Ha Hh Hl) as
    (g1 & h1 & t1 & Hh1 & Hl1 & Et1 & Hf & Hs & E); [by rewrite Hnext|].
  rewrite Hnext in Hl1, E. rewrite log_text_ok in E by (done || (unfold MAX_MSG_LEN; lia)).
  rewrite take_ge in E by (unfold MAX_MSG_LEN; lia). rewrite decide_True in E by (unfold MAX_MSG_LEN; lia).
  cbn [fmap option_fmap option_map] in E. rewrite decide_True in E by (rewrite length_app; unfold MAX_MSG_LEN; lia).
  assert (Hfp : forall t, file_path h1 t = file_path h t) by (intros t; unfold file_path; by destruct Hs as (-> & -> & _)).
  rewrite utc_time, Hsame in Et1.
  exists (append_file (file_path h (gmtime now)) ((log_header localtime s now h p ++ message) ++ [LF]) g1), h1,
    (if bool_decide (tc / 3600 = now / 3600) then tc else now).
  split; [done|]. split; [done|]. split; [|split; [by case_bool_decide|split; [done|]]].
  - subst t1. rewrite Hfp. case_bool_decide as Hb; [|done]. by rewrite (file_path_hour h tc now Hb).
  - intros q. unfold records_in. rewrite filter_cons. cbn [fst append_file files]. rewrite lookup_insert.
    destruct (decide (file_path h (gmtime now) = q)) as [Hq|Hq].
    + subst q. cbn [default fmap list_fmap concat]. rewrite Hf. unfold record_of. cbn [fst snd]. by rewrite app_nil_r, <-!app_assoc.
    + cbn [fmap list_fmap concat]. by rewrite Hf, app_nil_r.
Qed.

Lemma fits_same h h' m : h_log_path h' = h_log_path h /\ h_filenameprefix h' = h_filenameprefix h /\
    h_host_name h' = h_host_name h /\ h_log_ident h' = h_log_ident h ->
  (fits h m -> fits h' m) /\ (forall q, records_in h' q [m] = records_in h q [m]) /\
  (forall t, file_path h' t = file_path h t) /\ record_of h' m = record_of h m.
Proof.
  intros (H1 & H2 & H3 & H4). unfold fits, records_in, record_of, log_header, file_path. by rewrite H1, H2, H3, H4.
Qed.


End hourly.

Definition hourly_sample : list (Z * cstr) := [(1234567895, L"one"); (1234571500, L"two"); (1234571501, L"three")].

Definition open_handle_sample : LOG_HANDLE :=
  set_log_fd (FOpen (file_path log_handle_sample (gmtime 1234567890))) log_handle_sample.

Definition open_logs_sample : logs := mk_logs {[0%nat := open_handle_sample]} 1 ∅ [].

Lemma open_sample_handle : handles open_logs_sample !! 0%nat = Some open_handle_sample.
Proof. apply lookup_singleton_eq. Qed.

Lemma open_sample_logging :
  logging open_handle_sample WLOG_HOUR 42 (gmtime 1234567890) (file_path open_handle_sample (gmtime 1234567890)).
Proof. split; [done..| |done]. apply gmtime_ok. Qed.

#[export] Instance fits_dec localtime can_open s p h m : Decision (fits localtime can_open s p h m).
Proof. unfold fits. apply _. Defined.


(** After a pause a record may go to the wrong file: a record whose hour of the
    day is the hour at which the file was opened goes to that file, whatever the
    days; only the field of the period is compared. *)
Theorem hourly_log_stale localtime can_open s now prio message a h g p t0 path :
  (forall t, tm_ok (localtime t)) -> local_handle s = Some a -> handles g !! a = Some h -> logging h WLOG_HOUR p t0 path ->
  can_open path = true -> tm_hour (get_time localtime s now) = tm_hour t0 ->
  no_nul (log_header localtime s now h p ++ message) -> (0 < length (log_header localtime s now h p))%nat ->
  (length (log_header localtime s now h p) + length message <= 511)%nat ->
  exists g', write_log localtime can_open s now prio message g = Some g' /\
    default [] (files g' !! path) = default [] (files g !! path) ++ log_header localtime s now h p ++ message ++ [LF].
Proof.
  intros Hloc Ha Hh Hl Hc Hhour Hn Hpos Hlen.
  assert (Hnext : next_path localtime s now h WLOG_HOUR t0 path = path).
  { unfold next_path, same_period. change (WLOG_HOUR =? WLOG_MONTH) with false. change (WLOG_HOUR =? WLOG_DAY) with false.
    change (WLOG_HOUR =? WLOG_HOUR) with true. cbv iota. by rewrite Hhour, Z.eqb_refl. }
  destruct (write_log_file localtime can_open Hloc s now prio message a h g WLOG_HOUR p t0 path Ha Hh Hl) as
    (g1 & h1 & t1 & _ & _ & _ & Hf & _ & E); [by rewrite Hnext|].
  rewrite Hnext, log_text_ok in E by (done || (unfold MAX_MSG_LEN; lia)).
  rewrite take_ge, decide_True in E by (unfold MAX_MSG_LEN; lia). cbn [fmap option_fmap option_map] in E.
  rewrite decide_True in E by (rewrite length_app; unfold MAX_MSG_LEN; lia).
  eexists. split; [exact E|]. cbn [append_file files]. rewrite lookup_insert_eq. cbn [default]. by rewrite Hf, <-!app_assoc.
Qed.

(** The next day at the same hour. *)
Lemma hourly_log_stale_witness :
  exists g', write_log gmtime (fun _ => true) statics_sample (1234567890 + 86400) 0 (L"late") logs_sample = Some g' /\
    default [] (files g' !! L"f") = L"xSat Feb 14 23:31:30 2009 host id[42]: late" ++ [LF].
Proof.
  destruct (hourly_log_stale gmtime (fun _ => true) statics_sample (1234567890 + 86400) 0 (L"late") 0 log_handle_sample
    logs_sample 42 (gmtime 1234567890) (L"f") gmtime_ok eq_refl eq_refl sample_logging eq_refl) as (g' & E & H).
  - vm_compute. reflexivity.
  - apply (bool_decide_unpack _). vm_compute. exact I.
  - apply (bool_decide_unpack _). vm_compute. exact I.
  - apply (bool_decide_unpack _). vm_compute. exact I.
  - exists g'. split; [exact E|]. refine (eq_trans H _). vm_compute. reflexivity.
Defined.

(** When the next file cannot be opened, the record is written to a NULL stream. *)
Theorem rotation_failure_fatal localtime can_open s now prio message a h g tpf p t0 path :
  (forall t, tm_ok (localtime t)) -> local_handle s = Some a -> handles g !! a = Some h -> logging h tpf p t0 path ->
  same_period tpf t0 (get_time localtime s now) = false -> can_open (file_path h (get_time localtime s now)) = false ->
  write_log localtime can_open s now prio message g = None.
Proof.
  intros Hloc Ha Hh Hl Hsame Hc. unfold write_log. rewrite Ha, Hh. cbn [mbind option_bind].
  rewrite (lg_sys _ _ _ _ _ Hl). cbn [mbind option_bind Z.eqb negb].
  rewrite (check_timepoint_ok localtime can_open Hloc s now a h g tpf p t0 path Ha Hh Hl), Hsame.
  rewrite (rotate_ok localtime can_open s now a h g path Ha Hh (lg_file _ _ _ _ _ Hl)), Hc. cbn [mbind option_bind].
  cbn [put_handle handles]. rewrite lookup_insert_eq. cbn [mbind option_bind set_stream h_pid].
  rewrite (lg_pid _ _ _ _ _ Hl). cbn [mbind option_bind set_stream h_log_fd]. by destruct (log_text _ _).
Qed.

(** A module whose copy of the logger shares the handle compares the time point,
    which the server made in its configured zone, with UTC: with a local zone
    whose hour differs, its record reopens the file under the name of the UTC
    hour, and the server's next record reopens it again. *)
Theorem module_zone_mismatch localtime can_open s a h g tpf p now path :
  (forall t, tm_ok (localtime t)) -> local_handle s = Some a -> handles g !! a = Some h ->
  logging h WLOG_HOUR p (localtime now) path -> (forall q, can_open q = true) ->
  csf_log_timezone s = WLOG_LOCAL -> tm_hour (localtime now) <> tm_hour (gmtime now) -> tpf = WLOG_HOUR ->
  let module := set_local_handle a fresh_statics in
  exists g1 h1, check_timepoint localtime can_open module now g = Some g1 /\ handles g1 !! a = Some h1 /\
    logging h1 WLOG_HOUR p (gmtime now) (file_path h (gmtime now)) /\
    exists g2 h2, check_timepoint localtime can_open s now g1 = Some g2 /\ handles g2 !! a = Some h2 /\
      logging h2 WLOG_HOUR p (localtime now) (file_path h (localtime now)).
Proof.
  intros Hloc Ha Hh Hl Hc Hz Hne ->. cbv zeta.
  assert (Hgm : get_time localtime (set_local_handle a fresh_statics) now = gmtime now) by done.
  assert (Hlt : get_time localtime s now = localtime now) by (unfold get_time; by rewrite Hz).
  assert (Hdiff : forall t t', tm_hour t <> tm_hour t' -> same_period WLOG_HOUR t t' = false)
    by (intros t t' H; change ((tm_hour t =? tm_hour t') = false); by apply Z.eqb_neq).
  destruct (checked localtime can_open Hloc (set_local_handle a fresh_statics) now a h g WLOG_HOUR p (localtime now) path)
    as (g1 & h1 & t1 & E1 & Hh1 & Hl1 & Et1 & _ & Hs1); [done|done|done|apply Hc|].
  unfold next_path in Hl1. rewrite Hgm, (Hdiff _ _ Hne) in Hl1, Et1. subst t1. exists g1, h1. split_and!; [done..|].
  destruct (checked localtime can_open Hloc s now a h1 g1 WLOG_HOUR p (gmtime now) _ Ha Hh1 Hl1 (Hc _))
    as (g2 & h2 & t2 & E2 & Hh2 & Hl2 & Et2 & _ & _).
  unfold next_path in Hl2. rewrite Hlt, (Hdiff (gmtime now)) in Hl2, Et2 by done. subst t2. exists g2, h2.
  split_and!; [done..|].
  assert (Hfp : file_path h1 (localtime now) = file_path h (localtime now)) by (unfold file_path; by destruct Hs1 as (-> & -> & _)).
  by rewrite <-Hfp.
Qed.

(** * Initialisation *)

Lemma method_letter m : strncmp 1 (L"csflogger") m = 0 <-> head m = Some "c"%char.
Proof.
  destruct m as [|x m]; cbn.
  - split; [|done]. vm_compute. done.
  - destruct (Z.eqb_spec (uchar "c"%char) (uchar x)) as [E|E].
    + apply uchar_inj in E as <-. split; done.
    + split; [|intros [= ->]; done]. intros H. destruct E. lia.
Qed.

Section initialisation.
Context (localtime : Z -> tm) (can_open : cstr -> bool) (Hlocal : forall t, tm_ok (localtime t)).
Context (fs : cstr -> option cstr) (stray : ascii) (conf_file : cstr) (items : list item).
Context (Hitems : Forall item_ok items) (Hcount : Z.of_nat (length items) <= 2 ^ 25).
Context (Hfile : fs conf_file = Some (print items)).

(** The statics with the strings of the file. *)
Definition configured_statics (s : statics) : statics :=
  with_log_conf (str_value (meaning [] items ∅) (L"server") <$> log_conf_str s) s.

(** [logger_init] after the configuration has been read and the handle allocated. *)
Lemma logger_init_eq ident getpid hostname now s g :
  let a := next_handle g in
  let s1 := set_local_handle a (configured_statics s) in
  let g1 := mk_logs (handles g) (S a) (files g) (syslogged g) in
  logger_init localtime can_open fs stray conf_file None ident getpid hostname now s g [] =
    if strncmp 1 (L"csflogger") (log_method s1) =? 0 then
      (access ident ≫= fun ident : cstr =>
       let s2 := builtin_statics ident getpid hostname s1 in
       access (create_logfile localtime can_open s2 now (put_handle a (new_handle s2) g1)) ≫= fun r : Z * logs =>
       if negb (r.1 =? LOG_CREATE_OK) then mret (None, s2, r.2)
       else access (handles r.2 !! a) ≫= fun h : LOG_HANDLE => mret (Some a, s2, put_handle a (fill_handle s2 h) r.2)) []
    else Some ((Some a, syslog_statics s1, put_handle a (fill_handle (syslog_statics s1) (new_handle (syslog_statics s1))) g1), []).
Proof.
  cbv zeta. unfold logger_init.
  erewrite alloc_bind_eq by (apply load_conf_ok; [exact Hitems|exact Hcount|apply Forall_nil|exact Hfile]).
  cbv beta iota zeta.
  erewrite alloc_bind_eq by (apply load_conf_ok; [exact Hitems|exact Hcount|apply Forall_nil|exact Hfile]).
  cbv beta iota zeta. cbn [fst snd Z.eqb negb orb].
  erewrite alloc_bind_eq by reflexivity. cbv beta iota. fold (configured_statics s). by case_match.
Qed.

(** What [create_logfile] does in [logger_init]. *)
Lemma create_new s2 a now g1 : local_handle s2 = Some a ->
  create_logfile localtime can_open s2 now (put_handle a (new_handle s2) g1) =
    let t := get_time localtime s2 now in
    let path := file_path (new_handle s2) t in
    Some (if can_open path then LOG_CREATE_OK else LOG_CREATE_FAILED,
          put_handle a (set_stream (if can_open path then FOpen path else FNull) (time_point t) (new_handle s2))
            (if can_open path then append_file path [] g1 else g1)).
Proof.
  intros Ha. unfold create_logfile. rewrite Ha. cbn [mbind option_bind put_handle handles]. rewrite lookup_insert_eq.
  cbn [mbind option_bind]. unfold fopen_a. destruct (can_open _); unfold put_handle, append_file; cbn; by rewrite insert_insert_eq.
Qed.

End initialisation.

(** [logger_init] with a readable configuration: a method that starts with "c"
    selects the built-in logger, and when its file can be opened the handle
    returned is ready for [write_log], in the configured period and zone; if the
    file cannot be opened NULL is returned, but the handle without its fields
    stays installed and the next [write_log] reads it; any other method selects
    the system log, to which [write_log] then sends each message. *)
Theorem logger_init_correct localtime can_open fs stray conf_file items ident getpid hostname now s g :
  (forall t, tm_ok (localtime t)) ->
  Forall item_ok items -> Z.of_nat (length items) <= 2 ^ 25 -> fs conf_file = Some (print items) ->
  let s1 := configured_statics items s in
  let s2 := set_local_handle (next_handle g) (builtin_statics ident getpid hostname s1) in
  let t := get_time localtime s2 now in
  let path := file_path (new_handle s2) t in
  exists r s' g', logger_init localtime can_open fs stray conf_file None (Some ident) getpid hostname now s g [] = Some ((r, s', g'), []) /\
    local_handle s' = Some (next_handle g) /\
    (head (log_method s1) = Some "c"%char -> can_open path = true ->
     r = Some (next_handle g) /\ s' = s2 /\
     exists h, handles g' !! next_handle g = Some h /\ logging h (tpf_of (log_timeperfile s1)) getpid t path) /\
    (head (log_method s1) = Some "c"%char -> can_open path = false ->
     r = None /\ forall now' prio message, write_log localtime can_open s' now' prio message g' = None) /\
    (head (log_method s1) <> Some "c"%char ->
     r = Some (next_handle g) /\ forall now' prio message, exists g2,
       write_log localtime can_open s' now' prio message g' = Some g2 /\
       syslogged g2 = syslogged g' ++ [(prio, strz (take 511 message))]).
Proof.
  intros Hloc Hok Hc Hf. cbv zeta. rewrite (logger_init_eq localtime can_open fs stray conf_file items) by done.
  set (s1 := configured_statics items s). set (a := next_handle g). cbv zeta.
  change (log_method (set_local_handle a s1)) with (log_method s1).
  set (s2 := set_local_handle a (builtin_statics ident getpid hostname s1)).
  destruct (Z.eqb_spec (strncmp 1 (L"csflogger") (log_method s1)) 0) as [E|E]; rewrite method_letter in E.
  - erewrite alloc_bind_eq by (apply access_Some; reflexivity). cbv beta iota zeta.
    change (builtin_statics ident getpid hostname (set_local_handle a s1)) with s2.
    erewrite alloc_bind_eq by (apply access_Some, create_new; reflexivity). cbv beta iota zeta. cbn [fst snd].
    set (t := get_time localtime s2 now). set (path := file_path (new_handle s2) t).
    destruct (can_open path) eqn:Eo; cbn [negb Z.eqb LOG_CREATE_OK LOG_CREATE_FAILED].
    + erewrite alloc_bind_eq by (apply access_Some; cbn [put_handle handles]; apply lookup_insert_eq). cbv beta iota zeta.
      do 3 eexists. split; [done|]. split; [done|]. split_and!; try done. intros _ _. split_and!; [done..|].
      eexists. split; [cbn [put_handle handles]; apply lookup_insert_eq|].
      split; try done. unfold t. by apply get_time_ok.
    + do 3 eexists. split; [done|]. split; [done|]. split_and!; try done. intros _ _. split; [done|]. intros now' prio message.
      unfold write_log. cbn [local_handle s2 set_local_handle put_handle handles]. rewrite lookup_insert_eq. done.
  - do 3 eexists. split; [done|]. split; [done|]. split_and!; try done. intros _. split; [done|]. intros now' prio message.
    unfold write_log. cbn [local_handle syslog_statics set_local_handle put_handle handles]. rewrite lookup_insert_eq.
    cbn. eexists. split; [done|]. done.
Qed.

(** Any name that starts with "c" is taken for the built-in logger. *)
Definition log_items : list item :=
  [ISection (L"server"); IPair (L"log_method") (L"console"); IPair (L"log_path") (L"/l/"); IPair (L"log_timeperfile") (L"day")].

Lemma logger_init_correct_witness :
  exists s' g' h, logger_init gmtime (fun _ => true) (fun _ => Some (print log_items)) NUL [] None (Some (L"csf")) 42 (Some (L"a.b")) 1234567890
      fresh_statics (mk_logs ∅ 0 ∅ []) [] = Some ((Some 0%nat, s', g'), []) /\
    handles g' !! 0%nat = Some h /\ logging h WLOG_DAY 42 (gmtime 1234567890) (L"/l/csflog__20090213_Fri_23.log").
Proof.
  destruct (logger_init_correct gmtime (fun _ => true) (fun _ => Some (print log_items)) NUL [] log_items (L"csf") 42 (Some (L"a.b"))
    1234567890 fresh_statics (mk_logs ∅ 0 ∅ []) gmtime_ok) as (r & s' & g' & E & _ & H & _).
  - apply (bool_decide_unpack _). vm_compute. exact I.
  - vm_compute. discriminate.
  - reflexivity.
  - destruct H as (-> & _ & h & Hh & Hl); [vm_compute; reflexivity|reflexivity|].
    exists s', g', h. split; [exact E|]. split; [exact Hh|]. vm_compute in Hl. exact Hl.
Defined.
