(* ===== verification/Module.v ===== *)
(** Loading the modules named in the configuration file: src/csf/module.c. A
    section that is not the server's or the protocol's is a pipeline stage; its
    shared object is opened, its [_mod_init] called and its MOD_CONFIG queued for
    [pipeline_init]. The dynamic loader and the modules are parameters. *)

From stdpp Require Import sorting.
From S2P Require Import Prelude CString Dictionary IniParser ConfParser Pipeline Stage.

Definition MOD_CONF_ERR : Z := -3.
Definition DEFAULT_THREAD_NUMBER : Z := 8.
Definition DEFAULT_THREAD_STAGE_ID : Z := 1.
Definition DEFAULT_PIPELINE_ID : Z := 0.
Definition DEFAULT_PIPELINE_DELAY : Z := 0.

(** [MOD_CONFIG] without its queue entry; function pointers are numbers. *)
Record MOD_CONFIG : Type := mk_mod_config {
  mc_pipeline_id : Z;
  mc_delay : Z;
  mc_stage_id : Z;
  mc_thread_num : Z;
  mc_mod_name : cstr;
  mc_request_init : option Z;
  mc_request_deinit : option Z;
  mc_request_handler : option Z
}.

Definition set_mc_name (n : cstr) (m : MOD_CONFIG) : MOD_CONFIG :=
  mk_mod_config (mc_pipeline_id m) (mc_delay m) (mc_stage_id m) (mc_thread_num m) n
    (mc_request_init m) (mc_request_deinit m) (mc_request_handler m).

(** [mod_conf_int_array] with the initial values of the static variables. *)
Definition mod_conf_int_array : list CONF_INT_CONFIG :=
  [(L"threads", DEFAULT_THREAD_NUMBER); (L"stage_id", DEFAULT_THREAD_STAGE_ID);
   (L"pipeline_id", DEFAULT_PIPELINE_ID); (L"delay", DEFAULT_PIPELINE_DELAY)].

(** The current value of one of the static variables. *)
Definition static_int (ints : list CONF_INT_CONFIG) (i : nat) : Z := snd (default ([], 0) (ints !! i)).

(** The MOD_CONFIG filled from the static variables after [calloc]. *)
Definition new_config (ints : list CONF_INT_CONFIG) : MOD_CONFIG :=
  mk_mod_config (u32 (static_int ints 2)) (u32 (static_int ints 3)) (static_int ints 1) (static_int ints 0) []
    None None None.

(** * The queue of modules *)

(** The TAILQ_FOREACH that looks for an entry of a later pipeline and inserts
    before it; [None] when there is none ([flag] stays 0). *)
Fixpoint insert_before_later (mcqp : list MOD_CONFIG) (msp : MOD_CONFIG) : option (list MOD_CONFIG) :=
  match mcqp with
  | [] => None
  | msp1 :: q =>
      if mc_pipeline_id msp <? mc_pipeline_id msp1 then Some (msp :: msp1 :: q)
      else (fun q' => msp1 :: q') <$> insert_before_later q msp
  end.

(** The insertion of a module into the queue. *)
Definition insert_config (mcqp : list MOD_CONFIG) (msp : MOD_CONFIG) : list MOD_CONFIG :=
  match insert_before_later mcqp msp with
  | Some q => q
  | None =>
      match list.last mcqp with
      | Some msp1 =>
          if (mc_pipeline_id msp1 =? mc_pipeline_id msp) && (mc_stage_id msp <? mc_stage_id msp1)
          then take (length mcqp - 1) mcqp ++ [msp; msp1]
          else mcqp ++ [msp]
      | None => mcqp ++ [msp]
      end
  end.

(** * Loading *)

(** [snprintf (buf, 2 * CONF_ITEM_LEN, "%s/%s", dir, name)]. *)
Definition mod_path (dir name : cstr) : cstr := take (2 * CONF_ITEM_LEN - 1) (dir ++ L"/" ++ name).

Section loader.
Context {lib proto : Type}.

(** [dlopen], the symbols [_protocol_init] and [_mod_init] of a library; a
    module's [_mod_init] gets the section name and the MOD_CONFIG and returns a
    status and the MOD_CONFIG it leaves. *)
Context (dlopen : cstr -> option lib) (protocol_sym : lib -> option proto)
  (mod_sym : lib -> option (cstr -> MOD_CONFIG -> Z * MOD_CONFIG)).
Context (fs : cstr -> option cstr) (stray : ascii) (conf_file mod_dir protocol_module : cstr).

(** What the component changes: the static variables, the queue, the open
    libraries and the registered protocol initialiser. *)
Record mod_state : Type := mk_mod_state {
  ms_ints : list CONF_INT_CONFIG;
  ms_queue : list MOD_CONFIG;
  ms_open : list cstr;
  ms_protocol : option proto
}.

(** [load_protocol_mod]. *)
Definition load_protocol_mod (dir mod_name : cstr) (s : mod_state) : Z * mod_state :=
  let buf := mod_path dir mod_name in
  match dlopen buf with
  | None => (CSF_ERR, s)
  | Some handle =>
      let s' := mk_mod_state (ms_ints s) (ms_queue s) (buf :: ms_open s) (ms_protocol s) in
      match protocol_sym handle with
      | None => (CSF_ERR, s')
      | Some p => (CSF_OK, mk_mod_state (ms_ints s') (ms_queue s') (ms_open s') (Some p))
      end
  end.

(** Whether a section is a stage: [strncmp] over the length of its name. *)
Definition is_stage_section (secname : cstr) : bool :=
  negb (strncmp (length secname) secname (L"server") =? 0) &&
  negb (strncmp (length secname) secname protocol_module =? 0).

(** One section of the loop of [mod_config_init]: [inl code] returns from it. A
    NULL [_mod_init] is called, and a pipeline number out of range is printed
    from the freed and cleared [msp]: both are faults. *)
Definition load_section (conf : dictionary) (secname : cstr) (s : mod_state) : Alloc ((Z * mod_state) + mod_state) :=
  if negb (is_stage_section secname) then mret (inr s)
  else
    let buf := mod_path mod_dir secname in
    match dlopen buf with
    | None =>
        access (close_conf_file (Some conf)) ≫= fun _ : list cstr => mret (inl (CSF_ERR, s))
    | Some handle =>
        allocate ≫= fun ok : bool =>
        if negb ok then
          access (close_conf_file (Some conf)) ≫= fun _ : list cstr => mret (inl (CSF_ERR, s))
        else
          let opened := buf :: ms_open s in
          load_conf fs stray conf_file None (Some secname) (ms_ints s) []
          ≫= fun r : Z * list CONF_INT_CONFIG * list CONF_STR_CONFIG =>
          let s1 := mk_mod_state r.1.2 (ms_queue s) opened (ms_protocol s) in
          if negb (r.1.1 =? 0) then mret (inl (MOD_CONF_ERR, s1))
          else
            access (mod_sym handle) ≫= fun mip : cstr -> MOD_CONFIG -> Z * MOD_CONFIG =>
            let '(retval, msp) := mip secname (new_config (ms_ints s1)) in
            if retval <? 0 then
              access (close_conf_file (Some conf)) ≫= fun _ : list cstr =>
              mret (inl (CSF_ERR, mk_mod_state (ms_ints s1) (ms_queue s) (ms_open s) (ms_protocol s)))
            else if PIPELINE_SIZE <=? mc_pipeline_id msp then fault
            else
              let msp := set_mc_name (strlcpy_str MAX_MOD_NAME_LEN secname) msp in
              mret (inr (mk_mod_state (ms_ints s1) (insert_config (ms_queue s) msp) opened (ms_protocol s)))
    end.

(** The loop over the sections [i .. nsec - 1]. *)
Fixpoint load_sections (conf : dictionary) (is_ : list nat) (s : mod_state) : Alloc ((Z * mod_state) + mod_state) :=
  match is_ with
  | [] => mret (inr s)
  | i :: rest =>
      access (iniparser_getsecname (Some conf) (Z.of_nat i)) ≫= fun name : option cstr =>
      access name ≫= fun secname : cstr =>
      load_section conf secname s ≫= fun r : (Z * mod_state) + mod_state =>
      match r with inl done => mret (inl done) | inr s' => load_sections conf rest s' end
  end.

(** [mod_config_init]. *)
Definition mod_config_init (s : mod_state) : Alloc (Z * mod_state) :=
  open_conf_file fs stray conf_file None ≫= fun conf : option dictionary =>
  match conf with
  | None => mret (CSF_ERR, s)
  | Some d =>
      let s := (load_protocol_mod mod_dir protocol_module s).2 in
      access (iniparser_getnsec conf) ≫= fun nsec : Z =>
      if nsec <? 1 then access (close_conf_file conf) ≫= fun _ : list cstr => mret (CSF_OK, s)
      else
        load_sections d (seq 0 (Z.to_nat nsec)) s ≫= fun r : (Z * mod_state) + mod_state =>
        match r with
        | inl done => mret done
        | inr s' => access (close_conf_file conf) ≫= fun _ : list cstr => mret (CSF_OK, s')
        end
  end.

End loader.
Arguments mod_state : clear implicits.

(** * Order of the queue *)

(** Order by pipeline, and by pipeline and stage. *)
Definition pl_le (a b : MOD_CONFIG) : Prop := mc_pipeline_id a <= mc_pipeline_id b.
Definition lex_le (a b : MOD_CONFIG) : Prop :=
  mc_pipeline_id a < mc_pipeline_id b \/ mc_pipeline_id a = mc_pipeline_id b /\ mc_stage_id a <= mc_stage_id b.

Lemma insert_before_later_spec q m :
  match insert_before_later q m with
  | Some q' => exists l1 x l2, q = l1 ++ x :: l2 /\ q' = l1 ++ m :: x :: l2 /\ mc_pipeline_id m < mc_pipeline_id x /\
      Forall (fun y => mc_pipeline_id y <= mc_pipeline_id m) l1
  | None => Forall (fun y => mc_pipeline_id y <= mc_pipeline_id m) q
  end.
Proof.
  induction q as [|y q IH]; cbn [insert_before_later]; [done|].
  destruct (Z.ltb_spec (mc_pipeline_id m) (mc_pipeline_id y)).
  - exists [], y, q. by split_and!.
  - destruct (insert_before_later q m) as [q'|]; cbn.
    + destruct IH as (l1 & x & l2 & -> & -> & Hlt & Hf). exists (y :: l1), x, l2. split_and!; try done. by constructor.
    + by constructor.
Qed.

(** Where the new entry goes: after the entries of its own and earlier pipelines,
    but for the last entry when that is a later stage of the same pipeline. *)
Lemma insert_config_split q m :
  (exists l1 x l2, q = l1 ++ x :: l2 /\ insert_config q m = l1 ++ m :: x :: l2 /\ mc_pipeline_id m < mc_pipeline_id x /\
     Forall (fun y => mc_pipeline_id y <= mc_pipeline_id m) l1) \/
  (exists l1 x, q = l1 ++ [x] /\ insert_config q m = l1 ++ [m; x] /\ mc_pipeline_id x = mc_pipeline_id m /\
     mc_stage_id m < mc_stage_id x /\ Forall (fun y => mc_pipeline_id y <= mc_pipeline_id m) l1) \/
  (insert_config q m = q ++ [m] /\ Forall (fun y => mc_pipeline_id y <= mc_pipeline_id m) q).
Proof.
  unfold insert_config. pose proof (insert_before_later_spec q m) as H.
  destruct (insert_before_later q m) as [q'|].
  { left. destruct H as (l1 & x & l2 & ? & -> & ? & ?). by exists l1, x, l2. }
  right. destruct q as [|x l1 _] using rev_ind; [by right|]. rewrite last_snoc.
  apply list.Forall_app in H as [H1 H2]. case_match eqn:E; bool_props.
  - left. exists l1, x. split_and!; try done. rewrite length_app. cbn [length].
    rewrite Nat.add_sub. by rewrite take_app_length.
  - right. split; [done|]. by apply list.Forall_app.
Qed.

Lemma insert_config_Permutation q m : insert_config q m ≡ₚ m :: q.
Proof.
  destruct (insert_config_split q m) as [(l1 & x & l2 & -> & -> & _)|[(l1 & x & -> & -> & _)|(-> & _)]].
  - by rewrite Permutation_middle.
  - by rewrite Permutation_middle.
  - by rewrite Permutation_app_comm.
Qed.

Lemma StronglySorted_snoc {A} (R : relation A) l x :
  StronglySorted R l -> Forall (fun y => R y x) l -> StronglySorted R (l ++ [x]).
Proof.
  induction 1 as [|y l Hs IH Hy]; cbn; intros Hf; [repeat constructor|].
  inversion_clear Hf. constructor; [by apply IH|]. apply list.Forall_app. split; [done|]. by repeat constructor.
Qed.

Lemma StronglySorted_mid {A} (R : relation A) `{!Transitive R} l1 m x l2 :
  StronglySorted R (l1 ++ x :: l2) -> R m x -> Forall (fun y => R y m) l1 -> StronglySorted R (l1 ++ m :: x :: l2).
Proof.
  induction l1 as [|y l1 IH]; cbn; intros Hs Hm Hf.
  - constructor; [done|]. inversion_clear Hs as [|? ? _ Hx]. constructor; [done|].
    eapply list.Forall_impl; [exact Hx|]. cbn. intros z. by transitivity x.
  - inversion_clear Hs as [|? ? Hs' Hy]. inversion_clear Hf. constructor; [by apply IH|].
    apply list.Forall_app in Hy as [? ?]. apply list.Forall_app. split; [done|]. by constructor.
Qed.

#[export] Instance pl_le_trans : Transitive pl_le.
Proof. intros ? ? ?; unfold pl_le; lia. Qed.

#[export] Instance lex_le_trans : Transitive lex_le.
Proof. intros ? ? ?; unfold lex_le; lia. Qed.

Lemma insert_config_pl_sorted q m : StronglySorted pl_le q -> StronglySorted pl_le (insert_config q m).
Proof.
  intros Hs.
  destruct (insert_config_split q m) as [(l1 & x & l2 & -> & -> & H1 & H2)|[(l1 & x & -> & -> & H1 & _ & H2)|(-> & H2)]].
  - apply StronglySorted_mid; [apply _|done|unfold pl_le; lia|done].
  - apply StronglySorted_mid; [apply _|done|unfold pl_le; lia|done].
  - by apply StronglySorted_snoc.
Qed.

(** The queue of modules is kept in the order of the pipelines whatever the
    order of the sections, each insertion adds exactly the new module, and when
    the stages of each pipeline arrive in order the queue has the order the
    comment in [mod_config_init] gives: by pipeline first and by stage second. *)
Theorem insert_config_sorted q m :
  insert_config q m ≡ₚ m :: q /\
  (StronglySorted pl_le q -> StronglySorted pl_le (insert_config q m)) /\
  (StronglySorted lex_le q ->
   Forall (fun y => mc_pipeline_id y = mc_pipeline_id m -> mc_stage_id y <= mc_stage_id m) q ->
   StronglySorted lex_le (insert_config q m)).
Proof.
  split; [apply insert_config_Permutation|]. split; [apply insert_config_pl_sorted|]. intros Hs Hst.
  assert (forall l, l ⊆ q -> Forall (fun y => mc_pipeline_id y <= mc_pipeline_id m) l -> Forall (fun y => lex_le y m) l) as Hle.
  { intros l Hl Hf. rewrite list.Forall_forall in Hf, Hst |- *. intros y Hy.
    specialize (Hf y Hy). specialize (Hst y (Hl y Hy)). unfold lex_le. lia. }
  destruct (insert_config_split q m) as [(l1 & x & l2 & -> & -> & H1 & H2)|[(l1 & x & -> & -> & H1 & H3 & H2)|(-> & H2)]].
  - apply StronglySorted_mid; [apply _|done|left; lia|]. apply Hle; [set_solver|done].
  - rewrite list.Forall_app, list.Forall_singleton in Hst. destruct Hst as [_ Hx]. specialize (Hx H1). lia.
  - apply StronglySorted_snoc; [done|]. by apply Hle.
Qed.

Definition cfg (pid sid : Z) : MOD_CONFIG := mk_mod_config pid 0 sid 8 [] None None None.

Lemma insert_config_sorted_witness :
  StronglySorted lex_le (insert_config [cfg 1 1; cfg 1 2; cfg 3 1] (cfg 1 4)).
Proof.
  apply (insert_config_sorted [cfg 1 1; cfg 1 2; cfg 3 1] (cfg 1 4)).
  - repeat constructor; unfold lex_le; cbn; lia.
  - repeat constructor; cbn; lia.
Defined.

(** * What [mod_config_init] hands to [pipeline_init] *)

(** A pipeline number that indexes [pcb], and a name that fits its array. *)
Definition config_ok (m : MOD_CONFIG) : Prop :=
  0 <= mc_pipeline_id m < PIPELINE_SIZE /\ (length (mc_mod_name m) < MAX_MOD_NAME_LEN)%nat.

Definition queue_ok (q : list MOD_CONFIG) : Prop := StronglySorted pl_le q /\ Forall config_ok q.

Section invariant.
Context {lib proto : Type} (dlopen : cstr -> option lib) (protocol_sym : lib -> option proto)
  (mod_sym : lib -> option (cstr -> MOD_CONFIG -> Z * MOD_CONFIG)).
Context (fs : cstr -> option cstr) (stray : ascii) (conf_file mod_dir protocol_module : cstr).

(** A module stores a [uint32_t] in [pipeline_id]. *)
Hypothesis mod_sym_uint32 : forall handle mip secname m,
  mod_sym handle = Some mip -> 0 <= mc_pipeline_id m < 2 ^ 32 -> 0 <= mc_pipeline_id (mip secname m).2 < 2 ^ 32.

(** The queue after a step holds the queue before it. *)
Definition extends (s s' : mod_state proto) : Prop :=
  queue_ok (ms_queue s') /\ exists new, ms_queue s' ≡ₚ new ++ ms_queue s.

Lemma extends_refl s s' : ms_queue s' = ms_queue s -> queue_ok (ms_queue s) -> extends s s'.
Proof. intros E Hq. unfold extends. rewrite E. split; [done|]. by exists []. Qed.

Lemma insert_config_ok q m : queue_ok q -> config_ok m -> queue_ok (insert_config q m).
Proof.
  intros [Hs Hf] Hm. split; [by apply insert_config_pl_sorted|]. rewrite insert_config_Permutation. by constructor.
Qed.

Lemma load_section_extends conf secname s : queue_ok (ms_queue s) ->
  yields (load_section dlopen mod_sym fs stray conf_file mod_dir protocol_module conf secname s)
    (fun r => match r with inl cs => extends s cs.2 | inr s' => extends s s' end).
Proof.
  intros Hq. pose proof extends_refl as Hr. unfold load_section. case_match; [by apply yields_ret, Hr|].
  case_match eqn:Eh; [|apply yields_any; intros; by apply yields_ret, Hr].
  apply yields_any; intros [|]; cbn [negb]; [|apply yields_any; intros; by apply yields_ret, Hr].
  apply yields_any; intros [[code ints] strs]; cbn [fst snd]. case_match; [by apply yields_ret, Hr|].
  apply (yields_bind _ _ (fun mip => mod_sym l = Some mip)).
  { intros o x o'. unfold access. destruct (mod_sym l); cbn; congruence. }
  intros mip Em. pose proof (mod_sym_uint32 l mip secname (new_config ints) Em (u32_range _)) as Hu.
  cbn [ms_ints]. destruct (mip secname (new_config ints)) as [retval msp]. cbn [snd] in Hu.
  case_match; [apply yields_any; intros; by apply yields_ret, Hr|].
  case_match; bool_props; [apply yields_fault|]. apply yields_ret. split; cbn [ms_queue].
  - apply insert_config_ok; [done|]. split; [cbn; lia|]. cbn [set_mc_name mc_mod_name].
    unfold strlcpy_str, MAX_MOD_NAME_LEN. rewrite length_take. lia.
  - eexists [_]. apply insert_config_Permutation.
Qed.

Lemma extends_trans s1 s2 s3 : extends s1 s2 -> extends s2 s3 -> extends s1 s3.
Proof.
  intros [_ [n1 H1]] [Hq [n2 H2]]. split; [done|]. exists (n2 ++ n1). by rewrite H2, H1, (assoc_L (++)).
Qed.

Lemma load_sections_extends conf is_ s : queue_ok (ms_queue s) ->
  yields (load_sections dlopen mod_sym fs stray conf_file mod_dir protocol_module conf is_ s)
    (fun r => match r with inl cs => extends s cs.2 | inr s' => extends s s' end).
Proof.
  revert s. induction is_ as [|i rest IH]; intros s Hq; cbn [load_sections].
  { by apply yields_ret, extends_refl. }
  apply yields_any; intros name. apply yields_any; intros secname.
  eapply yields_bind; [by apply load_section_extends|]. intros [cs|s'] He; [by apply yields_ret|].
  intros o x o' E. specialize (IH s' (proj1 He) o x o' E). cbn beta in IH.
  destruct x; by apply (extends_trans s s').
Qed.

Lemma mod_config_init_extends s : queue_ok (ms_queue s) ->
  yields (mod_config_init dlopen protocol_sym mod_sym fs stray conf_file mod_dir protocol_module s) (fun cs => extends s cs.2).
Proof.
  intros Hq. unfold mod_config_init. apply yields_any; intros [conf|]; [|by apply yields_ret, extends_refl].
  set (s0 := (load_protocol_mod _ _ _ _ s).2).
  assert (ms_queue s0 = ms_queue s) as E0 by (unfold s0, load_protocol_mod; by case_all).
  apply yields_any; intros nsec. case_match.
  { apply yields_any; intros. by apply yields_ret, extends_refl. }
  eapply yields_bind; [apply load_sections_extends; by rewrite E0|].
  intros [cs|s1] He; unfold extends in He; rewrite E0 in He; [by apply yields_ret|].
  apply yields_any; intros. by apply yields_ret.
Qed.

(** C34: Whatever the configuration file, the libraries and the outcomes of the
    allocations, and also when it fails half way, [mod_config_init] leaves a queue
    that holds the modules that were there, is ordered by pipeline, and whose
    pipeline numbers are indices of the array [pcb] and whose names are
    terminated strings of the [mod_name] arrays. *)
Theorem mod_config_init_inv s o code s' o' :
  queue_ok (ms_queue s) ->
  mod_config_init dlopen protocol_sym mod_sym fs stray conf_file mod_dir protocol_module s o = Some ((code, s'), o') ->
  queue_ok (ms_queue s') /\ exists new, ms_queue s' ≡ₚ new ++ ms_queue s.
Proof. intros Hq E. exact (mod_config_init_extends s Hq _ _ _ E). Qed.

End invariant.

(** * A load that succeeds *)

Section success.
Context {lib proto : Type} (dlopen : cstr -> option lib) (protocol_sym : lib -> option proto)
  (mod_sym : lib -> option (cstr -> MOD_CONFIG -> Z * MOD_CONFIG)).
Context (fs : cstr -> option cstr) (stray : ascii) (conf_file mod_dir protocol_module : cstr).

(** What the sections configure, one after the other: the static variables carry
    the values of the earlier sections, [init] is the [_mod_init] of the module
    of a section. [None] when a module refuses or asks for a pipeline that does
    not exist. *)
Fixpoint load_all (m : gmap cstr (option cstr)) (init : cstr -> MOD_CONFIG -> Z * MOD_CONFIG) (secs : list cstr)
  (ints : list CONF_INT_CONFIG) : option (list CONF_INT_CONFIG * list MOD_CONFIG) :=
  match secs with
  | [] => Some (ints, [])
  | sec :: rest =>
      if is_stage_section protocol_module sec then
        let ints' := int_value m sec <$> ints in
        let '(rv, c) := init sec (new_config ints') in
        if bool_decide (ints_ok m sec ints) && (0 <=? rv) && (mc_pipeline_id c <? PIPELINE_SIZE) then
          r ← load_all m init rest ints';
          Some (r.1, set_mc_name (strlcpy_str MAX_MOD_NAME_LEN sec) c :: r.2)
        else None
      else load_all m init rest ints
  end.

(** Every section that names a stage has a library with that [_mod_init]. *)
Definition libraries (init : cstr -> MOD_CONFIG -> Z * MOD_CONFIG) (secs : list cstr) : Prop :=
  Forall (fun sec => is_stage_section protocol_module sec = true -> exists handle mip,
    dlopen (mod_path mod_dir sec) = Some handle /\ mod_sym handle = Some mip /\ forall c, mip sec c = init sec c) secs.

Context (items : list item) (Hitems : Forall item_ok items) (Hcount : Z.of_nat (length items) <= 2 ^ 25)
  (Hfile : fs conf_file = Some (print items)).
Let m := meaning [] items ∅.

Lemma load_sections_ok init conf n k secs (s : mod_state proto) ints' cfgs :
  dict_wf conf -> drop k (sections conf) = secs -> n = length secs -> libraries init secs ->
  load_all m init secs (ms_ints s) = Some (ints', cfgs) ->
  exists opened, load_sections dlopen mod_sym fs stray conf_file mod_dir protocol_module conf (seq k n) s [] =
    Some (inr (mk_mod_state ints' (foldl insert_config (ms_queue s) cfgs) opened (ms_protocol s)), []).
Proof.
  intros Hwf. revert k n s ints' cfgs. induction secs as [|sec secs IH]; intros k n s ints' cfgs Hd -> Hl Ha.
  { cbn in Ha. injection Ha as <- <-. exists (ms_open s). by destruct s. }
  destruct (sections_enumerated conf Hwf) as [_ Hget]. cbn [length seq load_sections].
  erewrite alloc_bind_eq by (apply access_Some, Hget).
  assert (sections conf !! k = Some sec) as Hk by (rewrite <-(Nat.add_0_r k), <-lookup_drop, Hd; done).
  rewrite Hk. erewrite alloc_bind_eq by reflexivity.
  assert (drop (S k) (sections conf) = secs) as Hd' by (rewrite <-Nat.add_1_r, <-drop_drop, Hd; done).
  inversion_clear Hl as [|? ? Hlib Hl']. cbn [load_all] in Ha. unfold load_section.
  destruct (is_stage_section protocol_module sec) eqn:Es; cbn [negb].
  2:{ erewrite alloc_bind_eq by reflexivity. by apply IH. }
  destruct (Hlib eq_refl) as (handle & mip & Hdl & Hsym & Hmip).
  destruct (init sec (new_config (int_value m sec <$> ms_ints s))) as [rv c] eqn:Ei.
  destruct (bool_decide _ && _ && _) eqn:Eok; [|done].
  apply andb_prop in Eok as [[Hi Hrv]%andb_prop Hpid]. apply bool_decide_eq_true in Hi. apply Z.leb_le in Hrv. apply Z.ltb_lt in Hpid.
  destruct (load_all m init secs (int_value m sec <$> ms_ints s)) as [[ints1 cfgs1]|] eqn:Er; [|done].
  injection Ha as <- <-. rewrite Hdl. set (new := set_mc_name (strlcpy_str MAX_MOD_NAME_LEN sec) c).
  erewrite alloc_bind_eq.
  2:{ erewrite alloc_bind_eq by reflexivity. cbn [negb].
      erewrite alloc_bind_eq by (apply (load_conf_ok _ _ _ _ _ items); done). cbn [fst snd]. change (0 =? 0) with true. cbn [negb].
      erewrite alloc_bind_eq by (apply access_Some; exact Hsym). cbn [ms_ints]. fold m. rewrite Hmip, Ei.
      rewrite (proj2 (Z.ltb_ge rv 0) Hrv), (proj2 (Z.leb_gt _ _) Hpid). reflexivity. }
  cbv beta iota. edestruct (IH (S k)) as (opened & ->); [done|done|done|exact Er|]. by exists opened.
Qed.

(** With a library that accepts its configuration for every stage section,
    [mod_config_init] returns CSF_OK with exactly the configured modules, inserted
    in the order of the sections. *)
Lemma mod_config_init_ok init (s : mod_state proto) ints' cfgs conf :
  iniparser_load stray (Some (print items)) [] = Some (Some conf, []) -> dict_wf conf ->
  libraries init (sections conf) -> load_all m init (sections conf) (ms_ints s) = Some (ints', cfgs) ->
  exists opened, mod_config_init dlopen protocol_sym mod_sym fs stray conf_file mod_dir protocol_module s [] =
    Some ((CSF_OK, mk_mod_state ints' (foldl insert_config (ms_queue s) cfgs) opened
                     (ms_protocol (load_protocol_mod dlopen protocol_sym mod_dir protocol_module s).2)), []).
Proof.
  intros Eload Hwf Hl Ha. unfold mod_config_init.
  set (s0 := (load_protocol_mod dlopen protocol_sym mod_dir protocol_module s).2).
  assert (ms_queue s0 = ms_queue s /\ ms_ints s0 = ms_ints s) as [Eq Ei] by (unfold s0, load_protocol_mod; by case_all).
  destruct (sections_enumerated conf Hwf) as [Hn _]. destruct (dictionary_del_ok conf Hwf) as (freed & Ed).
  erewrite alloc_bind_eq by (unfold open_conf_file; cbn [default]; rewrite Hfile; exact Eload).
  cbv beta iota zeta. erewrite alloc_bind_eq by (apply access_Some, Hn). rewrite <-Ei in Ha.
  destruct (load_sections_ok init conf (length (sections conf)) 0 (sections conf) s0 ints' cfgs Hwf eq_refl eq_refl Hl Ha)
    as (opened & E).
  destruct (Z.ltb_spec (Z.of_nat (length (sections conf))) 1) as [Hlt|Hge].
  - assert (sections conf = []) as Es by (apply nil_length_inv; lia). rewrite Es in Ha. cbn in Ha. injection Ha as <- <-.
    erewrite alloc_bind_eq by (apply access_Some; exact Ed). exists (ms_open s0). rewrite <-Eq. by destruct s0.
  - erewrite alloc_bind_eq by (rewrite Nat2Z.id; exact E). cbv beta iota.
    erewrite alloc_bind_eq by (apply access_Some; exact Ed). exists opened. by rewrite <-Eq.
Qed.

End success.

(** * Runs *)

(** A file system with one file, a loader that finds every library and modules
    that accept every configuration. *)
Definition one_file (items : list item) (name : cstr) : option cstr :=
  if decide (name = L"csf.conf") then Some (print items) else None.

Definition run_modules (items : list item) : option ((Z * mod_state unit) * list bool) :=
  mod_config_init (lib := unit) (fun _ => Some ()) (fun _ => Some ()) (fun _ => Some (fun _ m => (0, m)))
    (one_file items) NUL (L"csf.conf") (L"./") (L"proto.so") (mk_mod_state mod_conf_int_array [] [] None) [].

(** The positions of the modules in the queue. *)
Definition positions (r : option ((Z * mod_state unit) * list bool)) : option (list (cstr * Z * Z * Z)) :=
  (fun x => (fun m => (mc_mod_name m, mc_pipeline_id m, mc_stage_id m, mc_thread_num m)) <$> ms_queue x.1.2) <$> r.

Definition stage_items (name : string) (pid sid : string) : list item :=
  [ISection (L name); IPair (L"pipeline_id") (L pid); IPair (L"stage_id") (L sid)].

Definition mods_sample : list item :=
  stage_items "a.so" "2" "1" ++ stage_items "b.so" "1" "2" ++ [IPair (L"threads") (L"3")] ++ stage_items "c.so" "1" "1".

Lemma mod_config_init_inv_witness :
  exists code s' o', run_modules mods_sample = Some ((code, s'), o') /\ queue_ok (ms_queue s') /\ length (ms_queue s') = 3%nat.
Proof.
  destruct (run_modules mods_sample) as [[[code s'] o']|] eqn:E; [|vm_compute in E; discriminate].
  exists code, s', o'. split; [reflexivity|]. split.
  - refine (proj1 (mod_config_init_inv (fun _ => Some ()) (fun _ => Some ()) (fun _ => Some (fun _ m => (0, m)))
      (one_file mods_sample) NUL (L"csf.conf") (L"./") (L"proto.so") _
      (mk_mod_state mod_conf_int_array [] [] None) [] code s' o' _ E)).
    + intros handle mip secname m [= <-]. cbn. auto.
    + split; constructor.
  - vm_compute in E. injection E as _ <- _. reflexivity.
Defined.

(** The order inside a pipeline is not the one the comment gives when its stages
    do not arrive in order: stage 2 of pipeline 1 precedes its stage 1. The last
    module, which sets no thread number, gets the one of the module before it and
    not the default. *)
Theorem mod_config_init_order :
  positions (run_modules mods_sample) =
    Some [(L"b.so", 1, 2, 3); (L"c.so", 1, 1, 3); (L"a.so", 2, 1, DEFAULT_THREAD_NUMBER)].
Proof. vm_compute. reflexivity. Qed.

(** A pipeline number of 16 or more is not ignored as the message says: the
    message reads the cleared pointer. A section named by a prefix of [server] is
    not loaded at all. *)
Theorem mod_config_init_ignored :
  run_modules (stage_items "a.so" "16" "1") = None /\
  positions (run_modules (stage_items "serve" "1" "1")) = Some [].
Proof. split; vm_compute; reflexivity. Qed.
