(* ===== verification/ModuleLib.v ===== *)
(** The libraries linked into every module: src/csf/libmod.c for the stages and
    src/csf/libprotocol.c for the protocol. Each module has copies of its own of
    the logger, the monitor, the stage index and the memory pool, which
    [_mod_init] and [_protocol_init] connect to those of the worker through the
    handles in COMM_HANDLE; a handle that is NULL gives the module a private one.
    The module's own [mod_init] or [protocol_init] is a parameter. *)

From S2P Require Import Prelude CString RbTree Stage Mempool Dictionary IniParser ConfParser Slist NetIo Monitor MonitorProps Log LogProps Module Utils.

Definition MOD_LIB_ERR : Z := -1.
Definition MOD_VER_ERR : Z := -2.
Definition PROTO_INIT_OK : Z := 0.
Definition PROTO_INIT_ERR : Z := -1.
Definition PROTO_VER_ERR : Z := -2.
Definition PROTO_NAME_LEN : nat := 127.
Definition MOD_CORE_VER_REQUIRE : Z := 0x00400000.
Definition PROTO_CORE_VER_REQUIRE : Z := 0x00310000.

(** The version the worker offers ([gvcb]). *)
Definition gvcb : Z := 0x00400000.

(** * Registration by a stage module *)

(** The calls of the registration functions a module makes in [mod_init]. *)
Inductive reg_call : Type :=
| set_request_init (rip : Z)
| set_request_handler (rhp : Z)
| set_request_deinit (rdp : Z).

(** A call, when [ripp], [rhpp] and [rdpp] point into the MOD_CONFIG. *)
Definition run_reg (c : reg_call) (m : MOD_CONFIG) : MOD_CONFIG :=
  match c with
  | set_request_init f =>
      mk_mod_config (mc_pipeline_id m) (mc_delay m) (mc_stage_id m) (mc_thread_num m) (mc_mod_name m)
        (Some f) (mc_request_deinit m) (mc_request_handler m)
  | set_request_deinit f =>
      mk_mod_config (mc_pipeline_id m) (mc_delay m) (mc_stage_id m) (mc_thread_num m) (mc_mod_name m)
        (mc_request_init m) (Some f) (mc_request_handler m)
  | set_request_handler f =>
      mk_mod_config (mc_pipeline_id m) (mc_delay m) (mc_stage_id m) (mc_thread_num m) (mc_mod_name m)
        (mc_request_init m) (mc_request_deinit m) (Some f)
  end.

Definition run_regs (cs : list reg_call) (m : MOD_CONFIG) : MOD_CONFIG := foldl (fun m c => run_reg c m) m cs.

(** * Registration by the protocol *)

Record PROTO_CONFIG : Type := mk_proto_config {
  protocol_session_start : option Z;
  protocol_session_entry : option Z;
  protocol_session_end : option Z;
  local_entry : option Z
}.

Inductive proto_call : Type :=
| set_local_entry (f : Z)
| set_protocol_session_start (f : Z)
| set_protocol_session_entry (f : Z)
| set_protocol_session_end (f : Z).

(** A call through [g_pcp], which is NULL before [_protocol_init]. *)
Definition run_proto (c : proto_call) (g_pcp : option PROTO_CONFIG) : option PROTO_CONFIG :=
  p ← g_pcp;
  Some (match c with
        | set_local_entry f =>
            mk_proto_config (protocol_session_start p) (protocol_session_entry p) (protocol_session_end p) (Some f)
        | set_protocol_session_start f =>
            mk_proto_config (Some f) (protocol_session_entry p) (protocol_session_end p) (local_entry p)
        | set_protocol_session_entry f =>
            mk_proto_config (protocol_session_start p) (Some f) (protocol_session_end p) (local_entry p)
        | set_protocol_session_end f =>
            mk_proto_config (protocol_session_start p) (protocol_session_entry p) (Some f) (local_entry p)
        end).

Definition run_protos (cs : list proto_call) (g_pcp : option PROTO_CONFIG) : option PROTO_CONFIG :=
  foldl (fun p c => run_proto c p) g_pcp cs.

(** ** The calls of protocol.c *)

(** [do_protocol_session_start], [do_protocol_session_end] and the choice of
    [do_protocol_session_entry]: the function of the protocol that is called. *)
Definition do_protocol_session_start (pc : PROTO_CONFIG) (cip : option nat) : option (Z * nat) :=
  match protocol_session_start pc, cip with Some f, Some c => Some (f, c) | _, _ => None end.
Definition do_protocol_session_end (pc : PROTO_CONFIG) (cip : nat) : option (Z * nat) :=
  match protocol_session_end pc with Some f => Some (f, cip) | None => None end.

(** [set_protocol_init]. *)
Definition set_protocol_init {A} (init : A) (_ : option A) : option A := Some init.

(** * Input and output for modules *)

(** The functions of the transports that a module can reach, and the table of a
    transport. *)
Inductive io_fn : Type := tcp_send_back_fn | tcp_sendfile_fn | tcp_writev_fn | tcp_write_fn | udp_send_back_fn.

Record COMM_PROTO_OPS : Type := mk_ops {
  ops_send_back : option io_fn;
  ops_send_file : option io_fn;
  ops_writev_back : option io_fn;
  ops_write_back : option io_fn
}.

Definition tcp_table : COMM_PROTO_OPS :=
  mk_ops (Some tcp_send_back_fn) (Some tcp_sendfile_fn) (Some tcp_writev_fn) (Some tcp_write_fn).
Definition udp_table : COMM_PROTO_OPS := mk_ops (Some udp_send_back_fn) None None None.

(** The call made: an error at once, or the function of the transport; a NULL
    function is a fault. *)
Inductive io_result : Type := IoErr (rc : Z) | IoCall (f : io_fn).

Definition send_file (cip : option COMM_PROTO_OPS) : option io_result :=
  match cip with None => Some (IoErr MOD_LIB_ERR) | Some ops => IoCall <$> ops_send_file ops end.
Definition writev_back (cip : option COMM_PROTO_OPS) : option io_result :=
  match cip with None => Some (IoErr MOD_LIB_ERR) | Some ops => IoCall <$> ops_writev_back ops end.
Definition write_back (cip : option COMM_PROTO_OPS) : option io_result :=
  match cip with None => Some (IoErr MOD_LIB_ERR) | Some ops => IoCall <$> ops_write_back ops end.
Definition send_back (cip : option COMM_PROTO_OPS) : option io_result :=
  match cip with None => Some (IoErr (-1)) | Some ops => IoCall <$> ops_send_back ops end.

(** * Thread data *)

(** The values under a module's key, by thread. *)
Definition set_thread_data (self data : Z) (m : gmap Z Z) : gmap Z Z := <[self:=data]> m.
Definition get_thread_data (self : Z) (m : gmap Z Z) : Z := default 0 (m !! self).

Section lib.
Context {T MT : Type} `{!OrderedIndex name_cmp T} `{!OrderedIndex size_cmp MT}.

(** [COMM_HANDLE]; the memory behind [sribp] is the one of the pipeline. *)
Record COMM_HANDLE : Type := mk_comm {
  mntp : option nat;
  logp : option nat;
  stagep : option T;
  sribp : option nat
}.

(** What [csf_init] has put into [comm_handle] when it loads the modules: the
    monitor is commented out, and the stage index is made later, by
    [pipeline_init]. *)
Definition comm_handle_at_load (log info : option nat) : COMM_HANDLE := mk_comm None log None info.

(** The statics of a stage module's copies, and its MOD_CONFIG. *)
Record mod_lib : Type := mk_lib {
  ml_log : statics;
  ml_stage : option T;
  ml_mon : mon;
  ml_data : gmap Z Z;
  ml_mc : MOD_CONFIG
}.

(** The statics of the protocol's copies. *)
Record proto_lib : Type := mk_proto {
  pl_log : statics;
  pl_pool : pool MT;
  pl_mon : mon;
  pl_req_info : option nat;
  pl_data : gmap Z Z;
  pl_name : cstr;
  pl_pcp : option PROTO_CONFIG
}.

Context (localtime : Z -> tm) (can_open : cstr -> bool) (fs : cstr -> option cstr) (stray : ascii) (conf_file : cstr).
Context (k : init_calls) (getpid now self : Z) (hostname : option cstr).

(** [_mod_init]: the result, and the state left; [None] is the exit of CRIT in
    [stage_init]. *)
Definition _mod_init (mod_init : cstr -> Z * list reg_call) (mod_name : cstr) (lowest_ver : Z) (chp : COMM_HANDLE)
  (l : mod_lib) (g : logs) : Alloc (option (Z * mod_lib * logs)) :=
  if lowest_ver <? MOD_CORE_VER_REQUIRE then mret (Some (MOD_VER_ERR, l, g))
  else
    logger_init localtime can_open fs stray conf_file (logp chp) None getpid hostname now (ml_log l) g
    ≫= fun r : option nat * statics * logs =>
    (match stagep chp with Some _ => mret true | None => allocate end) ≫= fun malloc_ok : bool =>
    match stage_init malloc_ok (stagep chp) with
    | None => mret None
    | Some t =>
        access (monitor_init fs stray conf_file k (mntp chp) (ml_mon l)) ≫= fun m : option nat * mon =>
        let '(rc, calls) := mod_init mod_name in
        mret (Some (rc, mk_lib r.1.2 (Some t) m.2 (set_thread_data self 0 (ml_data l)) (run_regs calls (ml_mc l)), r.2))
    end.

(** [set_protocol_name]. *)
Definition set_protocol_name (name : option cstr) (cur : cstr) : cstr :=
  match name with Some n => strlcpy_str (PROTO_NAME_LEN + 1) n | None => cur end.

(** [_protocol_init]. *)
Definition _protocol_init (protocol_init : cstr -> Z * list proto_call) (prot_name : option cstr) (lowest_ver : Z)
  (chp : COMM_HANDLE) (pcp : PROTO_CONFIG) (l : proto_lib) (g : logs) : Alloc (Z * proto_lib * logs) :=
  if lowest_ver <? PROTO_CORE_VER_REQUIRE then mret (PROTO_VER_ERR, l, g)
  else
    logger_init localtime can_open fs stray conf_file (logp chp) None getpid hostname now (pl_log l) g
    ≫= fun r : option nat * statics * logs =>
    access (monitor_init fs stray conf_file k (mntp chp) (pl_mon l)) ≫= fun m : option nat * mon =>
    let name := set_protocol_name prot_name (pl_name l) in
    let '(rc, calls) := protocol_init name in
    mret (if rc <? 0 then PROTO_INIT_ERR else PROTO_INIT_OK,
          mk_proto r.1.2 (mp_init 20 100 (pl_pool l)) m.2 (sribp chp) (set_thread_data self 0 (pl_data l)) name
            (run_protos calls (Some pcp)),
          r.2).

(** The module as the loader calls it: [_mod_init] on the MOD_CONFIG it is given. *)
Definition mip_of (mod_init : cstr -> Z * list reg_call) (lowest_ver : Z) (chp : COMM_HANDLE) (l : mod_lib) (g : logs)
  (mod_name : cstr) (m : MOD_CONFIG) : Z * MOD_CONFIG :=
  match _mod_init mod_init mod_name lowest_ver chp (mk_lib (ml_log l) (ml_stage l) (ml_mon l) (ml_data l) m) g [] with
  | Some (Some (rc, l', _), _) => (rc, ml_mc l')
  | _ => (MOD_LIB_ERR, m)
  end.

(** * Theorems *)

(** The function that the last call of each kind registers. *)
Definition regs_of (pick : reg_call -> option Z) (cs : list reg_call) (old : option Z) : option Z :=
  match list.last (omap pick cs) with Some f => Some f | None => old end.

Definition pick_init (c : reg_call) : option Z := match c with set_request_init f => Some f | _ => None end.
Definition pick_handler (c : reg_call) : option Z := match c with set_request_handler f => Some f | _ => None end.
Definition pick_deinit (c : reg_call) : option Z := match c with set_request_deinit f => Some f | _ => None end.

Lemma regs_of_snoc pick cs c old : regs_of pick (cs ++ [c]) old = match pick c with Some f => Some f | None => regs_of pick cs old end.
Proof.
  unfold regs_of. rewrite omap_app. cbn. destruct (pick c); [by rewrite last_snoc|by rewrite app_nil_r].
Qed.

Lemma run_regs_spec cs m :
  run_regs cs m = mk_mod_config (mc_pipeline_id m) (mc_delay m) (mc_stage_id m) (mc_thread_num m) (mc_mod_name m)
    (regs_of pick_init cs (mc_request_init m)) (regs_of pick_deinit cs (mc_request_deinit m))
    (regs_of pick_handler cs (mc_request_handler m)).
Proof.
  induction cs as [|c cs IH] using rev_ind; [by destruct m|].
  unfold run_regs in *. rewrite foldl_app, IH. cbn [foldl]. rewrite !regs_of_snoc. by destruct c.
Qed.


Lemma mod_init_pipeline mod_init name ver chp l g :
  yields (_mod_init mod_init name ver chp l g)
    (fun r => match r with Some (_, l', _) => mc_pipeline_id (ml_mc l') = mc_pipeline_id (ml_mc l) | None => True end).
Proof.
  unfold _mod_init. destruct (_ <? _); [by apply yields_ret|].
  apply yields_any; intros r. apply yields_any; intros b. destruct (stage_init b _); [|by apply yields_ret].
  apply yields_any; intros m. destruct (mod_init name) as [rc calls]. apply yields_ret. cbn [ml_mc]. by rewrite run_regs_spec.
Qed.

(** The loader's promise about modules holds for every module built on the library:
    it leaves the pipeline number alone. *)
Lemma mip_of_pipeline mod_init ver chp l g name m :
  mc_pipeline_id (mip_of mod_init ver chp l g name m).2 = mc_pipeline_id m.
Proof.
  unfold mip_of. destruct (_mod_init _ _ _ _ _ _ _) as [[[[[rc l'] g']|] o]|] eqn:E; try done.
  exact (mod_init_pipeline _ _ _ _ _ _ _ _ _ E).
Qed.

(** Loading modules that are built on the library, whatever they register and
    whatever the configuration, the dynamic loader and the allocator do, leaves a
    queue of modules that is ordered by pipeline and fits the pipeline's arrays. *)
Theorem linked_modules_inv {lib proto : Type} (dlopen : cstr -> option lib) (protocol_sym : lib -> option proto)
  (build : lib -> option (cstr -> Z * list reg_call)) ver chp l g mod_dir protocol_module s o code s' o' :
  queue_ok (ms_queue s) ->
  mod_config_init dlopen protocol_sym (fun h => (fun f => mip_of f ver chp l g) <$> build h) fs stray conf_file
    mod_dir protocol_module s o = Some ((code, s'), o') ->
  queue_ok (ms_queue s') /\ exists new, ms_queue s' ≡ₚ new ++ ms_queue s.
Proof.
  intros Hq E. refine (mod_config_init_extends dlopen protocol_sym _ fs stray conf_file mod_dir protocol_module _ s Hq _ _ _ E).
  intros h mip name m (f & _ & ->)%fmap_Some. by rewrite mip_of_pipeline.
Qed.

(** ** Stages named by a module *)

(** With the handle that [csf_init] passes, a module gets a stage index of its
    own, which stays empty because only the worker adds stages to its index: every
    call of [set_next_stage] in a module fails and keeps the next stage, whatever
    stages the worker has. *)
Theorem stage_jump_unavailable mod_init mod_name log info l g o rc l' g' o' :
  _mod_init mod_init mod_name gvcb (comm_handle_at_load log info) l g o = Some (Some (rc, l', g'), o') ->
  exists t, ml_stage l' = Some t /\ forall next name, set_next_stage t next name = (next, STAGE_SET_ERR).
Proof.
  intros E. assert (Y : yields (_mod_init mod_init mod_name gvcb (comm_handle_at_load log info) l g)
    (fun r => match r with Some (_, l', _) => ml_stage l' = Some ix_empty | None => True end)).
  { unfold _mod_init. cbn [gvcb MOD_CORE_VER_REQUIRE Z.ltb Z.compare]. apply yields_any; intros r. apply yields_any; intros b.
    cbn [stage_init comm_handle_at_load stagep]. destruct b; [|by apply yields_ret].
    apply yields_any; intros m. destruct (mod_init mod_name). by apply yields_ret. }
  exists ix_empty. split; [exact (Y _ _ _ E)|]. intros next name. unfold set_next_stage, stage_find.
  destruct (ix_find _ _) as [n|] eqn:Ef; [|done].
  apply ix_find_Some in Ef as [Hn _]; [|apply ix_empty_wf]. by rewrite ix_empty_elems in Hn; apply not_elem_of_nil in Hn.
Qed.

(** ** A worker without a log *)

(** When the worker could not open its log file, [csf_init] goes on with a NULL
    handle, and the first module opens a log itself without an identity, which
    [strlcpy] then reads through a NULL pointer. *)
Theorem mod_init_without_log mod_init mod_name chp l g items :
  logp chp = None -> Forall item_ok items -> Z.of_nat (length items) <= 2 ^ 25 -> fs conf_file = Some (print items) ->
  head (log_method (configured_statics items (ml_log l))) = Some "c"%char ->
  _mod_init mod_init mod_name gvcb chp l g [] = None.
Proof.
  intros Hl Hok Hc Hf Hm. unfold _mod_init. cbn [gvcb MOD_CORE_VER_REQUIRE Z.ltb Z.compare]. rewrite Hl.
  apply alloc_bind_None. rewrite (logger_init_eq localtime can_open fs stray conf_file items) by done.
  cbv zeta. apply method_letter in Hm. unfold set_local_handle in *. cbn [log_method]. by rewrite Hm.
Qed.

(** ** The protocol *)

Definition pick_start (c : proto_call) : option Z := match c with set_protocol_session_start f => Some f | _ => None end.
Definition pick_entry (c : proto_call) : option Z := match c with set_protocol_session_entry f => Some f | _ => None end.
Definition pick_end (c : proto_call) : option Z := match c with set_protocol_session_end f => Some f | _ => None end.
Definition pick_local (c : proto_call) : option Z := match c with set_local_entry f => Some f | _ => None end.

Definition last_of (pick : proto_call -> option Z) (cs : list proto_call) (old : option Z) : option Z :=
  match list.last (omap pick cs) with Some f => Some f | None => old end.

Lemma last_of_snoc pick cs c old : last_of pick (cs ++ [c]) old = match pick c with Some f => Some f | None => last_of pick cs old end.
Proof.
  unfold last_of. rewrite omap_app. cbn. destruct (pick c); [by rewrite last_snoc|by rewrite app_nil_r].
Qed.

Lemma run_protos_spec cs p :
  run_protos cs (Some p) = Some (mk_proto_config (last_of pick_start cs (protocol_session_start p))
    (last_of pick_entry cs (protocol_session_entry p)) (last_of pick_end cs (protocol_session_end p))
    (last_of pick_local cs (local_entry p))).
Proof.
  induction cs as [|c cs IH] using rev_ind; [by destruct p|].
  unfold run_protos in *. rewrite foldl_app, IH. cbn [foldl run_proto mbind option_bind]. rewrite !last_of_snoc. by destruct c.
Qed.

(** A registration before [_protocol_init] goes through a NULL pointer. *)
Lemma run_protos_early c cs : run_protos (c :: cs) None = None.
Proof. unfold run_protos. cbn [foldl run_proto mbind option_bind]. by induction cs. Qed.

(** A protocol that needs no newer core than the worker offers is connected to
    the worker's log and request queue, gets a memory pool of its own and its name,
    cut to 127 characters; the sessions of new connections are then opened and
    closed by the functions it registered last, a failed [protocol_init] is reported
    as PROTO_INIT_ERR, and a protocol that needs a newer core is refused. *)
Theorem protocol_init_correct protocol_init name ver chp pcp l g a m :
  logp chp = Some a -> monitor_init fs stray conf_file k (mntp chp) (pl_mon l) = Some m ->
  exists rc l', _protocol_init protocol_init (Some name) ver chp pcp l g [] = Some ((rc, l', g), []) /\
    (ver < PROTO_CORE_VER_REQUIRE -> rc = PROTO_VER_ERR /\ l' = l) /\
    (PROTO_CORE_VER_REQUIRE <= ver ->
     let '(rv, calls) := protocol_init (strlcpy_str (PROTO_NAME_LEN + 1) name) in
     rc = (if rv <? 0 then PROTO_INIT_ERR else PROTO_INIT_OK) /\ local_handle (pl_log l') = Some a /\
     pl_req_info l' = sribp chp /\ mp_initialized (pl_pool l') = true /\ blocks (pl_pool l') = blocks (pl_pool l) /\
     exists pc, pl_pcp l' = Some pc /\
       (forall c, do_protocol_session_start pc (Some c) =
                  (fun f => (f, c)) <$> last_of pick_start calls (protocol_session_start pcp)) /\
       (forall c, do_protocol_session_end pc c = (fun f => (f, c)) <$> last_of pick_end calls (protocol_session_end pcp)) /\
       protocol_session_entry pc = last_of pick_entry calls (protocol_session_entry pcp)).
Proof.
  intros Hl Hm. unfold _protocol_init. destruct (Z.ltb_spec ver PROTO_CORE_VER_REQUIRE) as [Hv|Hv].
  { do 2 eexists. split; [done|]. split; [done|lia]. }
  unfold logger_init. rewrite Hl. erewrite alloc_bind_eq by reflexivity. cbv beta iota.
  erewrite alloc_bind_eq by (apply access_Some; exact Hm). cbv beta iota. cbn [set_protocol_name].
  destruct (protocol_init _) as [rv calls] eqn:Ei. rewrite run_protos_spec.
  do 2 eexists. split; [done|]. split; [lia|]. intros _. cbn [pl_log pl_req_info pl_pool pl_pcp fst snd]. split_and!; try done.
  eexists. split; [done|]. unfold do_protocol_session_start, do_protocol_session_end.
  cbn [protocol_session_start protocol_session_entry protocol_session_end].
  split_and!; [intros c; by destruct (last_of pick_start _ _)|intros c; by destruct (last_of pick_end _ _)|done].
Qed.

(** ** Requests and the two memory pools *)

(** A request is taken from the protocol's pool and given back to the worker's,
    whose tree has no entry of its size: the block is not freed and the worker's
    pool stays as it is, so that every request that was completed keeps its
    memory. *)
Theorem request_block_leaks (pp pw : pool MT) (sizeof_REQUEST : Z) :
  pool_ok pp -> mp_initialized pp = true -> 0 < sizeof_REQUEST <= INT_MAX -> ix_wf (mp_tree pw) ->
  (forall n, n ∈ ix_elems (mp_tree pw) -> nd_size n <> sizeof_REQUEST) ->
  exists b pp', _smalloc sizeof_REQUEST pp [] = Some ((Block b, pp'), []) /\
    (blocks pw !! b = Some sizeof_REQUEST -> _sfree (Some b) pw = Some pw).
Proof.
  intros Hok Hi Hs Hw Hn. destruct (mp_alloc_spec sizeof_REQUEST pp Hok Hi Hs) as (b & pp' & E & _).
  exists b, pp'. split.
  - unfold _smalloc, mp_malloc. rewrite long_of_u64 by (unfold INT_MAX in *; lia). by erewrite alloc_bind_eq by exact E.
  - intros Hb. unfold _sfree, mp_free, mp_pfree. destruct (mp_initialized pw); [|done]. cbn [negb]. rewrite Hb. cbn [mbind option_bind].
    destruct (ix_find _ _) as [n|] eqn:Ef; [|done]. apply ix_find_Some in Ef as [Hm Hc]; [|done].
    destruct (Hn n Hm). rewrite size_cmp_sgn in Hc. cbn [nd_size] in Hc.
    rewrite i32_small in Hc by (unfold INT_MAX in *; lia). lia.
Qed.

End lib.

(** A stage module may write through the connection only when it is a TCP
    connection: with UDP only [send_back] has a function, and the other calls of
    the library go through a NULL pointer. *)
Theorem module_io_by_transport :
  (send_back (Some tcp_table), send_file (Some tcp_table), writev_back (Some tcp_table), write_back (Some tcp_table)) =
    (Some (IoCall tcp_send_back_fn), Some (IoCall tcp_sendfile_fn), Some (IoCall tcp_writev_fn), Some (IoCall tcp_write_fn)) /\
  (send_back (Some udp_table), send_file (Some udp_table), writev_back (Some udp_table), write_back (Some udp_table)) =
    (Some (IoCall udp_send_back_fn), None, None, None) /\
  (send_back None, send_file None, writev_back None, write_back None) =
    (Some (IoErr (-1)), Some (IoErr (-1)), Some (IoErr (-1)), Some (IoErr (-1))).
Proof. done. Qed.

(** * Witnesses *)

Abbreviation stages := (tree stage_node).
Abbreviation sizes := (tree mp_node).

Definition demo_config : MOD_CONFIG := mk_mod_config 3 0 1 8 [] None None None.
Definition demo_lib : mod_lib (T:=stages) := mk_lib fresh_statics None mon_boot ∅ demo_config.
Definition demo_calls : init_calls := mk_calls 5 0 0 0.
Definition demo_init (name : cstr) : Z * list reg_call := (0, [set_request_handler 7; set_request_init 8; set_request_handler 9]).
Definition no_logs : logs := mk_logs ∅ 0 ∅ [].
Definition demo_handle : COMM_HANDLE (T:=stages) := mk_comm (Some 4%nat) (Some 2%nat) None (Some 1%nat).


Definition run_linked : option ((Z * mod_state unit) * list bool) :=
  mod_config_init (lib := unit) (fun _ => Some ()) (fun _ => Some ())
    (fun h => (fun f => mip_of gmtime (fun _ => true) (one_file mods_sample) NUL (L"csf.conf") demo_calls 42 0 1 None f gvcb
                        demo_handle demo_lib no_logs) <$> (fun _ => Some demo_init) h)
    (one_file mods_sample) NUL (L"csf.conf") (L"./") (L"proto.so") (mk_mod_state mod_conf_int_array [] [] None) [].

Lemma linked_modules_inv_witness :
  exists code s' o', run_linked = Some ((code, s'), o') /\ queue_ok (ms_queue s') /\
    (mc_request_handler <$> ms_queue s') = [Some 9; Some 9; Some 9].
Proof.
  destruct run_linked as [[[code s'] o']|] eqn:E; [|vm_compute in E; discriminate].
  exists code, s', o'. split; [reflexivity|]. split.
  - unfold run_linked in E. refine (proj1 (linked_modules_inv gmtime (fun _ => true) (one_file mods_sample) NUL (L"csf.conf") demo_calls 42 0 1 None
      (fun _ => Some ()) (fun _ => Some ()) (fun _ => Some demo_init) gvcb demo_handle demo_lib no_logs (L"./") (L"proto.so")
      (mk_mod_state mod_conf_int_array [] [] None) [] code s' o' _ E)). split; constructor.
  - vm_compute in E. injection E as _ <- _. reflexivity.
Defined.

Definition load_handle : COMM_HANDLE (T:=stages) := comm_handle_at_load (Some 2%nat) (Some 1%nat).

Lemma stage_jump_unavailable_witness :
  exists rc l' t, _mod_init gmtime (fun _ => true) (fun _ => None) NUL [] demo_calls 42 0 1 None demo_init (L"a.so") gvcb
    load_handle demo_lib no_logs [] = Some (Some (rc, l', no_logs), []) /\
    ml_stage l' = Some t /\ set_next_stage t (Some 5%nat) (L"b.so") = (Some 5%nat, STAGE_SET_ERR).
Proof.
  destruct (_mod_init gmtime (fun _ => true) (fun _ => None) NUL [] demo_calls 42 0 1 None demo_init (L"a.so") gvcb
    load_handle demo_lib no_logs []) as [[[[[rc l'] g']|] o']|] eqn:E; [|vm_compute in E; discriminate..].
  destruct (stage_jump_unavailable gmtime (fun _ => true) (fun _ => None) NUL [] demo_calls 42 0 1 None demo_init (L"a.so")
    (Some 2%nat) (Some 1%nat) demo_lib no_logs [] rc l' g' o' E) as (t & Ht & Hn).
  exists rc, l', t. split; [|split; [exact Ht|apply Hn]].
  vm_compute in E. injection E as <- <- <- <-. reflexivity.
Defined.

Definition demo_proto : proto_lib (MT:=sizes) := mk_proto fresh_statics pool0 mon_boot None ∅ [] None.

Lemma protocol_init_correct_witness :
  exists rc l' pc, _protocol_init gmtime (fun _ => true) (fun _ => None) NUL [] demo_calls 42 0 1 None
      (fun _ => (0, [set_protocol_session_start 3; set_protocol_session_entry 4])) (Some (L"echo")) gvcb demo_handle
      (mk_proto_config None None None None) demo_proto no_logs [] = Some ((rc, l', no_logs), []) /\
    rc = PROTO_INIT_OK /\ pl_pcp l' = Some pc /\ do_protocol_session_start pc (Some 6%nat) = Some (3, 6%nat).
Proof.
  edestruct (protocol_init_correct (T:=stages) (MT:=sizes) gmtime (fun _ => true) (fun _ => None) NUL [] demo_calls 42 0 1 None
      (fun _ => (0, [set_protocol_session_start 3; set_protocol_session_entry 4])) (L"echo") gvcb demo_handle
      (mk_proto_config None None None None) demo_proto no_logs 2%nat) as (rc & l' & E & _ & H); [reflexivity|reflexivity|].
  destruct H as (Hrc & _ & _ & _ & _ & pc & Hpc & Hs & _); [done|].
  exists rc, l', pc. split; [exact E|]. split; [exact Hrc|]. split; [exact Hpc|exact (Hs 6%nat)].
Defined.

Lemma request_block_leaks_witness :
  exists b pp', _smalloc 120 pool0 [] = Some ((Block b, pp'), []) /\
    (let pw := mk_pool (Node Black Nil (mk_node 64 0) Nil) {[0%nat := mk_entry 64 0 []]} {[b := 120]} 1 true 3 4 in
     _sfree (Some b) pw = Some pw).
Proof.
  set (pw0 := mk_pool (Node Black Nil (mk_node 64 0) Nil) {[0%nat := mk_entry 64 0 []]} ({[3%nat := 120]} : gmap nat Z) 1 true 3 4).
  destruct (request_block_leaks pool0 pw0 120 pool0_ok eq_refl) as (b & pp' & E & H).
  - unfold INT_MAX; lia.
  - split; [cbn; repeat constructor|split; [done|]]. exists 1%nat. repeat constructor.
  - intros n Hn. apply list_elem_of_singleton in Hn as ->. done.
  - assert (b = 3%nat) as ->. { vm_compute in E. by injection E as <-. }
    exists 3%nat, pp'. split; [exact E|]. apply H. reflexivity.
Defined.
