(* ===== verification/PipelineInit.v ===== *)
(** Start-up of the pipeline: [request_queue_init], [thread_pool_init],
    [worker_thread_init], [free_pipeline_data], [request_info_init] and
    [pipeline_init] of src/csf/pipeline.c, from the queue of modules that
    [mod_config_init] leaves to a state in which requests can be submitted. *)

From stdpp Require Import sorting.
From S2P Require Import Prelude CString RbTree Stage Dictionary IniParser ConfParser Pipeline PipelineInv Module.

Definition PIPELINE_INIT_OK : Z := 0.
Definition PIPELINE_INIT_ERR : Z := -1.
Definition PIPELINE_CONF_ERR : Z := -2.
Definition MAX_PIPELINE_QUEUE_SIZE : Z := 0x7FFFFFFF.

(** What the system and the modules answer: the initialisation of the worker
    mutex and condition, of those of an RQCB ([None] for [done_rqcb]), the
    creation of the n-th thread, and the [request_init] functions, which get the
    sequence number of the thread. *)
Record platform : Type := mk_platform {
  worker_mutex_ok : bool;
  worker_cond_ok : bool;
  mutex_ok : option nat -> bool;
  cond_ok : option nat -> bool;
  create_ok : nat -> bool;
  run_request_init : Z -> Z -> Z
}.

(** How a part of the start-up ends: with a value, a return from
    [pipeline_init], the exit of CRIT, or a wait that nobody ends. *)
Inductive outcome (A : Type) : Type :=
| Go (a : A)
| Ret (code : Z) (w : world)
| Crit
| Hang.
Arguments Go {A}.
Arguments Ret {A}.
Arguments Crit {A}.
Arguments Hang {A}.

(** An RQCB from [calloc]. *)
Definition blank_rqcb : RQCB := mk_rqcb [] None [] 0 0 0 0 None None None 0 0.

Definition set_mod_name (n : cstr) (q : RQCB) : RQCB :=
  mk_rqcb (request_head q) (next_rqcb q) n (queue_id q) (queue_len q) (thread_num q) (delay q)
    (request_init q) (request_deinit q) (request_handler q) (rqst_num q) (request_count q).

Definition set_queue_id (i : Z) (q : RQCB) : RQCB :=
  mk_rqcb (request_head q) (next_rqcb q) (mod_name q) i (queue_len q) (thread_num q) (delay q)
    (request_init q) (request_deinit q) (request_handler q) (rqst_num q) (request_count q).

Definition set_thread_num (n : Z) (q : RQCB) : RQCB :=
  mk_rqcb (request_head q) (next_rqcb q) (mod_name q) (queue_id q) (queue_len q) n (delay q)
    (request_init q) (request_deinit q) (request_handler q) (rqst_num q) (request_count q).

(** [request_queue_init]. *)
Definition request_queue_init (pf : platform) (addr : option nat) (next_rqcbp : option nat) (dly : Z)
  (rip rdp rhp : option Z) (q : RQCB) : Z * RQCB :=
  let q' := mk_rqcb [] next_rqcbp (mod_name q) (queue_id q) 0 0 dly rip rdp rhp 0 0 in
  if negb (mutex_ok pf addr) then (CSF_ERR, q')
  else if negb (cond_ok pf addr) then (CSF_ERR, q')
  else (CSF_OK, q').

(** [thread_pool_init]. The thread runs [worker_thread_init] later. When the
    thread cannot be created its [calloc]'ed structure goes to [sfree], which
    looks for the header of the memory pool in front of it. *)
Fixpoint thread_pool_init (pf : platform) (rqcbp : nat) (n : nat) (w : world) : Alloc (Z * world) :=
  match n with
  | O => mret (CSF_OK, w)
  | S n' =>
      allocate ≫= fun ok : bool =>
      if negb ok then mret (CSF_ERR, w)
      else if create_ok pf (length (threads w)) then
        thread_pool_init pf rqcbp n'
          (set_threads (threads w ++ [mk_thread rqcbp PcLoop THREAD_STARTING None 0 PIPELINE_SUCCESS None]) w)
      else fault
  end.

(** [worker_thread_init] of the thread [t]; the second component counts
    [initialized_thread_num]. *)
Definition worker_thread_init (pf : platform) (t : nat) (wn : world * Z) : option (outcome (world * Z)) :=
  let '(w, n) := wn in
  th ← threads w !! t;
  q ← rqcbs w !! t_rqcb th;
  let w1 := set_pipeline_working_threads (u64 (pipeline_working_threads w + 1)) w in
  let init_flag :=
    match request_init q with
    | Some f => i32 (run_request_init pf f (thread_num q))
    | None => PIPELINE_SUCCESS
    end in
  if negb (init_flag =? PIPELINE_SUCCESS) then Some Crit
  else
    w2 ← upd_rqcb (t_rqcb th) (fun q => set_thread_num (u32 (thread_num q + 1)) q) w1;
    Some (Go (w2, u32 (n + 1))).

(** The threads reach [worker_mutex] in some order. *)
Fixpoint run_workers (pf : platform) (sched : list nat) (wn : world * Z) : option (outcome (world * Z)) :=
  match sched with
  | [] => Some (Go wn)
  | t :: sched' =>
      r ← worker_thread_init pf t wn;
      match r with Go wn' => run_workers pf sched' wn' | other => Some other end
  end.

(** A chain of RQCBs is freed while it is walked: the walk reads [next_rqcb]
    of the node it has just freed. *)
Definition read_rqcb (freed : list nat) (w : world) (q : nat) : option RQCB :=
  if decide (q ∈ freed) then None else rqcbs w !! q.

Fixpoint free_chain (fuel : nat) (w : world) (cur_rqcbp : option nat) (freed : list nat) : option (list nat) :=
  match fuel, cur_rqcbp with
  | _, None => Some freed
  | O, Some _ => None
  | S fuel', Some q =>
      if decide (q ∈ freed) then None
      else
        node ← read_rqcb (q :: freed) w q;
        free_chain fuel' w (next_rqcb node) (q :: freed)
  end.

(** [free_pipeline_data]: the RQCBs freed. *)
Fixpoint free_pipeline_data (w : world) (ps : list (option PCB)) (freed : list nat) : option (list nat) :=
  match ps with
  | [] => Some freed
  | None :: ps' => free_pipeline_data w ps' freed
  | Some p :: ps' =>
      freed' ← free_chain (S (length (rqcbs w))) w (first_rqcbp p) freed;
      free_pipeline_data w ps' freed'
  end.

(** [request_info_init]: the limits of submit_request.c; [None] when there is no
    memory for the block. *)
Definition request_info_init (conf_pipeline_queue_size conf_request_timeout : Z) (w : world) : Alloc (option world) :=
  allocate ≫= fun ok : bool =>
  if negb ok then mret None
  else mret (Some (set_pipeline_queue_size (u64 conf_pipeline_queue_size)
                     (set_request_timeout conf_request_timeout w))).

(** The locals of [pipeline_init] and the index of stages. *)
Record istate (T : Type) : Type := mk_istate {
  is_w : world;
  is_stages : T;
  is_rqcbp : option nat;
  is_qid : Z;
  is_all_thread_num : Z
}.
Arguments mk_istate {T}.
Arguments is_w {T}.
Arguments is_stages {T}.
Arguments is_rqcbp {T}.
Arguments is_qid {T}.
Arguments is_all_thread_num {T}.

Section init.
Context {T : Type} `{!OrderedIndex name_cmp T}.
Context (pf : platform) (sched : nat -> list nat).

(** [free_pipeline_data] and the error return. *)
Definition abandon_init {A} (w : world) : Alloc (outcome A) :=
  access (free_pipeline_data w (pcb w) []) ≫= fun _ : list nat => mret (Ret PIPELINE_INIT_ERR w).

(** The PCB of the pipeline, made for its first stage. *)
Definition ensure_pcb (cur_id : Z) (rqcbp : nat) (w : world) : Alloc (outcome world) :=
  access (pcb w !! Z.to_nat cur_id) ≫= fun op : option PCB =>
  match op with
  | Some _ => mret (Go w)
  | None =>
      allocate ≫= fun ok : bool =>
      if negb ok then abandon_init w
      else mret (Go (set_pcb (<[Z.to_nat cur_id:=Some (mk_pcb 0 cur_id (Some rqcbp) 0 [])]> (pcb w)) w))
  end.

(** The RQCB of the next module, [next_arg], and the new [qid]. *)
Definition next_stage (cur_id : Z) (rqcbp : nat) (qid : Z) (next_mcp : option MOD_CONFIG) (w : world)
  : Alloc (outcome (world * option nat * option nat * Z)) :=
  match next_mcp with
  | None => mret (Go (w, None, None, qid))
  | Some m =>
      allocate ≫= fun ok : bool =>
      if negb ok then abandon_init w
      else
        let next := length (rqcbs w) in
        let w1 := set_rqcbs (rqcbs w ++ [blank_rqcb]) w in
        if mc_pipeline_id m =? cur_id then
          access (upd_rqcb rqcbp (set_queue_id qid) w1) ≫= fun w2 : world =>
          mret (Go (w2, Some next, Some next, i32 (qid + 1)))
        else mret (Go (w1, Some next, None, 0))
  end.

(** One iteration of the loop over the modules. *)
Definition init_stage (mcp : MOD_CONFIG) (next_mcp : option MOD_CONFIG) (s : istate T) : Alloc (outcome (istate T)) :=
  access (is_rqcbp s) ≫= fun rqcbp : nat =>
  let name := strlcpy_str MAX_MOD_NAME_LEN (mc_mod_name mcp) in
  access (upd_rqcb rqcbp (set_mod_name name) (is_w s)) ≫= fun w1 : world =>
  let cur_id := mc_pipeline_id mcp in
  access (stage_add (is_stages s) (mk_stage name rqcbp)) ≫= fun st : T * Z =>
  if st.2 =? STAGE_ADD_ERR then mret (Ret PIPELINE_INIT_ERR w1)
  else
    ensure_pcb cur_id rqcbp w1 ≫= fun r : outcome world =>
    match r with
    | Go w2 =>
        next_stage cur_id rqcbp (is_qid s) next_mcp w2
        ≫= fun r2 : outcome (world * option nat * option nat * Z) =>
        match r2 with
        | Go (w3, next_rqcbp, next_arg, qid) =>
            access (rqcbs w3 !! rqcbp) ≫= fun q : RQCB =>
            let '(rc, q') := request_queue_init pf (Some rqcbp) next_arg (mc_delay mcp)
              (mc_request_init mcp) (mc_request_deinit mcp) (mc_request_handler mcp) q in
            if negb (rc =? CSF_OK) then mret Crit
            else
              let w4 := set_rqcbs (<[rqcbp:=q']> (rqcbs w3)) w3 in
              thread_pool_init pf rqcbp (Z.to_nat (mc_thread_num mcp)) w4 ≫= fun t : Z * world =>
              mret (Go (mk_istate t.2 st.1 next_rqcbp qid (u32 (is_all_thread_num s + mc_thread_num mcp))))
        | Ret code w => mret (Ret code w)
        | Crit => mret Crit
        | Hang => mret Hang
        end
    | Ret code w => mret (Ret code w)
    | Crit => mret Crit
    | Hang => mret Hang
    end.

(** The loop: every module is removed from the queue and freed. *)
Fixpoint init_stages (mods : list MOD_CONFIG) (s : istate T) : Alloc (outcome (istate T)) :=
  match mods with
  | [] => mret (Go s)
  | mcp :: rest =>
      init_stage mcp (head rest) s ≫= fun r : outcome (istate T) =>
      match r with Go s' => init_stages rest s' | other => mret other end
  end.

(** The end of [pipeline_init]: the wait for the threads and the queue of done
    requests. *)
Definition finish_init (s : istate T) : Alloc (outcome (world * T)) :=
  access (run_workers pf (sched (length (threads (is_w s)))) (is_w s, 0)) ≫= fun r : outcome (world * Z) =>
  match r with
  | Go (w, initialized_thread_num) =>
      if negb (is_all_thread_num s =? initialized_thread_num) then mret Hang
      else
        let '(rc, dq) := request_queue_init pf None None 0 None None None (done_rqcb w) in
        if negb (rc =? CSF_OK) then mret Crit
        else mret (Go (set_done_rqcb dq w, is_stages s))
  | Ret code w => mret (Ret code w)
  | Crit => mret Crit
  | Hang => mret Hang
  end.

(** [pipeline_init]; [Go] is the return of PIPELINE_INIT_OK. *)
Definition pipeline_init (mods : list MOD_CONFIG) (queue_size timeout : Z) (w : world) : Alloc (outcome (world * T)) :=
  let w1 := set_apq [] (set_pcb (replicate (Z.to_nat PIPELINE_SIZE) None) (set_request_timeout timeout w)) in
  match mods with
  | [] => mret (Ret PIPELINE_CONF_ERR w1)
  | _ =>
      if (0 <=? queue_size) && (queue_size <? MAX_PIPELINE_QUEUE_SIZE) then
        let w2 := set_threads [] (set_pipeline_queue_size queue_size w1) in
        allocate ≫= fun ok : bool =>
        match stage_init ok None with
        | None => mret Crit
        | Some t =>
            if negb (worker_mutex_ok pf) then mret (Ret PIPELINE_INIT_ERR w2)
            else if negb (worker_cond_ok pf) then mret (Ret PIPELINE_INIT_ERR w2)
            else
              allocate ≫= fun ok2 : bool =>
              if negb ok2 then mret (Ret PIPELINE_INIT_ERR w2)
              else
                let w3 := set_rqcbs (rqcbs w2 ++ [blank_rqcb]) w2 in
                init_stages mods (mk_istate w3 t (Some (length (rqcbs w2))) 0 0) ≫= fun r : outcome (istate T) =>
                match r with
                | Go s => finish_init s
                | Ret code w' => mret (Ret code w')
                | Crit => mret Crit
                | Hang => mret Hang
                end
        end
      else mret (Ret PIPELINE_CONF_ERR w1)
  end.

End init.

(** * What a successful start-up builds *)

(** The first module of a pipeline. *)
Definition first_index (p : Z) (mods : list MOD_CONFIG) : option nat :=
  fst <$> list_find (fun m => mc_pipeline_id m = p) mods.

(** The array [pcb] for the modules. *)
Definition pcbs_of (mods : list MOD_CONFIG) : list (option PCB) :=
  (fun p => (fun i => mk_pcb 0 (Z.of_nat p) (Some i) 0 []) <$> first_index (Z.of_nat p) mods) <$> seq 0 16.

(** The threads of a stage, and of all stages. *)
Definition fresh_thread (i : nat) : PIPELINE_THREAD :=
  mk_thread i PcLoop THREAD_STARTING None 0 PIPELINE_SUCCESS None.

Definition threads_of (mods : list MOD_CONFIG) : list PIPELINE_THREAD :=
  concat (imap (fun i m => replicate (Z.to_nat (mc_thread_num m)) (fresh_thread i)) mods).

(** The queue of the i-th module is empty, runs the module's functions and
    passes on to the next module when that belongs to the same pipeline. *)
Definition built (mods : list MOD_CONFIG) (i : nat) (q : RQCB) : Prop :=
  exists m, mods !! i = Some m /\ request_head q = [] /\ queue_len q = 0 /\
    mod_name q = strlcpy_str MAX_MOD_NAME_LEN (mc_mod_name m) /\ delay q = mc_delay m /\
    (request_init q, request_deinit q, request_handler q) = (mc_request_init m, mc_request_deinit m, mc_request_handler m) /\
    next_rqcb q = match mods !! S i with
                  | Some m' => if decide (mc_pipeline_id m' = mc_pipeline_id m) then Some (S i) else None
                  | None => None
                  end.

(** The stage a name stands for. *)
Definition named (nm : cstr) (mods : list MOD_CONFIG) : option nat :=
  fst <$> list_find (fun m => strlcpy_str MAX_MOD_NAME_LEN (mc_mod_name m) = strlcpy_str MAX_MOD_NAME_LEN nm) mods.

Lemma list_find_snoc {A} (P : A -> Prop) `{forall x, Decision (P x)} l x :
  fst <$> list_find P (l ++ [x]) =
    match fst <$> list_find P l with Some i => Some i | None => if decide (P x) then Some (length l) else None end.
Proof.
  induction l as [|y l IH]; cbn; [by destruct (decide (P x))|].
  destruct (decide (P y)); [done|]. destruct (list_find P (l ++ [x])) as [[]|], (list_find P l) as [[]|]; cbn in *;
    destruct (decide (P x)); naive_solver.
Qed.

Lemma pcbs_of_lookup mods p : (p < 16)%nat ->
  pcbs_of mods !! p = Some ((fun i => mk_pcb 0 (Z.of_nat p) (Some i) 0 []) <$> first_index (Z.of_nat p) mods).
Proof. intros Hp. unfold pcbs_of. by rewrite list_lookup_fmap, lookup_seq_lt. Qed.

Lemma pcbs_of_length mods : length (pcbs_of mods) = 16%nat.
Proof. unfold pcbs_of. by rewrite length_fmap, length_seq. Qed.

Lemma pcbs_of_ext mods ps : length ps = 16%nat ->
  (forall p, (p < 16)%nat -> ps !! p = pcbs_of mods !! p) -> ps = pcbs_of mods.
Proof.
  intros Hl Hp. apply list_eq. intros p. destruct (decide (p < 16)%nat); [by apply Hp|].
  rewrite !lookup_ge_None_2; [done|rewrite pcbs_of_length; lia|lia].
Qed.

Lemma pcbs_of_snoc mods m : config_ok m ->
  pcbs_of (mods ++ [m]) =
    match first_index (mc_pipeline_id m) mods with
    | Some _ => pcbs_of mods
    | None => <[Z.to_nat (mc_pipeline_id m):=Some (mk_pcb 0 (mc_pipeline_id m) (Some (length mods)) 0 [])]> (pcbs_of mods)
    end.
Proof.
  intros [Hm _]. unfold PIPELINE_SIZE in Hm. symmetry. apply pcbs_of_ext.
  { destruct (first_index _ mods); rewrite ?length_insert; apply pcbs_of_length. }
  intros p Hp. rewrite (pcbs_of_lookup (mods ++ [m])) by done. unfold first_index at 2. rewrite list_find_snoc.
  fold (first_index (Z.of_nat p) mods). destruct (decide (mc_pipeline_id m = Z.of_nat p)) as [E|Hne].
  - rewrite E. destruct (first_index (Z.of_nat p) mods) eqn:Ef; [by rewrite pcbs_of_lookup, Ef|].
    rewrite Nat2Z.id, list_lookup_insert_eq; [done|]. by rewrite pcbs_of_length.
  - assert (pcbs_of mods !! p = Some ((fun i => mk_pcb 0 (Z.of_nat p) (Some i) 0 []) <$> first_index (Z.of_nat p) mods)) as Hl
      by (by apply pcbs_of_lookup).
    destruct (first_index (mc_pipeline_id m) mods); [|rewrite list_lookup_insert_ne by lia]; rewrite Hl;
      by destruct (first_index (Z.of_nat p) mods).
Qed.

Lemma threads_of_snoc mods m :
  threads_of (mods ++ [m]) = threads_of mods ++ replicate (Z.to_nat (mc_thread_num m)) (fresh_thread (length mods)).
Proof. unfold threads_of. rewrite imap_app, concat_app. cbn. by rewrite Nat.add_0_r, app_nil_r. Qed.

Lemma threads_of_in mods th : th ∈ threads_of mods -> exists i, th = fresh_thread i /\ (i < length mods)%nat.
Proof.
  induction mods as [|m mods IH] using rev_ind; [by intros ?%elem_of_nil|].
  rewrite threads_of_snoc, elem_of_app, length_app. cbn. intros [(i & -> & Hi)%IH|[-> _]%elem_of_replicate]; [exists i|eexists]; split; try done; lia.
Qed.

Definition thread_total (mods : list MOD_CONFIG) : Z := foldr (fun m n => mc_thread_num m + n) 0 mods.

Lemma thread_total_snoc mods m : thread_total (mods ++ [m]) = thread_total mods + mc_thread_num m.
Proof. induction mods as [|m' mods IH]; cbn; [lia|]. unfold thread_total in IH. rewrite IH. lia. Qed.

Lemma threads_of_length mods : Forall (fun m => 0 <= mc_thread_num m) mods ->
  Z.of_nat (length (threads_of mods)) = thread_total mods.
Proof.
  induction mods as [|m mods IH] using rev_ind; [done|]. intros [Hf Hm]%list.Forall_app.
  rewrite list.Forall_singleton in Hm. rewrite threads_of_snoc, thread_total_snoc, length_app, length_replicate.
  specialize (IH Hf). lia.
Qed.

(** * The loop over the modules *)

(** A world whose queues, pipelines and threads are replaced. *)
Definition with_parts (w0 : world) (R : list RQCB) (P : list (option PCB)) (Th : list PIPELINE_THREAD) : world :=
  set_rqcbs R (set_pcb P (set_threads Th w0)).

(** Nothing the start-up asks of the system fails. *)
Record platform_ok (pf : platform) : Prop := {
  pf_worker_mutex : worker_mutex_ok pf = true;
  pf_worker_cond : worker_cond_ok pf = true;
  pf_mutex a : mutex_ok pf a = true;
  pf_cond a : cond_ok pf a = true;
  pf_create n : create_ok pf n = true
}.

(** Every module initialises its threads. *)
Definition inits_ok (pf : platform) : Prop := forall f n, run_request_init pf f n = PIPELINE_SUCCESS.

(** The queue request_queue_init leaves for a module. *)
Definition stage_queue (m : MOD_CONFIG) (next : option nat) (qid : Z) : RQCB :=
  mk_rqcb [] next (strlcpy_str MAX_MOD_NAME_LEN (mc_mod_name m)) qid 0 0 (mc_delay m)
    (mc_request_init m) (mc_request_deinit m) (mc_request_handler m) 0 0.

(** The queue, if any, prepared for the next module. *)
Definition prepared (rest : list MOD_CONFIG) : list RQCB := match rest with [] => [] | _ => [blank_rqcb] end.

Section loop.
Context {T : Type} `{!OrderedIndex name_cmp T}.
Context (pf : platform) (Hpf : platform_ok pf).

Lemma thread_pool_init_ok i n w :
  thread_pool_init pf i n w [] = Some ((CSF_OK, set_threads (threads w ++ replicate n (fresh_thread i)) w), []).
Proof.
  revert w. induction n as [|n IH]; intros w; cbn [thread_pool_init replicate].
  - rewrite app_nil_r. by destruct w.
  - erewrite alloc_bind_eq by reflexivity. cbn [negb]. rewrite (pf_create _ Hpf), IH. cbn [threads set_threads].
    by rewrite <-(assoc_L (++)).
Qed.

Lemma ensure_pcb_ok w0 R mods Th m i :
  config_ok m -> i = length mods ->
  ensure_pcb (mc_pipeline_id m) i (with_parts w0 R (pcbs_of mods) Th) [] =
    Some (Go (with_parts w0 R (pcbs_of (mods ++ [m])) Th), []).
Proof.
  intros Hm ->. unfold ensure_pcb. pose proof Hm as [Hp _]. unfold PIPELINE_SIZE in Hp.
  assert (pcb (with_parts w0 R (pcbs_of mods) Th) !! Z.to_nat (mc_pipeline_id m) =
    Some ((fun i => mk_pcb 0 (mc_pipeline_id m) (Some i) 0 []) <$> first_index (mc_pipeline_id m) mods)) as E.
  { cbn [with_parts pcb set_pcb set_rqcbs]. rewrite pcbs_of_lookup by lia. by rewrite Z2Nat.id by lia. }
  erewrite alloc_bind_eq by (apply access_Some; exact E). rewrite pcbs_of_snoc by done.
  by destruct (first_index (mc_pipeline_id m) mods).
Qed.

(** The successor of the stage at [length mods]. *)
Definition successor (m : MOD_CONFIG) (rest : list MOD_CONFIG) (i : nat) : option nat :=
  match head rest with
  | Some m' => if mc_pipeline_id m' =? mc_pipeline_id m then Some (S i) else None
  | None => None
  end.

Lemma next_stage_ok w0 R P Th q m rest qid :
  exists qid' qid'', next_stage (mc_pipeline_id m) (length R) qid (head rest) (with_parts w0 (R ++ [q]) P Th) [] =
    Some (Go (with_parts w0 (R ++ [set_queue_id qid' q] ++ prepared rest) P Th,
              match rest with [] => None | _ => Some (S (length R)) end, successor m rest (length R), qid''), []).
Proof.
  destruct rest as [|m' rest]; cbn [next_stage head prepared].
  { exists (queue_id q), qid. by destruct q. }
  assert (length (R ++ [q]) = S (length R)) as El by (rewrite length_app; cbn; lia).
  unfold successor. cbn [head]. destruct (mc_pipeline_id m' =? mc_pipeline_id m) eqn:E.
  - exists qid, (i32 (qid + 1)). erewrite alloc_bind_eq by reflexivity. cbn [negb].
    erewrite alloc_bind_eq.
    2:{ apply access_Some. unfold upd_rqcb. cbn [with_parts rqcbs set_rqcbs]. rewrite <-(assoc_L (++)).
        rewrite lookup_app_r, Nat.sub_diag by done. cbn [lookup list_lookup app mbind option_bind].
        rewrite insert_app_r_alt, Nat.sub_diag by done. reflexivity. }
    cbn [with_parts rqcbs set_rqcbs]. by rewrite El.
  - exists (queue_id q), 0. erewrite alloc_bind_eq by reflexivity. cbn [negb].
    cbn [with_parts rqcbs set_rqcbs]. rewrite El, <-(assoc_L (++)). by destruct q.
Qed.

Lemma request_queue_init_ok a next dly i d h q :
  request_queue_init pf a next dly i d h q = (CSF_OK, mk_rqcb [] next (mod_name q) (queue_id q) 0 0 dly i d h 0 0).
Proof. unfold request_queue_init. by rewrite (pf_mutex _ Hpf), (pf_cond _ Hpf). Qed.

Lemma init_stage_ok w0 R mods m rest t qid all :
  length R = length mods -> config_ok m -> stages_ok t -> no_nul (mc_mod_name m) -> stage_find t (mc_mod_name m) = None ->
  exists t' q qid', init_stage pf m (head rest)
      (mk_istate (with_parts w0 (R ++ [blank_rqcb]) (pcbs_of mods) (threads_of mods)) t (Some (length R)) qid all) [] =
    Some (Go (mk_istate (with_parts w0 (R ++ [stage_queue m (successor m rest (length R)) q] ++ prepared rest)
                (pcbs_of (mods ++ [m])) (threads_of (mods ++ [m]))) t'
                (match rest with [] => None | _ => Some (S (length R)) end) qid' (u32 (all + mc_thread_num m))), []) /\
    stages_ok t' /\ (forall nm, no_nul nm -> stage_find t' nm =
      if decide (strlcpy_str MAX_MOD_NAME_LEN nm = strlcpy_str MAX_MOD_NAME_LEN (mc_mod_name m))
      then Some (length R) else stage_find t nm).
Proof.
  intros Hl Hm Ht Hn Hf. pose proof (stage_add_ok t (mc_mod_name m) (length R) Ht Hn) as Hadd. rewrite Hf in Hadd.
  destruct Hadd as (t' & Ea & Ht' & Hfind).
  set (name := strlcpy_str MAX_MOD_NAME_LEN (mc_mod_name m)) in *.
  destruct (next_stage_ok w0 R (pcbs_of (mods ++ [m])) (threads_of mods) (set_mod_name name blank_rqcb) m rest qid)
    as (q & qid' & En).
  exists t', q, qid'. split; [|done]. unfold init_stage. cbn [is_rqcbp is_w is_stages is_qid is_all_thread_num].
  erewrite alloc_bind_eq by reflexivity. fold name.
  erewrite alloc_bind_eq.
  2:{ apply access_Some. unfold upd_rqcb. cbn [with_parts rqcbs set_rqcbs].
      rewrite lookup_app_r, Nat.sub_diag by done. cbn [lookup list_lookup mbind option_bind].
      rewrite insert_app_r_alt, Nat.sub_diag by done. reflexivity. }
  erewrite alloc_bind_eq by (apply access_Some; exact Ea). cbn [snd]. change (STAGE_ADD_OK =? STAGE_ADD_ERR) with false.
  cbn iota. erewrite alloc_bind_eq by (exact (ensure_pcb_ok w0 _ mods _ m _ Hm Hl)). cbv beta iota.
  erewrite alloc_bind_eq by exact En. cbv beta iota.
  erewrite alloc_bind_eq.
  2:{ apply access_Some. cbn [with_parts rqcbs set_rqcbs]. rewrite lookup_app_r, Nat.sub_diag by done. reflexivity. }
  rewrite request_queue_init_ok. cbn [negb]. change (CSF_OK =? CSF_OK) with true. cbn [negb].
  erewrite alloc_bind_eq by apply thread_pool_init_ok. cbn [snd fst]. cbn [with_parts rqcbs set_rqcbs].
  rewrite insert_app_r_alt, Nat.sub_diag by done. rewrite threads_of_snoc, Hl. reflexivity.
Qed.


(** What the loop maintains: queues, names and distinctness so far. *)
Definition built_upto (mods : list MOD_CONFIG) (R : list RQCB) : Prop :=
  forall i q, R !! i = Some q -> built mods i q.

Definition names_ok (mods : list MOD_CONFIG) : Prop :=
  NoDup (mc_mod_name <$> mods) /\ Forall (fun m => config_ok m /\ no_nul (mc_mod_name m)) mods.

Lemma short_name m : config_ok m -> strlcpy_str MAX_MOD_NAME_LEN (mc_mod_name m) = mc_mod_name m.
Proof.
  intros [_ Hl]. unfold strlcpy_str. apply take_ge. unfold MAX_MOD_NAME_LEN in *. lia.
Qed.

Lemma named_fresh pre m rest : names_ok (pre ++ m :: rest) -> named (mc_mod_name m) pre = None.
Proof.
  intros [Hnd Hf]. unfold named. apply fmap_None, list_find_None, list.Forall_forall. intros c Hc E.
  rewrite list.Forall_forall in Hf. rewrite !short_name in E by (apply Hf; set_solver).
  rewrite fmap_app, fmap_cons in Hnd. apply list.NoDup_app in Hnd as (_ & Hd & _).
  apply (Hd (mc_mod_name c)); [by apply list_elem_of_fmap_2|]. rewrite E. by left.
Qed.

Lemma built_snoc pre m rest R i : length R = length pre -> i = length R ->
  built_upto (pre ++ m :: rest) R ->
  forall qid, built_upto (pre ++ m :: rest) (R ++ [stage_queue m (successor m rest i) qid]).
Proof.
  intros Hl -> Hb qid j q. rewrite lookup_app_Some. intros [Hq|[Hj Hq]]; [by apply Hb|].
  apply list_lookup_singleton_Some in Hq as [Hj0 <-]. assert (j = length pre) as -> by lia.
  exists m. rewrite list_lookup_middle by done. split_and!; try done. cbn [stage_queue next_rqcb].
  rewrite (cons_middle m), (assoc_L (++)), lookup_app_r by (rewrite length_app; cbn; lia).
  replace (S (length pre) - length (pre ++ [m]))%nat with 0%nat by (rewrite length_app; cbn; lia).
  unfold successor. rewrite Hl. destruct rest as [|m' rest]; [done|]. cbn.
  destruct (Z.eqb_spec (mc_pipeline_id m') (mc_pipeline_id m)); by case_decide.
Qed.

Lemma init_stages_ok w0 rest pre R t qid :
  length R = length pre -> built_upto (pre ++ rest) R -> names_ok (pre ++ rest) -> stages_ok t ->
  (forall nm, no_nul nm -> stage_find t nm = named nm pre) ->
  exists t' R' qid', init_stages pf rest
      (mk_istate (with_parts w0 (R ++ prepared rest) (pcbs_of pre) (threads_of pre)) t
         (match rest with [] => None | _ => Some (length R) end) qid (u32 (thread_total pre))) [] =
    Some (Go (mk_istate (with_parts w0 R' (pcbs_of (pre ++ rest)) (threads_of (pre ++ rest))) t' None qid'
                (u32 (thread_total (pre ++ rest)))), []) /\
    length R' = length (pre ++ rest) /\ built_upto (pre ++ rest) R' /\ stages_ok t' /\
    (forall nm, no_nul nm -> stage_find t' nm = named nm (pre ++ rest)).
Proof.
  revert pre R t qid. induction rest as [|m rest IH]; intros pre R t qid Hl Hb Hn Ht Hf.
  { cbn [init_stages prepared]. rewrite !app_nil_r in *. by exists t, R, qid. }
  assert (config_ok m /\ no_nul (mc_mod_name m)) as [Hm Hnul].
  { destruct Hn as [_ Hn]. rewrite list.Forall_forall in Hn. apply Hn. set_solver. }
  destruct (init_stage_ok w0 R pre m rest t qid (u32 (thread_total pre)) Hl Hm Ht Hnul) as (t1 & q & qid1 & E & Ht1 & Hf1).
  { rewrite Hf by done. by eapply named_fresh. }
  cbn [init_stages prepared]. erewrite alloc_bind_eq by exact E. cbv beta iota.
  rewrite u32_add_l, <-thread_total_snoc, (assoc_L (++) R).
  destruct (IH (pre ++ [m]) (R ++ [stage_queue m (successor m rest (length R)) q]) t1 qid1)
    as (t' & R' & qid' & E' & H'); rewrite <-?(assoc_L (++) pre), ?length_app; [cbn; lia|by apply built_snoc|done|done|..].
  - intros nm Hnm. rewrite Hf1 by done. unfold named at 1. rewrite list_find_snoc. fold (named nm pre).
    rewrite Hf by done. case_decide as Hd; [|destruct (named nm pre); [done|]; by rewrite decide_False by congruence].
    assert (named nm pre = named (mc_mod_name m) pre) as ->.
    { unfold named. f_equal. apply list_find_ext. intros x. by rewrite Hd. }
    rewrite (named_fresh pre m rest Hn). by rewrite decide_True, Hl.
  - rewrite <-(assoc_L (++) pre) in E', H'. exists t', R', qid'. split; [|rewrite <-length_app; exact H'].
    rewrite length_app, Nat.add_comm in E'.
    etransitivity; [|exact E']. by destruct rest.
Qed.

(** * The threads *)

(** Queues that differ in [thread_num] only. *)
Definition renumbered : relation (list RQCB) := Forall2 (fun q q' => exists n, q' = set_thread_num n q).

Lemma renumbered_insert R i q n : R !! i = Some q -> renumbered R (<[i:=set_thread_num n q]> R).
Proof.
  intros Hq. apply Forall2_same_length_lookup. rewrite length_insert. split; [done|]. intros j x y Hx Hy.
  destruct (decide (i = j)) as [<-|Hne].
  - rewrite list_lookup_insert_eq in Hy by (by eapply lookup_lt_Some). exists n. congruence.
  - rewrite list_lookup_insert_ne in Hy by done. exists (thread_num x). rewrite Hx in Hy. injection Hy as <-. by destruct x.
Qed.

Lemma renumbered_trans R1 R2 R3 : renumbered R1 R2 -> renumbered R2 R3 -> renumbered R1 R3.
Proof.
  intros H1. revert R3. induction H1 as [|q q' R R' [n ->] _ IH]; intros R3 H2; inversion_clear H2 as [|? ? ? ? [n' ->] H3].
  - constructor.
  - constructor; [by exists n'|by apply IH].
Qed.

Lemma run_workers_ok sch w n : inits_ok pf -> 0 <= n < 2 ^ 32 ->
  Forall (fun t => exists th, threads w !! t = Some th /\ (t_rqcb th < length (rqcbs w))%nat) sch ->
  exists R' k, run_workers pf sch (w, n) =
      Some (Go (set_pipeline_working_threads k (set_rqcbs R' w), u32 (n + Z.of_nat (length sch)))) /\
    renumbered (rqcbs w) R'.
Proof.
  intros Hi. revert w n. induction sch as [|t sch IH]; intros w n Hn Hf; cbn [run_workers].
  { exists (rqcbs w), (pipeline_working_threads w). cbn [length]. rewrite Z.add_0_r, u32_small by done.
    split; [by destruct w|]. apply Forall2_same_length_lookup. split; [done|].
    intros j x y Hx Hy. exists (thread_num x). rewrite Hx in Hy. injection Hy as <-. by destruct x. }
  inversion_clear Hf as [|? ? (th & Hth & Hlt) Hf']. apply lookup_lt_is_Some in Hlt as [q Hq].
  assert ((match request_init q with Some f => i32 (run_request_init pf f (thread_num q)) | None => PIPELINE_SUCCESS end
    =? PIPELINE_SUCCESS) = true) as Hinit.
  { destruct (request_init q); [|done]. by rewrite Hi. }
  unfold worker_thread_init. rewrite Hth. cbn [mbind option_bind]. rewrite Hq. cbn [mbind option_bind].
  rewrite Hinit. cbn [negb]. unfold upd_rqcb. cbn [rqcbs set_pipeline_working_threads]. rewrite Hq. cbn [mbind option_bind].
  match goal with |- context [run_workers pf sch (?w1, ?n1)] => destruct (IH w1 n1) as (R' & k & -> & HR) end.
  - apply u32_range.
  - cbn [threads rqcbs set_rqcbs set_pipeline_working_threads]. by rewrite length_insert.
  - exists R', k. split.
    + cbn [length]. rewrite u32_add_l, Nat2Z.inj_succ. do 4 f_equal. lia.
    + eapply renumbered_trans; [by apply renumbered_insert|exact HR].
Qed.

End loop.

(** The state of the process before [pipeline_init]. *)
Definition pristine (w : world) : Prop :=
  rqcbs w = [] /\ requests w = ∅ /\ conns w = ∅ /\ final_request_head w = [] /\ pipeline_queue_len w = 0.

Lemma built_rqcb_ok mods i q : built mods i q -> rqcb_ok (length mods) q.
Proof.
  intros (m & Hm & Hh & Hq & _ & _ & _ & Hn). split; [by rewrite Hh, Hq|]. rewrite Hn.
  destruct (mods !! S i) eqn:E; [|done]. case_decide; [|done]. cbn. by eapply lookup_lt_Some.
Qed.

Lemma built_renumbered mods R R' : renumbered R R' -> built_upto mods R -> built_upto mods R'.
Proof.
  intros HR Hb i q' Hq'. destruct (Forall2_lookup_r _ _ _ _ _ HR Hq') as (q & Hq & n & ->). exact (Hb i q Hq).
Qed.

Lemma pcbs_of_inv mods p pc : pcbs_of mods !! p = Some (Some pc) ->
  exists i, first_index (Z.of_nat p) mods = Some i /\ pc = mk_pcb 0 (Z.of_nat p) (Some i) 0 [].
Proof.
  intros H. assert (p < 16)%nat by (rewrite <-(pcbs_of_length mods); by eapply lookup_lt_Some).
  rewrite pcbs_of_lookup in H by done. destruct (first_index (Z.of_nat p) mods) as [i|]; [|done]. exists i. naive_solver.
Qed.

Lemma first_index_Some p mods i : first_index p mods = Some i -> exists m, mods !! i = Some m /\ mc_pipeline_id m = p.
Proof.
  unfold first_index. intros ([j m] & (Hm & Hp & _)%list_find_Some & [= ->])%fmap_Some. eauto.
Qed.

Lemma pcbs_of_wf mods :
  (length (pcbs_of mods) = 16%nat /\ Forall (opcb_ok (length mods)) (pcbs_of mods) /\ firsts_inj (pcbs_of mods)) /\
  apq_ok (pcbs_of mods) [].
Proof.
  split; [split; [apply pcbs_of_length|split]|split; [constructor|split]].
  - apply Forall_lookup. intros p [pc|] Hp; [|done].
    destruct (pcbs_of_inv _ _ _ Hp) as (i & (m & Hm & _)%first_index_Some & ->). split; [done|].
    exists i. split; [done|by eapply lookup_lt_Some].
  - intros p p' pc pc' Hp Hp' E. destruct (pcbs_of_inv _ _ _ Hp) as (i & Hi & ->).
    destruct (pcbs_of_inv _ _ _ Hp') as (i' & Hi' & ->). cbn in E. injection E as <-.
    destruct (first_index_Some _ _ _ Hi) as (m & Hm & E). destruct (first_index_Some _ _ _ Hi') as (m' & Hm' & E').
    assert (m = m') by congruence. subst m'. lia.
  - by intros p ?%elem_of_nil.
  - intros p pc Hp Ht. destruct (pcbs_of_inv _ _ _ Hp) as (i & _ & ->). done.
Qed.

(** A state with the queues, pipelines and threads of the modules and no request
    is ready. *)
Lemma built_booted mods w : length (rqcbs w) = length mods -> built_upto mods (rqcbs w) ->
  pcb w = pcbs_of mods -> threads w = threads_of mods -> apq w = [] ->
  request_head (done_rqcb w) = [] -> queue_len (done_rqcb w) = 0 ->
  requests w = ∅ -> conns w = ∅ -> final_request_head w = [] -> pipeline_queue_len w = 0 -> booted w.
Proof.
  intros Hl Hb Hp Ht Ha Hd Hdl Hr Hc Hf Hn. destruct (pcbs_of_wf mods) as [Hps Hapq].
  assert (forall th, th ∈ threads w -> exists i, th = fresh_thread i /\ (i < length mods)%nat) as Hth
    by (rewrite Ht; apply threads_of_in).
  split; [|split_and!; try done].
  - unfold wf. rewrite Hl, Hp, Ha, Hd, Hdl. split; [|split; [done|split; [done|split; [done|]]]].
    + apply Forall_lookup. intros i q Hq. by eapply built_rqcb_ok, Hb.
    + apply list.Forall_forall. intros th (i & -> & Hi)%Hth. by split.
  - intros r. unfold occ, occ_stages, occ_tmp, occ_threads. rewrite Hf, Hd, !sum_list_with_zero; [done|..].
    + by intros th (i & -> & _)%Hth.
    + rewrite Hp. intros [pc|] Hpc; [|done]. apply list_elem_of_lookup in Hpc as [p Hpc].
      by destruct (pcbs_of_inv _ _ _ Hpc) as (i & _ & ->).
    + intros q [i Hq]%list_elem_of_lookup. destruct (Hb i q Hq) as (m & _ & -> & _). done.
Qed.

Section boot.
Context {T : Type} `{!OrderedIndex name_cmp T}.
Context (pf : platform) (sched : nat -> list nat).

Lemma finish_init_ok w (t : T) mods qid R :
  platform_ok pf -> inits_ok pf -> (forall n, sched n ≡ₚ seq 0 n) -> Forall (fun m => 0 <= mc_thread_num m) mods ->
  length R = length mods ->
  let w1 := with_parts w R (pcbs_of mods) (threads_of mods) in
  exists R' k, finish_init pf sched (mk_istate w1 t None qid (u32 (thread_total mods))) [] =
    Some (Go (set_done_rqcb (mk_rqcb [] None (mod_name (done_rqcb w)) (queue_id (done_rqcb w)) 0 0 0 None None None 0 0)
                (set_pipeline_working_threads k (set_rqcbs R' w1)), t), []) /\ renumbered R R'.
Proof.
  intros Hpf Hi Hs Hn HR w1. unfold finish_init. cbn [is_w is_all_thread_num is_stages].
  destruct (run_workers_ok pf (sched (length (threads w1))) w1 0) as (R' & k & E & HR'); [done|lia|..].
  { rewrite Hs. apply list.Forall_forall. intros i Hin%elem_of_seq. destruct (lookup_lt_is_Some_2 (threads w1) i) as [th Hth]; [lia|].
    exists th. split; [done|]. change (rqcbs w1) with R. rewrite HR.
    destruct (threads_of_in mods th) as (j & -> & Hj); [|done]. by eapply list_elem_of_lookup_2. }
  exists R', k. split; [|done]. erewrite alloc_bind_eq by (apply access_Some; exact E). cbv beta iota.
  rewrite (Permutation_length (Hs _)), length_seq. change (threads w1) with (threads_of mods).
  rewrite threads_of_length, Z.add_0_l, Z.eqb_refl by done. cbn [negb].
  rewrite request_queue_init_ok by done. reflexivity.
Qed.

Lemma pipeline_init_ok mods queue_size timeout w0 :
  platform_ok pf -> inits_ok pf -> (forall n, sched n ≡ₚ seq 0 n) ->
  mods <> [] -> names_ok mods -> Forall (fun m => 0 <= mc_thread_num m) mods ->
  0 <= queue_size < MAX_PIPELINE_QUEUE_SIZE -> pristine w0 ->
  exists w t, pipeline_init pf sched mods queue_size timeout w0 [] = Some (Go (w, t), []) /\
    booted w /\ length (rqcbs w) = length mods /\ built_upto mods (rqcbs w) /\
    pcb w = pcbs_of mods /\ threads w = threads_of mods /\ pipeline_queue_size w = queue_size /\
    (forall nm, no_nul nm -> stage_find t nm = named nm mods).
Proof.
  intros Hpf Hi Hs Hne Hn Hth Hq (Hr & H1 & H2 & H3 & H4).
  set (w1 := set_apq [] (set_request_timeout timeout (set_pipeline_queue_size queue_size w0))).
  destruct (init_stages_ok pf Hpf w1 mods [] [] ix_empty 0) as (t & R & qid & E & HR & Hb & Ht & Hf); try done.
  { split; [apply ix_empty_wf|]. rewrite ix_empty_elems. by intros ? ?%elem_of_nil. }
  { intros nm Hnm. unfold stage_find. destruct (ix_find ix_empty _) as [x|] eqn:Ex; [|done].
    apply ix_find_Some in Ex as [Hin _]; [|apply ix_empty_wf]. rewrite ix_empty_elems in Hin. by apply elem_of_nil in Hin. }
  cbn [app] in E. destruct (finish_init_ok w1 t mods qid R Hpf Hi Hs Hth HR) as (R' & k & Ef & HR').
  eexists _, t. split; [|split].
  - unfold pipeline_init. destruct mods as [|m mods]; [done|]. rewrite (proj2 (Z.leb_le _ _)), (proj2 (Z.ltb_lt _ _)) by lia.
    cbn [andb]. erewrite alloc_bind_eq by reflexivity. cbn [stage_init].
    rewrite (pf_worker_mutex _ Hpf), (pf_worker_cond _ Hpf). cbn [negb].
    erewrite alloc_bind_eq by reflexivity. cbn [negb].
    erewrite alloc_bind_eq; [|etransitivity; [|exact E]]; [exact Ef|]. unfold with_parts, w1. cbn. by rewrite Hr.
  - eapply built_booted; try done; [|by apply built_renumbered with R]. cbn. by rewrite <-(Forall2_length HR').
  - split; [|split]; [cbn; by rewrite <-(Forall2_length HR')|by apply built_renumbered with R|done].
Qed.

(** C9: From the queue of modules, with distinct names, [pipeline_init] returns 0
    when the system refuses nothing, in whatever order the new threads reach the
    worker mutex, and the state is one from which the pipeline is safe to run:
    one stage per module with its functions, linked to the next module of the same
    pipeline, [pcb] pointing at the first stage of each pipeline, the configured
    number of threads waiting at each stage, every stage found by its name. *)
Theorem pipeline_init_boots mods queue_size timeout w0 :
  platform_ok pf -> inits_ok pf -> (forall n, sched n ≡ₚ seq 0 n) ->
  mods <> [] -> names_ok mods -> Forall (fun m => 0 <= mc_thread_num m) mods ->
  0 <= queue_size < MAX_PIPELINE_QUEUE_SIZE -> pristine w0 ->
  exists w t, pipeline_init pf sched mods queue_size timeout w0 [] = Some (Go (w, t), []) /\
    booted w /\ length (rqcbs w) = length mods /\ built_upto mods (rqcbs w) /\
    pcb w = pcbs_of mods /\ threads w = threads_of mods /\ pipeline_queue_size w = queue_size /\
    (forall nm, no_nul nm -> stage_find t nm = named nm mods).
Proof. apply pipeline_init_ok. Qed.

End boot.

(** * Runs *)

Definition good_platform : platform :=
  mk_platform true true (fun _ => true) (fun _ => true) (fun _ => true) (fun _ _ => 0).

Definition world0 : world :=
  mk_world [] blank_rqcb [] [] [] ∅ ∅ [] 0 0 0 false 0 false 0 0 0 false 0 [].

Definition mod_of (name : string) (pid : Z) : MOD_CONFIG := mk_mod_config pid 0 1 2 (L name) None None (Some 7).

Definition three_mods : list MOD_CONFIG := [mod_of "parse" 0; mod_of "store" 0; mod_of "log" 3].

Lemma pipeline_init_boots_witness :
  exists w t, pipeline_init (T:=tree stage_node) good_platform (fun n => rev (seq 0 n)) three_mods 100 0 world0 [] = Some (Go (w, t), []) /\
    booted w /\ length (threads w) = 6%nat /\ stage_find t (L"log") = Some 2%nat.
Proof.
  destruct (pipeline_init_boots (T:=tree stage_node) good_platform (fun n => rev (seq 0 n)) three_mods 100 0 world0)
    as (w & t & E & Hb & _ & _ & _ & Ht & _ & Hf).
  - by split.
  - intros f n. reflexivity.
  - intros n. symmetry. apply Permutation_rev.
  - discriminate.
  - split; apply (bool_decide_unpack _); vm_compute; exact I.
  - repeat constructor; cbn; lia.
  - vm_compute. split; [discriminate|reflexivity].
  - split_and!; reflexivity.
  - exists w, t. split; [exact E|]. split; [exact Hb|]. rewrite Ht. split; [reflexivity|].
    rewrite Hf; [reflexivity|]. apply (bool_decide_unpack _). vm_compute. exact I.
Defined.

(** * Failures *)

(** The walk reads the node it has freed, so it never gets past a first stage. *)
Lemma free_chain_faults fuel w q freed : free_chain fuel w (Some q) freed = None.
Proof.
  destruct fuel; cbn [free_chain]; [done|]. case_decide; [done|]. unfold read_rqcb. by rewrite decide_True by (by left).
Qed.

Lemma free_pipeline_data_faults w ps p freed : Some p ∈ ps -> is_Some (first_rqcbp p) ->
  free_pipeline_data w ps freed = None.
Proof.
  intros (l1 & l2 & ->)%list_elem_of_split [q Hq]. revert freed. induction l1 as [|op l1 IH]; intros freed; cbn [app free_pipeline_data].
  - by rewrite Hq, free_chain_faults.
  - destruct op as [p'|]; [|apply IH]. destruct (free_chain _ _ _ _); cbn; [apply IH|done].
Qed.

(** Running out of memory after the first pipeline exists is not survived: the
    clean-up of [free_pipeline_data] reads every stage after freeing it, and a
    thread that cannot be allocated is not reported but waited for without end.
    Only the failures before the first pipeline return an error. *)
Theorem pipeline_init_out_of_memory :
  (forall w p freed, Some p ∈ pcb w -> is_Some (first_rqcbp p) -> free_pipeline_data w (pcb w) freed = None) /\
  let run o := pipeline_init (T:=tree stage_node) good_platform (seq 0) three_mods 100 0 world0 o in
  run [false] = Some (Crit, []) /\
  (exists w, run [true; false] = Some (Ret PIPELINE_INIT_ERR w, [])) /\
  (exists w, run [true; true; false] = Some (Ret PIPELINE_INIT_ERR w, [])) /\
  run [true; true; true; false] = None /\
  run [true; true; true; true; true; false] = Some (Hang, []).
Proof.
  split; [intros w p freed; apply free_pipeline_data_faults|]. cbv zeta.
  split; [vm_compute; reflexivity|]. split; [eexists; vm_compute; reflexivity|].
  split; [eexists; vm_compute; reflexivity|]. split; vm_compute; reflexivity.
Qed.
