(* ===== verification/TcpSend.v ===== *)
(** Sending on a TCP connection: [tcp_write], [tcp_writev],
    [tcp_send_back] and [tcp_send_back_handler] of src/csf/tcp.c. The system is a
    script of the results of its calls; what the peer receives is the list of
    bytes taken by the successful writes, the wire. EWOULDBLOCK is EAGAIN, as on
    the systems the build files name. *)

From S2P Require Import Prelude.

Inductive errno : Type := EINTR | EAGAIN | ECONNRESET | ECONNABORTED | EOther (n : Z).

(** The result of a [write] or [writev]: the bytes taken, or the error with the
    answer of the [poll] that follows an EAGAIN. *)
Inductive io : Type :=
| Done (n : nat)
| Err (e : errno) (nready : Z).

(** The outcome of a sending function: a return, or still in its loop when the
    script ends. *)
Inductive sent : Type :=
| Returned (rv : Z) (wire : list ascii)
| Looping (wire : list ascii).

(** * tcp_write *)

(** The loop of [tcp_write] on the [len] bytes of [buf]. *)
Fixpoint tcp_write_loop (buf : list ascii) (len : nat) (script : list io) (nwritten : nat) (wire : list ascii) : sent :=
  if (nwritten <? len)%nat then
    match script with
    | [] => Looping wire
    | Done n :: s => tcp_write_loop buf len s (nwritten + n) (wire ++ take n buf)
    | Err EAGAIN nready :: s => if nready =? 0 then Returned (-1) wire else tcp_write_loop buf len s nwritten wire
    | Err EINTR _ :: s => tcp_write_loop buf len s nwritten wire
    | Err _ _ :: _ => Returned (-1) wire
    end
  else Returned (Z.of_nat nwritten) wire.

Definition tcp_write (buf : list ascii) (script : list io) : sent := tcp_write_loop buf (length buf) script 0 [].

(** * tcp_writev *)

Definition IOV_MAX : nat := 1024.

(** An entry of [new_vector]: where it starts in its block, and its length. *)
Abbreviation iovec := (Z * Z)%type.

(** [vec_base_byte_ordinal]: the bytes up to the end of each block. *)
Fixpoint ordinals (base : Z) (vector : list (list ascii)) : list Z :=
  match vector with
  | [] => []
  | b :: v => (base + Z.of_nat (length b)) :: ordinals (base + Z.of_nat (length b)) v
  end.

(** The search for the block and the offset after [nwritten] bytes. *)
Fixpoint locate (vector : list (list ascii)) (ords : list Z) (nwritten : Z) (cur_block : nat) : nat * Z :=
  match vector, ords with
  | b :: v, o :: os =>
      if nwritten <? o then (cur_block, Z.of_nat (length b) - (o - nwritten))
      else if nwritten =? o then (S cur_block, 0)
      else locate v os nwritten (S cur_block)
  | _, _ => (cur_block, 0)
  end.

(** The bytes an entry of [new_vector] describes; [None] outside its block. *)
Definition window (b : list ascii) (e : iovec) : option (list ascii) :=
  if decide (0 <= e.1 /\ 0 <= e.2 /\ e.1 + e.2 <= Z.of_nat (length b))
  then Some (take (Z.to_nat e.2) (drop (Z.to_nat e.1) b)) else None.

(** The bytes offered to [writev] from entry [start] on. *)
Fixpoint windows (vector : list (list ascii)) (nv : list iovec) : option (list ascii) :=
  match vector, nv with
  | b :: v, e :: es => x ← window b e; y ← windows v es; Some (x ++ y)
  | _, _ => Some []
  end.

Record wv : Type := mk_wv {
  wv_new : list iovec;
  wv_start : nat;
  wv_block : nat;
  wv_offset : Z;
  wv_nwritten : Z;
  wv_again : bool;
  wv_wire : list ascii
}.

(** The adjustment of the current entry before a [writev]. *)
Definition wv_adjust (s : wv) : list iovec * nat :=
  if wv_again s
  then (alter (fun e => (e.1 + wv_offset s, u64 (e.2 - wv_offset s))) (wv_block s) (wv_new s), wv_block s)
  else (wv_new s, wv_start s).

(** The loop of [tcp_writev]; [None] is a vector that leaves its block. *)
Fixpoint tcp_writev_loop (vector : list (list ascii)) (script : list io) (s : wv) : option sent :=
  if (wv_block s <? length vector)%nat then
    let '(nv, start) := wv_adjust s in
    data ← windows (drop start vector) (drop start nv);
    match script with
    | [] => Some (Looping (wv_wire s))
    | Done n :: rest =>
        let nwritten := wv_nwritten s + Z.of_nat n in
        let '(b, off) := locate vector (ordinals 0 vector) nwritten 0 in
        tcp_writev_loop vector rest (mk_wv nv start b off nwritten true (wv_wire s ++ take n data))
    | Err EAGAIN nready :: rest =>
        if nready =? 0 then Some (Returned (-1) (wv_wire s))
        else tcp_writev_loop vector rest (mk_wv nv start (wv_block s) (wv_offset s) (wv_nwritten s) false (wv_wire s))
    | Err EINTR _ :: rest =>
        tcp_writev_loop vector rest (mk_wv nv start (wv_block s) (wv_offset s) (wv_nwritten s) false (wv_wire s))
    | Err _ _ :: _ => Some (Returned (-1) (wv_wire s))
    end
  else Some (Returned (wv_nwritten s) (wv_wire s)).

(** [tcp_writev]. *)
Definition tcp_writev (vector : option (list (list ascii))) (script : list io) : option sent :=
  match vector with
  | Some v =>
      if decide (length v = 0%nat \/ IOV_MAX < length v)%nat then Some (Returned (-1) [])
      else tcp_writev_loop v script
             (mk_wv ((fun b : list ascii => (0, Z.of_nat (length b))) <$> v) 0 0 0 0 true [])
  | None => Some (Returned (-1) [])
  end.

(** * tcp_send_back *)

Definition SEND_BUF_LEN : nat := 1024.

(** The part of [CONN_INFO] and its event that buffered sending uses: the bytes
    of [data_buf] up to [data_stored], how many of them precede [data_sent], the
    events the connection is registered for and the bytes on the wire. *)
Record sender : Type := mk_sender {
  sb_stored : list ascii;
  sb_sent : nat;
  sb_registered : option (bool * bool);
  sb_wire : list ascii
}.

(** The end of [tcp_send_back]: the data goes into [data_buf] if it fits. The pair
    of [sb_registered] is (EV_READ, EV_WRITE). *)
Definition buffer_data (data : list ascii) (event_add_ok : bool) (s : sender) : Z * sender :=
  let data_freelen := Z.of_nat SEND_BUF_LEN - Z.of_nat (length (sb_stored s)) in
  if Z.of_nat (length data) <=? data_freelen then
    match sb_stored s with
    | [] =>
        if event_add_ok
        then (0, mk_sender data (sb_sent s) (Some (true, true)) (sb_wire s))
        else (-1, mk_sender [] (sb_sent s) None (sb_wire s))
    | stored => (0, mk_sender (stored ++ data) (sb_sent s) (sb_registered s) (sb_wire s))
    end
  else (-1, s).

(** [tcp_send_back], with the result of its [write] and whether [event_add] works. *)
Definition tcp_send_back (is_tcp : bool) (buf : list ascii) (wr : io) (event_add_ok : bool) (s : sender) : Z * sender :=
  if negb is_tcp then (-1, s)
  else
    match sb_stored s with
    | [] =>
        match wr with
        | Done n =>
            let s' := mk_sender [] (sb_sent s) (sb_registered s) (sb_wire s ++ take n buf) in
            if (n =? length buf)%nat then (0, s') else buffer_data (drop n buf) event_add_ok s'
        | Err EINTR _ | Err EAGAIN _ => buffer_data buf event_add_ok s
        | Err _ _ => (-1, s)
        end
    | _ => buffer_data buf event_add_ok s
    end.

(** The loop of [tcp_send_back_handler]: [true] when it waits for the socket to
    be writable again. A script that ends leaves it in the loop. *)
Fixpoint send_back_loop (script : list io) (s : sender) : option (bool * sender) :=
  if (sb_sent s <? length (sb_stored s))%nat then
    match script with
    | [] => None
    | Done n :: rest =>
        send_back_loop rest (mk_sender (sb_stored s) (sb_sent s + n) (sb_registered s)
                               (sb_wire s ++ take n (drop (sb_sent s) (sb_stored s))))
    | Err EINTR _ :: rest => send_back_loop rest s
    | Err EAGAIN _ :: _ => Some (true, s)
    | Err _ _ :: _ => Some (false, s)
    end
  else Some (false, s).

(** [tcp_send_back_handler]; [event_add] of the waiting branch keeps the events
    the connection was registered for. *)
Definition tcp_send_back_handler (script : list io) (event_add_ok : bool) (s : sender) : option sender :=
  r ← send_back_loop script s;
  Some (if r.1 : bool then r.2
        else mk_sender [] 0 (if event_add_ok then Some (true, false) else None) (sb_wire r.2)).

(** * tcp_write: what reaches the peer *)

(** Errors after which the loops try again. *)
Definition retry (r : io) : Prop :=
  match r with Err EAGAIN nready => nready <> 0 | Err EINTR _ => True | _ => False end.

#[export] Instance retry_dec r : Decision (retry r).
Proof. destruct r as [|[] ?]; cbn; apply _. Defined.

Lemma tcp_write_retries buf len rs s n wire : Forall retry rs -> (n < len)%nat ->
  tcp_write_loop buf len (rs ++ s) n wire = tcp_write_loop buf len s n wire.
Proof.
  intros Hr Hn. induction Hr as [|r rs Hr _ IH]; [done|]. cbn [app tcp_write_loop].
  rewrite (proj2 (Nat.ltb_lt n len) Hn). destruct r as [|[] nready]; try done. cbn in Hr.
  by rewrite (proj2 (Z.eqb_neq nready 0) Hr).
Qed.

(** [tcp_write] returns the number of bytes and the peer has received exactly
    the buffer when, after any number of retries, the socket takes it in one
    piece; every other outcome than a short write is reported as -1 with nothing
    sent. *)
Theorem tcp_write_correct buf rs r s : buf <> [] -> Forall retry rs ->
  match r with
  | Done n => n = length buf ->
      tcp_write buf (rs ++ r :: s) = Returned (Z.of_nat (length buf)) buf
  | Err EAGAIN nready => nready = 0 -> tcp_write buf (rs ++ r :: s) = Returned (-1) []
  | Err EINTR _ => True
  | Err _ _ => tcp_write buf (rs ++ r :: s) = Returned (-1) []
  end.
Proof.
  intros Hb Hr. unfold tcp_write. assert (0 < length buf)%nat as Hl by (destruct buf; [done|cbn; lia]).
  rewrite tcp_write_retries by done.
  destruct r as [n|[] nready]; cbn [tcp_write_loop]; try rewrite (proj2 (Nat.ltb_lt 0 (length buf)) Hl); try done.
  - intros ->. rewrite take_ge by done. destruct s; cbn [tcp_write_loop Nat.add]; by rewrite Nat.ltb_irrefl.
  - by intros ->.
Qed.

Lemma tcp_write_correct_witness :
  tcp_write (L"250 OK") [Err EAGAIN 1; Err EINTR 0; Done 6] = Returned 6 (L"250 OK").
Proof.
  apply (tcp_write_correct (L"250 OK") [Err EAGAIN 1; Err EINTR 0] (Done 6) []); [discriminate| |reflexivity].
  apply (bool_decide_unpack _). vm_compute. exact I.
Defined.

(** After a short write the buffer is sent again from its start: the peer gets
    the first part twice, and the result exceeds the length. *)
Theorem tcp_write_resends buf n s : (0 < n < length buf)%nat ->
  tcp_write buf (Done n :: Done (length buf) :: s) = Returned (Z.of_nat (n + length buf)) (take n buf ++ buf).
Proof.
  intros Hn. unfold tcp_write. cbn [tcp_write_loop app]. rewrite (proj2 (Nat.ltb_lt 0 _)), (proj2 (Nat.ltb_lt (0 + n) _)) by lia.
  rewrite (take_ge buf (length buf)) by done. destruct s; cbn [tcp_write_loop]; by rewrite (proj2 (Nat.ltb_ge _ _)) by lia.
Qed.

(** * tcp_send_back: the stream of a connection *)

(** What is still to be sent, and the stream of bytes in order. *)
Definition pending (s : sender) : list ascii := drop (sb_sent s) (sb_stored s).
Definition stream (s : sender) : list ascii := sb_wire s ++ pending s.

(** The pointers stay inside [data_buf] in order, and [data_sent] is at its start
    when nothing is stored. *)
Definition sender_ok (s : sender) : Prop :=
  (sb_sent s <= length (sb_stored s) <= SEND_BUF_LEN)%nat /\ (sb_stored s = [] -> sb_sent s = 0%nat).

(** The results [write] may have for [n] bytes. *)
Definition write_fits (n : nat) (r : io) : Prop := match r with Done k => (k <= n)%nat | Err _ _ => True end.

#[export] Instance write_fits_dec n r : Decision (write_fits n r).
Proof. destruct r; cbn; apply _. Defined.

Lemma buffer_data_spec data ok s rc s' : sender_ok s -> buffer_data data ok s = (rc, s') ->
  sender_ok s' /\ sb_wire s' = sb_wire s /\ (rc = 0 -> pending s' = pending s ++ data) /\
  (rc <> 0 -> rc = -1 /\ pending s' = pending s).
Proof.
  intros [Hb Hz]. unfold buffer_data, sender_ok, pending. destruct (Z.leb_spec (Z.of_nat (length data))
    (Z.of_nat SEND_BUF_LEN - Z.of_nat (length (sb_stored s)))) as [Hf|Hf].
  2:{ intros [= <- <-]. split_and!; try done; lia. }
  destruct (sb_stored s) as [|c st] eqn:Es.
  - rewrite (Hz eq_refl). destruct ok; intros [= <- <-]; cbn [sb_stored sb_sent sb_wire drop length] in *.
    + split; [split; [lia|done]|done].
    + split; [split; [lia|done]|done].
  - intros [= <- <-]. cbn [sb_stored sb_sent sb_wire]. rewrite ?app_comm_cons, length_app. split; [split; [lia|done]|].
    split; [done|]. split; [|done]. intros _. rewrite drop_app_le by lia. done.
Qed.

(** C24: [tcp_send_back] keeps the buffer in bounds, and when it returns 0 the
    stream to the peer, sent and buffered, is extended by exactly the new data in
    order. When it returns -1 the stream has at most grown by a prefix of the
    data, and a send while older data waits never overtakes it. *)
Theorem tcp_send_back_stream buf wr ok s rc s' :
  sender_ok s -> write_fits (length buf) wr -> tcp_send_back true buf wr ok s = (rc, s') ->
  sender_ok s' /\ (rc = 0 -> stream s' = stream s ++ buf) /\
  (rc <> 0 -> rc = -1 /\ exists k, stream s' = stream s ++ take k buf) /\
  (sb_stored s <> [] -> sb_wire s' = sb_wire s).
Proof.
  intros Hs Hw. unfold tcp_send_back. cbn [negb].
  assert (forall r s1, buffer_data buf ok s = (r, s1) -> sender_ok s1 /\ (r = 0 -> stream s1 = stream s ++ buf) /\
    (r <> 0 -> r = -1 /\ exists k, stream s1 = stream s ++ take k buf) /\ (sb_stored s <> [] -> sb_wire s1 = sb_wire s)) as Hbuf.
  { intros r s1 (H1 & H2 & H3 & H4)%buffer_data_spec; [|done]. unfold stream. rewrite H2. split_and!; try done.
    - intros Hr. by rewrite (H3 Hr), (assoc_L (++)).
    - intros Hr. destruct (H4 Hr) as [-> ->]. split; [done|]. exists 0%nat. by rewrite app_nil_r. }
  destruct (sb_stored s) as [|c st] eqn:Es; [|apply Hbuf]. pose proof Hs as [_ Hz]. specialize (Hz Es).
  assert (pending s = []) as Hp by (unfold pending; by rewrite Es, drop_nil).
  destruct wr as [n|e nready]; [|destruct e; try apply Hbuf].
  2-4: intros [= <- <-]; split_and!; try done; intros _; split; [done|]; exists 0%nat; by rewrite app_nil_r.
  cbn in Hw. destruct (n =? length buf)%nat eqn:En.
  - apply Nat.eqb_eq in En as ->. intros [= <- <-]. unfold stream. rewrite Hp. unfold pending, sender_ok.
    cbn [sb_stored sb_sent sb_wire]. rewrite Hz, take_ge, !app_nil_r by done. split_and!; try done; cbn; lia.
  - intros (H1 & H2 & H3 & H4)%buffer_data_spec; [|split; cbn; [lia|done]]. unfold stream. rewrite H2, Hp.
    unfold pending at 2 in H3. unfold pending at 2 in H4. cbn [sb_stored sb_sent sb_wire] in *.
    rewrite drop_nil in H3, H4. rewrite app_nil_r. split; [done|]. split; [|split; [|done]].
    + intros Hr. rewrite (H3 Hr). cbn [app]. by rewrite <-(assoc_L (++)), take_drop.
    + intros Hr. destruct (H4 Hr) as [-> ->]. split; [done|]. exists n. by rewrite app_nil_r.
Qed.

Definition sender_sample : sender := mk_sender (L"abc") 1 (Some (true, true)) (L"a").

Lemma tcp_send_back_stream_witness :
  sender_ok (tcp_send_back true (L"def") (Done 0) true sender_sample).2 /\
  stream (tcp_send_back true (L"def") (Done 0) true sender_sample).2 = L"abcdef".
Proof.
  destruct (tcp_send_back true (L"def") (Done 0) true sender_sample) as [rc s'] eqn:E.
  destruct (tcp_send_back_stream (L"def") (Done 0) true sender_sample rc s') as (H1 & H2 & _).
  - split; [cbn; unfold SEND_BUF_LEN; lia|discriminate].
  - cbn. lia.
  - exact E.
  - split; [exact H1|]. cbn [snd]. rewrite H2; [reflexivity|]. vm_compute in E. congruence.
Defined.

(** A script whose writes take no more than what is left. *)
Fixpoint fits (todo : nat) (script : list io) : Prop :=
  match script with
  | [] => True
  | Done n :: rest => (n <= todo)%nat /\ fits (todo - n) rest
  | Err _ _ :: rest => fits todo rest
  end.

Definition fatal (r : io) : Prop :=
  match r with Done _ | Err EINTR _ | Err EAGAIN _ => False | Err _ _ => True end.

(** The bytes a script without errors takes. *)
Definition taken (script : list io) : nat :=
  sum_list_with (fun r => match r with Done n => n | Err _ _ => 0%nat end) script.

Lemma pending_advance s n : (n <= length (pending s))%nat -> sender_ok s ->
  let s' := mk_sender (sb_stored s) (sb_sent s + n) (sb_registered s) (sb_wire s ++ take n (pending s)) in
  sender_ok s' /\ stream s' = stream s /\ length (pending s') = (length (pending s) - n)%nat.
Proof.
  unfold pending. rewrite length_drop. intros Hn [Hb Hz]. unfold sender_ok, stream, pending. cbn [sb_stored sb_sent sb_wire].
  rewrite !length_drop. split; [split; [lia|]|split; [|lia]].
  - intros Es. rewrite Es in *. cbn in Hb, Hn. lia.
  - rewrite <-(assoc_L (++)). f_equal. by rewrite <-drop_drop, take_drop.
Qed.

Lemma send_back_loop_spec script s wait s' : sender_ok s -> fits (length (pending s)) script ->
  send_back_loop script s = Some (wait, s') ->
  sender_ok s' /\ stream s' = stream s /\ (wait = false -> pending s' <> [] -> Exists fatal script).
Proof.
  revert s. induction script as [|[n|e nready] script IH]; intros s Hs Hf; cbn [send_back_loop].
  { case_match eqn:El; [done|]. intros [= <- <-]. apply Nat.ltb_ge in El. split_and!; try done. intros _ Hp.
    destruct Hp. unfold pending. by apply drop_ge. }
  all: destruct (sb_sent s <? length (sb_stored s))%nat eqn:El.
  2,4: intros [= <- <-]; apply Nat.ltb_ge in El; split_and!; try done; intros _ []; unfold pending; by apply drop_ge.
  - destruct Hf as [Hn Hf]. destruct (pending_advance s n Hn Hs) as (H1 & H2 & H3). intros E.
    destruct (IH _ H1) with (2 := E) as (H4 & H5 & H6); [by rewrite H3|].
    split; [done|]. split; [congruence|]. intros. apply Exists_cons. right. by apply H6.
  - cbn [fits] in Hf. destruct e; try (intros [= <- <-]; split_and!; try done; intros; apply Exists_cons; by left).
    intros E. destruct (IH _ Hs Hf E) as (H4 & H5 & H6). split_and!; try done. intros. apply Exists_cons. right. by apply H6.
Qed.

Lemma send_back_loop_drains script s : sender_ok s -> fits (length (pending s)) script ->
  Forall (fun r => match r with Done _ | Err EINTR _ => True | _ => False end) script ->
  taken script = length (pending s) ->
  exists s', send_back_loop script s = Some (false, s') /\ sb_wire s' = stream s.
Proof.
  revert s. induction script as [|[n|e nready] script IH]; intros s Hs Hf Hr Ht.
  { cbn in Ht. symmetry in Ht. apply nil_length_inv in Ht. unfold pending in Ht. exists s. cbn [send_back_loop].
    assert (length (drop (sb_sent s) (sb_stored s)) = 0%nat) as Hl by (by rewrite Ht). rewrite length_drop in Hl.
    rewrite (proj2 (Nat.ltb_ge _ _)) by lia. split; [done|]. unfold stream, pending. by rewrite Ht, app_nil_r. }
  all: inversion_clear Hr as [|? ? Hr1 Hr2]; cbn [send_back_loop]; destruct (sb_sent s <? length (sb_stored s))%nat eqn:El.
  2,4: apply Nat.ltb_ge in El; exists s; split; [done|]; unfold stream, pending; by rewrite drop_ge, app_nil_r by lia.
  - destruct Hf as [Hn Hf]. destruct (pending_advance s n Hn Hs) as (H1 & H2 & H3). cbn in Ht.
    destruct (IH _ H1) as (s' & E & Hw); [by rewrite H3|done|rewrite H3; unfold taken; lia|].
    exists s'. split; [exact E|]. by rewrite Hw.
  - destruct e; try done. apply IH; done.
Qed.

(** [tcp_send_back_handler] sends what is buffered, in order and without
    repetition: when the socket blocks, everything unsent stays buffered; when the
    buffer is emptied or an error other than EINTR stops it, the connection goes
    back to reading, and only such an error can lose data. A socket that takes
    all the bytes, in whatever pieces, gets all of them and ends the loop. *)
Theorem tcp_send_back_handler_stream script ok s :
  sender_ok s -> fits (length (pending s)) script ->
  (forall s', tcp_send_back_handler script ok s = Some s' ->
     sender_ok s' /\ (exists lost, stream s = stream s' ++ lost /\ (lost <> [] -> Exists fatal script))) /\
  (Forall (fun r => match r with Done _ | Err EINTR _ => True | _ => False end) script ->
   taken script = length (pending s) ->
   tcp_send_back_handler script true s = Some (mk_sender [] 0 (Some (true, false)) (stream s))).
Proof.
  intros Hs Hf. unfold tcp_send_back_handler. split.
  - intros s'. destruct (send_back_loop script s) as [[wait s1]|] eqn:E; [|done]. cbn [mbind option_bind fst snd].
    destruct (send_back_loop_spec _ _ _ _ Hs Hf E) as (H1 & H2 & H3). intros [= <-]. destruct wait.
    + split; [done|]. exists []. by rewrite app_nil_r, H2.
    + split; [split; [cbn; lia|done]|]. exists (pending s1). split; [|by apply H3].
      rewrite <-H2. unfold stream, pending. cbn [sb_wire sb_sent sb_stored]. by rewrite drop_nil, app_nil_r.
  - intros Hr Ht. destruct (send_back_loop_drains script s Hs Hf Hr Ht) as (s1 & -> & <-). done.
Qed.

Lemma tcp_send_back_handler_stream_witness :
  tcp_send_back_handler [Done 1; Err EINTR 0; Done 1] true sender_sample = Some (mk_sender [] 0 (Some (true, false)) (L"abc")).
Proof.
  apply (tcp_send_back_handler_stream [Done 1; Err EINTR 0; Done 1] true sender_sample).
  - split; [cbn; unfold SEND_BUF_LEN; lia|discriminate].
  - vm_compute. lia.
  - repeat constructor.
  - reflexivity.
Defined.

(** * tcp_writev: what reaches the peer *)

(** The block and the offset of byte [p]. *)
Fixpoint pos_of (v : list (list ascii)) (p : nat) : nat * nat :=
  match v with
  | [] => (0, 0)%nat
  | b :: v' =>
      if (p <? length b)%nat then (0%nat, p)
      else let q := pos_of v' (p - length b) in (S q.1, q.2)
  end.

Definition blocks_ok (v : list (list ascii)) : Prop := Forall (fun b => b <> []) v.
Definition full (b : list ascii) : iovec := (0, Z.of_nat (length b)).

Lemma locate_pos_of v base p k : blocks_ok v -> (p <= length (concat v))%nat ->
  locate v (ordinals base v) (base + Z.of_nat p) k = ((k + (pos_of v p).1)%nat, Z.of_nat (pos_of v p).2).
Proof.
  revert base p k. induction v as [|b v IH]; intros base p k Hv Hp; cbn [locate ordinals pos_of]; [by rewrite Nat.add_0_r|].
  inversion_clear Hv as [|? ? Hb Hv']. cbn [concat] in Hp. rewrite length_app in Hp.
  destruct (Nat.ltb_spec p (length b)) as [Hlt|Hge].
  - rewrite (proj2 (Z.ltb_lt _ _)) by lia. cbn [fst snd]. f_equal; lia.
  - rewrite (proj2 (Z.ltb_ge _ _)) by lia. cbn [fst snd]. destruct (Z.eqb_spec (base + Z.of_nat p) (base + Z.of_nat (length b))) as [E|Hne].
    + assert (p - length b = 0)%nat as -> by lia. f_equal; [|by destruct v as [|[] ?]; [|inversion_clear Hv'|]].
      destruct v as [|b' v]; cbn; [lia|]. inversion_clear Hv' as [|? ? Hb' _]. destruct b'; [done|cbn; lia].
    + replace (base + Z.of_nat p) with ((base + Z.of_nat (length b)) + Z.of_nat (p - length b)) by lia.
      rewrite IH by (done || lia). f_equal. lia.
Qed.

Lemma pos_of_spec v p : (p < length (concat v))%nat ->
  exists b v2, drop (pos_of v p).1 v = b :: v2 /\ ((pos_of v p).2 < length b)%nat /\
    drop p (concat v) = drop (pos_of v p).2 b ++ concat v2 /\ ((pos_of v p).1 < length v)%nat.
Proof.
  revert p. induction v as [|b v IH]; intros p Hp; cbn [concat pos_of length] in *; [cbn in Hp; lia|].
  rewrite length_app in Hp. destruct (Nat.ltb_spec p (length b)) as [Hlt|Hge]; cbn [fst snd drop].
  - exists b, v. rewrite drop_app_le by lia. split_and!; try done. lia.
  - destruct (IH (p - length b)%nat) as (b' & v2 & H1 & H2 & H3 & H4); [lia|]. exists b', v2.
    rewrite drop_app_ge by lia. split_and!; try done. lia.
Qed.

Lemma pos_of_end v : blocks_ok v -> (pos_of v (length (concat v))).1 = length v.
Proof.
  induction v as [|b v IH]; intros Hv; [done|]. inversion_clear Hv. cbn [concat pos_of length]. rewrite length_app.
  rewrite (proj2 (Nat.ltb_ge _ _)) by lia. cbn [fst]. rewrite Nat.add_sub'. by rewrite IH.
Qed.

Lemma pos_of_mono v p q : (p <= q)%nat -> ((pos_of v p).1 <= (pos_of v q).1)%nat.
Proof.
  revert p q. induction v as [|b v IH]; intros p q Hpq; cbn [pos_of]; [done|].
  destruct (Nat.ltb_spec p (length b)), (Nat.ltb_spec q (length b)); cbn [fst]; try lia.
  specialize (IH (p - length b) (q - length b))%nat. lia.
Qed.

(** A script that takes everything, in which a block whose sending stopped in its
    middle is finished by the next write. *)
Fixpoint smooth (v : list (list ascii)) (p : nat) (script : list io) : Prop :=
  match script with
  | [] => p = length (concat v)
  | Done n :: s =>
      (0 < n /\ p + n <= length (concat v))%nat /\
      ((0 < (pos_of v p).2)%nat -> ((pos_of v p).1 < (pos_of v (p + n)).1)%nat) /\ smooth v (p + n) s
  | r :: s => retry r /\ smooth v p s
  end.

Lemma windows_full v : windows v (full <$> v) = Some (concat v).
Proof.
  induction v as [|b v IH]; [done|]. rewrite fmap_cons. cbn [windows concat]. unfold window. cbn [full fst snd].
  rewrite decide_True by lia. cbn [mbind option_bind]. rewrite IH. cbn [mbind option_bind].
  rewrite Nat2Z.id. cbn [Z.to_nat drop]. by rewrite firstn_all.
Qed.

Lemma windows_at b v off : (off <= length b)%nat ->
  windows (b :: v) ((Z.of_nat off, Z.of_nat (length b) - Z.of_nat off) :: (full <$> v)) = Some (drop off b ++ concat v).
Proof.
  intros Ho. cbn [windows]. unfold window. cbn [fst snd]. rewrite decide_True by lia. cbn [mbind option_bind].
  rewrite windows_full. cbn [mbind option_bind]. rewrite Nat2Z.id, take_ge; [done|]. rewrite length_drop. lia.
Qed.

(** The state of the loop after [p] bytes. [adjusted]: the current entry already
    starts at the current offset. *)
Definition entries_at (v : list (list ascii)) (p : nat) (adjusted : bool) (nv : list iovec) : Prop :=
  length nv = length v /\
  drop (pos_of v p).1 nv =
    match drop (pos_of v p).1 v with
    | [] => []
    | b :: v2 =>
        let off := Z.of_nat (if adjusted then (pos_of v p).2 else 0) in
        (off, Z.of_nat (length b) - off) :: (full <$> v2)
    end.

Definition wv_at (v : list (list ascii)) (p : nat) (s : wv) : Prop :=
  entries_at v p (negb (wv_again s)) (wv_new s) /\
  (wv_again s = false -> wv_start s = (pos_of v p).1) /\ wv_block s = (pos_of v p).1 /\
  wv_offset s = Z.of_nat (pos_of v p).2 /\ wv_nwritten s = Z.of_nat p /\ wv_wire s = take p (concat v).

Section writev.
Context (v : list (list ascii)) (Hv : blocks_ok v) (Hsz : Z.of_nat (length (concat v)) < 2 ^ 63).

Lemma block_small b n v2 : drop n v = b :: v2 -> Z.of_nat (length b) < 2 ^ 63.
Proof.
  intros E. rewrite <-(take_drop n v), E, concat_app, length_app in Hsz. cbn [concat] in Hsz. rewrite length_app in Hsz. lia.
Qed.

(** Before each [writev] the entries describe exactly the bytes not yet sent. *)
Lemma wv_adjust_at p s : wv_at v p s -> (p < length (concat v))%nat ->
  exists nv, wv_adjust s = (nv, (pos_of v p).1) /\ entries_at v p true nv /\
    windows (drop (pos_of v p).1 v) (drop (pos_of v p).1 nv) = Some (drop p (concat v)).
Proof.
  intros ([Hl He] & Hst & Hb & Ho & _ & _) Hp. destruct (pos_of_spec v p Hp) as (b & v2 & Ed & Hoff & Hdrop & Hk).
  pose proof (block_small _ _ _ Ed) as Hbs. rewrite Ed in He.
  assert (exists nv, wv_adjust s = (nv, (pos_of v p).1) /\ entries_at v p true nv) as (nv & E & Hnv).
  { unfold wv_adjust. destruct (wv_again s); cbn [negb] in He.
    - rewrite Hb, Ho. eexists. split; [done|]. split; [by rewrite length_alter|]. rewrite Ed.
      rewrite <-(take_drop (pos_of v p).1 (wv_new s)) at 1. rewrite He.
      rewrite alter_app_r_alt; rewrite length_take, Nat.min_l by lia; [|lia]. rewrite Nat.sub_diag.
      rewrite drop_app_length' by (rewrite length_take; lia). cbn [alter list_alter fst snd].
      rewrite u64_small by lia. repeat f_equal; lia.
    - rewrite Hst by done. exists (wv_new s). split; [done|]. split; [done|]. by rewrite Ed. }
  exists nv. split; [done|]. split; [done|]. destruct Hnv as [_ Hnv]. rewrite Ed in Hnv |- *. rewrite Hnv, Hdrop.
  apply windows_at. lia.
Qed.

(** A write moves on to the block where it stopped, whose entry is untouched. *)
Lemma entries_advance p n nv : entries_at v p true nv -> (p < length (concat v))%nat -> (p + n <= length (concat v))%nat ->
  ((0 < (pos_of v p).2)%nat -> ((pos_of v p).1 < (pos_of v (p + n)).1)%nat) -> entries_at v (p + n) false nv.
Proof.
  intros [Hl He] Hp Hn Hs. split; [done|]. destruct (pos_of_spec v p Hp) as (b & v2 & Ed & _ & _ & _). rewrite Ed in He.
  pose proof (pos_of_mono v p (p + n) ltac:(lia)) as Hmono. set (k := (pos_of v p).1) in *. set (k' := (pos_of v (p + n)).1) in *.
  destruct (decide (k = k')) as [E|Hne].
  - rewrite <-E, Ed, He. assert ((pos_of v p).2 = 0%nat) as -> by lia. done.
  - assert (drop k' v = drop (k' - S k) v2) as ->.
    { rewrite <-(take_drop k v) at 1. rewrite Ed. destruct (decide (k <= length v)%nat).
      - rewrite drop_app_ge; rewrite length_take, Nat.min_l by lia; [|lia]. by replace (k' - k)%nat with (S (k' - S k)) by lia.
      - assert (drop k v = []) by (apply drop_ge; lia). congruence. }
    assert (drop k' nv = full <$> drop (k' - S k) v2) as ->.
    { rewrite <-(take_drop k nv) at 1. rewrite He. assert (k <= length nv)%nat.
      { destruct (decide (k <= length nv)%nat); [done|]. assert (drop k nv = []) by (apply drop_ge; lia). congruence. }
      rewrite drop_app_ge; rewrite length_take, Nat.min_l by lia; [|lia].
      replace (k' - k)%nat with (S (k' - S k)) by lia. cbn [drop]. symmetry. apply fmap_drop. }
    destruct (drop (k' - S k) v2) as [|b' v3]; [done|]. rewrite fmap_cons. cbn [full]. by rewrite Z.sub_0_r.
Qed.

Lemma tcp_writev_loop_ok script p s : wv_at v p s -> (p <= length (concat v))%nat -> smooth v p script ->
  tcp_writev_loop v script s = Some (Returned (Z.of_nat (length (concat v))) (concat v)).
Proof.
  revert p s. induction script as [|r script IH]; intros p s Hat Hp Hs.
  { cbn [smooth] in Hs. subst p. destruct Hat as (_ & _ & Hb & _ & Hn & Hw). cbn [tcp_writev_loop].
    rewrite Hb, pos_of_end, Nat.ltb_irrefl, Hn, Hw, firstn_all by done. done. }
  destruct (decide (p = length (concat v))) as [->|Hne].
  { destruct Hat as (_ & _ & Hb & _ & Hn & Hw). cbn [tcp_writev_loop].
    rewrite Hb, pos_of_end, Nat.ltb_irrefl, Hn, Hw, firstn_all by done. done. }
  assert (p < length (concat v))%nat as Hlt by lia. pose proof (pos_of_spec v p Hlt) as (_ & _ & _ & _ & _ & Hk).
  destruct (wv_adjust_at p s Hat Hlt) as (nv & Ea & He & Ew).
  assert (wv_at v p (mk_wv nv (pos_of v p).1 (wv_block s) (wv_offset s) (wv_nwritten s) false (wv_wire s))) as Hretry.
  { destruct Hat as (_ & _ & Hb & Ho & Hn & Hw). by split_and!. }
  destruct Hat as (_ & _ & Hb & Ho & Hn & Hw). cbn [tcp_writev_loop]. rewrite Hb, (proj2 (Nat.ltb_lt _ _)), Ea, Ew by done.
  cbn [mbind option_bind]. rewrite Hb in Hretry. destruct r as [n|e nready]; cbn [smooth] in Hs.
  - destruct Hs as ([Hn0 Hpn] & Hblk & Hs). rewrite Hn, Hw, <-Nat2Z.inj_add.
    change (Z.of_nat (p + n)) with (0 + Z.of_nat (p + n)) at 1. rewrite locate_pos_of by done.
    apply (IH (p + n)%nat); [|done|done]. split; [by apply entries_advance|]. cbn [wv_again]. split_and!; try done.
    cbn [wv_wire]. apply take_take_drop.
  - destruct Hs as [Hr Hs]. destruct e; try done; [by apply (IH p)|]. cbn in Hr.
    rewrite (proj2 (Z.eqb_neq nready 0) Hr). by apply (IH p).
Qed.

End writev.



(** Two writes that stop inside the same block add the offset twice: the next
    [writev] is offered bytes from the wrong place and then from outside the
    block. *)
Theorem tcp_writev_adds_offset_twice :
  tcp_writev (Some [L"abcdefgh"]) [Done 2; Done 1] = Some (Looping (L"abc")) /\
  tcp_writev (Some [L"abcdefgh"]) [Done 2; Done 1; Done 2; Done 1] = None.
Proof. split; vm_compute; reflexivity. Qed.

(** An empty last block is never left: each [writev] of no bytes returns 0 and the
    search stops at the block before. *)
Theorem tcp_writev_empty_block_spins k :
  tcp_writev (Some [L"abc"; []]) (Done 3 :: replicate k (Done 0)) = Some (Looping (L"abc")).
Proof.
  assert (forall start, tcp_writev_loop [L"abc"; []] (replicate k (Done 0))
    (mk_wv [(0, 3); (0, 0)] start 1 0 3 true (L"abc")) = Some (Looping (L"abc"))) as H.
  { induction k as [|k IH]; intros start; [reflexivity|]. exact (IH 1%nat). }
  exact (H 0%nat).
Qed.
