(* ===== verification/Sendfile.v ===== *)
(** [tcp_sendfile] of src/csf/tcp.c, with the branch of each system it can be
    compiled for. A call of the system's sendfile is an answer: its result, errno
    and the number of bytes it moved from the file to the socket. [None] is a
    dereference of a pointer that is none. *)

From S2P Require Import Prelude.

(** * Data *)

(** LINUX_API, SOLARIS_API, FREEBSD_API, MACOS_API or none of them. *)
Inductive api : Type := Linux | Solaris | FreeBSD | MacOS | NoApi.

Record sf_answer : Type := mk_answer {
  sf_re : Z;
  sf_errno : Z;
  sf_moved : Z
}.

Definition EINTR : Z := 4.
Definition EIO : Z := 5.
Definition EAGAIN : Z := 11.
Definition ENOSYS : Z := 38.

(** What the caller's pointers [offset] and [sent] point to, the content of the
    file and what the socket received. *)
Record transfer : Type := mk_transfer {
  tr_offset : Z;
  tr_sent : Z;
  tr_file : list ascii;
  tr_wire : list ascii
}.

Definition slice (off n : Z) (f : list ascii) : list ascii := take (Z.to_nat n) (drop (Z.to_nat off) f).

(** The bytes the system moved. *)
Definition move (a : sf_answer) (t : transfer) : transfer :=
  mk_transfer (tr_offset t) (tr_sent t) (tr_file t) (tr_wire t ++ slice (tr_offset t) (sf_moved a) (tr_file t)).

Definition set_tr_sent (n : Z) (t : transfer) : transfer := mk_transfer (tr_offset t) n (tr_file t) (tr_wire t).

Definition set_tr_offset (n : Z) (t : transfer) : transfer := mk_transfer n (tr_sent t) (tr_file t) (tr_wire t).

(** * The function *)

Definition MAX_SF_BLK_SIZE : Z := 65536 * 16.
Definition MAX_SF_BLK_SIZE2 : Z := MAX_SF_BLK_SIZE + 65536.

(** How much is asked for. *)
Definition tcp_sendfile_size (size : Z) : Z := if MAX_SF_BLK_SIZE2 <? size then MAX_SF_BLK_SIZE else size.

(** Linux and Solaris: the system advances *offset itself, *sent is its result;
    every errno gives -1. *)
Definition linux_sendfile (a : sf_answer) (t : transfer) : Z * transfer :=
  let t1 := set_tr_sent (sf_re a) (set_tr_offset (tr_offset t + sf_moved a) (move a t)) in
  if tr_sent t1 <? 0 then (-1, t1) else if tr_sent t1 =? 0 then (-1, t1) else (0, t1).

Definition solaris_sendfile (a : sf_answer) (t : transfer) : Z * transfer :=
  let t1 := set_tr_sent (sf_re a) (set_tr_offset (tr_offset t + sf_moved a) (move a t)) in
  if tr_sent t1 <? 0 then (-1, t1) else if tr_sent t1 =? 0 then (-1, t1) else (0, t1).

(** FreeBSD: the system stores the count in *sent; the function advances *offset. *)
Definition freebsd_sendfile (a : sf_answer) (t : transfer) : Z * transfer :=
  let t1 := set_tr_sent (sf_moved a) (move a (set_tr_sent 0 t)) in
  let advance := (0, set_tr_offset (tr_offset t1 + tr_sent t1) t1) in
  if sf_re a =? -1 then
    if (sf_errno a =? EINTR) || (sf_errno a =? EAGAIN)
    then if tr_sent t1 <? 1 then (-1, t1) else advance
    else (-1, t1)
  else if tr_sent t1 =? 0 then (-1, t1)
  else advance.

(** MacOS: the call gets the address of the parameter [sent] and not the pointer
    itself, so the count replaces the pointer, and *sent at the end follows it. *)
Definition macos_sendfile (a : sf_answer) (t : transfer) : option (Z * transfer) :=
  let t1 := move a t in
  let sent := sf_moved a in
  if sf_re a =? -1 then
    if (sf_errno a =? EINTR) || (sf_errno a =? EAGAIN)
    then if sent <=? 0 then Some (-1, t1) else None
    else Some (-1, t1)
  else if sent =? 0 then Some (-1, t1)
  else None.

(** [sf] answers a call for a number of bytes; [ptr] is the pointer [sent] as a
    number, which the MacOS branch passes as the length. *)
Definition tcp_sendfile (v : api) (sf : Z -> sf_answer) (size ptr : Z) (t : transfer) : option (Z * transfer) :=
  if size =? 0 then Some (0, t)
  else
    let size := tcp_sendfile_size size in
    match v with
    | Linux => Some (linux_sendfile (sf size) t)
    | Solaris => Some (solaris_sendfile (sf size) t)
    | FreeBSD => Some (freebsd_sendfile (sf size) t)
    | MacOS => macos_sendfile (sf ptr) t
    | NoApi => Some (-1, t)
    end.

(** * What the systems document *)

(** An answer to a call for at most [count] bytes: it moves bytes that the file
    has. On Linux and Solaris the result is their number, or -1; Linux moves
    nothing then. On FreeBSD the result is 0, or -1 with what was moved before an
    interruption or a full socket buffer. *)
Definition answer_ok (v : api) (count : Z) (a : sf_answer) (t : transfer) : Prop :=
  0 <= sf_moved a <= count /\ tr_offset t + sf_moved a <= Z.of_nat (length (tr_file t)) /\
  match v with
  | Linux => sf_re a = sf_moved a \/ (sf_re a = -1 /\ sf_moved a = 0)
  | Solaris => sf_re a = sf_moved a \/ sf_re a = -1
  | FreeBSD => sf_re a = 0 \/ (sf_re a = -1 /\ (sf_moved a = 0 \/ sf_errno a = EINTR \/ sf_errno a = EAGAIN))
  | MacOS | NoApi => True
  end.

Definition answers_ok (v : api) (sf : Z -> sf_answer) (t : transfer) : Prop :=
  forall count, 0 < count -> answer_ok v count (sf count) t.

Definition working (v : api) : bool := match v with Linux | Solaris | FreeBSD => true | _ => false end.

(** A client that calls the function again and again, whatever it returns. *)
Inductive sends (v : api) (t0 : transfer) : transfer -> Prop :=
| sends_refl : sends v t0 t0
| sends_call t sf size ptr rc t' :
    sends v t0 t -> 0 <= size -> answers_ok v sf t ->
    tcp_sendfile v sf size ptr t = Some (rc, t') -> sends v t0 t'.

(** * Proofs *)

Lemma slice_app off a b f : 0 <= off -> 0 <= a -> 0 <= b -> slice off a f ++ slice (off + a) b f = slice off (a + b) f.
Proof.
  intros Ho Ha Hb. unfold slice. rewrite !Z2Nat.inj_add, <-drop_drop by done. generalize (drop (Z.to_nat off) f) as k.
  intros k. by rewrite take_take_drop.
Qed.

(** [n] bytes of the file went out and the offset is behind them. *)
Definition advanced (t t' : transfer) (n : Z) : Prop :=
  0 <= n /\ tr_file t' = tr_file t /\ tr_offset t' = tr_offset t + n /\
  tr_offset t' <= Z.max (tr_offset t) (Z.of_nat (length (tr_file t))) /\
  tr_wire t' = tr_wire t ++ slice (tr_offset t) n (tr_file t).

Lemma advanced_0 t t' : tr_file t' = tr_file t -> tr_offset t' = tr_offset t -> tr_wire t' = tr_wire t -> advanced t t' 0.
Proof. intros Hf Ho Hw. unfold advanced, slice. rewrite Hf, Ho, Hw, app_nil_r. repeat split; lia. Qed.

(** One call on a working system. *)
Lemma tcp_sendfile_call v sf size ptr t rc t' :
  working v = true -> 0 <= size -> answers_ok v sf t -> tcp_sendfile v sf size ptr t = Some (rc, t') ->
  exists n, advanced t t' n /\ (rc = 0 \/ rc = -1) /\
    (rc = 0 -> size <> 0 -> tr_sent t' = n /\ 0 < n <= tcp_sendfile_size size).
Proof.
  intros Hv Hs Hans. unfold tcp_sendfile. destruct (Z.eqb_spec size 0) as [->|Hne].
  { intros [= <- <-]. exists 0. split; [by apply advanced_0|]. split; [by left|done]. }
  assert (0 < tcp_sendfile_size size) as Hpos by (unfold tcp_sendfile_size; case_match; [done|lia]).
  destruct (Hans _ Hpos) as (Hm & Hf & Ha). cbn zeta. set (a := sf (tcp_sendfile_size size)) in *. clearbody a.
  assert (forall t2, tr_file t2 = tr_file t -> tr_offset t2 = tr_offset t + sf_moved a ->
    tr_wire t2 = tr_wire t ++ slice (tr_offset t) (sf_moved a) (tr_file t) -> advanced t t2 (sf_moved a)) as Hadv.
  { intros t2 H1 H2 H3. unfold advanced. rewrite H1, H2, H3. repeat split; lia. }
  destruct v; try done; unfold linux_sendfile, solaris_sendfile, freebsd_sendfile; cbn -[slice EINTR EAGAIN];
    repeat case_match; bool_props; intros [= <- <-].
  all: first [ solve [exists (sf_moved a); split; [by apply Hadv|]; split; [by (left + right)|]; intros; cbn; lia]
             | exists 0; split; [|split; [by right|done]]; apply advanced_0; cbn; try done ].
  all: assert (sf_moved a = 0) as -> by lia; unfold slice; by rewrite app_nil_r.
Qed.


Definition tr_demo : transfer := mk_transfer 1 0 (L"abcdef") [].
Definition tr_demo1 : transfer := mk_transfer 3 2 (L"abcdef") (L"bc").


(** In the MacOS branch no call for some bytes succeeds: it fails, or it has sent
    bytes and follows their number as a pointer. *)
Lemma macos_sendfile_never_succeeds sf size ptr t t' : size <> 0 -> tcp_sendfile MacOS sf size ptr t <> Some (0, t').
Proof.
  intros Hs. unfold tcp_sendfile, macos_sendfile. rewrite (proj2 (Z.eqb_neq _ _) Hs). repeat case_match; done.
Qed.

(** In the FreeBSD branch an error other than an interruption or a full buffer
    hides the bytes that went out before it: the offset stays behind them. *)
Lemma freebsd_sendfile_hides :
  exists t', tcp_sendfile FreeBSD (fun _ => mk_answer (-1) EIO 2) 4 0 tr_demo = Some (-1, t') /\
    tr_wire t' = L"bc" /\ tr_offset t' = tr_offset tr_demo.
Proof. eexists. split; [reflexivity|]. split; reflexivity. Qed.
