(* ===== verification/Server.v ===== *)
(** The event handlers of the server: src/csf/tcp.c (connections), src/csf/udp.c,
    src/csf/data.c, the selection of the transport and the hang-up signal of
    src/csf/worker.c. They act on the world of Pipeline.v; the protocol module is
    a parameter that promises, by the class [Session], to touch it only through
    the operations of the pipeline. *)

From stdpp Require Import relations.
From S2P Require Import Prelude Pipeline PipelineInv PipelineProps TcpSend.

Definition PROTOCOL_OK : Z := 0.
Definition PROTOCOL_ERROR : Z := -1.
Definition PROTOCOL_DISCONNECT : Z := -2.
Definition RECV_DATA_LEN : nat := 80 * 1024 - 1.
Definition EV_READ : Z := 2.
Definition EV_WRITE : Z := 4.

(** * TCP connections *)

(** The results of [read], and how a handler leaves the connection: registered
    again with its time-out, closed, neither of them, or still reading when the
    script ends. *)
Inductive read_result : Type :=
| RData (d : list ascii)
| REof
| RErr (e : errno).

Inductive conn_end : Type := Rearmed | Closed | Abandoned | Reading.

Section handlers.

(** The field [protocol_session_entry] of protocol.c's [pc], filled by the protocol
    module: the function gets the connection, if any, and the data; it gives its
    result and what it did to the world. *)
Context (entry : option (option nat -> list ascii -> world -> option (Z * world))).

(** [do_protocol_session_entry] of protocol.c. *)
Definition do_protocol_session_entry (csp : option nat) (data : list ascii) (w : world) : option (Z * world) :=
  match entry with Some f => f csp data w | None => Some (CSF_OK, w) end.

(** [data_received] of data.c. *)
Definition data_received (csp : option nat) (data : option (list ascii)) (w : world) : option (Z * world) :=
  match data with
  | None => Some (CSF_OK, w)
  | Some d => do_protocol_session_entry csp d w
  end.

(** [tcp_conn_close] and [conn_state_cleanup]. *)
Definition close_and_cleanup (c : nat) (w : world) : option world :=
  w1 ← conn_close c w; conn_state_cleanup c w1.

(** The loop of [tcp_conn_handler], with the data handed to the protocol. *)
Fixpoint tcp_read_loop (script : list read_result) (c : nat) (got : list (list ascii)) (w : world)
  : option (conn_end * list (list ascii) * world) :=
  match script with
  | [] => Some (Reading, got, w)
  | RErr EAGAIN :: _ => Some (Rearmed, got, w)
  | RErr ECONNRESET :: _ => w' ← close_and_cleanup c w; Some (Closed, got, w')
  | RErr _ :: _ => Some (Abandoned, got, w)
  | REof :: _ => w' ← close_and_cleanup c w; Some (Closed, got, w')
  | RData d :: rest =>
      r ← data_received (Some c) (Some d) w;
      let '(rc, w1) := r in
      if rc =? PROTOCOL_DISCONNECT then w' ← close_and_cleanup c w1; Some (Closed, got ++ [d], w')
      else tcp_read_loop rest c (got ++ [d]) w1
  end.

(** [tcp_conn_handler]; [fcntl_ok] is the result of F_GETFL. *)
Definition tcp_conn_handler (ev : Z) (fcntl_ok : bool) (script : list read_result) (c : nat) (w : world)
  : option (conn_end * list (list ascii) * world) :=
  if ev =? EV_TIMEOUT then w' ← close_and_cleanup c w; Some (Closed, [], w')
  else if negb fcntl_ok then Some (Abandoned, [], w)
  else tcp_read_loop script c [] w.

(** [tcp_event_handler]: the events of a connection with buffered data. *)
Definition tcp_event_handler {A} (conn_handler send_back_handler : Z -> A) (ev : Z) : A :=
  if ev =? EV_READ then conn_handler ev
  else if ev =? EV_WRITE then send_back_handler ev
  else conn_handler ev.

(** The results of [accept]. *)
Inductive accept_result : Type :=
| AFd (fd : Z)
| AErr (e : errno).

(** The loop around [accept]: the new socket, no socket, or still trying. *)
Fixpoint accept_loop (script : list accept_result) : option (option Z) :=
  match script with
  | [] => None
  | AFd fd :: _ => Some (Some fd)
  | AErr EAGAIN :: rest | AErr EINTR :: rest => accept_loop rest
  | AErr _ :: _ => Some None
  end.

(** [tcp_socket_event_handler]: [c] is the address [smalloc] returns. *)
Definition tcp_socket_event_handler (listen_fcntl_ok conn_fcntl_ok : bool) (script : list accept_result) (c : nat)
  (w : world) : option world :=
  if negb listen_fcntl_ok then Some w
  else
    r ← accept_loop script;
    match r with
    | None => Some w
    | Some connfd => if negb conn_fcntl_ok then Some w else Some (conn_accept c CSF_TCP connfd w)
    end.

(** * UDP *)

(** [udp_socket_event_handler]: one datagram is a connection of its own; [None]
    for a failed [recvfrom]. *)
Definition udp_socket_event_handler (fd : Z) (datagram : option (list ascii)) (c : nat) (w : world) : option world :=
  match datagram with
  | None => Some w
  | Some d =>
      r ← data_received (Some c) (Some d) (conn_accept c CSF_UDP fd w);
      conn_state_cleanup c r.2
  end.

(** [udp_send_back], with the result of [sendto]. *)
Definition udp_send_back (ty : Z) (rc : Z) : Z := if ty =? CSF_UDP then if rc <? 0 then -1 else rc else -1.

(** * Sockets *)

(** The results of the calls that open the server socket. *)
Record socket_calls : Type := mk_socket_calls {
  sc_socket : Z;
  sc_setsockopt : Z;
  sc_bind : Z;
  sc_listen : Z
}.

(** [tcp_socket_init] and [udp_socket_init]: the result, and the descriptors
    closed on the way. *)
Definition tcp_socket_init (k : socket_calls) : Z * list Z :=
  let sockfd := sc_socket k in
  if sockfd <? 0 then (sockfd, [])
  else if sc_setsockopt k <? 0 then (-1, [sockfd])
  else if sc_bind k <? 0 then (-1, [sockfd])
  else if sc_listen k <? 0 then (-1, [sockfd])
  else (sockfd, []).

Definition udp_socket_init (k : socket_calls) : Z * list Z :=
  let sockfd := sc_socket k in
  if sc_setsockopt k <? 0 then (-1, [sockfd])
  else if sc_bind k <? 0 then (-1, [sockfd])
  else (sockfd, []).

(** * Hang-up *)

(** [tcp_port_close] and [udp_port_close]: [shutdown] of the socket of the
    protocol, with the results of the system and the sockets that still take new
    connections or datagrams. *)
Definition tcp_port_close (shut : Z -> Z) (sockfd : Z) (ports : gset Z) : Z * gset Z :=
  (shut sockfd, if shut sockfd =? 0 then ports ∖ {[sockfd]} else ports).

Definition udp_port_close (shut : Z -> Z) (sockfd : Z) (ports : gset Z) : Z * gset Z :=
  (shut sockfd, if shut sockfd =? 0 then ports ∖ {[sockfd]} else ports).

(** [HUP_process] of worker.c on the pipeline; the closing of the port leaves the
    world alone. *)
Definition HUP_process (busy : nat -> bool) (w : world) : option world :=
  w1 ← kick_request_queue busy (set_graceful_restart true w);
  Some (if pipeline_queue_len w1 =? 0 then broadcast_signal_to_allqueue w1 else w1).

(** The whole [HUP_process], with the [port_close] of the protocol; its result is
    not looked at. *)
Definition hang_up (port_close : option (gset Z -> Z * gset Z)) (busy : nat -> bool) (s : gset Z * world)
  : option (gset Z * world) :=
  w1 ← HUP_process busy s.2;
  Some (match port_close with Some close => (close s.1).2 | None => s.1 end, w1).

End handlers.

(** * The handlers are runs of the pipeline *)

(** The connection is open and its handler holds a reference of its own. *)
Definition holds (c : nat) (w : world) : Prop :=
  exists cs, conns w !! c = Some cs /\ Z.of_nat (refs c (owners w)) < ref_cnt cs.

(** What the server relies on in a protocol module: on a connection held by the
    handler it does not fail, acts on the pipeline by its operations only, and
    does not give the handler's reference away. *)
Class Session (entry : option (option nat -> list ascii -> world -> option (Z * world))) : Prop := {
  session_steps f c d w : entry = Some f -> pinv w -> holds c w ->
    exists rc w', f (Some c) d w = Some (rc, w') /\ rtc step w w' /\ holds c w'
}.

Lemma data_received_steps entry `{!Session entry} c d w : pinv w -> holds c w ->
  exists rc w', data_received entry (Some c) (Some d) w = Some (rc, w') /\ rtc step w w' /\ holds c w'.
Proof.
  intros Hp Hc. cbn [data_received]. unfold do_protocol_session_entry. destruct entry as [f|] eqn:E; [|by exists CSF_OK, w].
  by apply (session_steps f).
Qed.

Lemma rtc_step_pinv w w' : rtc step w w' -> pinv w -> pinv w'.
Proof.
  induction 1 as [|w w1 w2 [o w1' Hen He] _ IH]; intros Hp; [done|]. apply IH.
  destruct (exec_pinv o w Hp Hen) as (? & ? & ?). congruence.
Qed.

Lemma close_step c w : pinv w -> holds c w -> exists w', close_and_cleanup c w = Some w' /\ step w w'.
Proof.
  intros Hp (cs & Hc & Hlt). destruct (lost_pinv c cs w Hp Hc Hlt) as (w' & E & _). exists w'. split; [exact E|].
  apply (step_op w (OLost c)); [by exists cs|exact E].
Qed.

Lemma refs_fresh c w : pinv w -> conns w !! c = None -> refs c (owners w) = 0%nat.
Proof.
  intros (_ & [H1 _] & _) Hc. unfold refs. apply map_size_empty_iff, map_empty_filter_2. intros r oc Hr E. cbn in E. subst oc.
  destruct (H1 _ _ Hr) as (? & ? & [= <-] & ?). congruence.
Qed.

Lemma cleanup_pinv c w : pinv w -> holds c w -> exists w', conn_state_cleanup c w = Some w' /\ pinv w'.
Proof.
  intros (Hw & Hh & Ha) (st & Hc & Hlt). unfold conn_state_cleanup, connection_lost.
  match goal with |- context [CS_RELE c ?x] => destruct (CS_RELE_eq c st x Hc) as (tr & -> & _) end.
  eexists. split; [done|]. split; [done|]. split; [|done].
  change (heap_ok (owners w) (released c st (conns w))). by apply heap_drop_ref with (os := owners w).
Qed.

(** The data a script reads before it stops. *)
Fixpoint read_data (script : list read_result) : list (list ascii) :=
  match script with RData d :: rest => d :: read_data rest | _ => [] end.

Section refinement.
Context (entry : option (option nat -> list ascii -> world -> option (Z * world))) `{!Session entry}.

Lemma tcp_read_loop_steps script c got w : pinv w -> holds c w ->
  exists e more w', tcp_read_loop entry script c got w = Some (e, got ++ more, w') /\ rtc step w w' /\
    more `prefix_of` read_data script /\ (e = Closed \/ holds c w' /\ more = read_data script).
Proof.
  revert got w. induction script as [|[d| |e] script IH]; intros got w Hp Hc; cbn [tcp_read_loop read_data].
  - exists Reading, [], w. rewrite app_nil_r. split_and!; try done. by right.
  - destruct (data_received_steps entry c d w Hp Hc) as (rc & w1 & E & Hs & Hc1). rewrite E. cbn [mbind option_bind].
    pose proof (rtc_step_pinv _ _ Hs Hp) as Hp1. case_match.
    + destruct (close_step c w1 Hp1 Hc1) as (w' & -> & Hstep). exists Closed, [d], w'. split; [done|].
      split; [by eapply rtc_r|]. split; [|by left]. by apply prefix_cons, prefix_nil.
    + destruct (IH (got ++ [d]) w1 Hp1 Hc1) as (e & more & w' & -> & Hs' & Hpre & Hend). exists e, (d :: more), w'.
      rewrite <-(assoc_L (++)). split; [done|]. split; [by etransitivity|]. split; [by apply prefix_cons|].
      destruct Hend as [->|[? ->]]; [by left|by right].
  - destruct (close_step c w Hp Hc) as (w' & -> & Hstep). exists Closed, [], w'. rewrite app_nil_r.
    split; [done|]. split; [by apply rtc_once|]. split; [apply prefix_nil|by left].
  - destruct (close_step c w Hp Hc) as (w' & E & Hstep).
    assert (rtc step w w') as Hst by (by apply rtc_once).
    destruct e; [exists Abandoned, [], w|exists Rearmed, [], w|exists Closed, [], w'|exists Abandoned, [], w|exists Abandoned, [], w];
      rewrite ?E, app_nil_r; split_and!; try done; try (by right); try (by left); apply prefix_nil.
Qed.


(** A datagram is handled without a fault and by keeping the accounting of the
    pipeline: it becomes a connection with a reference of its own, is handed to
    the protocol and is released, so that it lives on exactly when a request that
    was submitted for it does. A failed receive changes nothing. *)
Theorem udp_socket_event_handler_safe fd datagram c w : pinv w -> conns w !! c = None ->
  exists w', udp_socket_event_handler entry fd datagram c w = Some w' /\ pinv w' /\
    (datagram = None -> w' = w).
Proof.
  intros Hp Hc. destruct datagram as [d|]; [|by exists w]. cbn [udp_socket_event_handler].
  assert (pinv (conn_accept c CSF_UDP fd w)) as Hp1 by (by apply accept_pinv).
  assert (holds c (conn_accept c CSF_UDP fd w)) as Hh.
  { exists (mk_conn CSF_UDP fd 1). cbn [conn_accept conns set_connection_counter set_conns]. rewrite lookup_insert_eq.
    split; [done|]. change (owners _) with (owners w). by rewrite (refs_fresh c w Hp Hc). }
  destruct (data_received_steps entry c d _ Hp1 Hh) as (rc & w1 & E & Hs & Hc1). rewrite E.
  cbn [mbind option_bind snd]. destruct (cleanup_pinv c w1) as (w' & -> & Hp'); [by eapply rtc_step_pinv|done|]. by exists w'.
Qed.

End refinement.

(** * Runs *)

(** A protocol that only reads, and one connection. *)
Definition read_only : option (option nat -> list ascii -> world -> option (Z * world)) :=
  Some (fun csp d w => Some (if decide (d = L"quit") then PROTOCOL_DISCONNECT else PROTOCOL_OK, w)).

#[export] Instance read_only_session : Session read_only.
Proof. split. intros f c d w [= <-] Hp Hc. by eexists _, w. Qed.

Lemma demo1_holds : holds 0 demo1.
Proof.
  exists (mk_conn CSF_TCP 5 1). split; [reflexivity|]. change (owners demo1) with (owners demo).
  rewrite (refs_fresh 0 demo); [reflexivity|exact (booted_pinv demo demo_booted)|reflexivity].
Qed.


Lemma udp_socket_event_handler_safe_witness :
  exists w', udp_socket_event_handler read_only 9 (Some (L"ping")) 7 demo1 = Some w' /\ pinv w'.
Proof.
  destruct (udp_socket_event_handler_safe read_only 9 (Some (L"ping")) 7 demo1 demo1_pinv) as (w' & E & Hp & _).
  - reflexivity.
  - exists w'. split; [exact E|exact Hp].
Defined.

(** A read error other than EAGAIN and ECONNRESET leaves the connection open and
    without an event: no handler will see it again. *)
Theorem tcp_read_error_abandons entry e n c w : e = EOther n \/ e = EINTR ->
  tcp_conn_handler entry EV_READ true [RErr e] c w = Some (Abandoned, [], w).
Proof. by intros [-> | ->]. Qed.

(** A connection that went away before it was accepted keeps the handler in its
    loop for as long as [accept] finds none. *)
Theorem accept_eagain_spins k : accept_loop (replicate k (AErr EAGAIN)) = None.
Proof. by induction k. Qed.

Lemma kick_graceful busy w w' : kick_request_queue busy w = Some w' ->
  graceful_restart w' = graceful_restart w /\ clock_off w' = clock_off w.
Proof.
  unfold kick_request_queue. generalize (apq w) as l. intros l. revert w. induction l as [|p l IH]; intros w; cbn [for_each].
  { by intros [= <-]. }
  destruct (kick_one busy w p) as [w1|] eqn:E; [|done]. cbn [mbind option_bind]. intros [-> ->]%IH. revert E.
  unfold kick_one. destruct (get_pcb p w) as [pc|]; [|done]. cbn. destruct (tmp_request_head pc); [by intros [= <-]|].
  destruct (first_rqcbp pc) as [i|]; [|done]. cbn. destruct (busy i); [by intros [= <-]|].
  unfold concat_tmp, upd_rqcb, upd_pcb. destruct (rqcbs w !! i); [|done]. cbn.
  destruct (pcb w !! p) as [[]|]; [|done|done]. by intros [= <-].
Qed.

Lemma stage_chain_ext fuel w w' i : rqcbs w = rqcbs w' -> stage_chain fuel w i = stage_chain fuel w' i.
Proof.
  intros E. revert i. induction fuel as [|fuel IH]; intros [j|]; cbn; try done. rewrite E.
  destruct (rqcbs w' !! j); by rewrite ?IH.
Qed.

Lemma HUP_process_spec busy w : pinv w ->
  exists w' woken, HUP_process busy w = Some w' /\ pinv w' /\ graceful_restart w' = true /\
    (forall p, backlog p w' = backlog p w) /\ requests w' = requests w /\
    trace w' = trace w ++ (EvBroadcast <$> woken) /\ (pipeline_queue_len w <> 0 -> woken = []) /\
    (pipeline_queue_len w = 0 -> forall p pc j, pcb w' !! p = Some (Some pc) ->
       j ∈ stage_chain (length (rqcbs w')) w' (first_rqcbp pc) -> j ∈ woken) /\
    clock_off w' = clock_off w.
Proof.
  intros Hp. unfold HUP_process. set (w0 := set_graceful_restart true w).
  assert (pinv w0) as Hp0 by exact Hp.
  destruct (kick_request_queue_spec busy w0) as (w1 & E & Hm & Hb & Hr & _ & _ & Ht); [apply Hp0|]. rewrite E.
  assert (pinv w1) as Hp1 by (by eapply moves_pinv). destruct Hm as (_ & _ & _ & _ & Hn & _). cbn [mbind option_bind].
  rewrite Hn. change (pipeline_queue_len w0) with (pipeline_queue_len w). apply kick_graceful in E as [Eg Ec].
  destruct (Z.eqb_spec (pipeline_queue_len w) 0) as [Ez|Hz].
  - exists (broadcast_signal_to_allqueue w1), (flat_map (fun op => match op with
      | Some pc => stage_chain (length (rqcbs w1)) w1 (first_rqcbp pc) | None => [] end) (pcb w1)). split; [done|]. split; [by apply broadcast_pinv|]. split; [exact Eg|].
    split; [exact Hb|]. split; [exact Hr|]. split; [unfold broadcast_signal_to_allqueue; cbn [trace set_trace]; by rewrite Ht|].
    split; [done|]. split; [|exact Ec]. intros _ p pc j Hpc Hj. rewrite (stage_chain_ext _ _ w1) in Hj by done. apply list_elem_of_In, in_flat_map. exists (Some pc).
    split; [by eapply list_elem_of_In, list_elem_of_lookup_2|by apply list_elem_of_In].
  - exists w1, []. cbn. rewrite app_nil_r. by split_and!.
Qed.

(** On a hang-up the server refuses new work, keeps every queued request in its
    order and wakes the workers of every stage of every pipeline if no request is
    left, and none otherwise. *)
Theorem HUP_process_correct busy w : pinv w ->
  exists w' woken, HUP_process busy w = Some w' /\ pinv w' /\ graceful_restart w' = true /\
    (forall p, backlog p w' = backlog p w) /\ requests w' = requests w /\
    trace w' = trace w ++ (EvBroadcast <$> woken) /\ (pipeline_queue_len w <> 0 -> woken = []) /\
    (pipeline_queue_len w = 0 -> forall p pc j, pcb w' !! p = Some (Some pc) ->
       j ∈ stage_chain (length (rqcbs w')) w' (first_rqcbp pc) -> j ∈ woken).
Proof.
  intros Hp. destruct (HUP_process_spec busy w Hp) as (w' & woken & H1 & H2 & H3 & H4 & H5 & H6 & H7 & H8 & _).
  exists w', woken. by split_and!.
Qed.

Lemma HUP_process_correct_witness :
  exists w' (woken : list nat), HUP_process (fun _ => false) demo1 = Some w' /\ graceful_restart w' = true /\ 1%nat ∈ woken.
Proof.
  destruct (HUP_process_correct (fun _ => false) demo1 demo1_pinv) as (w' & woken & E & _ & Hg & _ & _ & Ht & _ & Hw).
  exists w', woken. split; [exact E|]. split; [exact Hg|].
  apply (Hw eq_refl 0%nat (mk_pcb 0 0 (Some 0%nat) 0 [])); revert E; vm_compute; intros [= <-]; vm_compute; [done|].
  right. left.
Defined.

(** A hang-up closes exactly the port of the protocol, when the system agrees, and
    from then on every submission is refused, while all queued requests stay. *)
Theorem hang_up_correct shut sockfd busy ports w : pinv w ->
  exists ports' w', hang_up (Some (tcp_port_close shut sockfd)) busy (ports, w) = Some (ports', w') /\
    (forall fd, fd ∈ ports' <-> fd ∈ ports /\ (fd = sockfd -> shut sockfd <> 0)) /\
    (forall p, backlog p w' = backlog p w) /\
    forall rc b r stale a, submit_request rc b r stale a w' = Some (SUBMIT_GENERIC_ERROR, w').
Proof.
  intros Hp. destruct (HUP_process_spec busy w Hp) as (w' & woken & E & _ & Hg & Hb & _).
  unfold hang_up. cbn [fst snd]. rewrite E. cbn -[tcp_port_close]. do 2 eexists. split; [reflexivity|]. split; [|split; [done|]].
  - intros fd. unfold tcp_port_close. cbn [snd]. destruct (Z.eqb_spec (shut sockfd) 0); set_solver.
  - intros. unfold submit_request. rewrite Hg. by case_match.
Qed.

Lemma hang_up_correct_witness :
  exists w', hang_up (Some (tcp_port_close (fun _ => 0) 6)) (fun _ => false) ({[6; 9]}, demo1) = Some ({[9]}, w') /\
    graceful_restart w' = true.
Proof.
  destruct (hang_up_correct (fun _ => 0) 6 (fun _ => false) {[6; 9]} demo1 demo1_pinv) as (ports' & w' & E & Hp & _ & Hs).
  exists w'. split; [rewrite E; do 2 f_equal; set_solver|].
  revert E. vm_compute. by intros [= _ <-].
Defined.
