(* ===== verification/Worker.v ===== *)
(** The start of the worker process: the configuration and [csf_init] of
    src/csf/worker.c, which puts together the configuration parser, the memory
    pool, the module loader and the pipeline, and [app_proto_init] of
    src/csf/protocol.c. Logging, the change to a daemon and the signals are left
    out of [csf_init]. *)

From stdpp Require Import sorting.
From S2P Require Import Prelude CString RbTree Stage Mempool Dictionary IniParser ConfParser Pipeline PipelineInv Module PipelineInit.

(** * Configuration *)

(** [CSF_CONF] without [mod_path], which nothing uses; [cp_ops] is apart. *)
Record CSF_CONF : Type := mk_csf_conf {
  server_port : Z;
  server_timeout : Z;
  conf_request_timeout : Z;
  conf_pipeline_queue_size : Z;
  conf_daemonize : Z;
  monitor_enable : Z;
  monitor_port : Z;
  server_protocol : cstr;
  protocol_module : cstr;
  conf_user : cstr;
  conf_group : cstr;
  log_ident : cstr;
  bind_ip : cstr;
  mod_dir : cstr;
  monitor_bind_ip : cstr
}.

(** [csf_conf_init]. *)
Definition csf_conf_init : CSF_CONF :=
  let str := strlcpy_str (CONF_ITEM_LEN + 1) in
  mk_csf_conf 24 10 0 0 1 1 22222
    (str (L"tcp")) (str []) (str (L"root")) (strlcpy_str CONF_ITEM_LEN (L"wheel")) (str (L"csf_log"))
    (str (L"0.0.0.0")) (str (L"./")) (str (L"0.0.0.0")).

(** [conf_int_array] and [conf_str_array] with the variables they point to. *)
Definition conf_int_array (c : CSF_CONF) : list CONF_INT_CONFIG :=
  [(L"port", server_port c); (L"timeout", server_timeout c); (L"request_timeout", conf_request_timeout c);
   (L"pipeline_queue_size", conf_pipeline_queue_size c); (L"daemonize", conf_daemonize c);
   (L"monitor_enable", monitor_enable c); (L"monitor_port", monitor_port c)].

Definition conf_str_array (c : CSF_CONF) : list CONF_STR_CONFIG :=
  [(L"protocol", server_protocol c); (L"protocol_module", protocol_module c); (L"user", conf_user c);
   (L"group", conf_group c); (L"log_ident", log_ident c); (L"bind_ip", bind_ip c); (L"mod_dir", mod_dir c);
   (L"monitor_bind_ip", monitor_bind_ip c)].

(** The structure after the variables of the arrays were set. *)
Definition with_vars (ints : list CONF_INT_CONFIG) (strs : list CONF_STR_CONFIG) : CSF_CONF :=
  let int n := snd (default ([], 0) (ints !! n)) in
  let str n := snd (default ([], []) (strs !! n)) in
  mk_csf_conf (int 0%nat) (int 1%nat) (int 2%nat) (int 3%nat) (int 4%nat) (int 5%nat) (int 6%nat)
    (str 0%nat) (str 1%nat) (str 2%nat) (str 3%nat) (str 4%nat) (str 5%nat) (str 6%nat) (str 7%nat).

(** The transports of [csf_comm_proto]. *)
Inductive comm_proto : Type := tcp_ops | udp_ops.

Definition proto_name (p : comm_proto) : cstr := match p with tcp_ops => L"tcp" | udp_ops => L"udp" end.

Definition strncasecmp (n : nat) (a b : cstr) : Z := strncmp n (tolower <$> a) (tolower <$> b).

(** [get_comm_proto]. *)
Definition get_comm_proto (name : cstr) : option comm_proto :=
  List.find (fun p => strncasecmp CONF_ITEM_LEN name (proto_name p) =? 0) [tcp_ops; udp_ops].

(** [set_maxfd]: the new [maxfd]; [None] is the exit of CRIT. *)
Definition set_maxfd (getrlimit_ok : bool) (rlim_max : Z) (setrlimit_ok : bool) (maxfd : Z) : option Z :=
  if negb getrlimit_ok then None
  else if negb setrlimit_ok then None
  else Some (if rlim_max <? maxfd then u32 rlim_max else maxfd).

(** [app_proto_init]; [run] calls the [_protocol_init] of the protocol module. *)
Definition app_proto_init {proto : Type} (run : proto -> Z) (_protocol_init : option proto) : Z :=
  match _protocol_init with
  | Some p => if run p <? 0 then CSF_ERR else CSF_OK
  | None => CSF_ERR
  end.

Section worker.
Context {lib proto T MT : Type} `{!OrderedIndex name_cmp T} `{!OrderedIndex size_cmp MT}.
Context (dlopen : cstr -> option lib) (protocol_sym : lib -> option proto)
  (mod_sym : lib -> option (cstr -> MOD_CONFIG -> Z * MOD_CONFIG)) (run_protocol : proto -> Z).
Context (fs : cstr -> option cstr) (stray : ascii) (conf_file : cstr).
Context (pf : platform) (sched : nat -> list nat) (getrlimit_ok setrlimit_ok : bool) (rlim_max : Z).

(** [config_init] on [main_conf]. *)
Definition config_init (main_conf : CSF_CONF) (w : world) : Alloc (outcome (Z * CSF_CONF * option comm_proto)) :=
  open_conf_file fs stray conf_file None ≫= fun conf : option dictionary =>
  match conf with
  | None => mret (Go (CSF_ERR, main_conf, None))
  | Some _ =>
      access (parse_conf_file conf (Some (L"server")) (conf_int_array main_conf) (conf_str_array main_conf))
      ≫= fun r : Z * list CONF_INT_CONFIG * list CONF_STR_CONFIG =>
      let c := with_vars r.1.2 r.2 in
      match get_comm_proto (server_protocol c) with
      | None => mret Crit
      | Some p => access (close_conf_file conf) ≫= fun _ : list cstr => mret (Go (CSF_OK, c, Some p))
      end
  end.

(** The globals [csf_init] leaves. *)
Record csf_state : Type := mk_csf {
  cs_conf : CSF_CONF;
  cs_proto : option comm_proto;
  cs_world : world;
  cs_pool : pool MT;
  cs_mods : mod_state proto;
  cs_stages : option T;
  cs_maxfd : Z
}.

(** The part of [csf_init] after the modules are loaded. *)
Definition start_pipeline (c : CSF_CONF) (mods : list MOD_CONFIG) (w : world) : Alloc (outcome (world * option T)) :=
  match mods with
  | [] => mret (Go (w, None))
  | _ =>
      pipeline_init pf sched mods (conf_pipeline_queue_size c) (conf_request_timeout c) w
      ≫= fun r : outcome (world * T) =>
      match r with
      | Go (w', t) => mret (Go (w', Some t))
      | Ret _ w' => mret (Ret CSF_ERR w')
      | Crit => mret Crit
      | Hang => mret Hang
      end
  end.

(** [csf_init]; [Go] is the return of CSF_OK. *)
Definition csf_init (w : world) (mp : pool MT) (mods : mod_state proto) (maxfd : Z) : Alloc (outcome csf_state) :=
  config_init csf_conf_init w ≫= fun r : outcome (Z * CSF_CONF * option comm_proto) =>
  match r with
  | Go (rc, c, ops) =>
      if rc <? 0 then mret (Ret CSF_ERR w)
      else
        request_info_init (conf_pipeline_queue_size c) (conf_request_timeout c) w ≫= fun info : option world =>
        let w1 := default w info in
        match set_maxfd getrlimit_ok rlim_max setrlimit_ok maxfd with
        | None => mret Crit
        | Some maxfd' =>
            let mp' := mp_init (u64 (Z.quot (conf_pipeline_queue_size c) 10)) (u64 (Z.quot (conf_pipeline_queue_size c) 2)) mp in
            mod_config_init dlopen protocol_sym mod_sym fs stray conf_file (mod_dir c) (protocol_module c) mods
            ≫= fun ms : Z * mod_state proto =>
            if negb (ms.1 =? CSF_OK) then mret (Ret CSF_ERR w1)
            else
              start_pipeline c (ms_queue ms.2) w1 ≫= fun p : outcome (world * option T) =>
              match p with
              | Go (w2, t) =>
                  if app_proto_init run_protocol (ms_protocol ms.2) <? 0 then mret (Ret CSF_ERR w2)
                  else
                    mret (Go (mk_csf c ops w2 mp'
                      (mk_mod_state (ms_ints ms.2) [] (ms_open ms.2) (ms_protocol ms.2)) t maxfd'))
              | Ret code w2 => mret (Ret code w2)
              | Crit => mret Crit
              | Hang => mret Hang
              end
        end
  | Ret code w' => mret (Ret code w')
  | Crit => mret Crit
  | Hang => mret Hang
  end.

End worker.

(** * The whole start *)

(** The configuration a file gives. *)
Definition configured (m : gmap cstr (option cstr)) : CSF_CONF :=
  with_vars (int_value m (L"server") <$> conf_int_array csf_conf_init)
    (str_value m (L"server") <$> conf_str_array csf_conf_init).

Section start.
Context {lib proto T MT : Type} `{!OrderedIndex name_cmp T} `{!OrderedIndex size_cmp MT}.
Context (dlopen : cstr -> option lib) (protocol_sym : lib -> option proto)
  (mod_sym : lib -> option (cstr -> MOD_CONFIG -> Z * MOD_CONFIG)) (run_protocol : proto -> Z).
Context (fs : cstr -> option cstr) (stray : ascii) (conf_file : cstr).
Context (pf : platform) (sched : nat -> list nat) (rlim_max : Z).
Context (items : list item) (Hitems : Forall item_ok items) (Hcount : Z.of_nat (length items) <= 2 ^ 25)
  (Hfile : fs conf_file = Some (print items)).
Let c := configured (meaning [] items ∅).

Lemma config_init_ok w p :
  ints_ok (meaning [] items ∅) (L"server") (conf_int_array csf_conf_init) -> get_comm_proto (server_protocol c) = Some p ->
  config_init fs stray conf_file csf_conf_init w [] = Some (Go (CSF_OK, c, Some p), []).
Proof.
  intros Hi Hp. unfold config_init, open_conf_file. cbn [default]. rewrite Hfile.
  destruct (iniparser_load_ok stray items Hitems Hcount) as (d & E & Hwf & Hm).
  erewrite alloc_bind_eq by exact E. cbv beta iota.
  erewrite alloc_bind_eq by (erewrite parse_conf_file_map by done; reflexivity). cbn [fst snd].
  change (with_vars _ _) with c. rewrite Hp. destruct (dictionary_del_ok d Hwf) as (freed & Ed).
  erewrite alloc_bind_eq; [|unfold close_conf_file, iniparser_freedict; rewrite Ed; reflexivity]. done.
Qed.

(** The modules of the file in the order of the pipelines. *)
Definition module_queue (init : cstr -> MOD_CONFIG -> Z * MOD_CONFIG) (conf : dictionary) : option (list MOD_CONFIG) :=
  r ← load_all (protocol_module c) (meaning [] items ∅) init (sections conf) mod_conf_int_array;
  Some (foldl insert_config [] r.2).

(** C10: From a configuration file whose stage sections all have a library that
    accepts them, with a known transport and a protocol module, and from a system
    that refuses nothing, [csf_init] brings the worker up: the configuration is
    the file's, the memory pool is initialised, and the pipeline has one stage per
    module, in the order of the queue and with the module's functions and
    threads, in a state from which every run of the pipeline is safe. *)
Theorem csf_init_boots init conf p mods h pr w0 (mp : pool MT) maxfd :
  iniparser_load stray (Some (print items)) [] = Some (Some conf, []) -> dict_wf conf ->
  ints_ok (meaning [] items ∅) (L"server") (conf_int_array csf_conf_init) -> get_comm_proto (server_protocol c) = Some p ->
  libraries dlopen mod_sym (mod_dir c) (protocol_module c) init (sections conf) ->
  module_queue init conf = Some mods -> mods <> [] -> names_ok mods -> Forall (fun m => 0 <= mc_thread_num m) mods ->
  0 <= conf_pipeline_queue_size c < MAX_PIPELINE_QUEUE_SIZE ->
  dlopen (mod_path (mod_dir c) (protocol_module c)) = Some h -> protocol_sym h = Some pr -> 0 <= run_protocol pr ->
  platform_ok pf -> inits_ok pf -> (forall n, sched n ≡ₚ seq 0 n) -> pristine w0 ->
  exists st, csf_init (T:=T) dlopen protocol_sym mod_sym run_protocol fs stray conf_file pf sched true true rlim_max w0 mp
      (mk_mod_state mod_conf_int_array [] [] None) maxfd [] = Some (Go st, []) /\
    cs_conf st = c /\ cs_proto st = Some p /\ mp_initialized (cs_pool st) = true /\
    booted (cs_world st) /\ built_upto mods (rqcbs (cs_world st)) /\ threads (cs_world st) = threads_of mods /\
    pcb (cs_world st) = pcbs_of mods.
Proof.
  intros Eload Hwf Hi Hp Hl Hq Hne Hn Hth Hsz Hdl Hsym Hrun Hpf Hin Hs (H0 & H1 & H2 & H3 & H4).
  unfold module_queue in Hq. destruct (load_all _ _ init (sections conf) mod_conf_int_array) as [[ints cfgs]|] eqn:Ea; [|done].
  cbn [mbind option_bind snd] in Hq. injection Hq as Hq.
  set (s0 := mk_mod_state (proto:=proto) mod_conf_int_array [] [] None).
  destruct (mod_config_init_ok dlopen protocol_sym mod_sym fs stray conf_file (mod_dir c) (protocol_module c) items
    Hitems Hcount Hfile init s0 ints cfgs conf Eload Hwf Hl Ea) as (opened & Em).
  set (w1 := set_pipeline_queue_size (u64 (conf_pipeline_queue_size c)) (set_request_timeout (conf_request_timeout c) w0)).
  destruct (pipeline_init_ok (T:=T) pf sched mods (conf_pipeline_queue_size c) (conf_request_timeout c) w1)
    as (w & t & Ep & Hb & _ & Hbt & Hpcb & Hthr & _ & _); try done.
  unfold csf_init. erewrite alloc_bind_eq by (apply config_init_ok; eassumption). cbv beta iota.
  change (CSF_OK <? 0) with false. cbv iota. erewrite alloc_bind_eq by reflexivity. cbn [set_maxfd negb default].
  fold w1. erewrite alloc_bind_eq by exact Em. cbn [fst snd]. change (CSF_OK =? CSF_OK) with true. cbn [negb ms_queue ms_protocol].
  change (ms_queue s0) with (@nil MOD_CONFIG). rewrite Hq.
  assert (start_pipeline (T:=T) pf sched c mods w1 [] = Some (Go (w, Some t), [])) as Est.
  { unfold start_pipeline. destruct mods; [done|]. erewrite alloc_bind_eq by exact Ep. done. }
  erewrite alloc_bind_eq by exact Est. cbv beta iota. unfold load_protocol_mod. rewrite Hdl, Hsym.
  cbn [snd ms_protocol app_proto_init]. rewrite (proj2 (Z.ltb_ge (run_protocol pr) 0)) by lia.
  change (CSF_OK <? 0) with false. eexists. split; [reflexivity|].
  cbn [cs_conf cs_proto cs_pool cs_world]. split_and!; try done. unfold mp_init. by case_match.
Qed.

End start.

(** * A run *)

Definition worker_items : list item :=
  [ISection (L"server"); IPair (L"port") (L"8080"); IPair (L"protocol") (L"TCP"); IPair (L"pipeline_queue_size") (L"100");
   IPair (L"protocol_module") (L"proto.so"); ISection (L"parse.so"); IPair (L"threads") (L"2");
   ISection (L"store.so"); IPair (L"stage_id") (L"2")].

Definition accept_config (sec : cstr) (m : MOD_CONFIG) : Z * MOD_CONFIG := (0, m).

Lemma csf_init_boots_witness :
  exists st, csf_init (T:=tree stage_node) (MT:=tree mp_node) (lib:=unit) (proto:=unit) (fun _ => Some ()) (fun _ => Some ())
      (fun _ => Some accept_config) (fun _ => 0) (one_file worker_items) NUL (L"csf.conf") good_platform (seq 0) true true 4096
      world0 pool0 (mk_mod_state mod_conf_int_array [] [] None) 10240 [] = Some (Go st, []) /\
    server_port (cs_conf st) = 8080 /\ booted (cs_world st) /\ length (threads (cs_world st)) = 4%nat.
Proof.
  destruct (iniparser_load_ok NUL worker_items) as (conf & E & Hwf & _).
  { apply (bool_decide_unpack _). vm_compute. exact I. }
  { vm_compute. discriminate. }
  set (mods := [mk_mod_config 0 0 1 2 (L"parse.so") None None None; mk_mod_config 0 0 2 2 (L"store.so") None None None]).
  destruct (csf_init_boots (T:=tree stage_node) (MT:=tree mp_node) (lib:=unit) (proto:=unit) (fun _ => Some ()) (fun _ => Some ())
    (fun _ => Some accept_config) (fun _ => 0) (one_file worker_items) NUL (L"csf.conf") good_platform (seq 0) 4096 worker_items
    ltac:(apply (bool_decide_unpack _); vm_compute; exact I) ltac:(vm_compute; discriminate) ltac:(vm_compute; reflexivity)
    accept_config conf tcp_ops mods () () world0 pool0 10240) as (st & Est & Hc & _ & _ & Hb & _ & Ht & _).
  - exact E.
  - exact Hwf.
  - apply (bool_decide_unpack _). vm_compute. exact I.
  - vm_compute. reflexivity.
  - apply list.Forall_forall. intros sec _ _. exists (), accept_config.
    split; [reflexivity|]. split; [reflexivity|]. intros cfg. reflexivity.
  - clear Hwf. vm_compute in E. injection E as <-. vm_compute. reflexivity.
  - discriminate.
  - split; apply (bool_decide_unpack _); vm_compute; exact I.
  - repeat constructor; cbn; lia.
  - vm_compute. split; [discriminate|reflexivity].
  - reflexivity.
  - reflexivity.
  - cbn. lia.
  - clear. by split.
  - intros f n. reflexivity.
  - intros n. reflexivity.
  - split_and!; reflexivity.
  - exists st. split; [exact Est|]. rewrite Hc, Ht. split; [vm_compute; reflexivity|]. split; [exact Hb|reflexivity].
Defined.
