(* ===== verification/Startup.v ===== *)
(** The worker process around [csf_init]: the working directory, the options, the
    pid file and the signal thread of src/csf/worker.c, and the start of the server,
    its user and group and its event loop of src/csf/server.c. *)

From S2P Require Import Prelude CString Format Supervisor Utils RbTree Stage Mempool Dictionary IniParser ConfParser Pipeline PipelineInv PipelineProps Module PipelineInit TcpSend Server Worker.

Definition PATH_MAX : nat := 4096.

(** * The working directory *)

(** The loop of [set_working_dir] that cuts the buffer at the last slash. *)
Fixpoint cut_slash (n : nat) (exec_dir : buffer) : buffer :=
  match n with
  | O => exec_dir
  | S i => if bool_decide (exec_dir !! i = Some "/"%char) then <[i:=NUL]> exec_dir else cut_slash i exec_dir
  end.

(** The string at the start of a block. *)
Definition string_at (b : buffer) : option cstr := n ← strlen b; Some (take n b).

(** The directory [set_working_dir] changes to; [stack] is what the array held
    before. *)
Definition working_dir (stack : buffer) (_exec_path : cstr) : option cstr :=
  if decide (length _exec_path <= length stack)%nat
  then string_at (cut_slash (length _exec_path) (_exec_path ++ drop (length _exec_path) stack))
  else None.

Definition set_working_dir (chdir : cstr -> Z) (stack : buffer) (_exec_path : cstr) : option Z :=
  chdir <$> working_dir stack _exec_path.

(** * The pid file *)

(** The loop of [save_pid] over [exec_appname]: where the name starts, and the
    buffer cut at the first space; [None] when the index leaves the array. *)
Fixpoint app_name_loop (n i last_slash : nat) (exec_appname : buffer) : option (nat * buffer) :=
  match n with
  | O => Some (last_slash, exec_appname)
  | S n' =>
      c ← exec_appname !! i;
      let last_slash := if eqc "/"%char c then S i else last_slash in
      if eqc " "%char c then Some (last_slash, <[i:=NUL]> exec_appname) else app_name_loop n' (S i) last_slash exec_appname
  end.

(** What is done with the file: its name, its content, and whether it is closed. *)
Inductive pid_end : Type :=
| PidNotCreated (path : cstr)
| PidNotWritten (path : cstr)
| PidSaved (path text : cstr).

Definition save_pid (fopen_ok fwrite_ok : bool) (getpid : Z) (_exec_name : cstr) : option pid_end :=
  let text := strlcpy_str (PATH_MAX + 1) _exec_name in
  let exec_appname := text ++ replicate (PATH_MAX + 1 - length text) NUL in
  r ← app_name_loop (length _exec_name) 0 0 exec_appname;
  app_name ← string_at (drop r.1 r.2);
  let path := strlcpy_str PATH_MAX (L"/var/run/" ++ app_name ++ L".pid") in
  Some (if negb fopen_ok then PidNotCreated path
        else if negb fwrite_ok then PidNotWritten path
        else PidSaved path (strlcpy_str PATH_MAX (fmt_ju (u32 getpid)))).

(** * Signals *)

(** [set_signals] of worker.c: SIGHUP gets its default action, every signal is
    blocked, and a thread is made that waits for SIGHUP, SIGTERM and SIGINT; when
    it cannot be made only a message is printed. *)
Record sig_setup : Type := mk_sig_setup { hup_default : bool; all_blocked : bool; sig_thread : bool }.

Definition worker_set_signals (sigaction_ok mask_ok create_ok : bool) (s : sig_setup) : sig_setup :=
  mk_sig_setup (if sigaction_ok then true else hup_default s) (if mask_ok then true else all_blocked s) create_ok.

(** A process with its signals blocked reacts to SIGTERM only through the thread. *)
Definition stoppable (s : sig_setup) : bool := sig_thread s || negb (all_blocked s).

(** The results of [sigtimedwait]. *)
Inductive sig_event : Type :=
| STimeout
| SInterrupted
| SFailed
| SHangup (busy : nat -> bool)
| STerm
| SUnexpected.

Inductive sig_end : Type := SigWaiting | SigExit (code : Z).

(** [signals_handler], the thread: its end, or still waiting when the events are
    over. [clock_off] is a [long] that counts seconds. *)
Fixpoint signal_thread (evs : list sig_event) (w : world) : option (sig_end * world) :=
  match evs with
  | [] => Some (SigWaiting, w)
  | STimeout :: evs' => signal_thread evs' (set_clock_off (clock_off w + 1) w)
  | SInterrupted :: evs' => signal_thread evs' w
  | SFailed :: _ => Some (SigExit 1, w)
  | SHangup busy :: evs' => w' ← HUP_process busy w; signal_thread evs' w'
  | STerm :: _ => Some (SigExit 0, w)
  | SUnexpected :: evs' => signal_thread evs' w
  end.

(** * User and group *)

Record ids : Type := mk_ids { i_uid : Z; i_gid : Z; i_groups : option Z }.

(** The user and group tables, and whether the calls that change ids succeed;
    their results are not looked at. *)
Record id_calls : Type := mk_id_calls {
  getpwnam : cstr -> option Z;
  getgrnam : cstr -> option Z;
  setgid_ok : bool;
  initgroups_ok : bool;
  setuid_ok : bool
}.

Definition setgid (k : id_calls) (g : Z) (i : ids) : ids := if setgid_ok k then mk_ids (i_uid i) g (i_groups i) else i.
Definition setuid (k : id_calls) (u : Z) (i : ids) : ids := if setuid_ok k then mk_ids u (i_gid i) (i_groups i) else i.
Definition initgroups (k : id_calls) (g : Z) (i : ids) : ids := if initgroups_ok k then mk_ids (i_uid i) (i_gid i) (Some g) else i.

(** [set_user_group]: the lookup of a name, which fails for an unknown one and for
    id 0. *)
Definition lookup_id (table : cstr -> option Z) (name : cstr) : option (option Z) :=
  match name with
  | [] => Some None
  | _ => match table name with None => None | Some id => if id =? 0 then None else Some (Some id) end
  end.

Definition set_user_group (k : id_calls) (user group : option cstr) (i : ids) : Z * ids :=
  match user, group with
  | Some user, Some group =>
      if i_uid i =? 0 then
        match lookup_id (getpwnam k) user with
        | None => (CSF_ERR, i)
        | Some pwd =>
            match lookup_id (getgrnam k) group with
            | None => (CSF_ERR, i)
            | Some grp =>
                let i1 := match grp with Some g => setgid k g i | None => i end in
                let i2 := match pwd with
                          | Some u => setuid k u (match grp with Some g => initgroups k g i1 | None => i1 end)
                          | None => i1
                          end in
                (CSF_OK, i2)
            end
        end
      else (CSF_OK, i)
  | _, _ => (CSF_ERR, i)
  end.

(** * The event loop *)

(** The callbacks, and an event as [event_add] gets it: descriptor, persistence,
    time-out in seconds, callback. *)
Inductive callback : Type := done_requests_handler_cb | local_requests_handler_cb | socket_event_handler_cb.

Record ev_reg : Type := mk_ev { ev_fd : Z; ev_persist : bool; ev_timeout : option Z; ev_cb : callback }.

(** The answers of the system to [event_handler_init]: the two pipes, read end
    first, the results of F_GETFL, and of the three allocations. *)
Record loop_calls : Type := mk_loop_calls {
  lc_done_pipe : Z + Z * Z;
  lc_getfl_done : Z;
  lc_getfl_done_read : Z;
  lc_local_pipe : Z + Z * Z;
  lc_getfl_local : Z;
  lc_getfl_local_read : Z;
  lc_callocs : bool * bool * bool
}.

(** The globals of server.c, the descriptors set non-blocking, and the events. *)
Record srv : Type := mk_srv {
  done_fd : Z;
  done_fd_read : Z;
  local_fd : Z;
  local_fd_read : Z;
  nonblocking : list Z;
  events : list ev_reg
}.

Definition srv0 : srv := mk_srv 0 0 0 0 [] [].

(** How the start ends: a return, the exit of CRIT, or the endless dispatch. *)
Inductive srv_end : Type := SrvRet (rc : Z) (s : srv) | SrvCrit | SrvLoop (s : srv).

Definition set_nonblock (fds : list Z) (s : srv) : srv :=
  mk_srv (done_fd s) (done_fd_read s) (local_fd s) (local_fd_read s) (nonblocking s ++ fds) (events s).

(** The part after the pipes: allocation and registration. *)
Definition register_events (callocs : bool * bool * bool) (sockfd : Z) (s : srv) : srv_end :=
  let '(pipe_ok, local_ok, sock_ok) := callocs in
  if negb pipe_ok then SrvCrit
  else if negb local_ok then SrvCrit
  else if negb sock_ok then SrvCrit
  else SrvLoop (mk_srv (done_fd s) (done_fd_read s) (local_fd s) (local_fd_read s) (nonblocking s)
         (events s ++ [mk_ev (done_fd_read s) true (Some 1) done_requests_handler_cb;
                       mk_ev (local_fd_read s) false None local_requests_handler_cb;
                       mk_ev sockfd true None socket_event_handler_cb])).

(** [event_handler_init]. *)
Definition event_handler_init (k : loop_calls) (sockfd : Z) (s : srv) : srv_end :=
  match lc_done_pipe k with
  | inl rc => SrvRet rc s
  | inr (r, w) =>
      let s := mk_srv w r (local_fd s) (local_fd_read s) (nonblocking s) (events s) in
      if lc_getfl_done k <? 0 then SrvRet (lc_getfl_done k) s
      else
        let s := set_nonblock [w] s in
        if lc_getfl_done_read k <? 0 then SrvRet (lc_getfl_done_read k) s
        else
          let s := set_nonblock [r] s in
          match lc_local_pipe k with
          | inl rc => SrvRet rc s
          | inr (lr, lw) =>
              let s := mk_srv (done_fd s) (done_fd_read s) lw lr (nonblocking s) (events s) in
              if lc_getfl_local k <? 0 then SrvRet (lc_getfl_local k) s
              else
                let s := set_nonblock [lw] s in
                if lc_getfl_local_read k <? 0 then SrvRet (lc_getfl_local_read k) s
                else register_events (lc_callocs k) sockfd (set_nonblock [lr] s)
          end
  end.

(** [server_init]: the ignoring of SIGPIPE, the socket of the transport, the change
    of user, and the loop. [None] for [proto_init] is a NULL pointer in the table. *)
Definition server_init (sigpipe_ok : bool) (proto_init : option Z) (k : id_calls) (user group : cstr) (lk : loop_calls)
  (i : ids) (s : srv) : ids * srv_end :=
  if negb sigpipe_ok then (i, SrvCrit)
  else
    match proto_init with
    | None => (i, SrvRet 0 s)
    | Some fd =>
        if fd <? 0 then (i, SrvRet 0 s)
        else
          let '(ret, i') := set_user_group k (Some user) (Some group) i in
          if negb (ret =? CSF_OK) then (i', SrvRet 0 s) else (i', event_handler_init lk fd s)
    end.

(** * main *)

(** The options [getopt] finds. *)
Inductive option_arg : Type := OptF (optarg : cstr) | OptV | OptH | OptOther.

(** The loop over the options: the file to read, or the end of the program. *)
Fixpoint parse_options (opts : list option_arg) (conf_file : cstr) : cstr + Z :=
  match opts with
  | [] => inl conf_file
  | OptF a :: opts' => parse_options opts' (set_conf_file (Some a) conf_file)
  | OptV :: _ | OptH :: _ => inr 0
  | OptOther :: opts' => parse_options opts' conf_file
  end.

(** How the process ends, when it does. *)
Inductive proc_end : Type := PExit (code : Z) | PServing (i : ids) (s : srv) | PHung | PFault.

(** What [csf_init] gives: a configuration, an error return, CRIT or a hang. The
    descriptor of [proto_init] and the other answers come after it. *)
Record worker_calls : Type := mk_worker_calls {
  wc_chdir : cstr -> Z;
  wc_stack : buffer;
  wc_csf_init : cstr -> option (outcome CSF_CONF);
  wc_save_pid : bool * bool * Z;
  wc_sigpipe : bool;
  wc_proto_init : CSF_CONF -> option Z;
  wc_ids : id_calls;
  wc_loop : loop_calls
}.

(** [main] of worker.c. *)
Definition worker_main (k : worker_calls) (exec_path argv0 : cstr) (opts : list option_arg) (i : ids) : proc_end :=
  match set_working_dir (wc_chdir k) (wc_stack k) exec_path with
  | None => PFault
  | Some rc =>
      if negb (rc =? 0) then PExit 2
      else
        match parse_options opts (set_conf_file (Some (L"csf.conf")) []) with
        | inr code => PExit code
        | inl conf_file =>
            match wc_csf_init k conf_file with
            | None => PFault
            | Some Crit => PExit 1
            | Some Hang => PHung
            | Some (Ret _ _) => PExit 2
            | Some (Go c) =>
                let '(fopen_ok, fwrite_ok, pid) := wc_save_pid k in
                match save_pid fopen_ok fwrite_ok pid argv0 with
                | None => PFault
                | Some _ =>
                    match server_init (wc_sigpipe k) (wc_proto_init k c) (wc_ids k) (conf_user c) (conf_group c) (wc_loop k) i srv0 with
                    | (_, SrvRet _ _) => PExit 2
                    | (_, SrvCrit) => PExit 1
                    | (i', SrvLoop s) => PServing i' s
                    end
                end
            end
        end
  end.

(** * Theorems *)

(** ** The working directory *)

Lemma cut_slash_spec pre mid post : "/"%char ∉ mid ->
  cut_slash (length pre + S (length mid)) (pre ++ "/"%char :: mid ++ post) = pre ++ NUL :: mid ++ post.
Proof.
  revert post. induction mid as [|c mid IH] using rev_ind; intros post Hm.
  - cbn [length app]. rewrite Nat.add_1_r. cbn [cut_slash].
    rewrite bool_decide_true by by apply list_lookup_middle. rewrite insert_app_r_alt by lia. by rewrite Nat.sub_diag.
  - rewrite length_app. cbn [length]. rewrite not_elem_of_app, not_elem_of_cons in Hm. destruct Hm as (Hm & Hc & _).
    replace (length pre + S (length mid + 1))%nat with (S (length pre + S (length mid))) by lia. cbn [cut_slash].
    rewrite <-app_assoc. cbn [app]. rewrite bool_decide_false.
    + exact (IH (c :: post) Hm).
    + replace (pre ++ "/"%char :: mid ++ c :: post) with ((pre ++ "/"%char :: mid) ++ c :: post) by by rewrite <-app_assoc.
      rewrite list_lookup_middle by (rewrite length_app; cbn; lia). congruence.
Qed.

Lemma string_at_nul str rest : no_nul str -> string_at (str ++ NUL :: rest) = Some str.
Proof.
  intros H. unfold string_at. rewrite strlen_cstr by done. cbn [mbind option_bind]. by rewrite take_app_length.
Qed.

Lemma working_dir_slash stack dir base : no_nul dir -> "/"%char ∉ base ->
  (length (dir ++ "/"%char :: base) <= length stack)%nat -> working_dir stack (dir ++ "/"%char :: base) = Some dir.
Proof.
  intros Hd Hb Hl. unfold working_dir. rewrite decide_True by done. rewrite length_app. cbn [length].
  rewrite <-app_assoc. cbn [app]. rewrite cut_slash_spec by done. by apply string_at_nul.
Qed.

(** A path without a slash is never terminated: the directory goes on with what was
    on the stack. *)
Theorem working_dir_unterminated stack path garbage : no_nul path -> "/"%char ∉ path -> no_nul garbage ->
  stack = replicate (length path) NUL ++ garbage ++ [NUL] -> working_dir stack path = Some (path ++ garbage).
Proof.
  intros Hp Hs Hg ->. unfold working_dir. rewrite decide_True by (rewrite length_app, length_replicate; lia).
  rewrite drop_app_length' by by rewrite length_replicate.
  assert (Hc : forall n b, (n <= length path)%nat -> cut_slash n (path ++ b) = path ++ b).
  { intros n b; induction n as [|n IH]; intros Hn; [done|]. cbn [cut_slash]. rewrite bool_decide_false; [apply IH; lia|].
    rewrite lookup_app_l by lia. intros H%list_elem_of_lookup_2. done. }
  rewrite Hc by lia. rewrite app_assoc. apply string_at_nul. by apply no_nul_app.
Qed.

(** ** The pid file *)

(** Characters that are neither a slash nor a space are passed over. *)
Definition plain (c : ascii) : Prop := c <> "/"%char /\ c <> " "%char.

#[export] Instance plain_dec c : Decision (plain c).
Proof. unfold plain. apply _. Defined.

Lemma app_loop_plain seg pre post n ls : Forall plain seg ->
  app_name_loop (length seg + n) (length pre) ls (pre ++ seg ++ post) =
  app_name_loop n (length pre + length seg) ls (pre ++ seg ++ post).
Proof.
  intros H; revert pre; induction H as [|c seg [Hs Hb] _ IH]; intros pre; [by rewrite Nat.add_0_r|].
  cbn [length plus app_name_loop app]. rewrite list_lookup_middle by done. cbn [mbind option_bind]. unfold eqc.
  rewrite !bool_decide_false by congruence. specialize (IH (pre ++ [c])). rewrite length_app, <-app_assoc in IH. cbn [length app] in IH.
  rewrite <-Nat.add_succ_comm, <-Nat.add_1_r. exact IH.
Qed.

(** A directory without spaces only moves the start of the name. *)
Lemma app_loop_dir dir pre post n ls : " "%char ∉ dir ->
  app_name_loop (length dir + S n) (length pre) ls (pre ++ dir ++ "/"%char :: post) =
  app_name_loop n (length pre + length dir + 1) (length pre + length dir + 1) (pre ++ dir ++ "/"%char :: post).
Proof.
  intros H. revert pre ls; induction dir as [|c dir IH]; intros pre ls.
  - cbn [length plus app_name_loop app]. rewrite list_lookup_middle by done. cbn. by rewrite Nat.add_0_r, Nat.add_1_r.
  - apply not_elem_of_cons in H as [Hc H]. cbn [length plus app_name_loop app]. rewrite list_lookup_middle by done.
    cbn [mbind option_bind]. unfold eqc. cbv zeta. rewrite (bool_decide_false (c = " "%char)) by congruence.
    specialize (IH H (pre ++ [c])). rewrite length_app, <-app_assoc in IH. cbn [length app] in IH.
    replace (length pre + S (length dir) + 1)%nat with (length pre + 1 + length dir + 1)%nat by lia.
    rewrite <-(Nat.add_1_r (length pre)). apply IH.
Qed.

(** The end of the name: a space, or the end of the string. *)
Lemma app_loop_end nm tail pre k : Forall plain nm -> no_nul nm -> tail = [] \/ head tail = Some " "%char -> (0 < k)%nat ->
  exists b, app_name_loop (length (nm ++ tail)) (length pre) (length pre) (pre ++ (nm ++ tail) ++ replicate k NUL) =
      Some (length pre, b) /\ string_at (drop (length pre) b) = Some nm.
Proof.
  intros Hp Hn Ht Hk. rewrite length_app, <-app_assoc, app_loop_plain by done. destruct k as [|k]; [lia|].
  destruct tail as [|c tail].
  - eexists. split; [done|]. cbn [app replicate]. rewrite drop_app_length. by apply string_at_nul.
  - destruct Ht as [|[= ->]]; [done|]. cbn [length app_name_loop app]. rewrite app_assoc, list_lookup_middle by by rewrite length_app.
    cbn [mbind option_bind]. eexists. split; [reflexivity|]. rewrite insert_app_r_alt by (rewrite length_app; lia).
    rewrite length_app, Nat.sub_diag. cbn [insert list_insert]. rewrite <-app_assoc, drop_app_length. by apply string_at_nul.
Qed.

(** The pid is written in decimal to the file of /var/run that is named after
    the program without its directory, up to a space. *)
Theorem save_pid_correct pid dir nm tail :
  dir = [] \/ (exists d, dir = d ++ L"/" /\ " "%char ∉ d) -> Forall plain nm -> no_nul nm ->
  tail = [] \/ head tail = Some " "%char -> (length (dir ++ nm ++ tail) + 20 < PATH_MAX)%nat ->
  save_pid true true pid (dir ++ nm ++ tail) = Some (PidSaved (L"/var/run/" ++ nm ++ L".pid") (fmt_ju (u32 pid))).
Proof.
  intros Hd Hp Hn Ht Hl. unfold save_pid, strlcpy_str. rewrite (take_ge (dir ++ nm ++ tail)) by lia.
  set (k := (PATH_MAX + 1 - length (dir ++ nm ++ tail))%nat). assert (0 < k)%nat by (unfold k; lia). clearbody k. cbv zeta.
  assert (E : exists b, app_name_loop (length (dir ++ nm ++ tail)) 0 0 ((dir ++ nm ++ tail) ++ replicate k NUL) =
            Some (length dir, b) /\ string_at (drop (length dir) b) = Some nm).
  { destruct (app_loop_end nm tail dir k Hp Hn Ht) as (b & E & Hb); [done|]. exists b. split; [|done].
    rewrite <-E, <-app_assoc. destruct Hd as [->|(d & -> & Hs)]; [done|].
    rewrite <-(app_assoc d), (length_app d), (length_app d). cbn [length app lit String.list_ascii_of_string].
    rewrite <-(app_assoc d). exact (app_loop_dir d [] _ _ 0 Hs). }
  destruct E as (b & -> & Hb). cbn [mbind option_bind fst snd]. rewrite Hb. cbn [mbind option_bind negb].
  rewrite !length_app in Hl. rewrite (take_ge (L"/var/run/" ++ _)) by (rewrite !length_app; cbn [length lit String.list_ascii_of_string]; lia).
  destruct (fmt_ju_ok (u32 pid)) as (_ & _ & Hj & _); [pose proof (u32_range pid); lia|].
  by rewrite (take_ge (fmt_ju _)) by (unfold PATH_MAX in *; lia).
Qed.

(** ** Signals *)

(** The events before the one that ends the process, and how it ends. *)
Fixpoint before_end (evs : list sig_event) : list sig_event * sig_end :=
  match evs with
  | [] => ([], SigWaiting)
  | STerm :: _ => ([], SigExit 0)
  | SFailed :: _ => ([], SigExit 1)
  | e :: evs' => let '(l, r) := before_end evs' in (e :: l, r)
  end.

Definition ticks (evs : list sig_event) : Z := foldr (fun e n => (match e with STimeout => 1 | _ => 0 end) + n) 0 evs.

Definition hung_up (evs : list sig_event) : bool := existsb (fun e => match e with SHangup _ => true | _ => false end) evs.

Lemma tick_pinv w : pinv w -> pinv (set_clock_off (clock_off w + 1) w).
Proof. intros H. destruct (exec_pinv OTick w H I) as (w' & [= <-] & Hw). exact Hw. Qed.


(** A worker whose signal thread could not be made goes on with every signal blocked:
    it can be neither stopped nor reloaded, and its clock stands still. *)
Theorem worker_without_signal_thread sigaction_ok s : stoppable (worker_set_signals sigaction_ok true false s) = false /\
  stoppable (worker_set_signals sigaction_ok true true s) = true.
Proof. done. Qed.

(** ** User and group *)

Definition lookup_ok (table : cstr -> option Z) (name : cstr) : Prop := exists id, table name = Some id /\ id <> 0.

Lemma lookup_id_Some table name : name <> [] ->
  (exists id, lookup_id table name = Some (Some id) /\ table name = Some id /\ id <> 0) \/
  (lookup_id table name = None /\ ~ lookup_ok table name).
Proof.
  intros Hn. destruct name as [|c name]; [done|]. cbn [lookup_id]. unfold lookup_ok.
  destruct (table (c :: name)) as [id|]; [|right; split; [done|by intros (? & ? & _)]].
  destruct (Z.eqb_spec id 0) as [->|]; [right; split; [done|]; by intros (? & [= <-] & ?)|left; by exists id].
Qed.

(** A worker that runs as root and is given a user and a group goes on only when
    both are known and neither is 0, and then, the system calls granted, with that
    user, group and list of groups; in all other cases the start is refused with the
    ids unchanged. A worker that is not root keeps its ids. *)
Theorem set_user_group_drops k user group i :
  user <> [] -> group <> [] -> setgid_ok k = true -> setuid_ok k = true -> initgroups_ok k = true ->
  let '(rc, i') := set_user_group k (Some user) (Some group) i in
  (i_uid i <> 0 -> rc = CSF_OK /\ i' = i) /\
  (i_uid i = 0 -> (rc = CSF_OK <-> lookup_ok (getpwnam k) user /\ lookup_ok (getgrnam k) group) /\
    (rc <> CSF_OK -> i' = i) /\
    (rc = CSF_OK -> i_uid i' <> 0 /\ i_gid i' <> 0 /\
       getpwnam k user = Some (i_uid i') /\ getgrnam k group = Some (i_gid i') /\ i_groups i' = Some (i_gid i'))).
Proof.
  intros Hu Hg H1 H2 H3. unfold set_user_group. destruct (Z.eqb_spec (i_uid i) 0) as [E|E]; [|by split].
  destruct (lookup_id_Some (getpwnam k) user Hu) as [(u & -> & Eu & Nu)|[-> N]].
  - destruct (lookup_id_Some (getgrnam k) group Hg) as [(g & -> & Eg & Ng)|[-> N]].
    + unfold setuid, setgid, initgroups. rewrite H1, H2, H3. cbn. split; [done|]. intros _. split_and!; try done.
      split; [|done]. intros _. split; by eexists.
    + split; [done|]. intros _. split_and!; try done. split; [done|]. by intros [_ ?].
  - split; [done|]. intros _. split_and!; try done. split; [done|]. by intros [? _].
Qed.

(** When [setuid] is refused the worker goes on as root and reports success; the same
    happens when no user is configured. *)
Theorem set_user_group_stays_root k user group i u g :
  i_uid i = 0 -> user <> [] -> group <> [] -> getpwnam k user = Some u -> u <> 0 -> getgrnam k group = Some g -> g <> 0 ->
  setuid_ok k = false ->
  (exists i', set_user_group k (Some user) (Some group) i = (CSF_OK, i') /\ i_uid i' = 0) /\
  (exists i', set_user_group k (Some []) (Some []) i = (CSF_OK, i') /\ i_uid i' = 0).
Proof.
  intros E Hu Hg Eu Nu Eg Ng Hs. unfold set_user_group. rewrite E. cbn [Z.eqb lookup_id].
  destruct (lookup_id_Some (getpwnam k) user Hu) as [(u' & -> & _)|[_ N]]; [|by destruct N; exists u].
  destruct (lookup_id_Some (getgrnam k) group Hg) as [(g' & -> & _)|[_ N]]; [|by destruct N; exists g].
  split; eexists; (split; [done|]); [|done]. unfold setuid, setgid, initgroups. rewrite Hs.
  by destruct (initgroups_ok k), (setgid_ok k).
Qed.

(** ** The event loop *)

(** Calls that all succeed. *)
Definition loop_ok (k : loop_calls) (r w lr lw : Z) : Prop :=
  lc_done_pipe k = inr (r, w) /\ lc_local_pipe k = inr (lr, lw) /\ 0 <= lc_getfl_done k /\ 0 <= lc_getfl_done_read k /\
  0 <= lc_getfl_local k /\ 0 <= lc_getfl_local_read k /\ lc_callocs k = (true, true, true).

Definition serving (sockfd r w lr lw : Z) : srv :=
  mk_srv w r lw lr [w; r; lw; lr]
    [mk_ev r true (Some 1) done_requests_handler_cb; mk_ev lr false None local_requests_handler_cb;
     mk_ev sockfd true None socket_event_handler_cb].

Lemma event_handler_init_ok k sockfd r w lr lw : loop_ok k r w lr lw ->
  event_handler_init k sockfd srv0 = SrvLoop (serving sockfd r w lr lw).
Proof.
  intros (H1 & H2 & H3 & H4 & H5 & H6 & H7). unfold event_handler_init. rewrite H1, H2, H7.
  rewrite !(proj2 (Z.ltb_ge _ _)) by done. done.
Qed.

Definition neg_pipe (p : Z + Z * Z) : Prop := match p with inl rc => rc < 0 | inr _ => True end.

(** The event loop starts only with both pipes made and their four ends
    non-blocking; it then watches the read end of the done pipe, with a time-out of a
    second, the local pipe and the server socket, each with its handler, and workers
    write to the other end of the same pipe. Every failed call is reported by a
    negative result, with no event registered, or ends the process. *)
Theorem event_handler_init_correct k sockfd : neg_pipe (lc_done_pipe k) -> neg_pipe (lc_local_pipe k) ->
  match event_handler_init k sockfd srv0 with
  | SrvLoop s => exists r w lr lw, loop_ok k r w lr lw /\ s = serving sockfd r w lr lw
  | SrvRet rc s => rc < 0 /\ events s = [] /\ forall r w lr lw, ~ loop_ok k r w lr lw
  | SrvCrit => lc_callocs k <> (true, true, true)
  end.
Proof.
  intros N1 N2. unfold event_handler_init, loop_ok. destruct (lc_done_pipe k) as [rc|[r w]].
  { split_and!; try done. by intros ???? [? _]. }
  destruct (Z.ltb_spec (lc_getfl_done k) 0); [split_and!; try done; intros; naive_solver lia|].
  destruct (Z.ltb_spec (lc_getfl_done_read k) 0); [split_and!; try done; intros; naive_solver lia|].
  destruct (lc_local_pipe k) as [rc|[lr lw]]; [split_and!; try done; naive_solver|].
  destruct (Z.ltb_spec (lc_getfl_local k) 0); [split_and!; try done; intros; naive_solver lia|].
  destruct (Z.ltb_spec (lc_getfl_local_read k) 0); [split_and!; try done; intros; naive_solver lia|].
  unfold register_events. destruct (lc_callocs k) as [[[] []] []]; cbn [negb]; try done.
  exists r, w, lr, lw. by split_and!.
Qed.

(** ** main *)

(** The value [request_info_init] copies into [done_fd] of the block that
    submit_request.c uses. *)
Definition request_info_done_fd (s : srv) : Z := done_fd s.

(** [csf_init] runs before the pipe exists, so the block keeps descriptor 0, and the
    notice of an evicted request is written to the standard input instead of the
    pipe the event loop watches. *)
Theorem evict_notice_misdirected k sockfd r w lr lw s : loop_ok k r w lr lw -> w <> 0 ->
  event_handler_init k sockfd srv0 = SrvLoop s -> done_fd s = w /\ request_info_done_fd srv0 <> done_fd s.
Proof. intros Hk Hw. rewrite (event_handler_init_ok _ _ _ _ _ _ Hk). intros [= <-]. by split. Qed.


(** Every start that fails makes the worker exit with 2, except those that CRIT
    ends with 1, and the supervisor then exits with 2 instead of starting it again;
    after an exit with 1 it waits three seconds and starts another worker, and a
    worker that only printed its help is started again after half a second. *)
Theorem worker_exit_reaches_supervisor k path argv0 opts i code pid s : 0 <= pid ->
  worker_main k path argv0 opts i = PExit code ->
  (code = 0 \/ code = 1 \/ code = 2) /\
  exists s', pauses s' = pauses s ++ (if code =? 2 then [] else [if code =? 0 then DELAY_RESTARTING else DELAY_ERROR]) /\
    main_round (round_of (mk_life pid [] (Ended (Exited code)))) s = if code =? 2 then Supervisor.Exit 2 s' else Supervisor.Ret tt [] s'.
Proof.
  intros Hp E. assert (Hc : code = 0 \/ code = 1 \/ code = 2).
  { assert (Ho : forall opts cf c, parse_options opts cf = inr c -> c = 0).
    { clear. intros opts; induction opts as [|[] opts IH]; intros cf c; cbn; naive_solver. }
    revert E. unfold worker_main. destruct (set_working_dir _ _ _) as [rc|]; [|done]. destruct (negb (rc =? 0)); [naive_solver|].
    destruct (parse_options _ _) as [cf|c] eqn:Eo; [|intros [= <-]; left; by eapply Ho].
    destruct (wc_csf_init k cf) as [[]|]; [|naive_solver..]. destruct (wc_save_pid k) as [[fo fw] p].
    destruct (save_pid fo fw p argv0); [|done]. destruct (server_init _ _ _ _ _ _ _ _) as [i' []]; naive_solver. }
  split; [done|]. destruct (main_round_life (mk_life pid [] (Ended (Exited code))) s Hp) as (s' & _ & H). exists s'.
  cbn [life_exit l_end life_delay] in H. destruct (code =? 2); destruct H as [H1 H2]; [rewrite app_nil_r|]; by split.
Qed.

(** By default the worker makes itself a daemon: the process the supervisor launched
    exits with 0 at once, and the supervisor launches the next one half a second
    later, without end. *)
Theorem default_daemonize_respawns k p pid s : 0 <= pid -> 0 < an_fork k ->
  conf_daemonize csf_conf_init <> 0 /\ daemonize true true k p = DExit 0 /\
  exists s', main_round (round_of (mk_life pid [] (Ended (Exited 0)))) s = Supervisor.Ret tt [] s' /\
    pauses s' = pauses s ++ [DELAY_RESTARTING].
Proof.
  intros Hp Hf. split; [done|]. split.
  - unfold daemonize. rewrite (proj2 (Z.eqb_neq (an_fork k) (-1))) by lia. by rewrite (proj2 (Z.eqb_neq (an_fork k) 0)) by lia.
  - destruct (main_round_life (mk_life pid [] (Ended (Exited 0))) s Hp) as (s' & _ & H1 & H2). by exists s'.
Qed.

(** * Witnesses *)

Lemma save_pid_correct_witness :
  save_pid true true 1234 (L"/opt/csf-worker -d") = Some (PidSaved (L"/var/run/csf-worker.pid") (L"1234")).
Proof.
  refine (eq_trans (save_pid_correct 1234 (L"/opt/") (L"csf-worker") (L" -d") _ _ _ _ _) _).
  - right. exists (L"/opt"). split; [reflexivity|]. apply (bool_decide_unpack _). vm_compute. exact I.
  - apply (bool_decide_unpack _). vm_compute. exact I.
  - apply (bool_decide_unpack _). vm_compute. exact I.
  - right. reflexivity.
  - apply Nat.ltb_lt. vm_compute. reflexivity.
  - vm_compute. reflexivity.
Defined.


Definition id_table (name : cstr) : option Z := if decide (name = L"csf") then Some 33 else None.
Definition demo_ids : id_calls := mk_id_calls id_table id_table true true true.

Lemma set_user_group_drops_witness :
  exists i', set_user_group demo_ids (Some (L"csf")) (Some (L"csf")) (mk_ids 0 0 None) = (CSF_OK, i') /\ i_uid i' <> 0.
Proof.
  pose proof (set_user_group_drops demo_ids (L"csf") (L"csf") (mk_ids 0 0 None) ltac:(discriminate) ltac:(discriminate)
    eq_refl eq_refl eq_refl) as H.
  eexists. split; [vm_compute; reflexivity|]. exact (proj1 (proj2 (proj2 (proj2 H eq_refl)) eq_refl)).
Defined.

Definition demo_loop : loop_calls := mk_loop_calls (inr (4, 5)) 0 0 (inr (6, 7)) 0 0 (true, true, true).

Lemma event_handler_init_correct_witness :
  event_handler_init demo_loop 3 srv0 = SrvLoop (serving 3 4 5 6 7).
Proof.
  pose proof (event_handler_init_correct demo_loop 3 I I) as H.
  destruct (event_handler_init demo_loop 3 srv0) as [rc s| |s] eqn:E; [discriminate E|discriminate E|].
  destruct H as (r & w & lr & lw & (H1 & H2 & _) & ->). injection H1 as <- <-. injection H2 as <- <-. reflexivity.
Defined.

Definition demo_conf : CSF_CONF :=
  mk_csf_conf 24 10 0 0 0 0 22222 (L"tcp") [] (L"csf") (L"csf") [] [] [] [].

Definition demo_worker : worker_calls :=
  mk_worker_calls (fun _ => 0) (replicate 20 NUL) (fun _ => Some (Go demo_conf)) (true, true, 9) true (fun _ => Some 3)
    demo_ids demo_loop.


Lemma worker_exit_reaches_supervisor_witness :
  worker_main demo_worker (L"/opt/worker") (L"worker") [OptH] (mk_ids 0 0 None) = PExit 0 /\
  exists s', main_round (round_of (mk_life 77 [] (Ended (Exited 0)))) sup0 = Supervisor.Ret tt [] s' /\
    pauses s' = [DELAY_RESTARTING].
Proof.
  assert (E : worker_main demo_worker (L"/opt/worker") (L"worker") [OptH] (mk_ids 0 0 None) = PExit 0) by (vm_compute; reflexivity).
  split; [exact E|].
  destruct (worker_exit_reaches_supervisor demo_worker (L"/opt/worker") (L"worker") [OptH] (mk_ids 0 0 None) 0 77 sup0 ltac:(lia) E)
    as (_ & s' & Hp & Hr).
  exists s'. split; [exact Hr|exact Hp].
Defined.
